(* ===== verification/_CoqProject ===== *)
-Q . S2P
Prelude.v
GoBase.v
GoStrings.v
Utf8.v
Errors.v
Strconv.v
Sha256.v
LeaseKey.v
LeasePolicy.v
Backend.v
Serving.v
Native.v
ValkeyServer.v
Valkey.v
ValkeyServing.v
Inspect.v
Postgres.v
Schema.v
PostgresServing.v
Memory.v
MemoryServing.v
Conformance.v
Fixtures.v
Observation.v
Handle.v
Runtime.v
Simulation.v
Client.v
Schedule.v
Sources.v
Managed.v
Stopping.v
Driven.v
Keeping.v
Examples.v
Guard.v
System.v
Service.v
Protected.v
Fenced.v
Runs.v
