(* ===== verification/Prelude.v ===== *)
(** * lease: a verification development

    The program is a Go library of expiring leases with fencing tokens. A client
    acquires a key at a backend and gets a handle; the handle admits work until a
    local deadline, can be renewed, validated and released, and carries a fence, a
    number that the protected resource compares. Three backends implement one
    interface; adapters run queue and scheduler work under leases and account for
    the leases of a service.

    ** Parts and files

    - key.go, policy.go, errors.go, internal/failure: [LeaseKey], [LeasePolicy],
      [Errors]. The parts of Go they stand on are in [GoBase] (error values with
      [errors.Is] and [errors.Join], instants, contexts), [GoStrings] (byte strings,
      UTF-8 validity, [strings.Cut]), [Strconv] and [Sha256]; [Utf8] relates the
      validity test to an encoder of Unicode scalar values.
    - record.go, backend.go: [Backend]. The contract of the [Backend] interface is an
      abstract machine with one state per key, [spec_step]; the class [LeaseBackend]
      has the implementations whose atomic calls it simulates. The class
      [ServingBackend] of [Serving] is the other half: what a backend answers when
      its requests arrive.
    - memory/store.go: [Memory]. One method is one function on the store.
    - valkey/: [ValkeyServer] (the server commands, a class with their documented
      laws and an executable instance), [Valkey] (the Lua scripts, the Go side) and
      [Inspect] (the inspection of a server by Open).
    - postgres/: [Postgres] (the five statements on the two tables, the Go side) and
      [Schema] (the migration as DDL syntax with its meaning). [Native] has what the
      two servers share: the fate of a request and the server clock.
    - [MemoryServing], [ValkeyServing] and [PostgresServing] discharge [Serving].
    - leasetest/: [Conformance], the manual clock and the backend conformance suite
      as an executable test; [Fixtures] has the fixtures of the three stores.
    - observation.go: [Observation], the four methods of the decorator over any
      implementation of the interface.
    - handle.go: [Handle]. Each critical section is one function with the clock
      readings as arguments; goroutines interleave in the step relation [hstep].
    - client.go: [Client], computations of a state monad over the world of
      [Runtime], whose clocks, sleeper, sources, contexts and backend are an
      arbitrary environment (class [Env]). [Simulation] is an executable one
      over the memory store; [Schedule] says when the retry loop makes its attempts
      there; [Sources] has the default owner, jitter and sleep sources.
    - managed.go and the whole methods of handle.go: [Managed]. [Stopping] has
      [Stop] against a renewer at any point of its loop. [Driven] is a world over a
      fixture of [Conformance], reached through a driver that can be closed, and
      [Keeping] shows there that renewal keeps a lease.
    - internal/guard, adapters/queue, adapters/scheduler: [Guard].
    - adapters/service/manager.go: [Service], a step relation of critical sections.
    - [System] puts clients, handles and one backend together; [Runs] places the
      methods of [Client] and [Managed] in it.
    - examples/protectedwrite: [Protected], the resource side of fencing, and
      [Fenced], the resource beside the whole of [System].
    - examples/postgres and examples/valkey: [Examples], the two programs with
      their deferred calls, in the world of [Driven].

    Names follow the source: a Go function or method [f] is [f] here, or carries
    its receiver where two would collide ([HandleRenew], [WorkerRun]); the parts of
    a method between two backend calls are [begin...] and [finish...] functions.

    ** What is proved

    - Safety of the whole ([System]): from the contract and the critical sections
      alone, for every reachable state of any number of clients, with lost replies,
      faults and calls performed after their callers gave up: handles that admit work
      hold different keys, such a handle is the backend's current holder, and fences
      identify handles. [release_window] records what stays open: between the
      execution of a release and its reply, [State] still says active. [Fenced] adds
      the resource: writers that ask nobody are kept in fence order, the current
      holder is not locked out, and nobody overwrites it. [Runs] joins the two views of
      a process: every sequence of method calls, in an environment made of other
      processes, is a run of [System].
    - Refinement: the memory, Valkey and PostgreSQL stores implement the contract,
      with a granularity of 0, two milliseconds, and a millisecond and a
      microsecond; the observing backend is transparent. So the results of [System]
      hold for each of them.
    - Service: the three stores answer what the interface of [Serving] promises, so
      the conformance suite passes on every fixture over them, in both orders of its
      map iteration, and the example programs run to their end and leave the key
      free and the driver closed.
    - Schema: the statements of [Postgres] keep every declared constraint of the
      tables, and the migration creates exactly them and is reversible.
    - Handles ([Handle]): single flight, terminal states, stable identity, and the
      complete tables of [State], [Renew] and [Release].
    - Acquisition ([Client]): termination, number of calls, errors, slots, and what a
      granted handle rests on, in every environment; in the world of [Simulation] the
      loop makes exactly the attempts of its schedule, for any values drawn from the
      jitter source ([Acquire_follows_schedule]).
    - Managed renewal ([Managed], [Stopping], [Keeping]): over any healthy backend,
      with a budget that has room for the period, the sleeper's slack and two
      latencies, renewal keeps a lease for any number of rounds; a reported loss is a
      closed handle; slots balance; [Stop] ends renewal and nothing else, and the
      table of what it returns; an overlapping operation ends renewal too.
    - Work under a lease ([Guard]): whatever callback, renewer and backend do, the
      acquired handle is closed when [Run] returns, and success means released.
    - The service manager ([Service]): accounting, complete shutdown, and progress.
    - Values and edges: keys and policies accept exactly what is documented and keys
      round-trip; cluster slots of Valkey keys; classification of failures; which
      servers [Open] accepts; owners, jitter and sleep of the default sources.

    ** Modelling decisions and bounds

    Durations are int64, fences uint64, attempts uint32, with wrap-around written
    out ([+64], [-64], [wrapu64], [wrapu32]) where the code computes on them; an
    instant is a [Z] of nanoseconds since Go's zero time. A Go pair of value and
    error is a [result]. A panic, such as closing a channel twice, is the absence of
    a result, and [manager_accounting] excludes it.

    The loop of [Acquire] has the attempts of the policy as fuel, and
    [Acquire_terminates] shows that this is enough and that more changes nothing.
    The loop of a renewer does not end by itself: its number of rounds is a
    parameter, and the results hold for all of them. In [Guard.Run] the same number
    bounds the wait for the renewer; [None] means that [Run] still waits. In
    [Stopping.Stop] it is the progress of the renewer before the select is decided,
    and which ready case the select takes is a parameter. The default sleeper of
    [Sources] has the delays of the runtime as parameters: a timer fires at or after
    its duration.

    A handle [admits] work in [System] when it reports active and has no release of
    its own in flight; [State] alone does not tell the two apart, which is what
    [release_window] is about. In [Service] the section of [Shutdown] and the first
    locked read of the cleanup goroutine are one step, as no reservation can come
    between them once the manager is closed.

    In [System] the process clocks and the backend clock run at one rate, the
    backend's displaced by a constant skew; injected clocks are arbitrary. Policies
    come from [NewPolicy] with a safety margin of at least the granularity. The Lua
    scripts compute in doubles: times are below 10^14 milliseconds, where they
    are exact and print as integers. A script runs atomically at a frozen server
    clock; an SQL statement is one transaction. The keys in use have different
    digests.

    ** Not modelled

    The SQL statements on one key are serial: under READ COMMITTED a release that
    waits for the row lock of a concurrent duplicate may still see the old snapshot
    and answer stale where the serial order answers idempotently.

    Connections, TLS and authentication belong to the drivers; the runtime's timers
    and clocks are the environment of a client. Panics of callbacks are left out. The
    methods that only hand a call on to a caller's object are left out too: [Shutdown],
    [Queue] and [Request] of the queue worker, [Hooks] of the service manager,
    [ObserverFunc]. Tests are not part of the program, apart from the fixtures of the
    conformance suite.

    ** Plan

    Next are a finer [Guard], in which the slices of a callback also interleave with
    the parts of a renewal round; concurrent SQL statements on one key below the level
    of whole transactions; requests of the process at hand in [Runs] that the backend
    performs after their method has returned, which [System] covers and the class
    [SystemEnv] excludes; and the shared capacity of several clients in [System]. *)

From stdpp Require Export base tactics list gmap strings option numbers.
From Stdlib Require Export ZArith Lia.

#[global] Open Scope Z_scope.

(** ** Proof automation shared by the components *)

(** Lemmas that close routine well-formedness and frame goals. *)
Create HintDb lease discriminated.
(** Rewriting rules that normalise the projections of updated states. *)
Create Rewrite HintDb lease_simpl.

(** Split every boolean test of the context and the goal into its propositional
    meaning; this is how the guards of the Go code become hypotheses. *)
Ltac bool_split :=
  repeat match goal with
  | H : (_ && _)%bool = true |- _ => apply andb_true_iff in H; destruct H
  | H : (_ && _)%bool = false |- _ => apply andb_false_iff in H
  | H : (_ || _)%bool = false |- _ => apply orb_false_iff in H; destruct H
  | H : (_ || _)%bool = true |- _ => apply orb_true_iff in H
  | H : negb _ = true |- _ => apply negb_true_iff in H
  | H : negb _ = false |- _ => apply negb_false_iff in H
  | H : (_ <? _) = true |- _ => apply Z.ltb_lt in H
  | H : (_ <? _) = false |- _ => apply Z.ltb_ge in H
  | H : (_ <=? _) = true |- _ => apply Z.leb_le in H
  | H : (_ <=? _) = false |- _ => apply Z.leb_gt in H
  | H : (_ =? _) = true |- _ => apply Z.eqb_eq in H
  | H : (_ =? _) = false |- _ => apply Z.eqb_neq in H
  | H : String.eqb _ _ = true |- _ => apply String.eqb_eq in H
  | H : String.eqb _ _ = false |- _ => apply String.eqb_neq in H
  | H : bool_decide _ = true |- _ => apply bool_decide_eq_true_1 in H
  | H : bool_decide _ = false |- _ => apply bool_decide_eq_false_1 in H
  end.

(** Case analysis on the next [if] or [match] of the goal, remembering it. *)
Ltac step_case :=
  match goal with
  | |- context [ if ?b then _ else _ ] => destruct b eqn:?
  | |- context [ match ?x with _ => _ end ] => destruct x eqn:?
  end.

(** The same on a hypothesis. *)
Ltac step_case_in H :=
  match type of H with
  | context [ if ?b then _ else _ ] => destruct b eqn:?
  | context [ match ?x with _ => _ end ] => destruct x eqn:?
  end.

(** Run all the guards of a hypothesis of the form [operation = outcome]. *)
Ltac run_guards H := repeat (step_case_in H; simplify_eq/=); bool_split.

(** ** Results: the [(value, error)] pairs of the Go code *)

(** Outcome of a fallible Go call: the code returns a value exactly when the error
    is nil, so the pair is a sum. *)
Inductive result (E A : Type) :=
| Ok (a : A)
| Err (e : E).
Arguments Ok {_ _} _.
Arguments Err {_ _} _.

Definition is_ok {E A} (r : result E A) : bool :=
  match r with Ok _ => true | Err _ => false end.

Definition ok_value {E A} (r : result E A) : option A :=
  match r with Ok a => Some a | Err _ => None end.

(** ** A state monad: code that reads and changes a world *)

(** [M W A] is a computation over the world [W]; stdpp's [x ← c; k] is its
    sequencing. *)
Definition M (W A : Type) : Type := W -> A * W.

#[global] Instance M_ret {W} : MRet (M W) := fun _ a w => (a, w).
#[global] Instance M_bind {W} : MBind (M W) :=
  fun _ _ f c w => let (a, w') := c w in f a w'.

Definition getw {W} : M W W := fun w => (w, w).
Definition modw {W} (f : W -> W) : M W () := fun w => ((), f w).

Lemma M_bind_eq {W A B} (c : M W A) (f : A -> M W B) w :
  (c ≫= f) w = f (fst (c w)) (snd (c w)).
Proof. unfold mbind, M_bind. by destruct (c w). Qed.

Lemma M_ret_eq {W A} (a : A) (w : W) : (mret a : M W A) w = (a, w).
Proof. reflexivity. Qed.

#[global] Hint Rewrite @M_bind_eq @M_ret_eq : lease_simpl.

(** [mkeeps R c]: whatever [c] does to the world is within the preorder [R].
    [mpost Q c]: [c] always ends with a value and a world that satisfy [Q]. *)
Definition mkeeps {W A} (R : relation W) (c : M W A) : Prop := forall w, R w (c w).2.
Definition mpost {W A} (Q : A -> W -> Prop) (c : M W A) : Prop := forall w, Q (c w).1 (c w).2.

Lemma mkeeps_ret {W A} (R : relation W) `{!Reflexive R} (a : A) : mkeeps R (mret a).
Proof. intros w. simpl. reflexivity. Qed.

Lemma mkeeps_bind {W A B} (R : relation W) `{!Transitive R} (c : M W A) (f : A -> M W B) :
  mkeeps R c -> (forall a, mkeeps R (f a)) -> mkeeps R (c ≫= f).
Proof. intros Hc Hf w. rewrite M_bind_eq. etransitivity; [apply Hc|apply Hf]. Qed.

Lemma mpost_at {W A} (Q : A -> W -> Prop) (c : M W A) w : mpost Q c -> Q (c w).1 (c w).2.
Proof. intros H. apply H. Qed.

Lemma mpost_ret {W A} (Q : A -> W -> Prop) (a : A) : (forall w, Q a w) -> mpost Q (mret a).
Proof. intros H w. apply H. Qed.

Lemma mpost_bind {W A B} (Q : B -> W -> Prop) (c : M W A) (f : A -> M W B) :
  (forall a, mpost Q (f a)) -> mpost Q (c ≫= f).
Proof. intros H w. rewrite M_bind_eq. apply H. Qed.

(** The same, remembering the step that was made. *)
Lemma mpost_bind_eq {W A B} (Q : B -> W -> Prop) (c : M W A) (f : A -> M W B) w :
  (forall a w1, c w = (a, w1) -> Q (f a w1).1 (f a w1).2) ->
  Q ((c ≫= f) w).1 ((c ≫= f) w).2.
Proof. intros H. rewrite M_bind_eq. apply H. by destruct (c w). Qed.

(** Two computations with the same first step agree when their continuations do. *)
Lemma M_bind_ext {W A B} (c : M W A) (f g : A -> M W B) w :
  (forall a w1, f a w1 = g a w1) -> (c ≫= f) w = (c ≫= g) w.
Proof. intros H. rewrite !M_bind_eq. apply H. Qed.

(** Hoare triples: from every world of [P], [c] ends in [Q]. *)
Definition triple {W A} (P : W -> Prop) (c : M W A) (Q : A -> W -> Prop) : Prop :=
  forall w, P w -> Q (c w).1 (c w).2.

Lemma triple_ret {W A} (P : W -> Prop) (Q : A -> W -> Prop) (a : A) :
  (forall w, P w -> Q a w) -> triple P (mret a) Q.
Proof. intros H w. apply H. Qed.

Lemma triple_bind {W A B} (P : W -> Prop) (R : A -> W -> Prop) (Q : B -> W -> Prop)
    (c : M W A) (f : A -> M W B) :
  triple P c R -> (forall a, triple (R a) (f a) Q) -> triple P (c ≫= f) Q.
Proof. intros Hc Hf w Hw. rewrite M_bind_eq. by apply Hf, Hc. Qed.

Lemma triple_conseq {W A} (P P' : W -> Prop) (Q Q' : A -> W -> Prop) (c : M W A) :
  triple P' c Q' -> (forall w, P w -> P' w) -> (forall a w, Q' a w -> Q a w) -> triple P c Q.
Proof. intros H HP HQ w Hw. apply HQ, H, HP, Hw. Qed.

(** Walk through a computation to its returns. *)
Ltac mpost_walk :=
  repeat first [ apply mpost_bind; intros ? | apply mpost_ret; intros ? | step_case ].
Ltac mkeeps_walk tac :=
  repeat first [ apply mkeeps_ret; apply _ | apply mkeeps_bind; [apply _ | | intros ?]
               | solve [tac] | step_case ].

(** Run a computation symbolically: push the world through every bind. *)
Ltac run_monad := repeat (rewrite ?M_bind_eq, ?M_ret_eq; simpl).

(** ** Machine integers *)

Definition int64_min : Z := -9223372036854775808.
Definition int64_max : Z := 9223372036854775807.
Definition uint64_max : Z := 18446744073709551615.
Definition uint32_max : Z := 4294967295.

Definition is_int64 (x : Z) : Prop := int64_min <= x <= int64_max.
Definition is_uint64 (x : Z) : Prop := 0 <= x <= uint64_max.
Definition is_uint32 (x : Z) : Prop := 0 <= x <= uint32_max.

(** Two's complement wrap-around of a mathematical integer at 64 bits, and the
    unsigned reductions at 64 and 32 bits. *)
Definition wrap64 (x : Z) : Z := (x + 2 ^ 63) mod 2 ^ 64 - 2 ^ 63.
Definition wrapu64 (x : Z) : Z := x mod 2 ^ 64.
Definition wrapu32 (x : Z) : Z := x mod 2 ^ 32.

Lemma wrap64_id x : is_int64 x -> wrap64 x = x.
Proof.
  unfold is_int64, int64_min, int64_max, wrap64. intros H.
  rewrite Z.mod_small; lia.
Qed.

Lemma wrap64_range x : is_int64 (wrap64 x).
Proof.
  unfold is_int64, int64_min, int64_max, wrap64.
  pose proof (Z.mod_pos_bound (x + 2 ^ 63) (2 ^ 64) ltac:(lia)). lia.
Qed.

Lemma wrapu64_id x : is_uint64 x -> wrapu64 x = x.
Proof. unfold is_uint64, uint64_max, wrapu64. intros H. apply Z.mod_small. lia. Qed.

Lemma wrapu32_id x : is_uint32 x -> wrapu32 x = x.
Proof. unfold is_uint32, uint32_max, wrapu32. intros H. apply Z.mod_small. lia. Qed.

Lemma wrapu32_range x : is_uint32 (wrapu32 x).
Proof.
  unfold is_uint32, uint32_max, wrapu32.
  pose proof (Z.mod_pos_bound x (2 ^ 32) ltac:(lia)). lia.
Qed.

Declare Scope go_scope.
Delimit Scope go_scope with go.
Notation "x +64 y" := (wrap64 (x + y)) (at level 50, left associativity) : go_scope.
Notation "x -64 y" := (wrap64 (x - y)) (at level 50, left associativity) : go_scope.
#[global] Open Scope go_scope.

#[export] Hint Resolve wrap64_range wrapu32_range : lease.
