(* ===== verification/GoBase.v ===== *)
(** * The part of Go and of its standard library the lease code uses

    Error values with [errors.Is], [errors.Join] and the [%w] verb; instants and
    durations of package [time]; contexts. *)

From S2P Require Import Prelude.

Scheme All for list.

(** ** Errors *)

(** The error values the code compares by identity: the eight sentinels of
    errors.go, the two of package [context], and [pgx.ErrNoRows]. *)
Inductive sentinel :=
| ErrContended
| ErrTimeout
| ErrCanceled
| ErrLost
| ErrStaleOwner
| ErrBackendUnavailable
| ErrInvalidState
| ErrAmbiguousOutcome
| Canceled
| DeadlineExceeded
| ErrNoRows.

#[global] Instance sentinel_eq_dec : EqDecision sentinel.
Proof. solve_decision. Defined.

(** An error value with its wrapping structure: a sentinel, an error of code
    outside this library, [fmt.Errorf] around one [%w], [errors.Join], and
    the [Classified] struct of internal/failure. *)
Inductive error :=
| Sentinel (s : sentinel)
| Foreign (text : string)
| Errorf (before : string) (wrapped : error) (after : string)
| Joined (errs : list error)
| Classified (operation : string) (classification cause : error).

(** A nil-able Go [error]. *)
Abbreviation err_opt := (option error).
Abbreviation res := (result error).

(** [errors.Is(err, target)] for a non-nil [err] and a sentinel target. *)
Fixpoint Is (err : error) (target : sentinel) : bool :=
  match err with
  | Sentinel s => bool_decide (s = target)
  | Foreign _ => false
  | Errorf _ e _ => Is e target
  | Joined es => existsb (fun e => Is e target) es
  | Classified _ c k => Is c target || Is k target
  end.

(** [errors.Join]: nil errors are dropped, nil when nothing is left. *)
Definition Join (errs : list err_opt) : err_opt :=
  match omap id errs with
  | [] => None
  | es => Some (Joined es)
  end.

(** [errors.Is] on a nil-able error. *)
Definition IsOpt (err : err_opt) (target : sentinel) : bool :=
  match err with None => false | Some e => Is e target end.

Lemma IsOpt_Join errs target :
  IsOpt (Join errs) target = existsb (fun e => IsOpt e target) errs.
Proof.
  assert (H : IsOpt (Join errs) target = existsb (fun e => Is e target) (omap id errs)).
  { unfold Join. by destruct (omap id errs). }
  rewrite H. clear H. induction errs as [|[e|] errs IH]; csimpl; [done| |done].
  f_equal. exact IH.
Qed.

Lemma Join_None errs : Join errs = None <-> Forall (fun e => e = None) errs.
Proof.
  unfold Join. split.
  - intros H. assert (Hn : omap id errs = []) by (by destruct (omap id errs)).
    clear H. induction errs as [|[e|] errs IH]; simpl in *; [done|done|].
    constructor; auto.
  - intros H. assert (Hn : omap id errs = []).
    { induction H as [|e errs -> ? IH]; simpl; auto. }
    by rewrite Hn.
Qed.

(** ** Time *)

(** A [time.Duration]: nanoseconds in an int64. *)
Abbreviation Duration := Z (only parsing).
(** A [time.Time]: nanoseconds since the zero instant of Go (January 1, year 1),
    so that [time.Time{}] is 0. Each clock domain is one such line. *)
Abbreviation Time := Z (only parsing).

Definition Nanosecond : Duration := 1.
Definition Millisecond : Duration := 1000000.
Definition Second : Duration := 1000000000.
Definition Minute : Duration := 60 * Second.
Definition Hour : Duration := 60 * Minute.

(** Arithmetic on durations. *)
Ltac durations := unfold Hour, Minute, Second, Millisecond in *; lia.

Definition Add (t : Time) (d : Duration) : Time := t + d.
Definition Before (t u : Time) : bool := t <? u.
Definition After (t u : Time) : bool := u <? t.
Definition Equal (t u : Time) : bool := t =? u.
Definition IsZero (t : Time) : bool := t =? 0.

(** [Duration.Milliseconds]: integer division, truncated toward zero. *)
Definition Milliseconds (d : Duration) : Z := Z.quot d Millisecond.

(** Seconds between the zero instant and the Unix epoch. *)
Definition unix_to_internal : Z := 62135596800.
Definition UnixMilli (ms : Z) : Time := (unix_to_internal * 1000 + ms) * Millisecond.

(** ** Contexts *)

(** A non-nil [context.Context]: the root, a context of the caller, and the
    derived contexts the library builds. *)
Inductive Context :=
| Background
| CallerContext (id : nat)
| WithDeadline (parent : Context) (deadline : Time)
| WithCancel (parent : Context) (id : nat)
| WithoutCancel (parent : Context)
| WithToken (parent : Context) (token : Z).
