(* ===== verification/GoStrings.v ===== *)
(** * Go strings: byte sequences and the functions of [strings] and [unicode/utf8]
    the lease code calls

    A Go string is a sequence of bytes; an [ascii] is one byte and a [string] of
    the Standard Library one such sequence. *)

From S2P Require Import Prelude GoBase.
From Stdlib Require Import Ascii.

#[global] Arguments String.append !_ _ : simpl nomatch.
#[global] Open Scope string_scope.
#[global] Open Scope Z_scope.

(** The value of a byte. *)
Definition byte_val (c : ascii) : Z := Z.of_N (N_of_ascii c).

(** [len(s)]. *)
Definition len (s : string) : Z := Z.of_nat (String.length s).

(** [strings.Cut(s, sep)] for a one-byte separator: the text around the first
    occurrence, [None] when the separator does not occur. *)
Fixpoint Cut (sep : ascii) (s : string) : option (string * string) :=
  match s with
  | EmptyString => None
  | String c rest =>
      if Ascii.eqb c sep then Some (EmptyString, rest)
      else match Cut sep rest with
           | Some (before, after) => Some (String c before, after)
           | None => None
           end
  end.

(** [strings.ContainsAny(s, chars)] for a set of ASCII characters. *)
Fixpoint ContainsAny (s : string) (chars : list ascii) : bool :=
  match s with
  | EmptyString => false
  | String c rest => existsb (Ascii.eqb c) chars || ContainsAny rest chars
  end.

(** The continuation bytes that the first byte of a UTF-8 sequence calls for, as
    the accepted range of each; [None] for a byte that starts no sequence. This is
    the [first]/[acceptRanges] table of package utf8: no overlong form, no
    surrogate, nothing above U+10FFFF. *)
Definition utf8_first (c : ascii) : option (list (Z * Z)) :=
  let b := byte_val c in
  if b <? 128 then Some []
  else if b <? 194 then None
  else if b <? 224 then Some [(128, 191)]
  else if b =? 224 then Some [(160, 191); (128, 191)]
  else if b =? 237 then Some [(128, 159); (128, 191)]
  else if b <? 240 then Some [(128, 191); (128, 191)]
  else if b =? 240 then Some [(144, 191); (128, 191); (128, 191)]
  else if b <? 244 then Some [(128, 191); (128, 191); (128, 191)]
  else if b =? 244 then Some [(128, 143); (128, 191); (128, 191)]
  else None.

(** The decoder with the continuation ranges still expected. *)
Fixpoint utf8_run (pending : list (Z * Z)) (s : string) : bool :=
  match s with
  | EmptyString => match pending with [] => true | _ => false end
  | String c rest =>
      match pending with
      | [] => match utf8_first c with
              | None => false
              | Some next => utf8_run next rest
              end
      | (lo, hi) :: more =>
          if (lo <=? byte_val c) && (byte_val c <=? hi) then utf8_run more rest else false
      end
  end.

(** [utf8.ValidString]. *)
Definition ValidString (s : string) : bool := utf8_run [] s.

(** UTF-8 without NUL: what a database can hold as text. *)
Definition text_ok (s : string) : bool := ValidString s && negb (ContainsAny s [ascii_of_N 0]).

(** ** Lemmas *)

Lemma len_app s t : len (s ++ t) = len s + len t.
Proof.
  unfold len. induction s as [|c s IH]; [done|].
  simpl String.append. simpl String.length. rewrite !Nat2Z.inj_succ. lia.
Qed.

Lemma len_cons c s : len (String c s) = 1 + len s.
Proof. unfold len. simpl. lia. Qed.

Lemma len_nonneg s : 0 <= len s.
Proof. unfold len. lia. Qed.

Lemma len_pos s : s <> "" <-> 0 < len s.
Proof. unfold len. destruct s; simpl; split; try done; lia. Qed.

Lemma string_app_assoc (a b c : string) : (a ++ b) ++ c = a ++ (b ++ c).
Proof. induction a as [|x a IH]; simpl; [done|]. by rewrite IH. Qed.

Lemma string_app_nil_r (a : string) : a ++ "" = a.
Proof. induction a as [|x a IH]; simpl; [done|]. by rewrite IH. Qed.

(** Cutting at the first separator loses nothing, and leaves none before it. *)
Lemma Cut_Some sep s before after :
  Cut sep s = Some (before, after) ->
  s = before ++ String sep after /\ ContainsAny before [sep] = false.
Proof.
  revert before. induction s as [|c s IH]; intros before H; simpl in H; [done|].
  destruct (Ascii.eqb_spec c sep) as [->|Hne]; [by simplify_eq|].
  destruct (Cut sep s) as [[b a]|] eqn:E; simplify_eq.
  destruct (IH b eq_refl) as [-> Hb]. split; [done|].
  simpl. rewrite Hb. apply Ascii.eqb_neq in Hne. by rewrite Hne.
Qed.

Lemma Cut_app sep s t :
  ContainsAny s [sep] = false -> Cut sep (s ++ String sep t) = Some (s, t).
Proof.
  induction s as [|c s IH]; intros H; simpl in *.
  - by rewrite Ascii.eqb_refl.
  - apply orb_false_iff in H as [Hc Hs]. rewrite orb_false_r in Hc.
    by rewrite Hc, IH.
Qed.

Lemma ContainsAny_app s t chars :
  ContainsAny (s ++ t) chars = ContainsAny s chars || ContainsAny t chars.
Proof. induction s as [|c s IH]; simpl; [done|]. by rewrite IH, orb_assoc. Qed.

(** The byte ranges of [utf8_first] only accept bytes with the high bit set. *)
Definition high_ranges (p : list (Z * Z)) : Prop := Forall (fun r => 128 <= fst r) p.

Lemma utf8_first_high c p : utf8_first c = Some p -> high_ranges p.
Proof.
  unfold utf8_first, high_ranges. intros H.
  repeat (step_case_in H; simplify_eq); repeat constructor; simpl; lia.
Qed.

(** An ASCII byte between two parts separates them for the decoder too. *)
Lemma utf8_run_app_ascii sep p s t :
  byte_val sep < 128 -> high_ranges p ->
  utf8_run p (s ++ String sep t) = utf8_run p s && utf8_run [] t.
Proof.
  intros Hsep. revert p. induction s as [|c s IH]; intros p Hp; simpl.
  - destruct p as [|[lo hi] p].
    + unfold utf8_first. apply Z.ltb_lt in Hsep. by rewrite Hsep.
    + apply Forall_cons_1 in Hp as [Hlo _]. simpl in Hlo.
      destruct (lo <=? byte_val sep) eqn:E; [bool_split; lia|done].
  - destruct p as [|[lo hi] p].
    + destruct (utf8_first c) as [next|] eqn:E; [|done].
      apply IH. by eapply utf8_first_high.
    + apply Forall_cons_1 in Hp as [_ Hp].
      destruct ((lo <=? byte_val c) && (byte_val c <=? hi)); [by apply IH|done].
Qed.

Lemma ValidString_app_ascii sep s t :
  byte_val sep < 128 ->
  ValidString (s ++ String sep t) = ValidString s && ValidString t.
Proof. intros H. apply utf8_run_app_ascii; [done|constructor]. Qed.
