(* ===== verification/Utf8.v ===== *)
(** * UTF-8, by encoding

    What [utf8.ValidString] accepts, without its table: the encodings of sequences of
    Unicode scalar values, that is, of the code points up to U+10FFFF less the
    surrogates. *)

From S2P Require Import Prelude GoBase GoStrings.
From Stdlib Require Import Ascii.

#[local] Ltac Zify.zify_post_hook ::= Z.div_mod_to_equations.

(** The byte of a value. *)
Definition byte (b : Z) : ascii := ascii_of_N (Z.to_N b).

Definition scalar (r : Z) : Prop := 0 <= r < 55296 \/ 57344 <= r <= 1114111.

(** One to four bytes. *)
Definition encode_rune (r : Z) : string :=
  if r <? 128 then String (byte r) ""
  else if r <? 2048 then String (byte (192 + r / 64)) (String (byte (128 + r mod 64)) "")
  else if r <? 65536 then
    String (byte (224 + r / 4096)) (String (byte (128 + r / 64 mod 64)) (String (byte (128 + r mod 64)) ""))
  else
    String (byte (240 + r / 262144)) (String (byte (128 + r / 4096 mod 64))
      (String (byte (128 + r / 64 mod 64)) (String (byte (128 + r mod 64)) ""))).

Fixpoint encode (rs : list Z) : string :=
  match rs with
  | [] => ""
  | r :: rs' => encode_rune r ++ encode rs'
  end.

Lemma byte_val_range c : 0 <= byte_val c < 256.
Proof. unfold byte_val. pose proof (N_ascii_bounded c). lia. Qed.

Lemma byte_val_byte b : 0 <= b < 256 -> byte_val (byte b) = b.
Proof. intros H. unfold byte_val, byte. rewrite N_ascii_embedding by lia. lia. Qed.

Lemma byte_of c b : byte_val c = b -> c = byte b.
Proof. intros <-. unfold byte, byte_val. by rewrite N2Z.id, ascii_N_embedding. Qed.

(** Decide the comparisons of the goal by arithmetic. *)
Ltac compare_all :=
  repeat match goal with
  | |- context [?a <? ?b] => destruct (Z.ltb_spec a b); try lia
  | |- context [?a <=? ?b] => destruct (Z.leb_spec a b); try lia
  | |- context [?a =? ?b] => destruct (Z.eqb_spec a b); try lia
  end.

(** The decoder reads one encoded scalar value. *)
Lemma run_rune r s : scalar r -> utf8_run [] (encode_rune r ++ s) = utf8_run [] s.
Proof.
  unfold scalar, encode_rune. intros Hr.
  destruct (Z.ltb_spec r 128); [|destruct (Z.ltb_spec r 2048); [|destruct (Z.ltb_spec r 65536)]];
    cbn [String.append utf8_run]; unfold utf8_first; rewrite !byte_val_byte by lia.
  - compare_all. done.
  - compare_all. done.
  - compare_all; cbn [utf8_run]; rewrite ?byte_val_byte by lia; compare_all; done.
  - compare_all; cbn [utf8_run]; rewrite ?byte_val_byte by lia; compare_all; done.
Qed.

(** ** Decoding *)

(** Continuation bytes in their ranges. *)
Lemma run_pending lo hi more s :
  utf8_run ((lo, hi) :: more) s = true ->
  exists c rest, s = String c rest /\ lo <= byte_val c <= hi /\ utf8_run more rest = true.
Proof.
  destruct s as [|c rest]; [done|]. cbn [utf8_run]. intros H. exists c, rest.
  step_case_in H; [|done]. bool_split. done.
Qed.

(** The sequences of the table are encodings. *)
Definition encodes (t : string) : Prop := exists r, scalar r /\ encode_rune r = t.

Lemma encodes1 c : byte_val c < 128 -> encodes (String c "").
Proof.
  intros H. pose proof (byte_val_range c). exists (byte_val c). split; [left; lia|].
  unfold encode_rune. compare_all. by rewrite <- (byte_of c _ eq_refl).
Qed.

Lemma encodes2 c c1 :
  194 <= byte_val c < 224 -> 128 <= byte_val c1 <= 191 -> encodes (String c (String c1 "")).
Proof.
  intros H H1. exists ((byte_val c - 192) * 64 + (byte_val c1 - 128)). split; [left; lia|].
  unfold encode_rune. compare_all. rewrite <- (byte_of c) by lia. by rewrite <- (byte_of c1) by lia.
Qed.

Lemma encodes3 c c1 c2 :
  224 <= byte_val c < 240 -> 128 <= byte_val c1 <= 191 -> 128 <= byte_val c2 <= 191 ->
  (byte_val c = 224 -> 160 <= byte_val c1) -> (byte_val c = 237 -> byte_val c1 <= 159) ->
  encodes (String c (String c1 (String c2 ""))).
Proof.
  intros H H1 H2 H3 H4. exists ((byte_val c - 224) * 4096 + (byte_val c1 - 128) * 64 + (byte_val c2 - 128)).
  split; [unfold scalar; lia|]. unfold encode_rune. compare_all.
  rewrite <- (byte_of c) by lia. rewrite <- (byte_of c1) by lia. by rewrite <- (byte_of c2) by lia.
Qed.

Lemma encodes4 c c1 c2 c3 :
  240 <= byte_val c <= 244 -> 128 <= byte_val c1 <= 191 -> 128 <= byte_val c2 <= 191 ->
  128 <= byte_val c3 <= 191 -> (byte_val c = 240 -> 144 <= byte_val c1) ->
  (byte_val c = 244 -> byte_val c1 <= 143) ->
  encodes (String c (String c1 (String c2 (String c3 "")))).
Proof.
  intros H H1 H2 H3 H4 H5.
  exists ((byte_val c - 240) * 262144 + (byte_val c1 - 128) * 4096 + (byte_val c2 - 128) * 64 + (byte_val c3 - 128)).
  split; [unfold scalar; lia|]. unfold encode_rune. compare_all.
  rewrite <- (byte_of c) by lia. rewrite <- (byte_of c1) by lia. rewrite <- (byte_of c2) by lia.
  by rewrite <- (byte_of c3) by lia.
Qed.

(** A valid text is empty or starts with an encoded scalar value. *)
Lemma run_head s :
  utf8_run [] s = true -> s = "" \/
  exists t rest, encodes t /\ s = t ++ rest /\ utf8_run [] rest = true /\
    (String.length rest < String.length s)%nat.
Proof.
  destruct s as [|c s]; [by left|]. cbn [utf8_run]. intros H. right.
  destruct (utf8_first c) as [ranges|] eqn:Hf; [|done]. unfold utf8_first in Hf.
  repeat (step_case_in Hf; simplify_eq); bool_split;
    repeat (apply run_pending in H as (? & ? & -> & ? & H));
    match goal with
    | |- context [String ?a (String ?b (String ?d (String ?e ?r)))] =>
        exists (String a (String b (String d (String e "")))), r; split; [apply encodes4; lia|]
    | |- context [String ?a (String ?b (String ?d ?r))] =>
        exists (String a (String b (String d ""))), r; split; [apply encodes3; lia|]
    | |- context [String ?a (String ?b ?r)] =>
        exists (String a (String b "")), r; split; [apply encodes2; lia|]
    | |- context [String ?a ?r] => exists (String a ""), r; split; [apply encodes1; lia|]
    end; (split_and!; [done|done|simpl; lia]).
Qed.

(** [utf8.ValidString] accepts exactly the encodings of sequences of scalar values. *)
Lemma ValidString_spec s : ValidString s = true <-> exists rs, Forall scalar rs /\ encode rs = s.
Proof.
  unfold ValidString. split.
  - remember (String.length s) as n eqn:Hn. assert (Hle : (String.length s <= n)%nat) by lia. clear Hn.
    revert s Hle. induction n as [|n IH]; intros s Hle H.
    { exists []. by destruct s; [|simpl in Hle; lia]. }
    destruct (run_head s H) as [->|(t & rest & (r & Hr & <-) & -> & Hrest & Hlt)]; [by exists []|].
    destruct (IH rest) as (rs & Hrs & <-); [lia|done|]. exists (r :: rs). split; [by constructor|done].
  - intros (rs & Hrs & <-). induction Hrs as [|r rs Hr _ IH]; [done|]. cbn [encode]. by rewrite run_rune.
Qed.

Example valid_text :
  encode [8364; 47; 128512] = String (byte 226) (String (byte 130) (String (byte 172) (String "/"
    (String (byte 240) (String (byte 159) (String (byte 152) (String (byte 128) ""))))))) /\
  ValidString (String (byte 237) (String (byte 160) (String (byte 128) ""))) = false.
Proof. by vm_compute. Qed.
