(* ===== verification/Errors.v ===== *)
(** * errors.go and internal/failure: classification and rendering of errors

    The texts of the sentinels, [Wrap], and the classified error, whose text hides
    its cause while [errors.Is] still finds it. *)

From S2P Require Import Prelude GoBase GoStrings.

(** The text of each sentinel: the [errors.New] declarations of errors.go; the
    texts of the standard library's and the driver's sentinels after them. *)
Definition sentinel_text (s : sentinel) : string :=
  match s with
  | ErrContended => "lease: contended"
  | ErrTimeout => "lease: timeout"
  | ErrCanceled => "lease: canceled"
  | ErrLost => "lease: lost"
  | ErrStaleOwner => "lease: stale owner"
  | ErrBackendUnavailable => "lease: backend unavailable"
  | ErrInvalidState => "lease: invalid state"
  | ErrAmbiguousOutcome => "lease: ambiguous outcome"
  | Canceled => "context canceled"
  | DeadlineExceeded => "context deadline exceeded"
  | ErrNoRows => "no rows in result set"
  end.

(** [err.Error()]. *)
Fixpoint ErrorText (err : error) : string :=
  match err with
  | Sentinel s => sentinel_text s
  | Foreign text => text
  | Errorf before e after => before ++ ErrorText e ++ after
  | Joined es => String.concat (String (Ascii.ascii_of_nat 10) "") (map ErrorText es)
  | Classified operation classification _ =>
      "lease " ++ operation ++ ": " ++ ErrorText classification
  end.

(** [lease.Wrap]. *)
Definition Wrap (err : error) (operation : string) : error :=
  Errorf ("lease " ++ operation ++ ": ") err "".

(** [failure.Wrap]. *)
Definition failure_Wrap (classification cause : error) (operation : string) : error :=
  Classified operation classification cause.

(** The [Unwrap] methods, as the list of errors that traversal sees. *)
Definition Unwrap (err : error) : list error :=
  match err with
  | Sentinel _ | Foreign _ => []
  | Errorf _ e _ => [e]
  | Joined es => es
  | Classified _ classification cause => [classification; cause]
  end.

(** A sentinel wrapped with an operation label. *)
Definition WrapS (s : sentinel) (operation : string) : error := Wrap (Sentinel s) operation.

(** [errorIs]. *)
Definition errorIs (err : error) (target : sentinel) : bool := Is err target.

(** ** Lemmas *)

Lemma Is_Wrap err operation target : Is (Wrap err operation) target = Is err target.
Proof. done. Qed.

Lemma Is_WrapS s operation target :
  Is (WrapS s operation) target = bool_decide (s = target).
Proof. done. Qed.

#[global] Hint Rewrite Is_Wrap Is_WrapS : lease_simpl.

(** Traversal is complete: an error matches a sentinel exactly when it is that
    sentinel or one of the errors it unwraps to matches. *)
Lemma Is_Unwrap err target :
  Is err target = true <->
  err = Sentinel target \/ Exists (fun e => Is e target = true) (Unwrap err).
Proof.
  destruct err as [s|t|b e a|es|o c k]; simpl.
  - split; [intros H; left; bool_split; by subst|intros [H|H]].
    + simplify_eq. by apply bool_decide_eq_true_2.
    + by apply Exists_nil in H.
  - split; [done|intros [H|H]; [done|by apply Exists_nil in H]].
  - split; [intros H; right; by constructor|intros [H|H]; [done|]].
    apply Exists_cons in H as [H|H]; [done|by apply Exists_nil in H].
  - rewrite existsb_exists, List.Exists_exists. naive_solver.
  - split; intros H.
    + apply orb_true_iff in H as [H|H]; right; by repeat constructor.
    + destruct H as [H|H]; [done|]. rewrite !Exists_cons, Exists_nil in H.
      apply orb_true_iff. tauto.
Qed.

