(* ===== verification/Strconv.v ===== *)
(** * The functions of [strconv], [encoding/hex] and [strings] of the native backends

    Decimal printing and parsing at 64 bits with Go's range checks, and the round
    trips between them; the printing is that of the Standard Library's [Decimal]. *)

From S2P Require Import Prelude GoBase GoStrings.
From Stdlib Require Import Ascii DecimalString DecimalN.

(** [strconv.FormatUint(n, 10)] and [strconv.FormatInt(n, 10)]. *)
Definition FormatUint (n : Z) : string := NilZero.string_of_uint (N.to_uint (Z.to_N n)).
Definition FormatInt (n : Z) : string :=
  if n <? 0 then String "-" (FormatUint (- n)) else FormatUint n.

(** The two errors of [strconv.NumError]; foreign to the lease sentinels. *)
Definition ErrSyntax : error := Foreign "strconv: invalid syntax".
Definition ErrRange : error := Foreign "strconv: value out of range".

(** [strconv.ParseUint(s, 10, 64)]: digits only, leading zeros allowed. *)
Definition ParseUint (s : string) : res Z :=
  match NilZero.uint_of_string s with
  | None => Err ErrSyntax
  | Some d =>
      let v := Z.of_N (N.of_uint d) in
      if v <=? uint64_max then Ok v else Err ErrRange
  end.

(** [strconv.ParseInt(s, 10, 64)]: an optional sign, then [ParseUint] and the
    cutoff at [2^63]. *)
Definition ParseInt (s : string) : res Z :=
  let '(neg, digits) :=
    match s with
    | String c rest => if Ascii.eqb c "+" then (false, rest)
                       else if Ascii.eqb c "-" then (true, rest) else (false, s)
    | EmptyString => (false, s)
    end in
  match ParseUint digits with
  | Err e => Err e
  | Ok un =>
      if negb neg && (2 ^ 63 <=? un) then Err ErrRange
      else if neg && (2 ^ 63 <? un) then Err ErrRange
      else Ok (if neg then - un else un)
  end.

(** [hex.EncodeToString]. *)
Definition hex_digit (n : Z) : ascii :=
  ascii_of_N (Z.to_N (if n <? 10 then 48 + n else 87 + n)).
Fixpoint EncodeToString (bytes : list Z) : string :=
  match bytes with
  | [] => ""
  | b :: rest => String (hex_digit (b / 16)) (String (hex_digit (b mod 16)) (EncodeToString rest))
  end.

(** [strings.IndexByte(s, c)]; [None] stands for -1. *)
Fixpoint IndexByte (s : string) (c : ascii) : option nat :=
  match s with
  | EmptyString => None
  | String x rest => if Ascii.eqb x c then Some 0%nat else S <$> IndexByte rest c
  end.

#[global] Arguments FormatUint : simpl never.
#[global] Arguments FormatInt : simpl never.
#[global] Arguments ParseUint : simpl never.
#[global] Arguments ParseInt : simpl never.

(** ** Lemmas *)

Lemma uint_of_Format n : 0 <= n ->
  exists d, NilZero.uint_of_string (FormatUint n) = Some d /\ Z.of_N (N.of_uint d) = n.
Proof.
  intros Hn. unfold FormatUint. exists (N.to_uint (Z.to_N n)). split.
  - apply NilZero.usu. destruct (Z.to_N n); [done|]. apply DecimalPos.Unsigned.to_uint_nonnil.
  - rewrite DecimalN.Unsigned.of_to. lia.
Qed.

Lemma ParseUint_FormatUint n : is_uint64 n -> ParseUint (FormatUint n) = Ok n.
Proof.
  intros [H0 H1]. unfold ParseUint. destruct (uint_of_Format n H0) as (d & -> & Hd).
  simpl. rewrite Hd. destruct (Z.leb_spec n uint64_max); [done|lia].
Qed.

Lemma FormatUint_head n : 0 <= n ->
  exists c rest, FormatUint n = String c rest /\ Ascii.eqb c "+" = false /\ Ascii.eqb c "-" = false.
Proof.
  intros Hn. destruct (uint_of_Format n Hn) as (d & Hd & _).
  destruct (FormatUint n) as [|c rest]; [done|]. exists c, rest. split; [done|].
  unfold NilZero.uint_of_string in Hd. simpl in Hd.
  destruct (NilEmpty.uint_of_string rest) as [d'|]; [|done].
  apply uint_of_char_spec in Hd. naive_solver.
Qed.

Lemma ParseInt_FormatInt n : is_int64 n -> ParseInt (FormatInt n) = Ok n.
Proof.
  unfold is_int64, int64_min, int64_max. intros H. unfold FormatInt.
  destruct (Z.ltb_spec n 0).
  - unfold ParseInt. simpl. rewrite ParseUint_FormatUint by (unfold is_uint64, uint64_max; lia).
    step_case; bool_split; [lia|]. f_equal. lia.
  - destruct (FormatUint_head n) as (c & rest & Hf & Hp & Hm); [done|].
    unfold ParseInt. rewrite Hf, Hp, Hm, <- Hf.
    rewrite ParseUint_FormatUint by (unfold is_uint64, uint64_max; lia).
    destruct (Z.leb_spec (2 ^ 63) n); [lia|done].
Qed.

Lemma FormatInt_nonneg n : 0 <= n -> FormatInt n = FormatUint n.
Proof. unfold FormatInt. intros. destruct (Z.ltb_spec n 0); [lia|done]. Qed.

(** A printed number contains neither point nor newline. *)
Lemma FormatInt_plain n c :
  c ∈ ["."; ascii_of_N 10]%char -> ContainsAny (FormatInt n) [c] = false.
Proof.
  intros Hc. assert (H : forall m, ContainsAny (FormatUint m) [c] = false).
  { intros m. unfold FormatUint. set (d := N.to_uint (Z.to_N m)). clearbody d.
    assert (He : ContainsAny (NilEmpty.string_of_uint d) [c] = false).
    { rewrite !elem_of_cons, elem_of_nil in Hc. destruct Hc as [->|[->|[]]];
        induction d; simpl; done. }
    rewrite !elem_of_cons, elem_of_nil in Hc. destruct Hc as [->|[->|[]]]; by destruct d. }
  unfold FormatInt. rewrite !elem_of_cons, elem_of_nil in Hc.
  step_case; destruct Hc as [->|[->|[]]]; simpl; apply H.
Qed.

Lemma FormatUint_inj n m : 0 <= n -> 0 <= m -> FormatUint n = FormatUint m -> n = m.
Proof.
  intros Hn Hm H. destruct (uint_of_Format n Hn) as (d & Hd & <-).
  destruct (uint_of_Format m Hm) as (d' & Hd' & <-). congruence.
Qed.

Lemma EncodeToString_length bytes : String.length (EncodeToString bytes) = (2 * length bytes)%nat.
Proof. induction bytes as [|b bytes IH]; [done|]. simpl EncodeToString. cbn [String.length length]. lia. Qed.

(** The text after a byte that does not occur before. *)
Lemma IndexByte_app s c rest :
  IndexByte s c = None -> IndexByte (s ++ String c rest) c = Some (String.length s).
Proof.
  induction s as [|x s IH]; simpl; intros H; [by rewrite Ascii.eqb_refl|].
  destruct (Ascii.eqb x c); [done|]. apply fmap_None in H. by rewrite IH.
Qed.

Example strconv_examples :
  FormatInt (-120) = "-120" /\ FormatUint 0 = "0" /\ ParseInt "-120" = Ok (-120) /\
  ParseInt "+7" = Ok 7 /\ ParseUint "007" = Ok 7 /\ ParseUint "" = Err ErrSyntax /\
  ParseUint "+7" = Err ErrSyntax /\ ParseUint "18446744073709551616" = Err ErrRange /\
  ParseInt "9223372036854775808" = Err ErrRange /\
  EncodeToString [0; 171; 255] = "00abff".
Proof. by vm_compute. Qed.
