(* ===== verification/Sha256.v ===== *)
(** * crypto/sha256: the digest the native backends derive their keys from

    [Sum256] on byte strings, executable, over 32-bit words kept as [Z]. *)

From S2P Require Import Prelude GoBase GoStrings.
From Stdlib Require Import Ascii.

(** The round constants are the first 32 fractional bits of the cube roots of the
    first 64 primes, and the initial state those of the square roots of the first 8;
    they are computed here from that definition. *)
Fixpoint cube_root (bits : nat) (low n : Z) : Z :=
  match bits with
  | O => low
  | S bits' =>
      let mid := low + 2 ^ Z.of_nat bits' in
      cube_root bits' (if mid * mid * mid <=? n then mid else low) n
  end.

Definition is_prime (n : nat) : bool :=
  forallb (fun d => negb (Nat.eqb (n mod d) 0)) (seq 2 (n - 2)).
Definition primes (bound : nat) : list Z := Z.of_nat <$> List.filter is_prime (seq 2 bound).

Definition sha_k : list Z :=
  Eval vm_compute in (fun p => cube_root 36 0 (p * 2 ^ 96) mod 2 ^ 32) <$> primes 310.
Definition sha_init : list Z :=
  Eval vm_compute in (fun p => Z.sqrt (p * 2 ^ 64) mod 2 ^ 32) <$> take 8 (primes 310).

Definition add32 (x y : Z) : Z := Z.land (x + y) 0xffffffff.
Definition not32 (x : Z) : Z := Z.lxor x 0xffffffff.
Definition rotr (n x : Z) : Z :=
  Z.land (Z.lor (Z.shiftr x n) (Z.shiftl x (32 - n))) 0xffffffff.

Definition big_sigma0 (x : Z) : Z := Z.lxor (rotr 2 x) (Z.lxor (rotr 13 x) (rotr 22 x)).
Definition big_sigma1 (x : Z) : Z := Z.lxor (rotr 6 x) (Z.lxor (rotr 11 x) (rotr 25 x)).
Definition small_sigma0 (x : Z) : Z := Z.lxor (rotr 7 x) (Z.lxor (rotr 18 x) (Z.shiftr x 3)).
Definition small_sigma1 (x : Z) : Z := Z.lxor (rotr 17 x) (Z.lxor (rotr 19 x) (Z.shiftr x 10)).
Definition choose (x y z : Z) : Z := Z.lxor (Z.land x y) (Z.land (not32 x) z).
Definition majority (x y z : Z) : Z := Z.lxor (Z.land x y) (Z.lxor (Z.land x z) (Z.land y z)).

(** The message schedule, newest word first. *)
Fixpoint schedule (n : nat) (ws : list Z) : list Z :=
  match n with
  | O => ws
  | S n' =>
      let w := fun i => default 0 (ws !! i) in
      schedule n' (add32 (add32 (small_sigma1 (w 1%nat)) (w 6%nat))
                         (add32 (small_sigma0 (w 14%nat)) (w 15%nat)) :: ws)
  end.

Definition sha_round (st : list Z) (kw : Z * Z) : list Z :=
  match st with
  | [a; b; c; d; e; f; g; h] =>
      let t1 := add32 (add32 h (big_sigma1 e)) (add32 (choose e f g) (add32 kw.1 kw.2)) in
      let t2 := add32 (big_sigma0 a) (majority a b c) in
      [add32 t1 t2; a; b; c; add32 d t1; e; f; g]
  | _ => st
  end.

Definition sha_block (st block : list Z) : list Z :=
  zip_with add32 st (foldl sha_round st (zip sha_k (reverse (schedule 48 (reverse block))))).

(** Big-endian words of a byte sequence, and back. *)
Fixpoint words (bytes : list Z) : list Z :=
  match bytes with
  | a :: b :: c :: d :: rest => (((a * 256 + b) * 256 + c) * 256 + d) :: words rest
  | _ => []
  end.
Definition word_bytes (w : Z) : list Z :=
  [Z.shiftr w 24; Z.land (Z.shiftr w 16) 255; Z.land (Z.shiftr w 8) 255; Z.land w 255].

Fixpoint string_bytes (s : string) : list Z :=
  match s with
  | EmptyString => []
  | String c rest => byte_val c :: string_bytes rest
  end.

(** The padding: 0x80, zeros up to 56 modulo 64, and the bit length in 64 bits. *)
Definition pad (bytes : list Z) : list Z :=
  let n := length bytes in
  let bits := Z.of_nat n * 8 in
  bytes ++ 128 :: replicate ((119 - n mod 64) mod 64)%nat 0
        ++ word_bytes (Z.shiftr bits 32) ++ word_bytes (Z.land bits 0xffffffff).

Fixpoint sha_blocks (fuel : nat) (st ws : list Z) : list Z :=
  match fuel with
  | O => st
  | S fuel' =>
      match ws with
      | [] => st
      | _ => sha_blocks fuel' (sha_block st (take 16 ws)) (drop 16 ws)
      end
  end.

(** [sha256.Sum256([]byte(s))]: 32 bytes. *)
Definition Sum256 (s : string) : list Z :=
  let ws := words (pad (string_bytes s)) in
  sha_blocks (length ws) sha_init ws ≫= word_bytes.

(** ** Test vectors and length *)

Example sha256_vectors :
  Sum256 "" = [0xe3;0xb0;0xc4;0x42;0x98;0xfc;0x1c;0x14;0x9a;0xfb;0xf4;0xc8;0x99;0x6f;0xb9;0x24;
               0x27;0xae;0x41;0xe4;0x64;0x9b;0x93;0x4c;0xa4;0x95;0x99;0x1b;0x78;0x52;0xb8;0x55] /\
  Sum256 "abc" = [0xba;0x78;0x16;0xbf;0x8f;0x01;0xcf;0xea;0x41;0x41;0x40;0xde;0x5d;0xae;0x22;0x23;
                  0xb0;0x03;0x61;0xa3;0x96;0x17;0x7a;0x9c;0xb4;0x10;0xff;0x61;0xf2;0x00;0x15;0xad] /\
  Sum256 "abcdbcdecdefdefgefghfghighijhijkijkljklmklmnlmnomnopnopq" =
    [0x24;0x8d;0x6a;0x61;0xd2;0x06;0x38;0xb8;0xe5;0xc0;0x26;0x93;0x0c;0x3e;0x60;0x39;
     0xa3;0x3c;0xe4;0x59;0x64;0xff;0x21;0x67;0xf6;0xec;0xed;0xd4;0x19;0xdb;0x06;0xc1].
Proof. by vm_compute. Qed.

Lemma sha_round_length st kw : length (sha_round st kw) = length st.
Proof. unfold sha_round. by repeat (case_match; try done). Qed.

Lemma sha_rounds_length kws : forall st, length (foldl sha_round st kws) = length st.
Proof. induction kws as [|kw kws IH]; intros st; [done|]. simpl. by rewrite IH, sha_round_length. Qed.

Lemma sha_block_length st block : length (sha_block st block) = length st.
Proof. unfold sha_block. rewrite length_zip_with, sha_rounds_length. lia. Qed.

Lemma sha_blocks_length fuel : forall st ws, length (sha_blocks fuel st ws) = length st.
Proof.
  induction fuel as [|fuel IH]; intros st ws; [done|]. destruct ws; [done|].
  simpl. by rewrite IH, sha_block_length.
Qed.

(** A digest has 32 bytes, whatever the input. *)
Lemma Sum256_length s : length (Sum256 s) = 32%nat.
Proof.
  unfold Sum256. set (st := sha_blocks _ _ _).
  assert (H : length st = 8%nat) by apply sha_blocks_length.
  clearbody st. do 9 (destruct st as [|? st]; try done).
Qed.

(** Words stay within 32 bits, so the digest is made of bytes. *)
Lemma add32_range x y : 0 <= add32 x y < 2 ^ 32.
Proof.
  unfold add32. change 0xffffffff with (Z.ones 32). rewrite Z.land_ones by lia.
  apply Z.mod_pos_bound. lia.
Qed.

Lemma zip_add32_range st : forall l, Forall (fun w => 0 <= w < 2 ^ 32) (zip_with add32 st l).
Proof.
  induction st as [|w st IH]; intros l; [constructor|]. destruct l as [|w' l]; [constructor|].
  cbn [zip_with]. constructor; [apply add32_range|apply IH].
Qed.

Lemma sha_blocks_range fuel : forall st ws,
  Forall (fun w => 0 <= w < 2 ^ 32) st -> Forall (fun w => 0 <= w < 2 ^ 32) (sha_blocks fuel st ws).
Proof.
  induction fuel as [|fuel IH]; intros st ws Hst; [done|]. destruct ws; [done|].
  apply IH. apply zip_add32_range.
Qed.

Lemma word_bytes_range w : 0 <= w < 2 ^ 32 -> Forall (fun b => 0 <= b < 256) (word_bytes w).
Proof.
  intros Hw. unfold word_bytes. change 255 with (Z.ones 8).
  repeat constructor; rewrite ?Z.land_ones, ?Z.shiftr_div_pow2 by lia;
    try (apply Z.mod_pos_bound; lia).
  - apply Z.div_pos; lia.
  - apply Z.div_lt_upper_bound; lia.
Qed.

Lemma Sum256_bytes s : Forall (fun b => 0 <= b < 256) (Sum256 s).
Proof.
  unfold Sum256. apply Forall_bind.
  eapply Forall_impl; [exact word_bytes_range|].
  apply sha_blocks_range. unfold sha_init. repeat constructor; lia.
Qed.
