(* ===== verification/LeaseKey.v ===== *)
(** * key.go: bounded lease keys

    [NewKey] and [ParseKey] on byte strings, what they accept, and the round trips
    with [Key.String]. *)

From S2P Require Import Prelude GoBase GoStrings Utf8 Errors.
From Stdlib Require Import Ascii.

(** [MaxKeyBytes]. *)
Definition MaxKeyBytes : Z := 256.

(** [Key]: an immutable wrapper of the encoded identity; [MkKey ""] is the
    unusable zero value. *)
Record Key := MkKey { key_value : string }.

#[global] Instance Key_eq_dec : EqDecision Key.
Proof. solve_decision. Defined.

(** [Key.String]. *)
Definition KeyString (key : Key) : string := key_value key.

Definition slash : ascii := "/".
Definition nul_cr_lf : list ascii := [ascii_of_N 0; ascii_of_N 13; ascii_of_N 10].

(** [validSegment]. *)
Definition validSegment (segment : string) : bool :=
  negb (String.eqb segment "") && ValidString segment && negb (ContainsAny segment nul_cr_lf).

Definition invalid_key : error := Errorf "" (Sentinel ErrInvalidState) ": invalid key".

(** [NewKey]. *)
Definition NewKey (namespace name : string) : res Key :=
  let value := namespace ++ "/" ++ name in
  if negb (validSegment namespace) || negb (validSegment name) || (MaxKeyBytes <? len value)
  then Err invalid_key
  else Ok (MkKey value).

(** [ParseKey]. *)
Definition ParseKey (value : string) : res Key :=
  match Cut slash value with
  | None => Err invalid_key
  | Some (namespace, name) => NewKey namespace name
  end.

(** ** Lemmas *)

Lemma NewKey_inv namespace name k :
  NewKey namespace name = Ok k ->
  validSegment namespace = true /\ validSegment name = true /\
  len (KeyString k) <= MaxKeyBytes /\ KeyString k = namespace ++ "/" ++ name.
Proof.
  unfold NewKey. intros H. step_case_in H; [done|]. simplify_eq. bool_split. done.
Qed.

Lemma NewKey_accepts namespace name :
  validSegment namespace = true -> validSegment name = true ->
  len namespace + 1 + len name <= MaxKeyBytes ->
  NewKey namespace name = Ok (MkKey (namespace ++ "/" ++ name)).
Proof.
  unfold NewKey. intros -> -> Hl. simpl.
  destruct (Z.ltb_spec MaxKeyBytes (len (namespace ++ String "/" name))) as [H|]; [|done].
  rewrite len_app, len_cons in H. lia.
Qed.

Lemma validSegment_nonempty s : validSegment s = true -> s <> "".
Proof. unfold validSegment. intros H. by bool_split. Qed.

(** Validity of a segment, split at an embedded slash: both sides inherit valid
    UTF-8 and the absence of control bytes. *)
Lemma validSegment_split s t :
  validSegment (s ++ String slash t) = true ->
  s <> "" -> t <> "" -> validSegment s = true /\ validSegment t = true.
Proof.
  unfold validSegment. intros H Hs Ht. bool_split.
  rewrite ValidString_app_ascii in * by done.
  rewrite ContainsAny_app in *. simpl in *. bool_split.
  apply String.eqb_neq in Hs, Ht. rewrite Hs, Ht.
  repeat match goal with H : _ = _ |- _ => rewrite H end. done.
Qed.

Lemma validSegment_join s t :
  validSegment s = true -> validSegment t = true ->
  validSegment (s ++ String slash t) = true.
Proof.
  unfold validSegment. intros Hs Ht. bool_split.
  rewrite ValidString_app_ascii by done. rewrite ContainsAny_app. simpl.
  repeat match goal with H : ValidString _ = _ |- _ => rewrite H end.
  repeat match goal with H : ContainsAny _ _ = _ |- _ => rewrite H end.
  destruct s; done.
Qed.

Lemma validSegment_slash t : validSegment t = true -> validSegment (String slash t) = true.
Proof.
  unfold validSegment. intros H. bool_split.
  pose proof (ValidString_app_ascii slash "" t eq_refl) as Hv. simpl in *.
  rewrite Hv. repeat match goal with H : _ = _ |- _ => rewrite H end. done.
Qed.

(** A text either has no slash or splits at its first one. *)
Lemma first_slash s :
  ContainsAny s [slash] = false \/
  exists a b, s = a ++ String slash b /\ ContainsAny a [slash] = false.
Proof.
  destruct (Cut slash s) as [[a b]|] eqn:E.
  - right. exists a, b. by apply Cut_Some.
  - left. induction s as [|c s IH]; [done|]. simpl in *.
    destruct (Ascii.eqb_spec c slash); [done|].
    apply Ascii.eqb_neq in n. destruct (Cut slash s) as [[]|]; [done|].
    by rewrite IH.
Qed.

(** What a segment may be, as documented: text, encoded in UTF-8, without NUL, CR and
    LF. *)
Definition segment_ok (s : string) : Prop :=
  s <> "" /\ (exists rs, Forall scalar rs /\ encode rs = s) /\
  forall c, c ∈ String.list_ascii_of_string s -> byte_val c <> 0 /\ byte_val c <> 13 /\ byte_val c <> 10.

Lemma ContainsAny_false s chars :
  ContainsAny s chars = false <-> forall c, c ∈ String.list_ascii_of_string s -> c ∉ chars.
Proof.
  induction s as [|x s IH]; simpl.
  { split; [|done]. intros _ c Hc. by apply elem_of_nil in Hc. }
  rewrite orb_false_iff, IH. split.
  - intros [Hx Hs] c Hc. apply elem_of_cons in Hc as [->|Hc]; [|by apply Hs]. intros Hin.
    assert (existsb (Ascii.eqb x) chars = true); [|congruence].
    apply existsb_exists. exists x. split; [by apply list_elem_of_In|apply Ascii.eqb_refl].
  - intros H. split; [|intros c Hc; apply H; by right].
    destruct (existsb (Ascii.eqb x) chars) eqn:E; [|done]. apply existsb_exists in E as (y & Hy & ->%Ascii.eqb_eq).
    exfalso. apply (H y); [by left|by apply list_elem_of_In].
Qed.

Lemma nul_cr_lf_spec c : c ∉ nul_cr_lf <-> byte_val c <> 0 /\ byte_val c <> 13 /\ byte_val c <> 10.
Proof.
  unfold nul_cr_lf. rewrite !not_elem_of_cons.
  assert (Hb : forall n, (n < 256)%N -> c <> ascii_of_N n <-> byte_val c <> Z.of_N n).
  { intros n Hn. unfold byte_val. split; intros H He; apply H.
    - apply N2Z.inj in He. by rewrite <- He, ascii_N_embedding.
    - by rewrite He, N_ascii_embedding. }
  rewrite !Hb by done. split; [tauto|]. intros (? & ? & ?). split_and!; [done..|apply not_elem_of_nil].
Qed.

Lemma validSegment_spec s : validSegment s = true <-> segment_ok s.
Proof.
  unfold validSegment, segment_ok. rewrite !andb_true_iff, !negb_true_iff, String.eqb_neq, ValidString_spec,
    ContainsAny_false. setoid_rewrite nul_cr_lf_spec. tauto.
Qed.

(** The decision of [NewKey]. *)
Lemma NewKey_decides namespace name :
  (validSegment namespace = true /\ validSegment name = true /\
     len namespace + 1 + len name <= MaxKeyBytes /\
     exists k, NewKey namespace name = Ok k /\
       KeyString k = namespace ++ "/" ++ name /\ 3 <= len (KeyString k) <= 256)
  \/
  (~ (validSegment namespace = true /\ validSegment name = true /\
        len namespace + 1 + len name <= MaxKeyBytes) /\
     exists e, NewKey namespace name = Err e /\ Is e ErrInvalidState = true).
Proof.
  destruct (NewKey namespace name) as [k|e] eqn:E.
  - left. pose proof (NewKey_inv _ _ _ E) as (Hs & Hn & Hl & Hk).
    apply validSegment_nonempty in Hs as Hs1. apply validSegment_nonempty in Hn as Hn1.
    apply len_pos in Hs1, Hn1.
    rewrite Hk, len_app in Hl. simpl in Hl. rewrite len_cons in Hl.
    split_and!; try done; try lia. exists k. split_and!; try done;
      rewrite Hk, len_app; simpl; rewrite len_cons; unfold MaxKeyBytes in *; lia.
  - right. split.
    + intros (Hs & Hn & Hl). rewrite NewKey_accepts in E by done. done.
    + exists e. unfold NewKey in E. by step_case_in E; simplify_eq.
Qed.

(** Parsing preserves the bytes. *)
Lemma ParseKey_bytes value k : ParseKey value = Ok k -> KeyString k = value.
Proof.
  unfold ParseKey. intros H. destruct (Cut slash value) as [[a b]|] eqn:E; [|done].
  apply Cut_Some in E as [-> _]. by apply NewKey_inv in H as (_ & _ & _ & ->).
Qed.

(** Rendering and parsing. *)
Lemma KeyString_roundtrip namespace name k :
  NewKey namespace name = Ok k ->
  (ParseKey (KeyString k) = Ok k <-> (forall rest, namespace <> String slash rest)) /\
  (forall value, ParseKey value = Ok k -> value = KeyString k).
Proof.
  intros HK. split; [|intros value H; symmetry; by apply ParseKey_bytes]. pose proof (NewKey_inv _ _ _ HK) as (Hs & Hn & Hl & Hk).
  destruct k as [value]. simpl in *. subst value. unfold ParseKey. split.
  - intros H rest ->. simpl in H. unfold NewKey in H. simpl in H. done.
  - intros Hlead. destruct (first_slash namespace) as [Hf|(a & b & -> & Ha)].
    { by rewrite Cut_app. }
    rewrite string_app_assoc. simpl. rewrite Cut_app by done.
    assert (Ha' : a <> "") by (intros ->; by apply (Hlead b)).
    destruct (decide (b = "")) as [->|Hb].
    + assert (validSegment a = true) as Hva.
      { unfold validSegment in *. rewrite ValidString_app_ascii, ContainsAny_app in Hs by done.
        bool_split. apply String.eqb_neq in Ha'. rewrite Ha'.
        repeat match goal with H : _ = _ |- _ => rewrite H end. done. }
      simpl. rewrite NewKey_accepts; try done.
      * by apply validSegment_slash.
      * rewrite !string_app_assoc in Hl. simpl in Hl.
        rewrite len_app, !len_cons in Hl. rewrite len_cons. lia.
    + destruct (validSegment_split a b Hs Ha' Hb) as [Hva Hvb].
      rewrite NewKey_accepts; try done.
      * by apply validSegment_join.
      * rewrite !string_app_assoc in Hl. simpl in Hl.
        rewrite len_app, len_cons, len_app, len_cons in Hl.
        rewrite len_app, len_cons. lia.
Qed.

(** ** Properties *)

(** C37: [NewKey] accepts exactly the pairs of nonempty segments, each the UTF-8 encoding
    of a sequence of Unicode scalar values with no byte NUL, CR or LF, whose joined
    length is at most 256 bytes; the key it builds is their literal join (3 to 256
    bytes), and every rejection is [ErrInvalidState]. The
    rendered key parses back to itself exactly when the namespace it was built from does
    not start with a slash, wherever else slashes occur; and a text that parses to a key
    is its rendering. *)
Theorem NewKey_roundtrip namespace name :
  ((segment_ok namespace /\ segment_ok name /\ len namespace + 1 + len name <= 256 /\
      exists k, NewKey namespace name = Ok k /\
        KeyString k = namespace ++ "/" ++ name /\ 3 <= len (KeyString k) <= 256)
   \/
   (~ (segment_ok namespace /\ segment_ok name /\ len namespace + 1 + len name <= 256) /\
      exists e, NewKey namespace name = Err e /\ Is e ErrInvalidState = true)) /\
  (forall k, NewKey namespace name = Ok k ->
     (ParseKey (KeyString k) = Ok k <-> (forall rest, namespace <> String "/" rest)) /\
     (forall value, ParseKey value = Ok k -> value = KeyString k)).
Proof.
  split; [|intros k; apply KeyString_roundtrip].
  pose proof (NewKey_decides namespace name) as H. rewrite !validSegment_spec in H. exact H.
Qed.

Example ParseKey_inner_slash :
  NewKey "a/b" "c" = Ok (MkKey "a/b/c") /\ ParseKey "a/b/c" = Ok (MkKey "a/b/c").
Proof. by vm_compute. Qed.
