(* ===== verification/LeasePolicy.v ===== *)
(** * policy.go: validated acquisition and renewal policies

    [NewPolicy] with its int64 arithmetic, the documented relations it establishes
    ([policy_valid]), and the admission budget that handles are given. *)

From S2P Require Import Prelude GoBase GoStrings Errors.

Definition MaxTTL : Duration := 24 * Hour.
Definition MaxWait : Duration := Hour.
Definition MaxAttempts : Z := 10000.
Definition MaxOperationTimeout : Duration := Minute.

(** [FailureBehavior] is a uint8 with the single named value 1. *)
Definition FailureFailClosed : Z := 1.

(** [PolicyOptions], field for field; durations are int64, [MaxAttempts] a uint32,
    [FailureBehavior] a uint8. *)
Record PolicyOptions := MkOptions {
  o_TTL : Duration;
  o_Wait : Duration;
  o_Retry : Duration;
  o_Jitter : Duration;
  o_RenewEvery : Duration;
  o_SafetyMargin : Duration;
  o_MaxAttempts : Z;
  o_OperationTimeout : Duration;
  o_FailureBehavior : Z
}.

(** [Policy]: the private fields, read through the accessor methods. *)
Record Policy := MkPolicy {
  ttl : Duration;
  wait : Duration;
  retry : Duration;
  jitter : Duration;
  renewEvery : Duration;
  safetyMargin : Duration;
  maxAttempts : Z;
  operationTimeout : Duration;
  failureBehavior : Z
}.

(** The accessors; the definitions of the library use the fields. *)
Definition TTL (policy : Policy) : Duration := ttl policy.
Definition Wait (policy : Policy) : Duration := wait policy.
Definition Retry (policy : Policy) : Duration := retry policy.
Definition Jitter (policy : Policy) : Duration := jitter policy.
Definition RenewEvery (policy : Policy) : Duration := renewEvery policy.
Definition SafetyMargin (policy : Policy) : Duration := safetyMargin policy.
Definition PolicyMaxAttempts (policy : Policy) : Z := maxAttempts policy.
Definition OperationTimeout (policy : Policy) : Duration := operationTimeout policy.
Definition FailureBehavior (policy : Policy) : Z := failureBehavior policy.

(** [NewPolicy]: the two defaults, then every rejection in the order of the code.
    [remainingTTL] is an int64 subtraction and may wrap. *)
Definition NewPolicy (options : PolicyOptions) : res Policy :=
  let OperationTimeout :=
    if o_OperationTimeout options =? 0 then Z.min (o_TTL options) (30 * Second)
    else o_OperationTimeout options in
  let FailureBehavior :=
    if o_FailureBehavior options =? 0 then FailureFailClosed
    else o_FailureBehavior options in
  let remainingTTL := o_TTL options -64 o_SafetyMargin options in
  let invalidRenewal :=
    if negb (o_RenewEvery options =? 0)
    then (o_RenewEvery options <? 0) || (remainingTTL <=? o_RenewEvery options)
    else o_RenewEvery options <? 0 in
  if (o_TTL options <? Nanosecond) || (MaxTTL <? o_TTL options) ||
     (o_Wait options <? 0) || (MaxWait <? o_Wait options) ||
     (o_Retry options <? 0) || (MaxWait <? o_Retry options) ||
     (o_Jitter options <? 0) || (o_SafetyMargin options <? 0) ||
     (remainingTTL <? Nanosecond) || (o_Retry options <? o_Jitter options) ||
     invalidRenewal ||
     (o_MaxAttempts options =? 0) || (MaxAttempts <? o_MaxAttempts options) ||
     (OperationTimeout <? Nanosecond) || (MaxOperationTimeout <? OperationTimeout) ||
     negb (FailureBehavior =? FailureFailClosed) ||
     ((0 <? o_Wait options) && (o_Retry options =? 0))
  then Err (Errorf "" (Sentinel ErrInvalidState) ": invalid policy")
  else Ok (MkPolicy (o_TTL options) (o_Wait options) (o_Retry options) (o_Jitter options)
             (o_RenewEvery options) (o_SafetyMargin options) (o_MaxAttempts options)
             OperationTimeout FailureBehavior).

(** ** What a policy built by [NewPolicy] satisfies *)

(** The timing relations of the documentation of [PolicyOptions], over the
    mathematical integers. *)
Record policy_valid (p : Policy) : Prop := {
  pv_ttl : 1 <= ttl p <= MaxTTL;
  pv_wait : 0 <= wait p <= MaxWait;
  pv_retry : 0 <= retry p <= MaxWait;
  pv_retry_pos : 0 < wait p -> 0 < retry p;
  pv_jitter : 0 <= jitter p <= retry p;
  pv_margin : 0 <= safetyMargin p < ttl p;
  pv_renew : renewEvery p = 0 \/ 0 < renewEvery p < ttl p - safetyMargin p;
  pv_attempts : 1 <= maxAttempts p <= MaxAttempts;
  pv_timeout : 1 <= operationTimeout p <= MaxOperationTimeout;
  pv_failure : failureBehavior p = FailureFailClosed
}.

(** The local admission budget [policy.TTL() - policy.SafetyMargin()], as the code
    computes it. *)
Definition budget (p : Policy) : Duration := ttl p -64 safetyMargin p.

(** The machine ranges of the option fields. *)
Record options_wf (o : PolicyOptions) : Prop := {
  ow_ttl : is_int64 (o_TTL o);
  ow_margin : is_int64 (o_SafetyMargin o);
  ow_renew : is_int64 (o_RenewEvery o);
  ow_attempts : is_uint32 (o_MaxAttempts o)
}.

(** The documented constraints on the options, with the two defaults filled in. *)
Definition effective (o : PolicyOptions) : Policy :=
  MkPolicy (o_TTL o) (o_Wait o) (o_Retry o) (o_Jitter o) (o_RenewEvery o)
    (o_SafetyMargin o) (o_MaxAttempts o)
    (if decide (o_OperationTimeout o = 0) then Z.min (o_TTL o) (30 * Second)
     else o_OperationTimeout o)
    (if decide (o_FailureBehavior o = 0) then FailureFailClosed else o_FailureBehavior o).

Ltac unfold_policy_constants :=
  unfold MaxTTL, MaxWait, MaxAttempts, MaxOperationTimeout, FailureFailClosed,
    Hour, Minute, Second, Nanosecond, is_int64, is_uint32, int64_min, int64_max,
    uint32_max in *.

(** ** Lemmas *)

(** Whatever the int64 inputs, the wrapped difference is the true one as soon as
    the TTL is in range and the margin is not negative. *)
Lemma remaining_exact t m :
  1 <= t <= MaxTTL -> 0 <= m -> is_int64 m -> t -64 m = t - m.
Proof. intros. apply wrap64_id. unfold_policy_constants. lia. Qed.

Lemma budget_exact p : policy_valid p -> budget p = ttl p - safetyMargin p.
Proof.
  intros []. apply wrap64_id. unfold_policy_constants. lia.
Qed.

Lemma budget_bounds p : policy_valid p -> 0 < budget p <= ttl p.
Proof. intros H. rewrite budget_exact by done. destruct H. lia. Qed.

#[export] Hint Resolve budget_bounds : lease.

Lemma effective_timeout o : operationTimeout (effective o) =
  (if o_OperationTimeout o =? 0 then Z.min (o_TTL o) (30 * Second) else o_OperationTimeout o).
Proof. unfold effective. simpl. case_decide; destruct (Z.eqb_spec (o_OperationTimeout o) 0); done. Qed.

Lemma effective_failure o : failureBehavior (effective o) =
  (if o_FailureBehavior o =? 0 then FailureFailClosed else o_FailureBehavior o).
Proof. unfold effective. simpl. case_decide; destruct (Z.eqb_spec (o_FailureBehavior o) 0); done. Qed.

Lemma NewPolicy_Ok_inv o p :
  options_wf o -> NewPolicy o = Ok p -> p = effective o /\ policy_valid p.
Proof.
  intros [Ht Hm Hr Ha] H. unfold NewPolicy in H. rewrite <- effective_timeout, <- effective_failure in H.
  set (ot := operationTimeout (effective o)) in *.
  set (fb := failureBehavior (effective o)) in *.
  destruct (orb _ _) eqn:G in H; [done|]. simplify_eq. bool_split.
  assert (He : o_TTL o -64 o_SafetyMargin o = o_TTL o - o_SafetyMargin o).
  { apply remaining_exact; auto. }
  rewrite He in *. split; [done|].
  split; simpl; unfold_policy_constants; try lia.
  destruct (Z.eqb_spec (o_RenewEvery o) 0); [by left|right]. simpl in *. bool_split. lia.
Qed.

Lemma NewPolicy_accepts o :
  policy_valid (effective o) -> NewPolicy o = Ok (effective o).
Proof.
  intros [H1 H2 H3 H4 H5 H6 H7 H8 H9 H10].
  unfold NewPolicy. rewrite <- effective_timeout, <- effective_failure.
  unfold effective in H1, H2, H3, H4, H5, H6, H7, H8. simpl in *.
  assert (He : o_TTL o -64 o_SafetyMargin o = o_TTL o - o_SafetyMargin o).
  { apply wrap64_id. unfold_policy_constants. lia. }
  rewrite He. destruct (orb _ _) eqn:G; [exfalso|done].
  unfold_policy_constants.
  repeat match goal with H : (_ || _)%bool = true |- _ => apply orb_true_iff in H as [H|H] end;
    bool_split; try lia.
  destruct (Z.eqb_spec (o_RenewEvery o) 0); simpl in *; lia.
Qed.

(** ** Properties *)

(** C36: on every int64 input, wrap-around included, [NewPolicy] succeeds exactly
    when the options with their two defaults satisfy the documented timing
    relations; the accessors then report the options as given, with the operation
    timeout and the failure behaviour defaulted when they were zero. Every rejection is
    [ErrInvalidState]. *)
Theorem NewPolicy_spec o :
  options_wf o ->
  (exists p, NewPolicy o = Ok p /\ policy_valid (effective o) /\
     TTL p = o_TTL o /\ Wait p = o_Wait o /\ Retry p = o_Retry o /\ Jitter p = o_Jitter o /\
     RenewEvery p = o_RenewEvery o /\ SafetyMargin p = o_SafetyMargin o /\
     PolicyMaxAttempts p = o_MaxAttempts o /\
     OperationTimeout p =
       (if decide (o_OperationTimeout o = 0) then Z.min (o_TTL o) (30 * Second) else o_OperationTimeout o) /\
     FailureBehavior p = FailureFailClosed) \/
  (~ policy_valid (effective o) /\
     exists e, NewPolicy o = Err e /\ Is e ErrInvalidState = true).
Proof.
  intros Hwf. destruct (NewPolicy o) as [p|e] eqn:E.
  - left. exists p. destruct (NewPolicy_Ok_inv o p Hwf E) as [-> Hp]. split; [done|]. split; [done|].
    split_and!; try done. apply Hp.
  - right. split.
    + intros H. by rewrite NewPolicy_accepts in E.
    + exists e. split; [done|]. unfold NewPolicy in E.
      destruct (orb _ _) in E; by simplify_eq.
Qed.

(** A 30 second lease renewed every 10 seconds, as in the README. *)
Definition example_options : PolicyOptions :=
  MkOptions (30 * Second) (2 * Second) (100 * Millisecond) 0 (10 * Second) (5 * Second)
    20 (2 * Second) 0.

Lemma NewPolicy_spec_witness :
  exists p, NewPolicy example_options = Ok p /\ TTL p = 30 * Second /\ OperationTimeout p = 2 * Second.
Proof.
  assert (H : options_wf example_options) by (split; vm_compute; split; discriminate).
  destruct (NewPolicy_spec _ H) as [(p & H1 & _ & H2 & _ & _ & _ & _ & _ & _ & H3 & _)|(_ & e & He & _)].
  - exists p. split; [exact H1|]. split; [exact H2|exact H3].
  - vm_compute in He. discriminate He.
Defined.
