(* ===== verification/Backend.v ===== *)
(** * record.go and backend.go: lease records and the backend contract

    The [Backend] interface of the Go code is a set of four calls with documented
    promises. Here the promises are an abstract machine, one state per key (the
    [vacant(F)] / [owned(F, owner, token, expiry)] table of docs/state-machine.md),
    and [LeaseBackend] is the class of implementations whose atomic calls are
    simulated by it. What follows from the contract alone is proved here, once for
    all backends. *)

From S2P Require Import Prelude GoBase GoStrings Errors LeaseKey.
From Stdlib Require Export Sorted.

(** ** record.go *)

(** [Record]; [Token] is a uint64. *)
Record LeaseRecord := MkRecord {
  r_Key : Key;
  r_Owner : string;
  r_Token : Z;
  r_AcquiredAt : Time;
  r_ExpiresAt : Time
}.

#[global] Instance LeaseRecord_eq_dec : EqDecision LeaseRecord.
Proof. solve_decision. Defined.

(** [Record{}]. *)
Definition zero_record : LeaseRecord := MkRecord (MkKey "") "" 0 0 0.

(** [Record.SafeDeadline]. *)
Definition SafeDeadline (record : LeaseRecord) (margin : Duration) : Time :=
  Add (r_ExpiresAt record) (wrap64 (- margin)).

(** [Record.UsableAt]. *)
Definition UsableAt (record : LeaseRecord) (now : Time) (margin : Duration) : bool :=
  Before now (SafeDeadline record margin).

(** ** backend.go: calls and replies *)

(** The four methods of [Backend] with their arguments. *)
Inductive call :=
| CallTryAcquire (key : Key) (owner : string) (ttl : Duration)
| CallRenew (owned : LeaseRecord) (ttl : Duration)
| CallValidate (owned : LeaseRecord)
| CallRelease (owned : LeaseRecord).

(** What a method returns: a record with a nil error, a nil error alone
    ([Release]), or an error. *)
Inductive reply :=
| Replied (record : LeaseRecord)
| Acknowledged
| Failed (err : error).

(** The results of the methods as replies. *)
Definition reply_of (r : res LeaseRecord) : reply :=
  match r with Ok rec => Replied rec | Err e => Failed e end.
Definition ack_of (e : err_opt) : reply :=
  match e with None => Acknowledged | Some e => Failed e end.

(** The reply as the pair the Go method returns; a bare acknowledgement is no reply
    to a method that returns a record. *)
Definition reply_res (r : reply) : res LeaseRecord :=
  match r with
  | Replied rec => Ok rec
  | Acknowledged => Err (Foreign "no record")
  | Failed e => Err e
  end.
Definition reply_err (r : reply) : err_opt :=
  match r with Failed e => Some e | _ => None end.

Definition call_key (c : call) : string :=
  match c with
  | CallTryAcquire key _ _ => KeyString key
  | CallRenew owned _ | CallValidate owned | CallRelease owned => KeyString (r_Key owned)
  end.

(** ** The abstract machine of one key *)

(** [fence] is the retained fence history [F]; [holder] the owned record. *)
Record key_state := MkKeyState { fence : Z; holder : option LeaseRecord }.

(** The holder, when its lease has not expired. *)
Definition live (now : Time) (k : key_state) : Prop :=
  exists r, holder k = Some r /\ now < r_ExpiresAt r.

(** The same up to the granularity [gran] of the backend's clock. *)
Definition lingers (gran : Duration) (now : Time) (k : key_state) : Prop :=
  exists r, holder k = Some r /\ now < r_ExpiresAt r + gran.

(** Owner and token of a holder, compared with those of a presented record. *)
Definition matches (owned r : LeaseRecord) : Prop :=
  r_Owner r = r_Owner owned /\ r_Token r = r_Token owned.

Definition held_by (owned : LeaseRecord) (k : key_state) : Prop :=
  exists r, holder k = Some r /\ matches owned r.

(** A current owner: matching and not expired. *)
Definition current (now : Time) (owned : LeaseRecord) (k : key_state) : Prop :=
  exists r, holder k = Some r /\ matches owned r /\ now < r_ExpiresAt r.

(** An error that reports the absence of a mutation. Every other error leaves the
    outcome open ([ErrAmbiguousOutcome] in particular). *)
Definition definite (err : error) : bool :=
  (Is err ErrContended || Is err ErrStaleOwner || Is err ErrInvalidState || Is err ErrCanceled)
  && negb (Is err ErrAmbiguousOutcome).

(** The state change of an acquisition, of a renewal and of a release. [gran] is
    the granularity of the backend: it may shorten the requested TTL by it, and may
    notice an expiry late by it (an acquisition never succeeds before the expiry). *)
Definition acquire_effect (gran : Duration) (now : Time) (key : Key) (owner : string)
    (ttl : Duration) (r : LeaseRecord) (k k' : key_state) : Prop :=
  ~ live now k /\ fence k < r_Token r /\
  r_Key r = key /\ r_Owner r = owner /\ r_AcquiredAt r < r_ExpiresAt r /\
  now + ttl - gran <= r_ExpiresAt r /\
  k' = MkKeyState (r_Token r) (Some r).

Definition renew_effect (gran : Duration) (now : Time) (owned : LeaseRecord)
    (ttl : Duration) (r : LeaseRecord) (k k' : key_state) : Prop :=
  exists r0, holder k = Some r0 /\ matches owned r0 /\ now < r_ExpiresAt r0 + gran /\
    r_Key r = r_Key r0 /\ r_Owner r = r_Owner r0 /\ r_Token r = r_Token r0 /\
    r_AcquiredAt r = r_AcquiredAt r0 /\
    now + ttl - gran <= r_ExpiresAt r /\
    k' = MkKeyState (fence k) (Some r).

Definition release_effect (owned : LeaseRecord) (k k' : key_state) : Prop :=
  held_by owned k /\ k' = MkKeyState (fence k) None.

(** No change of ownership. A rejected acquisition may consume fences: the PostgreSQL
    store does, as docs/backend-guarantees.md says; the table of docs/state-machine.md
    has no fence effect there. *)
Definition unchanged (k k' : key_state) : Prop :=
  fence k <= fence k' /\ holder k' = holder k.

(** One atomic call at the backend instant [now]. *)
Inductive spec_step (gran : Duration) (now : Time) :
    call -> reply -> key_state -> key_state -> Prop :=
| spec_acquired key owner ttl r k k' :
    acquire_effect gran now key owner ttl r k k' ->
    spec_step gran now (CallTryAcquire key owner ttl) (Replied r) k k'
| spec_acquire_failed key owner ttl err k k' :
    unchanged k k' -> (Is err ErrContended = true -> definite err = true -> lingers gran now k) ->
    spec_step gran now (CallTryAcquire key owner ttl) (Failed err) k k'
| spec_acquire_uncertain key owner ttl err r k k' :
    definite err = false -> acquire_effect gran now key owner ttl r k k' ->
    spec_step gran now (CallTryAcquire key owner ttl) (Failed err) k k'
| spec_renewed owned ttl r k k' :
    renew_effect gran now owned ttl r k k' ->
    spec_step gran now (CallRenew owned ttl) (Replied r) k k'
| spec_renew_failed owned ttl err k :
    (Is err ErrStaleOwner = true -> definite err = true -> ~ current now owned k) ->
    spec_step gran now (CallRenew owned ttl) (Failed err) k k
| spec_renew_uncertain owned ttl err r k k' :
    definite err = false -> renew_effect gran now owned ttl r k k' ->
    spec_step gran now (CallRenew owned ttl) (Failed err) k k'
| spec_validated owned r k :
    holder k = Some r -> matches owned r -> now < r_ExpiresAt r + gran ->
    spec_step gran now (CallValidate owned) (Replied r) k k
| spec_validate_failed owned err k :
    (Is err ErrStaleOwner = true -> definite err = true -> ~ current now owned k) ->
    spec_step gran now (CallValidate owned) (Failed err) k k
| spec_released owned k k' :
    release_effect owned k k' ->
    spec_step gran now (CallRelease owned) Acknowledged k k'
| spec_release_idle owned k :
    ~ current now owned k ->
    spec_step gran now (CallRelease owned) Acknowledged k k
| spec_release_failed owned err k :
    (Is err ErrStaleOwner = true -> definite err = true -> ~ held_by owned k) ->
    spec_step gran now (CallRelease owned) (Failed err) k k
| spec_release_uncertain owned err k k' :
    definite err = false -> release_effect owned k k' ->
    spec_step gran now (CallRelease owned) (Failed err) k k'.

(** ** The interface *)

(** A backend: its states, the atomic calls it can perform at a backend instant
    (one relation, faults included), and the simulation by the abstract machine of
    the called key, every other key being left alone. *)
Class LeaseBackend (S : Type) := {
  granularity : Duration;
  backend_wf : S -> Prop;
  backend_call : Time -> call -> S -> reply -> S -> Prop;
  key_view : S -> string -> key_state;
  granularity_nonneg : 0 <= granularity;
  backend_wf_call now c s r s' :
    backend_wf s -> backend_call now c s r s' -> backend_wf s';
  backend_refines now c s r s' :
    backend_wf s -> backend_call now c s r s' ->
    spec_step granularity now c r (key_view s (call_key c)) (key_view s' (call_key c));
  backend_frame now c s r s' k :
    backend_wf s -> backend_call now c s r s' -> k <> call_key c ->
    key_view s' k = key_view s k
}.

(** ** Consequences of one abstract step *)

Lemma definite_false_ambiguous err :
  Is err ErrAmbiguousOutcome = true -> definite err = false.
Proof. unfold definite. intros ->. apply andb_false_r. Qed.

Lemma live_lingers gran now k : 0 <= gran -> live now k -> lingers gran now k.
Proof. intros Hg (r & Hr & Hl). exists r. split; [done|lia]. Qed.

Lemma lingers_mono gran gran' now k : gran <= gran' -> lingers gran now k -> lingers gran' now k.
Proof. intros Hg (r & Hr & Hl). exists r. split; [done|lia]. Qed.

Lemma unchanged_refl k : unchanged k k.
Proof. split; [lia|done]. Qed.

#[export] Hint Resolve unchanged_refl : lease.

(** A failure that claims nothing is a step that changes nothing. *)
Lemma spec_failed gran now c err k :
  definite err = false \/ (Is err ErrContended = false /\ Is err ErrStaleOwner = false) ->
  spec_step gran now c (Failed err) k k.
Proof.
  intros H. destruct c;
    [apply spec_acquire_failed; [auto with lease|]|apply spec_renew_failed
    |apply spec_validate_failed|apply spec_release_failed];
    intros Hi Hd; exfalso; naive_solver congruence.
Qed.

Lemma current_held now owned k : current now owned k -> held_by owned k.
Proof. intros (r & Hr & Hm & _). by exists r. Qed.

Lemma current_live now owned k : current now owned k -> live now k.
Proof. intros (r & Hr & _ & Hl). by exists r. Qed.

#[export] Hint Resolve current_held current_live : lease.

Lemma spec_step_fence gran now c r k k' :
  spec_step gran now c r k k' -> fence k <= fence k'.
Proof.
  destruct 1; unfold acquire_effect, renew_effect, release_effect, unchanged in *;
    naive_solver lia.
Qed.

(** A reply with a record to an acquisition carries a fence above all history, and
    the history then ends at that fence. *)
Lemma spec_step_acquired gran now key owner ttl r k k' :
  spec_step gran now (CallTryAcquire key owner ttl) (Replied r) k k' ->
  fence k < r_Token r /\ fence k' = r_Token r.
Proof. inversion 1; subst. unfold acquire_effect in *. naive_solver. Qed.

(** A call that presents a record which is not the holder's changes no ownership,
    whatever the reply. *)
Lemma spec_step_stale gran now c r k k' owned :
  spec_step gran now c r k k' ->
  (exists ttl, c = CallRenew owned ttl) \/ c = CallValidate owned \/ c = CallRelease owned ->
  ~ held_by owned k -> k' = k.
Proof.
  intros H Hc Hh. destruct H; destruct Hc as [[? ?]|[?|?]]; simplify_eq; try done;
    unfold renew_effect, release_effect, held_by in *; naive_solver.
Qed.

(** A holder after a step was the holder before it, or comes with a fresh fence. *)
Lemma spec_step_fresh gran now c r k k' r' :
  spec_step gran now c r k k' -> holder k' = Some r' ->
  (exists r0, holder k = Some r0 /\ r_Token r' = r_Token r0) \/ fence k < r_Token r'.
Proof.
  destruct 1; unfold acquire_effect, renew_effect, release_effect, unchanged in *; intros Hr';
    destruct_and?; try (left; exists r'; split; congruence);
    repeat match goal with H : exists _, _ |- _ => destruct H end; destruct_and?; subst; simpl in *;
    simplify_eq; eauto.
Qed.

(** A live holder is replaced by nobody: after any call it is the same owner and
    token, unless the call was a release by that very owner and token. *)
Lemma spec_step_holder gran now c r k k' r0 :
  spec_step gran now c r k k' -> holder k = Some r0 -> now < r_ExpiresAt r0 ->
  (exists r1, holder k' = Some r1 /\ matches r0 r1) \/
  (exists owned, c = CallRelease owned /\ matches owned r0).
Proof.
  intros H Hh Hl.
  destruct H as [?????? [Hn _]|?????? [_ Hu] _|??????? _ [Hn _]
    |????? (r1 & Hr1 & Hm & _ & _ & Ho & Ht & _ & _ & ->)| |
    ?????? _ (r1 & Hr1 & Hm & _ & _ & Ho & Ht & _ & _ & ->)| | |
    ??? [(r1 & Hr1 & Hm) ->]| | |???? _ [(r1 & Hr1 & Hm) ->]]; simplify_eq;
    try (exfalso; apply Hn; by exists r0);
    try (left; exists r0; split; [congruence|done]); try (left; eexists; done).
  all: right; eexists; split; [done|congruence].
Qed.

(** ** Traces of calls *)

Section Traces.
Context {S : Type} `{!LeaseBackend S}.

(** A trace: calls at arbitrary backend instants, clock faults included. *)
Inductive trace : S -> list (Time * call * reply) -> S -> Prop :=
| trace_nil s : trace s [] s
| trace_cons now c r s s' s'' tr :
    backend_call now c s r s' -> trace s' tr s'' -> trace s ((now, c, r) :: tr) s''.

(** The fences of the successful acquisitions of a key, in trace order. *)
Definition fences (k : string) (tr : list (Time * call * reply)) : list Z :=
  omap (fun '(_, c, r) =>
    match c, r with
    | CallTryAcquire key _ _, Replied rec =>
        if decide (KeyString key = k) then Some (r_Token rec) else None
    | _, _ => None
    end) tr.

Lemma backend_fence_mono now c s r s' k :
  backend_wf s -> backend_call now c s r s' -> fence (key_view s k) <= fence (key_view s' k).
Proof.
  intros Hwf Hc. destruct (decide (k = call_key c)) as [->|Hne].
  - by eapply spec_step_fence, backend_refines.
  - rewrite (backend_frame _ _ _ _ _ _ Hwf Hc Hne). lia.
Qed.

Lemma fences_above s tr s' k :
  backend_wf s -> trace s tr s' -> Forall (fun t => fence (key_view s k) < t) (fences k tr).
Proof.
  intros Hwf Ht. revert Hwf. induction Ht as [s|now c r s s1 s2 tr Hc Ht IH]; intros Hwf.
  { constructor. }
  pose proof (backend_fence_mono _ _ _ _ _ k Hwf Hc) as Hm.
  assert (Htl : Forall (fun t => fence (key_view s k) < t) (fences k tr)).
  { assert (Hwf1 : backend_wf s1) by (by eapply backend_wf_call).
    eapply Forall_impl; [|exact (IH Hwf1)]. simpl. lia. }
  unfold fences in *. csimpl. destruct c as [key owner ttl| | |]; try done.
  destruct r as [rec| |]; try done. case_decide as Hk; [|done].
  constructor; [|done]. subst k.
  apply (backend_refines _ (CallTryAcquire key owner ttl)) in Hc; [|done].
  by apply spec_step_acquired in Hc as [Hc _].
Qed.

Lemma trace_wf s tr s' : backend_wf s -> trace s tr s' -> backend_wf s'.
Proof. intros Hwf Ht. revert Hwf. induction Ht; eauto using backend_wf_call. Qed.

(** The fences of one key strictly increase along every trace. *)
Lemma fences_sorted s tr s' k :
  backend_wf s -> trace s tr s' -> StronglySorted Z.lt (fences k tr).
Proof.
  intros Hwf Ht. revert Hwf. induction Ht as [s|now c r s s1 s2 tr Hc Ht IH]; intros Hwf.
  { constructor. }
  assert (Hwf1 : backend_wf s1) by (by eapply backend_wf_call).
  pose proof (fences_above _ _ _ k Hwf1 Ht) as Ha. specialize (IH Hwf1).
  unfold fences in *. csimpl. destruct c as [key owner ttl| | |]; try done.
  destruct r as [rec| |]; try done. case_decide as Hk; [|done]. subst k.
  constructor; [done|].
  apply (backend_refines _ (CallTryAcquire key owner ttl)) in Hc; [|done].
  apply spec_step_acquired in Hc as [_ Hc]. simpl in Hc.
  by rewrite Hc in Ha.
Qed.
End Traces.
