(* ===== verification/Serving.v ===== *)
(** * What a healthy backend answers

    The contract of [Backend] says what a reply may claim; an implementation that
    always fails satisfies it. [Serving] is the other half: when the requests reach
    the backend, it answers them, grants a free key, recognises the holder, and
    refuses everybody else. The stores discharge it in [MemoryServing], [ValkeyServing]
    and [PostgresServing]; the conformance suite and the examples are proved against
    it. *)

From S2P Require Import Prelude GoBase GoStrings Errors LeaseKey Backend.

(** Arguments every backend accepts: a key, an owner of 1 to 128 bytes of text, a
    fence in the range of a signed bigint, a lifetime of at least a millisecond. *)
Definition owner_ok (owner : string) : Prop := 0 < len owner <= 128 /\ text_ok owner = true.
Definition record_ok (r : LeaseRecord) : Prop :=
  KeyString (r_Key r) <> "" /\ owner_ok (r_Owner r) /\ 0 < r_Token r <= int64_max.

Definition call_ok (c : call) : Prop :=
  match c with
  | CallTryAcquire key owner ttl => KeyString key <> "" /\ owner_ok owner /\ Millisecond <= ttl
  | CallRenew owned ttl => record_ok owned /\ Millisecond <= ttl
  | CallValidate owned | CallRelease owned => record_ok owned
  end.

(** The holder that [owned] presents, unexpired, with timestamps that no clock jump
    disturbed. *)
Definition presents (now : Time) (owned : LeaseRecord) (k : key_state) : Prop :=
  exists r, holder k = Some r /\ matches owned r /\ now < r_ExpiresAt r /\
    r_AcquiredAt r <= now /\ r_AcquiredAt r < r_ExpiresAt r.

Definition refused (s : sentinel) (r : reply) : Prop := exists e, r = Failed e /\ Is e s = true.

(** The reply to a call performed at [now] and answered by [fin], in key state [k]:
    contention exactly for a live key, success for the holder, staleness for a
    record that is not the holder's. *)
Definition served (gran : Duration) (now fin : Time) (c : call) (r : reply) (k : key_state) : Prop :=
  match c with
  | CallTryAcquire key owner ttl =>
      (live now k -> refused ErrContended r) /\
      (~ lingers gran now k -> exists rec, r = Replied rec /\
         0 < r_Token rec <= int64_max /\ r_AcquiredAt rec <= fin /\ r_ExpiresAt rec <= fin + ttl)
  | CallRenew owned ttl =>
      (presents now owned k -> exists rec, r = Replied rec /\ r_ExpiresAt rec <= fin + ttl /\
         r_AcquiredAt rec < r_ExpiresAt rec) /\
      (~ held_by owned k -> refused ErrStaleOwner r)
  | CallValidate owned =>
      (presents now owned k -> exists rec, r = Replied rec) /\
      (~ held_by owned k -> refused ErrStaleOwner r)
  | CallRelease owned =>
      (presents now owned k -> r = Acknowledged) /\
      (live now k -> ~ held_by owned k -> refused ErrStaleOwner r)
  end.

(** [serves now fin c s r s']: the call reached the backend, was performed at [now] and
    answered by [fin]. [room n s k]: key and fence capacity for [n] more calls. *)
Class ServingBackend (S : Type) `{!LeaseBackend S} := {
  room : nat -> S -> string -> Prop;
  serves : Time -> Time -> call -> S -> reply -> S -> Prop;
  room_less n s k : room (Datatypes.S n) s k -> room n s k;
  serves_time now fin c s r s' : serves now fin c s r s' -> now <= fin;
  serves_call now fin c s r s' : serves now fin c s r s' -> backend_call now c s r s';
  serves_reply now fin c s r s' n :
    backend_wf s -> call_ok c -> room (Datatypes.S n) s (call_key c) -> serves now fin c s r s' ->
    served granularity now fin c r (key_view s (call_key c));
  serves_room now fin c s r s' n :
    backend_wf s -> call_ok c -> room (Datatypes.S n) s (call_key c) -> serves now fin c s r s' ->
    room n s' (call_key c);
  (** A repeated release is idempotent. *)
  serves_released now fin now' fin' owned s s' r s'' :
    backend_wf s -> record_ok owned -> presents now owned (key_view s (KeyString (r_Key owned))) ->
    serves now fin (CallRelease owned) s Acknowledged s' ->
    serves now' fin' (CallRelease owned) s' r s'' -> r = Acknowledged
}.

(** ** What one served call does to its key *)

Lemma presents_current now owned k : presents now owned k -> current now owned k.
Proof. intros (r & Hr & Hm & Hl & _). by exists r. Qed.

Lemma presents_live now owned k : presents now owned k -> live now k.
Proof. intros (r & Hr & _ & Hl & _). by exists r. Qed.

Section Steps.
Context {S : Type} `{!LeaseBackend S} `{!ServingBackend S}.

(** A free key is granted: the caller becomes the holder, with a higher fence. *)
Lemma acquire_granted now fin key owner ttl s r s' n :
  let c := CallTryAcquire key owner ttl in
  backend_wf s -> call_ok c -> room (Datatypes.S n) s (KeyString key) -> serves now fin c s r s' ->
  ~ lingers granularity now (key_view s (KeyString key)) ->
  exists rec, r = Replied rec /\ r_Key rec = key /\ r_Owner rec = owner /\
    fence (key_view s (KeyString key)) < r_Token rec /\ record_ok rec /\
    r_AcquiredAt rec <= fin /\ r_AcquiredAt rec < r_ExpiresAt rec /\
    now + ttl - granularity <= r_ExpiresAt rec <= fin + ttl /\
    key_view s' (KeyString key) = MkKeyState (r_Token rec) (Some rec).
Proof.
  intros c Hwf Hok Hroom Hs Hn.
  pose proof (serves_reply _ _ _ _ _ _ _ Hwf Hok Hroom Hs) as [_ Hr].
  destruct (Hr Hn) as (rec & -> & Htok & Ha & He).
  pose proof (backend_refines _ _ _ _ _ Hwf (serves_call _ _ _ _ _ _ Hs)) as Hspec.
  inversion Hspec as [?????? (_ & Hf & Hk & Ho & Hae & Hx & Hk')| | | | | | | | | | |]; subst.
  exists rec. destruct Hok as (Hkey & Hown & _). split_and!; try done; try (simpl in *; lia).
Qed.

(** A held key is contended, and its holder stays. *)
Lemma acquire_contended now fin key owner ttl s r s' n :
  let c := CallTryAcquire key owner ttl in
  backend_wf s -> call_ok c -> room (Datatypes.S n) s (KeyString key) -> serves now fin c s r s' ->
  live now (key_view s (KeyString key)) ->
  refused ErrContended r /\
  holder (key_view s' (KeyString key)) = holder (key_view s (KeyString key)) /\
  fence (key_view s (KeyString key)) <= fence (key_view s' (KeyString key)).
Proof.
  intros c Hwf Hok Hroom Hs Hl.
  pose proof (serves_reply _ _ _ _ _ _ _ Hwf Hok Hroom Hs) as [Hr _].
  specialize (Hr Hl). split; [done|]. destruct Hr as (e & -> & _).
  pose proof (backend_refines _ _ _ _ _ Hwf (serves_call _ _ _ _ _ _ Hs)) as Hspec.
  inversion Hspec as [|?????? [Hf Hh] _|??????? _ (Hn & _)| | | | | | | | |]; subst; [done|].
  by destruct Hn.
Qed.

(** The holder renews: same acquisition, new expiry. *)
Lemma renew_granted now fin owned ttl s r s' n :
  let c := CallRenew owned ttl in
  let k := KeyString (r_Key owned) in
  backend_wf s -> call_ok c -> room (Datatypes.S n) s k -> serves now fin c s r s' ->
  presents now owned (key_view s k) ->
  exists rec, r = Replied rec /\ matches owned rec /\
    fence (key_view s' k) = fence (key_view s k) /\ holder (key_view s' k) = Some rec /\
    (exists r0, holder (key_view s k) = Some r0 /\ r_Key rec = r_Key r0 /\ r_AcquiredAt rec = r_AcquiredAt r0) /\
    r_AcquiredAt rec < r_ExpiresAt rec /\
    now + ttl - granularity <= r_ExpiresAt rec <= fin + ttl.
Proof.
  intros c k Hwf Hok Hroom Hs Hp.
  pose proof (serves_reply _ _ _ _ _ _ _ Hwf Hok Hroom Hs) as [Hr _].
  destruct (Hr Hp) as (rec & -> & Hx & Hae).
  pose proof (backend_refines _ _ _ _ _ Hwf (serves_call _ _ _ _ _ _ Hs)) as Hspec.
  inversion Hspec as [| | |????? (r0 & Hr0 & [Hm1 Hm2] & _ & Hk & Ho & Ht & Ha & He & Hk')| | | | | | | |]; subst.
  exists rec. subst k. simpl in Hk'. rewrite Hk'. simpl. split_and!; try done; try lia.
  - by split; congruence.
  - exists r0. done.
Qed.

Lemma validate_granted now fin owned s r s' n :
  let c := CallValidate owned in
  let k := KeyString (r_Key owned) in
  backend_wf s -> call_ok c -> room (Datatypes.S n) s k -> serves now fin c s r s' ->
  presents now owned (key_view s k) ->
  (exists rec, r = Replied rec) /\ key_view s' k = key_view s k.
Proof.
  intros c k Hwf Hok Hroom Hs Hp.
  pose proof (serves_reply _ _ _ _ _ _ _ Hwf Hok Hroom Hs) as [Hr _].
  destruct (Hr Hp) as (rec & ->). split; [by exists rec|].
  pose proof (backend_refines _ _ _ _ _ Hwf (serves_call _ _ _ _ _ _ Hs)) as Hspec.
  by inversion Hspec.
Qed.

(** The record of a predecessor or forger is refused, and nothing changes. *)
Lemma stale_refused now fin c owned s r s' n :
  (exists ttl, c = CallRenew owned ttl) \/ c = CallValidate owned \/ c = CallRelease owned ->
  let k := KeyString (r_Key owned) in
  backend_wf s -> call_ok c -> room (Datatypes.S n) s k -> serves now fin c s r s' ->
  live now (key_view s k) -> ~ held_by owned (key_view s k) ->
  refused ErrStaleOwner r /\ key_view s' k = key_view s k.
Proof.
  intros Hc k Hwf Hok Hroom Hs Hl Hh.
  assert (Hk : call_key c = k) by (destruct Hc as [[? ->]|[->| ->]]; done).
  pose proof (backend_refines _ _ _ _ _ Hwf (serves_call _ _ _ _ _ _ Hs)) as Hspec.
  pose proof (serves_reply now fin c s r s' n Hwf Hok ltac:(by rewrite Hk) Hs) as Hr.
  rewrite Hk in *. split; [destruct Hc as [[? ->]|[->| ->]]; by apply Hr|].
  by eapply spec_step_stale.
Qed.

(** The holder releases: the key is free, and its fence kept. *)
Lemma release_granted now fin owned s r s' n :
  let c := CallRelease owned in
  let k := KeyString (r_Key owned) in
  backend_wf s -> call_ok c -> room (Datatypes.S n) s k -> serves now fin c s r s' ->
  presents now owned (key_view s k) ->
  r = Acknowledged /\ key_view s' k = MkKeyState (fence (key_view s k)) None.
Proof.
  intros c k Hwf Hok Hroom Hs Hp.
  pose proof (serves_reply _ _ _ _ _ _ _ Hwf Hok Hroom Hs) as [Hr _]. specialize (Hr Hp) as ->.
  split; [done|].
  pose proof (backend_refines _ _ _ _ _ Hwf (serves_call _ _ _ _ _ _ Hs)) as Hspec.
  inversion Hspec as [| | | | | | | |??? [_ Hk]|?? Hn| |]; subst; [done|].
  by destruct Hn; apply presents_current.
Qed.
End Steps.
