(* ===== verification/Native.v ===== *)
(** * What the two native backends share

    The fate of one request to a server, the errors a driver reports, the clock of a
    server, and what a method call has to establish to refine the lease contract. *)

From S2P Require Import Prelude GoBase GoStrings Errors LeaseKey Backend.

(** One request: executed and answered, lost before the server saw it, or executed
    with the answer lost. *)
Inductive transport :=
| Delivered
| Unsent (err : error)
| ReplyLost (err : error).

(** The eight sentinels of errors.go. *)
Definition lease_sentinel (s : sentinel) : bool :=
  match s with Canceled | DeadlineExceeded | ErrNoRows => false | _ => true end.

(** A driver reports its own errors and those of the context, never a sentinel of
    this library, and [ErrNoRows] only for an answer. *)
Definition driver_error (e : error) : Prop :=
  forall s, lease_sentinel s = true \/ s = ErrNoRows -> Is e s = false.

Definition transport_ok (net : transport) : Prop :=
  match net with Delivered => True | Unsent e | ReplyLost e => driver_error e end.

(** The nanosecond of the Unix epoch on the time line of [Time]. *)
Definition epoch : Time := unix_to_internal * Second.

(** The reading of a server clock in microseconds since the epoch. *)
Definition server_us (now : Time) : Z := (now - epoch) / 1000.

Lemma server_us_bounds now : server_us now * 1000 <= now - epoch < server_us now * 1000 + 1000.
Proof. unfold server_us. pose proof (Z.div_mod (now - epoch) 1000). pose proof (Z.mod_pos_bound (now - epoch) 1000). lia. Qed.

(** Its milliseconds. *)
Definition server_ms (now : Time) : Z := server_us now / 1000.

Lemma server_ms_bounds now :
  UnixMilli (server_ms now) <= now < UnixMilli (server_ms now) + Millisecond.
Proof.
  unfold server_ms, UnixMilli, epoch, Millisecond, Second in *.
  pose proof (server_us_bounds now) as H. unfold epoch, Second in H.
  pose proof (Z.div_mod (server_us now) 1000). pose proof (Z.mod_pos_bound (server_us now) 1000). lia.
Qed.

Lemma UnixMilli_epoch ms : UnixMilli ms = epoch + ms * Millisecond.
Proof. unfold UnixMilli, epoch, Millisecond, Second. lia. Qed.

Lemma Foreign_driver t : driver_error (Foreign t).
Proof. done. Qed.

#[export] Hint Resolve Foreign_driver : lease.

(** ** Refining calls *)

Section Refines.
Context {S : Type} (wf : S -> Prop) (view : S -> string -> key_state) (gran : Duration).

(** The outcome [out] of a call on [s]: well formed, a step of the abstract machine
    of the called key, every other key left alone. *)
Definition refines (now : Time) (c : call) (s : S) (out : reply * S) : Prop :=
  wf out.2 /\ spec_step gran now c out.1 (view s (call_key c)) (view out.2 (call_key c)) /\
  forall k, k <> call_key c -> view out.2 k = view s k.

(** A call that changed nothing. *)
Lemma refines_same now c s r :
  wf s -> spec_step gran now c r (view s (call_key c)) (view s (call_key c)) -> refines now c s (r, s).
Proof. intros Hwf Hs. split; [done|]. by split. Qed.

Lemma failed_same now c s err :
  wf s -> definite err = false \/ (Is err ErrContended = false /\ Is err ErrStaleOwner = false) ->
  refines now c s (Failed err, s).
Proof. intros Hwf He. apply refines_same; [done|]. by apply spec_failed. Qed.
End Refines.
