(* ===== verification/ValkeyServer.v ===== *)
(** * The Valkey server the scripts of valkey/scripts.go call

    The server is not part of the repository. [ValkeyServer] names the commands the
    scripts use, each at the server millisecond at which the script runs (a script
    runs atomically, with the clock frozen), and states their documented behaviour
    through the content [slot] of a key. A key whose expiry is the current
    millisecond may or may not be there still. [db_server] is a server with that
    behaviour. *)

From S2P Require Import Prelude GoBase GoStrings Strconv.

(** The content of a key, with its expiry in milliseconds, if any. *)
Inductive slot :=
| Absent
| Str (value : string) (expiry : option Z)
| Hash (fields : gmap string string) (expiry : option Z).

Definition slot_expiry (s : slot) : option Z :=
  match s with Absent => None | Str _ e | Hash _ e => e end.

Class ValkeyServer (V : Type) := {
  slot_of : V -> string -> slot;
  (* the commands *)
  srv_EXISTS : Z -> string -> V -> bool;
  srv_HGET : Z -> string -> string -> V -> option string;
  srv_HSET : Z -> string -> list (string * string) -> V -> V;
  srv_PEXPIRE : Z -> string -> Z -> V -> V;
  srv_DEL : Z -> string -> V -> V;
  srv_INCR : Z -> string -> V -> option V;
  srv_GET : Z -> string -> V -> option string;
  (* their behaviour *)
  exists_absent now k v : slot_of v k = Absent -> srv_EXISTS now k v = false;
  exists_gone now k v e : slot_expiry (slot_of v k) = Some e -> e < now -> srv_EXISTS now k v = false;
  exists_live now k v :
    slot_of v k <> Absent ->
    (slot_expiry (slot_of v k) = None \/ exists e, slot_expiry (slot_of v k) = Some e /\ now < e) ->
    srv_EXISTS now k v = true;
  exists_slot now k v v' :
    (slot_of v k = Absent <-> slot_of v' k = Absent) ->
    slot_expiry (slot_of v k) = slot_expiry (slot_of v' k) ->
    srv_EXISTS now k v = srv_EXISTS now k v';
  hget_hash now k f v h e :
    slot_of v k = Hash h e -> srv_EXISTS now k v = true -> srv_HGET now k f v = h !! f;
  hset_new now k fs v :
    srv_EXISTS now k v = false -> slot_of (srv_HSET now k fs v) k = Hash (list_to_map fs) None;
  hset_old now k fs v h e :
    slot_of v k = Hash h e -> srv_EXISTS now k v = true ->
    slot_of (srv_HSET now k fs v) k = Hash (list_to_map fs ∪ h) e;
  pexpire_hash now k ms v h e :
    slot_of v k = Hash h e -> srv_EXISTS now k v = true -> 0 < ms ->
    slot_of (srv_PEXPIRE now k ms v) k = Hash h (Some (now + ms));
  del_absent now k v : slot_of (srv_DEL now k v) k = Absent;
  incr_new now k v :
    slot_of v k = Absent -> exists v', srv_INCR now k v = Some v' /\ slot_of v' k = Str "1" None;
  incr_old now k v n :
    slot_of v k = Str (FormatInt n) None -> 0 < n < int64_max ->
    exists v', srv_INCR now k v = Some v' /\ slot_of v' k = Str (FormatInt (n + 1)) None;
  incr_max now k v : slot_of v k = Str (FormatInt int64_max) None -> srv_INCR now k v = None;
  get_string now k v s : slot_of v k = Str s None -> srv_GET now k v = Some s;
  (* no command touches another key *)
  hset_frame now k fs v k' : k' <> k -> slot_of (srv_HSET now k fs v) k' = slot_of v k';
  pexpire_frame now k ms v k' : k' <> k -> slot_of (srv_PEXPIRE now k ms v) k' = slot_of v k';
  del_frame now k v k' : k' <> k -> slot_of (srv_DEL now k v) k' = slot_of v k';
  incr_frame now k v v' k' : srv_INCR now k v = Some v' -> k' <> k -> slot_of v' k' = slot_of v k'
}.

(** ** A server with this behaviour *)

Abbreviation db := (gmap string slot).

Definition db_slot (v : db) (k : string) : slot := default Absent (v !! k).

(** A key is gone once its expiry is in the past. *)
Definition db_live (now : Z) (v : db) (k : string) : slot :=
  let s := db_slot v k in
  match slot_expiry s with
  | Some e => if e <? now then Absent else s
  | None => s
  end.

Definition db_EXISTS (now : Z) (k : string) (v : db) : bool :=
  match db_live now v k with Absent => false | _ => true end.

Definition db_HGET (now : Z) (k f : string) (v : db) : option string :=
  match db_live now v k with Hash h _ => h !! f | _ => None end.

Definition db_GET (now : Z) (k : string) (v : db) : option string :=
  match db_live now v k with Str s _ => Some s | _ => None end.

Definition db_HSET (now : Z) (k : string) (fs : list (string * string)) (v : db) : db :=
  match db_live now v k with
  | Hash h e => <[k := Hash (list_to_map fs ∪ h) e]> v
  | Str _ _ => v
  | Absent => <[k := Hash (list_to_map fs) None]> v
  end.

Definition db_PEXPIRE (now : Z) (k : string) (ms : Z) (v : db) : db :=
  match db_live now v k with
  | Absent => v
  | Str s _ => <[k := Str s (Some (now + ms))]> v
  | Hash h _ => <[k := Hash h (Some (now + ms))]> v
  end.

Definition db_INCR (now : Z) (k : string) (v : db) : option db :=
  match db_live now v k with
  | Absent => Some (<[k := Str "1" None]> v)
  | Str s e =>
      match ParseInt s with
      | Ok n => if n <? int64_max then Some (<[k := Str (FormatInt (n + 1)) e]> v) else None
      | Err _ => None
      end
  | Hash _ _ => None
  end.

Lemma db_live_slot now v k :
  db_live now v k = db_slot v k \/
  (db_live now v k = Absent /\ exists e, slot_expiry (db_slot v k) = Some e /\ e < now).
Proof.
  unfold db_live. destruct (slot_expiry (db_slot v k)) as [e|]; [|by left].
  destruct (Z.ltb_spec e now); [right; eauto|by left].
Qed.

Lemma db_slot_insert v k s : db_slot (<[k := s]> v) k = s.
Proof. unfold db_slot. by rewrite lookup_insert_eq. Qed.

Lemma db_slot_insert_ne v k k' s : k' <> k -> db_slot (<[k := s]> v) k' = db_slot v k'.
Proof. intros. unfold db_slot. by rewrite lookup_insert_ne. Qed.

Lemma db_live_persistent now v k : slot_expiry (db_slot v k) = None -> db_live now v k = db_slot v k.
Proof. unfold db_live. by intros ->. Qed.

#[global] Program Instance db_server : ValkeyServer db := {|
  slot_of := db_slot;
  srv_EXISTS := db_EXISTS;
  srv_HGET := db_HGET;
  srv_HSET := db_HSET;
  srv_PEXPIRE := db_PEXPIRE;
  srv_DEL now k v := delete k v;
  srv_INCR := db_INCR;
  srv_GET := db_GET
|}.
Next Obligation. intros now k v H. unfold db_EXISTS, db_live. by rewrite H. Qed.
Next Obligation.
  intros now k v e H Hl. unfold db_EXISTS, db_live. rewrite H. destruct (Z.ltb_spec e now); [done|lia].
Qed.
Next Obligation.
  intros now k v Hn [H|(e & H & Hl)]; unfold db_EXISTS, db_live; rewrite H;
    [|destruct (Z.ltb_spec e now); [lia|]]; by destruct (db_slot v k).
Qed.
Next Obligation.
  intros now k v v' Ha He. unfold db_EXISTS, db_live. rewrite <- He.
  destruct (db_slot v k), (db_slot v' k); simpl in *; try naive_solver; by repeat case_match.
Qed.
Next Obligation.
  intros now k f v h e H Hx. unfold db_EXISTS, db_HGET in *.
  destruct (db_live_slot now v k) as [Hs|[Hs _]]; rewrite Hs in *; [|done]. by rewrite H.
Qed.
Next Obligation.
  intros now k fs v H. unfold db_EXISTS in *; unfold db_HSET. destruct (db_live now v k); try done.
  apply db_slot_insert.
Qed.
Next Obligation.
  intros now k fs v h e H Hx. unfold db_EXISTS in *; unfold db_HSET.
  destruct (db_live_slot now v k) as [Hs|[Hs _]]; rewrite Hs in *; [|done].
  rewrite H. apply db_slot_insert.
Qed.
Next Obligation.
  intros now k ms v h e H Hx Hms. unfold db_EXISTS in *; unfold db_PEXPIRE.
  destruct (db_live_slot now v k) as [Hs|[Hs _]]; rewrite Hs in *; [|done].
  rewrite H. apply db_slot_insert.
Qed.
Next Obligation. intros now k v. unfold db_slot. by rewrite lookup_delete_eq. Qed.
Next Obligation.
  intros now k v H. unfold db_INCR. rewrite db_live_persistent by (by rewrite H).
  rewrite H. eexists. split; [done|]. apply db_slot_insert.
Qed.
Next Obligation.
  intros now k v n H Hn. unfold db_INCR. rewrite db_live_persistent by (by rewrite H).
  rewrite H, ParseInt_FormatInt by (unfold is_int64, int64_min in *; lia).
  destruct (Z.ltb_spec n int64_max); [|lia]. eexists. split; [done|]. apply db_slot_insert.
Qed.
Next Obligation.
  intros now k v H. unfold db_INCR. rewrite db_live_persistent by (by rewrite H).
  rewrite H. by rewrite ParseInt_FormatInt by (unfold is_int64, int64_min, int64_max in *; lia).
Qed.
Next Obligation. intros now k v s H. unfold db_GET. rewrite db_live_persistent by (by rewrite H). by rewrite H. Qed.
Next Obligation.
  intros now k fs v k' Hne. unfold db_HSET. destruct (db_live now v k); try done;
    by rewrite db_slot_insert_ne.
Qed.
Next Obligation.
  intros now k ms v k' Hne. unfold db_PEXPIRE. destruct (db_live now v k); try done;
    by rewrite db_slot_insert_ne.
Qed.
Next Obligation. intros now k v k' Hne. unfold db_slot. by rewrite lookup_delete_ne. Qed.
Next Obligation.
  intros now k v v' k' H Hne. unfold db_EXISTS in *; unfold db_INCR in H.
  repeat (case_match; simplify_eq; try done); by rewrite db_slot_insert_ne.
Qed.
