(* ===== verification/Valkey.v ===== *)
(** * valkey/store.go, valkey/scripts.go and [Exec] of valkey/native.go

    The four Lua scripts over the commands of [ValkeyServer], the Go side that
    derives the keys, sends a script and interprets its reply, and the refinement
    of the lease contract by the whole. A request is sent, executed and answered as
    its [transport] says. *)

From S2P Require Import Prelude GoBase GoStrings Strconv Sha256 Errors LeaseKey Backend Native ValkeyServer.
From Stdlib Require Import Ascii.

(** ** Lua *)

(** A script that runs on a server state: its value, or [None] when it raises; what
    it wrote before raising stays written. *)
Definition Script (V A : Type) : Type := V -> option A * V.

#[global] Instance Script_ret {V} : MRet (Script V) := fun _ a v => (Some a, v).
#[global] Instance Script_bind {V} : MBind (Script V) :=
  fun _ _ f c v => match c v with (Some a, v') => f a v' | (None, v') => (None, v') end.

Lemma Script_bind_eq {V A B} (c : Script V A) (f : A -> Script V B) v :
  (c ≫= f) v = match c v with (Some a, v') => f a v' | (None, v') => (None, v') end.
Proof. done. Qed.

(** [tonumber] on the decimal integers the store passes, and [tostring] on an
    integer: Lua prints a number with the format [%.14g], so an integer of more
    than 14 digits is rounded to 14 significant ones in exponent notation. *)
Definition tonumber (s : string) : option Z := ok_value (ParseInt s).

Definition round_half_even (n d : Z) : Z :=
  let q := n / d in
  let r := 2 * (n mod d) in
  if r <? d then q else if d <? r then q + 1 else if Z.even q then q else q + 1.

Fixpoint strip_zeros (fuel : nat) (q : Z) : Z :=
  match fuel with
  | O => q
  | S fuel' => if q mod 10 =? 0 then strip_zeros fuel' (q / 10) else q
  end.

Definition exponent_form (n : Z) : string :=
  let e := len (FormatUint n) - 1 in
  let q := round_half_even n (10 ^ (e - 13)) in
  let '(q, e) := if q =? 10 ^ 14 then (10 ^ 13, e + 1) else (q, e) in
  match FormatUint (strip_zeros 13 q) with
  | String c rest =>
      String c (if String.eqb rest "" then "" else String "." rest) ++ "e+" ++ FormatUint e
  | EmptyString => ""
  end.

Definition tostring (n : Z) : string :=
  if Z.abs n <? 10 ^ 14 then FormatInt n
  else if n <? 0 then String "-" (exponent_form (- n)) else exponent_form n.

(** ** scripts.go *)

Section Scripts.
Context {V : Type} `{!ValkeyServer V}.

(** The server clock in microseconds; commands see it in milliseconds. *)
Variable us : Z.
Let ms : Z := us / 1000.

Definition EXISTS (k : string) : Script V bool := fun v => (Some (srv_EXISTS ms k v), v).
Definition HGET (k f : string) : Script V (option string) := fun v => (Some (srv_HGET ms k f v), v).
Definition GET (k : string) : Script V (option string) := fun v => (Some (srv_GET ms k v), v).
Definition INCR (k : string) : Script V () := fun v =>
  match srv_INCR ms k v with Some v' => (Some (), v') | None => (None, v) end.
Definition HSET (k : string) (fs : list (string * option string)) : Script V () := fun v =>
  match mapM (fun '(f, x) => (f,.) <$> x) fs with
  | Some fs' => (Some (), srv_HSET ms k fs' v)
  | None => (None, v)
  end.
Definition PEXPIRE (k arg : string) : Script V () := fun v =>
  match ParseInt arg with Ok n => (Some (), srv_PEXPIRE ms k n v) | Err _ => (None, v) end.
Definition DEL (k : string) : Script V () := fun v => (Some (), srv_DEL ms k v).
Definition number (s : string) : Script V Z := fun v => (tonumber s, v).

(** [TIME]: seconds and microseconds. *)
Definition TIME : Z * Z := (us / 1000000, us mod 1000000).
Definition nowms : Z := TIME.1 * 1000 + TIME.2 / 1000.

(** A reply: the strings of a Lua table, [None] for [false]. *)
Abbreviation lua_reply := (list (option string)).

(** [acquireScript]. *)
Definition acquireScript (KEYS1 KEYS2 ARGV1 ARGV2 : string) : Script V lua_reply :=
  held ← EXISTS KEYS1;
  if held : bool then mret [Some "contended"]
  else
    _ ← INCR KEYS2;
    exact ← GET KEYS2;
    ttl ← number ARGV2;
    let expires := nowms + ttl in
    _ ← HSET KEYS1 [("owner", Some ARGV1); ("token", exact);
                    ("acquired", Some (tostring nowms)); ("expires", Some (tostring expires))];
    _ ← PEXPIRE KEYS1 ARGV2;
    mret [Some "ok"; exact; Some (tostring nowms); Some (tostring expires)].

(** The ownership test of the other three scripts: the lease is there with this
    owner and token. *)
Definition mismatch (KEYS1 ARGV1 ARGV2 : string) : Script V bool :=
  owner ← HGET KEYS1 "owner";
  if bool_decide (owner <> Some ARGV1) then mret true
  else
    token ← HGET KEYS1 "token";
    mret (bool_decide (token <> Some ARGV2)).

Definition notOwned (KEYS1 ARGV1 ARGV2 : string) : Script V bool :=
  held ← EXISTS KEYS1;
  if negb held then mret true else mismatch KEYS1 ARGV1 ARGV2.

(** [renewScript]. *)
Definition renewScript (KEYS1 ARGV1 ARGV2 ARGV3 : string) : Script V lua_reply :=
  stale ← notOwned KEYS1 ARGV1 ARGV2;
  if stale : bool then mret [Some "stale"]
  else
    ttl ← number ARGV3;
    let expires := nowms + ttl in
    acquired ← HGET KEYS1 "acquired";
    _ ← HSET KEYS1 [("expires", Some (tostring expires))];
    _ ← PEXPIRE KEYS1 ARGV3;
    mret [Some "ok"; Some ARGV2; acquired; Some (tostring expires)].

(** [validateScript]. *)
Definition validateScript (KEYS1 ARGV1 ARGV2 : string) : Script V lua_reply :=
  stale ← notOwned KEYS1 ARGV1 ARGV2;
  if stale : bool then mret [Some "stale"]
  else
    acquired ← HGET KEYS1 "acquired";
    expires ← HGET KEYS1 "expires";
    mret [Some "ok"; Some ARGV2; acquired; expires].

(** [releaseScript]. *)
Definition releaseScript (KEYS1 ARGV1 ARGV2 : string) : Script V lua_reply :=
  held ← EXISTS KEYS1;
  if negb held then mret [Some "missing"]
  else
    stale ← mismatch KEYS1 ARGV1 ARGV2;
    if stale : bool then mret [Some "stale"]
    else
      _ ← DEL KEYS1;
      mret [Some "ok"].

(** ** native.go: [Exec] *)

Inductive operation := opAcquire | opRenew | opValidate | opRelease.

(** The script of an operation, applied to KEYS and ARGV. *)
Definition run_script (op : operation) (keys args : list string) : Script V lua_reply :=
  match op, keys, args with
  | opAcquire, [k1; k2], [a1; a2] => acquireScript k1 k2 a1 a2
  | opRenew, [k1; _], [a1; a2; a3] => renewScript k1 a1 a2 a3
  | opValidate, [k1; _], [a1; a2] => validateScript k1 a1 a2
  | opRelease, [k1; _], [a1; a2] => releaseScript k1 a1 a2
  | _, _, _ => fun v => (None, v)
  end.

(** [Exec]: an error of the script or a reply with a nil is an error. *)
Definition Exec (net : transport) (op : operation) (keys args : list string) (v : V) :
    res (list string) * V :=
  match net with
  | Unsent e => (Err e, v)
  | ReplyLost e => (Err e, (run_script op keys args v).2)
  | Delivered =>
      let '(r, v') := run_script op keys args v in
      match r with
      | None => (Err (Foreign "script error"), v')
      | Some values =>
          match mapM id values with
          | Some reply => (Ok reply, v')
          | None => (Err (Foreign "nil element"), v')
          end
      end
  end.
End Scripts.

(** ** store.go *)

(** [newStore]: the test on the prefix. *)
Definition newStore (prefix : string) : res string :=
  if String.eqb prefix "" then Err (WrapS ErrInvalidState "valkey options")
  else if 64 <? len prefix then Err (WrapS ErrInvalidState "valkey options")
  else if ContainsAny prefix ["{"; "}"; ascii_of_N 0; ascii_of_N 13; ascii_of_N 10; " "]%char
  then Err (WrapS ErrInvalidState "valkey options")
  else Ok prefix.

(** [keys]: the lease hash and the counter, in one cluster slot. *)
Definition digest (key : Key) : string := EncodeToString (take 16 (Sum256 (KeyString key))).
Definition keys (prefix : string) (key : Key) : list string :=
  let tag := "{" ++ digest key ++ "}" in
  [prefix ++ ":" ++ tag ++ ":lease"; prefix ++ ":" ++ tag ++ ":counter"].

(** [hashTag]. *)
Definition hashTag (key : string) : string :=
  match IndexByte key "{" with
  | None => ""
  | Some start =>
      let rest := String.substring (start + 1) (String.length key) key in
      match IndexByte rest "}" with
      | None => ""
      | Some last => String.substring 0 last rest
      end
  end.

(** [validate]. *)
Definition validate (ctxErr : err_opt) (key : Key) (owner : string) (token : Z) (ttl : Duration) : err_opt :=
  match ctxErr with
  | Some _ => Some (WrapS ErrCanceled "valkey context")
  | None =>
      if String.eqb (KeyString key) "" then Some (WrapS ErrInvalidState "valkey input")
      else if String.eqb owner "" then Some (WrapS ErrInvalidState "valkey input")
      else if 128 <? len owner then Some (WrapS ErrInvalidState "valkey input")
      else if token =? 0 then Some (WrapS ErrInvalidState "valkey input")
      else if ttl <? Millisecond then Some (WrapS ErrInvalidState "valkey input")
      else None
  end.

(** [classify]; [ctxErr] is what the context reports after the request. *)
Definition classify (ctxErr : err_opt) (err : error) (ambiguous : bool) : error :=
  if ambiguous then failure_Wrap (Sentinel ErrAmbiguousOutcome) err "valkey operation"
  else if (if ctxErr is Some _ then true else false) || Is err Canceled || Is err DeadlineExceeded
  then WrapS ErrCanceled "valkey operation"
  else failure_Wrap (Sentinel ErrBackendUnavailable) err "valkey operation".

#[global] Arguments classify : simpl never.

(** [parseRecord]. *)
Definition parseRecord (key : Key) (owner : string) (reply : list string) (expected : sentinel) :
    res LeaseRecord :=
  let bad := Err (WrapS ErrBackendUnavailable "valkey response") in
  match reply with
  | [status] =>
      if negb (String.eqb status "ok") then Err (WrapS expected "valkey operation") else bad
  | [status; t; a; e] =>
      if negb (String.eqb status "ok") then bad
      else
        match ParseUint t, ParseInt a, ParseInt e with
        | Ok token, Ok acquired, Ok expires =>
            if token =? 0 then bad
            else if expires <=? acquired then bad
            else Ok (MkRecord key owner token (UnixMilli acquired) (UnixMilli expires))
        | _, _, _ => bad
        end
  | _ => bad
  end.

#[global] Arguments parseRecord : simpl never.

(** [Guard]: the coordinates for a protected writer. *)
Record Guard := MkGuard { storageKey : string; g_owner : string; g_token : string }.

Definition NewGuard (prefix : string) (owned : LeaseRecord) : res Guard :=
  if String.eqb (KeyString (r_Key owned)) "" then Err (WrapS ErrInvalidState "valkey guard")
  else if String.eqb (r_Owner owned) "" then Err (WrapS ErrInvalidState "valkey guard")
  else if 128 <? len (r_Owner owned) then Err (WrapS ErrInvalidState "valkey guard")
  else if r_Token owned =? 0 then Err (WrapS ErrInvalidState "valkey guard")
  else Ok (MkGuard (nth 0 (keys prefix (r_Key owned)) "") (r_Owner owned) (FormatUint (r_Token owned))).

Section Store.
Context {V : Type} `{!ValkeyServer V}.
Variable prefix : string.

(** The circumstances of a call: what the context reports before and after the
    request, the fate of the request, the server clock. *)
Record env := MkEnv { ctxBefore : err_opt; ctxAfter : err_opt; net : transport; us_at : Z }.

(** [TryAcquire]. *)
Definition TryAcquire (x : env) (key : Key) (owner : string) (ttl : Duration) (v : V) :
    res LeaseRecord * V :=
  match validate (ctxBefore x) key owner 1 ttl with
  | Some err => (Err err, v)
  | None =>
      let '(reply, v') := Exec (us_at x) (net x) opAcquire (keys prefix key)
                            [owner; FormatInt (Milliseconds ttl)] v in
      match reply with
      | Err err => (Err (classify (ctxAfter x) err true), v')
      | Ok reply => (parseRecord key owner reply ErrContended, v')
      end
  end.

(** [Renew]. *)
Definition Renew (x : env) (owned : LeaseRecord) (ttl : Duration) (v : V) : res LeaseRecord * V :=
  match validate (ctxBefore x) (r_Key owned) (r_Owner owned) (r_Token owned) ttl with
  | Some err => (Err err, v)
  | None =>
      let '(reply, v') := Exec (us_at x) (net x) opRenew (keys prefix (r_Key owned))
                            [r_Owner owned; FormatUint (r_Token owned); FormatInt (Milliseconds ttl)] v in
      match reply with
      | Err err => (Err (classify (ctxAfter x) err true), v')
      | Ok reply =>
          match parseRecord (r_Key owned) (r_Owner owned) reply ErrStaleOwner with
          | Err err => (Err err, v')
          | Ok record =>
              if negb (r_Token record =? r_Token owned)
              then (Err (WrapS ErrAmbiguousOutcome "valkey renew response"), v')
              else (Ok record, v')
          end
      end
  end.

(** [Validate]. *)
Definition Validate (x : env) (owned : LeaseRecord) (v : V) : res LeaseRecord * V :=
  match validate (ctxBefore x) (r_Key owned) (r_Owner owned) (r_Token owned) Millisecond with
  | Some err => (Err err, v)
  | None =>
      let '(reply, v') := Exec (us_at x) (net x) opValidate (keys prefix (r_Key owned))
                            [r_Owner owned; FormatUint (r_Token owned)] v in
      match reply with
      | Err err => (Err (classify (ctxAfter x) err false), v')
      | Ok reply =>
          match parseRecord (r_Key owned) (r_Owner owned) reply ErrStaleOwner with
          | Err err => (Err err, v')
          | Ok record =>
              if negb (r_Token record =? r_Token owned)
              then (Err (WrapS ErrBackendUnavailable "valkey validate response"), v')
              else (Ok record, v')
          end
      end
  end.

(** [Release]. *)
Definition Release (x : env) (owned : LeaseRecord) (v : V) : err_opt * V :=
  match validate (ctxBefore x) (r_Key owned) (r_Owner owned) (r_Token owned) Millisecond with
  | Some err => (Some err, v)
  | None =>
      let '(reply, v') := Exec (us_at x) (net x) opRelease (keys prefix (r_Key owned))
                            [r_Owner owned; FormatUint (r_Token owned)] v in
      match reply with
      | Err err => (Some (classify (ctxAfter x) err true), v')
      | Ok [status] =>
          if String.eqb status "ok" || String.eqb status "missing" then (None, v')
          else if String.eqb status "stale" then (Some (WrapS ErrStaleOwner "valkey release"), v')
          else (Some (WrapS ErrBackendUnavailable "valkey response"), v')
      | Ok _ => (Some (WrapS ErrBackendUnavailable "valkey response"), v')
      end
  end.

(** One method call, as the [Backend] interface presents it. *)
Definition perform (x : env) (c : call) (v : V) : reply * V :=
  match c with
  | CallTryAcquire key owner ttl => let '(r, v') := TryAcquire x key owner ttl v in (reply_of r, v')
  | CallRenew owned ttl => let '(r, v') := Renew x owned ttl v in (reply_of r, v')
  | CallValidate owned => let '(r, v') := Validate x owned v in (reply_of r, v')
  | CallRelease owned => let '(e, v') := Release x owned v in (ack_of e, v')
  end.
End Store.

Example lua_tostring_examples :
  tostring 1700000000000 = "1700000000000" /\ tostring (10 ^ 14) = "1e+14" /\
  tostring 123456789012345 = "1.2345678901234e+14" /\ tostring 999999999999999 = "1e+15".
Proof. by vm_compute. Qed.

(** ** Key derivation *)

Definition lease_key (prefix : string) (k : string) : string :=
  prefix ++ ":" ++ ("{" ++ digest (MkKey k) ++ "}") ++ ":lease".
Definition counter_key (prefix : string) (k : string) : string :=
  prefix ++ ":" ++ ("{" ++ digest (MkKey k) ++ "}") ++ ":counter".

Lemma keys_eq prefix key :
  keys prefix key = [lease_key prefix (KeyString key); counter_key prefix (KeyString key)].
Proof. by destruct key. Qed.

Lemma digest_length key : String.length (digest key) = 32%nat.
Proof.
  unfold digest. rewrite EncodeToString_length, length_take, Sum256_length. done.
Qed.

Lemma string_app_inj_l s t u : s ++ t = s ++ u -> t = u.
Proof. induction s as [|c s IH]; [done|]. simpl. intros [= H]. by apply IH. Qed.

Lemma string_app_inj_len s s' t t' :
  String.length s = String.length s' -> s ++ t = s' ++ t' -> s = s' /\ t = t'.
Proof.
  revert s'. induction s as [|c s IH]; intros [|c' s']; try done.
  simpl. intros [= Hl] [= -> H]. destruct (IH _ Hl H) as [-> ->]. done.
Qed.

Lemma tagged_inj prefix k k' rest rest' :
  prefix ++ ":" ++ ("{" ++ digest (MkKey k) ++ "}") ++ rest =
  prefix ++ ":" ++ ("{" ++ digest (MkKey k') ++ "}") ++ rest' ->
  digest (MkKey k) = digest (MkKey k') /\ rest = rest'.
Proof.
  intros H. apply string_app_inj_l in H. simpl in H. injection H as H.
  rewrite !string_app_assoc in H.
  apply string_app_inj_len in H as [Hd H]; [|by rewrite !digest_length]. split; [done|].
  by injection H.
Qed.

Lemma lease_counter_ne prefix k k' : lease_key prefix k <> counter_key prefix k'.
Proof. intros H. by apply tagged_inj in H as [_ H]. Qed.

Lemma lease_key_inj prefix k k' :
  lease_key prefix k = lease_key prefix k' -> digest (MkKey k) = digest (MkKey k').
Proof. intros H. by apply tagged_inj in H as [H _]. Qed.

Lemma counter_key_inj prefix k k' :
  counter_key prefix k = counter_key prefix k' -> digest (MkKey k) = digest (MkKey k').
Proof. intros H. by apply tagged_inj in H as [H _]. Qed.

(** ** The Go side on well-formed replies *)

Lemma vk_validate_None ctxErr key owner token ttl :
  validate ctxErr key owner token ttl = None -> token <> 0 /\ Millisecond <= ttl.
Proof.
  unfold validate. intros H. destruct ctxErr; [done|].
  repeat (step_case_in H; [done|]). bool_split. done.
Qed.

Lemma vk_validate_Some ctxErr key owner token ttl e :
  validate ctxErr key owner token ttl = Some e ->
  Is e ErrContended = false /\ Is e ErrStaleOwner = false.
Proof.
  unfold validate. intros H. destruct ctxErr; [by simplify_eq|].
  repeat (step_case_in H; [by simplify_eq|]). done.
Qed.

Lemma vk_classify_mutation ctxErr e : definite (classify ctxErr e true) = false.
Proof. by apply definite_false_ambiguous. Qed.

Lemma vk_classify_read ctxErr e :
  driver_error e -> Is (classify ctxErr e false) ErrStaleOwner = false.
Proof.
  intros He. unfold classify. step_case; [done|]. simpl. by rewrite He by auto.
Qed.

Lemma parseRecord_ok key owner t a e expected :
  0 < t -> is_int64 t -> is_int64 a -> is_int64 e -> a < e ->
  parseRecord key owner ["ok"; FormatInt t; FormatInt a; FormatInt e] expected =
  Ok (MkRecord key owner t (UnixMilli a) (UnixMilli e)).
Proof.
  intros Ht Ht' Ha He Hl. unfold parseRecord. simpl. rewrite !ParseInt_FormatInt by done.
  rewrite FormatInt_nonneg by lia.
  rewrite ParseUint_FormatUint by (unfold is_int64, is_uint64, int64_max, uint64_max in *; lia).
  destruct (Z.eqb_spec t 0); [lia|]. destruct (Z.leb_spec e a); [lia|done].
Qed.

Lemma parseRecord_late key owner t a e expected :
  0 < t -> is_int64 t -> is_int64 a -> is_int64 e -> e <= a ->
  parseRecord key owner ["ok"; FormatInt t; FormatInt a; FormatInt e] expected =
  Err (WrapS ErrBackendUnavailable "valkey response").
Proof.
  intros Ht Ht' Ha He Hl. unfold parseRecord. simpl. rewrite !ParseInt_FormatInt by done.
  rewrite FormatInt_nonneg by lia.
  rewrite ParseUint_FormatUint by (unfold is_int64, is_uint64, int64_max, uint64_max in *; lia).
  destruct (Z.eqb_spec t 0); [lia|]. destruct (Z.leb_spec e a); [done|lia].
Qed.

Lemma parseRecord_status key owner status expected :
  status <> "ok" -> parseRecord key owner [status] expected = Err (WrapS expected "valkey operation").
Proof. intros H. apply String.eqb_neq in H. unfold parseRecord. by rewrite H. Qed.

(** The bound below which Lua prints integers in full: the year 5138. *)
Definition lua_max : Z := 10 ^ 14.

Lemma tostring_small n : 0 <= n < lua_max -> tostring n = FormatInt n.
Proof.
  intros H. unfold tostring, lua_max in *. rewrite Z.abs_eq by lia.
  destruct (Z.ltb_spec n (10 ^ 14)); [done|lia].
Qed.

Lemma nowms_eq us : nowms us = us / 1000.
Proof.
  unfold nowms, TIME. simpl.
  rewrite (Z.div_mod us 1000000) at 3 by done.
  replace (1000000 * (us / 1000000) + us mod 1000000)
    with (us mod 1000000 + (us / 1000000 * 1000) * 1000) by lia.
  rewrite Z.div_add by done. lia.
Qed.

Lemma milliseconds_pos ttl : Millisecond <= ttl -> 0 < Milliseconds ttl /\
  ttl - Millisecond < Milliseconds ttl * Millisecond <= ttl.
Proof.
  unfold Milliseconds, Millisecond. intros H. rewrite Z.quot_div_nonneg by lia.
  pose proof (Z.div_mod ttl 1000000 ltac:(done)). pose proof (Z.mod_pos_bound ttl 1000000 ltac:(done)). lia.
Qed.

(** ** The refinement *)

Section Refinement.
Context {V : Type} `{!ValkeyServer V}.
Variable prefix : string.

(** The keys in use; their digests are pairwise distinct. *)
Variable K : gset string.
Hypothesis digests_distinct : forall k k',
  k ∈ K -> k' ∈ K -> digest (MkKey k) = digest (MkKey k') -> k = k'.

(** The content of a lease hash. *)
Definition fields (owner : string) (tok a e : Z) : gmap string string :=
  list_to_map [("owner", owner); ("token", FormatInt tok);
               ("acquired", FormatInt a); ("expires", FormatInt e)].

(** What the server holds for one key: the counter, never expiring, and the lease,
    whose expiry is the one it records. *)
Inductive counter_is (v : V) (k : string) : Z -> Prop :=
| counter_absent : slot_of v (counter_key prefix k) = Absent -> counter_is v k 0
| counter_at n :
    slot_of v (counter_key prefix k) = Str (FormatInt n) None -> 0 < n <= int64_max ->
    counter_is v k n.

Inductive lease_is (v : V) (k : string) (n : Z) : option LeaseRecord -> Prop :=
| lease_absent : slot_of v (lease_key prefix k) = Absent -> lease_is v k n None
| lease_at owner tok a e :
    slot_of v (lease_key prefix k) = Hash (fields owner tok a e) (Some e) ->
    0 < tok <= n -> 0 <= a < lua_max -> 0 <= e < lua_max ->
    lease_is v k n (Some (MkRecord (MkKey k) owner tok (UnixMilli a) (UnixMilli e))).

Definition key_wf (v : V) (k : string) : Prop :=
  exists n r, counter_is v k n /\ lease_is v k n r.

Definition server_wf (v : V) : Prop := forall k, k ∈ K -> key_wf v k.

(** The view: the counter, and the stored lease whether or not it expired. *)
Definition counter_value (v : V) (k : string) : Z :=
  match slot_of v (counter_key prefix k) with
  | Str s _ => default 0 (ok_value (ParseInt s))
  | _ => 0
  end.
Definition stored_lease (v : V) (k : string) : option LeaseRecord :=
  match slot_of v (lease_key prefix k) with
  | Hash h _ =>
      owner ← h !! "owner";
      tok ← h !! "token" ≫= fun s => ok_value (ParseInt s);
      a ← h !! "acquired" ≫= fun s => ok_value (ParseInt s);
      e ← h !! "expires" ≫= fun s => ok_value (ParseInt s);
      Some (MkRecord (MkKey k) owner tok (UnixMilli a) (UnixMilli e))
  | _ => None
  end.
Definition valkey_view (v : V) (k : string) : key_state :=
  if decide (k ∈ K) then MkKeyState (counter_value v k) (stored_lease v k)
  else MkKeyState 0 None.

Lemma counter_is_value v k n : counter_is v k n -> counter_value v k = n /\ 0 <= n <= int64_max.
Proof.
  unfold counter_value. destruct 1 as [H|n H Hn]; rewrite H; [unfold int64_max; lia|].
  rewrite ParseInt_FormatInt by (unfold is_int64, int64_min in *; lia). simpl. lia.
Qed.

Lemma lease_is_stored v k n r : n <= int64_max -> lease_is v k n r -> stored_lease v k = r.
Proof.
  intros Hn. unfold stored_lease. destruct 1 as [H|owner tok a e H Ht Ha He]; rewrite H; [done|].
  unfold fields, lua_max in *. simplify_map_eq.
  by rewrite !ParseInt_FormatInt by (unfold is_int64, int64_min, int64_max in *; lia).
Qed.

Lemma key_view_eq v k n r :
  k ∈ K -> counter_is v k n -> lease_is v k n r -> valkey_view v k = MkKeyState n r.
Proof.
  intros Hk Hc Hl. unfold valkey_view. rewrite decide_True by done.
  apply counter_is_value in Hc as [-> ?]. f_equal. eapply lease_is_stored; [|done]. lia.
Qed.

(** Two states with the same slots for a key have the same view of it. *)
Lemma key_same v v' k :
  slot_of v' (lease_key prefix k) = slot_of v (lease_key prefix k) ->
  slot_of v' (counter_key prefix k) = slot_of v (counter_key prefix k) ->
  (key_wf v k -> key_wf v' k) /\ valkey_view v' k = valkey_view v k.
Proof.
  intros Hl Hc. split.
  - intros (n & r & Hn & Hr). exists n, r. split.
    + destruct Hn; [apply counter_absent|apply counter_at]; rewrite ?Hc; done.
    + destruct Hr; [apply lease_absent|eapply lease_at]; rewrite ?Hl; done.
  - unfold valkey_view, counter_value, stored_lease. by rewrite Hl, Hc.
Qed.

(** A state that differs from [v] in the two slots of [k] only. *)
Definition only (k : string) (v v' : V) : Prop :=
  forall k', k' <> lease_key prefix k -> k' <> counter_key prefix k -> slot_of v' k' = slot_of v k'.

(** Such a change, with a well-formed result for [k], keeps everything else. *)
Lemma only_local v v' k :
  k ∈ K -> server_wf v -> only k v v' -> key_wf v' k ->
  server_wf v' /\ forall k', k' <> k -> valkey_view v' k' = valkey_view v k'.
Proof.
  intros Hk Hwf Ho Hwk.
  assert (Hsame : forall k', k' ∈ K -> k' <> k ->
    (key_wf v k' -> key_wf v' k') /\ valkey_view v' k' = valkey_view v k').
  { intros k' Hk' Hne. apply key_same; apply Ho.
    - intros H. apply Hne, digests_distinct; [done|done|]. by eapply lease_key_inj.
    - apply lease_counter_ne.
    - apply not_eq_sym, lease_counter_ne.
    - intros H. apply Hne, digests_distinct; [done|done|]. by eapply counter_key_inj. }
  split.
  - intros k' Hk'. destruct (decide (k' = k)) as [->|Hne]; [done|].
    apply Hsame; [done|done|by apply Hwf].
  - intros k' Hne. destruct (decide (k' ∈ K)); [by apply Hsame|].
    unfold valkey_view. by rewrite !decide_False.
Qed.
(** The existence test on a stored lease. *)
Lemma exists_lease now v k n r :
  lease_is v k n r ->
  (srv_EXISTS (server_ms now) (lease_key prefix k) v = true /\
   exists owner tok a e, slot_of v (lease_key prefix k) = Hash (fields owner tok a e) (Some e) /\
     r = Some (MkRecord (MkKey k) owner tok (UnixMilli a) (UnixMilli e)) /\
     0 < tok <= n /\ 0 <= a < lua_max /\ 0 <= e < lua_max /\ now < UnixMilli e + Millisecond) \/
  (srv_EXISTS (server_ms now) (lease_key prefix k) v = false /\
   forall rec, r = Some rec -> r_ExpiresAt rec <= now).
Proof.
  intros H. pose proof (server_ms_bounds now) as Hb.
  destruct H as [H|owner tok a e H Ht Ha He].
  { right. split; [by apply exists_absent|done]. }
  destruct (srv_EXISTS _ _ v) eqn:E; [left|right]; split; try done.
  - exists owner, tok, a, e. split_and!; try done; try lia.
    destruct (Z.lt_ge_cases e (server_ms now)).
    + rewrite (exists_gone _ _ _ e) in E; [done|by rewrite H|done].
    + rewrite UnixMilli_epoch in *. unfold Millisecond in *. lia.
  - intros rec [= <-]. simpl. destruct (Z.lt_ge_cases (server_ms now) e).
    + rewrite exists_live in E; [done|by rewrite H|]. right. exists e. by rewrite H.
    + rewrite UnixMilli_epoch in *. unfold Millisecond in *. lia.
Qed.

Lemma only_trans k v1 v2 v3 : only k v1 v2 -> only k v2 v3 -> only k v1 v3.
Proof. intros H1 H2 k' Hl Hc. by rewrite H2, H1. Qed.

(** The counter step: [INCR] and the exact value read back by [GET]. *)
Lemma counter_step now v k n :
  counter_is v k n ->
  (n = int64_max /\ srv_INCR (server_ms now) (counter_key prefix k) v = None) \/
  (n < int64_max /\ exists v', srv_INCR (server_ms now) (counter_key prefix k) v = Some v' /\
     slot_of v' (counter_key prefix k) = Str (FormatInt (n + 1)) None).
Proof.
  destruct 1 as [H|n H Hn].
  - right. split; [done|]. destruct (incr_new (server_ms now) _ _ H) as (v' & -> & Hv). by eexists.
  - destruct (decide (n = int64_max)) as [->|Hne].
    + left. split; [done|]. by apply incr_max.
    + right. split; [lia|]. destruct (incr_old (server_ms now) _ _ n H) as (v' & -> & Hv); [lia|].
      by eexists.
Qed.

(** Writing a lease hash and its expiry. *)
Lemma write_lease now v k owner tok a d v' :
  srv_EXISTS (server_ms now) (lease_key prefix k) v = false -> 0 < d ->
  v' = srv_PEXPIRE (server_ms now) (lease_key prefix k) d
         (srv_HSET (server_ms now) (lease_key prefix k)
            [("owner", owner); ("token", FormatInt tok); ("acquired", FormatInt a);
             ("expires", FormatInt (server_ms now + d))] v) ->
  slot_of v' (lease_key prefix k) = Hash (fields owner tok a (server_ms now + d)) (Some (server_ms now + d)) /\
  forall k', k' <> lease_key prefix k -> slot_of v' k' = slot_of v k'.
Proof.
  intros Hx Hd ->. split.
  - pose proof (hset_new (server_ms now) (lease_key prefix k)
      [("owner", owner); ("token", FormatInt tok); ("acquired", FormatInt a);
       ("expires", FormatInt (server_ms now + d))] v Hx) as H.
    eapply pexpire_hash; [exact H| |done]. apply exists_live; rewrite H; [done|by left].
  - intros k' Hne. by rewrite pexpire_frame, hset_frame.
Qed.

(** [acquireScript] on every branch. *)
Lemma acquireScript_runs now v k n r owner d :
  counter_is v k n -> lease_is v k n r -> 0 < d -> 0 <= server_ms now ->
  server_ms now + d < lua_max ->
  let run := acquireScript (server_us now) (lease_key prefix k) (counter_key prefix k) owner (FormatInt d) v in
  let rec := MkRecord (MkKey k) owner (n + 1) (UnixMilli (server_ms now)) (UnixMilli (server_ms now + d)) in
  (lingers Millisecond now (MkKeyState n r) /\ run = (Some [Some "contended"], v)) \/
  (n = int64_max /\ run = (None, v)) \/
  (~ live now (MkKeyState n r) /\ n < int64_max /\ exists v',
     run = (Some [Some "ok"; Some (FormatInt (n + 1)); Some (FormatInt (server_ms now));
                  Some (FormatInt (server_ms now + d))], v') /\
     only k v v' /\ counter_is v' k (n + 1) /\ lease_is v' k (n + 1) (Some rec)).
Proof.
  intros Hc Hl Hd Hm Hmax. pose proof (counter_is_value _ _ _ Hc) as [_ Hn].
  unfold acquireScript, mbind, Script_bind, EXISTS, INCR, GET, number, PEXPIRE, HSET.
  fold (server_ms now). cbn -[nowms tostring fields].
  assert (Hp : ParseInt (FormatInt d) = Ok d).
  { apply ParseInt_FormatInt. unfold is_int64, int64_min, int64_max, lua_max in *. lia. }
  destruct (exists_lease now v k n r Hl) as [(Hx & owner0 & tok & a & e & Hs & -> & _ & _ & _ & Hlg)|(Hx & Hgone)];
    rewrite Hx.
  { left. split; [|done]. eexists. split; [done|]. simpl. done. }
  right. destruct (counter_step now v k n Hc) as [[Hmx ->]|(Hlt & v1 & Hi & Hs1)]; [by left|].
  right. rewrite Hi. cbn -[nowms tostring fields]. rewrite (get_string _ _ _ _ Hs1).
  unfold tonumber. rewrite Hp. cbn -[nowms tostring fields].
  rewrite !nowms_eq. fold (server_ms now).
  rewrite !tostring_small by lia. split.
  { intros (rec & Hr & Hrl). simpl in Hr. specialize (Hgone rec Hr). lia. }
  split; [done|]. eexists. split; [done|].
  assert (Hx1 : srv_EXISTS (server_ms now) (lease_key prefix k) v1 = false).
  { etransitivity; [|exact Hx]. apply exists_slot;
      by rewrite (incr_frame _ _ _ _ _ Hi) by apply lease_counter_ne. }
  destruct (write_lease now v1 k owner (n + 1) (server_ms now) d _ Hx1 Hd eq_refl) as [Hw Hfr].
  split_and!.
  - intros k' Hkl Hkc. rewrite Hfr by done. by eapply incr_frame.
  - apply counter_at; [|lia]. rewrite Hfr by (apply not_eq_sym, lease_counter_ne). done.
  - apply lease_at; [done|lia|lia|lia].
Qed.
(** The comparison of owner and token, on a hash that is there. *)
Lemma mismatch_runs now v k owner tok a e x o tk :
  slot_of v (lease_key prefix k) = Hash (fields owner tok a e) x ->
  srv_EXISTS (server_ms now) (lease_key prefix k) v = true -> 0 <= tok -> 0 <= tk ->
  mismatch (server_us now) (lease_key prefix k) o (FormatUint tk) v =
  (Some (negb (bool_decide (owner = o /\ tok = tk))), v).
Proof.
  intros Hs Hx Ht Htk. unfold mismatch, mbind, Script_bind, HGET. fold (server_ms now).
  assert (Hf : fields owner tok a e !! "owner" = Some owner /\
               fields owner tok a e !! "token" = Some (FormatUint tok)).
  { unfold fields. rewrite <- FormatInt_nonneg by done. by simplify_map_eq. }
  destruct Hf as [Hfo Hft]. rewrite (hget_hash _ _ _ _ _ _ Hs Hx), Hfo.
  destruct (decide (owner = o)) as [->|Hne].
  - rewrite bool_decide_eq_false_2 by tauto. rewrite (hget_hash _ _ _ _ _ _ Hs Hx), Hft.
    unfold mret, Script_ret. do 2 f_equal.
    destruct (decide (tok = tk)) as [->|Hne].
    + rewrite bool_decide_eq_false_2 by tauto. by rewrite bool_decide_eq_true_2.
    + rewrite bool_decide_eq_true_2; [by rewrite bool_decide_eq_false_2 by tauto|].
      intros [= H]. by apply FormatUint_inj in H.
  - rewrite bool_decide_eq_true_2 by congruence.
    by rewrite bool_decide_eq_false_2 by tauto.
Qed.

(** The whole test of [renewScript] and [validateScript]: stale, or the presented
    record is the stored one, seen before the end of its last millisecond. *)
Lemma notOwned_runs now v k n r owned :
  lease_is v k n r -> 0 <= r_Token owned ->
  let run := notOwned (server_us now) (lease_key prefix k) (r_Owner owned) (FormatUint (r_Token owned)) v in
  (run = (Some true, v) /\ ~ current now owned (MkKeyState n r)) \/
  (run = (Some false, v) /\ srv_EXISTS (server_ms now) (lease_key prefix k) v = true /\
   exists a e,
     slot_of v (lease_key prefix k) = Hash (fields (r_Owner owned) (r_Token owned) a e) (Some e) /\
     r = Some (MkRecord (MkKey k) (r_Owner owned) (r_Token owned) (UnixMilli a) (UnixMilli e)) /\
     0 < r_Token owned <= n /\ 0 <= a < lua_max /\ 0 <= e < lua_max /\ now < UnixMilli e + Millisecond).
Proof.
  intros Hl Ht. simpl. unfold notOwned, EXISTS. fold (server_ms now). rewrite Script_bind_eq.
  destruct (exists_lease now v k n r Hl) as [(Hx & o & tok & a & e & Hs & -> & Htok & Ha & He & Hlg)|(Hx & Hgone)];
    rewrite Hx; simpl.
  - rewrite (mismatch_runs now v k o tok a e (Some e)) by (done || lia).
    destruct (decide (o = r_Owner owned /\ tok = r_Token owned)) as [[-> ->]|Hne].
    + right. rewrite bool_decide_eq_true_2 by done. split_and!; [done|done|]. by exists a, e.
    + left. rewrite bool_decide_eq_false_2 by done. split; [done|].
      intros (rec & [= <-] & [Ho Htk] & _). simpl in *. naive_solver.
  - left. split; [done|]. intros (rec & Hr & _ & Hlt). simpl in Hr. specialize (Hgone _ Hr). lia.
Qed.

(** [renewScript] on every branch. *)
Lemma renewScript_runs now v k n r owned d :
  counter_is v k n -> lease_is v k n r -> 0 <= r_Token owned -> 0 < d -> 0 <= server_ms now ->
  server_ms now + d < lua_max ->
  let run := renewScript (server_us now) (lease_key prefix k) (r_Owner owned)
               (FormatUint (r_Token owned)) (FormatInt d) v in
  (run = (Some [Some "stale"], v) /\ ~ current now owned (MkKeyState n r)) \/
  (exists a e v',
     run = (Some [Some "ok"; Some (FormatInt (r_Token owned)); Some (FormatInt a);
                  Some (FormatInt (server_ms now + d))], v') /\
     r = Some (MkRecord (MkKey k) (r_Owner owned) (r_Token owned) (UnixMilli a) (UnixMilli e)) /\
     0 < r_Token owned <= n /\ 0 <= a < lua_max /\ now < UnixMilli e + Millisecond /\
     only k v v' /\ counter_is v' k n /\
     lease_is v' k n (Some (MkRecord (MkKey k) (r_Owner owned) (r_Token owned) (UnixMilli a)
                              (UnixMilli (server_ms now + d))))).
Proof.
  intros Hc Hl Ht Hd Hm Hmax. simpl. unfold renewScript. rewrite Script_bind_eq.
  destruct (notOwned_runs now v k n r owned Hl Ht)
    as [[-> Hn]|(-> & Hx & a & e & Hs & -> & Htok & Ha & He & Hlg)]; [by left|right].
  exists a, e. assert (Hp : ParseInt (FormatInt d) = Ok d).
  { apply ParseInt_FormatInt. unfold is_int64, int64_min, int64_max, lua_max in *. lia. }
  unfold mbind, Script_bind, number, HGET, HSET, PEXPIRE, tonumber. fold (server_ms now).
  rewrite Hp. cbn -[nowms tostring fields]. rewrite !(hget_hash _ _ _ _ _ _ Hs Hx).
  rewrite !nowms_eq. fold (server_ms now). rewrite !tostring_small by lia.
  assert (Ha' : fields (r_Owner owned) (r_Token owned) a e !! "acquired" = Some (FormatInt a)).
  { unfold fields. by simplify_map_eq. }
  rewrite Ha'. rewrite <- (FormatInt_nonneg (r_Token owned)) by done.
  eexists. split; [reflexivity|]. split_and!; try done; try lia.
  - intros k' Hkl Hkc. by rewrite pexpire_frame, hset_frame.
  - destruct Hc as [Hc|n Hc Hn]; [apply counter_absent|apply counter_at; [|done]];
      rewrite pexpire_frame, hset_frame by (apply not_eq_sym, lease_counter_ne); done.
  - pose proof (hset_old (server_ms now) _ [("expires", FormatInt (server_ms now + d))] _ _ _ Hs Hx) as Hh.
    apply lease_at; [|lia|lia|lia].
    rewrite (pexpire_hash _ _ _ _ _ _ Hh); [| |done].
    + done.
    + etransitivity; [|exact Hx]. apply exists_slot; by rewrite Hh, Hs.
Qed.
(** [validateScript] on every branch. *)
Lemma validateScript_runs now v k n r owned :
  lease_is v k n r -> 0 <= r_Token owned ->
  let run := validateScript (server_us now) (lease_key prefix k) (r_Owner owned)
               (FormatUint (r_Token owned)) v in
  (run = (Some [Some "stale"], v) /\ ~ current now owned (MkKeyState n r)) \/
  (exists a e,
     run = (Some [Some "ok"; Some (FormatInt (r_Token owned)); Some (FormatInt a); Some (FormatInt e)], v) /\
     r = Some (MkRecord (MkKey k) (r_Owner owned) (r_Token owned) (UnixMilli a) (UnixMilli e)) /\
     0 < r_Token owned <= n /\ 0 <= a < lua_max /\ 0 <= e < lua_max /\ now < UnixMilli e + Millisecond).
Proof.
  intros Hl Ht. simpl. unfold validateScript. rewrite Script_bind_eq.
  destruct (notOwned_runs now v k n r owned Hl Ht)
    as [[-> Hn]|(-> & Hx & a & e & Hs & -> & Htok & Ha & He & Hlg)]; [by left|right].
  exists a, e. unfold mbind, Script_bind, HGET. fold (server_ms now).
  rewrite !(hget_hash _ _ _ _ _ _ Hs Hx).
  assert (Hf : fields (r_Owner owned) (r_Token owned) a e !! "acquired" = Some (FormatInt a) /\
               fields (r_Owner owned) (r_Token owned) a e !! "expires" = Some (FormatInt e)).
  { unfold fields. by simplify_map_eq. }
  destruct Hf as [-> ->]. rewrite <- (FormatInt_nonneg (r_Token owned)) by done. done.
Qed.

(** [releaseScript] on every branch. *)
Lemma releaseScript_runs now v k n r owned :
  counter_is v k n -> lease_is v k n r -> 0 <= r_Token owned ->
  let run := releaseScript (server_us now) (lease_key prefix k) (r_Owner owned)
               (FormatUint (r_Token owned)) v in
  (run = (Some [Some "missing"], v) /\ ~ live now (MkKeyState n r)) \/
  (run = (Some [Some "stale"], v) /\ ~ held_by owned (MkKeyState n r) /\ r <> None) \/
  (exists v', run = (Some [Some "ok"], v') /\ held_by owned (MkKeyState n r) /\
     only k v v' /\ counter_is v' k n /\ lease_is v' k n None).
Proof.
  intros Hc Hl Ht. simpl. unfold releaseScript, EXISTS. rewrite Script_bind_eq. fold (server_ms now).
  destruct (exists_lease now v k n r Hl) as [(Hx & o & tok & a & e & Hs & -> & Htok & Ha & He & Hlg)|(Hx & Hgone)];
    rewrite Hx; cbn -[mismatch DEL].
  - right. rewrite Script_bind_eq.
    rewrite (mismatch_runs now v k o tok a e (Some e)) by (done || lia).
    destruct (decide (o = r_Owner owned /\ tok = r_Token owned)) as [[-> ->]|Hne].
    + right. rewrite bool_decide_eq_true_2 by done. cbn -[mismatch DEL]. unfold DEL. simpl.
      eexists. split; [done|]. split_and!.
      * eexists. split; [done|]. done.
      * intros k' Hkl Hkc. by rewrite del_frame.
      * destruct Hc as [Hc|n Hc Hn]; [apply counter_absent|apply counter_at; [|done]];
          rewrite del_frame by (apply not_eq_sym, lease_counter_ne); done.
      * apply lease_absent, del_absent.
    + left. rewrite bool_decide_eq_false_2 by done. split_and!; [done| |done].
      intros (rec & [= <-] & Ho & Htk). simpl in *. naive_solver.
  - left. split; [done|]. intros (rec & Hr & Hlt). simpl in Hr. specialize (Hgone _ Hr). lia.
Qed.
(** ** Method calls *)

(** The granularity: the TTL loses its fraction of a millisecond, and so does the
    server clock. *)
Definition valkey_granularity : Duration := 2 * Millisecond.

(** The circumstances of a call at the backend instant [now]: the server clock reads
    that instant, the expiry it computes is one Lua prints in full, the driver
    reports its own errors, and the token has Go's type. *)
Record env_ok (now : Time) (c : call) (x : env) : Prop := {
  eo_us : us_at x = server_us now;
  eo_net : transport_ok (net x);
  eo_ms : 0 <= server_ms now;
  eo_max : match c with
           | CallTryAcquire _ _ ttl | CallRenew _ ttl => server_ms now + Milliseconds ttl < lua_max
           | _ => True
           end;
  eo_token : match c with
             | CallRenew owned _ | CallValidate owned | CallRelease owned => is_uint64 (r_Token owned)
             | _ => True
             end
}.

(** What a call must establish. *)
Abbreviation call_refines := (refines server_wf valkey_view valkey_granularity).

(** A call that rewrote the slots of its key. *)
Lemma vk_refines_step now c v v' r n n' h h' :
  call_key c ∈ K -> server_wf v -> only (call_key c) v v' ->
  counter_is v (call_key c) n -> lease_is v (call_key c) n h ->
  counter_is v' (call_key c) n' -> lease_is v' (call_key c) n' h' ->
  spec_step valkey_granularity now c r (MkKeyState n h) (MkKeyState n' h') ->
  call_refines now c v (r, v').
Proof.
  intros Hk Hwf Ho Hc Hl Hc' Hl' Hs.
  destruct (only_local v v' (call_key c)) as [Hwf' Hfr]; [done|done|done|by exists n', h'|].
  split; [done|]. split; [|done]. simpl.
  by rewrite (key_view_eq _ _ _ _ Hk Hc Hl), (key_view_eq _ _ _ _ Hk Hc' Hl').
Qed.

Lemma vk_ambiguous_same now c v ctxErr e :
  server_wf v -> call_refines now c v (Failed (classify ctxErr e true), v).
Proof. intros Hwf. apply failed_same; [done|]. left. apply vk_classify_mutation. Qed.

(** The expiry a script computes, against the request. *)
Lemma expiry_bound now ttl :
  Millisecond <= ttl ->
  now + ttl - valkey_granularity <= UnixMilli (server_ms now + Milliseconds ttl) /\
  UnixMilli (server_ms now) < UnixMilli (server_ms now + Milliseconds ttl).
Proof.
  intros Hd. pose proof (milliseconds_pos ttl Hd). pose proof (server_ms_bounds now).
  rewrite !UnixMilli_epoch in *. unfold valkey_granularity, Millisecond in *. lia.
Qed.

Lemma acquire_effect_ms now key owner ttl n h :
  Millisecond <= ttl -> ~ live now (MkKeyState n h) ->
  let rec := MkRecord (MkKey (KeyString key)) owner (n + 1) (UnixMilli (server_ms now))
               (UnixMilli (server_ms now + Milliseconds ttl)) in
  acquire_effect valkey_granularity now key owner ttl rec (MkKeyState n h) (MkKeyState (n + 1) (Some rec)).
Proof.
  intros Hd Hnl. destruct (expiry_bound now ttl Hd).
  split_and!; simpl; (done || lia || by destruct key).
Qed.

Lemma vk_acquire_refines now x key owner ttl v :
  KeyString key ∈ K -> server_wf v -> env_ok now (CallTryAcquire key owner ttl) x ->
  call_refines now (CallTryAcquire key owner ttl) v (perform prefix x (CallTryAcquire key owner ttl) v).
Proof.
  intros Hk Hwf [Hus Hnet Hms Hmax _]. simpl. unfold TryAcquire. rewrite Hus.
  destruct (validate _ _ _ _ _) as [e|] eqn:Ev.
  { apply failed_same; [done|]. right. by eapply vk_validate_Some. }
  apply vk_validate_None in Ev as [_ Hd]. pose proof (milliseconds_pos ttl Hd) as [Hd0 Hd1].
  destruct (Hwf _ Hk) as (n & h & Hc & Hl).
  pose proof (acquireScript_runs now v _ n h owner _ Hc Hl Hd0 Hms Hmax) as Hrun. simpl in Hrun.
  assert (Hout : forall err v', definite err = false ->
    (acquireScript (server_us now) (lease_key prefix (KeyString key)) (counter_key prefix (KeyString key))
       owner (FormatInt (Milliseconds ttl)) v).2 = v' ->
    call_refines now (CallTryAcquire key owner ttl) v (Failed err, v')).
  { intros err v' Hdef <-. destruct Hrun as [[_ ->]|[[_ ->]|(Hnl & Hn & v' & -> & Ho & Hc' & Hl')]];
      [by apply failed_same; [|left]..|].
    eapply vk_refines_step; eauto. eapply spec_acquire_uncertain, acquire_effect_ms; done. }
  rewrite keys_eq. unfold Exec. simpl run_script.
  destruct (net x) as [|e|e] eqn:En; simpl in Hnet.
  - destruct Hrun as [[Hlg Hr]|[[_ Hr]|(Hnl & Hn & v' & Hr & Ho & Hc' & Hl')]]; rewrite Hr in *;
      cbn -[parseRecord].
    + rewrite parseRecord_status by done. simpl.
      apply refines_same; [done|]. apply spec_acquire_failed; [auto with lease|]. intros _ _.
      simpl. rewrite (key_view_eq _ _ _ _ Hk Hc Hl). eapply lingers_mono; [|done].
      unfold valkey_granularity, Millisecond. lia.
    + by apply vk_ambiguous_same.
    + pose proof (counter_is_value _ _ _ Hc) as [_ Hn0].
      rewrite parseRecord_ok by (unfold is_int64, int64_min, int64_max, lua_max in *; lia).
      simpl. eapply vk_refines_step; eauto. destruct key. by apply spec_acquired, acquire_effect_ms.
  - by apply vk_ambiguous_same.
  - apply Hout; [by apply vk_classify_mutation|done].
Qed.
(** A presented record whose key, owner and token are the stored ones. *)
Lemma owned_key owned : MkKey (KeyString (r_Key owned)) = r_Key owned.
Proof. by destruct (r_Key owned). Qed.

Lemma renew_effect_ms now owned ttl n a e :
  Millisecond <= ttl -> now < UnixMilli e + Millisecond ->
  let rec x := MkRecord (r_Key owned) (r_Owner owned) (r_Token owned) (UnixMilli a) (UnixMilli x) in
  renew_effect valkey_granularity now owned ttl (rec (server_ms now + Milliseconds ttl))
    (MkKeyState n (Some (rec e))) (MkKeyState n (Some (rec (server_ms now + Milliseconds ttl)))).
Proof.
  intros Hd Hl. destruct (expiry_bound now ttl Hd). eexists. split; [done|].
  unfold valkey_granularity, Millisecond in *. split_and!; simpl; (done || lia).
Qed.

Lemma vk_renew_refines now x owned ttl v :
  KeyString (r_Key owned) ∈ K -> server_wf v -> env_ok now (CallRenew owned ttl) x ->
  call_refines now (CallRenew owned ttl) v (perform prefix x (CallRenew owned ttl) v).
Proof.
  intros Hk Hwf [Hus Hnet Hms Hmax [Ht0 _]]. simpl. unfold Renew. rewrite Hus.
  destruct (validate _ _ _ _ _) as [e|] eqn:Ev.
  { apply failed_same; [done|]. right. by eapply vk_validate_Some. }
  apply vk_validate_None in Ev as [_ Hd]. pose proof (milliseconds_pos ttl Hd) as [Hd0 Hd1].
  destruct (Hwf _ Hk) as (n & h & Hc & Hl). pose proof (counter_is_value _ _ _ Hc) as [_ Hn0].
  pose proof (renewScript_runs now v _ n h owned _ Hc Hl Ht0 Hd0 Hms Hmax) as Hrun. simpl in Hrun.
  rewrite !owned_key in Hrun.
  assert (Hout : forall err v', definite err = false ->
    (renewScript (server_us now) (lease_key prefix (KeyString (r_Key owned))) (r_Owner owned)
       (FormatUint (r_Token owned)) (FormatInt (Milliseconds ttl)) v).2 = v' ->
    call_refines now (CallRenew owned ttl) v (Failed err, v')).
  { intros err v' Hdef <-. destruct Hrun as [[-> _]|(a & e & v' & -> & -> & Htok & Ha & Hlg & Ho & Hc' & Hl')];
      [by apply failed_same; [|left]|].
    eapply vk_refines_step; eauto. by eapply spec_renew_uncertain, renew_effect_ms. }
  rewrite keys_eq. unfold Exec. simpl run_script.
  destruct (net x) as [|e|e] eqn:En; simpl in Hnet.
  - destruct Hrun as [[Hr Hnc]|(a & e & v' & Hr & -> & Htok & Ha & Hlg & Ho & Hc' & Hl')];
      rewrite Hr in Hout |- *; cbn -[parseRecord].
    + rewrite parseRecord_status by done. simpl. apply refines_same; [done|].
      apply spec_renew_failed. intros _ _. simpl. by rewrite (key_view_eq _ _ _ _ Hk Hc Hl).
    + destruct (Z.lt_ge_cases a (server_ms now + Milliseconds ttl)) as [Hae|Hae].
      * rewrite parseRecord_ok by (unfold is_int64, int64_min, int64_max, lua_max in *; lia).
        simpl. rewrite Z.eqb_refl. simpl. eapply vk_refines_step; eauto. by apply spec_renewed, renew_effect_ms.
      * rewrite parseRecord_late by (unfold is_int64, int64_min, int64_max, lua_max in *; lia).
        by apply Hout.
  - by apply vk_ambiguous_same.
  - apply Hout; [by apply vk_classify_mutation|done].
Qed.

Lemma vk_validate_refines now x owned v :
  KeyString (r_Key owned) ∈ K -> server_wf v -> env_ok now (CallValidate owned) x ->
  call_refines now (CallValidate owned) v (perform prefix x (CallValidate owned) v).
Proof.
  intros Hk Hwf [Hus Hnet Hms Hmax [Ht0 _]]. simpl. unfold Validate. rewrite Hus.
  destruct (validate _ _ _ _ _) as [e|] eqn:Ev.
  { apply failed_same; [done|]. right. by eapply vk_validate_Some. }
  destruct (Hwf _ Hk) as (n & h & Hc & Hl). pose proof (counter_is_value _ _ _ Hc) as [_ Hn0].
  assert (Hread : forall e, driver_error e ->
    call_refines now (CallValidate owned) v (Failed (classify (ctxAfter x) e false), v)).
  { intros e He. apply refines_same; [done|]. apply spec_validate_failed.
    rewrite vk_classify_read by done. done. }
  rewrite keys_eq. unfold Exec. simpl run_script.
  pose proof (validateScript_runs now v _ n h owned Hl Ht0) as Hrun. simpl in Hrun.
  rewrite !owned_key in Hrun.
  destruct Hrun as [[Hr Hnc]|(a & e & Hr & -> & Htok & Ha & He & Hlg)]; rewrite Hr; clear Hr;
    (destruct (net x) as [|e0|e0]; simpl in Hnet; [|by apply Hread..]); cbn -[parseRecord].
  - rewrite parseRecord_status by done. simpl. apply refines_same; [done|].
    apply spec_validate_failed. intros _ _. simpl. by rewrite (key_view_eq _ _ _ _ Hk Hc Hl).
  - destruct (Z.lt_ge_cases a e) as [Hae|Hae].
    + rewrite parseRecord_ok by (unfold is_int64, int64_min, int64_max, lua_max in *; lia).
      simpl. rewrite Z.eqb_refl. simpl. apply refines_same; [done|]. simpl.
      rewrite (key_view_eq _ _ _ _ Hk Hc Hl). apply spec_validated; [done|done|].
      unfold valkey_granularity, Millisecond in *. simpl. lia.
    + rewrite parseRecord_late by (unfold is_int64, int64_min, int64_max, lua_max in *; lia).
      by apply failed_same; [|left].
Qed.

Lemma vk_release_refines now x owned v :
  KeyString (r_Key owned) ∈ K -> server_wf v -> env_ok now (CallRelease owned) x ->
  call_refines now (CallRelease owned) v (perform prefix x (CallRelease owned) v).
Proof.
  intros Hk Hwf [Hus Hnet Hms Hmax [Ht0 _]]. simpl. unfold Release. rewrite Hus.
  destruct (validate _ _ _ _ _) as [e|] eqn:Ev.
  { apply failed_same; [done|]. right. by eapply vk_validate_Some. }
  destruct (Hwf _ Hk) as (n & h & Hc & Hl).
  rewrite keys_eq. unfold Exec. simpl run_script.
  pose proof (releaseScript_runs now v _ n h owned Hc Hl Ht0) as Hrun. simpl in Hrun.
  pose proof (key_view_eq _ _ _ _ Hk Hc Hl) as Hv.
  destruct Hrun as [[Hr Hnl]|[(Hr & Hnh & _)|(v' & Hr & Hh & Ho & Hc' & Hl')]]; rewrite Hr; clear Hr;
    (destruct (net x) as [|e0|e0]; [|by apply vk_ambiguous_same|]);
    simpl; try (by apply vk_ambiguous_same).
  - apply refines_same; [done|]. simpl. rewrite Hv. apply spec_release_idle.
    contradict Hnl. eauto with lease.
  - apply refines_same; [done|]. simpl. rewrite Hv. by apply spec_release_failed.
  - eapply vk_refines_step; eauto. by apply spec_released.
  - eapply vk_refines_step; eauto. apply spec_release_uncertain; [apply vk_classify_mutation|done].
Qed.

Lemma vk_perform_refines now x c v :
  call_key c ∈ K -> server_wf v -> env_ok now c x -> call_refines now c v (perform prefix x c v).
Proof.
  destruct c; [apply vk_acquire_refines|apply vk_renew_refines|apply vk_validate_refines|apply vk_release_refines].
Qed.

(** The Valkey store as a lease backend, for the keys in use. *)
Program Definition valkey_backend : LeaseBackend V := {|
  granularity := valkey_granularity;
  backend_wf := server_wf;
  backend_call now c v r v' := call_key c ∈ K /\ exists x, env_ok now c x /\ perform prefix x c v = (r, v');
  key_view := valkey_view
|}.
Next Obligation. done. Qed.
Next Obligation.
  intros now c v r v' Hwf (Hk & x & Hx & H). pose proof (vk_perform_refines _ _ _ _ Hk Hwf Hx) as (? & ? & ?).
  by rewrite H in *.
Qed.
Next Obligation.
  intros now c v r v' Hwf (Hk & x & Hx & H). pose proof (vk_perform_refines _ _ _ _ Hk Hwf Hx) as (? & ? & ?).
  by rewrite H in *.
Qed.
Next Obligation.
  intros now c v r v' k Hwf (Hk & x & Hx & H) Hne.
  pose proof (vk_perform_refines _ _ _ _ Hk Hwf Hx) as (? & ? & Hf). rewrite H in Hf. by apply Hf.
Qed.
End Refinement.

(** ** The cluster slot *)

Lemma ContainsAny_IndexByte s cs c :
  ContainsAny s cs = false -> In c cs -> IndexByte s c = None.
Proof.
  intros H Hin. induction s as [|x s IH]; [done|]. simpl in *. apply orb_false_iff in H as [Hx H].
  rewrite (IH H). destruct (Ascii.eqb_spec x c) as [->|]; [|done].
  assert (existsb (Ascii.eqb c) cs = true); [|congruence].
  apply existsb_exists. exists c. split; [done|apply Ascii.eqb_refl].
Qed.

Lemma substring_tail s t n : (String.length t <= n)%nat -> String.substring (String.length s) n (s ++ t) = t.
Proof.
  intros Hn. induction s as [|c s IH]; [|done]. simpl.
  revert n Hn. induction t as [|c t IHt]; intros [|n] Hn; simpl in *; try done; [lia|].
  f_equal. apply IHt. lia.
Qed.

Lemma substring_head s t : String.substring 0 (String.length s) (s ++ t) = s.
Proof. induction s as [|c s IH]; simpl; [by destruct t|]. by rewrite IH. Qed.

Lemma IndexByte_app_none s t c :
  IndexByte s c = None -> IndexByte (s ++ t) c = Nat.add (String.length s) <$> IndexByte t c.
Proof.
  induction s as [|x s IH]; simpl; intros H; [by destruct (IndexByte t c)|].
  destruct (Ascii.eqb x c); [done|]. apply fmap_None in H. rewrite IH by done.
  by destruct (IndexByte t c).
Qed.

Lemma hex_digit_brace n : 0 <= n < 16 -> Ascii.eqb (hex_digit n) "}" = false.
Proof.
  intros Hn. assert (H : Forall (fun m => Ascii.eqb (hex_digit m) "}" = false) (seqZ 0 16)).
  { by vm_compute; repeat constructor. }
  rewrite List.Forall_forall in H. apply H, list_elem_of_In, elem_of_seqZ. lia.
Qed.

Lemma Encode_no_brace bytes :
  Forall (fun b => 0 <= b < 256) bytes -> IndexByte (EncodeToString bytes) "}" = None.
Proof.
  induction 1 as [|b bytes Hb _ IH]; [done|]. cbn [EncodeToString IndexByte].
  pose proof (Z.mod_pos_bound b 16). pose proof (Z.div_lt_upper_bound b 16 16).
  pose proof (Z.div_pos b 16).
  rewrite !hex_digit_brace by lia. by rewrite IH.
Qed.

Lemma string_length_app s t : String.length (s ++ t) = (String.length s + String.length t)%nat.
Proof. induction s as [|c s IH]; [done|]. simpl. by rewrite IH. Qed.

Lemma hashTag_tagged prefix d rest :
  IndexByte prefix "{" = None -> IndexByte d "}" = None ->
  hashTag (prefix ++ ":" ++ ("{" ++ d ++ "}") ++ rest) = d.
Proof.
  intros Hp Hd. unfold hashTag.
  assert (Hs : prefix ++ ":" ++ ("{" ++ d ++ "}") ++ rest = (prefix ++ ":{") ++ (d ++ "}" ++ rest)).
  { by rewrite !string_app_assoc. }
  assert (Hi : IndexByte (prefix ++ ":" ++ ("{" ++ d ++ "}") ++ rest) "{" =
               Some (String.length prefix + 1)%nat).
  { rewrite IndexByte_app_none by done. done. }
  rewrite Hi, Hs.
  replace (String.length prefix + 1 + 1)%nat with (String.length (prefix ++ ":{"))
    by (rewrite string_length_app; simpl; lia).
  rewrite substring_tail by (rewrite (string_length_app (prefix ++ ":{")); lia).
  change ("}" ++ rest) with (String "}" rest). rewrite (IndexByte_app d "}" rest) by done.
  apply substring_head.
Qed.

Lemma digest_no_brace key : IndexByte (digest key) "}" = None.
Proof. apply Encode_no_brace, Forall_take, Sum256_bytes. Qed.

(** ** Properties *)

(** C6: on any server that behaves as documented, for keys whose digests differ, a
    method call of the Valkey store in a well-formed state is a step of the abstract
    per-key machine with a granularity of two milliseconds, whatever the fate of the
    request (never sent, answered, executed with the answer lost); the state stays
    well formed and the other keys are left alone. *)
Theorem valkey_refines_contract {V} `{!ValkeyServer V} prefix (K : gset string) now x c v r v' :
  (forall k k', k ∈ K -> k' ∈ K -> digest (MkKey k) = digest (MkKey k') -> k = k') ->
  call_key c ∈ K -> server_wf prefix K v -> env_ok now c x -> perform prefix x c v = (r, v') ->
  server_wf prefix K v' /\
  spec_step valkey_granularity now c r (valkey_view prefix K v (call_key c))
    (valkey_view prefix K v' (call_key c)) /\
  forall k, k <> call_key c -> valkey_view prefix K v' k = valkey_view prefix K v k.
Proof.
  intros Hd Hk Hwf Hx H. pose proof (vk_perform_refines prefix K Hd now x c v Hk Hwf Hx) as Hr.
  rewrite H in Hr. exact Hr.
Qed.

(** A database with nothing in it, two keys, an instant of the year 2024 and a
    request that is answered. *)
Definition K2 : gset string := {["jobs/nightly"; "jobs/hourly"]}.
Definition now0 : Time := UnixMilli 1704067200000 + 250000.
Definition calm : env := MkEnv None None Delivered (server_us now0).
Definition acquire0 : call := CallTryAcquire (MkKey "jobs/nightly") "worker-1" (30 * Second).

Lemma K2_distinct k k' : k ∈ K2 -> k' ∈ K2 -> digest (MkKey k) = digest (MkKey k') -> k = k'.
Proof.
  intros Hk Hk' H.
  assert (Hne : digest (MkKey "jobs/nightly") <> digest (MkKey "jobs/hourly")) by by vm_compute.
  unfold K2 in *. rewrite !elem_of_union, !elem_of_singleton in *.
  destruct Hk as [->| ->], Hk' as [->| ->];
    [reflexivity|destruct (Hne H)|destruct (Hne (eq_sym H))|reflexivity].
Qed.

Lemma empty_wf prefix K : server_wf (V := db) prefix K ∅.
Proof. intros k _. exists 0, None. split; [by apply counter_absent|by apply lease_absent]. Qed.

Lemma vk_calm_ok : env_ok now0 acquire0 calm.
Proof. split; try done; vm_compute; done. Qed.

Lemma valkey_refines_contract_witness :
  let p := perform (V := db) "app" calm acquire0 ∅ in
  p.1 = Replied (MkRecord (MkKey "jobs/nightly") "worker-1" 1 (UnixMilli 1704067200000)
                   (UnixMilli 1704067230000)) /\
  spec_step valkey_granularity now0 acquire0 p.1 (valkey_view "app" K2 ∅ "jobs/nightly")
    (valkey_view "app" K2 p.2 "jobs/nightly").
Proof.
  split; [by vm_compute|].
  apply (valkey_refines_contract "app" K2 now0 calm acquire0 ∅
    (perform "app" calm acquire0 ∅).1 (perform "app" calm acquire0 ∅).2 K2_distinct
    ltac:(set_solver) (empty_wf _ _) vk_calm_ok (surjective_pairing _)).
Defined.

(** C33: the lease hash and the counter of a key live in one cluster slot: under a
    prefix the constructor accepts, the hash tag of both derived keys is the digest
    of the lease key, 32 hexadecimal digits, and the two derived keys differ. *)
Theorem keys_share_slot p prefix key :
  newStore p = Ok prefix ->
  map hashTag (keys prefix key) = [digest key; digest key] /\
  String.length (digest key) = 32%nat /\
  nth 0 (keys prefix key) "" <> nth 1 (keys prefix key) "".
Proof.
  intros H. assert (Hp : IndexByte prefix "{" = None).
  { unfold newStore in H. repeat (step_case_in H; simplify_eq).
    eapply ContainsAny_IndexByte; [done|]. by left. }
  split_and!.
  - unfold keys, map. by rewrite !hashTag_tagged by (done || apply digest_no_brace).
  - apply digest_length.
  - rewrite keys_eq. apply lease_counter_ne.
Qed.

Lemma keys_share_slot_witness :
  newStore "app" = Ok "app" /\
  map hashTag (keys "app" (MkKey "jobs/nightly")) =
    ["933f0a5ebdb23af58e4606d6b7186fda"; "933f0a5ebdb23af58e4606d6b7186fda"].
Proof.
  split; [reflexivity|].
  destruct (keys_share_slot "app" "app" (MkKey "jobs/nightly") eq_refl) as [H _].
  rewrite H. by vm_compute.
Defined.

(** C32: a request that fails on its way. Whatever the driver's error, a mutation
    that was sent reports an ambiguous outcome and nothing definite, so that no
    caller may conclude that nothing happened; a read reports cancellation or
    unavailability. The text of the error is a constant: no driver text, key or owner
    appears in it, while [errors.Is] still finds the cause. *)
Theorem valkey_request_failure {V} `{!ValkeyServer V} prefix x owned key owner ttl v e :
  net x = Unsent e \/ net x = ReplyLost e ->
  validate (ctxBefore x) key owner 1 ttl = None ->
  validate (ctxBefore x) (r_Key owned) (r_Owner owned) (r_Token owned) ttl = None ->
  (exists err, (perform (V := V) prefix x (CallTryAcquire key owner ttl) v).1 = Failed err /\
     definite err = false /\ (forall s, Is e s = true -> Is err s = true) /\
     ErrorText err = "lease valkey operation: lease: ambiguous outcome") /\
  (exists err, (perform prefix x (CallRenew owned ttl) v).1 = Failed err /\
     definite err = false /\ (forall s, Is e s = true -> Is err s = true) /\
     ErrorText err = "lease valkey operation: lease: ambiguous outcome") /\
  (exists err, (perform prefix x (CallRelease owned) v).1 = Failed err /\
     definite err = false /\ (forall s, Is e s = true -> Is err s = true) /\
     ErrorText err = "lease valkey operation: lease: ambiguous outcome") /\
  (exists err, (perform prefix x (CallValidate owned) v).1 = Failed err /\
     (ErrorText err = "lease valkey operation: lease: canceled" \/
      ErrorText err = "lease valkey operation: lease: backend unavailable")).
Proof.
  intros Hnet Hv1 Hv2.
  assert (Hv3 : validate (ctxBefore x) (r_Key owned) (r_Owner owned) (r_Token owned) Millisecond = None).
  { unfold validate in *. repeat (step_case_in Hv2; [done|]). done. }
  assert (Hamb : forall s, Is e s = true -> Is (classify (ctxAfter x) e true) s = true).
  { intros s Hs. simpl. rewrite Hs. apply orb_true_r. }
  assert (Hx : forall op ks args, (Exec (us_at x) (net x) op ks args v).1 = Err e).
  { intros op ks args. destruct Hnet as [-> | ->]; done. }
  simpl. unfold TryAcquire, Renew, Release, Validate. rewrite Hv1, Hv2, Hv3.
  repeat match goal with
  | |- context [Exec ?u ?n ?o ?k ?a ?s] =>
      let H := fresh in pose proof (Hx o k a) as H; destruct (Exec u n o k a s); simpl in H; subst
  end. simpl.
  split_and!; [by eexists; split_and!; [|apply vk_classify_mutation| |]..|].
  eexists. split; [done|]. unfold classify. step_case; [by left|by right].
Qed.

Lemma valkey_request_failure_witness :
  let x := MkEnv None None (ReplyLost (Foreign "read tcp: i/o timeout")) (server_us now0) in
  exists err, (perform (V := db) "app" x acquire0 ∅).1 = Failed err /\ definite err = false /\
    ErrorText err = "lease valkey operation: lease: ambiguous outcome".
Proof.
  set (x := MkEnv None None (ReplyLost (Foreign "read tcp: i/o timeout")) (server_us now0)).
  destruct (valkey_request_failure (V := db) "app" x
    (MkRecord (MkKey "jobs/nightly") "worker-1" 1 0 0) (MkKey "jobs/nightly") "worker-1" (30 * Second)
    ∅ (Foreign "read tcp: i/o timeout") (or_intror eq_refl) eq_refl eq_refl)
    as ((err & H1 & H2 & _ & H3) & _).
  exists err. split; [exact H1|]. split; [exact H2|exact H3].
Defined.
