(* ===== verification/ValkeyServing.v ===== *)
(** * The Valkey store serves

    When a request is sent and answered, the store of valkey/store.go grants a free
    key, recognises the holder and refuses everybody else: [Valkey] satisfies the
    interface of [Serving] on every server with the behaviour of [ValkeyServer]. *)

From S2P Require Import Prelude GoBase GoStrings Strconv Errors LeaseKey Backend Serving Native.
From S2P Require Import ValkeyServer Valkey.

Lemma vk_input_valid key owner token ttl :
  KeyString key <> "" -> owner_ok owner -> 0 < token -> Millisecond <= ttl ->
  validate None key owner token ttl = None.
Proof.
  intros Hk [[Ho1 Ho2] _] Ht Hd. unfold validate. apply String.eqb_neq in Hk. rewrite Hk.
  apply len_pos, String.eqb_neq in Ho1. rewrite Ho1.
  destruct (Z.ltb_spec 128 (len owner)), (Z.eqb_spec token 0), (Z.ltb_spec ttl Millisecond); lia || done.
Qed.

Lemma vk_record_valid r ttl :
  record_ok r -> Millisecond <= ttl -> validate None (r_Key r) (r_Owner r) (r_Token r) ttl = None.
Proof. intros (Hk & Ho & Ht) Hd. apply vk_input_valid; (done || lia). Qed.

Section Serving.
Context {V : Type} `{!ValkeyServer V}.
Variable prefix : string.
Variable K : gset string.
Hypothesis digests_distinct : forall k k',
  k ∈ K -> k' ∈ K -> digest (MkKey k) = digest (MkKey k') -> k = k'.

(** A request with a live context that is sent and answered by [fin]. *)
Definition valkey_serves (now fin : Time) (c : call) (v : V) (r : reply) (v' : V) : Prop :=
  now <= fin /\ call_key c ∈ K /\
  exists x, env_ok now c x /\ ctxBefore x = None /\ net x = Delivered /\ perform prefix x c v = (r, v').

(** The fences left in the counter. *)
Definition valkey_room (n : nat) (v : V) (k : string) : Prop :=
  fence (valkey_view prefix K v k) + Z.of_nat n <= int64_max.

(** The four methods on an answered request. *)
Lemma answered_acquire now x key owner ttl v n h :
  call_ok (CallTryAcquire key owner ttl) -> env_ok now (CallTryAcquire key owner ttl) x ->
  ctxBefore x = None -> net x = Delivered ->
  counter_is prefix v (KeyString key) n -> lease_is prefix v (KeyString key) n h -> n < int64_max ->
  let rec := MkRecord key owner (n + 1) (UnixMilli (server_ms now))
               (UnixMilli (server_ms now + Milliseconds ttl)) in
  let run := perform prefix x (CallTryAcquire key owner ttl) v in
  (lingers Millisecond now (MkKeyState n h) /\
     run = (Failed (WrapS ErrContended "valkey operation"), v)) \/
  (~ live now (MkKeyState n h) /\ exists v', run = (Replied rec, v') /\
     counter_is prefix v' (KeyString key) (n + 1)).
Proof.
  intros (Hk & Ho & Hd) [Hus _ Hms Hmax _] Hctx Hnet Hc Hl Hn. simpl. unfold TryAcquire.
  rewrite Hctx, vk_input_valid, Hus, Hnet, keys_eq by (done || lia).
  pose proof (milliseconds_pos ttl Hd) as [Hd0 _]. pose proof (counter_is_value _ _ _ _ Hc) as [_ Hn0].
  pose proof (acquireScript_runs prefix now v _ n h owner _ Hc Hl Hd0 Hms Hmax) as Hrun. simpl in Hrun.
  unfold Exec. simpl run_script.
  destruct Hrun as [[Hlg ->]|[[? _]|(Hnl & _ & v' & -> & _ & Hc' & _)]]; [|lia|]; cbn -[parseRecord].
  - left. split; [done|]. by rewrite parseRecord_status.
  - right. split; [done|]. exists v'. split; [|done].
    by rewrite parseRecord_ok by (unfold is_int64, int64_min, int64_max, lua_max in *; lia).
Qed.

Lemma answered_renew now x owned ttl v n h :
  call_ok (CallRenew owned ttl) -> env_ok now (CallRenew owned ttl) x ->
  ctxBefore x = None -> net x = Delivered ->
  let k := KeyString (r_Key owned) in
  counter_is prefix v k n -> lease_is prefix v k n h ->
  let run := perform prefix x (CallRenew owned ttl) v in
  (~ current now owned (MkKeyState n h) /\ run = (Failed (WrapS ErrStaleOwner "valkey operation"), v)) \/
  (exists a e r v', run = (r, v') /\
     h = Some (MkRecord (r_Key owned) (r_Owner owned) (r_Token owned) (UnixMilli a) (UnixMilli e)) /\
     counter_is prefix v' k n /\
     (a < server_ms now + Milliseconds ttl ->
      r = Replied (MkRecord (r_Key owned) (r_Owner owned) (r_Token owned) (UnixMilli a)
                     (UnixMilli (server_ms now + Milliseconds ttl))))).
Proof.
  intros [Hr Hd] [Hus _ Hms Hmax [Ht0 _]] Hctx Hnet k Hc Hl. simpl. unfold Renew.
  rewrite Hctx, vk_record_valid, Hus, Hnet, keys_eq by done.
  pose proof (milliseconds_pos ttl Hd) as [Hd0 _]. pose proof (counter_is_value _ _ _ _ Hc) as [_ Hn0].
  pose proof (renewScript_runs prefix now v _ n h owned _ Hc Hl Ht0 Hd0 Hms Hmax) as Hrun. simpl in Hrun.
  unfold k in Hrun. rewrite !owned_key in Hrun. unfold Exec. simpl run_script. fold k in Hrun |- *.
  destruct Hrun as [[-> Hn]|(a & e & v' & -> & -> & Htok & Ha & _ & _ & Hc' & _)]; cbn -[parseRecord].
  - left. split; [done|]. by rewrite parseRecord_status.
  - right. exists a, e. destruct (Z.lt_ge_cases a (server_ms now + Milliseconds ttl)) as [Hae|Hae].
    + rewrite parseRecord_ok by (unfold is_int64, int64_min, int64_max, lua_max in *; lia).
      simpl. rewrite Z.eqb_refl. simpl. by do 2 eexists.
    + rewrite parseRecord_late by (unfold is_int64, int64_min, int64_max, lua_max in *; lia).
      simpl. do 2 eexists. split_and!; [done|done|done|lia].
Qed.

Lemma answered_validate now x owned v n h :
  call_ok (CallValidate owned) -> env_ok now (CallValidate owned) x ->
  ctxBefore x = None -> net x = Delivered ->
  let k := KeyString (r_Key owned) in
  counter_is prefix v k n -> lease_is prefix v k n h ->
  let run := perform prefix x (CallValidate owned) v in
  (~ current now owned (MkKeyState n h) /\ run = (Failed (WrapS ErrStaleOwner "valkey operation"), v)) \/
  (exists r rec, run = (r, v) /\ h = Some rec /\ matches owned rec /\
     (r_AcquiredAt rec < r_ExpiresAt rec -> r = Replied rec)).
Proof.
  intros Hr [Hus _ Hms _ [Ht0 _]] Hctx Hnet k Hc Hl. simpl. unfold Validate.
  rewrite Hctx, vk_record_valid, Hus, Hnet, keys_eq by done.
  pose proof (counter_is_value _ _ _ _ Hc) as [_ Hn0].
  pose proof (validateScript_runs prefix now v _ n h owned Hl Ht0) as Hrun. simpl in Hrun.
  unfold k in Hrun. rewrite !owned_key in Hrun. unfold Exec. simpl run_script. fold k in Hrun |- *.
  destruct Hrun as [[-> Hn]|(a & e & -> & -> & Htok & Ha & He & _)]; cbn -[parseRecord].
  - left. split; [done|]. by rewrite parseRecord_status.
  - right. destruct (Z.lt_ge_cases a e) as [Hae|Hae].
    + rewrite parseRecord_ok by (unfold is_int64, int64_min, int64_max, lua_max in *; lia).
      simpl. rewrite Z.eqb_refl. simpl. by do 2 eexists.
    + rewrite parseRecord_late by (unfold is_int64, int64_min, int64_max, lua_max in *; lia).
      simpl. do 2 eexists. split_and!; [done|done|done|]. simpl.
      rewrite !UnixMilli_epoch. unfold Millisecond. lia.
Qed.

Lemma answered_release now x owned v n h :
  call_ok (CallRelease owned) -> env_ok now (CallRelease owned) x ->
  ctxBefore x = None -> net x = Delivered ->
  let k := KeyString (r_Key owned) in
  counter_is prefix v k n -> lease_is prefix v k n h ->
  let run := perform prefix x (CallRelease owned) v in
  (~ live now (MkKeyState n h) /\ run = (Acknowledged, v)) \/
  (~ held_by owned (MkKeyState n h) /\ h <> None /\
     run = (Failed (WrapS ErrStaleOwner "valkey release"), v)) \/
  (held_by owned (MkKeyState n h) /\ exists v', run = (Acknowledged, v') /\
     counter_is prefix v' k n /\ lease_is prefix v' k n None).
Proof.
  intros Hr [Hus _ Hms _ [Ht0 _]] Hctx Hnet k Hc Hl. simpl. unfold Release.
  rewrite Hctx, vk_record_valid, Hus, Hnet, keys_eq by done.
  pose proof (releaseScript_runs prefix now v _ n h owned Hc Hl Ht0) as Hrun. simpl in Hrun.
  unfold Exec. simpl run_script. fold k.
  destruct Hrun as [[-> Hn]|[(-> & Hn & Hne)|(v' & -> & Hh & _ & Hc' & Hl')]]; simpl; [by left|..]; right.
  - by left.
  - right. split; [done|]. by eexists.
Qed.

Lemma valkey_serves_reply now fin c v r v' n :
  server_wf prefix K v -> call_ok c -> valkey_room (S n) v (call_key c) -> valkey_serves now fin c v r v' ->
  served valkey_granularity now fin c r (valkey_view prefix K v (call_key c)).
Proof.
  intros Hwf Hok Hroom (Hfin & Hk & x & Hx & Hctx & Hnet & H).
  destruct (Hwf _ Hk) as (m & h & Hc & Hl). unfold valkey_room in Hroom.
  rewrite (key_view_eq _ _ _ _ _ _ Hk Hc Hl) in *. simpl in Hroom.
  pose proof (server_ms_bounds now) as Hms.
  destruct c as [key owner ttl|owned ttl|owned|owned]; simpl in Hk, Hc, Hl.
  - destruct (answered_acquire now x key owner ttl v m h) as [[Hlg E]|(Hnl & v1 & E & _)];
      try done; [lia|..]; rewrite E in H; simplify_eq/=.
    + split; [intros _; by eexists|]. intros Hn. destruct Hn. eapply lingers_mono; [|done].
      unfold valkey_granularity, Millisecond. lia.
    + split; [done|]. intros _. eexists. split; [done|]. simpl.
      apply counter_is_value in Hc as [_ Hm]. destruct Hok as (_ & _ & Hd).
      pose proof (milliseconds_pos ttl Hd). rewrite !UnixMilli_epoch in *. lia.
  - destruct (answered_renew now x owned ttl v m h) as [[Hn E]|(a & e & r1 & v1 & E & -> & _ & Hr)];
      try done; rewrite E in H; simplify_eq/=.
    + split; [intros Hp; destruct Hn; by apply presents_current|]. intros _. by eexists.
    + destruct Hok as [_ Hd]. pose proof (milliseconds_pos ttl Hd). split.
      * intros (r0 & Hr0 & _ & _ & Ha & _). simplify_eq/=. eexists. split; [apply Hr|]; simpl;
          rewrite !UnixMilli_epoch in *; unfold Millisecond in *; lia.
      * intros Hn. destruct Hn. by eexists.
  - destruct (answered_validate now x owned v m h) as [[Hn E]|(r1 & rec & E & -> & Hm & Hr)];
      try done; rewrite E in H; simplify_eq/=.
    + split; [intros Hp; destruct Hn; by apply presents_current|]. intros _. by eexists.
    + split.
      * intros (r0 & Hr0 & _ & _ & _ & Hae). simplify_eq/=. eexists. by apply Hr.
      * intros Hn. destruct Hn. by eexists.
  - destruct (answered_release now x owned v m h) as [[Hn E]|[(Hn & _ & E)|(Hh & v1 & E & _)]];
      try done; rewrite E in H; simplify_eq/=.
    + split; [done|]. by intros Hl'.
    + split; [intros Hp; destruct Hn; by eapply current_held, presents_current|]. intros _ _. by eexists.
    + split; [done|]. by intros _ Hn.
Qed.

Lemma valkey_serves_room now fin c v r v' n :
  server_wf prefix K v -> call_ok c -> valkey_room (S n) v (call_key c) -> valkey_serves now fin c v r v' ->
  valkey_room n v' (call_key c).
Proof.
  intros Hwf Hok Hroom (_ & Hk & x & Hx & Hctx & Hnet & H).
  destruct (Hwf _ Hk) as (m & h & Hc & Hl). unfold valkey_room in *.
  rewrite (key_view_eq _ _ _ _ _ _ Hk Hc Hl) in Hroom. simpl in Hroom.
  assert (Hcnt : exists m', counter_is prefix v' (call_key c) m' /\ m' <= m + 1).
  { destruct c as [key owner ttl|owned ttl|owned|owned]; simpl in Hk, Hc, Hl.
    - destruct (answered_acquire now x key owner ttl v m h) as [[Hlg E]|(Hnl & v1 & E & Hc')];
        try done; [lia|..]; rewrite E in H; simplify_eq/=; eexists; (split; [done|lia]).
    - destruct (answered_renew now x owned ttl v m h) as [[Hn E]|(a & e & r1 & v1 & E & -> & Hc' & Hr)];
        try done; rewrite E in H; simplify_eq/=; eexists; (split; [done|lia]).
    - destruct (answered_validate now x owned v m h) as [[Hn E]|(r1 & rec & E & -> & Hm & Hr)];
        try done; rewrite E in H; simplify_eq/=; eexists; (split; [done|lia]).
    - destruct (answered_release now x owned v m h) as [[Hn E]|[(Hn & _ & E)|(Hh & v1 & E & Hc' & _)]];
        try done; rewrite E in H; simplify_eq/=; eexists; (split; [done|lia]). }
  destruct Hcnt as (m' & Hc' & Hm'). apply counter_is_value in Hc' as [Hv _].
  unfold valkey_view. rewrite decide_True by done. simpl. lia.
Qed.

Lemma valkey_serves_released now fin now' fin' owned v v1 r v2 :
  server_wf prefix K v -> record_ok owned ->
  presents now owned (valkey_view prefix K v (KeyString (r_Key owned))) ->
  valkey_serves now fin (CallRelease owned) v Acknowledged v1 ->
  valkey_serves now' fin' (CallRelease owned) v1 r v2 -> r = Acknowledged.
Proof.
  intros Hwf Hok Hp (_ & Hk & x & Hx & Hctx & Hnet & H) (_ & _ & x' & Hx' & Hctx' & Hnet' & H').
  simpl in Hk. destruct (Hwf _ Hk) as (m & h & Hc & Hl).
  rewrite (key_view_eq _ _ _ _ _ _ Hk Hc Hl) in Hp.
  destruct (answered_release now x owned v m h) as [[Hn E]|[(Hn & _ & E)|(Hh & v' & E & Hc' & Hl')]];
    try done; rewrite E in H; simplify_eq; [destruct Hn; by eapply presents_live|].
  destruct (answered_release now' x' owned v1 m None) as [[Hn E']|[(Hn & Hne & E')|(Hh' & v' & E' & _)]];
    try done; rewrite E' in H'; by simplify_eq/=.
Qed.

Program Definition valkey_serving : @ServingBackend V (valkey_backend prefix K digests_distinct) := {|
  room := valkey_room;
  serves := valkey_serves
|}.
Next Obligation. intros n v k. unfold valkey_room. lia. Qed.
Next Obligation. by intros now fin c v r v' [H _]. Qed.
Next Obligation. intros now fin c v r v' (_ & Hk & x & Hx & _ & _ & H). split; [done|]. by exists x. Qed.
Next Obligation. apply valkey_serves_reply. Qed.
Next Obligation. apply valkey_serves_room. Qed.
Next Obligation. apply valkey_serves_released. Qed.
End Serving.
