(* ===== verification/Inspect.v ===== *)
(** * valkey/native.go: the inspection of a server by [Open]

    [valkeyMajor] reads the major version from the INFO text, [Check] compares it and
    the eviction policy, [Open] refuses a server that fails. The two replies of the
    server are arguments; the text functions of package [strings] are written out on
    bytes. *)

From S2P Require Import Prelude GoBase GoStrings Errors Strconv Valkey.
From Stdlib Require Import Ascii.

Abbreviation bytes := (list ascii).

(** [strings.Split(s, sep)] for a one-byte separator. *)
Fixpoint Split (sep : ascii) (s : bytes) : list bytes :=
  match s with
  | [] => [[]]
  | c :: rest =>
      if Ascii.eqb c sep then [] :: Split sep rest
      else match Split sep rest with
           | [] => [[c]]
           | line :: lines => (c :: line) :: lines
           end
  end.

(** The UTF-8 encodings of the runes of [unicode.IsSpace]. *)
Definition spaces : list bytes :=
  map (map ascii_of_N)
    [[9]; [10]; [11]; [12]; [13]; [32]; [194; 133]; [194; 160]; [225; 154; 128];
     [226; 128; 128]; [226; 128; 129]; [226; 128; 130]; [226; 128; 131]; [226; 128; 132];
     [226; 128; 133]; [226; 128; 134]; [226; 128; 135]; [226; 128; 136]; [226; 128; 137];
     [226; 128; 138]; [226; 128; 168]; [226; 128; 169]; [226; 128; 175]; [226; 129; 159];
     [227; 128; 128]]%N.

(** [strings.CutPrefix]. *)
Fixpoint CutPrefix (p s : bytes) : option bytes :=
  match p, s with
  | [], _ => Some s
  | a :: p', b :: s' => if Ascii.eqb a b then CutPrefix p' s' else None
  | _ :: _, [] => None
  end.

(** Drop prefixes that are among [pats] while there are any; each is nonempty, so the
    length of the text is enough fuel. *)
Fixpoint strip (pats : list bytes) (fuel : nat) (s : bytes) : bytes :=
  match fuel with
  | O => s
  | S fuel' =>
      match omap (fun p => CutPrefix p s) pats with
      | [] => s
      | rest :: _ => strip pats fuel' rest
      end
  end.

(** [strings.TrimSpace]: on the left, then on the right. *)
Definition TrimSpace (s : bytes) : bytes :=
  let l := strip spaces (length s) s in
  rev (strip (map (@rev ascii) spaces) (length l) (rev l)).

Definition to_bytes (s : string) : bytes := String.list_ascii_of_string s.
Definition version_label : bytes := to_bytes "valkey_version:".

(** The loop of [valkeyMajor]. [strconv.Atoi] is [ParseInt] at 64 bits. *)
Fixpoint majorOf (lines : list bytes) : res Z :=
  match lines with
  | [] => Err (Foreign "valkey version missing")
  | line :: rest =>
      match CutPrefix version_label (TrimSpace line) with
      | None => majorOf rest
      | Some version =>
          let s := String.string_of_list_ascii version in
          ParseInt (match Cut "." s with Some (major, _) => major | None => s end)
      end
  end.

(** [valkeyMajor]. *)
Definition valkeyMajor (info : string) : res Z :=
  majorOf (Split (ascii_of_N 10) (to_bytes info)).

(** [Check]; [ctxErr1] and [ctxErr2] are what the context reports after each request. *)
Definition Check (info : res string) (ctxErr1 : err_opt) (config : res (gmap string string))
    (ctxErr2 : err_opt) : err_opt :=
  match info with
  | Err err => Some (classify ctxErr1 err false)
  | Ok text =>
      match valkeyMajor text with
      | Err err => Some (failure_Wrap (Sentinel ErrBackendUnavailable) err "Valkey inspection")
      | Ok major =>
          if major <? 9
          then Some (failure_Wrap (Sentinel ErrBackendUnavailable)
                       (Foreign "valkey version is older than 9") "Valkey inspection")
          else
            match config with
            | Err err => Some (classify ctxErr2 err false)
            | Ok m =>
                if negb (String.eqb (default "" (m !! "maxmemory-policy")) "noeviction")
                then Some (WrapS ErrBackendUnavailable "Valkey eviction policy")
                else None
            end
      end
  end.

(** [New] and [Open]; [client] says whether a client was given, a nil context is
    [None] and otherwise carries its error. *)
Definition NewStore (client : bool) (prefix : string) : res string :=
  if negb client then Err (WrapS ErrInvalidState "nil valkey client") else newStore prefix.

Definition Open (client : bool) (ctx : option err_opt) (info : res string) (ctxErr1 : err_opt)
    (config : res (gmap string string)) (ctxErr2 : err_opt) (prefix : string) : res string :=
  if negb client then Err (WrapS ErrInvalidState "nil valkey client")
  else
    match ctx with
    | None => Err (WrapS ErrInvalidState "valkey context")
    | Some (Some cause) =>
        Err (Joined [WrapS ErrCanceled "valkey context"; cause])
    | Some None =>
        match Check info ctxErr1 config ctxErr2 with
        | Some err => Err err
        | None => newStore prefix
        end
    end.

Example inspect_real :
  valkeyMajor (String.string_of_list_ascii (to_bytes "# Server" ++ [ascii_of_N 13; ascii_of_N 10] ++
    to_bytes "valkey_version:9.0.1" ++ [ascii_of_N 13; ascii_of_N 10] ++ to_bytes "os:Linux")%list)
  = Ok 9.
Proof. vm_compute. reflexivity. Qed.

(** ** Lemmas *)

(** A byte that no encoding of a space contains. *)
Definition solid (c : ascii) : Prop := Forall (fun p => c ∉ p) spaces.

#[global] Instance solid_dec c : Decision (solid c).
Proof. unfold solid. apply _. Defined.

Lemma CutPrefix_Some p : forall s rest, CutPrefix p s = Some rest -> s = (p ++ rest)%list.
Proof.
  induction p as [|a p IH]; intros s rest H; simpl in H; [by simplify_eq|].
  destruct s as [|b s]; [done|]. destruct (Ascii.eqb_spec a b) as [->|]; [|done].
  simpl. f_equal. by apply IH.
Qed.

Lemma CutPrefix_app p rest : CutPrefix p (p ++ rest) = Some rest.
Proof. induction p as [|a p IH]; simpl; [done|]. by rewrite Ascii.eqb_refl. Qed.

(** Stripping stops at a byte that no pattern contains. *)
Lemma strip_stops pats c y : Forall (fun p => c ∉ p /\ p <> []) pats ->
  forall fuel x, exists x', strip pats fuel (x ++ c :: y) = (x' ++ c :: y)%list /\
    (length x' <= length x)%nat.
Proof.
  intros Hp fuel. induction fuel as [|fuel IH]; intros x; simpl; [by exists x|].
  destruct (omap (fun p => CutPrefix p (x ++ c :: y)) pats) as [|rest l] eqn:E; [by exists x|].
  assert (Hin : rest ∈ omap (fun p => CutPrefix p (x ++ c :: y)) pats) by (rewrite E; constructor).
  apply list_elem_of_omap in Hin as (p & Hpin & Hcut).
  rewrite List.Forall_forall in Hp. destruct (Hp p) as [Hc _]; [by apply list_elem_of_In|].
  apply CutPrefix_Some in Hcut. assert (Hx : exists x1, x = (p ++ x1)%list /\ rest = (x1 ++ c :: y)%list).
  { clear -Hcut Hc. revert x Hcut. induction p as [|a p IHp]; intros x Hcut; simpl in *.
    - by exists x.
    - destruct x as [|b x]; simpl in Hcut; injection Hcut as ? Hcut; subst.
      + exfalso. apply Hc. constructor.
      + destruct (IHp ltac:(set_solver) x Hcut) as (x1 & -> & ->). by exists x1. }
  destruct Hx as (x1 & -> & ->). destruct (IH x1) as (x2 & -> & Hl). exists x2.
  split; [done|]. rewrite length_app. lia.
Qed.

Lemma solid_pats c : solid c -> Forall (fun p => c ∉ p /\ p <> []) spaces.
Proof.
  unfold solid. rewrite !List.Forall_forall. intros H p Hin. split; [by apply H|].
  intros ->. apply list_elem_of_In in Hin. revert Hin. apply (bool_decide_unpack _). vm_compute. exact I.
Qed.

Lemma solid_rev c : solid c -> Forall (fun p => c ∉ p /\ p <> []) (map (@rev ascii) spaces).
Proof.
  intros H. apply solid_pats in H. apply List.Forall_map. eapply List.Forall_impl; [|exact H].
  intros p [Hc Hn]. simpl. split.
  - by rewrite list_elem_of_In, <- in_rev, <- list_elem_of_In.
  - intros Hr. apply Hn. rewrite <- (rev_involutive p), Hr. done.
Qed.

#[local] Opaque spaces.

(** Trimming keeps everything between two solid bytes. *)
Lemma TrimSpace_keeps a c y z :
  solid a -> solid c -> exists z', TrimSpace (a :: y ++ c :: z) = (a :: y ++ c :: z')%list.
Proof.
  intros Ha Hc. unfold TrimSpace.
  set (s := (a :: y ++ c :: z)%list).
  assert (Hl : strip spaces (length s) s = s).
  { destruct (strip_stops spaces a (y ++ c :: z) (solid_pats a Ha) (length s) []) as (x & Hx & Hlen).
    destruct x; [exact Hx|simpl in Hlen; lia]. }
  rewrite Hl. assert (Hs : rev s = (rev z ++ c :: rev (a :: y))%list).
  { subst s. change (a :: y ++ c :: z)%list with ((a :: y) ++ c :: z)%list.
    rewrite rev_app_distr. simpl. by rewrite <- !app_assoc. }
  rewrite Hs. destruct (strip_stops _ c (rev (a :: y)) (solid_rev c Hc) (length s) (rev z))
    as (x & -> & _).
  exists (rev x). rewrite rev_app_distr. simpl. rewrite rev_app_distr, rev_involutive. simpl.
  by rewrite <- !app_assoc.
Qed.

(** Splitting at the first newline. *)
Lemma Split_line sep line rest :
  sep ∉ line -> Split sep (line ++ sep :: rest) = line :: Split sep rest.
Proof.
  induction line as [|c line IH]; intros H; simpl; [by rewrite Ascii.eqb_refl|].
  destruct (Ascii.eqb_spec c sep) as [->|]; [set_solver|].
  by rewrite IH by set_solver.
Qed.

(** Lines that do not carry the version are skipped. *)
Lemma majorOf_skip lines rest :
  Forall (fun l => CutPrefix version_label (TrimSpace l) = None) lines ->
  majorOf (lines ++ rest) = majorOf rest.
Proof. induction 1 as [|l lines H _ IH]; cbn [majorOf app]; [done|]. by rewrite H. Qed.

(** A text as its lines. *)
Definition newline : ascii := ascii_of_N 10.

Fixpoint join (lines : list bytes) : bytes :=
  match lines with
  | [] => []
  | [line] => line
  | line :: rest => (line ++ newline :: join rest)%list
  end.

Lemma Split_plain sep line : sep ∉ line -> Split sep line = [line].
Proof.
  induction line as [|c line IH]; intros H; simpl; [done|].
  destruct (Ascii.eqb_spec c sep) as [->|]; [set_solver|]. by rewrite IH by set_solver.
Qed.

Lemma Split_join lines :
  lines <> [] -> Forall (fun l => newline ∉ l) lines -> Split newline (join lines) = lines.
Proof.
  intros Hne H. induction H as [|l lines Hl H IH]; [done|]. destruct lines as [|l' lines].
  - by apply Split_plain.
  - change (join (l :: l' :: lines)) with (l ++ newline :: join (l' :: lines))%list.
    rewrite Split_line by done. by rewrite IH.
Qed.

Lemma join_Split s : join (Split newline s) = s /\ Split newline s <> [] /\
  Forall (fun l => newline ∉ l) (Split newline s).
Proof.
  induction s as [|c s (IH1 & IH2 & IH3)]; simpl.
  { split_and!; [done|done|]. constructor; [apply not_elem_of_nil|constructor]. }
  destruct (Ascii.eqb_spec c newline) as [->|Hne].
  - split_and!; [|done|constructor; [apply not_elem_of_nil|done]].
    destruct (Split newline s) as [|l ls]; [done|]. cbn [join]. simpl in *. by rewrite IH1.
  - destruct (Split newline s) as [|l ls]; [done|]. apply Forall_cons_1 in IH3 as [Hl Hls].
    split_and!; [|done|constructor; [set_solver|done]]. destruct ls as [|l' ls]; simpl in *; by rewrite IH1.
Qed.

(** ** What the inspection looks for *)

(** A line that carries the version. *)
Definition version_line (line : bytes) (version : string) : Prop :=
  TrimSpace line = (version_label ++ to_bytes version)%list.

(** The version that a text reports: that of its first version line. *)
Definition reports (text version : string) : Prop :=
  exists before line after,
    to_bytes text = join (before ++ line :: after) /\
    Forall (fun l => newline ∉ l) (before ++ line :: after) /\
    Forall (fun l => forall v, ~ version_line l v) before /\ version_line line version.

(** The major version: what comes before the first point, as a number. *)
Definition reports_major (text : string) (major : Z) : Prop :=
  exists version digits, reports text version /\
    (version = digits \/ exists rest, version = digits ++ String "." rest) /\
    ContainsAny digits ["."%char] = false /\ ParseInt digits = Ok major.

Lemma of_bytes s : String.string_of_list_ascii (to_bytes s) = s.
Proof. apply String.string_of_list_ascii_of_string. Qed.
Lemma to_of_bytes b : to_bytes (String.string_of_list_ascii b) = b.
Proof. apply String.list_ascii_of_string_of_list_ascii. Qed.

Lemma no_label line : CutPrefix version_label (TrimSpace line) = None <-> forall v, ~ version_line line v.
Proof.
  unfold version_line. split.
  - intros H v Hv. by rewrite Hv, CutPrefix_app in H.
  - intros H. destruct (CutPrefix version_label (TrimSpace line)) as [v|] eqn:E; [|done].
    apply CutPrefix_Some in E. destruct (H (String.string_of_list_ascii v)). by rewrite to_of_bytes.
Qed.

Lemma Cut_None sep s : Cut sep s = None <-> ContainsAny s [sep] = false.
Proof.
  induction s as [|c s IH]; simpl; [done|]. destruct (Ascii.eqb_spec c sep) as [->|Hne]; simpl.
  - done.
  - rewrite <- IH. destruct (Cut sep s) as [[? ?]|]; done.
Qed.

(** The part before the first point. *)
Lemma before_point version digits :
  ContainsAny digits ["."%char] = false ->
  (version = digits \/ exists rest, version = digits ++ String "." rest) <->
  match Cut "." version with Some (major, _) => major | None => version end = digits.
Proof.
  intros Hd. split.
  - intros [->|[rest ->]]; [|by rewrite Cut_app]. by apply Cut_None in Hd as ->.
  - destruct (Cut "." version) as [[m r]|] eqn:E; [|by left]. apply Cut_Some in E as [-> _]. intros ->.
    right. by exists r.
Qed.

(** The loop finds the first version line. *)
Lemma majorOf_reads lines major :
  majorOf lines = Ok major <->
  exists before line after version, lines = (before ++ line :: after)%list /\
    Forall (fun l => forall v, ~ version_line l v) before /\ version_line line version /\
    ParseInt (match Cut "." version with Some (m, _) => m | None => version end) = Ok major.
Proof.
  split.
  - induction lines as [|line lines IH]; cbn [majorOf]; [done|].
    destruct (CutPrefix version_label (TrimSpace line)) as [v|] eqn:E.
    + intros H. exists [], line, lines, (String.string_of_list_ascii v). split_and!; try done.
      apply CutPrefix_Some in E. unfold version_line. by rewrite to_of_bytes.
    + intros H. destruct (IH H) as (before & l & after & v & -> & Hb & Hl & Hp).
      exists (line :: before), l, after, v. split_and!; try done. constructor; [by apply no_label|done].
  - intros (before & line & after & version & -> & Hb & Hl & Hp). rewrite majorOf_skip.
    + cbn [majorOf]. rewrite Hl, CutPrefix_app, of_bytes. exact Hp.
    + eapply List.Forall_impl; [|exact Hb]. intros l. apply no_label.
Qed.

(** [valkeyMajor] succeeds exactly on the texts that report a major version. *)
Lemma valkeyMajor_spec text major : valkeyMajor text = Ok major <-> reports_major text major.
Proof.
  unfold valkeyMajor. fold newline. rewrite majorOf_reads. split.
  - intros (before & line & after & version & Hs & Hb & Hl & Hp).
    destruct (join_Split (to_bytes text)) as (Hj & _ & Hn). rewrite Hs in Hj, Hn.
    set (digits := match Cut "." version with Some (m, _) => m | None => version end) in *.
    assert (Hd : ContainsAny digits ["."%char] = false).
    { unfold digits. destruct (Cut "." version) as [[m r]|] eqn:E; [by apply Cut_Some in E as [_ ?]|by apply Cut_None]. }
    exists version, digits. split; [by exists before, line, after|]. split; [by apply before_point|done].
  - intros (version & digits & (before & line & after & Ht & Hn & Hb & Hl) & Hv & Hd & Hp).
    exists before, line, after, version. apply before_point in Hv; [|done]. rewrite Hv. split_and!; try done.
    rewrite Ht. apply Split_join; [|done]. by destruct before.
Qed.

(** The line a server sends: the label, the number, a point and anything; spaces such as
    the carriage return of the protocol may follow. *)
Lemma canonical_line major rest :
  exists r, version_line (version_label ++ to_bytes (FormatInt major) ++ "."%char :: rest)
    (FormatInt major ++ String "." r).
Proof.
  assert (Hl : version_label = ("v"%char :: to_bytes "alkey_version:")%list) by reflexivity.
  destruct (TrimSpace_keeps "v" "." (to_bytes "alkey_version:" ++ to_bytes (FormatInt major)) rest)
    as (z & Hz).
  { apply (bool_decide_unpack _). vm_compute. exact I. }
  { apply (bool_decide_unpack _). vm_compute. exact I. }
  exists (String.string_of_list_ascii z). unfold version_line. rewrite Hl. cbn [app].
  rewrite app_assoc, Hz, <- app_assoc. do 2 f_equal. clear.
  induction (FormatInt major) as [|c s IH]; simpl; [by rewrite to_of_bytes|]. f_equal. exact IH.
Qed.

Lemma canonical_major major rest before after :
  Forall (fun l => newline ∉ l) (before ++
    (version_label ++ to_bytes (FormatInt major) ++ "."%char :: rest)%list :: after) ->
  Forall (fun l => forall v, ~ version_line l v) before -> 0 <= major <= int64_max ->
  reports_major (String.string_of_list_ascii
    (join (before ++ (version_label ++ to_bytes (FormatInt major) ++ "."%char :: rest)%list :: after))) major.
Proof.
  intros Hn Hb Hm. destruct (canonical_line major rest) as [r Hr].
  exists (FormatInt major ++ String "." r), (FormatInt major). split_and!.
  - eexists before, _, after. by rewrite to_of_bytes.
  - right. by exists r.
  - apply FormatInt_plain. set_solver.
  - apply ParseInt_FormatInt. unfold is_int64, int64_min. lia.
Qed.

(** The classification of a failed request. *)
Lemma classify_read ctxErr err :
  Is (classify ctxErr err false)
    (if (if ctxErr is Some _ then true else false) || Is err Canceled || Is err DeadlineExceeded
     then ErrCanceled else ErrBackendUnavailable) = true.
Proof. unfold classify. by destruct (_ || _). Qed.

(** [Check] passes exactly the servers that answer both requests, report a major version
    of at least 9 and do not evict. *)
Definition acceptable (info : res string) (config : res (gmap string string)) : Prop :=
  exists text major m, info = Ok text /\ reports_major text major /\ 9 <= major /\
    config = Ok m /\ m !! "maxmemory-policy" = Some "noeviction".

Lemma Check_passes info ctxErr1 config ctxErr2 :
  Check info ctxErr1 config ctxErr2 = None <-> acceptable info config.
Proof.
  unfold Check, acceptable. split.
  - intros H. destruct info as [text|]; [|done]. destruct (valkeyMajor text) as [major|] eqn:Hv; [|done].
    destruct (Z.ltb_spec major 9); [done|]. destruct config as [m|]; [|done].
    destruct (String.eqb_spec (default "" (m !! "maxmemory-policy")) "noeviction") as [Hp|]; [|done].
    exists text, major, m. split_and!; try done; [by apply valkeyMajor_spec|].
    by destruct (m !! "maxmemory-policy"); [simpl in Hp; subst|].
  - intros (text & major & m & -> & Hv%valkeyMajor_spec & Hm & -> & Hp). rewrite Hv, Hp. simpl.
    by destruct (Z.ltb_spec major 9); [lia|].
Qed.

(** ** Properties *)


