(* ===== verification/Postgres.v ===== *)
(** * postgres/store.go: leases in two PostgreSQL tables

    The five SQL statements as functions on the tables of postgres/migration.go,
    the Go side around them, and the refinement of the lease contract. A statement is
    one transaction: it takes effect as a whole or, on an error, not at all. Every
    occurrence of [clock_timestamp()] that decides something is a reading of its
    own. *)

From S2P Require Import Prelude GoBase GoStrings Sha256 Errors LeaseKey Backend Native.
From stdpp Require Import sorting.
#[local] Open Scope string_scope.
#[local] Open Scope Z_scope.

(** ** The tables *)

Definition bigint_max : Z := 9223372036854775807.

(** A row of [lease_records]; the key is the digest, a [bytea]. *)
Record row := MkRow {
  owner : string;
  fencing_token : Z;
  acquired_at : Time;
  expires_at : Time;
  active : bool;
  updated_at : Time
}.

Record tables := MkTables {
  lease_fences : gmap (list Z) Z;
  lease_records : gmap (list Z) row
}.

Definition set_fences (f : gmap (list Z) Z) (db : tables) : tables := MkTables f (lease_records db).
Definition set_records (r : gmap (list Z) row) (db : tables) : tables := MkTables (lease_fences db) r.

(** The readings of [clock_timestamp()]: in the [WHERE] clause, for [acquired_at],
    for [expires_at], and for [updated_at]. *)
Record readings := MkReadings { t_check : Time; t_acquired : Time; t_expires : Time; t_updated : Time }.

(** [interval '1 millisecond'] and [interval '1 hour']. *)
Definition ms_interval (n : Z) : Duration := n * Millisecond.
Definition hour_interval : Duration := Hour.

(** ** The statements *)

(** The result of a statement: [None] when it fails and is rolled back, else the row
    it returns, if any. *)
Definition Statement (A : Type) : Type := tables -> option (option A) * tables.

(** CTE [next_fence]. *)
Definition next_fence (d : list Z) (db : tables) : option Z * tables :=
  match lease_fences db !! d with
  | None => (Some 1, set_fences (<[d := 1]> (lease_fences db)) db)
  | Some f =>
      if f <? bigint_max then (Some (f + 1), set_fences (<[d := f + 1]> (lease_fences db)) db)
      else (None, db)
  end.

(** CTE [installed]: the upsert guarded by inactivity or expiry. *)
Definition installed (t : readings) (d : list Z) (own : string) (ms : Z) (tok : Z) (db : tables) :
    option (option row) * tables :=
  let new := MkRow own tok (t_acquired t) (t_expires t + ms_interval ms) true (t_updated t) in
  let install :=
    if expires_at new <=? acquired_at new then (None, db)
    else (Some (Some new), set_records (<[d := new]> (lease_records db)) db) in
  match lease_records db !! d with
  | None => install
  | Some r =>
      if negb (active r) || (expires_at r <=? t_check t) then install else (Some None, db)
  end.

(** [acquireSQL]: the tail reads the tables as they were before the statement. *)
Definition acquireSQL (t : readings) (d : list Z) (own : string) (ms : Z) :
    Statement (Z * Time * Time * string) := fun db =>
  let exhausted := match lease_fences db !! d with Some f => bigint_max <=? f | None => false end in
  let nothing := (0, t_check t, t_check t, if exhausted then "exhausted" else "contended") in
  match next_fence d db with
  | (None, db') => (Some (Some nothing), db')
  | (Some tok, db') =>
      match installed t d own ms tok db' with
      | (None, _) => (None, db)
      | (Some None, db'') => (Some (Some nothing), db'')
      | (Some (Some r), db'') =>
          (Some (Some (fencing_token r, acquired_at r, expires_at r, "ok")), db'')
      end
  end.

(** The row that [renewSQL] and [validateSQL] select. *)
Definition selected (t : readings) (d : list Z) (own : string) (tok : Z) (db : tables) : option row :=
  match lease_records db !! d with
  | Some r =>
      if String.eqb (owner r) own && (fencing_token r =? tok) && active r && (t_check t <? expires_at r)
      then Some r else None
  | None => None
  end.

(** [renewSQL]. *)
Definition renewSQL (t : readings) (d : list Z) (own : string) (tok ms : Z) :
    Statement (Z * Time * Time) := fun db =>
  match selected t d own tok db with
  | None => (Some None, db)
  | Some r =>
      let r' := MkRow (owner r) (fencing_token r) (acquired_at r) (t_expires t + ms_interval ms)
                  (active r) (t_updated t) in
      if expires_at r' <=? acquired_at r' then (None, db)
      else (Some (Some (fencing_token r', acquired_at r', expires_at r')),
            set_records (<[d := r']> (lease_records db)) db)
  end.

(** [validateSQL]. *)
Definition validateSQL (t : readings) (d : list Z) (own : string) (tok : Z) :
    Statement (Z * Time * Time) := fun db =>
  (Some ((fun r => (fencing_token r, acquired_at r, expires_at r)) <$> selected t d own tok db), db).

(** [releaseSQL]. *)
Definition releaseSQL (t : readings) (d : list Z) (own : string) (tok : Z) : Statement string := fun db =>
  match lease_records db !! d with
  | None => (Some (Some "idempotent"), db)
  | Some r =>
      if String.eqb (owner r) own && (fencing_token r =? tok)
      then if active r
           then (Some (Some "ok"),
                 set_records (<[d := MkRow (owner r) (fencing_token r) (acquired_at r) (expires_at r)
                                       false (t_updated t)]> (lease_records db)) db)
           else (Some (Some "idempotent"), db)
      else (Some (Some "stale"), db)
  end.

(** [cleanupSQL]; [locked] are the rows other transactions hold, which
    [SKIP LOCKED] passes over. *)
Definition older (a b : list Z * row) : Prop := updated_at a.2 <= updated_at b.2.
#[global] Instance older_dec : RelDecision older := fun a b => decide (updated_at a.2 <= updated_at b.2).

Definition doomed (t : readings) (locked : gset (list Z)) (limit : Z) (db : tables) : list (list Z) :=
  let old := filter (fun p : list Z * row =>
    active p.2 = false /\ updated_at p.2 < t_check t - hour_interval /\ p.1 ∉ locked)
    (map_to_list (lease_records db)) in
  take (Z.to_nat limit) ((merge_sort older old).*1).

Definition cleanupSQL (t : readings) (locked : gset (list Z)) (limit : Z) : Statement Z := fun db =>
  let ds := doomed t locked limit db in
  (Some (Some (Z.of_nat (length ds))),
   set_records (foldr delete (lease_records db) ds) db).

(** A [text] parameter is UTF-8 without NUL; the server rejects a statement with
    another one before it runs. *)
Definition with_text {A} (param : string) (stmt : Statement A) : Statement A := fun db =>
  if text_ok param then stmt db else (None, db).

(** ** The Go side *)

(** [QueryRow] and [Scan]. *)
Definition QueryRow {A} (net : transport) (stmt : Statement A) (db : tables) : res A * tables :=
  match net with
  | Unsent e => (Err e, db)
  | ReplyLost e => (Err e, (stmt db).2)
  | Delivered =>
      match stmt db with
      | (Some (Some a), db') => (Ok a, db')
      | (Some None, db') => (Err (Sentinel ErrNoRows), db')
      | (None, db') => (Err (Foreign "statement failed"), db')
      end
  end.

(** [digest]. *)
Definition digest (key : Key) : list Z := Sum256 (KeyString key).

(** [validate]. *)
Definition validate (ctxErr : err_opt) (key : Key) (own : string) (token : Z) (ttl : Duration) : err_opt :=
  match ctxErr with
  | Some _ => Some (WrapS ErrCanceled "postgres context")
  | None =>
      if String.eqb (KeyString key) "" then Some (WrapS ErrInvalidState "postgres input")
      else if String.eqb own "" then Some (WrapS ErrInvalidState "postgres input")
      else if 128 <? len own then Some (WrapS ErrInvalidState "postgres input")
      else if token =? 0 then Some (WrapS ErrInvalidState "postgres input")
      else if 9223372036854775807 <? token then Some (WrapS ErrInvalidState "postgres input")
      else if ttl <? Millisecond then Some (WrapS ErrInvalidState "postgres input")
      else None
  end.

(** [classify]. *)
Definition classify (ctxErr : err_opt) (err : error) (ambiguous : bool) : error :=
  if ambiguous then failure_Wrap (Sentinel ErrAmbiguousOutcome) err "postgres operation"
  else if (if ctxErr is Some _ then true else false) || Is err Canceled || Is err DeadlineExceeded
  then WrapS ErrCanceled "postgres operation"
  else failure_Wrap (Sentinel ErrBackendUnavailable) err "postgres operation".

#[global] Arguments classify : simpl never.

(** [recordFromValues] and [scanRecord]. *)
Definition recordFromValues (key : Key) (own : string) (token : Z) (acquiredAt expiresAt : Time) :
    res LeaseRecord :=
  if (token <=? 0) || negb (After expiresAt acquiredAt)
  then Err (WrapS ErrBackendUnavailable "postgres response")
  else Ok (MkRecord key own token acquiredAt expiresAt).

Definition scanRecord (key : Key) (own : string) (r : res (Z * Time * Time)) : res LeaseRecord :=
  match r with
  | Err e => Err e
  | Ok (token, acquiredAt, expiresAt) => recordFromValues key own token acquiredAt expiresAt
  end.

#[global] Arguments scanRecord : simpl never.

(** [New] and [newStore]; [pool] and [database] say whether one was given. *)
Definition newStore (database : bool) : res () :=
  if negb database then Err (WrapS ErrInvalidState "nil postgres database") else Ok ().
Definition New (pool : bool) : res () :=
  if negb pool then Err (WrapS ErrInvalidState "nil postgres pool") else newStore true.

(** The circumstances of a call. *)
Record env := MkEnv { ctxBefore : err_opt; ctxAfter : err_opt; net : transport; clock : readings }.

(** [TryAcquire]. *)
Definition TryAcquire (x : env) (key : Key) (own : string) (ttl : Duration) (db : tables) :
    res LeaseRecord * tables :=
  match validate (ctxBefore x) key own 1 ttl with
  | Some err => (Err err, db)
  | None =>
      let '(r, db') := QueryRow (net x) (with_text own
                         (acquireSQL (clock x) (digest key) own (Milliseconds ttl))) db in
      match r with
      | Err err => (Err (classify (ctxAfter x) err true), db')
      | Ok (token, acquiredAt, expiresAt, outcome) =>
          if String.eqb outcome "contended" then (Err (WrapS ErrContended "postgres acquire"), db')
          else if String.eqb outcome "exhausted"
          then (Err (WrapS ErrBackendUnavailable "postgres fence exhausted"), db')
          else if String.eqb outcome "ok"
          then match recordFromValues key own token acquiredAt expiresAt with
               | Err e => (Err (classify (ctxAfter x) e true), db')
               | Ok record => (Ok record, db')
               end
          else (Err (classify (ctxAfter x) (WrapS ErrBackendUnavailable "postgres acquire response") true), db')
      end
  end.

(** [Renew]. *)
Definition Renew (x : env) (owned : LeaseRecord) (ttl : Duration) (db : tables) :
    res LeaseRecord * tables :=
  match validate (ctxBefore x) (r_Key owned) (r_Owner owned) (r_Token owned) ttl with
  | Some err => (Err err, db)
  | None =>
      let '(r, db') := QueryRow (net x) (with_text (r_Owner owned)
                         (renewSQL (clock x) (digest (r_Key owned)) (r_Owner owned)
                            (r_Token owned) (Milliseconds ttl))) db in
      match scanRecord (r_Key owned) (r_Owner owned) r with
      | Err err =>
          if Is err ErrNoRows then (Err (WrapS ErrStaleOwner "postgres renew"), db')
          else (Err (classify (ctxAfter x) err true), db')
      | Ok record =>
          if negb (r_Token record =? r_Token owned)
          then (Err (WrapS ErrAmbiguousOutcome "postgres renew response"), db')
          else (Ok record, db')
      end
  end.

(** [Validate]. *)
Definition Validate (x : env) (owned : LeaseRecord) (db : tables) : res LeaseRecord * tables :=
  match validate (ctxBefore x) (r_Key owned) (r_Owner owned) (r_Token owned) Millisecond with
  | Some err => (Err err, db)
  | None =>
      let '(r, db') := QueryRow (net x) (with_text (r_Owner owned)
                         (validateSQL (clock x) (digest (r_Key owned)) (r_Owner owned) (r_Token owned))) db in
      match scanRecord (r_Key owned) (r_Owner owned) r with
      | Err err =>
          if Is err ErrNoRows then (Err (WrapS ErrStaleOwner "postgres validate"), db')
          else (Err (classify (ctxAfter x) err false), db')
      | Ok record =>
          if negb (r_Token record =? r_Token owned)
          then (Err (WrapS ErrBackendUnavailable "postgres validate response"), db')
          else (Ok record, db')
      end
  end.

(** [Release]. *)
Definition Release (x : env) (owned : LeaseRecord) (db : tables) : err_opt * tables :=
  match validate (ctxBefore x) (r_Key owned) (r_Owner owned) (r_Token owned) Millisecond with
  | Some err => (Some err, db)
  | None =>
      let '(r, db') := QueryRow (net x) (with_text (r_Owner owned)
                         (releaseSQL (clock x) (digest (r_Key owned)) (r_Owner owned) (r_Token owned))) db in
      match r with
      | Err err => (Some (classify (ctxAfter x) err true), db')
      | Ok outcome =>
          if String.eqb outcome "ok" || String.eqb outcome "idempotent" then (None, db')
          else if String.eqb outcome "stale" then (Some (WrapS ErrStaleOwner "postgres release"), db')
          else (Some (WrapS ErrBackendUnavailable "postgres response"), db')
      end
  end.

(** [Cleanup]; the batch is a uint32. *)
Definition Cleanup (x : env) (locked : gset (list Z)) (batch : Z) (db : tables) : res Z * tables :=
  match ctxBefore x with
  | Some _ => (Err (WrapS ErrCanceled "postgres cleanup"), db)
  | None =>
      if (batch =? 0) || (10000 <? batch) then (Err (WrapS ErrInvalidState "postgres cleanup"), db)
      else
        let '(r, db') := QueryRow (net x) (cleanupSQL (clock x) locked batch) db in
        match r with
        | Err err => (Err (classify (ctxAfter x) err true), db')
        | Ok count =>
            if (count <? 0) || (batch <? count)
            then (Err (WrapS ErrBackendUnavailable "postgres cleanup response"), db')
            else (Ok (wrapu32 count), db')
        end
  end.

(** One method call, as the [Backend] interface presents it. *)
Definition perform (x : env) (c : call) (db : tables) : reply * tables :=
  match c with
  | CallTryAcquire key own ttl => let '(r, db') := TryAcquire x key own ttl db in (reply_of r, db')
  | CallRenew owned ttl => let '(r, db') := Renew x owned ttl db in (reply_of r, db')
  | CallValidate owned => let '(r, db') := Validate x owned db in (reply_of r, db')
  | CallRelease owned => let '(e, db') := Release x owned db in (ack_of e, db')
  end.

(** ** The refinement *)

(** The constraints of the schema and the relation between the two tables: every
    lease row has a fence row at least as high. *)
Record tables_wf (db : tables) : Prop := {
  tw_fences : map_Forall (fun _ f => 0 < f <= bigint_max) (lease_fences db);
  tw_records : map_Forall (fun d r => 0 < fencing_token r /\ acquired_at r < expires_at r /\
    exists f, lease_fences db !! d = Some f /\ fencing_token r <= f) (lease_records db)
}.

(** The granularity: the TTL loses its fraction of a millisecond, a timestamp its
    fraction of a microsecond. *)
Definition Microsecond : Duration := 1000.
Definition postgres_granularity : Duration := Millisecond + Microsecond.

(** The readings of a statement whose [WHERE] clause is evaluated at [now]: the clock
    is truncated to microseconds and does not run backwards within the statement. *)
Record readings_ok (now : Time) (t : readings) : Prop := {
  ro_check : now - Microsecond < t_check t <= now;
  ro_acquired : t_check t <= t_acquired t;
  ro_expires : t_acquired t <= t_expires t
}.

Record env_ok (now : Time) (c : call) (x : env) : Prop := {
  eo_clock : readings_ok now (clock x);
  eo_net : transport_ok (net x)
}.

Lemma QueryRow_text {A} net p (stmt : Statement A) db :
  text_ok p = true -> QueryRow net (with_text p stmt) db = QueryRow net stmt db.
Proof. intros H. unfold QueryRow, with_text. by rewrite H. Qed.

Lemma QueryRow_rejected {A} net p (stmt : Statement A) db :
  text_ok p = false -> transport_ok net ->
  exists e, QueryRow net (with_text p stmt) db = (Err e, db) /\ driver_error e.
Proof.
  intros H Hn. unfold QueryRow, with_text. rewrite H.
  destruct net as [|e|e]; simpl in *; eexists; eauto using Foreign_driver.
Qed.

(** The two fates of a [text] parameter. *)
Ltac text_cases Hnet :=
  match goal with
  | |- context [QueryRow ?n (with_text ?p ?stmt) ?db] =>
      let H := fresh "Htext" in
      destruct (text_ok p) eqn:H;
        [rewrite (QueryRow_text n p stmt db H)
        |let e := fresh "e" in let He := fresh "He" in
         destruct (QueryRow_rejected n p stmt db H Hnet) as (e & -> & He)]
  end.

Lemma pg_validate_None ctxErr key own token ttl :
  validate ctxErr key own token ttl = None -> 0 < len own /\ token <> 0 /\ Millisecond <= ttl.
Proof.
  unfold validate. intros H. destruct ctxErr; [done|].
  repeat (step_case_in H; [done|]). bool_split. split_and!; [by apply len_pos|done|done].
Qed.

Lemma pg_validate_Some ctxErr key own token ttl e :
  validate ctxErr key own token ttl = Some e ->
  Is e ErrContended = false /\ Is e ErrStaleOwner = false.
Proof.
  unfold validate. intros H. destruct ctxErr; [by simplify_eq|].
  repeat (step_case_in H; [by simplify_eq|]). done.
Qed.

Lemma pg_classify_mutation ctxErr e : definite (classify ctxErr e true) = false.
Proof. by apply definite_false_ambiguous. Qed.

Lemma pg_classify_read ctxErr e :
  driver_error e -> Is (classify ctxErr e false) ErrStaleOwner = false.
Proof. intros He. unfold classify. step_case; [done|]. simpl. by rewrite He by auto. Qed.

Lemma milliseconds_bound ttl : Millisecond <= ttl ->
  0 < ms_interval (Milliseconds ttl) /\
  ttl - Millisecond < ms_interval (Milliseconds ttl) <= ttl.
Proof.
  unfold ms_interval, Milliseconds, Millisecond. intros H. rewrite Z.quot_div_nonneg by lia.
  pose proof (Z.div_mod ttl 1000000 ltac:(done)). pose proof (Z.mod_pos_bound ttl 1000000 ltac:(done)). lia.
Qed.

Section Refinement.
(** The keys in use; their digests are pairwise distinct. *)
Variable K : gset string.
Hypothesis digests_distinct : forall k k',
  k ∈ K -> k' ∈ K -> digest (MkKey k) = digest (MkKey k') -> k = k'.

Definition record_of (k : string) (r : row) : LeaseRecord :=
  MkRecord (MkKey k) (owner r) (fencing_token r) (acquired_at r) (expires_at r).

(** The state of one digest, and the view of the keys in use. *)
Definition fence_at (db : tables) (d : list Z) : Z := default 0 (lease_fences db !! d).
Definition holder_at (db : tables) (k : string) (d : list Z) : option LeaseRecord :=
  match lease_records db !! d with
  | Some r => if active r then Some (record_of k r) else None
  | None => None
  end.
Definition postgres_view (db : tables) (k : string) : key_state :=
  if decide (k ∈ K)
  then MkKeyState (fence_at db (digest (MkKey k))) (holder_at db k (digest (MkKey k)))
  else MkKeyState 0 None.

Lemma view_in db key : KeyString key ∈ K ->
  postgres_view db (KeyString key) =
  MkKeyState (fence_at db (digest key)) (holder_at db (KeyString key) (digest key)).
Proof. intros Hk. unfold postgres_view. rewrite decide_True by done. by destruct key. Qed.

(** A change of the rows of one digest only. *)
Definition only (d : list Z) (db db' : tables) : Prop :=
  forall d', d' <> d -> lease_fences db' !! d' = lease_fences db !! d' /\
    lease_records db' !! d' = lease_records db !! d'.

Lemma only_frame db db' key k :
  KeyString key ∈ K -> only (digest key) db db' -> k <> KeyString key ->
  postgres_view db' k = postgres_view db k.
Proof.
  intros Hk Ho Hne. unfold postgres_view. case_decide as Hk'; [|done].
  destruct (Ho (digest (MkKey k))) as [Hf Hr].
  { intros H. apply Hne, digests_distinct; [done|done|]. rewrite H. by destruct key. }
  unfold fence_at, holder_at. by rewrite Hf, Hr.
Qed.

(** What a call must establish. *)
Abbreviation call_refines := (refines tables_wf postgres_view postgres_granularity).

Lemma pg_ambiguous_same now c db ctxErr e :
  tables_wf db -> call_refines now c db (Failed (classify ctxErr e true), db).
Proof. intros Hwf. apply failed_same; [done|]. left. apply pg_classify_mutation. Qed.

Lemma pg_refines_step now c key db db' r f' h' :
  call_key c = KeyString key -> KeyString key ∈ K -> tables_wf db' -> only (digest key) db db' ->
  fence_at db' (digest key) = f' -> holder_at db' (KeyString key) (digest key) = h' ->
  spec_step postgres_granularity now c r
    (MkKeyState (fence_at db (digest key)) (holder_at db (KeyString key) (digest key)))
    (MkKeyState f' h') ->
  call_refines now c db (r, db').
Proof.
  intros Hc Hk Hwf Ho <- <- Hs. split; [done|]. split.
  - simpl. by rewrite Hc, !view_in.
  - rewrite Hc. intros k Hne. by eapply only_frame.
Qed.

(** ** Acquisition *)

Lemma next_fence_cases d db :
  tables_wf db ->
  (fence_at db d = bigint_max /\ next_fence d db = (None, db) /\
   exists f, lease_fences db !! d = Some f /\ bigint_max <= f) \/
  (0 <= fence_at db d < bigint_max /\
   next_fence d db = (Some (fence_at db d + 1), set_fences (<[d := fence_at db d + 1]> (lease_fences db)) db) /\
   tables_wf (set_fences (<[d := fence_at db d + 1]> (lease_fences db)) db)).
Proof.
  intros [Hf Hr]. unfold next_fence, fence_at.
  assert (Hwf : forall f, 0 <= f < bigint_max -> default 0 (lease_fences db !! d) = f ->
    tables_wf (set_fences (<[d := f + 1]> (lease_fences db)) db)).
  { intros f Hb Hd. split; simpl.
    - apply map_Forall_insert_2; [lia|done].
    - intros d' r Hd'. destruct (Hr _ _ Hd') as (H1 & H2 & f' & Hf' & Hle). split_and!; try done.
      destruct (decide (d' = d)) as [->|Hne].
      + exists (f + 1). rewrite lookup_insert_eq, Hf' in *. simpl in Hd. split; [done|lia].
      + exists f'. by rewrite lookup_insert_ne. }
  destruct (lease_fences db !! d) as [f|] eqn:E; simpl in *.
  - pose proof (Hf _ _ E) as Hb. simpl in Hb. destruct (Z.ltb_spec f bigint_max).
    + right. split_and!; [lia|lia|done|]. apply Hwf; [lia|done].
    + left. split_and!; [lia|done|]. exists f. split; [done|lia].
  - right. split_and!; [done|done|done|]. by apply (Hwf 0).
Qed.

(** [acquireSQL] on every branch. *)
Lemma acquireSQL_cases now t key own ttl db :
  tables_wf db -> readings_ok now t -> Millisecond <= ttl ->
  let d := digest key in
  let k := MkKeyState (fence_at db d) (holder_at db (KeyString key) d) in
  let run := acquireSQL t d own (Milliseconds ttl) db in
  (fence_at db d = bigint_max /\ exists u, run = (Some (Some (0, u, u, "exhausted")), db)) \/
  (exists u db', run = (Some (Some (0, u, u, "contended")), db') /\ lingers postgres_granularity now k /\
     tables_wf db' /\ only d db db' /\ fence_at db' d = fence_at db d + 1 /\
     holder_at db' (KeyString key) d = holder_at db (KeyString key) d) \/
  (exists a e db', run = (Some (Some (fence_at db d + 1, a, e, "ok")), db') /\ ~ live now k /\
     a = t_acquired t /\ e = t_expires t + ms_interval (Milliseconds ttl) /\ a < e /\ now + ttl - postgres_granularity <= e /\ tables_wf db' /\ only d db db' /\
     0 <= fence_at db d /\ fence_at db' d = fence_at db d + 1 /\
     holder_at db' (KeyString key) d = Some (MkRecord key own (fence_at db d + 1) a e)).
Proof.
  intros Hwf [Hc Ha He] Hms. pose proof (milliseconds_bound ttl Hms) as [Hm0 Hm1]. simpl.
  unfold acquireSQL.
  destruct (next_fence_cases (digest key) db Hwf) as [(Hx & -> & f & Hf & Hmax)|(Hb & -> & Hwf1)].
  { left. split; [done|]. rewrite Hf. destruct (Z.leb_spec bigint_max f); [by eexists|lia]. }
  right. assert (Hex : match lease_fences db !! digest key with
    | Some f => bigint_max <=? f | None => false end = false).
  { unfold fence_at in Hb. destruct (lease_fences db !! digest key); simpl in *; [|done].
    apply Z.leb_gt. lia. }
  rewrite Hex. set (tok := fence_at db (digest key) + 1) in *.
  set (db1 := set_fences _ db) in *. unfold installed.
  set (new := MkRow own tok (t_acquired t) (t_expires t + ms_interval (Milliseconds ttl)) true (t_updated t)).
  assert (Hnew : expires_at new <=? acquired_at new = false) by (apply Z.leb_gt; simpl; lia).
  rewrite Hnew.
  assert (Hinst : ~ live now (MkKeyState (fence_at db (digest key)) (holder_at db (KeyString key) (digest key))) ->
    let db2 := set_records (<[digest key := new]> (lease_records db1)) db1 in
    exists a e db', (Some (Some (fencing_token new, acquired_at new, expires_at new, "ok")), db2) =
      (Some (Some (tok, a, e, "ok")), db') /\
      ~ live now (MkKeyState (fence_at db (digest key)) (holder_at db (KeyString key) (digest key))) /\
      a = t_acquired t /\ e = t_expires t + ms_interval (Milliseconds ttl) /\ a < e /\ now + ttl - postgres_granularity <= e /\ tables_wf db' /\ only (digest key) db db' /\
      0 <= fence_at db (digest key) /\ fence_at db' (digest key) = tok /\
      holder_at db' (KeyString key) (digest key) = Some (MkRecord key own tok a e)).
  { intros Hnl. eexists _, _, _. split; [done|]. split; [done|].
    split; [done|]. split; [done|]. split; [simpl; lia|]. split; [unfold postgres_granularity, Microsecond in *; simpl; lia|].
    split_and!; simpl.
    - split; simpl; [apply Hwf1|]. apply map_Forall_insert_2; [|apply Hwf1]. simpl.
      split; [unfold tok; lia|]. split; [lia|]. exists tok. by rewrite lookup_insert_eq.
    - intros d' Hne. simpl. by rewrite !lookup_insert_ne.
    - lia.
    - unfold fence_at. simpl. by rewrite lookup_insert_eq.
    - unfold holder_at. simpl. rewrite lookup_insert_eq. simpl. unfold record_of. simpl. by destruct key. }
  assert (Hrec : lease_records db1 !! digest key = lease_records db !! digest key) by done.
  rewrite Hrec. destruct (lease_records db !! digest key) as [r|] eqn:Er.
  2:{ right. apply Hinst. intros (rec & Hrec' & _). simpl in Hrec'. unfold holder_at in Hrec'.
      by rewrite Er in Hrec'. }
  destruct (active r) eqn:Eact; simpl.
  - destruct (Z.leb_spec (expires_at r) (t_check t)).
    + right. apply Hinst. intros (rec & Hrec' & Hl). simpl in Hrec'. unfold holder_at in Hrec'.
      rewrite Er, Eact in Hrec'. simplify_eq. simpl in Hl. lia.
    + left. exists (t_check t), db1. split; [done|]. split_and!; try done.
      * eexists. split; [unfold holder_at; by rewrite Er, Eact|]. simpl.
        unfold postgres_granularity, Microsecond, Millisecond in *. lia.
      * intros d' Hne. simpl. by rewrite lookup_insert_ne.
      * unfold fence_at. simpl. by rewrite lookup_insert_eq.
  - right. apply Hinst. intros (rec & Hrec' & _). simpl in Hrec'. unfold holder_at in Hrec'.
    by rewrite Er, Eact in Hrec'.
Qed.
Lemma pg_acquire_refines now x key own ttl db :
  KeyString key ∈ K -> tables_wf db -> env_ok now (CallTryAcquire key own ttl) x ->
  call_refines now (CallTryAcquire key own ttl) db (perform x (CallTryAcquire key own ttl) db).
Proof.
  intros Hk Hwf [Hclk Hnet]. simpl. unfold TryAcquire.
  destruct (validate _ _ _ _ _) as [e|] eqn:Ev.
  { apply failed_same; [done|]. right. by eapply pg_validate_Some. }
  apply pg_validate_None in Ev as (_ & _ & Hms). text_cases Hnet; [|by apply pg_ambiguous_same].
  unfold QueryRow. destruct (net x) as [|e|e]; [|by apply pg_ambiguous_same|];
    destruct (acquireSQL_cases now (clock x) key own ttl db Hwf Hclk Hms)
      as [(_ & u & ->)|[(u & db' & -> & Hlg & Hwf' & Ho & Hf & Hh)
        |(a & e' & db' & -> & Hnl & _ & _ & Hae & Hx & Hwf' & Ho & Hf0 & Hf & Hh)]]; simpl.
  - by apply failed_same; [|left].
  - eapply (pg_refines_step _ _ key); eauto. apply spec_acquire_failed; [split; [simpl; lia|done]|done].
  - unfold recordFromValues, After. destruct (Z.leb_spec (fence_at db (digest key) + 1) 0); [lia|].
    destruct (Z.ltb_spec a e'); [|lia]. simpl.
    eapply (pg_refines_step _ _ key); eauto. apply spec_acquired. split_and!; try done. simpl. lia.
  - by apply pg_ambiguous_same.
  - eapply (pg_refines_step _ _ key); eauto.
    apply spec_acquire_failed; [split; [simpl; lia|done]|by rewrite pg_classify_mutation].
  - eapply (pg_refines_step _ _ key); eauto.
    apply (spec_acquire_uncertain _ _ _ _ _ _ (MkRecord key own (fence_at db (digest key) + 1) a e'));
      [apply pg_classify_mutation|].
    split_and!; try done. simpl. lia.
Qed.

(** A contended acquisition has consumed a fence, and changed nothing else of its key:
    docs/state-machine.md has no fence effect for it, the comment on [acquireSQL] and
    docs/backend-guarantees.md say that it may. *)
Lemma contended_consumes_fence now x key own ttl db db' :
  KeyString key ∈ K -> tables_wf db -> env_ok now (CallTryAcquire key own ttl) x ->
  perform x (CallTryAcquire key own ttl) db = (Failed (WrapS ErrContended "postgres acquire"), db') ->
  postgres_view db' (KeyString key) =
    MkKeyState (fence (postgres_view db (KeyString key)) + 1) (holder (postgres_view db (KeyString key))).
Proof.
  intros Hk Hwf [Hclk Hnet] H. rewrite !view_in by done. simpl in *. unfold TryAcquire in H.
  destruct (validate _ _ _ _ _) as [e|] eqn:Ev.
  { unfold validate in Ev. repeat step_case_in Ev; simplify_eq/=; done. }
  apply pg_validate_None in Ev as (_ & _ & Hms).
  assert (Hc : forall err, classify (ctxAfter x) err true <> WrapS ErrContended "postgres acquire")
    by (intros err; unfold classify; done).
  revert H. text_cases Hnet; [|intros H; simplify_eq/=; naive_solver].
  unfold QueryRow. destruct (net x) as [|e|e]; [|intros H; simplify_eq/=; naive_solver|];
    destruct (acquireSQL_cases now (clock x) key own ttl db Hwf Hclk Hms)
      as [(_ & u & ->)|[(u & db1 & -> & _ & _ & _ & Hf & Hh)|(a & e' & db1 & -> & _)]]; simpl; try (intros H; simplify_eq/=; naive_solver).
  - intros [= <-]. by rewrite Hf, Hh.
  - destruct (recordFromValues _ _ _ _ _); intros H; simplify_eq/=; by edestruct Hc.
Qed.

(** ** Renewal and validation *)

(** The selected row is the holder the caller presents. *)
Lemma selected_cases now t owned db :
  readings_ok now t ->
  let d := digest (r_Key owned) in
  let k := MkKeyState (fence_at db d) (holder_at db (KeyString (r_Key owned)) d) in
  (selected t d (r_Owner owned) (r_Token owned) db = None /\ ~ current now owned k) \/
  (exists r, selected t d (r_Owner owned) (r_Token owned) db = Some r /\
     lease_records db !! d = Some r /\ owner r = r_Owner owned /\ fencing_token r = r_Token owned /\
     active r = true /\ now < expires_at r + postgres_granularity /\
     holder k = Some (MkRecord (r_Key owned) (r_Owner owned) (r_Token owned) (acquired_at r) (expires_at r))).
Proof.
  intros [Hc _ _]. simpl. unfold selected, holder_at, current.
  destruct (lease_records db !! digest (r_Key owned)) as [r|]; [|left; naive_solver].
  destruct (String.eqb_spec (owner r) (r_Owner owned)) as [Ho|Ho], (Z.eqb_spec (fencing_token r) (r_Token owned)) as [Ht|Ht],
    (active r) eqn:Ea, (Z.ltb_spec (t_check t) (expires_at r)); simpl;
    try (left; split; [done|]; intros (rec & Hrec & [Hm1 Hm2] & Hl); simplify_eq/=; (done || lia)).
  right. exists r. split_and!; try done.
  - unfold postgres_granularity, Microsecond, Millisecond in *. lia.
  - unfold record_of. rewrite Ho, Ht. by destruct (r_Key owned).
Qed.

Lemma row_wf db d r : tables_wf db -> lease_records db !! d = Some r ->
  0 < fencing_token r /\ acquired_at r < expires_at r /\
  exists f, lease_fences db !! d = Some f /\ fencing_token r <= f.
Proof. intros [_ H] Hr. exact (H _ _ Hr). Qed.

(** The answer to a statement that selected a row of the caller. *)
Lemma scan_row db d r owned e :
  tables_wf db -> lease_records db !! d = Some r -> fencing_token r = r_Token owned -> acquired_at r < e ->
  scanRecord (r_Key owned) (r_Owner owned) (Ok (fencing_token r, acquired_at r, e)) =
  Ok (MkRecord (r_Key owned) (r_Owner owned) (r_Token owned) (acquired_at r) e).
Proof.
  intros Hwf Hr Ht Hx. destruct (row_wf _ _ _ Hwf Hr) as (Htok & _). rewrite Ht in *.
  unfold scanRecord, recordFromValues, After. destruct (Z.leb_spec (r_Token owned) 0); [lia|].
  destruct (Z.ltb_spec (acquired_at r) e); [done|lia].
Qed.

(** Rewriting the row of a digest. *)
Lemma set_row_wf db d r r' :
  tables_wf db -> lease_records db !! d = Some r -> fencing_token r' = fencing_token r ->
  acquired_at r' < expires_at r' ->
  tables_wf (set_records (<[d := r']> (lease_records db)) db) /\
  only d db (set_records (<[d := r']> (lease_records db)) db).
Proof.
  intros Hwf Hr Ht Hx. destruct (row_wf _ _ _ Hwf Hr) as (H1 & _ & f & Hf & Hle). split.
  - split; simpl; [apply Hwf|]. apply map_Forall_insert_2; [|apply Hwf].
    rewrite Ht. split_and!; [done|done|by exists f].
  - intros d' Hne. simpl. by rewrite lookup_insert_ne.
Qed.

(** The rewritten row of a renewal. *)
Definition renewed (t : readings) (ttl : Duration) (r : row) : row :=
  MkRow (owner r) (fencing_token r) (acquired_at r) (t_expires t + ms_interval (Milliseconds ttl))
    (active r) (t_updated t).

Lemma renew_step now t owned ttl db r :
  let d := digest (r_Key owned) in
  let k := MkKeyState (fence_at db d) (holder_at db (KeyString (r_Key owned)) d) in
  let rec e := MkRecord (r_Key owned) (r_Owner owned) (r_Token owned) (acquired_at r) e in
  let e := t_expires t + ms_interval (Milliseconds ttl) in
  let db' := set_records (<[d := renewed t ttl r]> (lease_records db)) db in
  tables_wf db -> readings_ok now t -> Millisecond <= ttl ->
  lease_records db !! d = Some r -> owner r = r_Owner owned -> fencing_token r = r_Token owned ->
  active r = true -> now < expires_at r + postgres_granularity -> holder k = Some (rec (expires_at r)) ->
  acquired_at r < e ->
  tables_wf db' /\ only d db db' /\ fence_at db' d = fence_at db d /\
  holder_at db' (KeyString (r_Key owned)) d = Some (rec e) /\
  renew_effect postgres_granularity now owned ttl (rec e) k (MkKeyState (fence_at db d) (Some (rec e))).
Proof.
  simpl. intros Hwf [Hc Ha He] Hms Hr Ho Ht Hact Hl Hh Hx.
  pose proof (milliseconds_bound ttl Hms) as [Hm0 Hm1].
  destruct (set_row_wf db _ r (renewed t ttl r) Hwf Hr) as [Hwf' Hon]; [done|simpl; lia|].
  split_and!; try done.
  - unfold holder_at. simpl. rewrite lookup_insert_eq. simpl. rewrite Hact. unfold record_of. simpl.
    rewrite Ho, Ht. by destruct (r_Key owned).
  - eexists. split; [exact Hh|]. simpl. unfold postgres_granularity, Microsecond in *.
    split_and!; (done || lia).
Qed.

Lemma pg_renew_refines now x owned ttl db :
  KeyString (r_Key owned) ∈ K -> tables_wf db -> env_ok now (CallRenew owned ttl) x ->
  call_refines now (CallRenew owned ttl) db (perform x (CallRenew owned ttl) db).
Proof.
  intros Hk Hwf [Hclk Hnet]. simpl. unfold Renew.
  destruct (validate _ _ _ _ _) as [e|] eqn:Ev.
  { apply failed_same; [done|]. right. by eapply pg_validate_Some. }
  apply pg_validate_None in Ev as (_ & _ & Hms). pose proof (milliseconds_bound ttl Hms) as [Hm0 Hm1].
  pose proof (view_in db (r_Key owned) Hk) as Hview.
  assert (Hlost : forall e, transport_ok (Unsent e) -> scanRecord (r_Key owned) (r_Owner owned) (Err e) = Err e /\
    Is e ErrNoRows = false) by (intros e He; split; [done|apply He; by right]).
  text_cases Hnet; [|unfold scanRecord; rewrite (He ErrNoRows) by (by right); by apply pg_ambiguous_same].
  unfold QueryRow, renewSQL.
  destruct (selected_cases now (clock x) owned db Hclk) as [[Hsel Hnc]|(r & Hsel & Hr & Ho & Ht & Ha & Hl & Hh)];
    rewrite Hsel; destruct (net x) as [|e|e]; simpl in Hnet;
    try (destruct (Hlost e Hnet) as [-> ->]; by apply pg_ambiguous_same); simpl.
  - unfold scanRecord. simpl. apply refines_same; [done|]. simpl. rewrite Hview. by apply spec_renew_failed.
  - destruct (Z.leb_spec (t_expires (clock x) + ms_interval (Milliseconds ttl)) (acquired_at r)) as [Hle|Hgt].
    { unfold scanRecord. simpl. by apply pg_ambiguous_same. }
    rewrite (scan_row _ _ _ _ _ Hwf Hr) by (done || lia). simpl. rewrite Z.eqb_refl. simpl.
    destruct (renew_step now (clock x) owned ttl db r) as (Hwf' & Hon & Hf' & Hh' & Heff); try done.
    eapply (pg_refines_step _ _ (r_Key owned)); [done|done|done|done|done|done|].
    apply spec_renewed. exact Heff.
  - destruct (Hlost e Hnet) as [_ ->].
    destruct (Z.leb_spec (t_expires (clock x) + ms_interval (Milliseconds ttl)) (acquired_at r)) as [Hle|Hgt].
    { by apply pg_ambiguous_same. }
    destruct (renew_step now (clock x) owned ttl db r) as (Hwf' & Hon & Hf' & Hh' & Heff); try done.
    eapply (pg_refines_step _ _ (r_Key owned)); [done|done|done|done|done|done|].
    eapply spec_renew_uncertain; [apply pg_classify_mutation|exact Heff].
Qed.
Lemma pg_validate_refines now x owned db :
  KeyString (r_Key owned) ∈ K -> tables_wf db -> env_ok now (CallValidate owned) x ->
  call_refines now (CallValidate owned) db (perform x (CallValidate owned) db).
Proof.
  intros Hk Hwf [Hclk Hnet]. simpl. unfold Validate.
  destruct (validate _ _ _ _ _) as [e|] eqn:Ev.
  { apply failed_same; [done|]. right. by eapply pg_validate_Some. }
  pose proof (view_in db (r_Key owned) Hk) as Hview.
  assert (Hread : forall e, driver_error e ->
    call_refines now (CallValidate owned) db (Failed (classify (ctxAfter x) e false), db)).
  { intros e He. apply refines_same; [done|]. apply spec_validate_failed. by rewrite pg_classify_read. }
  assert (Hno : forall e, driver_error e -> Is e ErrNoRows = false) by (intros e He; apply He; by right).
  text_cases Hnet; [|unfold scanRecord; rewrite Hno by done; by apply Hread].
  unfold QueryRow, validateSQL.
  destruct (selected_cases now (clock x) owned db Hclk) as [[Hsel Hnc]|(r & Hsel & Hr & Ho & Ht & Ha & Hl & Hh)];
    rewrite Hsel; destruct (net x) as [|e|e]; simpl in Hnet;
    try (unfold scanRecord; simpl; rewrite (Hno e) by done; by apply Hread).
  - unfold scanRecord. simpl. apply refines_same; [done|]. simpl. rewrite Hview. by apply spec_validate_failed.
  - destruct (row_wf _ _ _ Hwf Hr) as (_ & Hae & _).
    cbn [fmap option_fmap option_map]. rewrite (scan_row _ _ _ _ _ Hwf Hr) by done.
    simpl. rewrite Z.eqb_refl. simpl. apply refines_same; [done|]. simpl. rewrite Hview.
    by apply spec_validated.
Qed.

(** [releaseSQL] on every branch. *)
Lemma releaseSQL_cases now t owned db :
  tables_wf db ->
  let d := digest (r_Key owned) in
  let k := MkKeyState (fence_at db d) (holder_at db (KeyString (r_Key owned)) d) in
  let run := releaseSQL t d (r_Owner owned) (r_Token owned) db in
  (run = (Some (Some "idempotent"), db) /\ ~ live now k /\ ~ held_by owned k) \/
  (run = (Some (Some "stale"), db) /\ ~ held_by owned k /\
     exists r, lease_records db !! d = Some r /\ ~ (owner r = r_Owner owned /\ fencing_token r = r_Token owned)) \/
  (exists r db', run = (Some (Some "ok"), db') /\ tables_wf db' /\ only d db db' /\
     fence_at db' d = fence_at db d /\ holder_at db' (KeyString (r_Key owned)) d = None /\ held_by owned k /\
     lease_records db' !! d = Some r /\ owner r = r_Owner owned /\ fencing_token r = r_Token owned /\ active r = false).
Proof.
  intros Hwf. simpl. unfold releaseSQL, held_by, live, holder_at. simpl. set (d := digest (r_Key owned)).
  destruct (lease_records db !! d) as [r|] eqn:Hr; [|left; naive_solver].
  destruct (String.eqb_spec (owner r) (r_Owner owned)) as [Ho|Ho],
    (Z.eqb_spec (fencing_token r) (r_Token owned)) as [Ht|Ht], (active r) eqn:Ha; simpl;
    try (left; split_and!; [done|naive_solver|naive_solver]);
    try (right; left; split_and!; [done| |exists r; naive_solver];
         intros (rec & Hrec & Hm1 & Hm2); simplify_eq/=; done).
  right. right. destruct (row_wf _ _ _ Hwf Hr) as (_ & Hae & _).
  destruct (set_row_wf db d r (MkRow (owner r) (fencing_token r) (acquired_at r) (expires_at r)
    false (t_updated t)) Hwf Hr) as [Hwf' Hon]; [done|done|].
  eexists _, _. split; [done|]. split_and!; [done|done|done| |by eexists|apply lookup_insert_eq|done|done|done].
  simpl. by rewrite lookup_insert_eq.
Qed.

Lemma pg_release_refines now x owned db :
  KeyString (r_Key owned) ∈ K -> tables_wf db -> env_ok now (CallRelease owned) x ->
  call_refines now (CallRelease owned) db (perform x (CallRelease owned) db).
Proof.
  intros Hk Hwf [Hclk Hnet]. simpl. unfold Release.
  destruct (validate _ _ _ _ _) as [e|] eqn:Ev.
  { apply failed_same; [done|]. right. by eapply pg_validate_Some. }
  pose proof (view_in db (r_Key owned) Hk) as Hview.
  text_cases Hnet; [|by apply pg_ambiguous_same].
  unfold QueryRow. destruct (releaseSQL_cases now (clock x) owned db Hwf)
    as [(Hrun & _ & Hn)|[(Hrun & Hn & _)|(r & db' & Hrun & Hwf' & Hon & Hf & Hh & Hheld & _)]];
    rewrite ?Hrun; destruct (net x) as [|e|e]; try (by apply pg_ambiguous_same); simpl.
  - apply refines_same; [done|]. simpl. rewrite Hview. apply spec_release_idle.
    intros Hcur. by apply Hn, (current_held now).
  - apply refines_same; [done|]. simpl. rewrite Hview. by apply spec_release_failed.
  - eapply (pg_refines_step _ _ (r_Key owned)); eauto. by apply spec_released.
  - eapply (pg_refines_step _ _ (r_Key owned)); eauto.
    apply spec_release_uncertain; [apply pg_classify_mutation|done].
Qed.

Lemma pg_perform_refines now x c db :
  call_key c ∈ K -> tables_wf db -> env_ok now c x -> call_refines now c db (perform x c db).
Proof.
  destruct c; [apply pg_acquire_refines|apply pg_renew_refines|apply pg_validate_refines|apply pg_release_refines].
Qed.

(** The PostgreSQL store as a lease backend, for the keys in use. *)
Program Definition postgres_backend : LeaseBackend tables := {|
  granularity := postgres_granularity;
  backend_wf := tables_wf;
  backend_call now c db r db' := call_key c ∈ K /\ exists x, env_ok now c x /\ perform x c db = (r, db');
  key_view := postgres_view
|}.
Next Obligation. done. Qed.
Next Obligation.
  intros now c v r v' Hwf (Hk & x & Hx & H). pose proof (pg_perform_refines _ _ _ _ Hk Hwf Hx) as (? & ? & ?).
  by rewrite H in *.
Qed.
Next Obligation.
  intros now c v r v' Hwf (Hk & x & Hx & H). pose proof (pg_perform_refines _ _ _ _ Hk Hwf Hx) as (? & ? & ?).
  by rewrite H in *.
Qed.
Next Obligation.
  intros now c v r v' k Hwf (Hk & x & Hx & H) Hne.
  pose proof (pg_perform_refines _ _ _ _ Hk Hwf Hx) as (? & ? & Hf). rewrite H in Hf. by apply Hf.
Qed.
End Refinement.

(** ** Cleanup *)

Lemma lookup_foldr_delete {A} (m : gmap (list Z) A) ds d :
  foldr delete m ds !! d = if decide (d ∈ ds) then None else m !! d.
Proof.
  induction ds as [|d' ds IH]; [by rewrite decide_False by apply not_elem_of_nil|]. cbn [foldr].
  destruct (decide (d = d')) as [->|Hne].
  - rewrite lookup_delete_eq, decide_True; [done|by left].
  - rewrite lookup_delete_ne, IH by done. apply decide_ext. set_solver.
Qed.

Lemma size_foldr_delete {A} (m : gmap (list Z) A) ds :
  NoDup ds -> (forall d, d ∈ ds -> is_Some (m !! d)) ->
  size m = (size (foldr delete m ds) + length ds)%nat.
Proof.
  induction 1 as [|d ds Hd Hnd IH]; intros Hin; simpl; [lia|].
  rewrite map_size_delete, lookup_foldr_delete, decide_False by done.
  destruct (Hin d) as [x Hx]; [by left|]. rewrite Hx.
  rewrite IH by (intros; apply Hin; by right).
  assert (is_Some (foldr delete m ds !! d)) as [y Hy].
  { rewrite lookup_foldr_delete, decide_False by done. eauto. }
  assert (size (foldr delete m ds) <> 0%nat); [|lia].
  apply map_size_ne_0_lookup. eauto.
Qed.

Lemma doomed_spec t locked limit db d :
  d ∈ doomed t locked limit db -> exists r, lease_records db !! d = Some r /\ active r = false /\
    updated_at r < t_check t - hour_interval /\ d ∉ locked.
Proof.
  intros H. unfold doomed in H. apply elem_of_take in H as (i & H & _).
  apply list_elem_of_lookup_2 in H. apply list_elem_of_fmap in H as ([d' r] & -> & H).
  rewrite merge_sort_Permutation in H. apply list_elem_of_filter in H as [(H1 & H2 & H3) H].
  apply elem_of_map_to_list in H. by exists r.
Qed.

Lemma doomed_NoDup t locked limit db : NoDup (doomed t locked limit db).
Proof.
  unfold doomed. eapply sublist_NoDup; [|apply sublist_take].
  rewrite merge_sort_Permutation. eapply sublist_NoDup; [apply (NoDup_fst_map_to_list (lease_records db))|].
  apply fmap_sublist, sublist_filter.
Qed.

(** The tables after a cleanup statement. *)
Lemma cleanup_tables t locked limit db db' n :
  tables_wf db -> 0 <= limit -> cleanupSQL t locked limit db = (Some (Some n), db') ->
  tables_wf db' /\ lease_fences db' = lease_fences db /\ 0 <= n <= limit /\
  Z.of_nat (size (lease_records db)) = Z.of_nat (size (lease_records db')) + n /\
  (forall d, lease_records db' !! d = lease_records db !! d \/
     lease_records db' !! d = None /\ exists r, lease_records db !! d = Some r /\ active r = false /\
       updated_at r < t_check t - hour_interval /\ d ∉ locked).
Proof.
  intros [Hf Hr] Hlim H. unfold cleanupSQL in H. injection H as <- <-. simpl.
  set (ds := doomed t locked limit db).
  assert (Hlen : (length ds <= Z.to_nat limit)%nat).
  { unfold ds, doomed. rewrite length_take. lia. }
  assert (Hsize := size_foldr_delete (lease_records db) ds (doomed_NoDup _ _ _ _)).
  split_and!; [|done|lia|lia| |].
  - split; simpl; [done|]. intros d r. rewrite lookup_foldr_delete.
    case_decide; [done|]. intros Hd. exact (Hr _ _ Hd).
  - rewrite Hsize; [lia|]. intros d Hd. apply doomed_spec in Hd as (r & -> & _). eauto.
  - intros d. rewrite lookup_foldr_delete. case_decide as Hd; [|by left]. right. split; [done|].
    by apply doomed_spec in Hd.
Qed.

(** ** Properties *)

(** C7: for keys whose digests differ, a method call of the PostgreSQL store on
    well-formed tables is a step of the abstract per-key machine with a granularity
    of a millisecond and a microsecond, whatever the fate of the query (never sent,
    answered, committed with the answer lost, rolled back on an error). The tables stay
    well formed and the other keys are left alone. A contended acquisition leaves the
    holder and consumes exactly one fence, as the comment on the statement allows and
    the table of docs/state-machine.md does not. *)
Theorem postgres_refines_contract (K : gset string) now x c db r db' :
  (forall k k', k ∈ K -> k' ∈ K -> digest (MkKey k) = digest (MkKey k') -> k = k') ->
  call_key c ∈ K -> tables_wf db -> env_ok now c x -> perform x c db = (r, db') ->
  tables_wf db' /\
  spec_step postgres_granularity now c r (postgres_view K db (call_key c)) (postgres_view K db' (call_key c)) /\
  (forall k, k <> call_key c -> postgres_view K db' k = postgres_view K db k) /\
  (forall key own ttl, c = CallTryAcquire key own ttl -> r = Failed (WrapS ErrContended "postgres acquire") ->
     postgres_view K db' (call_key c) =
       MkKeyState (fence (postgres_view K db (call_key c)) + 1) (holder (postgres_view K db (call_key c)))).
Proof.
  intros Hd Hk Hwf Hx H. pose proof (pg_perform_refines K Hd now x c db Hk Hwf Hx) as (H1 & H2 & H3).
  rewrite H in *. split_and!; try done. intros key own ttl -> ->. by eapply contended_consumes_fence.
Qed.

(** Empty tables, one key in use, and a query answered at instant 5000. *)
Definition K1 : gset string := {["jobs/nightly"]}.
Definition calm : env := MkEnv None None Delivered (MkReadings 5000 5000 6000 6000).
Definition acquire0 : call := CallTryAcquire (MkKey "jobs/nightly") "worker-1" (30 * Second).
Definition db0 : tables := MkTables ∅ ∅.

Lemma db0_wf : tables_wf db0.
Proof. split; apply map_Forall_empty. Qed.

Lemma K1_distinct k k' : k ∈ K1 -> k' ∈ K1 -> digest (MkKey k) = digest (MkKey k') -> k = k'.
Proof. unfold K1. rewrite !elem_of_singleton. by intros -> ->. Qed.

Lemma pg_calm_ok : env_ok 5000 acquire0 calm.
Proof. split; [|done]. split; simpl; unfold Microsecond; lia. Qed.

Lemma postgres_refines_contract_witness :
  let p := perform calm acquire0 db0 in
  p.1 = Replied (MkRecord (MkKey "jobs/nightly") "worker-1" 1 5000 (6000 + 30 * Second)) /\
  spec_step postgres_granularity 5000 acquire0 p.1 (postgres_view K1 db0 "jobs/nightly")
    (postgres_view K1 p.2 "jobs/nightly").
Proof.
  split; [by vm_compute|].
  apply (postgres_refines_contract K1 5000 calm acquire0 db0 (perform calm acquire0 db0).1
    (perform calm acquire0 db0).2 K1_distinct ltac:(set_solver) db0_wf pg_calm_ok (surjective_pairing _)).
Defined.

(** C29: [Cleanup] cannot disturb continuity. It keeps every fence row and the state
    of every key, removes only unlocked rows that were released more than an hour
    ago, at most a batch of them, and a successful call returns exactly the number of
    rows removed. *)
Theorem Cleanup_preserves_leases x locked batch db r db' :
  tables_wf db -> is_uint32 batch -> Cleanup x locked batch db = (r, db') ->
  tables_wf db' /\ lease_fences db' = lease_fences db /\
  (forall K k, postgres_view K db' k = postgres_view K db k) /\
  (forall d, lease_records db' !! d = lease_records db !! d \/
     lease_records db' !! d = None /\ exists r, lease_records db !! d = Some r /\ active r = false /\
       updated_at r < t_check (clock x) - hour_interval /\ d ∉ locked) /\
  (forall n, r = Ok n -> 0 <= n <= batch /\
     Z.of_nat (size (lease_records db)) = Z.of_nat (size (lease_records db')) + n).
Proof.
  intros Hwf Hb H.
  assert (Hout : (db' = db /\ (forall n, r <> Ok n)) \/
    exists n, 0 <= batch <= 10000 /\ cleanupSQL (clock x) locked batch db = (Some (Some n), db') /\
      ((forall n', r <> Ok n') \/ r = Ok (wrapu32 n))).
  { unfold Cleanup in H. destruct (ctxBefore x); [simplify_eq; by left|].
    step_case_in H; [simplify_eq; by left|]. bool_split.
    assert (Hlim : 0 <= batch <= 10000) by (unfold is_uint32 in Hb; lia).
    unfold QueryRow in H. destruct (net x); simpl in H; [|simplify_eq; by left|].
    - right. eexists. split; [exact Hlim|]. step_case_in H; simplify_eq; (split; [reflexivity|]); auto.
    - right. simplify_eq. eexists. split; [exact Hlim|]. split; [reflexivity|]. by left. }
  destruct Hout as [[-> Hno]|(n & Hlim & Hc & Hr)].
  { split_and!; try done; [by left|]. intros n ->. by destruct (Hno n). }
  destruct (cleanup_tables _ _ _ _ _ _ Hwf (proj1 Hlim) Hc) as (Hwf' & Hf & Hn & Hs & Hd).
  split_and!; try done.
  - intros K k. unfold postgres_view. case_decide; [|done]. unfold fence_at, holder_at. rewrite Hf.
    destruct (Hd (digest (MkKey k))) as [->|(-> & r0 & -> & -> & _)]; done.
  - intros n' ->. destruct Hr as [Hr|[= ->]]; [by destruct (Hr n')|].
    rewrite wrapu32_id by (unfold is_uint32, uint32_max; lia). done.
Qed.

(** One row released two hours ago, one a minute ago, one still active. *)
Definition cleanup_db : tables :=
  MkTables (list_to_map [([1], 4); ([2], 5); ([3], 6)])
    (list_to_map [([1], MkRow "a" 4 0 10 false 0); ([2], MkRow "b" 5 0 10 false (119 * Minute));
                  ([3], MkRow "c" 6 0 10 true 0)]).

Lemma Cleanup_preserves_leases_witness :
  let x := MkEnv None None Delivered (MkReadings (2 * Hour) 0 0 0) in
  let p := Cleanup x ∅ 100 cleanup_db in
  p.1 = Ok 1 /\ lease_records p.2 !! [1] = None /\ tables_wf p.2.
Proof.
  set (x := MkEnv None None Delivered (MkReadings (2 * Hour) 0 0 0)).
  split; [by vm_compute|]. split; [by vm_compute|].
  apply (Cleanup_preserves_leases x ∅ 100 cleanup_db (Cleanup x ∅ 100 cleanup_db).1
    (Cleanup x ∅ 100 cleanup_db).2); [|unfold is_uint32, uint32_max; lia|apply surjective_pairing].
  unfold cleanup_db. split; simpl;
    repeat (apply map_Forall_insert_2; [simpl; unfold bigint_max|]); try apply map_Forall_empty;
    try lia; (split; [lia|]; split; [lia|]; eexists; split; [reflexivity|lia]).
Defined.
