(* ===== verification/Schema.v ===== *)
(** * postgres/migration.go: the schema of the lease tables

    The DDL of [SchemaMigration] as syntax: a printer that gives back the strings of
    the source, the meaning of the statements on a database catalog, and the meaning
    of the declared constraints on rows. The tables of [Postgres] are related to the
    declarations through their rows. *)

From S2P Require Import Prelude GoBase GoStrings Strconv Errors LeaseKey Backend Native Postgres.
#[local] Open Scope string_scope.
#[local] Open Scope Z_scope.

(** ** Statements *)

Inductive sqltype := bytea | bigint | text | timestamptz | boolean.

(** The conditions of the [CHECK] constraints. *)
Inductive condition :=
| Positive (column : string)
| OctetsBetween (column : string) (lo hi : Z)
| Later (column column' : string).

Record column := MkColumn {
  c_name : string;
  c_type : sqltype;
  c_primary : bool;
  c_references : option (string * string);
  c_not_null : bool;
  c_check : option condition
}.

(** A partial index covers the rows whose flag is [when]. *)
Inductive ddl :=
| CreateTable (name : string) (columns : list column) (checks : list condition)
| CreateIndex (name table column : string) (flag : string) (when : bool)
| DropTable (name : string).

#[global] Instance condition_eq_dec : EqDecision condition.
Proof. solve_decision. Defined.
#[global] Instance sqltype_eq_dec : EqDecision sqltype.
Proof. solve_decision. Defined.
#[global] Instance column_eq_dec : EqDecision column.
Proof. solve_decision. Defined.

(** ** The printer *)

Definition newline : string := String (Ascii.ascii_of_nat 10) "".

Fixpoint join (sep : string) (ss : list string) : string :=
  match ss with
  | [] => ""
  | [s] => s
  | s :: rest => s ++ sep ++ join sep rest
  end.

Definition print_type (t : sqltype) : string :=
  match t with
  | bytea => "bytea" | bigint => "bigint" | text => "text"
  | timestamptz => "timestamptz" | boolean => "boolean"
  end.

Definition print_condition (c : condition) : string :=
  match c with
  | Positive col => col ++ " > 0"
  | OctetsBetween col lo hi =>
      "octet_length(" ++ col ++ ") BETWEEN " ++ FormatInt lo ++ " AND " ++ FormatInt hi
  | Later col col' => col ++ " > " ++ col'
  end.

Definition print_check (c : condition) : string := "CHECK (" ++ print_condition c ++ ")".

Definition print_column (c : column) : string :=
  join " " (List.concat
    [[c_name c; print_type (c_type c)];
     if c_primary c then ["PRIMARY KEY"] else [];
     match c_references c with Some (t, col) => ["REFERENCES " ++ t ++ " (" ++ col ++ ")"] | None => [] end;
     if c_not_null c then ["NOT NULL"] else [];
     match c_check c with Some k => [print_check k] | None => [] end]).

Definition print_ddl (s : ddl) : string :=
  match s with
  | CreateTable name columns checks =>
      "CREATE TABLE " ++ name ++ " (" ++ newline ++
      join ("," ++ newline) (map (fun l => "    " ++ l)
        (List.app (map print_column columns) (map print_check checks))) ++
      newline ++ ");"
  | CreateIndex name table column flag when =>
      "CREATE INDEX " ++ name ++ newline ++ "    ON " ++ table ++ " (" ++ column ++ ") WHERE " ++
      (if when then flag else "NOT " ++ flag) ++ ";"
  | DropTable name => "DROP TABLE " ++ name ++ ";"
  end.

Definition print_script (ss : list ddl) : string := join newline (map print_ddl ss).

(** ** The migration *)

Definition key_digest_column (references : option (string * string)) : column :=
  MkColumn "key_digest" bytea true references false None.
Definition plain_column (name : string) (t : sqltype) (check : option condition) : column :=
  MkColumn name t false None true check.

Definition fences_columns : list column :=
  [key_digest_column None; plain_column "fencing_token" bigint (Some (Positive "fencing_token"))].
Definition records_columns : list column :=
  [key_digest_column (Some ("lease_fences", "key_digest"));
   plain_column "owner" text (Some (OctetsBetween "owner" 1 128));
   plain_column "fencing_token" bigint (Some (Positive "fencing_token"));
   plain_column "acquired_at" timestamptz None;
   plain_column "expires_at" timestamptz None;
   plain_column "active" boolean None;
   plain_column "updated_at" timestamptz None].

Definition up_ddl : list ddl :=
  [CreateTable "lease_fences" fences_columns [];
   CreateTable "lease_records" records_columns [Later "expires_at" "acquired_at"];
   CreateIndex "lease_records_expiry_idx" "lease_records" "expires_at" "active" true;
   CreateIndex "lease_records_cleanup_idx" "lease_records" "updated_at" "active" false].
Definition down_ddl : list ddl := [DropTable "lease_records"; DropTable "lease_fences"].

(** [Migration] and [SchemaMigration]. *)
Record Migration := MkMigration { mg_Version : Z; mg_Name : string; mg_Up : string; mg_Down : string }.

Definition SchemaMigration : Migration := MkMigration 1 "create_fenced_leases"
"CREATE TABLE lease_fences (
    key_digest bytea PRIMARY KEY,
    fencing_token bigint NOT NULL CHECK (fencing_token > 0)
);
CREATE TABLE lease_records (
    key_digest bytea PRIMARY KEY REFERENCES lease_fences (key_digest),
    owner text NOT NULL CHECK (octet_length(owner) BETWEEN 1 AND 128),
    fencing_token bigint NOT NULL CHECK (fencing_token > 0),
    acquired_at timestamptz NOT NULL,
    expires_at timestamptz NOT NULL,
    active boolean NOT NULL,
    updated_at timestamptz NOT NULL,
    CHECK (expires_at > acquired_at)
);
CREATE INDEX lease_records_expiry_idx
    ON lease_records (expires_at) WHERE active;
CREATE INDEX lease_records_cleanup_idx
    ON lease_records (updated_at) WHERE NOT active;"
"DROP TABLE lease_records;
DROP TABLE lease_fences;".

(** [GoMigration]; [NewMigration] and its transaction modes are go-migrations'. *)
Definition GoMigration {Mode Result : Type} (NewMigration : Z -> string -> Mode -> string -> string -> Result)
    (TransactionModeDefault : Mode) : Result :=
  let migration := SchemaMigration in
  NewMigration (mg_Version migration) (mg_Name migration) TransactionModeDefault
    (mg_Up migration) (mg_Down migration).

(** The strings of the source are the printed statements. *)
Lemma migration_printed :
  mg_Up SchemaMigration = print_script up_ddl /\ mg_Down SchemaMigration = print_script down_ddl.
Proof. by vm_compute. Qed.

(** ** The catalog *)

Inductive object :=
| Table (columns : list column) (checks : list condition)
| Index (table : string).

#[global] Instance object_eq_dec : EqDecision object.
Proof. solve_decision. Defined.

Abbreviation catalog := (gmap string object).

(** The tables an object depends on. *)
Definition refers (o : object) : list string :=
  match o with
  | Table columns _ => omap (fun c => fst <$> c_references c) columns
  | Index table => [table]
  end.

Definition is_table (cat : catalog) (n : string) : bool :=
  match cat !! n with Some (Table _ _) => true | _ => false end.

Definition has_column (cat : catalog) (t c : string) : bool :=
  match cat !! t with Some (Table columns _) => existsb (fun k => String.eqb (c_name k) c) columns | _ => false end.

(** A foreign key to the table [n]. *)
Definition foreign_key (n : string) (o : object) : bool :=
  match o with Table _ _ => existsb (String.eqb n) (refers o) | Index _ => false end.

(** One statement: [None] is an error. A table that another table refers to cannot be
    dropped; its indexes go with it. *)
Definition exec_ddl (cat : catalog) (s : ddl) : option catalog :=
  match s with
  | CreateTable n columns checks =>
      if bool_decide (is_Some (cat !! n)) then None
      else if forallb (is_table cat) (refers (Table columns checks))
      then Some (<[n := Table columns checks]> cat) else None
  | CreateIndex n t c flag _ =>
      if bool_decide (is_Some (cat !! n)) then None
      else if has_column cat t c && has_column cat t flag then Some (<[n := Index t]> cat) else None
  | DropTable n =>
      if negb (is_table cat n) then None
      else if bool_decide (map_Forall (fun m o => m = n \/ foreign_key n o = false) cat)
      then Some (filter (fun p : string * object => p.1 <> n /\ p.2 <> Index n) cat) else None
  end.

Fixpoint exec_script (cat : catalog) (ss : list ddl) : option catalog :=
  match ss with
  | [] => Some cat
  | s :: rest => exec_ddl cat s ≫= fun cat' => exec_script cat' rest
  end.

(** In an empty schema; and the order of the statements matters. *)
Example migration_runs :
  (exec_script ∅ up_ddl ≫= fun cat => exec_script cat down_ddl) = Some ∅ /\
  (size <$> exec_script ∅ up_ddl) = Some 4%nat /\
  (exec_script ∅ up_ddl ≫= fun cat => exec_script cat (reverse down_ddl)) = None /\
  exec_script ∅ (reverse up_ddl) = None.
Proof. by vm_compute. Qed.

(** ** Rows *)

(** The value of a column; an absent column is NULL. *)
Inductive value :=
| VBytes (b : list Z)
| VInt (n : Z)
| VText (s : string)
| VTime (t : Time)
| VBool (b : bool).

Abbreviation tuple := (gmap string value).

Definition has_type (t : sqltype) (v : value) : bool :=
  match t, v with
  | bytea, VBytes _ | timestamptz, VTime _ | boolean, VBool _ => true
  | bigint, VInt n => (int64_min <=? n) && (n <=? int64_max)
  | text, VText s => text_ok s
  | _, _ => false
  end.

(** A condition with a NULL is not violated. *)
Definition satisfies (c : condition) (r : tuple) : bool :=
  match c with
  | Positive col =>
      match r !! col with Some (VInt n) => 0 <? n | Some _ => false | None => true end
  | OctetsBetween col lo hi =>
      match r !! col with Some (VText s) => (lo <=? len s) && (len s <=? hi) | Some _ => false | None => true end
  | Later col col' =>
      match r !! col, r !! col' with
      | Some (VTime t), Some (VTime t') => t' <? t
      | None, _ | _, None => true
      | _, _ => false
      end
  end.

Definition column_ok (r : tuple) (c : column) : bool :=
  match r !! c_name c with
  | Some v => has_type (c_type c) v
  | None => negb (c_not_null c || c_primary c)
  end &&
  match c_check c with Some k => satisfies k r | None => true end.

Definition tuple_ok (columns : list column) (checks : list condition) (r : tuple) : bool :=
  forallb (column_ok r) columns && forallb (fun k => satisfies k r) checks.

(** The constraints of the tables a script creates, on the relations of a database. *)
Definition key_ok (D : string -> list tuple) (n : string) (c : column) : Prop :=
  (c_primary c = true -> NoDup (map (fun r : tuple => r !! c_name c) (D n))) /\
  (forall t c', c_references c = Some (t, c') ->
     Forall (fun r : tuple => exists r' : tuple, r' ∈ D t /\ r' !! c' = r !! c_name c) (D n)).

Definition table_ok (D : string -> list tuple) (s : ddl) : Prop :=
  match s with
  | CreateTable n columns checks =>
      Forall (fun r => tuple_ok columns checks r = true) (D n) /\ Forall (key_ok D n) columns
  | _ => True
  end.

Definition schema_ok (D : string -> list tuple) (ss : list ddl) : Prop := Forall (table_ok D) ss.

(** ** The tables of [Postgres] as relations *)

Definition fence_tuple (p : list Z * Z) : tuple :=
  list_to_map [("key_digest", VBytes p.1); ("fencing_token", VInt p.2)].
Definition record_tuple (p : list Z * row) : tuple :=
  list_to_map [("key_digest", VBytes p.1); ("owner", VText (owner p.2));
    ("fencing_token", VInt (fencing_token p.2)); ("acquired_at", VTime (acquired_at p.2));
    ("expires_at", VTime (expires_at p.2)); ("active", VBool (active p.2));
    ("updated_at", VTime (updated_at p.2))].

Definition relations (db : tables) (n : string) : list tuple :=
  if String.eqb n "lease_fences" then map fence_tuple (map_to_list (lease_fences db))
  else if String.eqb n "lease_records" then map record_tuple (map_to_list (lease_records db))
  else [].

(** What the declarations say of a fence and of a lease row. *)
Definition fence_typed (f : Z) : Prop := 0 < f <= bigint_max.
Definition row_typed (r : row) : Prop :=
  0 < len (owner r) <= 128 /\ text_ok (owner r) = true /\ 0 < fencing_token r <= bigint_max /\
  acquired_at r < expires_at r.

Record tables_typed (db : tables) : Prop := {
  ty_fences : map_Forall (fun _ f => fence_typed f) (lease_fences db);
  ty_records : map_Forall (fun _ r => row_typed r) (lease_records db);
  ty_foreign : forall d, is_Some (lease_records db !! d) -> is_Some (lease_fences db !! d)
}.

Lemma fence_tuple_ok d f : tuple_ok fences_columns [] (fence_tuple (d, f)) = true <-> fence_typed f.
Proof.
  unfold tuple_ok, fences_columns, column_ok, fence_tuple, fence_typed. simpl. simplify_map_eq. simpl.
  unfold bigint_max, int64_min, int64_max. rewrite !andb_true_r, !andb_true_iff, !Z.leb_le, Z.ltb_lt. lia.
Qed.

Lemma record_tuple_ok d r :
  tuple_ok records_columns [Later "expires_at" "acquired_at"] (record_tuple (d, r)) = true <-> row_typed r.
Proof.
  unfold tuple_ok, records_columns, column_ok, record_tuple, row_typed. simpl. simplify_map_eq. simpl.
  unfold bigint_max, int64_min, int64_max.
  rewrite !andb_true_r, !andb_true_iff, !Z.leb_le, !Z.ltb_lt. intuition lia.
Qed.

Lemma fence_tuple_key p : fence_tuple p !! "key_digest" = Some (VBytes p.1).
Proof. unfold fence_tuple. by simplify_map_eq. Qed.
Lemma record_tuple_key p : record_tuple p !! "key_digest" = Some (VBytes p.1).
Proof. unfold record_tuple. by simplify_map_eq. Qed.

(** A map has one tuple per key. *)
Lemma keys_distinct {A} (tup : list Z * A -> tuple) (m : gmap (list Z) A) :
  (forall p, tup p !! "key_digest" = Some (VBytes p.1)) ->
  NoDup (map (fun r : tuple => r !! "key_digest") (map tup (map_to_list m))).
Proof.
  intros Ht. rewrite List.map_map.
  rewrite (List.map_ext _ (fun p => Some (VBytes p.1))) by done.
  rewrite <- (List.map_map fst (fun d => Some (VBytes d))).
  assert (Inj (=) (=) (fun d : list Z => Some (VBytes d))) by (by intros d d' [= ->]).
  apply (NoDup_fmap_2 (fun d => Some (VBytes d))), NoDup_fst_map_to_list.
Qed.

Lemma relation_Forall {A} (tup : list Z * A -> tuple) (P : tuple -> Prop) (m : gmap (list Z) A) :
  Forall P (map tup (map_to_list m)) <-> map_Forall (fun d x => P (tup (d, x))) m.
Proof.
  rewrite List.Forall_map, map_Forall_to_list. apply list.Forall_iff. by intros [d x].
Qed.

Lemma relations_fences db : relations db "lease_fences" = map fence_tuple (map_to_list (lease_fences db)).
Proof. done. Qed.
Lemma relations_records db : relations db "lease_records" = map record_tuple (map_to_list (lease_records db)).
Proof. done. Qed.

(** The declared constraints hold of the relations exactly when the tables are typed. *)
Lemma schema_typed db : schema_ok (relations db) up_ddl <-> tables_typed db.
Proof.
  assert (Hfk : Forall (fun r : tuple => exists r' : tuple, r' ∈ relations db "lease_fences" /\
      r' !! "key_digest" = r !! "key_digest") (relations db "lease_records") <->
    forall d, is_Some (lease_records db !! d) -> is_Some (lease_fences db !! d)).
  { rewrite relations_records, relations_fences, relation_Forall. split.
    - intros H d [r Hr]. destruct (H d r Hr) as (t & Ht & Hk). rewrite record_tuple_key in Hk.
      apply list_elem_of_fmap in Ht as ([d' f] & -> & Hf). rewrite fence_tuple_key in Hk. simplify_eq/=.
      apply elem_of_map_to_list in Hf. eauto.
    - intros H d r Hr. destruct (H d) as [f Hf]; [eauto|]. exists (fence_tuple (d, f)).
      split; [|by rewrite record_tuple_key, fence_tuple_key].
      apply list_elem_of_fmap. exists (d, f). split; [done|]. by apply elem_of_map_to_list. }
  split.
  - intros H. unfold schema_ok, up_ddl in H. apply List.Forall_cons_iff in H as [[Hf _] H].
    apply List.Forall_cons_iff in H as [[Hr Hk] _]. apply List.Forall_cons_iff in Hk as [[_ Hk] _].
    rewrite relations_fences, relation_Forall in Hf. rewrite relations_records, relation_Forall in Hr. split.
    + eapply map_Forall_impl; [done|]. intros d f. apply fence_tuple_ok.
    + eapply map_Forall_impl; [done|]. intros d r. apply record_tuple_ok.
    + apply Hfk, (Hk "lease_fences" "key_digest" eq_refl).
  - intros [Hf Hr Hk]. unfold schema_ok, up_ddl. repeat apply List.Forall_cons; try done.
    + split; [rewrite relations_fences, relation_Forall|].
      * eapply map_Forall_impl; [done|]. intros d f. apply fence_tuple_ok.
      * repeat apply List.Forall_cons; try done; try (by split). split; [|done]. intros _.
        rewrite relations_fences. apply keys_distinct, fence_tuple_key.
    + split; [rewrite relations_records, relation_Forall|].
      * eapply map_Forall_impl; [done|]. intros d r. apply record_tuple_ok.
      * repeat apply List.Forall_cons; try done; try (by split). split.
        -- intros _. rewrite relations_records. apply keys_distinct, record_tuple_key.
        -- intros t c' [= <- <-]. by apply Hfk.
Qed.

(** ** The statements keep the types *)

Lemma set_fence_typed d f db :
  tables_typed db -> fence_typed f -> tables_typed (set_fences (<[d := f]> (lease_fences db)) db).
Proof.
  intros [Hf Hr Hk] Hty. split; simpl; [by apply map_Forall_insert_2|done|].
  intros d' Hd'. destruct (decide (d' = d)) as [->|Hne].
  - rewrite lookup_insert_eq. eauto.
  - rewrite lookup_insert_ne by done. by apply Hk.
Qed.

Lemma set_record_typed d r db :
  tables_typed db -> row_typed r -> is_Some (lease_fences db !! d) ->
  tables_typed (set_records (<[d := r]> (lease_records db)) db).
Proof.
  intros [Hf Hr Hk] Hty Hd. split; simpl; [done|by apply map_Forall_insert_2|].
  intros d' Hd'. destruct (decide (d' = d)) as [->|Hne]; [done|].
  rewrite lookup_insert_ne in Hd' by done. by apply Hk.
Qed.

Lemma next_fence_typed d db :
  tables_typed db ->
  tables_typed (next_fence d db).2 /\
  forall tok, (next_fence d db).1 = Some tok ->
    fence_typed tok /\ is_Some (lease_fences (next_fence d db).2 !! d).
Proof.
  intros Hty. unfold next_fence. destruct (lease_fences db !! d) as [f|] eqn:E.
  - pose proof (ty_fences _ Hty _ _ E) as Hf. unfold fence_typed in Hf.
    destruct (Z.ltb_spec f bigint_max); simpl; [|done].
    assert (fence_typed (f + 1)) by (unfold fence_typed; lia).
    split; [by apply set_fence_typed|]. intros tok [= <-]. split; [done|]. rewrite lookup_insert_eq. eauto.
  - assert (fence_typed 1) by done. simpl. split; [by apply set_fence_typed|].
    intros tok [= <-]. split; [done|]. rewrite lookup_insert_eq. eauto.
Qed.

(** An upsert is rejected exactly when the row it writes violates a declared check. *)
Lemma installed_checked t d own ms tok :
  0 < len own <= 128 -> text_ok own = true -> fence_typed tok ->
  let new := MkRow own tok (t_acquired t) (t_expires t + ms_interval ms) true (t_updated t) in
  tuple_ok records_columns [Later "expires_at" "acquired_at"] (record_tuple (d, new)) =
  negb (expires_at new <=? acquired_at new).
Proof.
  intros Ho Ht Hf new. apply Bool.eq_iff_eq_true.
  rewrite record_tuple_ok, negb_true_iff, Z.leb_gt. unfold row_typed, fence_typed in *. simpl. tauto.
Qed.

Lemma installed_typed t d own ms tok db :
  tables_typed db -> is_Some (lease_fences db !! d) -> 0 < len own <= 128 -> text_ok own = true ->
  fence_typed tok -> tables_typed (installed t d own ms tok db).2.
Proof.
  intros Hty Hd Ho Ht Hf. unfold installed. simpl.
  destruct (Z.leb_spec (t_expires t + ms_interval ms) (t_acquired t)) as [|Hlt]; simpl.
  { by destruct (lease_records db !! d) as [r|]; [destruct (_ || _)|]. }
  assert (Hins := set_record_typed d (MkRow own tok (t_acquired t) (t_expires t + ms_interval ms) true
    (t_updated t)) db Hty (conj Ho (conj Ht (conj Hf Hlt))) Hd).
  destruct (lease_records db !! d) as [r|]; [destruct (_ || _)|]; done.
Qed.

Lemma acquireSQL_typed t d own ms db :
  tables_typed db -> 0 < len own <= 128 -> text_ok own = true ->
  tables_typed (acquireSQL t d own ms db).2.
Proof.
  intros Hty Ho Ht. unfold acquireSQL. destruct (next_fence_typed d db Hty) as [H1 H2].
  destruct (next_fence d db) as [[tok|] db1]; simpl in *; [|done].
  destruct (H2 tok eq_refl) as [Hf Hd].
  pose proof (installed_typed t d own ms tok db1 H1 Hd Ho Ht Hf) as H3.
  by destruct (installed t d own ms tok db1) as [[[r|]|] db2].
Qed.

(** Rewriting the row of a digest. *)
Lemma rewrite_typed d r r' db :
  tables_typed db -> lease_records db !! d = Some r -> owner r' = owner r -> fencing_token r' = fencing_token r ->
  acquired_at r' < expires_at r' -> tables_typed (set_records (<[d := r']> (lease_records db)) db).
Proof.
  intros Hty Hr Ho Ht Hx. pose proof (ty_records _ Hty _ _ Hr) as (H1 & H2 & H3 & _).
  apply set_record_typed; [done| |apply (ty_foreign _ Hty); eauto].
  unfold row_typed. by rewrite Ho, Ht.
Qed.

Lemma renewSQL_typed t d own tok ms db : tables_typed db -> tables_typed (renewSQL t d own tok ms db).2.
Proof.
  intros Hty. unfold renewSQL. destruct (selected t d own tok db) as [r|] eqn:Es; [|done]. simpl.
  destruct (Z.leb_spec (t_expires t + ms_interval ms) (acquired_at r)); [done|]. simpl.
  unfold selected in Es. destruct (lease_records db !! d) as [r0|] eqn:Er; [|done].
  step_case_in Es; simplify_eq. by eapply rewrite_typed.
Qed.

Lemma releaseSQL_typed t d own tok db : tables_typed db -> tables_typed (releaseSQL t d own tok db).2.
Proof.
  intros Hty. unfold releaseSQL. destruct (lease_records db !! d) as [r|] eqn:Er; [|done].
  destruct (_ && _); [|done]. destruct (active r); [|done]. simpl.
  eapply rewrite_typed; [done|done|done|done|]. simpl. apply (ty_records _ Hty _ _ Er).
Qed.

Lemma cleanupSQL_typed t locked limit db : tables_typed db -> tables_typed (cleanupSQL t locked limit db).2.
Proof.
  intros [Hf Hr Hk]. split; simpl; [done| |]; intros d.
  - intros r. rewrite lookup_foldr_delete. case_decide; [done|]. apply Hr.
  - rewrite lookup_foldr_delete. case_decide; [by intros [? ?]|]. apply Hk.
Qed.

(** A query leaves the tables as they were, or as its statement does. *)
Lemma QueryRow_tables {A} net (stmt : Statement A) db :
  (QueryRow net stmt db).2 = db \/ (QueryRow net stmt db).2 = (stmt db).2.
Proof. unfold QueryRow. destruct net; [destruct (stmt db) as [[[]|] ]|..]; simpl; auto. Qed.

Lemma query_typed {A} net p (stmt : Statement A) db :
  tables_typed db -> (text_ok p = true -> tables_typed (stmt db).2) ->
  tables_typed (QueryRow net (with_text p stmt) db).2.
Proof.
  intros Hty Hs. destruct (QueryRow_tables net (with_text p stmt) db) as [-> | ->]; [done|].
  unfold with_text. destruct (text_ok p); [by apply Hs|done].
Qed.

Lemma validate_owner ctxErr key own token ttl :
  validate ctxErr key own token ttl = None -> 0 < len own <= 128.
Proof.
  unfold validate. intros H. destruct ctxErr; [done|].
  repeat (step_case_in H; [done|]). bool_split. split; [by apply len_pos|done].
Qed.

Lemma perform_typed x c db : tables_typed db -> tables_typed (perform x c db).2.
Proof.
  intros Hty. destruct c as [key own ttl|owned ttl|owned|owned]; simpl.
  - unfold TryAcquire. destruct (validate _ _ _ _ _) eqn:Ev; [done|]. apply validate_owner in Ev.
    pose proof (query_typed (net x) own (acquireSQL (clock x) (digest key) own (Milliseconds ttl)) db Hty
      (acquireSQL_typed _ _ _ _ _ Hty Ev)) as H.
    destruct (QueryRow _ _ _) as [[[[[tok a] e] out]|] db']; [|done]. simpl in H. by repeat (case_match; simplify_eq/=).
  - unfold Renew. destruct (validate _ _ _ _ _); [done|].
    pose proof (query_typed (net x) (r_Owner owned) (renewSQL (clock x) (digest (r_Key owned)) (r_Owner owned)
      (r_Token owned) (Milliseconds ttl)) db Hty (fun _ => renewSQL_typed _ _ _ _ _ _ Hty)) as H.
    destruct (QueryRow _ _ _) as [q db']. simpl in H. by repeat (case_match; simplify_eq/=).
  - unfold Validate. destruct (validate _ _ _ _ _); [done|].
    pose proof (query_typed (net x) (r_Owner owned) (validateSQL (clock x) (digest (r_Key owned)) (r_Owner owned)
      (r_Token owned)) db Hty (fun _ => Hty)) as H.
    destruct (QueryRow _ _ _) as [q db']. simpl in H. by repeat (case_match; simplify_eq/=).
  - unfold Release. destruct (validate _ _ _ _ _); [done|].
    pose proof (query_typed (net x) (r_Owner owned) (releaseSQL (clock x) (digest (r_Key owned)) (r_Owner owned)
      (r_Token owned)) db Hty (fun _ => releaseSQL_typed _ _ _ _ _ Hty)) as H.
    destruct (QueryRow _ _ _) as [q db']. simpl in H. by repeat (case_match; simplify_eq/=).
Qed.

Lemma Cleanup_typed x locked batch db : tables_typed db -> tables_typed (Cleanup x locked batch db).2.
Proof.
  intros Hty. unfold Cleanup. destruct (ctxBefore x); [done|]. step_case; [done|].
  assert (H : tables_typed (QueryRow (net x) (cleanupSQL (clock x) locked batch) db).2).
  { destruct (QueryRow_tables (net x) (cleanupSQL (clock x) locked batch) db) as [-> | ->]; [done|].
    by apply cleanupSQL_typed. }
  destruct (QueryRow _ _ _) as [q db']. simpl in H. by repeat (case_match; simplify_eq/=).
Qed.

Lemma empty_typed : tables_typed (MkTables ∅ ∅).
Proof. split; simpl; [apply map_Forall_empty..|]. intros d [? H]. by rewrite lookup_empty in H. Qed.

(** ** Reversibility *)

(** A schema in which the migration can run: the four names are free and nothing
    depends on them. *)
Definition migration_names : list string :=
  ["lease_fences"; "lease_records"; "lease_records_expiry_idx"; "lease_records_cleanup_idx"].
Definition unrelated (cat : catalog) : Prop :=
  Forall (fun n => cat !! n = None) migration_names /\
  map_Forall (fun _ o => Forall (fun n => n ∉ refers o) migration_names) cat.

Definition fences_table : object := Table fences_columns [].
Definition records_table : object := Table records_columns [Later "expires_at" "acquired_at"].
Definition migrated (cat : catalog) : catalog :=
  <["lease_records_cleanup_idx" := Index "lease_records"]>
    (<["lease_records_expiry_idx" := Index "lease_records"]>
      (<["lease_records" := records_table]> (<["lease_fences" := fences_table]> cat))).

Lemma free_name {A} (m : gmap string A) n : m !! n = None -> bool_decide (is_Some (m !! n)) = false.
Proof. intros ->. apply bool_decide_eq_false_2. by intros [? ?]. Qed.

Lemma up_runs cat : unrelated cat -> exec_script cat up_ddl = Some (migrated cat).
Proof.
  intros [Hn _]. repeat apply List.Forall_cons_iff in Hn as [? Hn].
  unfold up_ddl. cbn [exec_script exec_ddl].
  rewrite free_name by done. simpl. rewrite free_name by (by simplify_map_eq).
  unfold is_table, has_column. simplify_map_eq. rewrite free_name by (by simplify_map_eq).
  simplify_map_eq. rewrite free_name by (by simplify_map_eq). by simplify_map_eq.
Qed.

Lemma drop_runs cat n :
  is_table cat n = true -> map_Forall (fun m o => m = n \/ foreign_key n o = false) cat ->
  exec_ddl cat (DropTable n) = Some (filter (fun p : string * object => p.1 <> n /\ p.2 <> Index n) cat).
Proof. intros Ht Hf. simpl. rewrite Ht. simpl. by rewrite bool_decide_eq_true_2. Qed.

(** Nothing of the schema depends on a table of the migration. *)
Lemma unrelated_object cat m o n :
  unrelated cat -> cat !! m = Some o -> In n migration_names ->
  m <> n /\ foreign_key n o = false /\ o <> Index n.
Proof.
  intros [Hn Hr] Hm Hin. rewrite List.Forall_forall in Hn. specialize (Hn n Hin).
  pose proof (Hr _ _ Hm) as Ho. simpl in Ho. rewrite List.Forall_forall in Ho. specialize (Ho n Hin).
  split_and!; [by intros ->; congruence| |].
  - unfold foreign_key. destruct o as [cols checks|]; [|done].
    apply not_true_iff_false. intros H. apply existsb_exists in H as (n' & Hn' & He).
    apply String.eqb_eq in He as <-. by apply Ho, list_elem_of_In.
  - intros ->. apply Ho. simpl. by left.
Qed.

(** The catalog between the two [DROP]s, and after them. *)
Lemma filter_migrated cat :
  unrelated cat ->
  filter (fun p : string * object => p.1 <> "lease_records" /\ p.2 <> Index "lease_records") (migrated cat) =
  <["lease_fences" := fences_table]> cat.
Proof.
  intros Hu. pose proof Hu as [Hn _]. repeat apply List.Forall_cons_iff in Hn as [? Hn]. unfold migrated.
  do 3 (rewrite map_filter_insert_False, delete_id by first [by intros [? []] | by intros [[] ?] | by simplify_map_eq]).
  apply map_filter_id. intros m o Hm. simpl.
  destruct (decide (m = "lease_fences")) as [->|Hne]; simplify_map_eq; [done|].
  by destruct (unrelated_object cat m o "lease_records" Hu Hm) as (? & _ & ?); [right; left|].
Qed.

Lemma filter_fences cat :
  unrelated cat ->
  filter (fun p : string * object => p.1 <> "lease_fences" /\ p.2 <> Index "lease_fences")
    (<["lease_fences" := fences_table]> cat) = cat.
Proof.
  intros Hu. pose proof Hu as [Hn _]. apply List.Forall_cons_iff in Hn as [? _].
  rewrite map_filter_insert_False, delete_id by first [by intros [[] ?] | done].
  apply map_filter_id. intros m o Hm. simpl.
  by destruct (unrelated_object cat m o "lease_fences" Hu Hm) as (? & _ & ?); [left|].
Qed.

Lemma down_runs cat : unrelated cat -> exec_script (migrated cat) down_ddl = Some cat.
Proof.
  intros Hu. unfold down_ddl. cbn [exec_script]. rewrite drop_runs.
  - cbn [mbind option_bind]. rewrite filter_migrated by done. rewrite drop_runs.
    + cbn [mbind option_bind]. by rewrite filter_fences.
    + unfold is_table. by simplify_map_eq.
    + apply map_Forall_insert_2; [by left|]. intros m o Hm. right.
      by apply (unrelated_object cat m o "lease_fences" Hu Hm); left.
  - unfold is_table, migrated. by simplify_map_eq.
  - unfold migrated. repeat (apply map_Forall_insert_2; [by auto|]). intros m o Hm. right.
    by apply (unrelated_object cat m o "lease_records" Hu Hm); right; left.
Qed.

(** ** Properties *)

(** C31: the DDL of the migration is reversible: in every schema context where its four
    names are free and nothing refers to them, [Up] (whose text is the printed
    statements) creates exactly the two tables and the two indexes, and [Down] then
    gives back the catalog it started from. *)
Theorem migration_reversible cat :
  unrelated cat ->
  mg_Up SchemaMigration = print_script up_ddl /\ mg_Down SchemaMigration = print_script down_ddl /\
  exec_script cat up_ddl = Some (migrated cat) /\ exec_script (migrated cat) down_ddl = Some cat.
Proof.
  intros Hu. split; [apply migration_printed|]. split; [apply migration_printed|].
  split; [by apply up_runs|by apply down_runs].
Qed.

(** A schema with a table and an index of another migration. *)
Definition other_catalog : catalog :=
  list_to_map [("jobs", Table [key_digest_column None] []); ("jobs_idx", Index "jobs")].

Lemma migration_reversible_witness :
  (exec_script other_catalog up_ddl ≫= fun cat => exec_script cat down_ddl) = Some other_catalog.
Proof.
  destruct (migration_reversible other_catalog) as (_ & _ & Hup & Hdown).
  - split; [repeat constructor|].
    repeat apply map_Forall_insert_2; try apply map_Forall_empty; repeat constructor; vm_compute; set_solver.
  - rewrite Hup. exact Hdown.
Defined.

(** C30: the statements respect the declared types. On a database that satisfies every
    constraint of the migration (column types and ranges, [NOT NULL], the checks,
    unique primary keys, the foreign key), every method call, with any arguments, under
    any transport fate and any clock readings, leaves a database that satisfies them,
    and so does every cleanup; the empty tables satisfy them. *)
Theorem schema_preserved x c locked batch db :
  schema_ok (relations db) up_ddl ->
  schema_ok (relations (perform x c db).2) up_ddl /\
  schema_ok (relations (Cleanup x locked batch db).2) up_ddl /\
  schema_ok (relations (MkTables ∅ ∅)) up_ddl.
Proof.
  rewrite !schema_typed. intros Hty.
  split; [by apply perform_typed|]. split; [by apply Cleanup_typed|]. exact empty_typed.
Qed.

Lemma schema_preserved_witness :
  let p := perform calm acquire0 db0 in
  p.1 = Replied (MkRecord (MkKey "jobs/nightly") "worker-1" 1 5000 (6000 + 30 * Second)) /\
  schema_ok (relations p.2) up_ddl.
Proof.
  cbv zeta. split; [by vm_compute|].
  exact (proj1 (schema_preserved calm acquire0 ∅ 1 db0 (proj2 (schema_typed db0) empty_typed))).
Defined.
