(* ===== verification/PostgresServing.v ===== *)
(** * The PostgreSQL store serves

    When a query is sent and answered, the store of postgres/store.go grants a free
    key, recognises the holder and refuses everybody else: [Postgres] satisfies the
    interface of [Serving]. *)

From S2P Require Import Prelude GoBase GoStrings Errors LeaseKey Backend Serving Native Postgres.
#[local] Open Scope string_scope.
#[local] Open Scope Z_scope.

Lemma pg_input_valid key own token ttl :
  KeyString key <> "" -> owner_ok own -> 0 < token <= int64_max -> Millisecond <= ttl ->
  validate None key own token ttl = None.
Proof.
  intros Hk [[Ho1 Ho2] _] Ht Hd. unfold validate. apply String.eqb_neq in Hk. rewrite Hk.
  apply len_pos, String.eqb_neq in Ho1. rewrite Ho1. unfold int64_max in Ht.
  destruct (Z.ltb_spec 128 (len own)), (Z.eqb_spec token 0), (Z.ltb_spec 9223372036854775807 token),
    (Z.ltb_spec ttl Millisecond); lia || done.
Qed.

Lemma pg_record_valid r ttl :
  record_ok r -> Millisecond <= ttl -> validate None (r_Key r) (r_Owner r) (r_Token r) ttl = None.
Proof. intros (Hk & Ho & Ht) Hd. by apply pg_input_valid. Qed.

Lemma ms_interval_min ttl : Millisecond <= ttl -> Millisecond <= ms_interval (Milliseconds ttl).
Proof. intros H. pose proof (milliseconds_bound ttl H) as [Hp _]. unfold ms_interval, Millisecond in *. lia. Qed.

Section Serving.
Variable K : gset string.
Hypothesis digests_distinct : forall k k',
  k ∈ K -> k' ∈ K -> digest (MkKey k) = digest (MkKey k') -> k = k'.

(** A query with a live context that is sent and answered by [fin], every reading of
    the server clock included. *)
Definition postgres_serves (now fin : Time) (c : call) (db : tables) (r : reply) (db' : tables) : Prop :=
  now <= fin /\ call_key c ∈ K /\
  exists x, env_ok now c x /\ ctxBefore x = None /\ net x = Delivered /\
    t_expires (clock x) <= fin /\ perform x c db = (r, db').

(** The fences left in the key's row of [lease_fences]. *)
Definition postgres_room (n : nat) (db : tables) (k : string) : Prop :=
  fence (postgres_view K db k) + Z.of_nat n <= bigint_max.

Lemma fence_at_nonneg db d : tables_wf db -> 0 <= fence_at db d.
Proof.
  intros [Hf _]. unfold fence_at. destruct (lease_fences db !! d) eqn:E; simpl; [|lia].
  apply Hf in E. lia.
Qed.

(** The four methods on an answered query. *)
Lemma queried_acquire now x key own ttl db :
  let d := digest key in
  let k := MkKeyState (fence_at db d) (holder_at db (KeyString key) d) in
  let run := perform x (CallTryAcquire key own ttl) db in
  tables_wf db -> call_ok (CallTryAcquire key own ttl) -> env_ok now (CallTryAcquire key own ttl) x ->
  ctxBefore x = None -> net x = Delivered -> fence_at db d < bigint_max ->
  (lingers postgres_granularity now k /\ exists db',
     run = (Failed (WrapS ErrContended "postgres acquire"), db') /\ fence_at db' d = fence_at db d + 1) \/
  (~ live now k /\ exists db', fence_at db' d = fence_at db d + 1 /\
     run = (Replied (MkRecord key own (fence_at db d + 1) (t_acquired (clock x))
              (t_expires (clock x) + ms_interval (Milliseconds ttl))), db')).
Proof.
  intros d k run Hwf (Hk & Ho & Hd) [Hclk _] Hctx Hnet Hf. subst run k d. simpl. unfold TryAcquire.
  rewrite Hctx, pg_input_valid, QueryRow_text, Hnet by (done || apply Ho || unfold int64_max; lia). unfold QueryRow.
  pose proof (fence_at_nonneg db (digest key) Hwf).
  destruct (acquireSQL_cases now (clock x) key own ttl db Hwf Hclk Hd)
    as [(Hx & _)|[(u & db' & -> & Hlg & _ & _ & Hf' & _)
      |(a & e & db' & -> & Hnl & -> & -> & Hae & _ & _ & _ & _ & Hf' & _)]]; [lia|..]; simpl.
  - left. split; [done|]. by exists db'.
  - right. split; [done|]. exists db'. split; [done|]. unfold recordFromValues, After.
    destruct (Z.leb_spec (fence_at db (digest key) + 1) 0); [lia|].
    apply Z.ltb_lt in Hae. by rewrite Hae.
Qed.

Lemma queried_renew now x owned ttl db :
  let d := digest (r_Key owned) in
  let k := MkKeyState (fence_at db d) (holder_at db (KeyString (r_Key owned)) d) in
  let run := perform x (CallRenew owned ttl) db in
  tables_wf db -> call_ok (CallRenew owned ttl) -> env_ok now (CallRenew owned ttl) x ->
  ctxBefore x = None -> net x = Delivered ->
  (~ current now owned k /\ run = (Failed (WrapS ErrStaleOwner "postgres renew"), db)) \/
  (exists r rec db', run = (r, db') /\ holder k = Some rec /\ matches owned rec /\
     fence_at db' d = fence_at db d /\
     (r_AcquiredAt rec < t_expires (clock x) + ms_interval (Milliseconds ttl) ->
      r = Replied (MkRecord (r_Key owned) (r_Owner owned) (r_Token owned) (r_AcquiredAt rec)
                     (t_expires (clock x) + ms_interval (Milliseconds ttl))))).
Proof.
  intros d k run Hwf [Hr Hd] [Hclk _] Hctx Hnet. subst run k d. simpl. unfold Renew.
  rewrite Hctx, pg_record_valid, QueryRow_text, Hnet by (done || apply Hr). unfold QueryRow, renewSQL.
  destruct (selected_cases now (clock x) owned db Hclk) as [[-> Hnc]|(r & -> & Hrow & Ho & Ht & Ha & Hl & Hh)].
  - left. split; [done|]. done.
  - right. simpl in Hh. destruct (Z.leb_spec (t_expires (clock x) + ms_interval (Milliseconds ttl)) (acquired_at r)) as [Hle|Hgt];
      simpl.
    + apply Z.leb_le in Hle as Hle'. rewrite Hle'. simpl. eexists _, _, _. split; [done|].
      split_and!; [done|done|done|]. simpl. lia.
    + apply Z.leb_gt in Hgt as Hgt'. rewrite Hgt'. rewrite (scan_row _ _ _ _ _ Hwf Hrow) by done. simpl.
      rewrite Z.eqb_refl. simpl. eexists _, _, _. by split_and!.
Qed.

Lemma queried_validate now x owned db :
  let d := digest (r_Key owned) in
  let k := MkKeyState (fence_at db d) (holder_at db (KeyString (r_Key owned)) d) in
  let run := perform x (CallValidate owned) db in
  tables_wf db -> call_ok (CallValidate owned) -> env_ok now (CallValidate owned) x ->
  ctxBefore x = None -> net x = Delivered ->
  (~ current now owned k /\ run = (Failed (WrapS ErrStaleOwner "postgres validate"), db)) \/
  (exists rec, run = (Replied rec, db) /\ holder k = Some rec /\ matches owned rec).
Proof.
  intros d k run Hwf Hr [Hclk _] Hctx Hnet. subst run k d. simpl. unfold Validate.
  rewrite Hctx, pg_record_valid, QueryRow_text, Hnet by (done || apply Hr). unfold QueryRow, validateSQL.
  destruct (selected_cases now (clock x) owned db Hclk) as [[-> Hnc]|(r & -> & Hrow & Ho & Ht & Ha & Hl & Hh)].
  - left. split; [done|]. done.
  - right. destruct (row_wf _ _ _ Hwf Hrow) as (_ & Hae & _). cbn [fmap option_fmap option_map].
    rewrite (scan_row _ _ _ _ _ Hwf Hrow) by done. simpl. rewrite Z.eqb_refl. simpl.
    eexists. by split_and!.
Qed.

Lemma queried_release now x owned db :
  let d := digest (r_Key owned) in
  let k := MkKeyState (fence_at db d) (holder_at db (KeyString (r_Key owned)) d) in
  let run := perform x (CallRelease owned) db in
  tables_wf db -> call_ok (CallRelease owned) -> ctxBefore x = None -> net x = Delivered ->
  (~ live now k /\ run = (Acknowledged, db)) \/
  (~ held_by owned k /\ run = (Failed (WrapS ErrStaleOwner "postgres release"), db) /\
     exists r, lease_records db !! d = Some r /\ ~ (owner r = r_Owner owned /\ fencing_token r = r_Token owned)) \/
  (held_by owned k /\ exists r db', run = (Acknowledged, db') /\ fence_at db' d = fence_at db d /\
     tables_wf db' /\ lease_records db' !! d = Some r /\ owner r = r_Owner owned /\
     fencing_token r = r_Token owned /\ active r = false).
Proof.
  intros d k run Hwf Hr Hctx Hnet. subst run k d. simpl. unfold Release.
  rewrite Hctx, pg_record_valid, QueryRow_text, Hnet by (done || apply Hr). unfold QueryRow.
  destruct (releaseSQL_cases now (clock x) owned db Hwf)
    as [(-> & Hnl & _)|[(-> & Hn & Hrow)|(r & db' & -> & Hwf' & _ & Hf & _ & Hheld & Hrow)]]; simpl.
  - by left.
  - right. by left.
  - right. right. split; [done|]. by exists r, db'.
Qed.

Lemma postgres_serves_reply now fin c db r db' n :
  tables_wf db -> call_ok c -> postgres_room (S n) db (call_key c) -> postgres_serves now fin c db r db' ->
  served postgres_granularity now fin c r (postgres_view K db (call_key c)).
Proof.
  intros Hwf Hok Hroom (Hfin & Hk & x & Hx & Hctx & Hnet & Hlate & H). unfold postgres_room in Hroom.
  pose proof (eo_clock _ _ _ Hx) as [Hr1 Hr2 Hr3].
  destruct c as [key own ttl|owned ttl|owned|owned]; simpl in Hk, Hroom |- *;
    rewrite (view_in _ _ _ Hk) in *; simpl in Hroom.
  - pose proof (fence_at_nonneg db (digest key) Hwf).
    destruct (queried_acquire now x key own ttl db) as [(Hlg & db1 & E & _)|(Hnl & db1 & _ & E)];
      try done; [lia|..]; rewrite E in H; simplify_eq/=.
    + split; [intros _; by eexists|]. intros Hn. by destruct Hn.
    + split; [done|]. intros _. eexists. split; [done|]. simpl. destruct Hok as (_ & _ & Hd).
      pose proof (milliseconds_bound ttl Hd). unfold bigint_max, int64_max in *. lia.
  - destruct (queried_renew now x owned ttl db) as [[Hn E]|(r1 & rec & db1 & E & Hh & Hm & _ & Hr)];
      try done; rewrite E in H; simplify_eq/=.
    + split; [intros Hp; destruct Hn; by apply presents_current|]. intros _. by eexists.
    + destruct Hok as [_ Hd]. pose proof (milliseconds_bound ttl Hd). pose proof (ms_interval_min ttl Hd). split.
      * intros (r0 & Hr0 & _ & _ & Ha & _). simpl in Hr0. rewrite Hh in Hr0. simplify_eq/=.
        unfold Microsecond, Millisecond in *.
        eexists. split; [apply Hr; lia|]. simpl. lia.
      * intros Hn. destruct Hn. by eexists.
  - destruct (queried_validate now x owned db) as [[Hn E]|(rec & E & Hh & Hm)];
      try done; rewrite E in H; simplify_eq/=.
    + split; [intros Hp; destruct Hn; by apply presents_current|]. intros _. by eexists.
    + split; [intros _; by eexists|]. intros Hn. destruct Hn. by eexists.
  - destruct (queried_release now x owned db) as [[Hn E]|[(Hn & E & _)|(Hh & r1 & db1 & E & _)]];
      try done; rewrite E in H; simplify_eq/=.
    + split; [done|]. by intros Hl'.
    + split; [intros Hp; destruct Hn; by eapply current_held, presents_current|]. intros _ _. by eexists.
    + split; [done|]. by intros _ Hn.
Qed.

Lemma postgres_serves_room now fin c db r db' n :
  tables_wf db -> call_ok c -> postgres_room (S n) db (call_key c) -> postgres_serves now fin c db r db' ->
  postgres_room n db' (call_key c).
Proof.
  intros Hwf Hok Hroom (_ & Hk & x & Hx & Hctx & Hnet & _ & H). unfold postgres_room in *.
  destruct c as [key own ttl|owned ttl|owned|owned]; simpl in Hk, Hroom |- *;
    rewrite (view_in _ _ _ Hk) in Hroom; rewrite (view_in _ _ _ Hk); simpl in Hroom |- *.
  - destruct (queried_acquire now x key own ttl db) as [(_ & db1 & E & Hf)|(_ & db1 & Hf & E)];
      try done; [lia|..]; rewrite E in H; simplify_eq/=; lia.
  - destruct (queried_renew now x owned ttl db) as [[_ E]|(r1 & rec & db1 & E & _ & _ & Hf & _)];
      try done; rewrite E in H; simplify_eq/=; lia.
  - destruct (queried_validate now x owned db) as [[_ E]|(rec & E & _)];
      try done; rewrite E in H; simplify_eq/=; lia.
  - destruct (queried_release now x owned db) as [[_ E]|[(_ & E & _)|(_ & r1 & db1 & E & Hf & _)]];
      try done; rewrite E in H; simplify_eq/=; lia.
Qed.

Lemma postgres_serves_released now fin now' fin' owned db db1 r db2 :
  tables_wf db -> record_ok owned -> presents now owned (postgres_view K db (KeyString (r_Key owned))) ->
  postgres_serves now fin (CallRelease owned) db Acknowledged db1 ->
  postgres_serves now' fin' (CallRelease owned) db1 r db2 -> r = Acknowledged.
Proof.
  intros Hwf Hok Hp (_ & Hk & x & _ & Hctx & Hnet & _ & H) (_ & _ & x' & _ & Hctx' & Hnet' & _ & H').
  simpl in Hk. rewrite (view_in _ _ _ Hk) in Hp.
  destruct (queried_release now x owned db)
    as [[Hn E]|[(Hn & E & _)|(Hh & r1 & db' & E & _ & Hwf' & Hr1 & Ho & Ht & _)]];
    try done; rewrite E in H; simplify_eq; [destruct Hn; by eapply presents_live|].
  destruct (queried_release now' x' owned db1) as [[_ E']|[(_ & _ & r2 & Hr2 & Hne)|(_ & r2 & db' & E' & _)]];
    try done; [rewrite E' in H'; by simplify_eq| |rewrite E' in H'; by simplify_eq].
  rewrite Hr1 in Hr2. simplify_eq. by destruct Hne.
Qed.

Program Definition postgres_serving : @ServingBackend tables (postgres_backend K digests_distinct) := {|
  room := postgres_room;
  serves := postgres_serves
|}.
Next Obligation. intros n db k. unfold postgres_room. lia. Qed.
Next Obligation. by intros now fin c v r v' [H _]. Qed.
Next Obligation. intros now fin c v r v' (_ & Hk & x & Hx & _ & _ & _ & H). split; [done|]. by exists x. Qed.
Next Obligation. apply postgres_serves_reply. Qed.
Next Obligation. apply postgres_serves_room. Qed.
Next Obligation. apply postgres_serves_released. Qed.
End Serving.
