(* ===== verification/Memory.v ===== *)
(** * memory/store.go: the process-local reference backend

    Every method runs under the store mutex, so one method is one atomic function
    on the store; the reading of the injected clock and the value of [ctx.Err()]
    are arguments. The clock reading is arbitrary: forward jumps and rollbacks are
    covered. *)

From S2P Require Import Prelude GoBase GoStrings Errors LeaseKey Backend.

(** [entry]. *)
Record entry := MkEntry { e_record : LeaseRecord; e_active : bool }.

(** [Store], less the mutex and the clock. *)
Record Store := MkStore { maxKeys : Z; entries : gmap string entry }.

(** The map's zero value for an absent key. *)
Definition zero_entry : entry := MkEntry zero_record false.

Definition set_entry (key : Key) (e : entry) (s : Store) : Store :=
  MkStore (maxKeys s) (<[KeyString key := e]> (entries s)).

(** [New]; [clock] says whether a clock was supplied. *)
Definition New (clock : bool) (MaxKeys : Z) : res Store :=
  if negb clock || (MaxKeys =? 0)
  then Err (Errorf "" (Sentinel ErrInvalidState) ": invalid memory options")
  else Ok (MkStore MaxKeys ∅).

(** [validateIdentity]. *)
Definition validateIdentity (ctxErr : err_opt) (key : Key) (owner : string) (token : Z) : err_opt :=
  match ctxErr with
  | Some _ => Some (WrapS ErrCanceled "context")
  | None =>
      if String.eqb (KeyString key) "" || String.eqb owner "" || (128 <? len owner) || (token =? 0)
      then Some (WrapS ErrInvalidState "identity")
      else None
  end.

(** [validate]. *)
Definition validate (ctxErr : err_opt) (key : Key) (owner : string) (ttl : Duration) : err_opt :=
  match validateIdentity ctxErr key owner 1 with
  | Some err => Some err
  | None => if ttl <=? 0 then Some (WrapS ErrInvalidState "duration") else None
  end.

(** [sameOwner]. *)
Definition sameOwner (current candidate : LeaseRecord) : bool :=
  String.eqb (r_Owner current) (r_Owner candidate) && (r_Token current =? r_Token candidate).

(** [TryAcquire]. *)
Definition TryAcquire (ctxErr : err_opt) (now : Time) (key : Key) (owner : string)
    (ttl : Duration) (s : Store) : res LeaseRecord * Store :=
  match validate ctxErr key owner ttl with
  | Some err => (Err err, s)
  | None =>
      let found := entries s !! KeyString key in
      let exists_ := if found is Some _ then true else false in
      let current := default zero_entry found in
      if exists_ && e_active current && Before now (r_ExpiresAt (e_record current))
      then (Err (WrapS ErrContended "try acquire"), s)
      else if negb exists_ && (maxKeys s <=? wrapu32 (Z.of_nat (size (entries s))))
      then (Err (WrapS ErrBackendUnavailable "key capacity"), s)
      else if r_Token (e_record current) =? uint64_max
      then (Err (WrapS ErrBackendUnavailable "token exhausted"), s)
      else
        let record := MkRecord key owner (wrapu64 (r_Token (e_record current) + 1))
                        now (Add now ttl) in
        (Ok record, set_entry key (MkEntry record true) s)
  end.

Definition with_expiry (r : LeaseRecord) (t : Time) : LeaseRecord :=
  MkRecord (r_Key r) (r_Owner r) (r_Token r) (r_AcquiredAt r) t.

(** [Renew]. *)
Definition Renew (ctxErr : err_opt) (now : Time) (owned : LeaseRecord) (ttl : Duration)
    (s : Store) : res LeaseRecord * Store :=
  match validate ctxErr (r_Key owned) (r_Owner owned) ttl with
  | Some err => (Err err, s)
  | None =>
      if r_Token owned =? 0 then (Err (WrapS ErrInvalidState "renew"), s)
      else match entries s !! KeyString (r_Key owned) with
      | None => (Err (WrapS ErrStaleOwner "renew"), s)
      | Some current =>
          if negb (e_active current) then (Err (WrapS ErrStaleOwner "renew"), s)
          else if negb (sameOwner (e_record current) owned)
          then (Err (WrapS ErrStaleOwner "renew"), s)
          else if negb (Before now (r_ExpiresAt (e_record current)))
          then (Err (WrapS ErrStaleOwner "renew"), s)
          else
            let record := with_expiry (e_record current) (Add now ttl) in
            (Ok record, set_entry (r_Key owned) (MkEntry record (e_active current)) s)
      end
  end.

(** [Validate]. *)
Definition Validate (ctxErr : err_opt) (now : Time) (owned : LeaseRecord) (s : Store) :
    res LeaseRecord * Store :=
  match validateIdentity ctxErr (r_Key owned) (r_Owner owned) (r_Token owned) with
  | Some err => (Err err, s)
  | None =>
      match entries s !! KeyString (r_Key owned) with
      | None => (Err (WrapS ErrStaleOwner "validate"), s)
      | Some current =>
          if negb (e_active current) then (Err (WrapS ErrStaleOwner "validate"), s)
          else if negb (sameOwner (e_record current) owned)
          then (Err (WrapS ErrStaleOwner "validate"), s)
          else if negb (Before now (r_ExpiresAt (e_record current)))
          then (Err (WrapS ErrStaleOwner "validate"), s)
          else (Ok (e_record current), s)
      end
  end.

(** [Release]. *)
Definition Release (ctxErr : err_opt) (owned : LeaseRecord) (s : Store) : err_opt * Store :=
  match validateIdentity ctxErr (r_Key owned) (r_Owner owned) (r_Token owned) with
  | Some err => (Some err, s)
  | None =>
      match entries s !! KeyString (r_Key owned) with
      | None => (Some (WrapS ErrStaleOwner "release"), s)
      | Some current =>
          if negb (e_active current)
          then if sameOwner (e_record current) owned then (None, s)
               else (Some (WrapS ErrStaleOwner "release"), s)
          else if negb (sameOwner (e_record current) owned)
          then (Some (WrapS ErrStaleOwner "release"), s)
          else (None, set_entry (r_Key owned) (MkEntry (e_record current) false) s)
      end
  end.

(** One method call on the store, as the [Backend] interface presents it. *)
Definition perform (ctxErr : err_opt) (now : Time) (c : call) (s : Store) : reply * Store :=
  match c with
  | CallTryAcquire key owner ttl =>
      let '(r, s') := TryAcquire ctxErr now key owner ttl s in (reply_of r, s')
  | CallRenew owned ttl =>
      let '(r, s') := Renew ctxErr now owned ttl s in (reply_of r, s')
  | CallValidate owned =>
      let '(r, s') := Validate ctxErr now owned s in (reply_of r, s')
  | CallRelease owned =>
      let '(e, s') := Release ctxErr owned s in (ack_of e, s')
  end.

(** ** Invariant and abstraction *)

(** Every entry is filed under its own key with an admissible owner and a nonzero
    uint64 fence; the configured capacity bounds the number of keys. *)
Definition entry_wf (k : string) (e : entry) : Prop :=
  KeyString (r_Key (e_record e)) = k /\ k <> "" /\
  0 < len (r_Owner (e_record e)) <= 128 /\ 0 < r_Token (e_record e) <= uint64_max.

Record store_wf (s : Store) : Prop := {
  wf_entries : map_Forall entry_wf (entries s);
  wf_size : Z.of_nat (size (entries s)) <= maxKeys s;
  wf_max : 0 < maxKeys s <= uint32_max
}.

(** The abstract state of one key: the retained fence, and the record while the
    entry is active. *)
Definition view (s : Store) (k : string) : key_state :=
  match entries s !! k with
  | None => MkKeyState 0 None
  | Some e => MkKeyState (r_Token (e_record e))
                (if e_active e then Some (e_record e) else None)
  end.

(** ** Lemmas *)

Lemma set_entry_view key e s :
  view (set_entry key e s) (KeyString key) =
  MkKeyState (r_Token (e_record e)) (if e_active e then Some (e_record e) else None).
Proof. unfold view, set_entry. simpl. by rewrite lookup_insert_eq. Qed.

Lemma set_entry_frame key e s k :
  k <> KeyString key -> view (set_entry key e s) k = view s k.
Proof. intros H. unfold view, set_entry. simpl. by rewrite lookup_insert_ne. Qed.

Lemma set_entry_wf key e s :
  store_wf s -> entry_wf (KeyString key) e ->
  (is_Some (entries s !! KeyString key) \/ Z.of_nat (size (entries s)) < maxKeys s) ->
  store_wf (set_entry key e s).
Proof.
  intros [He Hs Hm] Hwf Hroom. split; simpl; [by apply map_Forall_insert_2| |done].
  destruct (entries s !! KeyString key) eqn:E.
  - rewrite map_size_insert_Some; done.
  - rewrite map_size_insert_None by done.
    destruct Hroom as [[? ?]|?]; [done|lia].
Qed.

Lemma sameOwner_true a b : sameOwner a b = true <-> matches b a.
Proof.
  unfold sameOwner, matches. rewrite andb_true_iff, String.eqb_eq, Z.eqb_eq. done.
Qed.

Lemma sameOwner_false a b : sameOwner a b = false -> ~ matches b a.
Proof. intros H Hm. apply sameOwner_true in Hm. congruence. Qed.

Lemma validateIdentity_None ctxErr key owner token :
  validateIdentity ctxErr key owner token = None ->
  ctxErr = None /\ KeyString key <> "" /\ 0 < len owner <= 128 /\ token <> 0.
Proof.
  unfold validateIdentity. destruct ctxErr; [done|]. intros H. step_case_in H; [done|].
  bool_split. split_and!; try done. by apply len_pos.
Qed.

Lemma validate_None ctxErr key owner t :
  validate ctxErr key owner t = None ->
  ctxErr = None /\ KeyString key <> "" /\ 0 < len owner <= 128 /\ 0 < t.
Proof.
  unfold validate. intros H. destruct (validateIdentity _ _ _ _) eqn:E; [done|].
  apply validateIdentity_None in E as (? & ? & ? & _). step_case_in H; [done|].
  bool_split. done.
Qed.

(** Rejections of the argument checks are definite and are never contention or
    staleness. *)
Definition input_error (e : error) : Prop :=
  definite e = true /\ Is e ErrContended = false /\ Is e ErrStaleOwner = false.

Lemma validateIdentity_Some ctxErr key owner token e :
  validateIdentity ctxErr key owner token = Some e -> input_error e.
Proof.
  unfold validateIdentity. intros H. repeat (step_case_in H; simplify_eq); done.
Qed.

Lemma validate_Some ctxErr key owner t e :
  validate ctxErr key owner t = Some e -> input_error e.
Proof.
  unfold validate. intros H. destruct (validateIdentity _ _ _ _) eqn:E.
  - simplify_eq. by eapply validateIdentity_Some.
  - by step_case_in H; simplify_eq.
Qed.

Lemma view_holder s k r :
  holder (view s k) = Some r <->
  exists e, entries s !! k = Some e /\ e_active e = true /\ e_record e = r.
Proof.
  unfold view. destruct (entries s !! k) as [[rec []]|]; simpl; naive_solver.
Qed.

Ltac not_live := intros (? & ? & ?); simplify_eq/=; lia.

(** The decision table of an acquisition whose arguments are valid. *)
Lemma TryAcquire_table now key owner t s :
  store_wf s -> validate None key owner t = None ->
  let k := view s (KeyString key) in
  let room := is_Some (entries s !! KeyString key) \/ Z.of_nat (size (entries s)) < maxKeys s in
  let record := MkRecord key owner (fence k + 1) now (now + t) in
  (live now k /\
     TryAcquire None now key owner t s = (Err (WrapS ErrContended "try acquire"), s)) \/
  (~ live now k /\ ~ room /\
     TryAcquire None now key owner t s = (Err (WrapS ErrBackendUnavailable "key capacity"), s)) \/
  (~ live now k /\ room /\ fence k = uint64_max /\
     TryAcquire None now key owner t s = (Err (WrapS ErrBackendUnavailable "token exhausted"), s)) \/
  (~ live now k /\ room /\ 0 <= fence k < uint64_max /\
     TryAcquire None now key owner t s = (Ok record, set_entry key (MkEntry record true) s)).
Proof.
  intros [He Hs Hm] Hv k room record. unfold TryAcquire. rewrite Hv.
  assert (Hsz : wrapu32 (Z.of_nat (size (entries s))) = Z.of_nat (size (entries s))).
  { apply wrapu32_id. unfold is_uint32. lia. }
  rewrite Hsz. subst k room record. unfold live, view, Before, Add.
  destruct (entries s !! KeyString key) as [[rec act]|] eqn:E; simpl.
  - apply He in E. destruct E as (_ & _ & _ & Htok). simpl in Htok.
    destruct act; simpl;
      [destruct (Z.ltb_spec now (r_ExpiresAt rec)); [left; split; [by eexists|done]|] |];
      right; right; destruct (Z.eqb_spec (r_Token rec) uint64_max);
      [left | right | left | right]; (split; [not_live|]); (split; [by left; eauto|]);
      try done; (split; [lia|]); rewrite wrapu64_id by (unfold is_uint64; lia); done.
  - right. destruct (Z.leb_spec (maxKeys s) (Z.of_nat (size (entries s)))).
    + left. split; [not_live|]. split; [|done]. intros [[? ?]|?]; [done|lia].
    + right. right. split; [not_live|]. split; [by right|]. done.
Qed.

Lemma perform_TryAcquire_refines ctxErr now key owner t s r s' :
  store_wf s -> TryAcquire ctxErr now key owner t s = (r, s') ->
  store_wf s' /\
  spec_step 0 now (CallTryAcquire key owner t) (reply_of r)
    (view s (KeyString key)) (view s' (KeyString key)) /\
  (forall k, k <> KeyString key -> view s' k = view s k).
Proof.
  intros Hwf H. destruct (validate ctxErr key owner t) as [e|] eqn:Ev.
  { unfold TryAcquire in H. rewrite Ev in H. simplify_eq. apply validate_Some in Ev as (_ & Hc & _).
    split_and!; try done. apply spec_acquire_failed; [auto with lease|simpl; congruence]. }
  pose proof (validate_None _ _ _ _ Ev) as (-> & Hk & Ho & Ht).
  destruct (TryAcquire_table now key owner t s Hwf Ev)
    as [[Hl E]|[(Hl & Hr & E)|[(Hl & Hr & Hf & E)|(Hl & Hr & Hf & E)]]];
    rewrite E in H; injection H as <- <-; simpl;
    try (split_and!; [done| |done]; apply spec_acquire_failed; [auto with lease|done]).
  { split_and!; [done| |done]. apply spec_acquire_failed; [auto with lease|].
    intros _ _. by apply live_lingers. }
  split_and!.
  - apply set_entry_wf; [done| |done]. split_and!; simpl; try done; lia.
  - rewrite set_entry_view. simpl. apply spec_acquired.
    unfold acquire_effect. simpl. split_and!; try done; lia.
  - intros k' Hne. by apply set_entry_frame.
Qed.

(** A stale verdict of the comparison chain shared by [Renew] and [Validate]. *)
Lemma stale_verdict now owned s :
  let k := KeyString (r_Key owned) in
  (exists e, entries s !! k = Some e /\ e_active e = true /\ matches owned (e_record e) /\
     now < r_ExpiresAt (e_record e)) \/ ~ current now owned (view s k).
Proof.
  simpl. unfold current, view. destruct (entries s !! _) as [[rec []]|] eqn:E; simpl;
    [|right; naive_solver|right; naive_solver].
  destruct (sameOwner rec owned) eqn:Es;
    [apply sameOwner_true in Es; destruct (Z.lt_ge_cases now (r_ExpiresAt rec))|].
  - left. naive_solver.
  - right. intros (? & ? & ? & ?). simplify_eq. lia.
  - right. apply sameOwner_false in Es. naive_solver.
Qed.

(** The comparison chain itself. *)
Lemma chain_current {A} now owned s (bad good : A) e :
  entries s !! KeyString (r_Key owned) = Some e -> e_active e = true ->
  matches owned (e_record e) -> now < r_ExpiresAt (e_record e) ->
  (if negb (e_active e) then bad
   else if negb (sameOwner (e_record e) owned) then bad
   else if negb (Before now (r_ExpiresAt (e_record e))) then bad else good) = good.
Proof.
  intros _ -> Hm Hl. apply sameOwner_true in Hm. rewrite Hm. simpl.
  unfold Before. apply Z.ltb_lt in Hl. by rewrite Hl.
Qed.

Lemma chain_stale {A} now owned s (bad good : A) e :
  entries s !! KeyString (r_Key owned) = Some e ->
  ~ current now owned (view s (KeyString (r_Key owned))) ->
  (if negb (e_active e) then bad
   else if negb (sameOwner (e_record e) owned) then bad
   else if negb (Before now (r_ExpiresAt (e_record e))) then bad else good) = bad.
Proof.
  intros E Hc. destruct (e_active e) eqn:Ea; [|done]. simpl.
  destruct (sameOwner (e_record e) owned) eqn:Es; [|done]. simpl.
  unfold Before. destruct (Z.ltb_spec now (r_ExpiresAt (e_record e))); [|done].
  exfalso. apply Hc. exists (e_record e). unfold view. rewrite E, Ea. simpl.
  split_and!; try done; by apply sameOwner_true in Es as [].
Qed.

(** [Renew] and [Validate] in one equation each, valid arguments given. *)
Lemma Renew_cases now owned t s :
  validate None (r_Key owned) (r_Owner owned) t = None -> r_Token owned <> 0 ->
  (~ current now owned (view s (KeyString (r_Key owned))) /\
     Renew None now owned t s = (Err (WrapS ErrStaleOwner "renew"), s)) \/
  (exists e, entries s !! KeyString (r_Key owned) = Some e /\ e_active e = true /\
     matches owned (e_record e) /\ now < r_ExpiresAt (e_record e) /\
     Renew None now owned t s =
       (Ok (with_expiry (e_record e) (now + t)),
        set_entry (r_Key owned) (MkEntry (with_expiry (e_record e) (now + t)) true) s)).
Proof.
  intros Hv Ht. unfold Renew. rewrite Hv. apply Z.eqb_neq in Ht. rewrite Ht.
  destruct (stale_verdict now owned s) as [(e & He & Ha & Hm & Hl)|Hc].
  - right. exists e. rewrite He. erewrite chain_current by done. by rewrite Ha.
  - left. split; [done|]. destruct (entries s !! _) eqn:E; [|done].
    by erewrite chain_stale by done.
Qed.

Lemma Validate_cases now owned s :
  validateIdentity None (r_Key owned) (r_Owner owned) (r_Token owned) = None ->
  (~ current now owned (view s (KeyString (r_Key owned))) /\
     Validate None now owned s = (Err (WrapS ErrStaleOwner "validate"), s)) \/
  (exists e, entries s !! KeyString (r_Key owned) = Some e /\ e_active e = true /\
     matches owned (e_record e) /\ now < r_ExpiresAt (e_record e) /\
     Validate None now owned s = (Ok (e_record e), s)).
Proof.
  intros Hv. unfold Validate. rewrite Hv.
  destruct (stale_verdict now owned s) as [(e & He & Ha & Hm & Hl)|Hc].
  - right. exists e. rewrite He. by erewrite chain_current by done.
  - left. split; [done|]. destruct (entries s !! _) eqn:E; [|done].
    by erewrite chain_stale by done.
Qed.

Lemma Release_cases owned s :
  validateIdentity None (r_Key owned) (r_Owner owned) (r_Token owned) = None ->
  let k := KeyString (r_Key owned) in
  (held_by owned (view s k) /\ exists e, entries s !! k = Some e /\ matches owned (e_record e) /\
     Release None owned s = (None, set_entry (r_Key owned) (MkEntry (e_record e) false) s)) \/
  (~ held_by owned (view s k) /\
     (exists e, entries s !! k = Some e /\ e_active e = false /\ matches owned (e_record e)) /\
     Release None owned s = (None, s)) \/
  (~ held_by owned (view s k) /\
     ~ (exists e, entries s !! k = Some e /\ e_active e = false /\ matches owned (e_record e)) /\
     Release None owned s = (Some (WrapS ErrStaleOwner "release"), s)).
Proof.
  intros Hv. simpl. unfold Release. rewrite Hv. unfold held_by, view.
  destruct (entries s !! _) as [[rec act]|] eqn:E; simpl;
    [|right; right; split_and!; [naive_solver|naive_solver|done]].
  destruct (sameOwner rec owned) eqn:Es;
    [apply sameOwner_true in Es|apply sameOwner_false in Es]; destruct act; simpl.
  - left. naive_solver.
  - right. left. naive_solver.
  - right. right. naive_solver.
  - right. right. naive_solver.
Qed.

Lemma entry_of_wf s k e : store_wf s -> entries s !! k = Some e -> entry_wf k e.
Proof. intros [H _ _] E. by apply H in E. Qed.

Lemma perform_Renew_refines ctxErr now owned t s r s' :
  store_wf s -> Renew ctxErr now owned t s = (r, s') ->
  store_wf s' /\
  spec_step 0 now (CallRenew owned t) (reply_of r)
    (view s (KeyString (r_Key owned))) (view s' (KeyString (r_Key owned))) /\
  (forall k, k <> KeyString (r_Key owned) -> view s' k = view s k).
Proof.
  intros Hwf H. destruct (validate ctxErr (r_Key owned) (r_Owner owned) t) as [err|] eqn:Ev.
  { unfold Renew in H. rewrite Ev in H. simplify_eq. apply validate_Some in Ev as (_ & _ & Hs).
    split_and!; try done. apply spec_renew_failed. congruence. }
  pose proof (validate_None _ _ _ _ Ev) as (-> & Hk & Ho & Ht).
  destruct (decide (r_Token owned = 0)) as [Ht0|Ht0].
  { unfold Renew in H. rewrite Ev, Ht0 in H. simplify_eq/=.
    split_and!; try done. by apply spec_renew_failed. }
  destruct (Renew_cases now owned t s Ev Ht0) as [[Hc E]|(e & He & Ha & Hm & Hl & E)];
    rewrite E in H; injection H as <- <-; simpl.
  { split_and!; try done. by apply spec_renew_failed. }
  pose proof (entry_of_wf _ _ _ Hwf He) as (Hkey & Hrest). split_and!.
  - apply set_entry_wf; [done|split_and!; simpl; by try apply Hrest|eauto].
  - rewrite set_entry_view. simpl. eapply spec_renewed.
    exists (e_record e). unfold view. rewrite He, Ha. simpl.
    destruct Hm. split_and!; done || lia.
  - intros k' Hne. by apply set_entry_frame.
Qed.

Lemma perform_Validate_refines ctxErr now owned s r s' :
  Validate ctxErr now owned s = (r, s') ->
  s' = s /\
  spec_step 0 now (CallValidate owned) (reply_of r)
    (view s (KeyString (r_Key owned))) (view s (KeyString (r_Key owned))).
Proof.
  intros H. destruct (validateIdentity ctxErr (r_Key owned) (r_Owner owned) (r_Token owned))
    as [err|] eqn:Ev.
  { unfold Validate in H. rewrite Ev in H. simplify_eq.
    apply validateIdentity_Some in Ev as (_ & _ & Hs).
    split_and!; try done. apply spec_validate_failed. congruence. }
  pose proof (validateIdentity_None _ _ _ _ Ev) as (-> & _).
  destruct (Validate_cases now owned s Ev) as [[Hc E]|(e & He & Ha & Hm & Hl & E)];
    rewrite E in H; injection H as <- <-; (split; [done|]).
  { by apply spec_validate_failed. }
  apply spec_validated; [|done|lia]. unfold view. by rewrite He, Ha.
Qed.

Lemma perform_Release_refines ctxErr now owned s e s' :
  store_wf s -> Release ctxErr owned s = (e, s') ->
  store_wf s' /\
  spec_step 0 now (CallRelease owned) (ack_of e)
    (view s (KeyString (r_Key owned))) (view s' (KeyString (r_Key owned))) /\
  (forall k, k <> KeyString (r_Key owned) -> view s' k = view s k).
Proof.
  intros Hwf H. destruct (validateIdentity ctxErr (r_Key owned) (r_Owner owned) (r_Token owned))
    as [err|] eqn:Ev.
  { unfold Release in H. rewrite Ev in H. simplify_eq.
    apply validateIdentity_Some in Ev as (_ & _ & Hs).
    split_and!; try done. apply spec_release_failed. congruence. }
  pose proof (validateIdentity_None _ _ _ _ Ev) as (-> & _).
  destruct (Release_cases owned s Ev) as [(Hh & en & He & Hm & E)|[(Hh & _ & E)|(Hh & _ & E)]];
    rewrite E in H; injection H as <- <-; simpl;
    try (split_and!; try done;
         (by apply spec_release_idle; contradict Hh; eauto with lease) || (by apply spec_release_failed)).
  pose proof (entry_of_wf _ _ _ Hwf He) as Hen. split_and!.
  - apply set_entry_wf; [done|exact Hen|eauto].
  - rewrite set_entry_view. apply spec_released. split; [done|]. unfold view. by rewrite He.
  - intros k' Hne. by apply set_entry_frame.
Qed.

Lemma perform_refines ctxErr now c s r s' :
  store_wf s -> perform ctxErr now c s = (r, s') ->
  store_wf s' /\
  spec_step 0 now c r (view s (call_key c)) (view s' (call_key c)) /\
  (forall k, k <> call_key c -> view s' k = view s k).
Proof.
  intros Hwf H. destruct c as [key owner t|owned t|owned|owned]; simpl in *.
  - destruct (TryAcquire _ _ _ _ _ _) eqn:E. simplify_eq. by eapply perform_TryAcquire_refines.
  - destruct (Renew _ _ _ _ _) eqn:E. simplify_eq. by eapply perform_Renew_refines.
  - destruct (Validate _ _ _ _) eqn:E. simplify_eq.
    by apply perform_Validate_refines in E as [-> ?].
  - destruct (Release _ _ _) eqn:E. simplify_eq. by eapply perform_Release_refines.
Qed.

(** ** The memory store is a lease backend *)

#[global] Program Instance memory_backend : LeaseBackend Store := {|
  granularity := 0;
  backend_wf := store_wf;
  backend_call now c s r s' := exists ctxErr, perform ctxErr now c s = (r, s');
  key_view := view
|}.
Next Obligation. done. Qed.
Next Obligation. intros now c s r s' Hwf [x H]. by eapply perform_refines. Qed.
Next Obligation. intros now c s r s' Hwf [x H]. by eapply perform_refines. Qed.
Next Obligation. intros now c s r s' k Hwf [x H] Hk. by eapply perform_refines. Qed.

Lemma New_wf clock max s :
  is_uint32 max -> New clock max = Ok s -> store_wf s.
Proof.
  unfold New. intros Hm H. step_case_in H; [done|]. simplify_eq. bool_split.
  unfold is_uint32 in Hm. split; simpl; [apply map_Forall_empty| |lia].
  rewrite map_size_empty. lia.
Qed.

Lemma perform_wf ctxErr now c s r s' :
  store_wf s -> perform ctxErr now c s = (r, s') -> store_wf s'.
Proof. intros Hwf H. by eapply perform_refines. Qed.

Lemma acquired_fence_range s tr s' k :
  store_wf s -> trace s tr s' -> Forall (fun t => 0 < t <= uint64_max) (fences k tr).
Proof.
  intros Hwf Ht. revert Hwf.
  induction Ht as [s|now c r s s1 s2 tr [x Hc] Ht IH]; intros Hwf; [constructor|].
  pose proof (perform_wf _ _ _ _ _ _ Hwf Hc) as Hwf1. specialize (IH Hwf1).
  unfold fences in *. csimpl. destruct c as [key owner t| | |]; try done.
  destruct r as [rec| |]; try done. case_decide as Hk; [|done]. constructor; [|done].
  apply perform_refines in Hc as (_ & Hs & _); [|done]. simpl in Hs.
  inversion Hs as [?????? (_ & _ & _ & _ & _ & _ & Hv)| | | | | | | | | | |]; subst.
  assert (Hh : holder (view s1 (KeyString key)) = Some rec) by (by rewrite Hv).
  apply view_holder in Hh as (e & He & _ & <-).
  by destruct (entry_of_wf _ _ _ Hwf1 He) as (_ & _ & _ & ?).
Qed.

(** What a successful acquisition leaves behind. *)
Lemma TryAcquire_Ok ctxErr now key owner t s r s' :
  store_wf s -> TryAcquire ctxErr now key owner t s = (Ok r, s') ->
  ctxErr = None /\ validate None key owner t = None /\
  r = MkRecord key owner (fence (view s (KeyString key)) + 1) now (now + t) /\
  0 <= fence (view s (KeyString key)) < uint64_max /\
  s' = set_entry key (MkEntry r true) s.
Proof.
  intros Hwf H. destruct (validate ctxErr key owner t) eqn:Ev.
  { unfold TryAcquire in H. rewrite Ev in H. done. }
  pose proof (validate_None _ _ _ _ Ev) as (-> & _).
  destruct (TryAcquire_table now key owner t s Hwf Ev)
    as [[Hl E]|[(Hl & Hr & E)|[(Hl & Hr & Hf & E)|(Hl & Hr & Hf & E)]]];
    rewrite E in H; by simplify_eq.
Qed.

Lemma acquired_identity_valid key owner t tok :
  validate None key owner t = None -> 0 < tok ->
  validateIdentity None key owner tok = None.
Proof.
  intros Hv Ht. apply validate_None in Hv as (_ & Hk & Ho & _). unfold validateIdentity.
  apply String.eqb_neq in Hk. rewrite Hk.
  assert (Ho' : String.eqb owner "" = false) by (apply String.eqb_neq, len_pos; lia).
  rewrite Ho'. destruct (Z.ltb_spec 128 (len owner)); [lia|].
  destruct (Z.eqb_spec tok 0); [lia|done].
Qed.

(** The life of a lease on the store: the acquired record validates, unchanged,
    at every later instant before its expiry and is stale from the expiry on; its
    release succeeds even after expiry, repeats of the release succeed without a
    further change, and the next acquisition of the key, by anybody and at any
    clock reading, gets exactly the next fence. *)
Lemma lease_lifecycle now key owner t s r s1 now2 owner2 t2 :
  store_wf s -> TryAcquire None now key owner t s = (Ok r, s1) ->
  (now2 < r_ExpiresAt r -> Validate None now2 r s1 = (Ok r, s1)) /\
  (r_ExpiresAt r <= now2 ->
     Validate None now2 r s1 = (Err (WrapS ErrStaleOwner "validate"), s1)) /\
  exists s2, Release None r s1 = (None, s2) /\ Release None r s2 = (None, s2) /\
    Validate None now2 r s2 = (Err (WrapS ErrStaleOwner "validate"), s2) /\
    (validate None key owner2 t2 = None -> r_Token r < uint64_max ->
     exists s3, TryAcquire None now2 key owner2 t2 s2 =
       (Ok (MkRecord key owner2 (r_Token r + 1) now2 (now2 + t2)), s3)).
Proof.
  intros Hwf HA. pose proof (TryAcquire_Ok _ _ _ _ _ _ _ _ Hwf HA) as (_ & Hv & Hr & Hf & Hs1).
  assert (Hwf1 : store_wf s1) by (by eapply perform_TryAcquire_refines).
  assert (Hid : validateIdentity None (r_Key r) (r_Owner r) (r_Token r) = None).
  { subst r. simpl. eapply acquired_identity_valid; [done|lia]. }
  assert (Hkey : r_Key r = key) by (by subst r).
  set (s2 := set_entry key (MkEntry r false) s1).
  assert (He1 : entries s1 !! KeyString (r_Key r) = Some (MkEntry r true)).
  { rewrite Hkey, Hs1. simpl. by rewrite lookup_insert_eq. }
  assert (He2 : entries s2 !! KeyString (r_Key r) = Some (MkEntry r false)).
  { rewrite Hkey. simpl. by rewrite lookup_insert_eq. }
  assert (Hsame : sameOwner r r = true) by (by apply sameOwner_true).
  split_and!.
  - intros Hl. unfold Validate. rewrite Hid, He1. simpl. rewrite Hsame. simpl.
    unfold Before. apply Z.ltb_lt in Hl. by rewrite Hl.
  - intros Hl. unfold Validate. rewrite Hid, He1. simpl. rewrite Hsame. simpl.
    unfold Before. apply Z.ltb_ge in Hl. by rewrite Hl.
  - exists s2.
    assert (HR : Release None r s1 = (None, s2)).
    { unfold Release. rewrite Hid, He1. simpl. rewrite Hsame. simpl. by rewrite Hkey. }
    split_and!; [done| | |].
    + unfold Release. rewrite Hid, He2. simpl. by rewrite Hsame.
    + unfold Validate. by rewrite Hid, He2.
    + intros Hv2 Hmax. unfold TryAcquire. rewrite Hv2, <- Hkey, He2. simpl.
      destruct (Z.eqb_spec (r_Token r) uint64_max); [lia|].
      rewrite wrapu64_id by (subst r; unfold is_uint64; simpl in *; lia). by eexists.
Qed.

(** ** Properties *)

(** C5: every method call on a well-formed store, at any clock reading and under
    any context, keeps the store well formed, is simulated by the abstract machine
    of the called key with the requested TTL granted in full, and leaves every
    other key alone. *)
Theorem memory_refines_contract ctxErr now c s r s' :
  store_wf s -> perform ctxErr now c s = (r, s') ->
  store_wf s' /\
  spec_step 0 now c r (view s (call_key c)) (view s' (call_key c)) /\
  (forall k, k <> call_key c -> view s' k = view s k).
Proof. apply perform_refines. Qed.

Definition k1 : Key := MkKey "jobs/nightly".
Definition store0 : Store := MkStore 2 ∅.

Lemma store0_wf : store_wf store0.
Proof. apply (New_wf true 2); [unfold is_uint32, uint32_max; lia|done]. Defined.

Lemma memory_refines_contract_witness :
  let c := CallTryAcquire k1 "a" 10 in
  let p := perform None 100 c store0 in
  store_wf store0 /\ p.1 = Replied (MkRecord k1 "a" 1 100 110) /\
  store_wf p.2 /\ spec_step 0 100 c p.1 (view store0 "jobs/nightly") (view p.2 "jobs/nightly").
Proof.
  split; [exact store0_wf|]. split; [reflexivity|].
  destruct (memory_refines_contract None 100 (CallTryAcquire k1 "a" 10) store0
    (perform None 100 (CallTryAcquire k1 "a" 10) store0).1
    (perform None 100 (CallTryAcquire k1 "a" 10) store0).2 store0_wf eq_refl) as (H1 & H2 & _).
  split; [exact H1 | exact H2].
Defined.

(** C9: from a new store, along every sequence of method calls with arbitrary clock
    readings (rollbacks included), the fences handed out for one key are nonzero
    uint64 values that strictly increase. *)
Theorem memory_fences_increase clock max s0 tr s k :
  is_uint32 max -> New clock max = Ok s0 -> trace s0 tr s ->
  StronglySorted Z.lt (fences k tr) /\ Forall (fun t => 0 < t <= uint64_max) (fences k tr).
Proof.
  intros Hm HN Ht. pose proof (New_wf _ _ _ Hm HN) as Hwf. split.
  - by eapply fences_sorted.
  - by eapply acquired_fence_range.
Qed.

(** Two acquisitions of one key with the clock rolled back in between. *)
Lemma memory_fences_increase_witness :
  let c1 := CallTryAcquire k1 "a" 10 in
  let r1 := MkRecord k1 "a" 1 100 110 in
  let c2 := CallRelease r1 in
  let c3 := CallTryAcquire k1 "b" 10 in
  let r3 := MkRecord k1 "b" 2 50 60 in
  let tr := [(100, c1, Replied r1); (100, c2, Acknowledged); (50, c3, Replied r3)] in
  New true 2 = Ok store0 /\ fences "jobs/nightly" tr = [1; 2] /\
  StronglySorted Z.lt (fences "jobs/nightly" tr).
Proof.
  split; [reflexivity|]. split; [reflexivity|].
  eapply (memory_fences_increase true 2 store0 _ _ "jobs/nightly");
    [vm_compute; split; discriminate | reflexivity |].
  eapply trace_cons; [exists None; reflexivity|].
  eapply trace_cons; [exists None; reflexivity|].
  eapply trace_cons; [exists None; reflexivity|]. apply trace_nil.
Defined.
