(* ===== verification/MemoryServing.v ===== *)
(** * The memory store serves

    With a live context every method of memory/store.go answers: [Memory] satisfies the
    interface of [Serving]. *)

From S2P Require Import Prelude GoBase GoStrings Errors LeaseKey Backend Serving Memory.

Lemma owner_valid key owner token :
  KeyString key <> "" -> owner_ok owner -> token <> 0 ->
  validateIdentity None key owner token = None.
Proof.
  intros Hk [[Ho1 Ho2] _] Ht. unfold validateIdentity. apply String.eqb_neq in Hk. rewrite Hk.
  apply len_pos, String.eqb_neq in Ho1. rewrite Ho1. apply Z.eqb_neq in Ht. rewrite Ht.
  destruct (Z.ltb_spec 128 (len owner)); [lia|done].
Qed.

Lemma record_valid r :
  record_ok r -> validateIdentity None (r_Key r) (r_Owner r) (r_Token r) = None.
Proof. intros (Hk & Ho & Ht). apply owner_valid; [done|done|lia]. Qed.

Lemma ttl_valid key owner ttl :
  KeyString key <> "" -> owner_ok owner -> Millisecond <= ttl ->
  validate None key owner ttl = None.
Proof.
  intros Hk Ho Ht. unfold validate. rewrite owner_valid by done. unfold Millisecond in Ht.
  destruct (Z.leb_spec ttl 0); [lia|done].
Qed.

(** The calls of a client whose context is live. *)
Definition memory_serves (now fin : Time) (c : call) (s : Store) (r : reply) (s' : Store) : Prop :=
  now <= fin /\ perform None now c s = (r, s').

Definition has_entry_room (s : Store) (k : string) : Prop :=
  is_Some (entries s !! k) \/ Z.of_nat (size (entries s)) < maxKeys s.

Definition memory_room (n : nat) (s : Store) (k : string) : Prop :=
  fence (view s k) + Z.of_nat n <= int64_max /\ has_entry_room s k.

Lemma view_fence_nonneg s k : store_wf s -> 0 <= fence (view s k).
Proof.
  intros Hwf. unfold view. destruct (entries s !! k) as [e|] eqn:E; simpl; [|lia].
  apply (entry_of_wf _ _ _ Hwf) in E as (_ & _ & _ & H). lia.
Qed.

Lemma set_entry_room key e s : has_entry_room (set_entry key e s) (KeyString key).
Proof. left. unfold set_entry. simpl. rewrite lookup_insert_eq. by eexists. Qed.

Lemma memory_serves_reply now fin c s r s' n :
  store_wf s -> call_ok c -> memory_room (S n) s (call_key c) -> memory_serves now fin c s r s' ->
  served 0 now fin c r (view s (call_key c)).
Proof.
  intros Hwf Hok [Hf Hroom] [Hfin H].
  destruct c as [key owner ttl|owned ttl|owned|owned]; simpl in *.
  - destruct Hok as (Hk & Ho & Ht). pose proof (view_fence_nonneg s (KeyString key) Hwf).
    destruct (TryAcquire_table now key owner ttl s Hwf (ttl_valid _ _ _ Hk Ho Ht))
      as [[Hl E]|[(Hl & Hr & E)|[(Hl & Hr & Hx & E)|(Hl & Hr & Hx & E)]]];
      rewrite E in H; simplify_eq/=.
    + split; [intros _; by eexists|]. intros Hn. destruct Hn. by apply live_lingers.
    + exfalso. revert Hf Hx. unfold uint64_max, int64_max. lia.
    + split; [done|]. intros _. eexists. split; [done|]. simpl. lia.
  - destruct Hok as [Hrec Ht]. pose proof Hrec as (Hk & Ho & Htok).
    destruct (Renew_cases now owned ttl s (ttl_valid _ _ _ Hk Ho Ht)) as [[Hc E]|(e & He & Ha & Hm & Hl & E)];
      [lia| |]; rewrite E in H; simplify_eq/=.
    + split; [intros Hp; destruct Hc; by apply presents_current|]. intros _. by eexists.
    + split.
      * intros (r0 & Hr0 & _ & _ & Hacq & _). eexists. split; [done|]. simpl.
        unfold view in Hr0. rewrite He, Ha in Hr0. simplify_eq/=. unfold Millisecond in *. lia.
      * intros Hn. destruct Hn. exists (e_record e). unfold view. by rewrite He, Ha.
  - destruct (Validate_cases now owned s (record_valid _ Hok)) as [[Hc E]|(e & He & Ha & Hm & Hl & E)];
      rewrite E in H; simplify_eq/=.
    + split; [intros Hp; destruct Hc; by apply presents_current|]. intros _. by eexists.
    + split; [intros _; by eexists|]. intros Hn. destruct Hn. exists (e_record e).
      unfold view. by rewrite He, Ha.
  - destruct (Release_cases owned s (record_valid _ Hok))
      as [(Hh & e & He & Hm & E)|[(Hh & Hi & E)|(Hh & _ & E)]]; rewrite E in H; simplify_eq/=.
    + split; [done|]. intros _ Hn. by destruct Hn.
    + split; [done|]. intros (r0 & Hr0 & _) _. destruct Hi as (e & He & Ha & _).
      unfold view in Hr0. by rewrite He, Ha in Hr0.
    + split; [intros Hp; destruct Hh; by eapply current_held, presents_current|]. intros _ _. by eexists.
Qed.

(** A call writes at most the entry of its key, with at most the next fence. *)
Lemma perform_writes now c s r s' :
  store_wf s -> perform None now c s = (r, s') ->
  s' = s \/ exists key e, KeyString key = call_key c /\ s' = set_entry key e s /\
    r_Token (e_record e) <= fence (view s (call_key c)) + 1.
Proof.
  intros Hwf H. destruct c as [key owner ttl|owned ttl|owned|owned]; simpl in *.
  - destruct (TryAcquire _ _ _ _ _ _) as [[rec|] s1] eqn:E; simplify_eq/=.
    + apply TryAcquire_Ok in E as (_ & _ & -> & _ & ->); [|done]. right.
      do 2 eexists. split; [done|]. split; [done|]. simpl. lia.
    + left. unfold TryAcquire in E. destruct (validate _ _ _ _); [by simplify_eq|].
      by repeat (step_case_in E; simplify_eq).
  - unfold Renew in H. destruct (validate _ _ _ _); [simplify_eq; by left|].
    step_case_in H; [simplify_eq; by left|]. unfold view.
    destruct (entries s !! _) as [e|] eqn:He; [|simplify_eq; by left].
    repeat (step_case_in H; [simplify_eq; by left|]). simplify_eq/=. right.
    do 2 eexists. split; [done|]. split; [done|]. simpl. lia.
  - left. unfold Validate in H. destruct (validateIdentity _ _ _ _); [by simplify_eq|].
    destruct (entries s !! _); [|by simplify_eq]. by repeat (step_case_in H; [by simplify_eq|]); simplify_eq.
  - unfold Release in H. destruct (validateIdentity _ _ _ _); [simplify_eq; by left|]. unfold view.
    destruct (entries s !! _) as [e|] eqn:He; [|simplify_eq; by left].
    destruct (negb (e_active e)); [destruct (sameOwner _ _); simplify_eq; by left|].
    destruct (negb _); simplify_eq/=; [by left|]. right.
    do 2 eexists. split; [done|]. split; [done|]. simpl. lia.
Qed.

Lemma memory_serves_room now fin c s r s' n :
  store_wf s -> memory_room (S n) s (call_key c) -> memory_serves now fin c s r s' ->
  memory_room n s' (call_key c).
Proof.
  intros Hwf [Hf Hroom] [_ H].
  destruct (perform_writes _ _ _ _ _ Hwf H) as [->|(key & e & Hk & -> & Ht)].
  { split; [lia|done]. }
  rewrite <- Hk in *. split; [|apply set_entry_room]. rewrite set_entry_view. simpl. lia.
Qed.

Lemma memory_serves_released now fin now' fin' owned s s' r s'' :
  store_wf s -> record_ok owned -> presents now owned (view s (KeyString (r_Key owned))) ->
  memory_serves now fin (CallRelease owned) s Acknowledged s' ->
  memory_serves now' fin' (CallRelease owned) s' r s'' -> r = Acknowledged.
Proof.
  intros Hwf Hok Hp [_ H1] [_ H2]. simpl in *.
  destruct (Release_cases owned s (record_valid _ Hok))
    as [(Hh & e & He & Hm & E)|[(Hh & _)|(Hh & _)]];
    try (destruct Hh; by eapply current_held, presents_current).
  rewrite E in H1. simplify_eq/=. unfold Release in H2. rewrite record_valid in H2 by done.
  simpl in H2. rewrite lookup_insert_eq in H2. simpl in H2.
  apply sameOwner_true in Hm. rewrite Hm in H2. by simplify_eq/=.
Qed.

#[global] Program Instance memory_serving : ServingBackend Store := {|
  room := memory_room;
  serves := memory_serves
|}.
Next Obligation. intros n s k [H ?]. split; [lia|done]. Qed.
Next Obligation. by intros now fin c s r s' [H _]. Qed.
Next Obligation. intros now fin c s r s' [_ H]. by exists None. Qed.
Next Obligation. apply memory_serves_reply. Qed.
Next Obligation. intros now fin c s r s' n Hwf _. by apply memory_serves_room. Qed.
Next Obligation. apply memory_serves_released. Qed.
