(* ===== verification/Conformance.v ===== *)
(** * leasetest: the manual clock and the backend conformance suite

    leasetest/clock.go, and [RunBackendConformance] of leasetest/conformance.go as an
    executable test over a fixture. The suite is proved to pass on every fixture whose
    backend satisfies the interface of [Serving] and answers within forty
    milliseconds, in both orders of its map iteration; the fixture of
    memory/conformance_test.go is one. *)

From S2P Require Import Prelude GoBase GoStrings Strconv Errors LeaseKey Backend Serving Memory MemoryServing.

(** ** clock.go *)

(** [Clock], less its mutex: a method is one atomic step. *)
Record Clock := MkClock { clock_now : Time }.

(** [NewClock], [Now] and [Advance]. *)
Definition NewClock (now : Time) : Clock := MkClock now.
Definition Now (clock : Clock) : Time := clock_now clock.
Definition Advance (duration : Duration) (clock : Clock) : Clock :=
  MkClock (Add (clock_now clock) duration).

(** ** Tests *)

(** A test over the state [F] of its fixture: it ends, or [t.Fatalf] stops it with a
    message. *)
Definition Test (F A : Type) : Type := F -> result string A * F.

#[global] Instance Test_ret {F} : MRet (Test F) := fun _ a f => (Ok a, f).
#[global] Instance Test_bind {F} : MBind (Test F) :=
  fun _ _ k c f => match c f with (Ok a, f') => k a f' | (Err m, f') => (Err m, f') end.

Definition Fatalf {F A} (message : string) : Test F A := fun f => (Err message, f).

(** [%v] of an error. *)
Definition verb_v (err : err_opt) : string :=
  match err with None => "<nil>" | Some e => ErrorText e end.

(** [if err != nil] and [if !errors.Is(err, target)], each with its [t.Fatalf]. *)
Definition require_nil {F} (label : string) (err : err_opt) : Test F () :=
  match err with None => mret () | Some _ => Fatalf (label ++ " error = " ++ verb_v err) end.
Definition require_is {F} (target : sentinel) (label : string) (err : err_opt) : Test F () :=
  if IsOpt err target then mret () else Fatalf (label ++ " error = " ++ verb_v err).

(** ** conformance.go *)

(** [BackendFixture]. *)
Record BackendFixture (F : Type) := MkFixture {
  fx_Backend : call -> M F reply;
  fx_Expire : Duration -> M F ()
}.
Arguments fx_Backend {F} _ _.
Arguments fx_Expire {F} _ _.

Definition outcome (r : reply) : LeaseRecord * err_opt :=
  match r with
  | Replied rec => (rec, None)
  | Acknowledged => (zero_record, None)
  | Failed e => (zero_record, Some e)
  end.

Section Suite.
Context {F : Type} (fixture : BackendFixture F).

(** A method call, with its [(Record, error)] or [error] result. *)
Definition method (c : call) : Test F (LeaseRecord * err_opt) := fun f =>
  let '(r, f') := fx_Backend fixture c f in (Ok (outcome r), f').

Definition Expire (d : Duration) : Test F () := fun f =>
  let '(_, f') := fx_Expire fixture d f in (Ok (), f').

Definition with_owner (r : LeaseRecord) (owner : string) : LeaseRecord :=
  MkRecord (r_Key r) owner (r_Token r) (r_AcquiredAt r) (r_ExpiresAt r).
Definition with_token (r : LeaseRecord) (token : Z) : LeaseRecord :=
  MkRecord (r_Key r) (r_Owner r) token (r_AcquiredAt r) (r_ExpiresAt r).

(** The body of the loop over forged records. *)
Definition forged_checks (second : LeaseRecord) (entry : string * LeaseRecord) : Test F () :=
  let '(name, forged) := entry in
  '(_, err) ← method (CallRenew forged Second);
  _ ← require_is ErrStaleOwner ("Renew(" ++ name ++ " mismatch)") err;
  '(_, err) ← method (CallValidate forged);
  _ ← require_is ErrStaleOwner ("Validate(" ++ name ++ " mismatch)") err;
  '(_, err) ← method (CallRelease forged);
  _ ← require_is ErrStaleOwner ("Release(" ++ name ++ " mismatch)") err;
  '(_, err) ← method (CallValidate second);
  require_nil ("Validate(successor after " ++ name ++ " mismatch)") err.

(** [for name, forged := range map...]: the runtime chooses the order. *)
Definition range_map {A} (reversed : bool) (entries : list A) : list A :=
  if reversed then reverse entries else entries.

Fixpoint for_range {A} (body : A -> Test F ()) (entries : list A) : Test F () :=
  match entries with
  | [] => mret ()
  | x :: rest => _ ← body x; for_range body rest
  end.

(** The checks on the successor. *)
Definition successor_checks (reversed : bool) (first second : LeaseRecord) : Test F () :=
  _ ← (if r_Token second <=? r_Token first
       then Fatalf ("successor token " ++ FormatUint (r_Token second) ++ " <= first token "
                    ++ FormatUint (r_Token first))
       else mret ());
  let wrongOwner := with_owner second "owner-forged" in
  let wrongToken := with_token second (r_Token first) in
  _ ← for_range (forged_checks second)
        (range_map reversed [("owner only", wrongOwner); ("token only", wrongToken)]);
  '(_, err) ← method (CallRenew first Second);
  _ ← require_is ErrStaleOwner "Renew(stale)" err;
  '(_, err) ← method (CallRelease first);
  _ ← require_is ErrStaleOwner "Release(stale)" err;
  '(_, err) ← method (CallValidate second);
  _ ← require_nil "Validate(successor)" err;
  '(_, err) ← method (CallRelease second);
  _ ← require_nil "Release(successor)" err;
  '(_, err) ← method (CallRelease second);
  require_nil "Release(idempotent)" err.

(** [RunBackendConformance] on the fixture of its factory; [name] is [t.Name()] of
    the subtest. *)
Definition RunBackendConformance (name : string) (reversed : bool) : Test F () :=
  key ← match NewKey "conformance" name with
        | Ok key => mret key
        | Err e => Fatalf ("NewKey() error = " ++ ErrorText e)
        end;
  '(first, err) ← method (CallTryAcquire key "owner-a" Minute);
  _ ← require_nil "TryAcquire(first)" err;
  '(_, err) ← method (CallTryAcquire key "owner-b" Second);
  _ ← require_is ErrContended "TryAcquire(contended)" err;
  '(renewed, err) ← method (CallRenew first (100 * Millisecond));
  _ ← require_nil "Renew()" err;
  '(_, err) ← method (CallValidate renewed);
  _ ← require_nil "Validate()" err;
  _ ← Expire (110 * Millisecond);
  '(second, err) ← method (CallTryAcquire key "owner-b" Second);
  _ ← require_nil "TryAcquire(successor)" err;
  successor_checks reversed first second.
End Suite.

(** ** The fixture of memory/conformance_test.go *)

Definition memory_fixture : BackendFixture (Clock * Store) := MkFixture _
  (fun c '(clock, s) => let '(r, s') := perform None (Now clock) c s in (r, (clock, s')))
  (fun d '(clock, s) => ((), (Advance d clock, s))).

Example conformance_memory_runs :
  map (fun b => (RunBackendConformance memory_fixture
    "TestBackendConformance/ownership_and_successor_protection" b
    (NewClock 1000, MkStore 10 ∅)).1) [false; true] = [Ok (); Ok ()].
Proof. by vm_compute. Qed.

(** A store that never expires a lease is caught. *)
Example conformance_frozen_clock :
  (RunBackendConformance (MkFixture _ (fx_Backend memory_fixture) (fun _ f => ((), f)))
    "T/frozen" false (NewClock 1000, MkStore 10 ∅)).1 =
  Err "TryAcquire(successor) error = lease try acquire: lease: contended".
Proof. by vm_compute. Qed.

(** ** Reasoning about tests *)

(** From every state of [P] the test reaches its end, in a state of [Q]. *)
Definition passes {F A} (P : F -> Prop) (c : Test F A) (Q : A -> F -> Prop) : Prop :=
  forall f, P f -> exists a f', c f = (Ok a, f') /\ Q a f'.

Lemma passes_ret {F A} (P : F -> Prop) (Q : A -> F -> Prop) a :
  (forall f, P f -> Q a f) -> passes P (mret a) Q.
Proof. intros H f Hf. exists a, f. split; [done|by apply H]. Qed.

Lemma passes_bind {F A B} (P : F -> Prop) (R : A -> F -> Prop) (Q : B -> F -> Prop)
    (c : Test F A) (k : A -> Test F B) :
  passes P c R -> (forall a, passes (R a) (k a) Q) -> passes P (c ≫= k) Q.
Proof.
  intros Hc Hk f Hf. destruct (Hc f Hf) as (a & f1 & E & H1). destruct (Hk a f1 H1) as (b & f2 & E2 & H2).
  exists b, f2. split; [|done]. unfold mbind, Test_bind. by rewrite E.
Qed.

(** A fact that the precondition gives. *)
Lemma passes_pure {F A} (P : F -> Prop) (Q : A -> F -> Prop) c (X : Prop) :
  (forall f, P f -> X) -> (X -> passes P c Q) -> passes P c Q.
Proof. intros HX H f Hf. apply H; [by eapply HX|done]. Qed.

(** A call that must succeed, and a call that must be refused, with what follows. *)
Definition refuses (s : sentinel) (out : LeaseRecord * err_opt) : Prop :=
  exists e, out.2 = Some e /\ Is e s = true.

Lemma passes_accepted {F A} (fx : BackendFixture F) c label (P : F -> Prop)
    (R : LeaseRecord -> F -> Prop) (Q : A -> F -> Prop) (k : LeaseRecord -> Test F A) :
  passes P (method fx c) (fun out f => out.2 = None /\ R out.1 f) ->
  (forall rec, passes (R rec) (k rec) Q) ->
  passes P ('(rec, err) ← method fx c; _ ← require_nil label err; k rec) Q.
Proof.
  intros Hc Hk. eapply passes_bind; [exact Hc|]. intros [rec err].
  eapply (passes_pure _ _ _ (err = None)); [by intros f [H _]|]. intros ->.
  intros f [_ Hf]. by apply Hk.
Qed.

Lemma passes_refused {F A} (fx : BackendFixture F) c s label (P R : F -> Prop)
    (Q : A -> F -> Prop) (k : Test F A) :
  passes P (method fx c) (fun out f => refuses s out /\ R f) -> passes R k Q ->
  passes P ('(_, err) ← method fx c; _ ← require_is s label err; k) Q.
Proof.
  intros Hc Hk. eapply passes_bind; [exact Hc|]. intros [rec err] f [(e & He & Hi) Hf].
  simpl in He. subst err. unfold require_is. simpl. rewrite Hi. by apply Hk.
Qed.

(** The last check of a test. *)
Lemma passes_bind_unit {F} (P : F -> Prop) (Q : () -> F -> Prop) (fx : BackendFixture F) c label :
  passes P ('(_, err) ← method fx c; _ ← require_nil label err; mret ()) Q ->
  passes P ('(_, err) ← method fx c; require_nil label err) Q.
Proof.
  intros H f Hf. destruct (H f Hf) as (a & f' & E & HQ). exists a, f'. split; [|done]. rewrite <- E.
  unfold mbind, Test_bind. destruct (method fx c f) as [[[rec err]|] f1]; [|done].
  by destruct err.
Qed.

(** ** Healthy fixtures *)

(** A fixture over a serving backend. [fx_now] bounds the backend clock between two
    operations; for [n] more operations ([ready n]) a call with valid arguments and a
    lifetime of at most a minute is served within [latency], and [Expire] waits at
    least as long as it is asked to. *)
Class HealthyFixture {S F : Type} `{!LeaseBackend S} `{!ServingBackend S}
    (fixture : BackendFixture F) (latency : Duration) := {
  fx_state : F -> S;
  fx_now : F -> Time;
  ready : nat -> string -> F -> Prop;
  fx_serves c f n :
    ready (Datatypes.S n) (call_key c) f -> call_ok c ->
    (match c with CallTryAcquire _ _ ttl | CallRenew _ ttl => ttl <= Minute | _ => True end) ->
    let '(r, f') := fx_Backend fixture c f in
    ready n (call_key c) f' /\ fx_now f' <= fx_now f + latency /\
    exists now, fx_now f <= now /\ serves now (fx_now f') c (fx_state f) r (fx_state f');
  fx_waits d k f n :
    ready (Datatypes.S n) k f -> 0 <= d <= Minute ->
    let '(_, f') := fx_Expire fixture d f in
    ready n k f' /\ fx_now f + d <= fx_now f' /\ fx_state f' = fx_state f
}.

Section Passes.
Context {S F : Type} `{!LeaseBackend S} `{!ServingBackend S}.
Context (fixture : BackendFixture F) (latency : Duration) `{!HealthyFixture fixture latency}.
Hypothesis latency_small : 0 <= latency <= 40 * Millisecond.
Hypothesis granularity_small : granularity <= 5 * Millisecond.
Variable key : Key.
Hypothesis key_valid : KeyString key <> "".

#[local] Abbreviation view f := (key_view (fx_state f) (KeyString key)).

(** [n] more operations can be made. *)
Definition usable (n : nat) (f : F) : Prop :=
  backend_wf (fx_state f) /\ room n (fx_state f) (KeyString key) /\ ready n (KeyString key) f.

(** [rec] holds the key, and will for [m] more calls. *)
Definition holding (rec : LeaseRecord) (m n : nat) (f : F) : Prop :=
  usable n f /\ holder (view f) = Some rec /\ r_Token rec <= fence (view f) /\
  r_AcquiredAt rec <= fx_now f /\ r_AcquiredAt rec < r_ExpiresAt rec /\
  fx_now f + Z.of_nat m * latency < r_ExpiresAt rec.

(** One call: what [Serving] says of it. *)
Lemma call_passes c n (P : F -> Prop) (Q : LeaseRecord * err_opt -> F -> Prop) :
  call_key c = KeyString key -> call_ok c ->
  (match c with CallTryAcquire _ _ ttl | CallRenew _ ttl => ttl <= Minute | _ => True end) ->
  (forall f, P f -> usable (Datatypes.S n) f) ->
  (forall f r f' now, P f -> usable (Datatypes.S n) f -> usable n f' ->
     fx_now f <= now <= fx_now f' -> fx_now f' <= fx_now f + latency ->
     serves now (fx_now f') c (fx_state f) r (fx_state f') ->
     Q (outcome r) f') ->
  passes P (method fixture c) Q.
Proof.
  intros Hk Hok Httl HP HQ f Hf. pose proof (HP f Hf) as Hu. destruct Hu as (Hwf & Hroom & Hready).
  unfold method. rewrite <- Hk in *. pose proof (fx_serves c f n Hready Hok Httl) as H.
  destruct (fx_Backend fixture c f) as [r f'] eqn:E. destruct H as (Hr' & Hlat & now & Hnow & Hs).
  eexists _, _. split; [done|].
  eapply HQ; [exact Hf|by apply HP| |split; [exact Hnow|by eapply serves_time]|done|done].
  unfold usable. rewrite <- Hk. split_and!; [|by eapply serves_room|done].
  by eapply backend_wf_call, serves_call.
Qed.

Lemma holding_presents rec m n f owned now :
  holding rec m (Datatypes.S n) f -> matches owned rec -> (0 < m)%nat ->
  fx_now f <= now <= fx_now f + latency -> presents now owned (view f).
Proof. intros (_ & Hh & _ & Ha & Hae & Ht) Hm Hm0 Hn. exists rec. split_and!; (done || nia). Qed.

Lemma holding_live rec m n f now :
  holding rec m (Datatypes.S n) f -> (0 < m)%nat -> fx_now f <= now <= fx_now f + latency ->
  live now (view f).
Proof. intros (_ & Hh & _ & _ & _ & Ht) Hm0 Hn. exists rec. split; [done|nia]. Qed.

Lemma holding_step rec m n f f' :
  holding rec (Datatypes.S m) (Datatypes.S n) f -> usable n f' -> fx_now f <= fx_now f' <= fx_now f + latency ->
  holder (view f') = holder (view f) -> fence (view f) <= fence (view f') -> holding rec m n f'.
Proof. intros (_ & Hh & Hf & Ha & Hae & Ht) Hu Hn Hh' Hf'. split_and!; (done || congruence || nia). Qed.

Ltac arg_ok := simpl; split_and!; (done || lia).

(** The acquisition of a free key. *)
Lemma acquire_passes owner ttl t m n :
  owner_ok owner -> Millisecond <= ttl <= Minute -> (Z.of_nat m + 1) * latency < ttl - granularity ->
  passes (fun f => usable (Datatypes.S n) f /\ t <= fence (view f) /\ ~ lingers granularity (fx_now f) (view f))
    (method fixture (CallTryAcquire key owner ttl))
    (fun out f => out.2 = None /\ holding out.1 m n f /\ record_ok out.1 /\ r_Key out.1 = key /\
       r_Owner out.1 = owner /\ t < r_Token out.1).
Proof.
  intros Ho Httl Hm. eapply call_passes; [done|arg_ok|simpl; lia|by intros f [H _]|].
  intros f r f' now (_ & Ht & Hn) (Hwf & Hroom & _) Hu Hnow Hlat Hs.
  destruct (acquire_granted now (fx_now f') key owner ttl (fx_state f) r (fx_state f') n)
    as (rec & -> & Hk & Hown & Hfen & Hok & Ha & Hae & Hx & Hv); [done|arg_ok|done|done| |].
  { contradict Hn. destruct Hn as (r0 & Hr0 & Hl). exists r0. split; [done|lia]. }
  simpl. split_and!; try done; [|lia]. split; [done|]. rewrite Hv. simpl. split_and!; done || lia.
Qed.

(** A contender is turned away. *)
Lemma contended_passes rec owner ttl m n :
  owner_ok owner -> Millisecond <= ttl <= Minute ->
  passes (holding rec (Datatypes.S m) (Datatypes.S n)) (method fixture (CallTryAcquire key owner ttl))
    (fun out f => refuses ErrContended out /\ holding rec m n f).
Proof.
  intros Ho Httl. eapply call_passes; [done|arg_ok|simpl; lia|by intros f [H _]|].
  intros f r f' now Hh (Hwf & Hroom & _) Hu Hnow Hlat Hs.
  destruct (acquire_contended now (fx_now f') key owner ttl (fx_state f) r (fx_state f') n)
    as ((e & -> & He) & Hh' & Hf'); [done|arg_ok|done|done|eapply holding_live; [done|lia|lia]|].
  split; [by exists e|]. eapply holding_step; eauto. lia.
Qed.

(** The record of a predecessor or forger is refused. *)
Lemma stale_passes rec c owned m n :
  (exists ttl, c = CallRenew owned ttl /\ Millisecond <= ttl <= Minute) \/ c = CallValidate owned \/ c = CallRelease owned ->
  record_ok owned -> r_Key owned = key -> ~ matches owned rec ->
  passes (holding rec (Datatypes.S m) (Datatypes.S n)) (method fixture c)
    (fun out f => refuses ErrStaleOwner out /\ holding rec m n f).
Proof.
  intros Hc Hok Hk Hm.
  assert (Hcok : call_ok c /\ call_key c = KeyString key /\
    match c with CallTryAcquire _ _ ttl | CallRenew _ ttl => ttl <= Minute | _ => True end).
  { rewrite <- Hk. destruct Hc as [(ttl & -> & Ht)|[->| ->]]; simpl; split_and!; done || apply Ht. }
  destruct Hcok as (Hcok & Hck & Httl). eapply call_passes; [done|done|done|by intros f [H _]|].
  intros f r f' now Hh (Hwf & Hroom & _) Hu Hnow Hlat Hs.
  pose proof (stale_refused now (fx_now f') c owned (fx_state f) r (fx_state f') n) as H.
  cbv zeta in H. rewrite Hk in H. destruct H as ((e & -> & He) & Hv); try done.
  { destruct Hc as [(ttl & -> & _)|[->| ->]]; eauto. }
  { eapply holding_live; [done|lia|lia]. }
  { destruct Hh as (_ & Hh & _). intros (r0 & Hr0 & Hm0). rewrite Hh in Hr0. by simplify_eq. }
  split; [by exists e|]. eapply holding_step; [done|done|lia| |]; by rewrite Hv.
Qed.

(** The holder validates; what becomes true with time stays true. *)
Lemma validate_passes_later rec owned m n (X : Time -> Prop) :
  record_ok owned -> r_Key owned = key -> matches owned rec -> (forall t t', t <= t' -> X t -> X t') ->
  passes (fun f => holding rec (Datatypes.S m) (Datatypes.S n) f /\ X (fx_now f)) (method fixture (CallValidate owned))
    (fun out f => out.2 = None /\ holding rec m n f /\ X (fx_now f)).
Proof.
  intros Hok Hk Hm HX. eapply call_passes; [by rewrite <- Hk|done|done|by intros f [[H _] _]|].
  intros f r f' now [Hh Hx] (Hwf & Hroom & _) Hu Hnow Hlat Hs.
  pose proof (validate_granted now (fx_now f') owned (fx_state f) r (fx_state f') n) as H.
  cbv zeta in H. rewrite Hk in H. destruct H as ((rec' & ->) & Hv); try done; [eapply holding_presents; [done|done|lia|lia]|].
  split; [done|]. split; [|eapply HX; [|done]; lia].
  eapply holding_step; [done|done|lia| |]; by rewrite Hv.
Qed.

Lemma validate_passes rec owned m n :
  record_ok owned -> r_Key owned = key -> matches owned rec ->
  passes (holding rec (Datatypes.S m) (Datatypes.S n)) (method fixture (CallValidate owned))
    (fun out f => out.2 = None /\ holding rec m n f).
Proof.
  intros Hok Hk Hm f Hf.
  destruct (validate_passes_later rec owned m n (fun _ => True) Hok Hk Hm (fun _ _ _ H => H) f (conj Hf I))
    as (a & f' & E & H1 & H2 & _). by exists a, f'.
Qed.

(** The holder renews: the new expiry is the requested one, counted from the call. *)
Lemma renew_passes rec ttl m m' n :
  record_ok rec -> r_Key rec = key -> Millisecond <= ttl <= Minute ->
  (Z.of_nat m + 1) * latency < ttl - granularity ->
  passes (holding rec (Datatypes.S m') (Datatypes.S n)) (method fixture (CallRenew rec ttl))
    (fun out f => out.2 = None /\ holding out.1 m n f /\ record_ok out.1 /\ r_Key out.1 = key /\
       r_Token out.1 = r_Token rec /\ r_ExpiresAt out.1 <= fx_now f + ttl).
Proof.
  intros Hok Hk Httl Hm. eapply call_passes; [by rewrite <- Hk|split; [done|lia]|simpl; lia|by intros f [H _]|].
  intros f r f' now Hh (Hwf & Hroom & _) Hu Hnow Hlat Hs.
  pose proof (renew_granted now (fx_now f') rec ttl (fx_state f) r (fx_state f') n) as H.
  cbv zeta in H. rewrite Hk in H. destruct H as (rec' & -> & [Ho Ht] & Hf & Hh' & (r0 & Hr0 & Hk0 & Ha0) & Hae & Hx); try done; [split; [done|lia]| |].
  { eapply holding_presents; [done|done|lia|lia]. }
  destruct Hh as (_ & Hhold & Hfen & Ha & _). rewrite Hhold in Hr0. simplify_eq/=.
  destruct Hok as (Hk1 & Ho1 & Ht1).
  split; [done|]. unfold record_ok. simpl. rewrite Hk0, Ho, Ht. split_and!; try done; try lia.
  split; [done|]. rewrite Hh', Hf. split_and!; try done; rewrite ?Ha0, ?Ht; lia.
Qed.

(** The holder releases, and may repeat it. *)
Definition released (rec : LeaseRecord) (n : nat) (f : F) : Prop :=
  usable n f /\ exists now fin f0, backend_wf (fx_state f0) /\ presents now rec (view f0) /\
    serves now fin (CallRelease rec) (fx_state f0) Acknowledged (fx_state f).

Lemma release_passes rec m n :
  record_ok rec -> r_Key rec = key ->
  passes (holding rec (Datatypes.S m) (Datatypes.S n)) (method fixture (CallRelease rec))
    (fun out f => out.2 = None /\ released rec n f).
Proof.
  intros Hok Hk. eapply call_passes; [by rewrite <- Hk|done|done|by intros f [H _]|].
  intros f r f' now Hh (Hwf & Hroom & _) Hu Hnow Hlat Hs.
  assert (Hp : presents now rec (view f)) by (eapply holding_presents; [done|done|lia|lia]).
  pose proof (release_granted now (fx_now f') rec (fx_state f) r (fx_state f') n) as H.
  cbv zeta in H. rewrite Hk in H. destruct H as [-> _]; try done.
  split; [done|]. split; [done|]. by exists now, (fx_now f'), f.
Qed.

Lemma rerelease_passes rec n :
  record_ok rec -> r_Key rec = key ->
  passes (released rec (Datatypes.S n)) (method fixture (CallRelease rec)) (fun out _ => out.2 = None /\ True).
Proof.
  intros Hok Hk. eapply call_passes; [by rewrite <- Hk|done|done|by intros f [H _]|].
  intros f r f' now (_ & now0 & fin0 & f0 & Hwf0 & Hp & Hs0) _ _ _ _ Hs.
  rewrite <- Hk in Hp. by rewrite (serves_released _ _ _ _ _ _ _ _ _ Hwf0 Hok Hp Hs0 Hs).
Qed.

(** The expiry transition frees the key. *)
Lemma expire_passes rec ttl d m n :
  0 <= d <= Minute -> ttl + granularity <= d ->
  passes (fun f => holding rec m (Datatypes.S n) f /\ r_ExpiresAt rec <= fx_now f + ttl) (Expire fixture d)
    (fun _ f => usable n f /\ r_Token rec <= fence (view f) /\ ~ lingers granularity (fx_now f) (view f)).
Proof.
  intros Hd0 Hd f [((Hwf & Hroom & Hready) & Hh & Hf & _) Hx]. unfold Expire.
  pose proof (fx_waits d (KeyString key) f n Hready Hd0) as H.
  destruct (fx_Expire fixture d f) as [u f']. destruct H as (Hr' & Hnow & Hst).
  eexists _, _. split; [done|]. unfold usable. rewrite !Hst. split_and!; try done; [by apply room_less|].
  intros (r0 & Hr0 & Hl). rewrite Hh in Hr0. simplify_eq. lia.
Qed.

(** One round of the loop over forged records. *)
Lemma forged_passes second forged name m n :
  record_ok second -> r_Key second = key -> record_ok forged -> r_Key forged = key -> ~ matches forged second ->
  passes (holding second (4 + m) (4 + n)) (forged_checks fixture second (name, forged))
    (fun _ => holding second m n).
Proof.
  intros Hs Hsk Hf Hfk Hm. unfold forged_checks.
  eapply passes_refused; [eapply stale_passes; [left; by exists Second| done..]|].
  eapply passes_refused; [eapply stale_passes; [by right; left|done..]|].
  eapply passes_refused; [eapply stale_passes; [by right; right|done..]|].
  apply passes_bind_unit.
  eapply (passes_accepted _ _ _ _ (fun _ => holding second m n)); [by eapply validate_passes|].
  intros _. by apply passes_ret.
Qed.

(** The forged records are not the successor's. *)
Lemma forged_ok (first second : LeaseRecord) :
  record_ok first -> record_ok second -> r_Key second = key -> r_Owner second = "owner-b" ->
  r_Token first < r_Token second ->
  Forall (fun e : string * LeaseRecord => record_ok e.2 /\ r_Key e.2 = key /\ ~ matches e.2 second)
    [("owner only", with_owner second "owner-forged"); ("token only", with_token second (r_Token first))].
Proof.
  intros (_ & _ & Ht1) (Hk & Ho & Ht2) Hkey Hown Hlt. repeat constructor; simpl; try done; try lia.
  - intros [H _]. simpl in H. by rewrite Hown in H.
  - apply Ho.
  - apply Ho.
  - apply Ho.
  - intros [_ H]. simpl in H. lia.
Qed.

Lemma loop_passes second es m n :
  record_ok second -> r_Key second = key ->
  Forall (fun e : string * LeaseRecord => record_ok e.2 /\ r_Key e.2 = key /\ ~ matches e.2 second) es ->
  passes (holding second (4 * length es + m) (4 * length es + n)) (for_range (forged_checks fixture second) es)
    (fun _ => holding second m n).
Proof.
  intros Hs Hk. induction 1 as [|[name forged] es (Hf & Hfk & Hm) _ IH]; [by apply passes_ret|].
  cbn [for_range length].
  eapply (passes_bind _ (fun _ => holding second (4 * length es + m) (4 * length es + n))); [|by intros _].
  replace (4 * Datatypes.S (length es) + m)%nat with (4 + (4 * length es + m))%nat by lia.
  replace (4 * Datatypes.S (length es) + n)%nat with (4 + (4 * length es + n))%nat by lia.
  by apply forged_passes.
Qed.

Lemma loop_ranged reversed second es m n :
  record_ok second -> r_Key second = key ->
  Forall (fun e : string * LeaseRecord => record_ok e.2 /\ r_Key e.2 = key /\ ~ matches e.2 second) es ->
  length es = 2%nat ->
  passes (holding second (8 + m) (8 + n))
    (for_range (forged_checks fixture second) (range_map reversed es)) (fun _ => holding second m n).
Proof.
  intros Hs Hk Hes Hlen.
  pose proof (loop_passes second (range_map reversed es) m n Hs Hk) as H.
  assert (Hl : length (range_map reversed es) = 2%nat) by (destruct reversed; simpl; rewrite ?length_reverse; done).
  rewrite Hl in H. apply H. destruct reversed; [|done]. by apply Forall_reverse.
Qed.

Lemma successor_passes reversed first second :
  record_ok first -> r_Key first = key -> record_ok second -> r_Key second = key ->
  r_Owner second = "owner-b" -> r_Token first < r_Token second ->
  passes (holding second 13 13) (successor_checks fixture reversed first second) (fun _ _ => True).
Proof.
  intros Hf Hfk Hs Hsk Hown Hlt. unfold successor_checks.
  destruct (Z.leb_spec (r_Token second) (r_Token first)); [lia|].
  eapply (passes_bind _ (fun _ => holding second 13 13)); [by apply passes_ret|intros _].
  assert (Hm : ~ matches first second) by (intros [_ H']; lia).
  eapply (passes_bind _ (fun _ => holding second 5 5)); [|intros _].
  { eapply (loop_ranged reversed); [done|done|by apply forged_ok|done]. }
  eapply passes_refused; [eapply stale_passes; [left; by exists Second|done..]|].
  eapply passes_refused; [eapply stale_passes; [by right; right|done..]|].
  eapply (passes_accepted _ _ _ _ (fun _ => holding second 2 2)); [by eapply validate_passes|intros _].
  eapply (passes_accepted _ _ _ _ (fun _ => released second 1)); [by eapply release_passes|intros _].
  apply passes_bind_unit. eapply (passes_accepted _ _ _ _ (fun _ _ => True)); [by eapply rerelease_passes|].
  intros _. by apply passes_ret.
Qed.

(** The whole suite. *)
Lemma suite_passes name reversed :
  NewKey "conformance" name = Ok key ->
  passes (fun f => usable 19 f /\ ~ lingers granularity (fx_now f) (view f))
    (RunBackendConformance fixture name reversed) (fun _ _ => True).
Proof.
  intros Hkey. unfold RunBackendConformance. rewrite Hkey.
  eapply (passes_bind _ (fun k f => k = key /\ usable 19 f /\ ~ lingers granularity (fx_now f) (view f))).
  { by apply passes_ret. }
  intros k. eapply (passes_pure _ _ _ (k = key)); [by intros f [H _]|]. intros ->.
  eapply (passes_accepted _ _ _ _ (fun first f => holding first 2 18 f /\ record_ok first /\ r_Key first = key)).
  { intros f (_ & Hu & Hn). destruct (acquire_passes "owner-a" Minute (fence (view f)) 2 18)
      with (f := f) as (out & f' & E & H1 & H2 & H3 & H4 & _); [done|durations|durations|done|].
    by exists out, f'. }
  intros first. eapply (passes_pure _ _ _ (record_ok first /\ r_Key first = key)); [by intros f [_ H]|].
  intros [Hf Hfk].
  eapply (passes_refused _ _ _ _ _ (holding first 1 17)).
  { intros f [Hh _]. by apply (contended_passes first "owner-b" Second 1 17). }
  eapply (passes_accepted _ _ _ _ (fun renewed f => holding renewed 1 16 f /\ record_ok renewed /\
    r_Key renewed = key /\ r_Token renewed = r_Token first /\ r_ExpiresAt renewed <= fx_now f + 100 * Millisecond)).
  { apply renew_passes; [done|done|durations|durations]. }
  intros renewed. eapply (passes_pure _ _ _ (record_ok renewed /\ r_Key renewed = key /\ r_Token renewed = r_Token first));
    [naive_solver|]. intros (Hr & Hrk & Hrt).
  eapply (passes_accepted _ _ _ _ (fun _ f => holding renewed 0 15 f /\ r_ExpiresAt renewed <= fx_now f + 100 * Millisecond)).
  { intros f (Hh & _ & _ & _ & Hx).
    apply (validate_passes_later renewed renewed 0 15 (fun t => r_ExpiresAt renewed <= t + 100 * Millisecond));
      (done || lia). }
  intros _. eapply passes_bind; [apply (expire_passes renewed (100 * Millisecond)); durations|]. intros u.
  eapply (passes_accepted _ _ _ _ (fun second f => holding second 13 13 f /\ record_ok second /\
    r_Key second = key /\ r_Owner second = "owner-b" /\ r_Token first < r_Token second)).
  { rewrite <- Hrt. apply acquire_passes; [done|durations|durations]. }
  intros second. eapply (passes_pure _ _ _ (record_ok second /\ r_Key second = key /\ r_Owner second = "owner-b" /\
    r_Token first < r_Token second)); [naive_solver|]. intros (Hs & Hsk & Hso & Hlt) f [Hh _].
  by apply successor_passes.
Qed.
End Passes.

(** The section's result, for every key the suite can make. *)
Lemma healthy_passes {S F} `{!LeaseBackend S} `{!ServingBackend S} (fixture : BackendFixture F)
    latency `{!HealthyFixture fixture latency} key name reversed f :
  0 <= latency <= 40 * Millisecond -> granularity <= 5 * Millisecond ->
  NewKey "conformance" name = Ok key ->
  usable fixture latency key 19 f ->
  ~ lingers granularity (fx_now f) (key_view (fx_state f) (KeyString key)) ->
  (RunBackendConformance fixture name reversed f).1 = Ok ().
Proof.
  intros Hlat Hgran Hkey Hu Hn.
  assert (Hk : KeyString key <> "") by (apply NewKey_inv in Hkey as (_ & _ & _ & ->); done).
  destruct (suite_passes fixture latency Hlat Hgran key Hk name reversed Hkey f (conj Hu Hn))
    as ([] & f' & -> & _). done.
Qed.
