(* ===== verification/Fixtures.v ===== *)
(** * The three stores pass the conformance suite

    Healthy fixtures over the memory, Valkey and PostgreSQL stores, as the packages'
    own tests build them: a manual clock for the memory store, and for the other two a
    server that answers every request [latency] later, with [time.Sleep] as the expiry
    transition. *)

From S2P Require Import Prelude GoBase GoStrings Errors LeaseKey Backend Serving Native ValkeyServer.
From S2P Require Import Memory MemoryServing Valkey ValkeyServing Postgres PostgresServing Conformance.

(** ** memory/conformance_test.go *)

#[global] Program Instance memory_healthy : HealthyFixture memory_fixture 0 := {|
  fx_state f := f.2;
  fx_now f := Now f.1;
  ready _ _ _ := True
|}.
Next Obligation.
  intros c [clock s] n _ _ _. simpl. destruct (Memory.perform None (Now clock) c s) as [r s'] eqn:E.
  simpl. split_and!; [done|lia|]. exists (Now clock). split; [lia|]. by split.
Qed.
Next Obligation. intros d k [clock s] n _ Hd. simpl. unfold Now, Add. split_and!; done || simpl; lia. Qed.

(** ** valkey/integration_test.go *)

Section ValkeyFixture.
Context {V : Type} `{!ValkeyServer V}.
Variable prefix : string.
Variable K : gset string.
Hypothesis digests_distinct : forall k k',
  k ∈ K -> k' ∈ K -> Valkey.digest (MkKey k) = Valkey.digest (MkKey k') -> k = k'.
Variable latency : Duration.
Hypothesis latency_ok : 0 <= latency <= Minute.

(** The real time and the server; [Expire] is [time.Sleep]. *)
Definition valkey_fixture : BackendFixture (Time * V) := MkFixture _
  (fun c '(now, v) =>
     let '(r, v') := Valkey.perform prefix (Valkey.MkEnv None None Delivered (server_us now)) c v in
     (r, (Add now latency, v')))
  (fun d '(now, v) => ((), (Add now d, v))).

(** Lua prints the server time in full for [n] more minutes. *)
Definition valkey_ready (n : nat) (k : string) (f : Time * V) : Prop :=
  k ∈ K /\ epoch <= f.1 /\ f.1 + (Z.of_nat n + 1) * Minute < UnixMilli lua_max.

Lemma valkey_ready_later n k now d v v' :
  0 <= d <= Minute -> valkey_ready (S n) k (now, v) -> valkey_ready n k (Add now d, v').
Proof.
  intros Hd (Hk & He & Hm). cbn [fst] in *. unfold Minute, Second, Add in *.
  split_and!; cbn [fst]; (done || unfold Minute, Second; lia).
Qed.

Lemma valkey_env_ok now v c n :
  valkey_ready (S n) (call_key c) (now, v) -> call_ok c ->
  (match c with CallTryAcquire _ _ ttl | CallRenew _ ttl => ttl <= Minute | _ => True end) ->
  Valkey.env_ok now c (Valkey.MkEnv None None Delivered (server_us now)).
Proof.
  intros (_ & He & Hm) Hok Httl. simpl in *. pose proof (server_ms_bounds now) as Hb.
  assert (Hms : forall ttl, Millisecond <= ttl <= Minute -> server_ms now + Milliseconds ttl < lua_max).
  { intros ttl Ht. pose proof (milliseconds_pos ttl (proj1 Ht)). rewrite !UnixMilli_epoch in *.
    unfold Minute, Second, Millisecond in *. lia. }
  split; simpl; try done.
  - rewrite !UnixMilli_epoch in *. unfold Millisecond in *. lia.
  - destruct c; try done; apply Hms; split; (done || apply Hok).
  - destruct c as [|owned ?|owned|owned]; try done; unfold is_uint64, uint64_max;
      [destruct Hok as [(_ & _ & H) _]|destruct Hok as (_ & _ & H)..]; unfold int64_max in H; lia.
Qed.

Program Definition valkey_healthy :
    @HealthyFixture V (Time * V) _ (valkey_serving prefix K digests_distinct) valkey_fixture latency := {|
  fx_state f := f.2;
  fx_now f := f.1;
  ready := valkey_ready
|}.
Next Obligation.
  intros c [now v] n Hr Hok Httl. simpl.
  destruct (Valkey.perform prefix _ c v) as [r v'] eqn:E. simpl.
  split_and!; [by eapply valkey_ready_later|unfold Add; lia|].
  exists now. split; [lia|]. split; [unfold Add; lia|]. split; [apply Hr|].
  eexists. split_and!; [by eapply valkey_env_ok|done|done|exact E].
Qed.
Next Obligation.
  intros d k [now v] n Hr Hd. simpl. split_and!; [by eapply valkey_ready_later|unfold Add; lia|done].
Qed.
End ValkeyFixture.

(** ** postgres/integration_test.go *)

Section PostgresFixture.
Variable K : gset string.
Hypothesis digests_distinct : forall k k',
  k ∈ K -> k' ∈ K -> Postgres.digest (MkKey k) = Postgres.digest (MkKey k') -> k = k'.
Variable latency : Duration.
Hypothesis latency_ok : 0 <= latency.

(** [clock_timestamp()], in microseconds. *)
Definition clock_timestamp (now : Time) : Time := epoch + server_us now * 1000.

Definition postgres_fixture : BackendFixture (Time * tables) := MkFixture _
  (fun c '(now, db) =>
     let t := clock_timestamp now in
     let '(r, db') := Postgres.perform (Postgres.MkEnv None None Delivered (MkReadings t t t t)) c db in
     (r, (Add now latency, db')))
  (fun d '(now, db) => ((), (Add now d, db))).

Program Definition postgres_healthy :
    @HealthyFixture tables (Time * tables) _ (postgres_serving K digests_distinct) postgres_fixture latency := {|
  fx_state f := f.2;
  fx_now f := f.1;
  ready _ k _ := k ∈ K
|}.
Next Obligation.
  intros c [now db] n Hk Hok Httl. simpl. pose proof (server_us_bounds now) as Hb.
  destruct (Postgres.perform _ c db) as [r db'] eqn:E. simpl. unfold Add.
  split; [done|]. split; [lia|]. exists now. split; [lia|]. split; [lia|]. split; [done|].
  set (t := clock_timestamp now) in *. exists (Postgres.MkEnv None None Delivered (MkReadings t t t t)).
  subst t. split_and!; [|done|done| |exact E].
  - split; [|done]. split; simpl; unfold clock_timestamp, Microsecond; lia.
  - simpl. unfold clock_timestamp. lia.
Qed.
Next Obligation. intros d k [now db] n Hk Hd. simpl. unfold Add. split_and!; done || lia. Qed.
End PostgresFixture.

(** ** Properties *)

Lemma singleton_distinct {A} (h : Key -> A) k0 k k' :
  k ∈ ({[k0]} : gset string) -> k' ∈ ({[k0]} : gset string) -> h (MkKey k) = h (MkKey k') -> k = k'.
Proof. rewrite !elem_of_singleton. by intros -> ->. Qed.

Section Fresh.
Variables (name : string) (key : Key) (reversed : bool) (now latency : Time).
Hypothesis name_ok : NewKey "conformance" name = Ok key.
Hypothesis latency_small : 0 <= latency <= 40 * Millisecond.

#[local] Abbreviation K := ({[KeyString key]} : gset string).

Lemma key_used : KeyString key ∈ K.
Proof. by rewrite elem_of_singleton. Qed.

Lemma memory_conforms max s :
  is_uint32 max -> Memory.New true max = Ok s ->
  (RunBackendConformance memory_fixture name reversed (NewClock now, s)).1 = Ok ().
Proof.
  intros Hmax HN. pose proof (Memory.New_wf _ _ _ Hmax HN) as Hwf.
  assert (Hs : entries s = ∅).
  { unfold Memory.New in HN. step_case_in HN; by simplify_eq. }
  assert (Hview : Memory.view s (KeyString key) = MkKeyState 0 None).
  { unfold Memory.view. by rewrite Hs, lookup_empty. }
  eapply (healthy_passes memory_fixture 0 key);
    [unfold Millisecond; lia|simpl; unfold Millisecond; lia|done| |].
  - split_and!; [done| |done]. split; simpl; [rewrite Hview; simpl; unfold int64_max; lia|].
    right. rewrite Hs, map_size_empty. apply Hwf.
  - simpl. rewrite Hview. by intros (r & Hr & _).
Qed.

Lemma valkey_conforms {V} `{!ValkeyServer V} prefix (v : V) :
  (forall k, slot_of v k = Absent) -> epoch <= now -> now + 20 * Minute < UnixMilli lua_max ->
  (RunBackendConformance (valkey_fixture prefix latency) name reversed (now, v)).1 = Ok ().
Proof.
  intros Hv He Hm.
  assert (Hl : 0 <= latency <= Minute) by (unfold Minute, Second, Millisecond in *; lia).
  assert (Hview : valkey_view prefix K v (KeyString key) = MkKeyState 0 None).
  { unfold valkey_view. rewrite decide_True by apply key_used. unfold counter_value, stored_lease. by rewrite !Hv. }
  pose (Hd := singleton_distinct Valkey.digest (KeyString key)).
  eapply (@healthy_passes V _ (valkey_backend prefix K Hd) (valkey_serving prefix K Hd) _ latency
    (valkey_healthy prefix K Hd latency Hl) key); [done|done|done| |].
  - split_and!.
    + intros k _. exists 0, None. split; [by apply counter_absent|by apply lease_absent].
    + simpl. unfold valkey_room. rewrite Hview. done.
    + split_and!; [apply key_used|done|cbn [fst]; unfold Minute, Second in *; lia].
  - cbn. rewrite Hview. by intros (r & Hr & _).
Qed.

Lemma postgres_conforms :
  (RunBackendConformance (postgres_fixture latency) name reversed (now, MkTables ∅ ∅)).1 = Ok ().
Proof.
  assert (Hview : postgres_view K (MkTables ∅ ∅) (KeyString key) = MkKeyState 0 None).
  { unfold postgres_view. by rewrite decide_True by apply key_used. }
  pose (Hd := singleton_distinct Postgres.digest (KeyString key)).
  eapply (@healthy_passes tables _ (postgres_backend K Hd) (postgres_serving K Hd) _ latency
    (postgres_healthy K Hd latency (proj1 latency_small)) key); [done|done|done| |].
  - split_and!; [apply db0_wf| |apply key_used]. simpl. unfold postgres_room. by rewrite Hview.
  - cbn. rewrite Hview. by intros (r & Hr & _).
Qed.
End Fresh.

(** A store that already served the key, with its lease released. *)
Lemma used_store_conforms :
  let s := MkStore 10 {["conformance/T" := MkEntry (MkRecord (MkKey "conformance/T") "a" 7 0 9) false]} in
  (RunBackendConformance memory_fixture "T" false (NewClock 1000, s)).1 = Ok ().
Proof.
  intros s.
  apply (healthy_passes memory_fixture 0 (MkKey "conformance/T") "T" false (NewClock 1000, s));
    [vm_compute; split; discriminate|vm_compute; discriminate|reflexivity| |].
  - split; [|split; [|exact I]].
    + split; [|vm_compute; discriminate|vm_compute; split; [reflexivity|discriminate]].
      apply map_Forall_singleton. vm_compute. split_and!; (reflexivity || discriminate).
    + split; [vm_compute; discriminate|]. left. vm_compute. eexists. reflexivity.
  - intros (r & Hr & _). vm_compute in Hr. discriminate Hr.
Qed.

(** C8: the conformance suite passes on the fixtures of the three stores: a new memory
    store under a manual clock; the Valkey store on any server that behaves as
    documented and holds nothing yet; and the PostgreSQL store on new tables, the last
    two with every request answered within forty milliseconds. *)
Theorem stores_conform {V} `{!ValkeyServer V} prefix latency name key reversed now max s (v : V) :
  NewKey "conformance" name = Ok key ->
  is_uint32 max -> Memory.New true max = Ok s ->
  (forall k, slot_of v k = Absent) -> epoch <= now -> now + 20 * Minute < UnixMilli lua_max ->
  0 <= latency <= 40 * Millisecond ->
  (RunBackendConformance memory_fixture name reversed (NewClock now, s)).1 = Ok () /\
  (RunBackendConformance (valkey_fixture prefix latency) name reversed (now, v)).1 = Ok () /\
  (RunBackendConformance (postgres_fixture latency) name reversed (now, MkTables ∅ ∅)).1 = Ok ().
Proof. intros. split_and!; [by eapply memory_conforms|by eapply valkey_conforms|by eapply postgres_conforms]. Qed.

Lemma stores_conform_witness :
  NewKey "conformance" "TestBackendConformance" = Ok (MkKey "conformance/TestBackendConformance") /\
  (RunBackendConformance (valkey_fixture (V := db) "app" Millisecond) "TestBackendConformance" true
     (now0, ∅)).1 = Ok ().
Proof.
  split; [reflexivity|].
  refine (proj1 (proj2 (stores_conform (V := db) "app" Millisecond "TestBackendConformance"
    (MkKey "conformance/TestBackendConformance") true now0 10 (MkStore 10 ∅) ∅ eq_refl _ eq_refl _ _ _ _)));
    [vm_compute; split; discriminate|intros k; reflexivity|vm_compute; discriminate|vm_compute; reflexivity
    |vm_compute; split; discriminate].
Defined.
