(* ===== verification/Observation.v ===== *)
(** * observation.go: a backend decorated with observers

    [NewObservedBackend] and the four methods of its result over any implementation of
    the [Backend] interface: the inner method, then one event offered to every
    registration; a registration whose callback is still running drops it. Callbacks
    run in goroutines of their own: a registration becomes free again by a step of its
    own, at any time. *)

From S2P Require Import Prelude GoBase GoStrings Strconv Sha256 Errors LeaseKey Backend Memory.

(** [Operation] and [Outcome], with their labels. *)
Inductive Operation := OperationAcquire | OperationRenew | OperationValidate | OperationRelease.
Definition operation_text (o : Operation) : string :=
  match o with
  | OperationAcquire => "acquire" | OperationRenew => "renew"
  | OperationValidate => "validate" | OperationRelease => "release"
  end.

Inductive Outcome :=
| OutcomeSuccess | OutcomeContended | OutcomeStale | OutcomeCanceled
| OutcomeUnavailable | OutcomeAmbiguous | OutcomeInvalid.
Definition outcome_text (o : Outcome) : string :=
  match o with
  | OutcomeSuccess => "success" | OutcomeContended => "contended" | OutcomeStale => "stale"
  | OutcomeCanceled => "canceled" | OutcomeUnavailable => "unavailable"
  | OutcomeAmbiguous => "ambiguous" | OutcomeInvalid => "invalid"
  end.

(** [Event]. *)
Record Event := MkEvent { At : Time; ev_Operation : Operation; ev_Outcome : Outcome; KeyHash : string }.

(** [Event.String]. *)
Definition EventString (e : Event) : string :=
  "lease operation=" ++ operation_text (ev_Operation e) ++ " outcome=" ++ outcome_text (ev_Outcome e)
    ++ " key_hash=" ++ KeyHash e.

(** [classifyOutcome]. *)
Definition classifyOutcome (err : err_opt) : Outcome :=
  match err with
  | None => OutcomeSuccess
  | Some e =>
      if Is e ErrContended || Is e ErrTimeout then OutcomeContended
      else if Is e ErrStaleOwner || Is e ErrLost then OutcomeStale
      else if Is e ErrCanceled then OutcomeCanceled
      else if Is e ErrAmbiguousOutcome then OutcomeAmbiguous
      else if Is e ErrInvalidState then OutcomeInvalid
      else OutcomeUnavailable
  end.

(** [observerSlot]: whether a callback is in flight, and the events its observer was
    given, latest first. *)
Record observerSlot := MkSlot { slot_active : bool; slot_seen : list Event }.

(** The select of [emit] on one registration. *)
Definition offer (event : Event) (slot : observerSlot) : observerSlot :=
  if slot_active slot then slot else MkSlot true (event :: slot_seen slot).

(** A callback that returns, or panics and is recovered, frees its slot. *)
Definition finish_callback (slot : observerSlot) : observerSlot := MkSlot false (slot_seen slot).

(** The [Backend] interface, over the world [W] of an implementation. *)
Record BackendMethods (W : Type) := MkMethods {
  m_TryAcquire : Context -> Key -> string -> Duration -> M W (res LeaseRecord);
  m_Renew : Context -> LeaseRecord -> Duration -> M W (res LeaseRecord);
  m_Validate : Context -> LeaseRecord -> M W (res LeaseRecord);
  m_Release : Context -> LeaseRecord -> M W err_opt
}.
Arguments MkMethods {_} _ _ _ _.
Arguments m_TryAcquire {_} _ _ _ _ _.
Arguments m_Renew {_} _ _ _ _.
Arguments m_Validate {_} _ _ _.
Arguments m_Release {_} _ _ _.

(** The error of a [(Record, error)] pair. *)
Definition error_part {A} (r : res A) : err_opt := match r with Ok _ => None | Err e => Some e end.

Section Observed.
Context {W : Type}.
Variable backend : BackendMethods W.
Variable clock : M W Time.

(** The world of the decorator: that of the inner backend and clock, and the slots. *)
Abbreviation world := (W * list observerSlot)%type.

Definition inside {A} (c : M W A) : M world A :=
  fun '(w, slots) => let '(a, w') := c w in (a, (w', slots)).

(** [emit]. *)
Definition new_event (now : Time) (operation : Operation) (key : Key) (err : err_opt) : Event :=
  MkEvent now operation (classifyOutcome err) (EncodeToString (take 16 (Sum256 (KeyString key)))).

Definition emit (operation : Operation) (key : Key) (err : err_opt) : M world () :=
  now ← inside clock;
  modw (fun '(w, slots) => (w, offer (new_event now operation key err) <$> slots)).

(** The methods of [observedBackend]. *)
Definition TryAcquire (ctx : Context) (key : Key) (owner : string) (ttl : Duration) : M world (res LeaseRecord) :=
  record ← inside (m_TryAcquire backend ctx key owner ttl);
  _ ← emit OperationAcquire key (error_part record);
  mret record.

Definition Renew (ctx : Context) (record : LeaseRecord) (ttl : Duration) : M world (res LeaseRecord) :=
  next ← inside (m_Renew backend ctx record ttl);
  _ ← emit OperationRenew (r_Key record) (error_part next);
  mret next.

Definition Validate (ctx : Context) (record : LeaseRecord) : M world (res LeaseRecord) :=
  next ← inside (m_Validate backend ctx record);
  _ ← emit OperationValidate (r_Key record) (error_part next);
  mret next.

Definition Release (ctx : Context) (record : LeaseRecord) : M world err_opt :=
  err ← inside (m_Release backend ctx record);
  _ ← emit OperationRelease (r_Key record) err;
  mret err.

Definition observedBackend : BackendMethods world := MkMethods TryAcquire Renew Validate Release.
End Observed.

(** [NewObservedBackend]; nil arguments are [None] and [false]. *)
Definition NewObservedBackend {W} (backend : option (BackendMethods W)) (clock : option (M W Time))
    (observers : list bool) : res (BackendMethods (W * list observerSlot) * list observerSlot) :=
  match backend, clock with
  | Some b, Some c =>
      if (Z.of_nat (length observers) =? 0) || (16 <? Z.of_nat (length observers))
      then Err (WrapS ErrInvalidState "observation options")
      else if existsb negb observers then Err (WrapS ErrInvalidState "nil observer")
      else Ok (observedBackend b c, (fun _ => MkSlot false []) <$> observers)
  | _, _ => Err (WrapS ErrInvalidState "observation options")
  end.

(** ** Calls *)

(** A call of an implementation, with its reply. *)
Definition invoke {W} (m : BackendMethods W) (ctx : Context) (c : call) : M W reply :=
  match c with
  | CallTryAcquire key owner ttl => r ← m_TryAcquire m ctx key owner ttl; mret (reply_of r)
  | CallRenew owned ttl => r ← m_Renew m ctx owned ttl; mret (reply_of r)
  | CallValidate owned => r ← m_Validate m ctx owned; mret (reply_of r)
  | CallRelease owned => e ← m_Release m ctx owned; mret (ack_of e)
  end.

(** What the documentation says of an event: the operation by its name, the outcome by
    the first class of errors that applies, the key by its digest. *)
Definition call_label (c : call) : string :=
  match c with
  | CallTryAcquire _ _ _ => "acquire"
  | CallRenew _ _ => "renew"
  | CallValidate _ => "validate"
  | CallRelease _ => "release"
  end.

Definition call_Key (c : call) : Key :=
  match c with
  | CallTryAcquire key _ _ => key
  | CallRenew owned _ | CallValidate owned | CallRelease owned => r_Key owned
  end.

Definition outcome_classes : list (sentinel * string) :=
  [(ErrContended, "contended"); (ErrTimeout, "contended"); (ErrStaleOwner, "stale"); (ErrLost, "stale");
   (ErrCanceled, "canceled"); (ErrAmbiguousOutcome, "ambiguous"); (ErrInvalidState, "invalid")].

Definition outcome_label (r : reply) : string :=
  match r with
  | Failed e => default "unavailable" (snd <$> head (filter (fun c => Is e c.1 = true) outcome_classes))
  | _ => "success"
  end.

Definition key_digest (key : Key) : string := EncodeToString (take 16 (Sum256 (KeyString key))).

(** ** Lemmas *)

Definition hex_chars (s : string) : Prop :=
  forall c, (exists p q, s = p ++ String c q) -> exists n, 0 <= n < 16 /\ c = hex_digit n.

Lemma hex_chars_encode bytes : Forall (fun b => 0 <= b < 256) bytes -> hex_chars (EncodeToString bytes).
Proof.
  intros H c (p & q & Heq). revert p Heq.
  induction H as [|b bytes Hb _ IH]; intros p Heq; [by destruct p|].
  cbn [EncodeToString] in Heq.
  pose proof (Z.mod_pos_bound b 16). pose proof (Z.div_lt_upper_bound b 16 16). pose proof (Z.div_pos b 16).
  destruct p as [|x p]; [injection Heq as <- _; exists (b / 16); split; [lia|done]|].
  injection Heq as _ Heq.
  destruct p as [|y p]; [injection Heq as <- _; exists (b mod 16); split; [lia|done]|].
  injection Heq as _ Heq. by eapply IH.
Qed.


Lemma classify_label err :
  outcome_text (classifyOutcome err) =
  match err with
  | None => "success"
  | Some e => default "unavailable" (snd <$> head (filter (fun c => Is e c.1 = true) outcome_classes))
  end.
Proof.
  destruct err as [e|]; [|done]. unfold classifyOutcome, outcome_classes. rewrite !filter_cons. simpl.
  destruct (Is e ErrContended), (Is e ErrTimeout), (Is e ErrStaleOwner), (Is e ErrLost), (Is e ErrCanceled),
    (Is e ErrAmbiguousOutcome), (Is e ErrInvalidState); done.
Qed.

Definition call_operation (c : call) : Operation :=
  match c with
  | CallTryAcquire _ _ _ => OperationAcquire
  | CallRenew _ _ => OperationRenew
  | CallValidate _ => OperationValidate
  | CallRelease _ => OperationRelease
  end.
Definition reply_error (r : reply) : err_opt := match r with Failed e => Some e | _ => None end.

Section Calls.
Context {W : Type}.
Variable backend : BackendMethods W.
Variable clock : M W Time.

(** The event of a call made in the world [w]. *)
Definition call_event (ctx : Context) (c : call) (w : W) : Event :=
  let i := invoke backend ctx c w in
  new_event (clock i.2).1 (call_operation c) (call_Key c) (reply_error i.1).

Lemma emit_eq operation key err w slots :
  emit clock operation key err (w, slots) =
  ((), ((clock w).2, offer (new_event (clock w).1 operation key err) <$> slots)).
Proof. unfold emit. rewrite M_bind_eq. simpl. by destruct (clock w). Qed.

Lemma inside_eq {A} (c : M W A) w slots : inside c (w, slots) = ((c w).1, ((c w).2, slots)).
Proof. simpl. by destruct (c w). Qed.

Lemma invoke_observed ctx c w slots :
  invoke (observedBackend backend clock) ctx c (w, slots) =
  let i := invoke backend ctx c w in (i.1, ((clock i.2).2, offer (call_event ctx c w) <$> slots)).
Proof.
  unfold call_event.
  destruct c; cbn [invoke observedBackend m_TryAcquire m_Renew m_Validate m_Release];
    unfold TryAcquire, Renew, Validate, Release;
    repeat first [rewrite M_bind_eq | rewrite inside_eq | rewrite emit_eq | rewrite M_ret_eq];
    cbn [fst snd]; rewrite emit_eq; cbn [fst snd];
    match goal with |- context [reply_error (_ ?x)] => by destruct x end.
Qed.

Lemma event_text ctx c w :
  EventString (call_event ctx c w) =
  "lease operation=" ++ call_label c ++ " outcome=" ++ outcome_label (invoke backend ctx c w).1
    ++ " key_hash=" ++ key_digest (call_Key c).
Proof.
  unfold EventString, call_event, new_event. cbn [ev_Operation ev_Outcome KeyHash]. rewrite classify_label.
  unfold outcome_label. by destruct (invoke backend ctx c w).1, c.
Qed.

(** ** Traffic *)

(** Calls of the decorated backend, and callbacks that end, in any order. *)
Inductive activity := Call (ctx : Context) (c : call) | Finished (observer : nat).

(** The events of the calls, latest first, and the world after all of it. *)
Fixpoint traffic (acts : list activity) (events : list Event) (s : W * list observerSlot) :
    list Event * (W * list observerSlot) :=
  match acts with
  | [] => (events, s)
  | Call ctx c :: rest =>
      traffic rest (call_event ctx c s.1 :: events) (invoke (observedBackend backend clock) ctx c s).2
  | Finished i :: rest => traffic rest events (s.1, alter finish_callback i s.2)
  end.

(** What an observer saw: some of the events, each at most once and in their order. *)
Lemma traffic_sublist acts : forall events w slots,
  Forall (fun slot => sublist (slot_seen slot) events) slots ->
  let o := traffic acts events (w, slots) in
  Forall (fun slot => sublist (slot_seen slot) o.1) o.2.2 /\ length o.2.2 = length slots.
Proof.
  induction acts as [|[ctx c|i] acts IH]; intros events w slots H; cbn [traffic]; [done|..].
  - rewrite invoke_observed. cbn [fst snd].
    destruct (IH (call_event ctx c w :: events) (clock (invoke backend ctx c w).2).2
      (offer (call_event ctx c w) <$> slots)) as [H1 H2].
    + apply Forall_fmap. eapply Forall_impl; [|exact H]. intros slot Hs. unfold compose, offer.
      destruct (slot_active slot); simpl; [by apply sublist_cons|by apply sublist_skip].
    + split; [exact H1|]. by rewrite H2, length_fmap.
  - cbn [fst snd]. destruct (IH events w (alter finish_callback i slots)) as [H1 H2].
    + by apply Forall_alter.
    + split; [exact H1|]. by rewrite H2, length_alter.
Qed.
End Calls.

(** Whatever implements the contract does so behind observers. *)
Program Definition observed_contract {S} `{!LeaseBackend S} : LeaseBackend (S * list observerSlot) := {|
  granularity := granularity;
  backend_wf s := backend_wf s.1;
  backend_call now c s r s' := backend_call now c s.1 r s'.1;
  key_view s := key_view s.1
|}.
Next Obligation. intros. apply granularity_nonneg. Qed.
Next Obligation. intros S H now c [s o] r [s' o'] Hwf Hc. by eapply backend_wf_call. Qed.
Next Obligation. intros S H now c [s o] r [s' o'] Hwf Hc. by eapply backend_refines. Qed.
Next Obligation. intros S H now c [s o] r [s' o'] k Hwf Hc Hk. by eapply backend_frame. Qed.

Lemma observed_implements {S} `{!LeaseBackend S} (backend : BackendMethods S) clock ctx c s slots :
  (forall s, (clock s).2 = s) ->
  (exists now, backend_call now c s (invoke backend ctx c s).1 (invoke backend ctx c s).2) ->
  let o := invoke (observedBackend backend clock) ctx c (s, slots) in
  exists now, @backend_call _ observed_contract now c (s, slots) o.1 o.2.
Proof.
  intros Hclock [now Hc]. simpl. exists now. rewrite invoke_observed. simpl. by rewrite Hclock.
Qed.

(** ** Properties *)


(** The memory store, with its methods as an implementation. *)
Definition memory_methods (now : Time) : BackendMethods Store := MkMethods
  (fun _ key owner ttl => Memory.TryAcquire None now key owner ttl)
  (fun _ owned ttl => Memory.Renew None now owned ttl)
  (fun _ owned => Memory.Validate None now owned)
  (fun _ owned => Memory.Release None owned).

(** An acquisition and a forged renewal, seen by the idle one of two observers. *)
Example observed_memory :
  let m := observedBackend (memory_methods 100) (mret 100) in
  let o := invoke m Background (CallTryAcquire k1 "a" 10) (store0, [MkSlot false []; MkSlot true []]) in
  let o' := invoke m Background (CallRenew (MkRecord k1 "b" 1 0 0) 10) (o.2.1, finish_callback <$> o.2.2) in
  EventString <$> (slot_seen <$> o'.2.2) ≫= id =
    ["lease operation=renew outcome=stale key_hash=933f0a5ebdb23af58e4606d6b7186fda";
     "lease operation=acquire outcome=success key_hash=933f0a5ebdb23af58e4606d6b7186fda";
     "lease operation=renew outcome=stale key_hash=933f0a5ebdb23af58e4606d6b7186fda"].
Proof. by vm_compute. Qed.
