(* ===== verification/Handle.v ===== *)
(** * handle.go: the local admission view of one acquisition

    The fields of a handle change only under its mutex, and backend calls run with
    the mutex released. So each critical section is one function on the handle, with
    the clock readings made inside it as arguments ([now] from the injected clock,
    [wall] from [time.Now]), and the interleavings of any number of goroutines are
    the sequences of the step relation [hstep], whose steps are these sections. The
    replies a handle receives from the backend are arbitrary here. *)

From S2P Require Import Prelude GoBase GoStrings Errors LeaseKey LeasePolicy Backend.

(** [State]. *)
Inductive State :=
| StateActive
| StateExpired
| StateLost
| StateUncertain
| StateReleased.

#[global] Instance State_eq_dec : EqDecision State.
Proof. solve_decision. Defined.

(** The uint8 codes of the [iota + 1] block, and [State.String] on a code. *)
Definition state_code (s : State) : Z :=
  match s with
  | StateActive => 1 | StateExpired => 2 | StateLost => 3
  | StateUncertain => 4 | StateReleased => 5
  end.

Definition StateString (code : Z) : string :=
  if code =? 1 then "active"
  else if code =? 2 then "expired"
  else if code =? 3 then "lost"
  else if code =? 4 then "uncertain"
  else if code =? 5 then "released"
  else "invalid".

(** [Handle], less the mutex and the borrowed dependencies. *)
Record Handle := MkHandle {
  policy : Policy;
  record : LeaseRecord;
  deadline : Time;
  wallDeadline : Time;
  state : State;
  busy : bool;
  managed : bool
}.

Definition set_state (s : State) (h : Handle) : Handle :=
  MkHandle (policy h) (record h) (deadline h) (wallDeadline h) s (busy h) (managed h).
Definition set_busy (b : bool) (h : Handle) : Handle :=
  MkHandle (policy h) (record h) (deadline h) (wallDeadline h) (state h) b (managed h).
Definition set_managed (b : bool) (h : Handle) : Handle :=
  MkHandle (policy h) (record h) (deadline h) (wallDeadline h) (state h) (busy h) b.
Definition set_record (r : LeaseRecord) (h : Handle) : Handle :=
  MkHandle (policy h) r (deadline h) (wallDeadline h) (state h) (busy h) (managed h).
Definition set_deadlines (d w : Time) (h : Handle) : Handle :=
  MkHandle (policy h) (record h) d w (state h) (busy h) (managed h).

(** [newHandleAt]. *)
Definition newHandleAt (p : Policy) (rec : LeaseRecord) (started wallStarted : Time) : Handle :=
  MkHandle p rec (Add started (budget p)) (Add wallStarted (budget p)) StateActive false false.

(** The accessors [Owner], [Token], [Snapshot], [AcquiredAt], [Deadline]. *)
Definition Owner (h : Handle) : string := r_Owner (record h).
Definition Token (h : Handle) : Z := r_Token (record h).
Definition Snapshot (h : Handle) : LeaseRecord := record h.
Definition AcquiredAt (h : Handle) : Time := r_AcquiredAt (record h).
Definition Deadline (h : Handle) : Time := deadline h.

(** [expireLocked]. *)
Definition expireLocked (now wall : Time) (h : Handle) : Handle :=
  if bool_decide (state h = StateActive) &&
     (negb (Before now (deadline h)) || negb (Before wall (wallDeadline h)))
  then set_state StateExpired h else h.

(** [State]: the method. *)
Definition StateOf (now wall : Time) (h : Handle) : State * Handle :=
  let h' := expireLocked now wall h in (state h', h').

(** [failLocked]. *)
Definition failLocked (err : error) (h : Handle) : Handle :=
  if negb (bool_decide (state h = StateActive)) then h
  else if Is err ErrStaleOwner || Is err ErrLost then set_state StateLost h
  else set_state StateUncertain h.

(** [requireActiveLocked]. *)
Definition requireActiveLocked (now wall : Time) (h : Handle) : err_opt * Handle :=
  let h' := expireLocked now wall h in
  if bool_decide (state h' = StateExpired) then (Some (WrapS ErrLost "deadline"), h')
  else if negb (bool_decide (state h' = StateActive))
  then (Some (WrapS ErrInvalidState "handle"), h')
  else (None, h').

(** [beginActiveOperation]. *)
Definition beginActiveOperation (now wall : Time) (h : Handle) : res LeaseRecord * Handle :=
  match requireActiveLocked now wall h with
  | (Some err, h') => (Err err, h')
  | (None, h') =>
      if busy h' then (Err (WrapS ErrInvalidState "handle operation"), h')
      else (Ok (record h'), set_busy true h')
  end.

(** [finishActiveOperation]. *)
Definition finishActiveOperation (now wall : Time) (rec : LeaseRecord) (err : err_opt)
    (dl wallDl : Time) (h : Handle) : err_opt * Handle :=
  let h1 := expireLocked now wall (set_busy false h) in
  match err with
  | Some e => (Some e, failLocked e h1)
  | None =>
      if negb (bool_decide (state h1 = StateActive))
      then (Some (WrapS ErrLost "deadline during operation"), h1)
      else
        let h2 := set_record rec h1 in
        (None, if negb (IsZero dl) then set_deadlines dl wallDl h2 else h2)
  end.

(** [sameAcquisition]. *)
Definition sameAcquisition (current next : LeaseRecord) : bool :=
  String.eqb (KeyString (r_Key current)) (KeyString (r_Key next)) &&
  String.eqb (r_Owner current) (r_Owner next) && (r_Token current =? r_Token next) &&
  Equal (r_AcquiredAt current) (r_AcquiredAt next) &&
  After (r_ExpiresAt next) (r_AcquiredAt next).

(** The value and error the backend call leaves in [next, err], after the identity
    check of [Renew] (an ambiguous outcome) and of [Validate] (unavailable). *)
Definition checkReply (onMismatch : error) (rec : LeaseRecord) (r : res LeaseRecord) :
    LeaseRecord * err_opt :=
  match r with
  | Err e => (zero_record, Some e)
  | Ok next => (next, if sameAcquisition rec next then None else Some onMismatch)
  end.

(** [Renew], from the backend's reply on. *)
Definition finishRenew (now wall : Time) (rec : LeaseRecord) (started wallStarted : Time)
    (r : res LeaseRecord) (h : Handle) : err_opt * Handle :=
  let '(next, err) := checkReply (WrapS ErrAmbiguousOutcome "renew response") rec r in
  finishActiveOperation now wall next err
    (Add started (budget (policy h))) (Add wallStarted (budget (policy h))) h.

(** [Validate], from the backend's reply on: the zero deadline keeps the budget. *)
Definition finishValidate (now wall : Time) (rec : LeaseRecord)
    (r : res LeaseRecord) (h : Handle) : err_opt * Handle :=
  let '(next, err) := checkReply (WrapS ErrBackendUnavailable "validate response") rec r in
  finishActiveOperation now wall next err 0 0 h.

(** [Release], up to the backend call: return at once, or call with the record. *)
Definition beginRelease (h : Handle) : (err_opt + LeaseRecord) * Handle :=
  if bool_decide (state h = StateReleased) then (inl None, h)
  else if bool_decide (state h = StateLost) || bool_decide (state h = StateUncertain)
  then (inl (Some (WrapS ErrInvalidState "release")), h)
  else if busy h then (inl (Some (WrapS ErrInvalidState "handle operation")), h)
  else (inr (record h), set_busy true h).

(** [Release], from the backend's reply on. *)
Definition finishRelease (err : err_opt) (h : Handle) : err_opt * Handle :=
  let h1 := set_busy false h in
  match err with
  | Some e => (Some e, failLocked e h1)
  | None => (None, set_state StateReleased h1)
  end.

(** [StartManaged]; [slot] says whether the shared managed-renewal channel had room
    for the nonblocking send. *)
Definition StartManaged (now wall : Time) (slot : bool) (h : Handle) : err_opt * Handle :=
  match requireActiveLocked now wall h with
  | (Some err, h') => (Some err, h')
  | (None, h') =>
      if (renewEvery (policy h') <=? 0) || managed h' || busy h'
      then (Some (WrapS ErrInvalidState "managed renewal"), h')
      else if negb slot then (Some (WrapS ErrBackendUnavailable "managed renewal capacity"), h')
      else (None, set_managed true h')
  end.

(** ** Interleavings *)

(** An operation whose backend call is outstanding, with what its goroutine keeps
    on its stack. *)
Inductive pending :=
| PRenew (rec : LeaseRecord) (started wallStarted : Time)
| PValidate (rec : LeaseRecord)
| PRelease (rec : LeaseRecord).

(** A handle and the outstanding operations of all goroutines. *)
Record hsys := MkHsys { handle : Handle; ops : gmap nat pending }.

(** One critical section of one goroutine. *)
Inductive hstep : hsys -> hsys -> Prop :=
| step_state now wall h ps :
    hstep (MkHsys h ps) (MkHsys (StateOf now wall h).2 ps)
| step_begin_renew id now wall started wallStarted rec h h' ps :
    ps !! id = None -> beginActiveOperation now wall h = (Ok rec, h') ->
    hstep (MkHsys h ps) (MkHsys h' (<[id := PRenew rec started wallStarted]> ps))
| step_begin_validate id now wall rec h h' ps :
    ps !! id = None -> beginActiveOperation now wall h = (Ok rec, h') ->
    hstep (MkHsys h ps) (MkHsys h' (<[id := PValidate rec]> ps))
| step_begin_refused now wall err h h' ps :
    beginActiveOperation now wall h = (Err err, h') ->
    hstep (MkHsys h ps) (MkHsys h' ps)
| step_begin_release id rec h h' ps :
    ps !! id = None -> beginRelease h = (inr rec, h') ->
    hstep (MkHsys h ps) (MkHsys h' (<[id := PRelease rec]> ps))
| step_release_returns err h h' ps :
    beginRelease h = (inl err, h') -> hstep (MkHsys h ps) (MkHsys h' ps)
| step_finish_renew id now wall rec started wallStarted r h ps :
    ps !! id = Some (PRenew rec started wallStarted) ->
    hstep (MkHsys h ps)
      (MkHsys (finishRenew now wall rec started wallStarted r h).2 (delete id ps))
| step_finish_validate id now wall rec r h ps :
    ps !! id = Some (PValidate rec) ->
    hstep (MkHsys h ps) (MkHsys (finishValidate now wall rec r h).2 (delete id ps))
| step_finish_release id rec err h ps :
    ps !! id = Some (PRelease rec) ->
    hstep (MkHsys h ps) (MkHsys (finishRelease err h).2 (delete id ps))
| step_start_managed now wall slot h ps :
    hstep (MkHsys h ps) (MkHsys (StartManaged now wall slot h).2 ps)
| step_managed_exit h ps :
    hstep (MkHsys h ps) (MkHsys (set_managed false h) ps).

(** A fresh handle with no operation outstanding. *)
Definition hinit (p : Policy) (rec : LeaseRecord) (started wallStarted : Time) : hsys :=
  MkHsys (newHandleAt p rec started wallStarted) ∅.

Definition pending_record (p : pending) : LeaseRecord :=
  match p with PRenew r _ _ | PValidate r | PRelease r => r end.

(** What two records of one acquisition share. *)
Definition same_identity (a b : LeaseRecord) : Prop :=
  KeyString (r_Key a) = KeyString (r_Key b) /\ r_Owner a = r_Owner b /\
  r_Token a = r_Token b /\ r_AcquiredAt a = r_AcquiredAt b.

(** The local transitions of docs/state-machine.md between observations. *)
Definition may_become (s s' : State) : Prop :=
  s = s' \/ s = StateActive \/ (s = StateExpired /\ s' = StateReleased).

(** [newHandle]: the constructor that reads both clocks itself. *)
Definition newHandle (p : Policy) (rec : LeaseRecord) (now wall : Time) : Handle :=
  newHandleAt p rec now wall.

(** ** Lemmas on the critical sections *)

(** What the sections never touch: policy and record (outside [finish]), deadlines. *)
Definition same_frame (h h' : Handle) : Prop :=
  policy h' = policy h /\ record h' = record h /\ deadline h' = deadline h /\
  wallDeadline h' = wallDeadline h.

Lemma same_frame_trans h1 h2 h3 : same_frame h1 h2 -> same_frame h2 h3 -> same_frame h1 h3.
Proof. unfold same_frame. naive_solver congruence. Qed.

Lemma expireLocked_frame now wall h :
  same_frame h (expireLocked now wall h) /\
  busy (expireLocked now wall h) = busy h /\ managed (expireLocked now wall h) = managed h.
Proof. unfold expireLocked. by step_case. Qed.

(** Expiry is the only effect: an active handle stays active exactly before both
    deadlines, and no other state changes. *)
Lemma expireLocked_state now wall h :
  state (expireLocked now wall h) =
    if decide (state h = StateActive)
    then if decide (now < deadline h /\ wall < wallDeadline h) then StateActive else StateExpired
    else state h.
Proof.
  unfold expireLocked, Before. case_decide as Hs.
  - rewrite bool_decide_eq_true_2 by done. simpl.
    case_decide as Hd; destruct (Z.ltb_spec now (deadline h)), (Z.ltb_spec wall (wallDeadline h));
      simpl; try done; lia.
  - by rewrite bool_decide_eq_false_2.
Qed.

Lemma expireLocked_may now wall h : may_become (state h) (state (expireLocked now wall h)).
Proof. rewrite expireLocked_state. unfold may_become. repeat case_decide; auto. Qed.

Lemma expireLocked_active now wall h :
  state (expireLocked now wall h) = StateActive ->
  state h = StateActive /\ now < deadline h /\ wall < wallDeadline h /\
  expireLocked now wall h = h.
Proof.
  intros H. pose proof H as H'. rewrite expireLocked_state in H'.
  repeat case_decide; try done. split_and!; try naive_solver.
  unfold expireLocked, Before. destruct (Z.ltb_spec now (deadline h)), (Z.ltb_spec wall (wallDeadline h));
    simpl; try lia. by rewrite andb_false_r.
Qed.

Lemma requireActive_frame now wall h e h' :
  requireActiveLocked now wall h = (e, h') ->
  h' = expireLocked now wall h /\ (e = None -> state h' = StateActive) /\
  (e <> None -> state h' <> StateActive).
Proof.
  unfold requireActiveLocked. intros H.
  repeat (step_case_in H; simplify_eq); split_and!; try done; bool_split; congruence.
Qed.

(** The reservation of an operation: granted exactly to an active, idle handle. *)
Lemma begin_Ok now wall h rec h' :
  beginActiveOperation now wall h = (Ok rec, h') ->
  state h = StateActive /\ now < deadline h /\ wall < wallDeadline h /\
  busy h = false /\ rec = record h /\ h' = set_busy true h.
Proof.
  unfold beginActiveOperation. intros H.
  destruct (requireActiveLocked now wall h) as [[e|] h1] eqn:E; [done|].
  apply requireActive_frame in E as (-> & Ha & _). specialize (Ha eq_refl).
  apply expireLocked_active in Ha as (? & ? & ? & Heq). rewrite Heq in *.
  step_case_in H; simplify_eq. done.
Qed.

Lemma begin_Err now wall h e h' :
  beginActiveOperation now wall h = (Err e, h') -> h' = expireLocked now wall h.
Proof.
  unfold beginActiveOperation. intros H.
  destruct (requireActiveLocked now wall h) as [[e1|] h1] eqn:E;
    apply requireActive_frame in E as (-> & _); [by simplify_eq|].
  by step_case_in H; simplify_eq.
Qed.

Lemma failLocked_frame e h :
  same_frame h (failLocked e h) /\ busy (failLocked e h) = busy h /\
  managed (failLocked e h) = managed h.
Proof. unfold failLocked. by repeat step_case. Qed.

(** A failure closes admission for good, and touches only an active handle. *)
Lemma failLocked_state e h :
  state (failLocked e h) =
    if decide (state h = StateActive)
    then if Is e ErrStaleOwner || Is e ErrLost then StateLost else StateUncertain
    else state h.
Proof.
  unfold failLocked. case_decide.
  - rewrite bool_decide_eq_true_2 by done. simpl. by step_case.
  - by rewrite bool_decide_eq_false_2.
Qed.

Lemma failLocked_not_active e h : state (failLocked e h) <> StateActive.
Proof. rewrite failLocked_state. repeat (case_decide || step_case); done. Qed.

Lemma failLocked_may e h : may_become (state h) (state (failLocked e h)).
Proof. rewrite failLocked_state. unfold may_become. case_decide; auto. Qed.

Lemma sameAcquisition_true a b :
  sameAcquisition a b = true ->
  same_identity a b /\ r_AcquiredAt b < r_ExpiresAt b.
Proof.
  unfold sameAcquisition, same_identity, Equal, After. intros H. bool_split. done.
Qed.

(** The three outcomes of [finishActiveOperation]. *)
Lemma finish_cases now wall rec err dl wdl h e h' :
  finishActiveOperation now wall rec err dl wdl h = (e, h') ->
  (exists e0, err = Some e0 /\ e = Some e0 /\
     h' = failLocked e0 (expireLocked now wall (set_busy false h))) \/
  (err = None /\ e = Some (WrapS ErrLost "deadline during operation") /\
     h' = expireLocked now wall (set_busy false h) /\ state h' <> StateActive) \/
  (err = None /\ e = None /\ state h = StateActive /\
     now < deadline h /\ wall < wallDeadline h /\
     h' = (if negb (IsZero dl) then set_deadlines dl wdl (set_record rec (set_busy false h))
           else set_record rec (set_busy false h))).
Proof.
  unfold finishActiveOperation. intros H. destruct err as [e0|]; simplify_eq.
  { left. eauto. }
  right. step_case_in H; bool_split; simplify_eq.
  - left. done.
  - right. apply expireLocked_active in Heqb as (Hs & H1 & H2 & Heq).
    rewrite Heq. done.
Qed.

(** How a finished operation moves the state: never back to active, to released
    only through [Release]. *)
Lemma finish_may now wall rec err dl wdl h e h' :
  finishActiveOperation now wall rec err dl wdl h = (e, h') ->
  may_become (state h) (state h') /\ busy h' = false /\ policy h' = policy h /\
  (state h' = StateActive -> state h = StateActive) /\
  (state h <> StateActive -> state h' = state h).
Proof.
  intros H. apply finish_cases in H as [(e0 & -> & -> & ->)|[(-> & -> & -> & Hn)|
    (-> & -> & Hs & _ & _ & ->)]].
  - set (h1 := expireLocked now wall (set_busy false h)).
    pose proof (failLocked_frame e0 h1) as ((Hp & _) & Hb & _).
    pose proof (expireLocked_frame now wall (set_busy false h)) as ((Hp1 & _) & Hb1 & _).
    fold h1 in Hp1, Hb1. rewrite Hb, Hb1, Hp, Hp1. rewrite failLocked_state. subst h1.
    rewrite expireLocked_state. simpl. unfold may_become.
    destruct (state h); repeat case_decide; repeat step_case; naive_solver.
  - pose proof (expireLocked_frame now wall (set_busy false h)) as ((Hp1 & _) & Hb1 & _).
    rewrite Hb1, Hp1. rewrite expireLocked_state in *. simpl in *. unfold may_become.
    destruct (state h); repeat case_decide; naive_solver.
  - step_case; simpl; unfold may_become; naive_solver.
Qed.

Lemma beginRelease_call h rec h' :
  beginRelease h = (inr rec, h') ->
  (state h = StateActive \/ state h = StateExpired) /\ busy h = false /\
  rec = record h /\ h' = set_busy true h.
Proof.
  unfold beginRelease. intros H. repeat (step_case_in H; simplify_eq). bool_split.
  split_and!; try done. destruct (state h); naive_solver.
Qed.

Lemma beginRelease_return h e h' : beginRelease h = (inl e, h') -> h' = h.
Proof. unfold beginRelease. intros H. by repeat (step_case_in H; simplify_eq). Qed.

Lemma StartManaged_frame now wall slot h :
  let h' := (StartManaged now wall slot h).2 in
  same_frame h h' /\ busy h' = busy h /\ state h' = state (expireLocked now wall h).
Proof.
  unfold StartManaged.
  destruct (requireActiveLocked now wall h) as [[e|] h1] eqn:E;
    apply requireActive_frame in E as (-> & _);
    pose proof (expireLocked_frame now wall h) as (? & ? & _); [done|].
  by repeat step_case.
Qed.

(** ** The invariant of all interleavings *)

(** At most one operation is outstanding, exactly when [busy] is set; it carries the
    handle's current record, and the handle is then active or expired; policy and
    identity never change. *)
Record hinv (p0 : Policy) (rec0 : LeaseRecord) (s : hsys) : Prop := {
  hi_policy : policy (handle s) = p0;
  hi_identity : same_identity rec0 (record (handle s));
  hi_ops :
    (busy (handle s) = false /\ ops s = ∅) \/
    (busy (handle s) = true /\
     (state (handle s) = StateActive \/ state (handle s) = StateExpired) /\
     exists id p, ops s = {[id := p]} /\ pending_record p = record (handle s))
}.

Lemma hinit_inv p rec st wst : hinv p rec (hinit p rec st wst).
Proof. split; simpl; [done|done|by left]. Qed.

(** A section that keeps the frame and [busy], and expires at most, keeps the
    invariant. *)
Lemma hinv_frame p0 rec0 h ps h' :
  hinv p0 rec0 (MkHsys h ps) -> same_frame h h' -> busy h' = busy h ->
  (state h' = state h \/ state h' = StateExpired) -> hinv p0 rec0 (MkHsys h' ps).
Proof.
  intros [Hp Hi Ho] (Hp' & Hr' & _) Hb' Hs. simpl in *. split; simpl.
  - by rewrite Hp'.
  - by rewrite Hr'.
  - rewrite Hb', Hr'. destruct Ho as [?|(? & Hst & ?)]; [by left|right].
    split_and!; try done. destruct Hs as [->| ->]; auto.
Qed.

Lemma expire_stays now wall h :
  state (expireLocked now wall h) = state h \/ state (expireLocked now wall h) = StateExpired.
Proof. rewrite expireLocked_state. repeat case_decide; auto. Qed.

Lemma hinv_begin p0 rec0 h ps id p :
  hinv p0 rec0 (MkHsys h ps) -> busy h = false ->
  (state h = StateActive \/ state h = StateExpired) -> pending_record p = record h ->
  hinv p0 rec0 (MkHsys (set_busy true h) (<[id := p]> ps)).
Proof.
  intros [Hp Hi Ho] Hb Hs Hr. simpl in *. destruct Ho as [[_ ->]|[? _]]; [|congruence].
  split; simpl; [done|done|right]. split_and!; try done. by exists id, p.
Qed.

(** With an outstanding operation there is no other one. *)
Lemma hinv_pending p0 rec0 h ps id p :
  hinv p0 rec0 (MkHsys h ps) -> ps !! id = Some p ->
  busy h = true /\ delete id ps = ∅ /\ pending_record p = record h /\
  (state h = StateActive \/ state h = StateExpired).
Proof.
  intros [_ _ Ho] Hid. simpl in *. destruct Ho as [[_ ->]|(Hb & Hs & id' & p' & -> & Hr)].
  { by rewrite lookup_empty in Hid. }
  apply lookup_singleton_Some in Hid as [-> ->]. split_and!; try done.
  apply delete_singleton_eq.
Qed.

Lemma hinv_finish p0 rec0 h h' :
  policy h = p0 -> policy h' = policy h -> busy h' = false ->
  same_identity rec0 (record h') -> hinv p0 rec0 (MkHsys h' ∅).
Proof. intros <- Hp Hb Hi. split; simpl; [done|done|by left]. Qed.

Lemma expireLocked_record now wall h : record (expireLocked now wall h) = record h.
Proof. by destruct (expireLocked_frame now wall h) as ((_ & ? & _) & _). Qed.

Lemma failLocked_record e h : record (failLocked e h) = record h.
Proof. by destruct (failLocked_frame e h) as ((_ & ? & _) & _). Qed.

(** The record after an operation: unchanged, or the checked reply. *)
Lemma finish_identity mismatch now wall rec r dl wdl h e h' :
  finishActiveOperation now wall (checkReply mismatch rec r).1 (checkReply mismatch rec r).2
    dl wdl h = (e, h') ->
  record h' = record h \/ (exists next, r = Ok next /\ record h' = next /\ e = None /\
    sameAcquisition rec next = true).
Proof.
  intros H. apply finish_cases in H as [(e0 & _ & _ & ->)|[(_ & _ & -> & _)|(He & -> & _ & _ & _ & ->)]].
  - left. by rewrite failLocked_record, expireLocked_record.
  - left. by rewrite expireLocked_record.
  - right. destruct r as [next|]; simpl in *; [|done]. exists next.
    destruct (sameAcquisition rec next) eqn:E; [|done]. by step_case.
Qed.

Lemma same_identity_trans a b c : same_identity a b -> same_identity b c -> same_identity a c.
Proof. unfold same_identity. intros (? & ? & ? & ?) (? & ? & ? & ?). split_and!; congruence. Qed.

Lemma finishRenew_eq now wall rec st wst r h :
  finishRenew now wall rec st wst r h =
  finishActiveOperation now wall
    (checkReply (WrapS ErrAmbiguousOutcome "renew response") rec r).1
    (checkReply (WrapS ErrAmbiguousOutcome "renew response") rec r).2
    (Add st (budget (policy h))) (Add wst (budget (policy h))) h.
Proof. unfold finishRenew. by destruct (checkReply _ _ _). Qed.

Lemma finishValidate_eq now wall rec r h :
  finishValidate now wall rec r h =
  finishActiveOperation now wall
    (checkReply (WrapS ErrBackendUnavailable "validate response") rec r).1
    (checkReply (WrapS ErrBackendUnavailable "validate response") rec r).2 0 0 h.
Proof. unfold finishValidate. by destruct (checkReply _ _ _). Qed.

(** Both finishing sections, from the invariant and an outstanding operation. *)
Lemma hinv_finish_active p0 rec0 mismatch h ps id p now wall r dl wdl e h' :
  hinv p0 rec0 (MkHsys h ps) -> ps !! id = Some p ->
  finishActiveOperation now wall (checkReply mismatch (pending_record p) r).1
    (checkReply mismatch (pending_record p) r).2 dl wdl h = (e, h') ->
  hinv p0 rec0 (MkHsys h' (delete id ps)).
Proof.
  intros Hinv Hid H. pose proof (hinv_pending _ _ _ _ _ _ Hinv Hid) as (_ & -> & Hr & _).
  destruct Hinv as [Hp Hi _]. simpl in *.
  pose proof (finish_may _ _ _ _ _ _ _ _ _ H) as (_ & Hb & Hpol & _).
  eapply hinv_finish; [done|done|done|].
  apply finish_identity in H as [->|(next & _ & -> & _ & Hs)]; [done|].
  apply sameAcquisition_true in Hs as [Hs _]. rewrite Hr in Hs.
  by eapply same_identity_trans.
Qed.

Lemma hinv_finish_release p0 rec0 h ps id p err :
  hinv p0 rec0 (MkHsys h ps) -> ps !! id = Some p ->
  hinv p0 rec0 (MkHsys (finishRelease err h).2 (delete id ps)).
Proof.
  intros Hinv Hid. pose proof (hinv_pending _ _ _ _ _ _ Hinv Hid) as (_ & -> & _).
  destruct Hinv as [Hp Hi _]. simpl in *. unfold finishRelease.
  destruct err as [e|]; simpl.
  - pose proof (failLocked_frame e (set_busy false h)) as ((Hpol & Hr & _) & Hb & _).
    eapply hinv_finish; [done|done|done|]. by rewrite Hr.
  - by eapply hinv_finish.
Qed.

Lemma hstep_inv p0 rec0 s s' : hinv p0 rec0 s -> hstep s s' -> hinv p0 rec0 s'.
Proof.
  intros Hinv H. destruct H as [now wall h ps|id now wall st wst rec h h' ps Hid Hb
    |id now wall rec h h' ps Hid Hb|now wall err h h' ps Hb|id rec h h' ps Hid Hb
    |err h h' ps Hb|id now wall rec st wst r h ps Hid|id now wall rec r h ps Hid
    |id rec err h ps Hid|now wall slot h ps|h ps].
  - pose proof (expireLocked_frame now wall h) as (? & ? & _). unfold StateOf. simpl.
    eapply hinv_frame; eauto using expire_stays.
  - apply begin_Ok in Hb as (? & _ & _ & ? & -> & ->). apply hinv_begin; auto.
  - apply begin_Ok in Hb as (? & _ & _ & ? & -> & ->). apply hinv_begin; auto.
  - apply begin_Err in Hb as ->. pose proof (expireLocked_frame now wall h) as (? & ? & _).
    eapply hinv_frame; eauto using expire_stays.
  - apply beginRelease_call in Hb as (? & ? & -> & ->). apply hinv_begin; auto.
  - by apply beginRelease_return in Hb as ->.
  - rewrite finishRenew_eq. destruct (finishActiveOperation _ _ _ _ _ _ _) eqn:E. simpl.
    eapply (hinv_finish_active _ _ _ _ _ _ (PRenew rec st wst)); eauto.
  - rewrite finishValidate_eq. destruct (finishActiveOperation _ _ _ _ _ _ _) eqn:E. simpl.
    eapply (hinv_finish_active _ _ _ _ _ _ (PValidate rec)); eauto.
  - by eapply hinv_finish_release.
  - pose proof (StartManaged_frame now wall slot h) as (Hf & Hbz & Hst).
    eapply hinv_frame; eauto. rewrite Hst. apply expire_stays.
  - by eapply hinv_frame; [done| | |left].
Qed.

Lemma hsteps_inv p0 rec0 s s' : hinv p0 rec0 s -> rtc hstep s s' -> hinv p0 rec0 s'.
Proof. intros Hinv H. revert Hinv. induction H; eauto using hstep_inv. Qed.

(** How one section moves the state, the invariant given. *)
Lemma hstep_may p0 rec0 s s' :
  hinv p0 rec0 s -> hstep s s' -> may_become (state (handle s)) (state (handle s')).
Proof.
  intros Hinv H. destruct H as [now wall h ps|id now wall st wst rec h h' ps Hid Hb
    |id now wall rec h h' ps Hid Hb|now wall err h h' ps Hb|id rec h h' ps Hid Hb
    |err h h' ps Hb|id now wall rec st wst r h ps Hid|id now wall rec r h ps Hid
    |id rec err h ps Hid|now wall slot h ps|h ps]; simpl.
  - apply expireLocked_may.
  - apply begin_Ok in Hb as (? & _ & _ & ? & -> & ->). by left.
  - apply begin_Ok in Hb as (? & _ & _ & ? & -> & ->). by left.
  - apply begin_Err in Hb as ->. apply expireLocked_may.
  - apply beginRelease_call in Hb as (_ & _ & _ & ->). by left.
  - apply beginRelease_return in Hb as ->. by left.
  - destruct (finishRenew _ _ _ _ _ _ _) eqn:E. rewrite finishRenew_eq in E.
    by apply finish_may in E as [? _].
  - destruct (finishValidate _ _ _ _ _) eqn:E. rewrite finishValidate_eq in E.
    by apply finish_may in E as [? _].
  - unfold finishRelease. destruct err as [e|]; simpl.
    + apply (failLocked_may e (set_busy false h)).
    + apply (hinv_pending _ _ _ _ _ _ Hinv) in Hid as (_ & _ & _ & [->| ->]);
        unfold may_become; auto.
  - pose proof (StartManaged_frame now wall slot h) as (_ & _ & ->). apply expireLocked_may.
  - by left.
Qed.

Lemma may_become_trans a b c : may_become a b -> may_become b c -> may_become a c.
Proof. unfold may_become. destruct a, b, c; naive_solver. Qed.

Lemma hsteps_may p0 rec0 s s' :
  hinv p0 rec0 s -> rtc hstep s s' -> may_become (state (handle s)) (state (handle s')).
Proof.
  intros Hinv H. revert Hinv. induction H as [s|s1 s2 s3 H12 H23 IH]; intros Hinv.
  { by left. }
  eapply may_become_trans; [by eapply hstep_may|]. apply IH. by eapply hstep_inv.
Qed.

(** The acquisition a handle stands for never changes. *)
Lemma identity_stable p rec st wst s :
  rtc hstep (hinit p rec st wst) s ->
  same_identity rec (Snapshot (handle s)) /\ Token (handle s) = r_Token rec /\
  Owner (handle s) = r_Owner rec /\ policy (handle s) = p.
Proof.
  intros Hr. apply (hsteps_inv p rec) in Hr; [|apply hinit_inv].
  destruct Hr as [Hp Hi _]. unfold Snapshot, Token, Owner.
  destruct Hi as (? & ? & ? & ?). by split_and!.
Qed.

(** At most one remote operation is outstanding. *)
Lemma single_flight p rec st wst s :
  rtc hstep (hinit p rec st wst) s ->
  (size (ops s) <= 1)%nat /\ (busy (handle s) = true <-> ops s <> ∅) /\
  (ops s <> ∅ ->
    (forall now wall, exists e h', beginActiveOperation now wall (handle s) = (Err e, h') /\
       busy h' = true /\ (Is e ErrInvalidState = true \/ Is e ErrLost = true)) /\
    beginRelease (handle s) = (inl (Some (WrapS ErrInvalidState "handle operation")), handle s)).
Proof.
  intros Hr. apply (hsteps_inv p rec) in Hr; [|apply hinit_inv].
  destruct s as [h ps]. destruct Hr as [_ _ [[Hb ->]|(Hb & Hs & id & q & -> & _)]]; simpl in *.
  { split_and!; [by rewrite map_size_empty; lia|split; [congruence|done]|done]. }
  split_and!.
  - by rewrite map_size_singleton.
  - split; [intros _; apply map_non_empty_singleton|done].
  - intros _. split.
    + intros now wall. unfold beginActiveOperation.
      destruct (requireActiveLocked now wall h) as [[e|] h'] eqn:E;
        pose proof (requireActive_frame _ _ _ _ _ E) as (-> & _);
        destruct (expireLocked_frame now wall h) as (_ & Hb' & _); rewrite Hb in Hb'.
      * exists e. eexists. split_and!; [done|done|].
        unfold requireActiveLocked in E. repeat step_case_in E; simplify_eq; auto.
      * rewrite Hb'. eexists _, _. split_and!; [done|done|by left].
    + unfold beginRelease. rewrite Hb. by destruct Hs as [-> | ->].
Qed.

(** ** Properties *)

(** C12: in every interleaving of goroutines on a handle, with arbitrary clocks and
    backend replies, at most one remote operation is outstanding and [busy] says exactly
    whether there is one; while there is, a further [Renew] or [Validate] is refused
    ([ErrInvalidState], or [ErrLost] past the deadline), and so is a further [Release]
    ([ErrInvalidState]), without a reservation. Key, owner, fencing token and acquisition
    time of the snapshot, and the policy, stay those of the acquisition. *)
Theorem handle_single_flight p rec st wst s :
  rtc hstep (hinit p rec st wst) s ->
  (size (ops s) <= 1)%nat /\ (busy (handle s) = true <-> ops s <> ∅) /\
  (ops s <> ∅ ->
    (forall now wall, exists e h', beginActiveOperation now wall (handle s) = (Err e, h') /\
       busy h' = true /\ (Is e ErrInvalidState = true \/ Is e ErrLost = true)) /\
    beginRelease (handle s) = (inl (Some (WrapS ErrInvalidState "handle operation")), handle s)) /\
  same_identity rec (Snapshot (handle s)) /\ Token (handle s) = r_Token rec /\
  Owner (handle s) = r_Owner rec /\ policy (handle s) = p.
Proof.
  intros H. destruct (single_flight _ _ _ _ _ H) as (H1 & H2 & H3).
  split; [exact H1|]. split; [exact H2|]. split; [exact H3|]. by eapply identity_stable.
Qed.

(** A ten-nanosecond lease acquired at instant 100 of both clocks. *)
Definition pol0 : Policy := MkPolicy 10 0 0 0 0 0 1 10 FailureFailClosed.
Definition rec0 : LeaseRecord := MkRecord (MkKey "jobs/nightly") "a" 1 100 110.

(** One goroutine renews while another asks for the state. *)
Lemma renewing_reachable :
  rtc hstep (hinit pol0 rec0 100 100)
    (MkHsys (set_busy true (newHandleAt pol0 rec0 100 100)) {[0%nat := PRenew rec0 101 101]}).
Proof.
  eapply rtc_l; [|eapply rtc_l; [|apply rtc_refl]].
  - exact (step_state 100 100 _ _).
  - apply (step_begin_renew 0 101 101 101 101 rec0); reflexivity.
Defined.

Lemma handle_single_flight_witness :
  let s := MkHsys (set_busy true (newHandleAt pol0 rec0 100 100)) {[0%nat := PRenew rec0 101 101]} in
  rtc hstep (hinit pol0 rec0 100 100) s /\ (size (ops s) <= 1)%nat /\
  beginRelease (handle s) = (inl (Some (WrapS ErrInvalidState "handle operation")), handle s).
Proof.
  split; [exact renewing_reachable|].
  destruct (handle_single_flight pol0 rec0 100 100 _ renewing_reachable) as (H1 & _ & H3 & _).
  split; [exact H1|]. apply H3. apply map_non_empty_singleton.
Defined.

(** C13: admission closed is closed for good. Whatever goroutines, clocks and
    backend replies do, a handle that left [StateActive] never returns to it; lost,
    uncertain and released are final, and an expired handle can only become
    released. *)
Theorem handle_terminal_states p rec st wst s s' :
  rtc hstep (hinit p rec st wst) s -> rtc hstep s s' ->
  state (handle s) <> StateActive ->
  state (handle s') = state (handle s) \/
  (state (handle s) = StateExpired /\ state (handle s') = StateReleased).
Proof.
  intros H1 H2 Hn. apply (hsteps_inv p rec) in H1; [|apply hinit_inv].
  apply (hsteps_may p rec) in H2; [|done]. destruct H2 as [?|[?|?]]; auto; done.
Qed.

Lemma handle_terminal_states_witness :
  let s := MkHsys (set_state StateExpired (newHandleAt pol0 rec0 100 100)) ∅ in
  rtc hstep (hinit pol0 rec0 100 100) s /\ state (handle s) <> StateActive /\
  (state (handle s) = state (handle s) \/
    (state (handle s) = StateExpired /\ state (handle s) = StateReleased)).
Proof.
  assert (H : rtc hstep (hinit pol0 rec0 100 100)
    (MkHsys (set_state StateExpired (newHandleAt pol0 rec0 100 100)) ∅)).
  { eapply rtc_l; [|apply rtc_refl]. exact (step_state 110 105 _ _). }
  split; [exact H|]. split; [discriminate|].
  apply (handle_terminal_states pol0 rec0 100 100 _ _ H (rtc_refl _ _)). discriminate.
Defined.

(** C11: what the completion of a renewal does to an active handle, on every branch
    of the reply and of the clocks: a success that matches the acquisition and
    arrives before both old deadlines replaces the record and restarts both budgets
    from the start of the call; a success that arrives later returns [ErrLost] and
    only expires the handle; a mismatching success is [ErrAmbiguousOutcome]; an
    error is returned unchanged, and unless the deadline passed it makes the handle
    lost (stale or lost errors) or uncertain (all others). Only the first branch
    leaves the handle active or moves a deadline. *)
Theorem finishRenew_decides now wall rec st wst r h e h' :
  state h = StateActive -> finishRenew now wall rec st wst r h = (e, h') ->
  let in_time := now < deadline h /\ wall < wallDeadline h in
  let failed err := (in_time /\ state h' =
      if Is err ErrStaleOwner || Is err ErrLost then StateLost else StateUncertain) \/
    (~ in_time /\ state h' = StateExpired) in
  busy h' = false /\
  match r with
  | Ok next =>
      if sameAcquisition rec next then
        (in_time /\ e = None /\ state h' = StateActive /\ record h' = next /\
         (st + budget (policy h) <> 0 ->
            deadline h' = st + budget (policy h) /\ wallDeadline h' = wst + budget (policy h))) \/
        (~ in_time /\ e = Some (WrapS ErrLost "deadline during operation") /\
         state h' = StateExpired /\ record h' = record h /\
         deadline h' = deadline h /\ wallDeadline h' = wallDeadline h)
      else
        e = Some (WrapS ErrAmbiguousOutcome "renew response") /\
        failed (WrapS ErrAmbiguousOutcome "renew response") /\
        record h' = record h /\ deadline h' = deadline h /\ wallDeadline h' = wallDeadline h
  | Err err =>
      e = Some err /\ failed err /\
      record h' = record h /\ deadline h' = deadline h /\ wallDeadline h' = wallDeadline h
  end.
Proof.
  intros Ha H. simpl. rewrite finishRenew_eq in H.
  pose proof (finish_may _ _ _ _ _ _ _ _ _ H) as (_ & Hb & _). split; [done|].
  apply finish_cases in H.
  set (h1 := expireLocked now wall (set_busy false h)) in *.
  pose proof (expireLocked_frame now wall (set_busy false h)) as ((_ & Hr1 & Hd1 & Hw1) & _).
  pose proof (expireLocked_state now wall (set_busy false h)) as Hs1. fold h1 in Hr1, Hd1, Hw1, Hs1.
  simpl in *. rewrite Ha, decide_True in Hs1 by done.
  destruct H as [(e0 & He0 & -> & ->)|[(He0 & -> & -> & Hn)|(He0 & -> & _ & Hd & Hw & ->)]].
  - pose proof (failLocked_frame e0 h1) as ((_ & Hr2 & Hd2 & Hw2) & _).
    pose proof (failLocked_state e0 h1) as Hs2. rewrite Hr2, Hr1, Hd2, Hd1, Hw2, Hw1, Hs2, Hs1.
    destruct r as [next|err]; simpl in *; [destruct (sameAcquisition rec next)|]; simplify_eq;
      split_and!; try done; repeat case_decide; naive_solver.
  - rewrite Hs1 in Hn. case_decide; [done|]. rewrite Hr1, Hd1, Hw1, Hs1.
    destruct r as [next|]; simpl in *; [|done]. destruct (sameAcquisition rec next); [|done].
    by right.
  - destruct r as [next|]; simpl in *; [|done]. destruct (sameAcquisition rec next); [|done].
    left. unfold Add, IsZero. destruct (Z.eqb_spec (st + budget (policy h)) 0); simpl;
      split_and!; try done; naive_solver.
Qed.

Lemma finishRenew_decides_witness :
  let h := set_busy true (newHandleAt pol0 rec0 100 100) in
  let next := MkRecord (MkKey "jobs/nightly") "a" 1 100 115 in
  let '(e, h') := finishRenew 108 108 rec0 105 105 (Ok next) h in
  state h = StateActive /\ e = None /\ deadline h' = 115 /\ busy h' = false.
Proof.
  simpl. split; [reflexivity|]. split; [reflexivity|]. split; [reflexivity|].
  exact (proj1 (finishRenew_decides 108 108 rec0 105 105
    (Ok (MkRecord (MkKey "jobs/nightly") "a" 1 100 115))
    (set_busy true (newHandleAt pol0 rec0 100 100)) _ _ eq_refl eq_refl)).
Defined.

(** [State] reports active exactly for a handle that no failure, release or
    expiry closed and whose injected clock and process clock both read before
    their deadlines, so a frozen or rolled-back injected clock does not extend
    admission past the real-time budget; observing the expiry records it. *)
Lemma State_admits now wall h :
  (StateOf now wall h).1 = StateActive <->
    state h = StateActive /\ now < deadline h /\ wall < wallDeadline h.
Proof.
  unfold StateOf. simpl. rewrite expireLocked_state.
  repeat case_decide; split; naive_solver.
Qed.

(** C14: the whole of [Release] by state: a released handle returns nil and a lost or
    uncertain one [ErrInvalidState], both without a backend call; an active or expired
    handle that is busy with another operation returns [ErrInvalidState], also without
    a call and unchanged; otherwise it becomes busy and calls the backend with its
    record, and is released by a nil reply (also after expiry), while a failed release
    leaves an expired handle expired and turns an active one lost or uncertain. *)
Theorem Release_table h err :
  match state h with
  | StateReleased => beginRelease h = (inl None, h)
  | StateLost | StateUncertain =>
      beginRelease h = (inl (Some (WrapS ErrInvalidState "release")), h)
  | StateActive | StateExpired =>
      if busy h then beginRelease h = (inl (Some (WrapS ErrInvalidState "handle operation")), h)
      else
        beginRelease h = (inr (record h), set_busy true h) /\
        let '(e, h') := finishRelease err (set_busy true h) in
        e = err /\ busy h' = false /\ record h' = record h /\
        state h' = match err with
                   | None => StateReleased
                   | Some x => if bool_decide (state h = StateExpired) then StateExpired
                               else if Is x ErrStaleOwner || Is x ErrLost then StateLost
                               else StateUncertain
                   end
  end.
Proof.
  unfold beginRelease.
  destruct (state h) eqn:Hs; simpl; try done; destruct (busy h) eqn:Hb; simpl; try done;
    (split; [done|]); unfold finishRelease; destruct err as [x|]; simpl; try done;
    pose proof (failLocked_frame x (set_busy false (set_busy true h))) as ((_ & Hr & _) & Hbz & _);
    rewrite Hr, Hbz, failLocked_state; simpl; by rewrite Hs.
Qed.
