(* ===== verification/Runtime.v ===== *)
(** * The world a client runs in

    The dependencies a [Client] borrows (clock, owner source, sleeper, jitter
    source, backend) and the contexts it is given are an environment [E], of which
    nothing is assumed: each call is an arbitrary function on the whole world, so
    it may also do what other goroutines do meanwhile to the handles and the shared
    capacity channels. Code that calls them is a computation of the state monad. *)

From S2P Require Import Prelude GoBase GoStrings Errors LeaseKey LeasePolicy Backend Handle.

(** [context.Context.Err]: nil, [context.Canceled] or [context.DeadlineExceeded]. *)
Inductive ctx_cause := CauseCanceled | CauseDeadline.

#[global] Instance ctx_cause_eq_dec : EqDecision ctx_cause.
Proof. solve_decision. Defined.

Definition cause_error (c : ctx_cause) : error :=
  match c with
  | CauseCanceled => Sentinel Canceled
  | CauseDeadline => Sentinel DeadlineExceeded
  end.

(** The handles allocated so far, the number of elements in the [waiters] and
    [managed] channels of the client, and the environment. *)
Record World (E : Type) := MkWorld {
  w_env : E;
  w_handles : list Handle;
  w_waiters : Z;
  w_managed : Z
}.
Arguments MkWorld {_} _ _ _ _.
Arguments w_env {_} _.
Arguments w_handles {_} _.
Arguments w_waiters {_} _.
Arguments w_managed {_} _.

Definition set_waiters {E} (n : Z) (w : World E) : World E :=
  MkWorld (w_env w) (w_handles w) n (w_managed w).
Definition set_slots {E} (n : Z) (w : World E) : World E :=
  MkWorld (w_env w) (w_handles w) (w_waiters w) n.
Definition set_handles {E} (hs : list Handle) (w : World E) : World E :=
  MkWorld (w_env w) hs (w_waiters w) (w_managed w).

(** The borrowed dependencies: [Clock], [time.Now], contexts (their error, and the
    creation and use of cancel functions), [OwnerSource], [RetrySource], [Sleeper]
    and [Backend]. *)
Class Env (E : Type) := {
  clock_Now : M (World E) Time;
  time_Now : M (World E) Time;
  ctx_Err : Context -> M (World E) (option ctx_cause);
  ctx_NewCancel : M (World E) nat;
  ctx_Cancel : nat -> M (World E) ();
  owners_NewOwner : M (World E) (res string);
  retry_Jitter : Duration -> M (World E) Duration;
  sleeper_Sleep : Context -> Duration -> M (World E) err_opt;
  backend_TryAcquire : Context -> Key -> string -> Duration -> M (World E) (res LeaseRecord);
  backend_Renew : Context -> LeaseRecord -> Duration -> M (World E) (res LeaseRecord);
  backend_Validate : Context -> LeaseRecord -> M (World E) (res LeaseRecord);
  backend_Release : Context -> LeaseRecord -> M (World E) err_opt
}.

Section Primitives.
Context {E : Type} `{!Env E}.

(** [context.WithTimeout]. *)
Definition withTimeout (ctx : Context) (timeout : Duration) : M (World E) Context :=
  now ← time_Now;
  mret (WithDeadline ctx (Add now timeout)).

(** [context.WithCancel]: the context, and the identity its cancel function has. *)
Definition withCancel (ctx : Context) : M (World E) (Context * nat) :=
  id ← ctx_NewCancel;
  mret (WithCancel ctx id, id).

(** [&Handle{...}]. *)
Definition alloc (h : Handle) : M (World E) nat :=
  fun w => (length (w_handles w), set_handles (w_handles w ++ [h])%list w).

(** A critical section of a handle: the mutex is taken, the clocks are read, the
    fields change, the mutex is released. *)
Definition onHandle {A} (id : nat) (section : Handle -> A * Handle) (absent : A) :
    M (World E) A :=
  fun w =>
    match w_handles w !! id with
    | None => (absent, w)
    | Some h => let '(a, h') := section h in
                (a, set_handles (<[id := h']> (w_handles w)) w)
    end.

Definition locked {A} (id : nat) (section : Time -> Time -> Handle -> A * Handle)
    (absent : A) : M (World E) A :=
  now ← clock_Now;
  wall ← time_Now;
  onHandle id (section now wall) absent.

(** The nonblocking send of [select { case ch <- v: default: }] on the waiter channel,
    and the deferred receive. *)
Definition reserveWaiter (capacity : Z) : M (World E) bool :=
  fun w => if w_waiters w <? capacity then (true, set_waiters (w_waiters w + 1) w) else (false, w).
Definition releaseWaiter : M (World E) () :=
  modw (fun w => set_waiters (w_waiters w - 1) w).
(** The receive [<-handle.managedSlots]. *)
Definition releaseSlot : M (World E) () :=
  modw (fun w => set_slots (w_managed w - 1) w).
End Primitives.
