(* ===== verification/Simulation.v ===== *)
(** * An executable world

    One process with a clock that only the sleeper advances, the memory store as
    backend, a jitter source that draws any given sequence of values, a caller whose
    context may be canceled, and the cancel functions of derived contexts. It instantiates the environment of [Runtime], so the operations
    of the library run in it; the witnesses of the properties about arbitrary
    environments evaluate there. *)

From S2P Require Import Prelude GoBase GoStrings Errors LeaseKey LeasePolicy Backend Memory Handle Runtime.

Record Sim := MkSim {
  s_now : Time;
  s_owner : string;
  s_store : Store;
  s_calls : Z;
  s_canceled : bool;
  s_fresh : nat;
  s_done : list nat;
  s_draws : nat -> Duration
}.

Definition set_now (t : Time) (s : Sim) : Sim :=
  MkSim t (s_owner s) (s_store s) (s_calls s) (s_canceled s) (s_fresh s) (s_done s) (s_draws s).
Definition set_store (st : Store) (s : Sim) : Sim :=
  MkSim (s_now s) (s_owner s) st (s_calls s + 1) (s_canceled s) (s_fresh s) (s_done s) (s_draws s).
Definition set_cancels (fresh : nat) (cancels : list nat) (s : Sim) : Sim :=
  MkSim (s_now s) (s_owner s) (s_store s) (s_calls s) (s_canceled s) fresh cancels (s_draws s).
Definition next_draw (s : Sim) : Sim :=
  MkSim (s_now s) (s_owner s) (s_store s) (s_calls s) (s_canceled s) (s_fresh s) (s_done s)
    (fun i => s_draws s (S i)).
Definition set_sim {A} (f : Sim -> A * Sim) : M (World Sim) A :=
  fun w => let '(a, s) := f (w_env w) in (a, MkWorld s (w_handles w) (w_waiters w) (w_managed w)).

(** A context is done when a canceled ancestor or a passed deadline says so. *)
Fixpoint sim_ctx (s : Sim) (ctx : Context) : option ctx_cause :=
  match ctx with
  | Background => None
  | CallerContext _ => if s_canceled s then Some CauseCanceled else None
  | WithDeadline parent d =>
      match sim_ctx s parent with
      | Some c => Some c
      | None => if d <=? s_now s then Some CauseDeadline else None
      end
  | WithCancel parent id =>
      match sim_ctx s parent with
      | Some c => Some c
      | None => if bool_decide (id ∈ s_done s) then Some CauseCanceled else None
      end
  | WithToken parent _ => sim_ctx s parent
  | WithoutCancel _ => None
  end.

Definition sim_err (s : Sim) (ctx : Context) : err_opt := cause_error <$> sim_ctx s ctx.

#[global] Instance sim_env : Env Sim := {|
  clock_Now := set_sim (fun s => (s_now s, s));
  time_Now := set_sim (fun s => (s_now s, s));
  ctx_Err ctx := set_sim (fun s => (sim_ctx s ctx, s));
  ctx_NewCancel := set_sim (fun s => (s_fresh s, set_cancels (S (s_fresh s)) (s_done s) s));
  ctx_Cancel id := set_sim (fun s => ((), set_cancels (s_fresh s) (id :: s_done s) s));
  owners_NewOwner := set_sim (fun s => (Ok (s_owner s), s));
  retry_Jitter _ := set_sim (fun s => (s_draws s 0%nat, next_draw s));
  sleeper_Sleep ctx d := set_sim (fun s =>
    let s' := set_now (s_now s + d) s in (sim_err s' ctx, s'));
  backend_TryAcquire ctx key owner t := set_sim (fun s =>
    let '(r, st) := TryAcquire (sim_err s ctx) (s_now s) key owner t (s_store s) in
    (r, set_store st s));
  backend_Renew ctx owned t := set_sim (fun s =>
    let '(r, st) := Renew (sim_err s ctx) (s_now s) owned t (s_store s) in (r, set_store st s));
  backend_Validate ctx owned := set_sim (fun s =>
    let '(r, st) := Validate (sim_err s ctx) (s_now s) owned (s_store s) in (r, set_store st s));
  backend_Release ctx owned := set_sim (fun s =>
    let '(e, st) := Release (sim_err s ctx) owned (s_store s) in (e, set_store st s))
|}.

(** A world at instant [now], in which the key ["jobs/nightly"] is held by
    ["other"] until instant 105. *)
Definition contended_world (now : Time) : World Sim :=
  MkWorld (MkSim now "me" (TryAcquire None 95 k1 "other" 10 store0).2 0 false 0 [] (fun _ => 0)) [] 0 0.
