(* ===== verification/Client.v ===== *)
(** * client.go: bounded acquisition

    [NewClient], [TryAcquire] and [Acquire] with its waiter slot, retries and
    deadlines, as computations over the world of [Runtime]; the loop carries the
    number of attempts as fuel. The lemmas follow a computation to each of its
    returns, for arbitrary clocks, sources, contexts and backends. *)

From S2P Require Import Prelude GoBase GoStrings Errors LeaseKey LeasePolicy Backend Handle Runtime Memory Simulation.

Definition MaxClientWaiters : Z := 1000000.
Definition MaxClientManaged : Z := 100000.

(** The options that are not borrowed sources. *)
Record ClientOptions := MkClientOptions { MaxWaiters : Z; MaxManaged : Z }.

(** [Client], less the borrowed sources: the capacities of its two channels. *)
Record Client := MkClient { waiters : Z; managedSlots : Z }.

(** [NewClient]; nil sources select the defaults of the package, which are
    environments like any other. [backend] says whether a backend was given. *)
Definition NewClient (backend : bool) (options : ClientOptions) : res Client :=
  if negb backend
  then Err (Errorf "" (Sentinel ErrInvalidState) ": nil backend")
  else
    let waiters := if MaxWaiters options =? 0 then 1024 else MaxWaiters options in
    let managed := if MaxManaged options =? 0 then 1024 else MaxManaged options in
    if (MaxClientWaiters <? waiters) || (MaxClientManaged <? managed)
    then Err (WrapS ErrInvalidState "client capacity")
    else Ok (MkClient waiters managed).

(** [isContention] on a non-nil error. *)
Definition isContention (err : error) : bool := errorIs err ErrContended.

(** [validAcquisition]. *)
Definition validAcquisition (key : Key) (owner : string) (rec : LeaseRecord) : bool :=
  String.eqb (KeyString (r_Key rec)) (KeyString key) && String.eqb (r_Owner rec) owner &&
  negb (r_Token rec =? 0) && After (r_ExpiresAt rec) (r_AcquiredAt rec).

(** The test on a generated owner. *)
Definition usableOwner (r : res string) : option string :=
  match r with
  | Err _ => None
  | Ok owner => if String.eqb owner "" || (128 <? len owner) then None else Some owner
  end.

Section Operations.
Context {E : Type} `{!Env E}.

(** [acquisitionContextError]; a nil context is [None]. *)
Definition acquisitionContextError (ctx : option Context) : M (World E) err_opt :=
  match ctx with
  | None => mret (Some (WrapS ErrInvalidState "acquire context"))
  | Some c =>
      first ← ctx_Err c;
      match first with
      | None => mret None
      | Some _ =>
          again ← ctx_Err c;
          mret (Join [Some (WrapS ErrCanceled "acquire"); cause_error <$> again])
      end
  end.

(** [waitDeadlineReached]. *)
Definition waitDeadlineReached (parent waitContext : Context) : M (World E) bool :=
  parentErr ← ctx_Err parent;
  match parentErr with
  | Some _ => mret false
  | None =>
      waitErr ← ctx_Err waitContext;
      mret (bool_decide (waitErr = Some CauseDeadline))
  end.

(** [boundedJitter]. *)
Definition boundedJitter (maximum : Duration) : M (World E) Duration :=
  j ← retry_Jitter maximum;
  mret (Z.min (Z.max j 0) maximum).

(** The common tail of [TryAcquire] and of one attempt of [Acquire]: the response
    check and the new handle. *)
Definition grant (key : Key) (owner : string) (p : Policy) (rec : LeaseRecord)
    (started wallStarted : Time) : M (World E) (res nat) :=
  if negb (validAcquisition key owner rec)
  then mret (Err (WrapS ErrAmbiguousOutcome "acquire response"))
  else
    id ← alloc (newHandleAt p rec started wallStarted);
    mret (Ok id).

(** [Client.TryAcquire]. *)
Definition TryAcquire (ctx : option Context) (key : Key) (p : Policy) : M (World E) (res nat) :=
  ctxErr ← acquisitionContextError ctx;
  match ctxErr, ctx with
  | Some err, _ => mret (Err err)
  | None, None => mret (Err (WrapS ErrInvalidState "acquire context"))
  | None, Some c =>
      generated ← owners_NewOwner;
      match usableOwner generated with
      | None => mret (Err (WrapS ErrBackendUnavailable "owner generation"))
      | Some owner =>
          operationContext ← withTimeout c (operationTimeout p);
          started ← clock_Now;
          wallStarted ← time_Now;
          r ← backend_TryAcquire operationContext key owner (ttl p);
          match r with
          | Err err => mret (Err err)
          | Ok rec => grant key owner p rec started wallStarted
          end
      end
  end.

(** The [for] loop of [Acquire]; [None] when the fuel runs out, which a validated
    policy excludes. [attempt] is a uint32. *)
Fixpoint acquireLoop (fuel : nat) (attempt : Z) (ctx waitContext : Context) (key : Key)
    (owner : string) (p : Policy) (deadline : Time) : M (World E) (option (res nat)) :=
  match fuel with
  | O => mret None
  | S fuel' =>
      operationContext ← withTimeout waitContext (operationTimeout p);
      attemptStarted ← clock_Now;
      wallStarted ← time_Now;
      r ← backend_TryAcquire operationContext key owner (ttl p);
      match r with
      | Ok rec =>
          admitted ← grant key owner p rec attemptStarted wallStarted;
          mret (Some admitted)
      | Err acquireErr =>
          reached ← waitDeadlineReached ctx waitContext;
          if reached : bool then mret (Some (Err (WrapS ErrTimeout "acquire")))
          else if negb (isContention acquireErr) then mret (Some (Err acquireErr))
          else
            j ← boundedJitter (jitter p);
            let delay := retry p +64 j in
            if (wait p =? 0) || (attempt =? maxAttempts p)
            then mret (Some (Err (WrapS ErrTimeout "acquire")))
            else
              now ← clock_Now;
              if negb (Before (Add now delay) deadline)
              then mret (Some (Err (WrapS ErrTimeout "acquire")))
              else
                sleepErr ← sleeper_Sleep waitContext delay;
                match sleepErr with
                | None =>
                    acquireLoop fuel' (wrapu32 (attempt + 1)) ctx waitContext key owner p deadline
                | Some _ =>
                    reached ← waitDeadlineReached ctx waitContext;
                    mret (Some (Err (if reached : bool then WrapS ErrTimeout "acquire"
                                     else WrapS ErrCanceled "acquire")))
                end
      end
  end.

(** [Acquire] once the waiter slot is reserved. *)
Definition acquireReserved (fuel : nat) (ctx : Context) (key : Key) (p : Policy) :
    M (World E) (option (res nat)) :=
  generated ← owners_NewOwner;
  match usableOwner generated with
  | None => mret (Some (Err (WrapS ErrBackendUnavailable "owner generation")))
  | Some owner =>
      waitContext ← (if 0 <? wait p then withTimeout ctx (wait p) else mret ctx);
      started ← clock_Now;
      acquireLoop fuel 1 ctx waitContext key owner p (Add started (wait p))
  end.

(** [Client.Acquire]; the deferred receive gives the slot back on every return. *)
Definition Acquire (fuel : nat) (client : Client) (ctx : option Context) (key : Key) (p : Policy) :
    M (World E) (option (res nat)) :=
  ctxErr ← acquisitionContextError ctx;
  match ctxErr, ctx with
  | Some err, _ => mret (Some (Err err))
  | None, None => mret (Some (Err (WrapS ErrInvalidState "acquire context")))
  | None, Some c =>
      reserved ← reserveWaiter (waiters client);
      if negb reserved
      then mret (Some (Err (WrapS ErrBackendUnavailable "waiter capacity")))
      else
        r ← acquireReserved fuel c key p;
        _ ← releaseWaiter;
        mret r
  end.

(** ** Lemmas *)

Lemma delay_exact p j :
  policy_valid p -> 0 <= j <= jitter p -> retry p +64 j = retry p + j.
Proof. intros [] Hj. apply wrap64_id. unfold_policy_constants. lia. Qed.

(** With fuel for the attempts that are left the loop has a result: at the last
    attempt it returns without iterating. *)
Lemma acquireLoop_returns p ctx waitCtx key owner dl fuel : forall attempt,
  1 <= attempt <= maxAttempts p -> maxAttempts p <= MaxAttempts ->
  maxAttempts p < attempt + Z.of_nat fuel ->
  mpost (fun o (_ : World E) => o <> None) (acquireLoop fuel attempt ctx waitCtx key owner p dl).
Proof.
  induction fuel as [|fuel IH]; intros attempt Ha Hmax Hf; [lia|].
  simpl acquireLoop. mpost_walk; try done. bool_split.
  rewrite wrapu32_id by (unfold is_uint32, uint32_max, MaxAttempts in *; lia).
  apply IH; lia.
Qed.

(** More fuel than that changes nothing. *)
Lemma acquireLoop_fuel p ctx waitCtx key owner dl fuel : forall attempt fuel' (w : World E),
  1 <= attempt <= maxAttempts p -> maxAttempts p <= MaxAttempts ->
  maxAttempts p < attempt + Z.of_nat fuel -> (fuel <= fuel')%nat ->
  acquireLoop fuel' attempt ctx waitCtx key owner p dl w =
  acquireLoop fuel attempt ctx waitCtx key owner p dl w.
Proof.
  induction fuel as [|fuel IH]; intros attempt fuel' w Ha Hmax Hf Hle; [lia|].
  destruct fuel' as [|fuel']; [lia|]. simpl acquireLoop.
  repeat first [ reflexivity | apply M_bind_ext; intros ? ? | step_case ]. bool_split.
  rewrite wrapu32_id by (unfold is_uint32, uint32_max, MaxAttempts in *; lia).
  apply IH; lia.
Qed.

(** The fuel a policy calls for. *)
Definition attempts (p : Policy) : nat := Z.to_nat (maxAttempts p).

Lemma acquireReserved_fuel p ctx key fuel (w : World E) :
  policy_valid p -> (attempts p <= fuel)%nat ->
  acquireReserved fuel ctx key p w = acquireReserved (attempts p) ctx key p w.
Proof.
  intros Hp Hle. destruct Hp as [_ _ _ _ _ _ _ Hat _ _]. unfold attempts in *.
  unfold acquireReserved.
  repeat first [ reflexivity | apply acquireLoop_fuel; lia
               | apply M_bind_ext; intros ? ? | step_case ].
Qed.

Lemma Acquire_fuel p client ctx key fuel (w : World E) :
  policy_valid p -> (attempts p <= fuel)%nat ->
  Acquire fuel client ctx key p w = Acquire (attempts p) client ctx key p w.
Proof.
  intros Hp Hle. unfold Acquire.
  repeat first [ reflexivity | apply M_bind_ext; intros ? ? | step_case ].
  rewrite !M_bind_eq. by rewrite acquireReserved_fuel.
Qed.

(** The rejections before any attempt: invalid or canceled context, no capacity. *)
Definition early_error (e : error) : Prop :=
  Is e ErrContended = false /\
  (Is e ErrInvalidState = true \/ Is e ErrCanceled = true \/ Is e ErrBackendUnavailable = true).

Lemma acquisitionContextError_early ctx (w : World E) e :
  (acquisitionContextError ctx w).1 = Some e -> early_error e.
Proof.
  unfold acquisitionContextError, early_error. destruct ctx as [c|]; [|intros H; simplify_eq/=; split; [done|by left]].
  rewrite M_bind_eq. destruct (ctx_Err c w) as [[cause|] w1]; simpl; [|done].
  rewrite M_bind_eq. destruct (ctx_Err c w1) as [[[]|] w2]; intros H; injection H as <-;
    (split; [done|by right; left]).
Qed.

(** A property of the outcome of [Acquire] holds when it holds of the early
    rejections and of every attempt made with a slot, and does not look at the
    waiter count. *)
Lemma Acquire_post (Q : option (res nat) -> World E -> Prop) fuel client ctx key p :
  (forall e w, early_error e -> Q (Some (Err e)) w) ->
  (forall o n w, Q o w -> Q o (set_waiters n w)) ->
  (forall c, mpost Q (acquireReserved fuel c key p)) ->
  mpost Q (Acquire fuel client ctx key p).
Proof.
  intros Hearly Hset Hres w. unfold Acquire. apply mpost_bind_eq. intros ctxErr w1 Hctx.
  destruct ctxErr as [err|]; simpl.
  { apply Hearly, (acquisitionContextError_early ctx w). by rewrite Hctx. }
  destruct ctx as [c|]; [|apply Hearly; split; [done|by left]].
  apply mpost_bind_eq. intros reserved w2 _. destruct reserved; simpl;
    [|apply Hearly; split; [done|by right; right]].
  rewrite !M_bind_eq. simpl. apply Hset, Hres.
Qed.

Lemma Acquire_returns p client ctx key fuel :
  policy_valid p -> (attempts p <= fuel)%nat ->
  mpost (fun o (_ : World E) => o <> None) (Acquire fuel client ctx key p).
Proof.
  intros Hp Hle w. rewrite Acquire_fuel by done. revert w.
  refine (Acquire_post (fun o _ => o <> None) _ _ _ _ _ _ _ _); [done|done|]. intros c.
  destruct Hp as [_ _ _ _ _ _ _ Hat _ _]. unfold acquireReserved, attempts.
  repeat first [ apply acquireLoop_returns; lia | apply mpost_bind; intros ? | by apply mpost_ret
               | step_case ].
Qed.

(** Errors that [Acquire] reports: contention is not among them. *)
Definition not_contended (o : option (res nat)) : Prop :=
  forall e, o = Some (Err e) -> Is e ErrContended = false.

Lemma admit_not_contended key owner p rec st wst (w : World E) :
  not_contended (Some (grant key owner p rec st wst w).1).
Proof. intros e He. unfold grant in He. step_case_in He; by simplify_eq/=. Qed.

Lemma acquireLoop_not_contended p ctx waitCtx key owner dl fuel : forall attempt,
  mpost (fun o (_ : World E) => not_contended o)
    (acquireLoop fuel attempt ctx waitCtx key owner p dl).
Proof.
  induction fuel as [|fuel IH]; intros attempt; simpl acquireLoop; [by apply mpost_ret|].
  do 4 (apply mpost_bind; intros ?).
  match goal with |- context [match ?r with Ok _ => _ | Err _ => _ end] => destruct r as [rec|err] end.
  { intros w. rewrite M_bind_eq. apply admit_not_contended. }
  repeat first [ apply IH | apply mpost_bind; intros ? | apply mpost_ret; intros ? ? ? | step_case ];
    simplify_eq/=; bool_split; try done; by step_case.
Qed.

Lemma Acquire_not_contended client p ctx key fuel :
  mpost (fun o (_ : World E) => not_contended o) (Acquire fuel client ctx key p).
Proof.
  apply Acquire_post; [intros e _ [H _] e' He; by simplify_eq|done|]. intros c.
  unfold acquireReserved.
  repeat first [ apply acquireLoop_not_contended | apply mpost_bind; intros ?
               | apply mpost_ret; intros ? e He; by simplify_eq/= | step_case ].
Qed.

(** What a granted handle rests on: a reply of the backend that matches the key and
    a usable owner, with both clocks read before the call was made. *)
Definition granted (key : Key) (p : Policy) (id : nat) (w' : World E) : Prop :=
  exists owner rec started wallStarted opCtx w0 w1 w2 w3,
    usableOwner (Ok owner) = Some owner /\
    clock_Now w0 = (started, w1) /\ time_Now w1 = (wallStarted, w2) /\
    backend_TryAcquire opCtx key owner (ttl p) w2 = (Ok rec, w3) /\
    validAcquisition key owner rec = true /\
    w_handles w' !! id = Some (newHandleAt p rec started wallStarted).

Lemma admit_granted key owner p rec opCtx w0 w1 w2 w3 started wallStarted id w' :
  usableOwner (Ok owner) = Some owner ->
  clock_Now w0 = (started, w1) -> time_Now w1 = (wallStarted, w2) ->
  backend_TryAcquire opCtx key owner (ttl p) w2 = (Ok rec, w3) ->
  grant key owner p rec started wallStarted w3 = (Ok id, w') -> granted key p id w'.
Proof.
  intros Ho Hc Ht Hb Ha. unfold grant in Ha. step_case_in Ha; [done|]. rewrite M_bind_eq, M_ret_eq in Ha.
  simplify_eq/=. bool_split. exists owner, rec, started, wallStarted, opCtx, w0, w1, w2, w3.
  split_and!; try done. simpl. by apply list_lookup_middle.
Qed.

Lemma acquireLoop_granted p ctx waitCtx key owner dl fuel : forall attempt,
  usableOwner (Ok owner) = Some owner ->
  mpost (fun o w' => forall id, o = Some (Ok id) -> granted key p id w')
    (acquireLoop fuel attempt ctx waitCtx key owner p dl).
Proof.
  induction fuel as [|fuel IH]; intros attempt Ho; simpl acquireLoop; [by apply mpost_ret|].
  apply mpost_bind. intros opCtx w0.
  apply mpost_bind_eq. intros started w1 Hc. apply mpost_bind_eq. intros wallStarted w2 Ht.
  apply mpost_bind_eq. intros r w3 Hb. destruct r as [rec|err].
  - rewrite M_bind_eq. destruct (grant _ _ _ _ _ _ w3) as [o w4] eqn:Ha. simpl.
    intros id Hid. simplify_eq. by eapply admit_granted.
  - apply (mpost_at (fun o w' => forall id, o = Some (Ok id) -> granted key p id w')).
    repeat first [ by apply IH | apply mpost_bind; intros ? | apply mpost_ret; intros ? ? ?; done
                 | step_case ].
Qed.

Lemma granted_waiters key p id n (w : World E) :
  granted key p id w -> granted key p id (set_waiters n w).
Proof. done. Qed.

Lemma usableOwner_Some r owner :
  usableOwner r = Some owner -> r = Ok owner /\ usableOwner (Ok owner) = Some owner.
Proof. unfold usableOwner. intros H. destruct r; [|done]. step_case_in H; simplify_eq. by rewrite Heqb. Qed.

Lemma Acquire_granted client p ctx key fuel :
  mpost (fun o w' => forall id, o = Some (Ok id) -> granted key p id w')
    (Acquire fuel client ctx key p).
Proof.
  apply Acquire_post; [done|eauto using granted_waiters|]. intros c. unfold acquireReserved.
  apply mpost_bind. intros generated. destruct (usableOwner generated) as [owner|] eqn:Ho;
    [|apply mpost_ret; intros; done].
  apply usableOwner_Some in Ho as [_ Ho].
  do 2 (apply mpost_bind; intros ?). by apply acquireLoop_granted.
Qed.
End Operations.

(** ** Counting backend calls *)

Section Counting.
Context {E : Type} `{!Env E}.

(** [calls] counts acquisition calls: the backend call adds at most one to it and
    the other dependencies add nothing. *)
Variable calls : E -> Z.

Definition costs {A} (n : Z) (c : M (World E) A) : Prop :=
  forall w, calls (w_env (c w).2) <= calls (w_env w) + n.

Class CountsCalls : Prop := {
  cc_clock : costs 0 clock_Now;
  cc_time : costs 0 time_Now;
  cc_ctx ctx : costs 0 (ctx_Err ctx);
  cc_owner : costs 0 owners_NewOwner;
  cc_jitter d : costs 0 (retry_Jitter d);
  cc_sleep ctx d : costs 0 (sleeper_Sleep ctx d);
  cc_try ctx key owner d : costs 1 (backend_TryAcquire ctx key owner d)
}.
Context {Hcounts : CountsCalls}.

Lemma costs_ret {A} n (a : A) : 0 <= n -> costs n (mret a).
Proof. intros H w. simpl. lia. Qed.

Lemma costs_bind {A B} n m (c : M (World E) A) (f : A -> M (World E) B) :
  costs n c -> (forall a, costs m (f a)) -> costs (n + m) (c ≫= f).
Proof.
  intros Hc Hf w. rewrite M_bind_eq. specialize (Hc w). specialize (Hf (c w).1 (c w).2). lia.
Qed.

(** A free step before a computation. *)
Lemma costs_free {A B} m (c : M (World E) A) (f : A -> M (World E) B) :
  costs 0 c -> (forall a, costs m (f a)) -> costs m (c ≫= f).
Proof. apply (costs_bind 0 m). Qed.

Lemma costs_weaken {A} n m (c : M (World E) A) : costs n c -> n <= m -> costs m c.
Proof. intros H Hle w. specialize (H w). lia. Qed.

Lemma costs_withTimeout ctx d : costs 0 (withTimeout ctx d).
Proof. apply costs_free; [apply cc_time|intros; by apply costs_ret]. Qed.

Lemma costs_waitDeadline c1 c2 : costs 0 (waitDeadlineReached c1 c2).
Proof.
  apply costs_free; [apply cc_ctx|]. intros [?|]; [by apply costs_ret|].
  apply costs_free; [apply cc_ctx|intros; by apply costs_ret].
Qed.

Lemma costs_jitter d : costs 0 (boundedJitter d).
Proof. apply costs_free; [apply cc_jitter|intros; by apply costs_ret]. Qed.

Lemma costs_admit key owner p rec st wst : costs 0 (grant key owner p rec st wst).
Proof.
  unfold grant. step_case; [by apply costs_ret|].
  apply costs_free; [intros w; simpl; lia|intros; by apply costs_ret].
Qed.

Ltac free_step :=
  first [ apply costs_ret; lia
        | apply costs_free;
            [ first [ apply cc_clock | apply cc_time | apply cc_ctx | apply cc_owner
                    | apply cc_sleep | apply costs_withTimeout | apply costs_waitDeadline
                    | apply costs_jitter | apply costs_admit ] | intros ? ]
        | step_case ].

Lemma acquireLoop_costs p ctx waitCtx key owner dl fuel : forall attempt,
  costs (Z.of_nat fuel) (acquireLoop fuel attempt ctx waitCtx key owner p dl).
Proof.
  induction fuel as [|fuel IH]; intros attempt; simpl acquireLoop; [by apply costs_ret|].
  do 3 free_step. replace (Z.of_nat (S fuel)) with (1 + Z.of_nat fuel) by lia.
  apply costs_bind; [apply cc_try|]. intros r.
  repeat first [ apply IH | free_step ].
Qed.

(** Without a wait the loop never iterates. *)
Lemma acquireLoop_costs_nowait p ctx waitCtx key owner dl fuel attempt :
  wait p = 0 -> costs 1 (acquireLoop fuel attempt ctx waitCtx key owner p dl).
Proof.
  intros Hw. destruct fuel as [|fuel]; simpl acquireLoop; [by apply costs_ret|].
  do 3 free_step. apply (costs_bind 1 0); [apply cc_try|]. intros r.
  rewrite Hw, Z.eqb_refl, orb_true_l. repeat free_step.
Qed.

Lemma acquireReserved_costs n fuel c key p :
  0 <= n ->
  (forall owner waitCtx dl, costs n (acquireLoop fuel 1 c waitCtx key owner p dl)) ->
  costs n (acquireReserved fuel c key p).
Proof.
  intros Hn H. unfold acquireReserved. free_step.
  destruct (usableOwner _); [|by apply costs_ret].
  apply costs_free; [destruct (0 <? wait p); [apply costs_withTimeout|by apply costs_ret]|].
  intros wc. free_step. apply H.
Qed.

Lemma Acquire_costs n fuel client ctx key p :
  0 <= n -> (forall c, costs n (acquireReserved fuel c key p)) ->
  costs n (Acquire fuel client ctx key p).
Proof.
  intros Hn H. unfold Acquire, acquisitionContextError.
  apply costs_free.
  { destruct ctx; [|by apply costs_ret]. repeat free_step. }
  intros [e|]; [by apply costs_ret|]. destruct ctx as [c|]; [|by apply costs_ret].
  apply costs_free; [intros w; unfold reserveWaiter; step_case; simpl; lia|].
  intros [|]; simpl; [|by apply costs_ret].
  replace n with (n + 0) by lia. apply costs_bind; [done|]. intros r.
  apply costs_free; [intros w; simpl; lia|intros; by apply costs_ret].
Qed.
End Counting.

(** ** The waiter slot *)

Section Slots.
Context {E : Type} `{!Env E}.

Definition same_waiters (w w' : World E) : Prop := w_waiters w' = w_waiters w.

#[local] Instance same_waiters_refl : Reflexive same_waiters.
Proof. done. Qed.
#[local] Instance same_waiters_trans : Transitive same_waiters.
Proof. unfold same_waiters. intros ???. congruence. Qed.

(** No other goroutine takes or gives back a slot meanwhile. *)
Class KeepsWaiters : Prop := {
  kw_clock : mkeeps same_waiters clock_Now;
  kw_time : mkeeps same_waiters time_Now;
  kw_ctx ctx : mkeeps same_waiters (ctx_Err ctx);
  kw_owner : mkeeps same_waiters owners_NewOwner;
  kw_jitter d : mkeeps same_waiters (retry_Jitter d);
  kw_sleep ctx d : mkeeps same_waiters (sleeper_Sleep ctx d);
  kw_try ctx key owner d : mkeeps same_waiters (backend_TryAcquire ctx key owner d)
}.
Context {Hkeeps : KeepsWaiters}.

Ltac kw_leaf :=
  first [ apply kw_clock | apply kw_time | apply kw_ctx | apply kw_owner | apply kw_jitter
        | apply kw_sleep | apply kw_try | intros ?; done ].

Lemma acquireLoop_keeps p ctx waitCtx key owner dl fuel : forall attempt,
  mkeeps same_waiters (acquireLoop fuel attempt ctx waitCtx key owner p dl).
Proof.
  induction fuel as [|fuel IH]; intros attempt; simpl acquireLoop;
    unfold withTimeout, waitDeadlineReached, boundedJitter, grant;
    mkeeps_walk ltac:(first [ kw_leaf | apply IH ]).
Qed.

Lemma acquireReserved_keeps fuel ctx key p :
  mkeeps same_waiters (acquireReserved fuel ctx key p).
Proof.
  unfold acquireReserved, withTimeout.
  mkeeps_walk ltac:(first [ kw_leaf | apply acquireLoop_keeps ]).
Qed.

Lemma acquisitionContextError_keeps ctx : mkeeps same_waiters (acquisitionContextError ctx).
Proof. unfold acquisitionContextError. mkeeps_walk ltac:(kw_leaf). Qed.

Lemma Acquire_keeps fuel client ctx key p :
  mkeeps same_waiters (Acquire fuel client ctx key p).
Proof.
  intros w. unfold Acquire. rewrite M_bind_eq.
  pose proof (acquisitionContextError_keeps ctx w) as H1.
  destruct (acquisitionContextError ctx w) as [[e|] w1]; simpl in *; [done|].
  destruct ctx as [c|]; [|done]. rewrite M_bind_eq. unfold reserveWaiter.
  destruct (w_waiters w1 <? waiters client); simpl; [|done].
  rewrite !M_bind_eq. unfold releaseWaiter, modw. simpl. unfold same_waiters in *. simpl.
  rewrite (acquireReserved_keeps fuel c key p (set_waiters (w_waiters w1 + 1) w1)). simpl. lia.
Qed.
End Slots.

(** ** [TryAcquire] *)

Section Single.
Context {E : Type} `{!Env E}.

Lemma TryAcquire_granted ctx key p :
  mpost (fun o w' => forall id, o = Ok id -> granted (E:=E) key p id w') (TryAcquire ctx key p).
Proof.
  unfold TryAcquire. apply mpost_bind. intros [err|]; [by apply mpost_ret|].
  destruct ctx as [c|]; [|by apply mpost_ret]. apply mpost_bind. intros generated.
  destruct (usableOwner generated) as [owner|] eqn:Ho; [|by apply mpost_ret].
  apply usableOwner_Some in Ho as [_ Ho]. apply mpost_bind. intros opCtx w0.
  apply mpost_bind_eq. intros started w1 Hc. apply mpost_bind_eq. intros wallStarted w2 Ht.
  apply mpost_bind_eq. intros [rec|err] w3 Hb; [|done].
  destruct (grant _ _ _ _ _ _ w3) as [o w4] eqn:Ha. simpl. intros id Hid. simplify_eq.
  by eapply admit_granted.
Qed.

Lemma validAcquisition_true key owner rec :
  validAcquisition key owner rec = true ->
  KeyString (r_Key rec) = KeyString key /\ r_Owner rec = owner /\ r_Token rec <> 0 /\
  r_AcquiredAt rec < r_ExpiresAt rec.
Proof. unfold validAcquisition, After. intros H. by bool_split. Qed.
End Single.

(** The simulated world counts its calls and shares its slots with nobody. *)
#[global] Instance sim_counts : CountsCalls s_calls.
Proof.
  split; try (intros; intros w; simpl; lia).
  intros ctx key owner d w. simpl. unfold set_sim. by destruct (Memory.TryAcquire _ _ _ _ _ _).
Qed.

#[global] Instance sim_keeps : KeepsWaiters (E:=Sim).
Proof.
  split; try (intros; intros w; reflexivity).
  intros ctx key owner d w. unfold same_waiters. simpl. unfold set_sim.
  by destruct (Memory.TryAcquire _ _ _ _ _ _).
Qed.

(** A ten-nanosecond lease for which the caller waits up to 100, retrying every 4. *)
Definition wait_policy : Policy := MkPolicy 10 100 4 0 0 0 5 50 FailureFailClosed.
Definition client0 : Client := MkClient 1 1.

Lemma wait_policy_valid : policy_valid wait_policy.
Proof. split; simpl; unfold_policy_constants; lia. Qed.

(** The calls of one [Acquire]. *)
Lemma Acquire_calls {E} `{!Env E} (calls : E -> Z) `{!CountsCalls calls}
    p client ctx key fuel (w : World E) :
  policy_valid p -> (attempts p <= fuel)%nat ->
  calls (w_env (Acquire fuel client ctx key p w).2) <= calls (w_env w) + maxAttempts p /\
  (wait p = 0 -> calls (w_env (Acquire fuel client ctx key p w).2) <= calls (w_env w) + 1).
Proof.
  intros Hp Hf. split.
  - rewrite Acquire_fuel by done. replace (maxAttempts p) with (Z.of_nat (attempts p))
      by (unfold attempts; destruct Hp; lia).
    apply Acquire_costs; [done|lia|]. intros c.
    apply acquireReserved_costs; [done|lia|]. intros. by apply acquireLoop_costs.
  - intros Hw. apply Acquire_costs; [done|lia|]. intros c.
    apply acquireReserved_costs; [done|lia|]. intros. by apply acquireLoop_costs_nowait.
Qed.

(** ** Properties *)

(** C15: with a policy of [NewPolicy], [Acquire] returns in every world, whatever
    its clock, sources, contexts and backend do: as many iterations as the policy
    has attempts are enough, and more fuel changes neither result nor world. It makes at
    most [MaxAttempts] acquisition calls to the backend, and at most one when the policy
    does not wait. *)
Theorem Acquire_terminates {E} `{!Env E} (calls : E -> Z) `{!CountsCalls calls} p client ctx key fuel (w : World E) :
  policy_valid p -> (attempts p <= fuel)%nat ->
  (exists r, (Acquire fuel client ctx key p w).1 = Some r) /\
  Acquire fuel client ctx key p w = Acquire (attempts p) client ctx key p w /\
  calls (w_env (Acquire fuel client ctx key p w).2) <= calls (w_env w) + maxAttempts p /\
  (wait p = 0 -> calls (w_env (Acquire fuel client ctx key p w).2) <= calls (w_env w) + 1).
Proof.
  intros Hp Hf. split; [|split; [by apply Acquire_fuel|by apply Acquire_calls]].
  pose proof (Acquire_returns p client ctx key fuel Hp Hf w) as H. simpl in H.
  destruct (Acquire fuel client ctx key p w).1 as [r|]; [by exists r|done].
Qed.

(** The third attempt succeeds, after the other lease expired at 105. *)
Lemma Acquire_terminates_witness :
  let o := Acquire 5 client0 (Some Background) k1 wait_policy (contended_world 100) in
  policy_valid wait_policy /\ o.1 = Some (Ok 0%nat) /\ s_calls (w_env o.2) = 3 /\ exists r, o.1 = Some r.
Proof.
  split; [exact wait_policy_valid|]. split; [vm_compute; reflexivity|]. split; [vm_compute; reflexivity|].
  apply (Acquire_terminates s_calls wait_policy client0 (Some Background) k1 5 (contended_world 100)
    wait_policy_valid). vm_compute. lia.
Defined.

(** C16: a handle that [Acquire] or [TryAcquire] returns is new and active, and rests
    on a backend reply with the requested key, the generated owner, a nonzero fence
    and ordered timestamps; its two deadlines are the policy budget counted from
    clock readings made before the backend call, so the latency of the response
    consumes admission time. Contention never leaves [Acquire]: it is retried within the
    bounds and otherwise reported as [ErrTimeout]. *)
Theorem acquired_handle_sound {E} `{!Env E} p client ctx key fuel (w : World E) :
  (forall id, (Acquire fuel client ctx key p w).1 = Some (Ok id) ->
     granted key p id (Acquire fuel client ctx key p w).2) /\
  (forall id, (TryAcquire ctx key p w).1 = Ok id ->
     granted key p id (TryAcquire ctx key p w).2) /\
  (forall e, (Acquire fuel client ctx key p w).1 = Some (Err e) -> Is e ErrContended = false) /\
  (forall id w', granted key p id w' -> exists h owner started wallStarted,
     w_handles w' !! id = Some h /\ state h = StateActive /\ busy h = false /\
     KeyString (r_Key (record h)) = KeyString key /\ r_Owner (record h) = owner /\
     0 < len owner <= 128 /\ r_Token (record h) <> 0 /\
     r_AcquiredAt (record h) < r_ExpiresAt (record h) /\
     deadline h = started + budget p /\ wallDeadline h = wallStarted + budget p).
Proof.
  split; [apply (Acquire_granted client p ctx key fuel w)|].
  split; [apply (TryAcquire_granted ctx key p w)|].
  split; [apply (Acquire_not_contended client p ctx key fuel w)|].
  intros id w' (owner & rec & st & wst & opCtx & w0 & w1 & w2 & w3 & Ho & _ & _ & _ & Hv & Hl).
  apply validAcquisition_true in Hv as (Hk & Hown & Ht & Hx).
  exists (newHandleAt p rec st wst), owner, st, wst. simpl in Ho. step_case_in Ho; [done|].
  bool_split. split_and!; try done. by apply len_pos.
Qed.

(** Two attempts are not enough for the lease held until 105. *)
Example Acquire_times_out :
  let short_policy := MkPolicy 10 100 2 0 0 0 2 50 FailureFailClosed in
  (Acquire 2 client0 (Some Background) k1 short_policy (contended_world 100)).1 =
    Some (Err (WrapS ErrTimeout "acquire")).
Proof. by vm_compute. Qed.

(** C18: [Acquire] gives its waiter slot back on every return path (success, each
    error, early rejection), and with a full channel it is refused with
    [ErrBackendUnavailable] without calling a source or the backend. *)
Theorem Acquire_slot_balance {E} `{!Env E} `{!KeepsWaiters (E:=E)} p client ctx key fuel (w : World E) :
  w_waiters (Acquire fuel client ctx key p w).2 = w_waiters w /\
  (forall c, ctx = Some c -> (ctx_Err c w).1 = None -> waiters client <= w_waiters w ->
     Acquire fuel client ctx key p w =
       (Some (Err (WrapS ErrBackendUnavailable "waiter capacity")), (ctx_Err c w).2)).
Proof.
  split; [apply (Acquire_keeps fuel client ctx key p w)|].
  intros c -> Hc Hfull. unfold Acquire. rewrite M_bind_eq. simpl. rewrite M_bind_eq.
  pose proof (kw_ctx c w) as Hk. unfold same_waiters in Hk.
  destruct (ctx_Err c w) as [o w1]. simpl in *. subst o. simpl. rewrite M_bind_eq.
  unfold reserveWaiter. destruct (Z.ltb_spec (w_waiters w1) (waiters client)); [lia|done].
Qed.

Lemma Acquire_slot_balance_witness :
  w_waiters (Acquire 5 client0 (Some Background) k1 wait_policy (contended_world 100)).2 = 0.
Proof.
  exact (proj1 (Acquire_slot_balance wait_policy client0 (Some Background) k1 5
    (contended_world 100))).
Defined.
