(* ===== verification/Schedule.v ===== *)
(** * The schedule of [Acquire]

    When the retry loop of client.go makes its attempts: in the world of [Simulation]
    (one process, the memory store, a clock that only the sleeper advances, any values
    drawn from the jitter source), on a key that is free from some instant on, attempt
    [k + 1] follows attempt [k] after [Retry] and the draw cut to [Jitter], the first
    attempt at or after that instant succeeds, and the loop ends at the attempt whose
    successor is not allowed by [MaxAttempts] and [Wait]. The loop of [Client] is
    proved to make exactly these attempts. *)

From S2P Require Import Prelude GoBase GoStrings Errors LeaseKey LeasePolicy Backend Memory Handle.
From S2P Require Import Runtime Simulation Client MemoryServing.

(** ** The schedule *)

(** The instant of attempt [k], counted from 0, of an acquisition started at [t0]. *)
Fixpoint attempt_time (p : Policy) (t0 : Time) (draws : nat -> Duration) (k : nat) : Time :=
  match k with
  | O => t0
  | S k' => attempt_time p t0 draws k' + retry p + Z.min (Z.max (draws k') 0) (jitter p)
  end.

(** The attempts the policy allows: the first, and with a wait those within the
    number of attempts that fall before the end of the wait. *)
Definition allowed (p : Policy) (t0 : Time) (draws : nat -> Duration) (k : nat) : Prop :=
  k = 0%nat \/
  0 < wait p /\ Z.of_nat k < maxAttempts p /\ attempt_time p t0 draws k < t0 + wait p.

Lemma attempt_time_start p t0 draws k : policy_valid p -> t0 <= attempt_time p t0 draws k.
Proof.
  intros Hp. pose proof (pv_jitter _ Hp). pose proof (pv_retry _ Hp).
  induction k as [|k IH]; simpl; lia.
Qed.

Example attempt_times :
  attempt_time (MkPolicy 10 20 4 3 0 1 5 5 FailureFailClosed) 100 (fun i => 2 * Z.of_nat i - 1) <$> seq 0 5 =
  [100; 104; 109; 116; 123].
Proof. reflexivity. Qed.

(** ** The loop in the simulated world *)

Section Loop.
Variables (key : Key) (owner : string) (p : Policy) (t0 : Time) (draws : nat -> Duration).
Hypothesis p_valid : policy_valid p.
Hypothesis key_ok : KeyString key <> "".
Hypothesis owner_len : 0 < len owner <= 128.

(** The wait context: none, or a deadline [wait] after the start. *)
Definition wait_context : Context :=
  if 0 <? wait p then WithDeadline Background (Add t0 (wait p)) else Background.

Lemma arguments_valid : Memory.validate None key owner (ttl p) = None.
Proof.
  pose proof (pv_ttl _ p_valid). unfold Memory.validate, validateIdentity.
  pose proof (proj2 (String.eqb_neq _ _) key_ok) as ->.
  assert (String.eqb owner "" = false) as -> by (apply String.eqb_neq, len_pos; lia).
  destruct (Z.ltb_spec 128 (len owner)), (Z.leb_spec (ttl p) 0); lia || done.
Qed.

(** Between the start and the end of the wait no context is done. *)
Lemma wait_context_live s :
  s_now s = t0 \/ s_now s < t0 + wait p -> sim_ctx s wait_context = None.
Proof.
  pose proof (pv_wait _ p_valid). unfold wait_context. intros Hs. destruct (Z.ltb_spec 0 (wait p)); [|done].
  simpl. unfold Add. destruct (Z.leb_spec (t0 + wait p) (s_now s)); [lia|done].
Qed.

(** The key is free from [free_at] on, and can then be granted. *)
Definition freed (st : Store) (free_at : Time) : Prop :=
  store_wf st /\ fence (view st (KeyString key)) < uint64_max /\
  (is_Some (entries st !! KeyString key) \/ Z.of_nat (size (entries st)) < maxKeys st) /\
  forall t, t0 <= t -> live t (view st (KeyString key)) <-> t < free_at.

(** One attempt. *)
Lemma attempt_runs (w : World Sim) free_at :
  freed (s_store (w_env w)) free_at -> t0 <= s_now (w_env w) ->
  s_now (w_env w) = t0 \/ s_now (w_env w) < t0 + wait p ->
  let t := s_now (w_env w) in
  let st := s_store (w_env w) in
  let opCtx := WithDeadline wait_context (Add t (operationTimeout p)) in
  let rec := MkRecord key owner (fence (view st (KeyString key)) + 1) t (t + ttl p) in
  backend_TryAcquire opCtx key owner (ttl p) w =
  if free_at <=? t
  then (Ok rec, MkWorld (set_store (set_entry key (MkEntry rec true) st) (w_env w)) (w_handles w) (w_waiters w) (w_managed w))
  else (Err (WrapS ErrContended "try acquire"), MkWorld (set_store st (w_env w)) (w_handles w) (w_waiters w) (w_managed w)).
Proof.
  intros (Hwf & Hf & Hroom & Hfree) Ht0 Hlim t st opCtx rec. simpl. unfold set_sim, sim_err. simpl.
  rewrite wait_context_live by done. unfold Add. fold t. pose proof (pv_timeout _ p_valid).
  destruct (Z.leb_spec (t + operationTimeout p) t); [lia|]. simpl.
  destruct (TryAcquire_table t key owner (ttl p) st Hwf arguments_valid)
    as [[Hl E]|[(Hl & Hr & E)|[(Hl & Hr & Hx & E)|(Hl & Hr & Hx & E)]]]; fold st; rewrite E.
  - apply Hfree in Hl; [|done]. by destruct (Z.leb_spec free_at t); [lia|].
  - by destruct Hr.
  - fold st in Hf. lia.
  - destruct (Z.leb_spec free_at t); [done|]. destruct Hl. apply Hfree; lia.
Qed.

(** What [Acquire] leaves behind: a new handle on the record granted at [t], or nothing. *)
Definition granted_at (w w' : World Sim) (o : option (res nat)) (t : Time) : Prop :=
  let st := s_store (w_env w) in
  let rec := MkRecord key owner (fence (view st (KeyString key)) + 1) t (t + ttl p) in
  o = Some (Ok (length (w_handles w))) /\
  w_handles w' = (w_handles w ++ [newHandleAt p rec t t])%list /\
  s_now (w_env w') = t /\ s_store (w_env w') = set_entry key (MkEntry rec true) st.

Definition timed_out (w w' : World Sim) (o : option (res nat)) : Prop :=
  o = Some (Err (WrapS ErrTimeout "acquire")) /\ w_handles w' = w_handles w /\
  s_store (w_env w') = s_store (w_env w).

(** The attempts [k] to [k'] are made, the last one granted, or all contended and the
    next one not allowed. *)
Definition attempts_made (k : nat) (free_at : Time) (w w' : World Sim) (o : option (res nat)) : Prop :=
  exists k' : nat, (k <= k')%nat /\ allowed p t0 draws k' /\
    s_calls (w_env w') = s_calls (w_env w) + Z.of_nat (S k' - k) /\
    (forall j, (k <= j < k')%nat -> attempt_time p t0 draws j < free_at) /\
    (free_at <= attempt_time p t0 draws k' /\ granted_at w w' o (attempt_time p t0 draws k') \/
     attempt_time p t0 draws k' < free_at /\ ~ allowed p t0 draws (S k') /\ timed_out w w' o).

Lemma grant_runs st t n (w : World Sim) :
  0 <= n ->
  let rec := MkRecord key owner (n + 1) t (t + ttl p) in
  grant key owner p rec st st w =
  (Ok (length (w_handles w)), set_handles (w_handles w ++ [newHandleAt p rec st st])%list w).
Proof.
  intros Hn rec. unfold grant. pose proof (pv_ttl _ p_valid).
  assert (validAcquisition key owner rec = true) as ->; [|done].
  unfold validAcquisition, After, rec. simpl. rewrite !String.eqb_refl. simpl.
  destruct (Z.eqb_spec (n + 1) 0), (Z.ltb_spec t (t + ttl p)); lia || done.
Qed.

(** The steps of the world. *)
Lemma bind_step {W A B} (c : M W A) (f : A -> M W B) w a w' :
  c w = (a, w') -> (c ≫= f) w = f a w'.
Proof. intros H. by rewrite M_bind_eq, H. Qed.

Lemma sim_clock (w : World Sim) : clock_Now w = (s_now (w_env w), w).
Proof. by destruct w. Qed.
Lemma sim_time (w : World Sim) : time_Now w = (s_now (w_env w), w).
Proof. by destruct w. Qed.
Lemma sim_timeout ctx d (w : World Sim) : withTimeout ctx d w = (WithDeadline ctx (Add (s_now (w_env w)) d), w).
Proof. by destruct w. Qed.

Lemma sim_reached (w : World Sim) :
  s_now (w_env w) = t0 \/ s_now (w_env w) < t0 + wait p ->
  waitDeadlineReached Background wait_context w = (false, w).
Proof.
  intros H. unfold waitDeadlineReached. rewrite !M_bind_eq. simpl. rewrite M_bind_eq. simpl.
  rewrite wait_context_live by done. by destruct w.
Qed.

Lemma sim_jitter (w : World Sim) :
  boundedJitter (jitter p) w =
  (Z.min (Z.max (s_draws (w_env w) 0%nat) 0) (jitter p),
   MkWorld (next_draw (w_env w)) (w_handles w) (w_waiters w) (w_managed w)).
Proof. done. Qed.

Lemma sim_sleep d (w : World Sim) :
  s_now (w_env w) + d < t0 + wait p ->
  sleeper_Sleep wait_context d w =
  (None, MkWorld (set_now (s_now (w_env w) + d) (w_env w)) (w_handles w) (w_waiters w) (w_managed w)).
Proof. intros H. simpl. unfold set_sim, sim_err. by rewrite wait_context_live by (simpl; lia). Qed.

(** The world at attempt [k]. *)
Record at_attempt (k : nat) (free_at : Time) (w : World Sim) : Prop := {
  aa_free : freed (s_store (w_env w)) free_at;
  aa_now : s_now (w_env w) = attempt_time p t0 draws k;
  aa_allowed : allowed p t0 draws k;
  aa_draws : forall i, s_draws (w_env w) i = draws (k + i)%nat
}.

Lemma at_attempt_time k free_at w :
  at_attempt k free_at w ->
  t0 <= s_now (w_env w) /\ (s_now (w_env w) = t0 \/ s_now (w_env w) < t0 + wait p).
Proof.
  intros [_ Hnow Hall _]. rewrite Hnow. split; [by apply attempt_time_start|].
  destruct Hall as [->|(_ & _ & H)]; [by left|by right].
Qed.

(** A contended attempt and its sleep lead to the next one. *)
Lemma at_attempt_next k free_at w w' :
  at_attempt k free_at w -> allowed p t0 draws (S k) ->
  s_store (w_env w') = s_store (w_env w) -> s_now (w_env w') = attempt_time p t0 draws (S k) ->
  s_draws (w_env w') = (fun i => s_draws (w_env w) (S i)) -> at_attempt (S k) free_at w'.
Proof.
  intros [Hf _ _ Hd] Hall Hst Hnow Hdr. split; [by rewrite Hst|done|done|].
  intros i. rewrite Hdr, Hd. f_equal. lia.
Qed.

Lemma attempts_made_next k free_at w w1 w2 o :
  attempts_made (S k) free_at w1 w2 o -> attempt_time p t0 draws k < free_at ->
  s_calls (w_env w1) = s_calls (w_env w) + 1 -> s_store (w_env w1) = s_store (w_env w) ->
  w_handles w1 = w_handles w -> attempts_made k free_at w w2 o.
Proof.
  intros (k' & Hk & Hall & Hc & Hj & H) Ht Hc1 Hst Hh. exists k'. split_and!; try done; [lia|lia| |].
  - intros j Hjk. destruct (decide (j = k)) as [->|]; [done|]. apply Hj. lia.
  - unfold granted_at, timed_out in *. by rewrite <- Hst, <- Hh.
Qed.

Lemma delay_bounds d : 0 <= Z.min (Z.max d 0) (jitter p) <= jitter p.
Proof. pose proof (pv_jitter _ p_valid). lia. Qed.

Lemma loop_runs fuel : forall k (w : World Sim) free_at,
  at_attempt k free_at w -> Z.of_nat k < maxAttempts p -> maxAttempts p < Z.of_nat (S k + fuel) ->
  let out := acquireLoop fuel (Z.of_nat k + 1) Background wait_context key owner p (Add t0 (wait p)) w in
  attempts_made k free_at w out.2 out.1.
Proof.
  induction fuel as [|fuel IH]; intros k w free_at Hat Hk Hfuel; [lia|].
  destruct (at_attempt_time _ _ _ Hat) as [Ht0 Hlim]. pose proof (aa_now _ _ _ Hat) as Hnow.
  cbn [acquireLoop].
  rewrite (bind_step _ _ _ _ _ (sim_timeout _ _ w)), (bind_step _ _ _ _ _ (sim_clock w)),
    (bind_step _ _ _ _ _ (sim_time w)).
  pose proof (attempt_runs w free_at (aa_free _ _ _ Hat) Ht0 Hlim) as Hrun. cbv zeta in Hrun.
  destruct (Z.leb_spec free_at (s_now (w_env w))) as [Hle|Hgt]; rewrite (bind_step _ _ _ _ _ Hrun); cbv zeta.
  { destruct (aa_free _ _ _ Hat) as (Hwf & _). pose proof (view_fence_nonneg _ (KeyString key) Hwf) as Hf.
    rewrite (bind_step _ _ _ _ _ (grant_runs _ _ _ _ Hf)).
    exists k. rewrite <- Hnow. split_and!; [done|apply Hat|simpl; lia|lia|]. by left. }
  set (w1 := MkWorld (set_store _ _) _ _ _).
  rewrite (bind_step _ _ _ _ _ (sim_reached w1 Hlim)).
  change (negb (isContention (WrapS ErrContended "try acquire"))) with false. cbv iota.
  rewrite (bind_step _ _ _ _ _ (sim_jitter w1)). set (j := Z.min _ _). set (w2 := MkWorld (next_draw _) _ _ _).
  pose proof (delay_bounds (s_draws (w_env w1) 0%nat)) as Hj. fold j in Hj.
  assert (Hnext : attempt_time p t0 draws (S k) = s_now (w_env w) + (retry p + j)).
  { simpl. unfold j. simpl. rewrite (aa_draws _ _ _ Hat), Nat.add_0_r, Hnow. lia. }
  assert (Hstop : ~ allowed p t0 draws (S k) -> attempts_made k free_at w w2 (Some (Err (WrapS ErrTimeout "acquire")))).
  { intros Hn. exists k. split_and!; [done|apply Hat|simpl; lia|lia|]. right. by rewrite <- Hnow. }
  rewrite delay_exact by done.
  destruct ((wait p =? 0) || (Z.of_nat k + 1 =? maxAttempts p)) eqn:Estop.
  { apply Hstop. unfold allowed. bool_split; lia. }
  bool_split. rewrite (bind_step _ _ _ _ _ (sim_clock w2)).
  change (Before (Add (s_now (w_env w2)) (retry p + j)) (Add t0 (wait p)))
    with (s_now (w_env w) + (retry p + j) <? t0 + wait p). rewrite <- Hnext.
  destruct (Z.ltb_spec (attempt_time p t0 draws (S k)) (t0 + wait p)) as [Hlt|Hge]; cbn [negb].
  2:{ apply Hstop. unfold allowed. lia. }
  rewrite (bind_step _ _ _ _ _ (sim_sleep (retry p + j) w2 ltac:(simpl; lia))).
  rewrite wrapu32_id by (pose proof (pv_attempts _ p_valid); unfold is_uint32, uint32_max, MaxAttempts in *; lia).
  pose proof (pv_wait _ p_valid). replace (Z.of_nat k + 1 + 1) with (Z.of_nat (S k) + 1) by lia.
  eapply attempts_made_next; [apply IH|by rewrite <- Hnow|done..]; [|lia|lia].
  apply (at_attempt_next k free_at w); [done|right; lia|done|simpl s_now; lia|done].
Qed.

Lemma acquire_runs client (w : World Sim) free_at fuel :
  s_now (w_env w) = t0 -> s_draws (w_env w) = draws ->
  s_owner (w_env w) = owner -> w_waiters w < waiters client ->
  freed (s_store (w_env w)) free_at -> (attempts p <= fuel)%nat ->
  let out := Acquire fuel client (Some Background) key p w in
  attempts_made 0 free_at w out.2 out.1.
Proof.
  intros Hnow Hdr Hown Hslot Hfree Hfuel. pose proof (pv_attempts _ p_valid) as Ha. unfold Acquire.
  assert (Hctx : acquisitionContextError (Some Background) w = (None, w)) by (by destruct w).
  rewrite (bind_step _ _ _ _ _ Hctx). cbv iota beta.
  assert (Hres : reserveWaiter (waiters client) w = (true, set_waiters (w_waiters w + 1) w)).
  { unfold reserveWaiter. by apply Z.ltb_lt in Hslot as ->. }
  rewrite (bind_step _ _ _ _ _ Hres). cbn [negb]. set (w1 := set_waiters _ w).
  assert (Hloop : acquireReserved fuel Background key p w1 =
    acquireLoop fuel 1 Background wait_context key owner p (Add t0 (wait p)) w1).
  { unfold acquireReserved.
    assert (Ho : owners_NewOwner w1 = (Ok owner, w1)) by (by destruct w; simpl in *; subst owner).
    rewrite (bind_step _ _ _ _ _ Ho). unfold usableOwner.
    assert (String.eqb owner "" = false) as -> by (apply String.eqb_neq, len_pos; lia).
    destruct (Z.ltb_spec 128 (len owner)); [lia|]. cbn [orb]. unfold wait_context.
    destruct (0 <? wait p).
    - rewrite (bind_step _ _ _ _ _ (sim_timeout _ _ w1)), (bind_step _ _ _ _ _ (sim_clock w1)).
      simpl s_now. by rewrite Hnow.
    - rewrite (bind_step _ _ _ Background w1) by done. rewrite (bind_step _ _ _ _ _ (sim_clock w1)).
      simpl s_now. by rewrite Hnow. }
  rewrite M_bind_eq, Hloop. unfold attempts in Hfuel.
  assert (Hat : at_attempt 0 free_at w1) by (split; [done|done|by left|intros i; simpl; by rewrite Hdr]).
  pose proof (loop_runs fuel 0 w1 free_at Hat ltac:(lia) ltac:(lia)) as H. cbv zeta in H.
  simpl Z.of_nat in H. simpl Z.add in H.
  by destruct (acquireLoop _ _ _ _ _ _ _ _ w1) as [o w2].
Qed.
End Loop.

(** When a key of the store is free. *)
Definition free_at (now : Time) (k : key_state) : Time :=
  match holder k with Some r => r_ExpiresAt r | None => now end.

Lemma free_at_live now t k : now <= t -> live t k <-> t < free_at now k.
Proof.
  intros Ht. unfold live, free_at. destruct (holder k) as [r|]; [|split; [by intros (? & ? & _)|lia]].
  split; [intros (r' & [= ->] & ?); done|]. intros. by exists r.
Qed.

(** ** Property *)

(** C17: [Acquire] follows its schedule. In the world of [Simulation] (the memory
    store, a caller that is not canceled, a clock that only the sleeper advances, a
    jitter source that draws any values), with a valid policy, a free waiter slot and
    a key that is held until some instant or free: [Acquire] makes the attempts [0] to
    [k] of the schedule and no other backend call, attempt [i + 1] coming [Retry] plus
    draw [i], cut to between 0 and [Jitter], after attempt [i]. All before [k] find the
    key held. Attempt [k] finds it free, and [Acquire] returns a handle granted at that
    very instant with the next fence and the deadlines counted from it; or it finds it
    held and the next attempt is past [MaxAttempts], or not before the end of [Wait],
    or there is no wait, and [Acquire] reports [ErrTimeout], changing neither the store
    nor the handles. *)
Theorem Acquire_follows_schedule key p client (w : World Sim) fuel :
  let s := w_env w in
  let k := view (s_store s) (KeyString key) in
  policy_valid p -> KeyString key <> "" -> 0 < len (s_owner s) <= 128 -> w_waiters w < waiters client ->
  store_wf (s_store s) -> fence k < uint64_max ->
  is_Some (entries (s_store s) !! KeyString key) \/
    Z.of_nat (size (entries (s_store s))) < maxKeys (s_store s) ->
  (attempts p <= fuel)%nat ->
  let out := Acquire fuel client (Some Background) key p w in
  attempts_made key (s_owner s) p (s_now s) (s_draws s) 0 (free_at (s_now s) k) w out.2 out.1.
Proof.
  intros s k Hp Hk Ho Hslot Hwf Hf Hroom Hfuel. apply acquire_runs; try done.
  split_and!; try done. intros t Ht. by apply free_at_live.
Qed.

(** The key is held until 105; with draws of -5, 7 and then 1, and a jitter of at most
    3, the attempts come at 100, 104, 111, and the third is granted. *)
Definition jitter_policy : Policy := MkPolicy 10 20 4 3 0 1 5 5 FailureFailClosed.
Definition jittered (i : nat) : Duration := match i with O => -5 | 1%nat => 7 | _ => 1 end.
Definition jittered_world : World Sim :=
  MkWorld (MkSim 100 "me" (s_store (w_env (contended_world 100))) 0 false 0 [] jittered) [] 0 0.

Lemma jitter_policy_valid : policy_valid jitter_policy.
Proof. split; simpl; unfold_policy_constants; lia. Qed.

Lemma Acquire_follows_schedule_witness :
  let w := jittered_world in
  let out := Acquire 5 client0 (Some Background) k1 jitter_policy w in
  s_calls (w_env out.2) = 3 /\
  attempts_made k1 "me" jitter_policy 100 jittered 0 105 w out.2 out.1.
Proof.
  split; [vm_compute; reflexivity|].
  apply (Acquire_follows_schedule k1 jitter_policy client0 jittered_world 5 jitter_policy_valid).
  - discriminate.
  - vm_compute. split; [reflexivity|discriminate].
  - vm_compute. reflexivity.
  - apply (perform_wf None 95 (CallTryAcquire k1 "other" 10) store0 _ _ store0_wf eq_refl).
  - vm_compute. reflexivity.
  - left. vm_compute. eexists. reflexivity.
  - vm_compute. lia.
Defined.
