(* ===== verification/Sources.v ===== *)
(** * client.go: the default owner, jitter and sleep sources

    [randomOwners] and [randomRetry] over a reader, whose [io.ReadFull] is an argument;
    the URL alphabet of base64 and the big-endian reading are written out on bytes;
    [timerSleeper] over the race of its timer with the context. *)

From S2P Require Import Prelude GoBase GoStrings Errors LeaseKey LeasePolicy Backend Handle Runtime Client.
From Stdlib Require Import Ascii.

(** [io.ReadFull(reader, bytes[:])] for [n] bytes. *)
Abbreviation reader := (nat -> res (list Z)).
(** What [io.ReadFull] documents: all the bytes, or an error. *)
Definition reads_full (r : reader) : Prop :=
  forall n bs, r n = Ok bs -> length bs = n /\ Forall (fun b => 0 <= b < 256) bs.

(** The alphabet of [base64.RawURLEncoding]. *)
Definition alphabet : string := "ABCDEFGHIJKLMNOPQRSTUVWXYZabcdefghijklmnopqrstuvwxyz0123456789-_".
Definition digit64 (i : Z) : ascii := default "A"%char (String.get (Z.to_nat i) alphabet).

(** [RawURLEncoding.EncodeToString]: three bytes are four digits, and a tail of one or
    two bytes two or three, without padding. *)
Fixpoint EncodeURL (bs : list Z) : string :=
  match bs with
  | b0 :: b1 :: b2 :: rest =>
      let val := Z.lor (Z.lor (Z.shiftl b0 16) (Z.shiftl b1 8)) b2 in
      String (digit64 (Z.land (Z.shiftr val 18) 63))
        (String (digit64 (Z.land (Z.shiftr val 12) 63))
          (String (digit64 (Z.land (Z.shiftr val 6) 63))
            (String (digit64 (Z.land val 63)) (EncodeURL rest))))
  | [b0; b1] =>
      let val := Z.lor (Z.shiftl b0 16) (Z.shiftl b1 8) in
      String (digit64 (Z.land (Z.shiftr val 18) 63))
        (String (digit64 (Z.land (Z.shiftr val 12) 63))
          (String (digit64 (Z.land (Z.shiftr val 6) 63)) ""))
  | [b0] =>
      let val := Z.shiftl b0 16 in
      String (digit64 (Z.land (Z.shiftr val 18) 63))
        (String (digit64 (Z.land (Z.shiftr val 12) 63)) "")
  | [] => ""
  end.

(** [randomOwners.NewOwner]. *)
Definition NewOwner (r : reader) : res string :=
  match r 24%nat with
  | Err err => Err err
  | Ok bs => Ok (EncodeURL bs)
  end.

(** [binary.BigEndian.Uint64]. *)
Definition BigEndian (bs : list Z) : Z := fold_left (fun acc b => Z.lor (Z.shiftl acc 8) b) bs 0.

(** [randomRetry.Jitter]. *)
Definition Jitter (r : reader) (maximum : Duration) : Duration :=
  if maximum <? Nanosecond then 0
  else
    match r 8%nat with
    | Err _ => 0
    | Ok bs => wrap64 (BigEndian bs mod wrapu64 (wrapu64 maximum + 1))
    end.

(** ** Lemmas *)

Lemma digit64_inj i j : 0 <= i < 64 -> 0 <= j < 64 -> digit64 i = digit64 j -> i = j.
Proof.
  intros Hi Hj.
  assert (H : Forall (fun i => Forall (fun j => digit64 (Z.of_nat i) = digit64 (Z.of_nat j) -> i = j)
    (seq 0 64)) (seq 0 64)) by (apply (bool_decide_unpack _); vm_compute; exact I).
  rewrite List.Forall_forall in H. specialize (H (Z.to_nat i)). rewrite List.Forall_forall in H.
  intros He. enough (Z.to_nat i = Z.to_nat j) by lia.
  apply H; [apply in_seq; lia|apply in_seq; lia|]. by rewrite !Z2Nat.id by lia.
Qed.

(** A byte below a shifted value: the bitwise or is the sum. *)
Lemma lor_shift a b n : 0 <= n -> 0 <= b < 2 ^ n -> Z.lor (Z.shiftl a n) b = a * 2 ^ n + b.
Proof.
  intros Hn Hb. rewrite <- Z.shiftl_mul_pow2 by done.
  assert (Hl : Z.land (Z.shiftl a n) b = 0).
  { apply Z.bits_inj'. intros i Hi. rewrite Z.land_spec, Z.shiftl_spec, Z.bits_0 by done.
    destruct (Z.ltb_spec i n).
    - by rewrite Z.testbit_neg_r by lia.
    - rewrite <- (Z.mod_small b (2 ^ n)) by done. rewrite Z.mod_pow2_bits_high by lia.
      apply andb_false_r. }
  by rewrite Z.add_nocarry_lxor, Z.lxor_lor by done.
Qed.

Lemma sextet val n : 0 <= n -> Z.land (Z.shiftr val n) 63 = (val / 2 ^ n) mod 64.
Proof.
  intros Hn. rewrite Z.shiftr_div_pow2 by done. change 63 with (Z.ones 6).
  by rewrite Z.land_ones by done.
Qed.

Lemma sextet_range val n : 0 <= n -> 0 <= Z.land (Z.shiftr val n) 63 < 64.
Proof. intros Hn. rewrite sextet by done. by apply Z.mod_pos_bound. Qed.

(** Three bytes are a number below 2^24, which its four digits determine. *)
Lemma val24 b0 b1 b2 : 0 <= b0 < 256 -> 0 <= b1 < 256 -> 0 <= b2 < 256 ->
  Z.lor (Z.lor (Z.shiftl b0 16) (Z.shiftl b1 8)) b2 = (b0 * 256 + b1) * 256 + b2.
Proof.
  intros. assert (H16 : Z.lor (Z.shiftl b0 16) (Z.shiftl b1 8) = Z.shiftl (b0 * 256 + b1) 8).
  { replace (Z.shiftl b0 16) with (Z.shiftl (Z.shiftl b0 8) 8) by by rewrite Z.shiftl_shiftl by lia.
    rewrite <- Z.shiftl_lor.
    by rewrite lor_shift by lia. }
  rewrite H16. by rewrite lor_shift by lia.
Qed.

Lemma digits_determine v w :
  0 <= v < 2 ^ 24 -> 0 <= w < 2 ^ 24 ->
  Z.land (Z.shiftr v 18) 63 = Z.land (Z.shiftr w 18) 63 ->
  Z.land (Z.shiftr v 12) 63 = Z.land (Z.shiftr w 12) 63 ->
  Z.land (Z.shiftr v 6) 63 = Z.land (Z.shiftr w 6) 63 ->
  Z.land v 63 = Z.land w 63 -> v = w.
Proof.
  intros Hv Hw. rewrite !sextet by lia.
  change 63 with (Z.ones 6). rewrite !Z.land_ones by lia.
  change (2 ^ 18) with 262144. change (2 ^ 12) with 4096. change (2 ^ 6) with 64.
  change (2 ^ 24) with 16777216 in *. intros. Z.to_euclidean_division_equations. lia.
Qed.

Definition is_byte (b : Z) : Prop := 0 <= b < 256.

Lemma val24_range b0 b1 b2 : is_byte b0 -> is_byte b1 -> is_byte b2 ->
  0 <= (b0 * 256 + b1) * 256 + b2 < 2 ^ 24.
Proof. unfold is_byte. change (2 ^ 24) with 16777216. lia. Qed.

Lemma EncodeURL_length n : forall bs, length bs = (3 * n)%nat -> len (EncodeURL bs) = 4 * Z.of_nat n.
Proof.
  induction n as [|n IH]; intros bs H; [by destruct bs|].
  destruct bs as [|b0 [|b1 [|b2 bs]]]; simpl in H; try lia.
  cbn [EncodeURL]. rewrite !len_cons, (IH bs) by lia. lia.
Qed.

(** Whole groups of three bytes can be read back. *)
Lemma EncodeURL_inj n : forall bs bs',
  length bs = (3 * n)%nat -> length bs' = (3 * n)%nat ->
  Forall is_byte bs -> Forall is_byte bs' -> EncodeURL bs = EncodeURL bs' -> bs = bs'.
Proof.
  induction n as [|n IH]; intros bs bs' H H' Hb Hb' He; [by destruct bs, bs'|].
  destruct bs as [|b0 [|b1 [|b2 bs]]], bs' as [|c0 [|c1 [|c2 bs']]]; simpl in H, H'; try lia.
  rewrite !List.Forall_cons_iff in Hb, Hb'. destruct Hb as (H0 & H1 & H2 & Hb), Hb' as (H0' & H1' & H2' & Hb').
  cbn [EncodeURL] in He. rewrite !val24 in He by done.
  pose proof (val24_range b0 b1 b2 H0 H1 H2) as Hv. pose proof (val24_range c0 c1 c2 H0' H1' H2') as Hw.
  set (v := (b0 * 256 + b1) * 256 + b2) in *. set (w := (c0 * 256 + c1) * 256 + c2) in *.
  injection He as E1 E2 E3 E4 Erest.
  assert (Hr : forall x, 0 <= Z.land x 63 < 64).
  { intros x. change 63 with (Z.ones 6). rewrite Z.land_ones by lia. by apply Z.mod_pos_bound. }
  apply digit64_inj in E1, E2, E3, E4; try apply Hr.
  assert (Hvw : v = w) by by apply digits_determine.
  subst v w. unfold is_byte in *. rewrite (IH bs bs') by (done || lia).
  assert (b0 = c0 /\ b1 = c1 /\ b2 = c2) as (-> & -> & ->) by lia. done.
Qed.

(** ** The default sleeper *)

(** What the runtime decides in a sleep: how long after its duration the timer fires (it
    never fires before), how long the goroutine takes from the creation of the timer to
    the [select] and from a ready channel to its return, and which case it picks when
    the [select] finds both channels ready. *)
Record scheduling := MkScheduling { late : Z; entering : Z; waking : Z; pick : bool }.

Definition scheduling_ok (r : scheduling) : Prop := 0 <= late r /\ 0 <= entering r /\ 0 <= waking r.

(** [timerSleeper.Sleep], started at [start]: [done] is the instant at which the context
    is done and its error, if it ever is. The [select] takes the case that is ready
    first, counted from its start, and any of them when both are ready at once. The
    error, and the instant of the return. *)
Definition Sleep (r : scheduling) (done : option (Time * error)) (start : Time) (duration : Duration) :
    err_opt * Time :=
  let fires := Add start (Z.max 0 duration) + late r in
  let enters := start + entering r in
  match done with
  | None => (None, Z.max enters fires + waking r)
  | Some (at_, cause) =>
      let both := (Z.max enters at_ =? Z.max enters fires) in
      if (if both then pick r else at_ <? fires)
      then (Some cause, Z.max enters at_ + waking r)
      else (None, Z.max enters fires + waking r)
  end.

(** Nil comes only after the duration, an error only from a context that is done; a
    context that is done before the duration has passed cuts the sleep short; and the
    sleep ends when the timer has fired, up to the delays of the runtime. *)
Definition sleeps (r : scheduling) (done : option (Time * error)) (start : Time) (duration : Duration)
    (err : err_opt) (t : Time) : Prop :=
  start <= t <= start + Z.max 0 duration + late r + entering r + waking r /\
  (err = None -> start + Z.max 0 duration <= t) /\
  (forall e, err = Some e -> exists at_, done = Some (at_, e) /\ at_ <= t) /\
  (forall at_ e, done = Some (at_, e) -> at_ < start + Z.max 0 duration ->
     entering r < Z.max 0 duration ->
     err = Some e /\ t = Z.max (start + entering r) at_ + waking r).

Lemma Sleep_ends r done start duration :
  scheduling_ok r -> let o := Sleep r done start duration in sleeps r done start duration o.1 o.2.
Proof.
  intros (Hl & He & Hw). unfold Sleep, sleeps, Add. destruct done as [[at_ cause]|]; simpl.
  2:{ split_and!; try done; lia. }
  destruct (Z.eqb_spec (Z.max (start + entering r) at_) (Z.max (start + entering r) (start + Z.max 0 duration + late r)));
    [destruct (pick r)|destruct (Z.ltb_spec at_ (start + Z.max 0 duration + late r))]; simpl;
    (split; [lia|]); (split; [first [done | lia]|]);
    (split; [first [done | intros ? [= <-]; exists at_; split; [done|lia]]|]);
    intros ? ? [= <- <-] ? ?; first [lia | split; [done|lia]].
Qed.

(** ** Properties *)


(** A reader that fills the buffer with one byte. *)
Definition constant_reader (b : Z) : reader := fun n => Ok (replicate n b).

Lemma constant_reader_full b : 0 <= b < 256 -> reads_full (constant_reader b).
Proof.
  intros Hb n bs [= <-]. split; [apply length_replicate|]. by apply Forall_replicate.
Qed.

