(* ===== verification/Managed.v ===== *)
(** * handle.go and managed.go: the methods of a handle, and managed renewal

    The methods [State], [Renew], [Validate], [Release] and [StartManaged] as whole
    computations: the critical sections of [Handle] with the clock readings, the
    timeout context and the backend call between them. On top of them the renewal
    goroutine of [Managed]: its loop, the one [Loss] it may report and its deferred
    exit section. *)

From S2P Require Import Prelude GoBase GoStrings Errors LeaseKey LeasePolicy Backend Client Memory Handle Runtime Simulation.

(** [Loss]. *)
Record Loss := MkLoss { At : Time; l_State : State; l_Err : error }.

(** What a renewer leaves behind when its goroutine has ended: the content of the
    buffered channel, which is then closed. *)
Abbreviation Exit := (option Loss) (only parsing).

Definition zero_policy : Policy := MkPolicy 0 0 0 0 0 0 0 0 0.

Section Methods.
Context {E : Type} `{!Env E}.

(** [handle.policy], which no section changes. *)
Definition policyOf (id : nat) : M (World E) Policy :=
  onHandle id (fun h => (policy h, h)) zero_policy.

(** The error of a method on a handle that was never allocated. *)
Definition no_handle : error := WrapS ErrInvalidState "handle".

(** [Handle.State]. *)
Definition HandleState (id : nat) : M (World E) State := locked id StateOf StateExpired.

(** [Handle.Renew] from the backend call on. *)
Definition awaitRenew (id : nat) (rec : LeaseRecord) (started wallStarted : Time) (p : Policy)
    (operationContext : Context) : M (World E) err_opt :=
  r ← backend_Renew operationContext rec (ttl p);
  locked id (fun now wall => finishRenew now wall rec started wallStarted r) (Some no_handle).

(** [Handle.Renew]. *)
Definition HandleRenew (id : nat) (ctx : Context) : M (World E) err_opt :=
  reserved ← locked id beginActiveOperation (Err no_handle);
  match reserved with
  | Err err => mret (Some err)
  | Ok rec =>
      started ← clock_Now;
      wallStarted ← time_Now;
      p ← policyOf id;
      operationContext ← withTimeout ctx (operationTimeout p);
      awaitRenew id rec started wallStarted p operationContext
  end.

(** [Handle.Validate]. *)
Definition HandleValidate (id : nat) (ctx : Context) : M (World E) err_opt :=
  reserved ← locked id beginActiveOperation (Err no_handle);
  match reserved with
  | Err err => mret (Some err)
  | Ok rec =>
      p ← policyOf id;
      operationContext ← withTimeout ctx (operationTimeout p);
      r ← backend_Validate operationContext rec;
      locked id (fun now wall => finishValidate now wall rec r) (Some no_handle)
  end.

(** [Handle.Release]. *)
Definition HandleRelease (id : nat) (ctx : Context) : M (World E) err_opt :=
  reserved ← onHandle id beginRelease (inl (Some no_handle));
  match reserved with
  | inl err => mret err
  | inr rec =>
      p ← policyOf id;
      operationContext ← withTimeout ctx (operationTimeout p);
      err ← backend_Release operationContext rec;
      onHandle id (finishRelease err) (Some no_handle)
  end.

(** The critical section of [StartManaged], with the nonblocking send on the shared
    channel of the given capacity. *)
Definition startSection (capacity : Z) (id : nat) (now wall : Time) : M (World E) err_opt :=
  fun w =>
    match w_handles w !! id with
    | None => (Some no_handle, w)
    | Some h =>
        let '(err, h') := StartManaged now wall (w_managed w <? capacity) h in
        let w' := set_handles (<[id := h']> (w_handles w)) w in
        (err, match err with None => set_slots (w_managed w + 1) w' | Some _ => w' end)
    end.

(** [Handle.StartManaged]: the run context and the identity of its cancel function. *)
Definition HandleStartManaged (capacity : Z) (id : nat) (ctx : Context) :
    M (World E) (res (Context * nat)) :=
  now ← clock_Now;
  wall ← time_Now;
  err ← startSection capacity id now wall;
  match err with
  | Some e => mret (Err e)
  | None =>
      run ← withCancel ctx;
      mret (Ok run)
  end.

(** The rest of an iteration of the loop of [run] after [Renew]: [None] goes on,
    [Some exit] returns. *)
Definition afterRenew (id : nat) (renewErr : err_opt) : M (World E) (option Exit) :=
  match renewErr with
  | None => mret None
  | Some err =>
      at_ ← clock_Now;
      st ← HandleState id;
      mret (Some (Some (MkLoss at_ st err)))
  end.

(** One iteration of the loop of [run]. *)
Definition renewalRound (id : nat) (ctx : Context) : M (World E) (option Exit) :=
  p ← policyOf id;
  sleepErr ← sleeper_Sleep ctx (renewEvery p);
  match sleepErr with
  | Some _ => mret (Some None)
  | None =>
      renewErr ← HandleRenew id ctx;
      afterRenew id renewErr
  end.

(** The [for] loop of [run]; [None] while it is still running after [n] rounds. *)
Fixpoint renewalLoop (n : nat) (id : nat) (ctx : Context) : M (World E) (option Exit) :=
  match n with
  | O => mret None
  | S n' =>
      r ← renewalRound id ctx;
      match r with
      | Some exit => mret (Some exit)
      | None => renewalLoop n' id ctx
      end
  end.

(** The deferred function of [run]: flag and slot under the handle's mutex. *)
Definition runExit (id : nat) : M (World E) () :=
  _ ← onHandle id (fun h => ((), set_managed false h)) ();
  releaseSlot.

(** [Managed.run], for at most [n] rounds. *)
Definition run (n : nat) (id : nat) (ctx : Context) : M (World E) (option Exit) :=
  r ← renewalLoop n id ctx;
  match r with
  | None => mret None
  | Some exit =>
      _ ← runExit id;
      mret (Some exit)
  end.

End Methods.

(** ** Sections of an active handle, and the executable world *)

(** A context that nothing ends: neither a deadline nor a cancellation. *)
Definition ctx_open (s : Sim) (ctx : Context) : Prop :=
  forall t, sim_ctx (set_now t s) ctx = None.

Lemma expireLocked_id now wall h :
  state h = StateActive -> now < deadline h -> wall < wallDeadline h ->
  expireLocked now wall h = h.
Proof.
  intros Hs H1 H2. apply expireLocked_active. rewrite expireLocked_state.
  rewrite decide_True by done. by rewrite decide_True.
Qed.

Lemma begin_active now wall h :
  state h = StateActive -> busy h = false -> now < deadline h -> wall < wallDeadline h ->
  beginActiveOperation now wall h = (Ok (record h), set_busy true h).
Proof.
  intros Hs Hb H1 H2. unfold beginActiveOperation, requireActiveLocked.
  rewrite expireLocked_id, Hs by done. simpl. by rewrite Hb.
Qed.

Lemma begin_busy now wall h :
  state h = StateActive -> busy h = true -> now < deadline h -> wall < wallDeadline h ->
  beginActiveOperation now wall h = (Err (WrapS ErrInvalidState "handle operation"), h).
Proof.
  intros Hs Hb H1 H2. unfold beginActiveOperation, requireActiveLocked.
  rewrite expireLocked_id, Hs by done. simpl. by rewrite Hb.
Qed.

(** A critical section in this world: both clocks read the same instant. *)
Lemma locked_sim {A} id (section : Time -> Time -> Handle -> A * Handle) absent
    (w : World Sim) h :
  w_handles w !! id = Some h ->
  let o := section (s_now (w_env w)) (s_now (w_env w)) h in
  locked id section absent w = (o.1, set_handles (<[id := o.2]> (w_handles w)) w).
Proof.
  intros H. destruct w as [s hs n m]. unfold locked, onHandle. run_monad. simpl in H.
  rewrite H. by destruct (section _ _ h).
Qed.

Lemma policyOf_eq {E} id (w : World E) h :
  w_handles w !! id = Some h -> policyOf id w = (policy h, w).
Proof.
  intros H. destruct w as [s hs n m]. unfold policyOf, onHandle. simpl in *. rewrite H.
  by rewrite list_insert_id.
Qed.

Lemma runExit_eq {E} id (w : World E) h :
  w_handles w !! id = Some h ->
  runExit id w = ((), set_slots (w_managed w - 1)
    (set_handles (<[id := set_managed false h]> (w_handles w)) w)).
Proof.
  intros H. unfold runExit, onHandle, releaseSlot, modw. rewrite M_bind_eq. by rewrite H.
Qed.

(** A section that leaves the handle as it is leaves the world as it is. *)
Lemma locked_same {A} id (section : Time -> Time -> Handle -> A * Handle) absent
    (w : World Sim) h a :
  w_handles w !! id = Some h -> section (s_now (w_env w)) (s_now (w_env w)) h = (a, h) ->
  locked id section absent w = (a, w).
Proof.
  intros H Hs. rewrite (locked_sim _ _ _ _ h) by done. rewrite Hs. simpl.
  rewrite list_insert_id by done. by destruct w.
Qed.

(** The next renewal is due before either deadline. *)
Definition due_in_time (h : Handle) (w : World Sim) : Prop :=
  s_now (w_env w) + renewEvery (policy h) < deadline h /\
  s_now (w_env w) + renewEvery (policy h) < wallDeadline h.

(** ** A renewer in any environment that leaves the client alone *)

Section Alone.
Context {E : Type} `{!Env E}.

Definition same_client (w w' : World E) : Prop :=
  w_handles w' = w_handles w /\ w_managed w' = w_managed w.

#[local] Instance same_client_refl : Reflexive same_client.
Proof. done. Qed.
#[local] Instance same_client_trans : Transitive same_client.
Proof. unfold same_client. intros ???. naive_solver congruence. Qed.

(** Clocks, sleeper, backend and contexts answer as they like, and meanwhile no other
    goroutine works on the handles or the slots of the client. *)
Class KeepsClient : Prop := {
  kc_clock : mkeeps same_client clock_Now;
  kc_time : mkeeps same_client time_Now;
  kc_cancel : mkeeps same_client ctx_NewCancel;
  kc_canceled id : mkeeps same_client (ctx_Cancel id);
  kc_sleep ctx d : mkeeps same_client (sleeper_Sleep ctx d);
  kc_renew ctx rec d : mkeeps same_client (backend_Renew ctx rec d);
  kc_release ctx rec : mkeeps same_client (backend_Release ctx rec)
}.
Context {Hkeeps : KeepsClient}.

(** The handle [id] exists and satisfies [Φ]. *)
Definition has (id : nat) (Φ : Handle -> Prop) (w : World E) : Prop :=
  exists h, w_handles w !! id = Some h /\ Φ h.

Lemma has_weaken id (Φ Ψ : Handle -> Prop) w : (forall h, Φ h -> Ψ h) -> has id Φ w -> has id Ψ w.
Proof. intros H (h & Hh & HΦ). exists h. auto. Qed.

(** What the environment does, a critical section, and reading the policy. *)
Lemma env_has {A} id Φ (c : M (World E) A) :
  mkeeps same_client c -> triple (has id Φ) c (fun _ => has id Φ).
Proof. intros Hc w (h & Hh & HΦ). destruct (Hc w) as [Hw _]. exists h. by rewrite Hw. Qed.

Lemma onHandle_has {A} id (section : Handle -> A * Handle) absent Φ (Ψ : A -> Handle -> Prop) :
  (forall h, Φ h -> Ψ (section h).1 (section h).2) ->
  triple (has id Φ) (onHandle id section absent) (fun a => has id (Ψ a)).
Proof.
  intros H w (h & Hh & HΦ). unfold onHandle. rewrite Hh. specialize (H h HΦ).
  destruct (section h) as [a h']. exists h'. split; [|done]. simpl.
  apply list_lookup_insert_eq. by eapply lookup_lt_Some.
Qed.

Lemma locked_has {A} id (section : Time -> Time -> Handle -> A * Handle) absent Φ
    (Ψ : A -> Handle -> Prop) :
  (forall now wall h, Φ h -> Ψ (section now wall h).1 (section now wall h).2) ->
  triple (has id Φ) (locked id section absent) (fun a => has id (Ψ a)).
Proof.
  intros H. unfold locked.
  eapply triple_bind; [apply env_has, kc_clock|]. intros now. simpl.
  eapply triple_bind; [apply env_has, kc_time|]. intros wall. simpl.
  apply onHandle_has. auto.
Qed.

Lemma policyOf_has id Φ :
  triple (has id Φ) (policyOf id) (fun p => has id (fun h => Φ h /\ p = policy h)).
Proof. by apply onHandle_has. Qed.

Lemma withTimeout_has id Φ ctx d : triple (has id Φ) (withTimeout ctx d) (fun _ => has id Φ).
Proof.
  unfold withTimeout. eapply triple_bind; [apply env_has, kc_time|]. intros now.
  by apply triple_ret.
Qed.

Lemma begin_refuses now wall h e h' :
  beginActiveOperation now wall h = (Err e, h') -> busy h = false ->
  state h' <> StateActive /\ busy h' = false.
Proof.
  unfold beginActiveOperation. intros H Hb.
  destruct (requireActiveLocked now wall h) as [[e1|] h1] eqn:E1;
    pose proof (expireLocked_frame now wall h) as (_ & Hb1 & _);
    apply requireActive_frame in E1 as (-> & _ & Hn); [|by rewrite Hb1, Hb in H].
  simplify_eq. split; [by apply Hn|congruence].
Qed.

(** An idle handle whose [Renew] fails no longer admits work; either way it is idle
    again. *)
Definition settled (o : err_opt) (h : Handle) : Prop :=
  busy h = false /\ (o <> None -> state h <> StateActive).

Lemma finishRenew_settles now wall rec st wst r h :
  let o := finishRenew now wall rec st wst r h in settled o.1 o.2.
Proof.
  unfold finishRenew. destruct (checkReply _ rec r) as [next err].
  destruct (finishActiveOperation _ _ _ _ _ _ h) as [e h'] eqn:H. simpl.
  pose proof (finish_may _ _ _ _ _ _ _ _ _ H) as (_ & Hb & _). split; [done|]. simpl.
  apply finish_cases in H as [(e0 & _ & _ & ->)|[(_ & _ & -> & Hn)|(_ & -> & _)]]; intros He;
    [apply failLocked_not_active|done|done].
Qed.

Lemma HandleRenew_settles id ctx :
  triple (has id (fun h => busy h = false)) (HandleRenew id ctx) (fun o => has id (settled o)).
Proof.
  unfold HandleRenew, awaitRenew. eapply triple_bind.
  { apply (locked_has id beginActiveOperation _ _
      (fun r h => match r with Err e => settled (Some e) h | Ok _ => True end)).
    intros now wall h Hb. destruct (beginActiveOperation now wall h) as [[rec|e] h'] eqn:H; [done|].
    apply begin_refuses in H as [? ?]; done. }
  intros [rec|e]; [|by apply triple_ret]. simpl.
  eapply triple_bind; [apply env_has, kc_clock|]. intros started. simpl.
  eapply triple_bind; [apply env_has, kc_time|]. intros wst. simpl.
  eapply triple_bind; [apply policyOf_has|]. intros p. simpl.
  eapply triple_bind; [apply withTimeout_has|]. intros opCtx. simpl.
  eapply triple_bind; [apply env_has, kc_renew|]. intros r. simpl.
  apply locked_has. intros now wall h _. apply finishRenew_settles.
Qed.

(** A round of the renewer of an idle handle: a reported loss is a closed handle, and
    the state in the report is the handle's. *)
Definition reported (o : option Exit) (h : Handle) : Prop :=
  busy h = false /\
  forall l, o = Some (Some l) -> state h = l_State l /\ l_State l <> StateActive.

Lemma StateOf_closed e now wall h :
  settled (Some e) h ->
  let o := StateOf now wall h in
  settled (Some e) o.2 /\ state o.2 = o.1.
Proof.
  intros [Hb Hn]. unfold StateOf. simpl. split; [|done].
  destruct (expireLocked_frame now wall h) as (_ & Hb' & _). split; [congruence|].
  intros _. rewrite expireLocked_state. rewrite decide_False; auto.
Qed.

Lemma renewalRound_reports id ctx :
  triple (has id (fun h => busy h = false)) (renewalRound id ctx) (fun o => has id (reported o)).
Proof.
  unfold renewalRound. eapply triple_bind; [apply policyOf_has|]. intros p. simpl.
  eapply triple_bind; [apply env_has, kc_sleep|]. intros [e|]; simpl.
  { apply triple_ret. intros w. apply has_weaken. intros h [Hb _]. done. }
  eapply triple_bind.
  { eapply triple_conseq; [apply HandleRenew_settles| |done].
    intros w. apply has_weaken. by intros h [Hb _]. }
  intros [e|]; simpl.
  2:{ apply triple_ret. intros w. apply has_weaken. by intros h [Hb _]. }
  eapply triple_bind; [apply env_has, kc_clock|]. intros at_. simpl.
  eapply triple_bind.
  { apply (locked_has id StateOf _ _ (fun st h => settled (Some e) h /\ state h = st)).
    intros now wall h. apply StateOf_closed. }
  intros st. apply triple_ret. intros w. apply has_weaken. intros h [[Hb Hn] Hs].
  split; [done|]. intros l Hl. simplify_eq/=. split; [done|]. by apply Hn.
Qed.

Lemma renewalLoop_reports n id ctx :
  triple (has id (fun h => busy h = false)) (renewalLoop n id ctx) (fun o => has id (reported o)).
Proof.
  induction n as [|n IH]; simpl renewalLoop.
  { apply triple_ret. intros w. apply has_weaken. by intros h Hb. }
  eapply triple_bind; [apply renewalRound_reports|]. intros [exit|]; [by apply triple_ret|].
  eapply triple_conseq; [apply IH| |done]. intros w. apply has_weaken. by intros h [Hb _].
Qed.
End Alone.

(** ** Slots *)

Section Slots.
Context {E : Type} `{!Env E} `{!KeepsClient (E:=E)}.

Definition same_slots (w w' : World E) : Prop := w_managed w' = w_managed w.

#[local] Instance same_slots_refl : Reflexive same_slots.
Proof. done. Qed.
#[local] Instance same_slots_trans : Transitive same_slots.
Proof. unfold same_slots. intros ???. congruence. Qed.

Lemma keeps_slots {A} (c : M (World E) A) : mkeeps same_client c -> mkeeps same_slots c.
Proof. intros H w. apply H. Qed.

Lemma onHandle_slots {A} id (section : Handle -> A * Handle) absent :
  mkeeps same_slots (onHandle id section absent : M (World E) A).
Proof.
  intros w. unfold onHandle. destruct (w_handles w !! id) as [h|]; [|done].
  by destruct (section h).
Qed.

Ltac slot_leaf :=
  first [ apply keeps_slots; first [apply kc_clock | apply kc_time | apply kc_cancel
                                   | apply kc_sleep | apply kc_renew]
        | apply onHandle_slots ].

Lemma HandleRenew_slots id ctx : mkeeps same_slots (HandleRenew id ctx : M (World E) err_opt).
Proof. unfold HandleRenew, awaitRenew, locked, withTimeout, policyOf. mkeeps_walk ltac:(slot_leaf). Qed.

Lemma renewalLoop_slots n id ctx : mkeeps same_slots (renewalLoop n id ctx : M (World E) _).
Proof.
  induction n as [|n IH]; simpl renewalLoop;
    unfold renewalRound, afterRenew, policyOf, HandleState, locked;
    mkeeps_walk ltac:(first [slot_leaf | apply HandleRenew_slots | apply IH]).
Qed.

(** The section of [StartManaged] takes a slot exactly when it succeeds. *)
Lemma startSection_slots capacity id now wall (w : World E) :
  let o := startSection capacity id now wall w in
  w_managed o.2 = w_managed w + (if o.1 is None then 1 else 0) /\
  (o.1 = None -> w_managed w < capacity).
Proof.
  unfold startSection. destruct (w_handles w !! id) as [h|]; simpl; [|split; [lia|done]].
  destruct (StartManaged now wall (w_managed w <? capacity) h) as [[e|] h'] eqn:H; simpl.
  { split; [lia|done]. }
  split; [done|]. intros _. unfold StartManaged in H. run_guards H. done.
Qed.
End Slots.

#[global] Instance sim_keeps_client : KeepsClient (E:=Sim).
Proof.
  split; try (intros; intros w; done).
  - intros ctx rec d w. simpl. unfold set_sim. by destruct (Renew _ _ _ _ _).
  - intros ctx rec w. simpl. unfold set_sim. by destruct (Release _ _ _).
Qed.

(** A lease of 100 with a margin of 20, renewed every 30, acquired at instant 1000 and
    put under management. *)
Definition renew_policy : Policy := MkPolicy 100 0 0 0 30 20 1 50 FailureFailClosed.
Definition empty_world : World Sim := MkWorld (MkSim 1000 "me" store0 0 false 0 [] (fun _ => 0)) [] 0 0.
Definition acquired_world : World Sim :=
  (Client.TryAcquire (Some Background) k1 renew_policy empty_world).2.
Definition managed_world : World Sim := (HandleStartManaged 4 0 Background acquired_world).2.
Definition run_context : Context := WithCancel Background 0.
Definition managed_handle : Handle :=
  set_managed true (newHandleAt renew_policy (MkRecord k1 "me" 1 1000 1100) 1000 1000).

(** ** Properties *)

(** C20: a reported [Loss] is a closed handle. Whatever clocks, sleeper and backend
    answer, when the renewer of a handle with no other operation outstanding reports
    a loss, the state in the report is not active, it is the state the handle has and
    keeps admission closed with, and the renewer has left the handle. *)
Theorem managed_loss_fails_closed {E} `{!Env E} `{!KeepsClient (E:=E)} n id ctx (w w' : World E) h l :
  w_handles w !! id = Some h -> busy h = false ->
  run n id ctx w = (Some (Some l), w') ->
  exists h', w_handles w' !! id = Some h' /\ state h' = l_State l /\
    l_State l <> StateActive /\ managed h' = false.
Proof.
  intros Hh Hb Hrun. unfold run in Hrun. rewrite M_bind_eq in Hrun.
  destruct (renewalLoop_reports n id ctx w) as (h1 & Hh1 & Hb1 & Hrep); [by exists h|].
  destruct (renewalLoop n id ctx w) as [[exit|] w1]; simpl in *; [|done].
  rewrite M_bind_eq, (runExit_eq _ _ _ Hh1), M_ret_eq in Hrun. simplify_eq/=.
  destruct (Hrep l eq_refl) as [Hs Hn]. exists (set_managed false h1). split_and!; try done.
  apply list_lookup_insert_eq. by eapply lookup_lt_Some.
Qed.

(** The store lost the lease: the first renewal reports it as stale. *)
Definition forgotten_world : World Sim :=
  MkWorld (MkSim 1000 "me" store0 0 false 0 [] (fun _ => 0)) [managed_handle] 0 1.

Lemma managed_loss_fails_closed_witness :
  let o := run 1 0 run_context forgotten_world in
  o.1 = Some (Some (MkLoss 1030 StateLost (WrapS ErrStaleOwner "renew"))) /\
  exists h', w_handles o.2 !! 0%nat = Some h' /\ state h' = StateLost /\ managed h' = false.
Proof.
  split; [vm_compute; reflexivity|].
  destruct (managed_loss_fails_closed 1 0 run_context forgotten_world
    (run 1 0 run_context forgotten_world).2 managed_handle
    (MkLoss 1030 StateLost (WrapS ErrStaleOwner "renew"))) as (h' & H1 & H2 & H3 & H4).
  - reflexivity.
  - reflexivity.
  - vm_compute. reflexivity.
  - exists h'. split; [exact H1|]. split; [exact H2|exact H4].
Defined.

(** C21: the slots of managed renewal balance. [StartManaged] takes one, within the
    capacity, exactly when it succeeds; while the renewer runs nothing changes; when
    its goroutine ends, for whatever reason, the slot is given back and the handle
    may be managed again. *)
Theorem managed_slot_balance {E} `{!Env E} `{!KeepsClient (E:=E)} capacity n id ctx (w : World E) :
  (let o := HandleStartManaged capacity id ctx w in
   w_managed o.2 = w_managed w + (if o.1 is Ok _ then 1 else 0) /\
   (is_ok o.1 = true -> w_managed o.2 <= capacity)) /\
  (let o := run n id ctx w in
   w_managed o.2 = w_managed w - (if o.1 is Some _ then 1 else 0) /\
   (o.1 <> None -> forall h, w_handles o.2 !! id = Some h -> managed h = false)).
Proof.
  split.
  - unfold HandleStartManaged. rewrite M_bind_eq. destruct (kc_clock w) as [_ H1].
    destruct (clock_Now w) as [now w1]. simpl in *. rewrite M_bind_eq.
    destruct (kc_time w1) as [_ H2]. destruct (time_Now w1) as [wall w2]. simpl in *.
    rewrite M_bind_eq. pose proof (startSection_slots capacity id now wall w2) as [H3 H4].
    destruct (startSection capacity id now wall w2) as [[e|] w3]; simpl in *; [split; [lia|done]|].
    unfold withCancel. rewrite !M_bind_eq. destruct (kc_cancel w3) as [_ H5].
    destruct (ctx_NewCancel w3) as [c w4]. simpl in *. specialize (H4 eq_refl). split; lia.
  - unfold run. rewrite M_bind_eq. pose proof (renewalLoop_slots n id ctx w) as H.
    unfold same_slots in H. destruct (renewalLoop n id ctx w) as [[exit|] w1]; simpl in *;
      [|split; [lia|done]].
    unfold runExit, releaseSlot, modw. rewrite !M_bind_eq. simpl.
    pose proof (onHandle_slots id (fun h => ((), set_managed false h)) () w1) as H1.
    unfold same_slots in H1. split; [lia|]. intros _ h. unfold onHandle.
    destruct (w_handles w1 !! id) as [h1|] eqn:Hl; simpl; [|by rewrite Hl].
    rewrite list_lookup_insert_eq by (by eapply lookup_lt_Some). by intros [= <-].
Qed.

Lemma managed_slot_balance_witness :
  w_managed managed_world = 1 /\
  (let o := run 3 0 run_context forgotten_world in
   o.1 <> None /\ w_managed o.2 = 0 /\ forall h, w_handles o.2 !! 0%nat = Some h -> managed h = false).
Proof.
  split; [exact (proj1 (proj1 (managed_slot_balance 4 0 0 Background acquired_world)))|].
  assert (Hn : (run 3 0 run_context forgotten_world).1 <> None) by (vm_compute; discriminate).
  destruct (proj2 (managed_slot_balance 4 3 0 run_context forgotten_world)) as [_ H].
  split; [exact Hn|]. split; [vm_compute; reflexivity|exact (H Hn)].
Defined.

(** C25: an overlapping operation ends managed renewal. When a renewal comes due while
    another operation of the handle is outstanding, the renewer is refused with
    [ErrInvalidState], reports a [Loss] whose state is active, and ends without a
    backend call; the handle still admits work, and nothing renews it any more. *)
Theorem managed_overlap_loss n id h ctx w :
  w_handles w !! id = Some h -> state h = StateActive -> busy h = true ->
  due_in_time h w -> ctx_open (w_env w) ctx ->
  let t := s_now (w_env w) + renewEvery (policy h) in
  exists w', run (S n) id ctx w =
      (Some (Some (MkLoss t StateActive (WrapS ErrInvalidState "handle operation"))), w') /\
    s_calls (w_env w') = s_calls (w_env w) /\
    w_handles w' = <[id := set_managed false h]> (w_handles w) /\
    (StateOf t t (set_managed false h)).1 = StateActive.
Proof.
  intros Hh Hs Hb [Hd Hw] Hc t. unfold run. simpl renewalLoop. unfold renewalRound.
  rewrite !M_bind_eq, (policyOf_eq _ _ h) by done. run_monad. unfold set_sim. simpl.
  assert (He : sim_err (set_now t (w_env w)) ctx = None) by (unfold sim_err; by rewrite Hc).
  fold t. rewrite He. unfold HandleRenew, afterRenew, HandleState.
  set (w1 := MkWorld (set_now t (w_env w)) (w_handles w) (w_waiters w) (w_managed w)).
  assert (Hbegin : locked id beginActiveOperation (Err no_handle) w1 =
            (Err (WrapS ErrInvalidState "handle operation"), w1))
    by (apply (locked_same _ _ _ _ h); [done|by apply begin_busy]).
  assert (Hstate : locked id StateOf StateExpired w1 = (StateActive, w1)).
  { apply (locked_same _ _ _ _ h); [done|]. unfold StateOf. by rewrite expireLocked_id, Hs. }
  rewrite !M_bind_eq, Hbegin. simpl. rewrite !M_bind_eq. simpl. fold w1. rewrite Hstate. simpl. rewrite M_bind_eq, (runExit_eq _ _ h) by done.
  eexists. split; [reflexivity|]. split_and!; try done.
  unfold StateOf. by rewrite expireLocked_id.
Qed.

(** At instant 1020 a validation is under way, whose reply has not arrived at 1050. *)
Definition validating_world : World Sim :=
  MkWorld (set_now 1020 (w_env managed_world)) [set_busy true managed_handle] 0 1.

Lemma managed_overlap_loss_witness :
  exists w', run 1 0 run_context validating_world =
      (Some (Some (MkLoss 1050 StateActive (WrapS ErrInvalidState "handle operation"))), w') /\
    w_handles w' = [set_managed false (set_busy true managed_handle)].
Proof.
  destruct (managed_overlap_loss 0 0 (set_busy true managed_handle) run_context validating_world)
    as (w' & H1 & _ & H2 & _).
  - reflexivity.
  - reflexivity.
  - reflexivity.
  - split; vm_compute; reflexivity.
  - intros t. reflexivity.
  - exists w'. split; [exact H1|]. rewrite H2. reflexivity.
Defined.
