(* ===== verification/Stopping.v ===== *)
(** * managed.go: stopping a renewer

    [Managed.Stop] against a renewer at any point of its loop: at its sleep, between
    the sleep and [Renew], or waiting for the reply of the backend. The goroutine goes
    on from there while [Stop] waits for its end or for the end of its own context. *)

From S2P Require Import Prelude GoBase GoStrings Errors LeaseKey LeasePolicy Backend Client Memory Handle Runtime Simulation Managed.

Section Stop.
Context {E : Type} `{!Env E}.

(** Where the goroutine of [run] is: at or in [Sleep] (the answer it gets there is the
    sleeper's after this point), before [Renew], or in [Renew] with the call made and
    these local variables. *)
Inductive position :=
| Sleeping
| Woken
| Renewing (rec : LeaseRecord) (started wallStarted : Time) (p : Policy) (operationContext : Context).

(** The renewal that is still to be finished. *)
Definition pendingRenew (pos : position) (id : nat) (ctx : Context) : M (World E) err_opt :=
  match pos with
  | Sleeping => mret None
  | Woken => HandleRenew id ctx
  | Renewing rec started wallStarted p operationContext =>
      awaitRenew id rec started wallStarted p operationContext
  end.

(** The rest of the current iteration of [run]. *)
Definition resumeRound (pos : position) (id : nat) (ctx : Context) : M (World E) (option Exit) :=
  match pos with
  | Sleeping => renewalRound id ctx
  | _ => renewErr ← pendingRenew pos id ctx; afterRenew id renewErr
  end.

(** The rest of [run] from a position on, for at most [n] rounds. *)
Definition resume (n : nat) (pos : position) (id : nat) (ctx : Context) : M (World E) (option Exit) :=
  match n with
  | O => mret None
  | S n' =>
      r ← resumeRound pos id ctx;
      match r with
      | Some exit => _ ← runExit id; mret (Some exit)
      | None => run n' id ctx
      end
  end.

(** [Managed.Stop]: cancel, then select between the end of the goroutine and that of
    the caller's context. [renewer] is where the goroutine is, [None] when it has
    ended; [n] is the number of rounds it makes before the select is decided, and
    [pick] what the select takes when both cases are ready. [None]: neither is, and
    [Stop] waits on. The cancel function runs once; running it again changes nothing. *)
Definition Stop (n : nat) (renewer : option position) (pick : bool) (id : nat)
    (runContext : Context) (cancel : nat) (ctx : Context) : M (World E) (option err_opt) :=
  _ ← ctx_Cancel cancel;
  done ← match renewer with
         | None => mret (Some None)
         | Some pos => resume n pos id runContext
         end;
  ctxDone ← ctx_Err ctx;
  let canceled := Some (Some (WrapS ErrCanceled "managed stop")) in
  mret (match done, ctxDone with
        | Some _, None => Some None
        | Some _, Some _ => if pick then Some None else canceled
        | None, Some _ => canceled
        | None, None => None
        end).

(** [run] is the whole of it. *)
Lemma run_resume n id ctx (w : World E) : run n id ctx w = resume n Sleeping id ctx w.
Proof.
  destruct n as [|n]; [done|]. unfold run, resume, resumeRound. simpl renewalLoop.
  rewrite !M_bind_eq. destruct (renewalRound id ctx w) as [[exit|] w1]; [done|].
  cbn [fst snd]. unfold run. by rewrite M_bind_eq.
Qed.
End Stop.

(** ** A sleeper that honors cancellation *)

Section Cooperative.
Context {E : Type} `{!Env E}.

(** What the documentation asks of the sources: once a cancel function has run its
    context stays canceled, and [Sleep] under a canceled context ends with an error.
    Asking a context for its error does nothing to the client. *)
Class Cooperative := {
  canceled : nat -> E -> Prop;
  stays id (w w' : World E) := canceled id (w_env w) -> canceled id (w_env w');
  co_cancel id (w : World E) : canceled id (w_env (ctx_Cancel id w).2);
  co_clock id : mkeeps (stays id) clock_Now;
  co_time id : mkeeps (stays id) time_Now;
  co_err id ctx : mkeeps (stays id) (ctx_Err ctx);
  co_renew id ctx rec d : mkeeps (stays id) (backend_Renew ctx rec d);
  co_err_client ctx : mkeeps same_client (ctx_Err ctx);
  co_sleep parent id d (w : World E) :
    canceled id (w_env w) -> (sleeper_Sleep (WithCancel parent id) d w).1 <> None
}.
Context `{!KeepsClient (E:=E)} {Hco : Cooperative}.

#[local] Instance stays_refl id : Reflexive (stays id).
Proof. intros w H. done. Qed.
#[local] Instance stays_trans id : Transitive (stays id).
Proof. intros w1 w2 w3 H1 H2 H. by apply H2, H1. Qed.

Lemma onHandle_stays {A} c id (section : Handle -> A * Handle) absent :
  mkeeps (stays c) (onHandle id section absent : M (World E) A).
Proof.
  intros w H. unfold onHandle. destruct (w_handles w !! id) as [h|]; [|done]. by destruct (section h).
Qed.

Lemma pendingRenew_stays c pos id ctx : mkeeps (stays c) (pendingRenew pos id ctx : M (World E) err_opt).
Proof.
  unfold pendingRenew, HandleRenew, awaitRenew, locked, withTimeout, policyOf.
  mkeeps_walk ltac:(first [apply co_clock | apply co_time | apply co_renew | apply onHandle_stays]).
Qed.

(** What a renewal leaves of a handle: its policy, and a release is never its doing. *)
Definition only_renewed (h h' : Handle) : Prop :=
  policy h' = policy h /\ managed h' = managed h /\
  (state h' = StateReleased -> state h = StateReleased).

Lemma begin_renewed now wall h : only_renewed h (beginActiveOperation now wall h).2.
Proof.
  unfold beginActiveOperation, only_renewed.
  destruct (requireActiveLocked now wall h) as [e h1] eqn:E1.
  apply requireActive_frame in E1 as (-> & _). pose proof (expireLocked_frame now wall h) as ((Hp & _) & Hb & Hm).
  assert (Hs : state (expireLocked now wall h) = StateReleased -> state h = StateReleased).
  { rewrite expireLocked_state. by repeat case_decide. }
  destruct e as [e|]; simpl; [done|]. by destruct (busy (expireLocked now wall h)).
Qed.

Lemma finish_renewed now wall rec started wst r h : only_renewed h (finishRenew now wall rec started wst r h).2.
Proof.
  unfold finishRenew. destruct (checkReply _ rec r) as [next err].
  destruct (finishActiveOperation _ _ _ _ _ _ h) as [e h'] eqn:H. simpl.
  pose proof (expireLocked_frame now wall (set_busy false h)) as ((Hp & _) & _ & Hm). simpl in Hp, Hm.
  pose proof (expireLocked_state now wall (set_busy false h)) as Hs.
  apply finish_cases in H as [(e0 & _ & _ & ->)|[(_ & _ & -> & _)|(_ & _ & _ & _ & _ & ->)]].
  - destruct (failLocked_frame e0 (expireLocked now wall (set_busy false h))) as ((Hp' & _) & _ & Hm').
    split_and!; [congruence|congruence|]. rewrite failLocked_state, Hs. simpl. by repeat (case_decide || step_case).
  - split_and!; [done|done|]. rewrite Hs. simpl. by repeat case_decide.
  - by step_case.
Qed.

#[local] Instance only_renewed_trans : Transitive only_renewed.
Proof. intros h1 h2 h3 (? & ? & ?) (? & ? & ?). split_and!; [congruence|congruence|auto]. Qed.

Lemma awaitRenew_renewed h id rec started wst p ctx :
  triple (has (E:=E) id (only_renewed h)) (awaitRenew id rec started wst p ctx)
    (fun _ => has id (only_renewed h)).
Proof.
  unfold awaitRenew. eapply triple_bind; [apply env_has, kc_renew|]. intros r. simpl.
  apply locked_has. intros now wall h1 H. etrans; [done|]. apply finish_renewed.
Qed.

Lemma pendingRenew_renewed h pos id ctx :
  triple (has (E:=E) id (only_renewed h)) (pendingRenew pos id ctx) (fun _ => has id (only_renewed h)).
Proof.
  destruct pos as [| |rec started wst p opCtx]; simpl; [by apply triple_ret| |apply awaitRenew_renewed].
  unfold HandleRenew. eapply triple_bind.
  { apply (locked_has id beginActiveOperation _ (only_renewed h) (fun _ => only_renewed h)).
    intros now wall h1 H. etrans; [done|]. apply begin_renewed. }
  intros [rec|e]; [|by apply triple_ret]. simpl.
  eapply triple_bind; [apply env_has, kc_clock|]. intros started. simpl.
  eapply triple_bind; [apply env_has, kc_time|]. intros wst. simpl.
  eapply triple_bind; [apply (onHandle_has id _ _ (only_renewed h) (fun _ => only_renewed h)); done|].
  intros p. simpl. eapply triple_bind; [apply withTimeout_has|]. intros opCtx. apply awaitRenew_renewed.
Qed.

Lemma afterRenew_renewed h id renewErr :
  triple (has (E:=E) id (only_renewed h)) (afterRenew id renewErr) (fun _ => has id (only_renewed h)).
Proof.
  destruct renewErr as [e|]; simpl; [|by apply triple_ret].
  eapply triple_bind; [apply env_has, kc_clock|]. intros at_. simpl. unfold HandleState.
  apply (triple_bind _ (fun _ => has id (only_renewed h))); [|intros st; by apply triple_ret].
  apply (locked_has id StateOf _ (only_renewed h) (fun _ => only_renewed h)).
  intros now wall h1 H. etrans; [done|]. unfold StateOf. simpl.
  destruct (expireLocked_frame now wall h1) as ((Hp & _) & _ & Hm). split_and!; [done|done|].
  rewrite expireLocked_state. by repeat case_decide.
Qed.

(** Neither touches another handle or a slot. *)
Definition elsewhere (id : nat) (w w' : World E) : Prop :=
  w_managed w' = w_managed w /\ forall j, j <> id -> w_handles w' !! j = w_handles w !! j.

#[local] Instance elsewhere_refl id : Reflexive (elsewhere id).
Proof. done. Qed.
#[local] Instance elsewhere_trans id : Transitive (elsewhere id).
Proof. unfold elsewhere. intros ??? [H1 H2] [H3 H4]. split; [congruence|]. intros j Hj. by rewrite H4, H2. Qed.

Lemma env_elsewhere {A} id (c : M (World E) A) : mkeeps same_client c -> mkeeps (elsewhere id) c.
Proof. intros Hc w. destruct (Hc w) as [Hh Hm]. split; [done|]. intros j _. by rewrite Hh. Qed.

Lemma onHandle_elsewhere {A} id (section : Handle -> A * Handle) absent :
  mkeeps (elsewhere id) (onHandle id section absent : M (World E) A).
Proof.
  intros w. unfold onHandle. destruct (w_handles w !! id) as [h|]; [|done]. destruct (section h) as [a h'].
  split; [done|]. intros j Hj. simpl. by apply list_lookup_insert_ne.
Qed.

Ltac elsewhere_leaf :=
  first [ apply env_elsewhere; first [apply kc_clock | apply kc_time | apply kc_renew] | apply onHandle_elsewhere ].

Lemma pendingRenew_elsewhere pos id ctx : mkeeps (elsewhere id) (pendingRenew pos id ctx : M (World E) err_opt).
Proof.
  unfold pendingRenew, HandleRenew, awaitRenew, locked, withTimeout, policyOf.
  mkeeps_walk ltac:(elsewhere_leaf).
Qed.

Lemma afterRenew_elsewhere id renewErr : mkeeps (elsewhere id) (afterRenew id renewErr : M (World E) _).
Proof. unfold afterRenew, HandleState, locked. mkeeps_walk ltac:(elsewhere_leaf). Qed.

(** ** The end of a stopped renewer *)

(** At its sleep: the sleep fails and the goroutine runs its exit section. *)
Lemma resume_sleeping n id parent cancel (w : World E) h :
  w_handles w !! id = Some h -> canceled cancel (w_env w) ->
  resume (S n) Sleeping id (WithCancel parent cancel) w =
    (Some None, (runExit id (sleeper_Sleep (WithCancel parent cancel) (renewEvery (policy h)) w).2).2).
Proof.
  intros Hh Hc. unfold resume, resumeRound, renewalRound. rewrite !M_bind_eq, (policyOf_eq _ _ h) by done.
  cbn [fst snd]. rewrite ?M_bind_eq. pose proof (co_sleep parent cancel (renewEvery (policy h)) w Hc) as Hs.
  destruct (sleeper_Sleep _ _ w) as [[e|] w1]; [|done]. simpl. rewrite M_bind_eq.
  by destruct (runExit id w1) as [[] w2].
Qed.

(** The exit section gives the handle and the slot back. *)
Definition given_back (id : nat) (h : Handle) (w w' : World E) : Prop :=
  w_managed w' = w_managed w - 1 /\ (forall j, j <> id -> w_handles w' !! j = w_handles w !! j) /\
  exists h', w_handles w' !! id = Some (set_managed false h') /\ only_renewed h h'.

Lemma exit_gives_back id h h1 (w w1 : World E) :
  elsewhere id w w1 -> w_handles w1 !! id = Some h1 -> only_renewed h h1 ->
  given_back id h w (runExit id w1).2.
Proof.
  intros [Hm Ho] Hh Hr. rewrite (runExit_eq _ _ _ Hh). simpl. split_and!.
  - simpl. lia.
  - intros j Hj. simpl. rewrite list_lookup_insert_ne by done. by apply Ho.
  - exists h1. split; [|done]. simpl. apply list_lookup_insert_eq. by eapply lookup_lt_Some.
Qed.

(** In a renewal: it is finished, and the goroutine reports its failure or goes to a
    sleep that fails; there is no other renewal. *)
Lemma resume_pending n pos id parent cancel (w : World E) h :
  w_handles w !! id = Some h -> canceled cancel (w_env w) -> pos <> Sleeping ->
  let ctx := WithCancel parent cancel in
  let renew := pendingRenew pos id ctx w in
  resume (S (S n)) pos id ctx w =
  match renew.1 with
  | None => (Some None, (runExit id (sleeper_Sleep ctx (renewEvery (policy h)) renew.2).2).2)
  | Some err => let loss := afterRenew id (Some err) renew.2 in
                (loss.1, (runExit id loss.2).2)
  end.
Proof.
  intros Hh Hc Hpos ctx renew. unfold resume. rewrite M_bind_eq.
  assert (Hround : resumeRound pos id ctx w = afterRenew id renew.1 renew.2)
    by (unfold renew; destruct pos; [done|unfold resumeRound; by rewrite M_bind_eq..]).
  rewrite Hround. destruct renew.1 as [err|] eqn:Herr.
  - unfold afterRenew. rewrite !M_bind_eq. cbn [fst snd]. rewrite M_ret_eq. cbn [fst snd].
    rewrite M_bind_eq. by destruct (runExit id _) as [[] w2].
  - cbn [afterRenew]. rewrite M_ret_eq. cbn [fst snd]. rewrite run_resume.
    destruct (pendingRenew_renewed h pos id ctx w) as (h1 & Hh1 & Hp & _); [by exists h|].
    fold renew in Hh1. rewrite <- Hp. apply resume_sleeping; [done|]. by apply pendingRenew_stays.
Qed.

(** Whatever it was doing, a stopped renewer ends within two rounds and gives back
    the handle and the slot. *)
Lemma stopped_ends n pos id parent cancel (w : World E) h :
  w_handles w !! id = Some h -> canceled cancel (w_env w) ->
  exists exit w', resume (S (S n)) pos id (WithCancel parent cancel) w = (Some exit, w') /\ given_back id h w w'.
Proof.
  intros Hh Hc. assert (Hsleep : forall (w1 : World E) h1 d, elsewhere id w w1 -> w_handles w1 !! id = Some h1 -> only_renewed h h1 ->
    given_back id h w (runExit id (sleeper_Sleep (WithCancel parent cancel) d w1).2).2).
  { intros w1 h1 d He H1 Hr. destruct (kc_sleep (WithCancel parent cancel) d w1) as [Hs Hm].
    apply (exit_gives_back id h h1); [|by rewrite Hs|done].
    etrans; [exact He|]. split; [done|]. intros j _. by rewrite Hs. }
  assert (pos = Sleeping \/ pos <> Sleeping) as [->|Hpos] by (destruct pos; auto).
  { eexists _, _. split; [by apply resume_sleeping|]. by apply (Hsleep w h). }
  rewrite (resume_pending n pos id parent cancel w h) by done. cbv zeta.
  set (renew := pendingRenew pos id _ w).
  destruct (pendingRenew_renewed h pos id (WithCancel parent cancel) w) as (h1 & Hh1 & Hr1); [by exists h|].
  pose proof (pendingRenew_elsewhere pos id (WithCancel parent cancel) w) as He. fold renew in Hh1, He.
  destruct renew.1 as [err|]; [|eexists _, _; split; [done|by apply (Hsleep _ h1)]].
  destruct (afterRenew_renewed h id (Some err) renew.2) as (h2 & Hh2 & Hr2); [by exists h1|].
  assert (exists l, (afterRenew id (Some err) renew.2).1 = Some (Some l)) as [l Hl]
    by (unfold afterRenew; rewrite !M_bind_eq; by eexists).
  eexists _, _. split; [by rewrite Hl|].
  apply (exit_gives_back id h h2); [|done|done]. etrans; [exact He|]. apply afterRenew_elsewhere.
Qed.

(** What [Stop] may return once the renewer has ended: nil, or [ErrCanceled] when its
    own context is done too. *)
Definition joined_answer (o : option err_opt) (ctxDone : option ctx_cause) : Prop :=
  o = Some None \/ o = Some (Some (WrapS ErrCanceled "managed stop")) /\ ctxDone <> None.

Lemma Stop_joined n r pick id runContext cancel ctx (w w' : World E) exit :
  match r with
  | None => (Some exit, w')
  | Some pos => resume n pos id runContext (ctx_Cancel cancel w).2
  end = (Some exit, w') -> (r = None -> w' = (ctx_Cancel cancel w).2) ->
  let o := Stop n r pick id runContext cancel ctx w in
  joined_answer o.1 (ctx_Err ctx w').1 /\ o.2 = (ctx_Err ctx w').2.
Proof.
  intros Hr Hn. unfold Stop, joined_answer. rewrite !M_bind_eq.
  assert (Hd : match r with None => mret (Some None) | Some pos => resume n pos id runContext end
    (ctx_Cancel cancel w).2 = (Some (if r is None then None else exit), w')).
  { destruct r as [pos|]; [done|]. by rewrite Hn. }
  rewrite Hd. cbn [fst snd]. rewrite ?M_bind_eq, ?M_ret_eq. cbn [fst snd].
  destruct (ctx_Err ctx w').1 as [c|]; [|split; [by left|done]].
  destruct pick; (split; [|done]); [by left|by right].
Qed.
End Cooperative.
Arguments Cooperative E {_}.

(** ** The executable world *)

#[global] Instance sim_cooperative : Cooperative Sim.
Proof.
  refine {| canceled id s := id ∈ s_done s |}; try (intros; intros w; done).
  - intros id w. simpl. by apply elem_of_cons; left.
  - intros id ctx rec d w. simpl. unfold set_sim. by destruct (Renew _ _ _ _ _).
  - intros parent id d w Hc. simpl. unfold sim_err. simpl. destruct (sim_ctx _ parent); [done|].
    by rewrite bool_decide_eq_true_2.
Defined.

(** The caller's context is done first; and a renewal in flight fails when it is
    canceled, which is a [Loss]. *)
Definition abandoned_world : World Sim :=
  MkWorld (MkSim 1010 "me" (s_store (w_env managed_world)) 1 true 1 [] (fun _ => 0)) (w_handles managed_world) 0 1.

Example stop_runs :
  (Stop 0 (Some Sleeping) true 0 run_context 0 (CallerContext 0) abandoned_world).1 =
    Some (Some (WrapS ErrCanceled "managed stop")) /\
  (Stop 0 (Some Sleeping) true 0 run_context 0 Background abandoned_world).1 = None /\
  exists l, (resume 1 Woken 0 run_context (ctx_Cancel 0 managed_world).2).1 = Some (Some l) /\
    l_State l = StateUncertain /\ Is (l_Err l) ErrCanceled = true.
Proof. split_and!; [by vm_compute..|]. eexists. by vm_compute. Qed.

(** ** Property *)

(** C22: stopping ends renewal and nothing else. In any environment in which a
    canceled context stays canceled and the sleeper honors cancellation, [Stop]
    cancels the run context, and then:
    - a renewer at its sleep ends there: no [Loss], no call but that of the sleeper,
      the handle as it was and free to be managed again, the slot given back;
    - a renewer that is already in a renewal finishes that one and makes no other: it
      ends with a [Loss] carrying its error if it fails, and without one otherwise; the
      handle is given back with its slot and is never released;
    - when the renewer has ended [Stop] returns nil, or [ErrCanceled] only if its own
      context is done as well;
    - when its own context is done before the renewer has ended it returns
      [ErrCanceled], and waits while neither is; the renewer still ends later and gives
      back the handle and the slot. *)
Theorem managed_stop_only_stops {E} `{!Env E} `{!KeepsClient (E:=E)} `{!Cooperative E}
    id h parent cancel ctx (w : World E) :
  w_handles w !! id = Some h ->
  let runContext := WithCancel parent cancel in
  let w1 := (ctx_Cancel cancel w).2 in
  let slept w := (runExit id (sleeper_Sleep runContext (renewEvery (policy h)) w).2).2 in
  (forall n pick, let o := Stop (S n) (Some Sleeping) pick id runContext cancel ctx w in
     resume (S n) Sleeping id runContext w1 = (Some None, slept w1) /\
     w_handles (slept w1) = <[id := set_managed false h]> (w_handles w) /\
     w_managed (slept w1) = w_managed w - 1 /\
     joined_answer o.1 (ctx_Err ctx (slept w1)).1 /\ o.2 = (ctx_Err ctx (slept w1)).2) /\
  (forall n pos pick, pos <> Sleeping ->
     let renew := pendingRenew pos id runContext w1 in
     let r := resume (S (S n)) pos id runContext w1 in
     let o := Stop (S (S n)) (Some pos) pick id runContext cancel ctx w in
     match renew.1 with
     | None => r = (Some None, slept renew.2)
     | Some err => let now := clock_Now renew.2 in let st := HandleState id now.2 in
                   r = (Some (Some (MkLoss now.1 st.1 err)), (runExit id st.2).2)
     end /\ given_back id h w r.2 /\
     joined_answer o.1 (ctx_Err ctx r.2).1 /\ o.2 = (ctx_Err ctx r.2).2) /\
  (forall n pick, let o := Stop n None pick id runContext cancel ctx w in
     joined_answer o.1 (ctx_Err ctx w1).1 /\ o.2 = (ctx_Err ctx w1).2) /\
  (forall pos pick, let o := Stop 0 (Some pos) pick id runContext cancel ctx w in
     o = (match (ctx_Err ctx w1).1 with
          | Some _ => Some (Some (WrapS ErrCanceled "managed stop"))
          | None => None
          end, (ctx_Err ctx w1).2) /\
     forall n, exists exit w', resume (S (S n)) pos id runContext o.2 = (Some exit, w') /\ given_back id h w w').
Proof.
  intros Hh runContext w1 slept.
  destruct (kc_canceled cancel w) as [Hc1 Hc2]. fold w1 in Hc1, Hc2.
  assert (Hh1 : w_handles w1 !! id = Some h) by (by rewrite Hc1).
  pose proof (co_cancel cancel w) as Hcan. fold w1 in Hcan.
  assert (Hback : forall w', given_back id h w1 w' -> given_back id h w w').
  { intros w' H. unfold given_back in *. by rewrite Hc1, Hc2 in H. }
  split_and!.
  - intros n pick o. pose proof (resume_sleeping n id parent cancel w1 h Hh1 Hcan) as Hr.
    pose proof (Stop_joined (S n) (Some Sleeping) pick id runContext cancel ctx w _ _ Hr ltac:(done)) as Hj.
    destruct (kc_sleep runContext (renewEvery (policy h)) w1) as [Hs1 Hs2].
    assert (w_handles (slept w1) = <[id := set_managed false h]> (w_handles w) /\
            w_managed (slept w1) = w_managed w - 1) as [H1 H2].
    { unfold slept. rewrite (runExit_eq _ _ h) by congruence. simpl. by rewrite Hs1, Hs2, Hc1, Hc2. }
    split_and!; [exact Hr|exact H1|exact H2|apply Hj..].
  - intros n pos pick Hpos renew r o.
    destruct (stopped_ends n pos id parent cancel w1 h Hh1 Hcan) as (exit & w' & Hr & Hb).
    pose proof (resume_pending n pos id parent cancel w1 h Hh1 Hcan Hpos) as Hp. cbv zeta in Hp.
    fold runContext renew r in Hp. fold runContext r in Hr.
    pose proof (Stop_joined (S (S n)) (Some pos) pick id runContext cancel ctx w _ _ Hr ltac:(done)) as Hj.
    rewrite Hr. split_and!; [|by apply Hback|apply Hj..]. rewrite <- Hr, Hp.
    destruct renew.1 as [err|]; [|done]. unfold afterRenew. by rewrite !M_bind_eq.
  - intros n pick. by apply (Stop_joined n None pick id runContext cancel ctx w w1 None).
  - intros pos pick o.
    assert (Ho : o = (match (ctx_Err ctx w1).1 with
        | Some _ => Some (Some (WrapS ErrCanceled "managed stop")) | None => None end, (ctx_Err ctx w1).2)).
    { unfold o, Stop. rewrite !M_bind_eq. fold w1. simpl. rewrite ?M_bind_eq, ?M_ret_eq.
      by destruct (ctx_Err ctx w1) as [[c|] w2]. }
    split; [exact Ho|]. intros n. rewrite Ho. cbn [snd].
    destruct (co_err_client ctx w1) as [He1 He2].
    destruct (stopped_ends n pos id parent cancel (ctx_Err ctx w1).2 h) as (exit & w' & Hr & Hb);
      [by rewrite He1|by apply co_err|].
    exists exit, w'. split; [exact Hr|]. apply Hback. unfold given_back in *. by rewrite He1, He2 in Hb.
Qed.

(** The renewer of the lease of [managed_world] is at its sleep; [Stop] returns nil and
    leaves the lease in the store. *)
Lemma managed_stop_only_stops_witness :
  let o := Stop 1 (Some Sleeping) true 0 run_context 0 Background managed_world in
  o.1 = Some None /\ w_managed managed_world = 1 /\ w_managed o.2 = 0 /\
  w_handles o.2 = [set_managed false managed_handle] /\
  s_store (w_env o.2) = s_store (w_env managed_world).
Proof.
  destruct (managed_stop_only_stops 0 managed_handle Background 0 Background managed_world eq_refl)
    as [H _]. destruct (H 0%nat true) as (_ & Hh & Hm & Ha & Ho). cbv zeta. unfold run_context. rewrite Ho.
  split_and!; [|reflexivity|exact Hm|exact Hh|reflexivity].
  destruct Ha as [Ha|[_ Ha]]; [exact Ha|destruct Ha; reflexivity].
Defined.
