(* ===== verification/Driven.v ===== *)
(** * A world over a fixture

    One process whose backend is a fixture of [Conformance], reached through a driver
    that can be closed; its clocks are the fixture's and its sleeper is the fixture's
    expiry transition. Over a healthy fixture the methods of client and handle run in
    closed form; [Keeping] and [Examples] use it. *)

From S2P Require Import Prelude GoBase GoStrings Errors LeaseKey LeasePolicy Backend Serving Conformance Handle.
From S2P Require Import Runtime Client Schedule Managed.

(** The fixture, the owner that is generated next, the cancel functions of derived
    contexts, and whether the driver the store works on has been closed. *)
Record Driven (F : Type) := MkDriven {
  d_fixture : F;
  d_owner : string;
  d_fresh : nat;
  d_done : list nat;
  d_closed : bool
}.
Arguments MkDriven {F} _ _ _ _ _.
Arguments d_fixture {F} _.
Arguments d_owner {F} _.
Arguments d_fresh {F} _.
Arguments d_done {F} _.
Arguments d_closed {F} _.

Section World.
(** [broken] is the error a store makes of a request that its driver does not answer in
    time. *)
Context {F : Type} (fixture : BackendFixture F) (now : F -> Time) (broken : call -> error).

Fixpoint driven_ctx (d : Driven F) (ctx : Context) : option ctx_cause :=
  match ctx with
  | Background | CallerContext _ | WithoutCancel _ => None
  | WithDeadline parent t =>
      match driven_ctx d parent with
      | Some c => Some c
      | None => if t <=? now (d_fixture d) then Some CauseDeadline else None
      end
  | WithCancel parent id =>
      match driven_ctx d parent with
      | Some c => Some c
      | None => if bool_decide (id ∈ d_done d) then Some CauseCanceled else None
      end
  | WithToken parent _ => driven_ctx d parent
  end.

Definition with_driven {A} (f : Driven F -> A * Driven F) : M (World (Driven F)) A :=
  fun w => let '(a, d) := f (w_env w) in (a, MkWorld d (w_handles w) (w_waiters w) (w_managed w)).

Definition set_fixture (f : F) (d : Driven F) : Driven F := MkDriven f (d_owner d) (d_fresh d) (d_done d) (d_closed d).

(** A call of the backend: not made when the driver is closed or the context done, and
    unanswered when the context ends before the reply. *)
Definition driven_call (ctx : Context) (c : call) : M (World (Driven F)) reply := with_driven (fun d =>
  if d_closed d then (Failed (broken c), d)
  else match driven_ctx d ctx with
  | Some _ => (Failed (broken c), d)
  | None =>
      let '(r, f) := fx_Backend fixture c (d_fixture d) in
      let d' := set_fixture f d in
      (if driven_ctx d' ctx then Failed (broken c) else r, d')
  end).

(** [Close] of the driver. *)
Definition driven_Close : M (World (Driven F)) () := with_driven (fun d =>
  ((), MkDriven (d_fixture d) (d_owner d) (d_fresh d) (d_done d) true)).

Definition driven_env : Env (Driven F) := {|
  clock_Now := with_driven (fun d => (now (d_fixture d), d));
  time_Now := with_driven (fun d => (now (d_fixture d), d));
  ctx_Err ctx := with_driven (fun d => (driven_ctx d ctx, d));
  ctx_NewCancel := with_driven (fun d =>
    (d_fresh d, MkDriven (d_fixture d) (d_owner d) (S (d_fresh d)) (d_done d) (d_closed d)));
  ctx_Cancel id := with_driven (fun d =>
    ((), MkDriven (d_fixture d) (d_owner d) (d_fresh d) (id :: d_done d) (d_closed d)));
  owners_NewOwner := with_driven (fun d => (Ok (d_owner d), d));
  retry_Jitter _ := mret 0;
  sleeper_Sleep ctx t := with_driven (fun d =>
    let d' := set_fixture (fx_Expire fixture t (d_fixture d)).2 d in
    (cause_error <$> driven_ctx d' ctx, d'));
  backend_TryAcquire ctx key owner ttl := r ← driven_call ctx (CallTryAcquire key owner ttl); mret (reply_res r);
  backend_Renew ctx owned ttl := r ← driven_call ctx (CallRenew owned ttl); mret (reply_res r);
  backend_Validate ctx owned := r ← driven_call ctx (CallValidate owned); mret (reply_res r);
  backend_Release ctx owned := r ← driven_call ctx (CallRelease owned); mret (reply_err r)
|}.
End World.

(** ** Running over a healthy fixture *)

Section Healthy.
Context {S F : Type} `{!LeaseBackend S} `{!ServingBackend S}.
Context (fixture : BackendFixture F) (latency : Duration) `{!HealthyFixture fixture latency}.
Context (broken : call -> error) (key : Key).

#[local] Hint Extern 0 (Env (Driven F)) => exact (driven_env fixture fx_now broken) : typeclass_instances.
#[local] Abbreviation fix_of w := (d_fixture (w_env w)).

(** The world after a call of the backend. *)
Definition moved (f : F) (w : World (Driven F)) : World (Driven F) :=
  MkWorld (set_fixture f (w_env w)) (w_handles w) (w_waiters w) (w_managed w).

Lemma driven_clock (w : World (Driven F)) : clock_Now w = (fx_now (fix_of w), w).
Proof. by destruct w. Qed.
Lemma driven_time (w : World (Driven F)) : time_Now w = (fx_now (fix_of w), w).
Proof. by destruct w. Qed.
Lemma driven_timeout ctx d (w : World (Driven F)) :
  withTimeout ctx d w = (WithDeadline ctx (Add (fx_now (fix_of w)) d), w).
Proof. by destruct w. Qed.

(** A context that no instant ends. *)
Definition stays_open (ctx : Context) (w : World (Driven F)) : Prop :=
  forall f, driven_ctx fx_now (set_fixture f (w_env w)) ctx = None.

(** A call that is answered before its context ends. *)
Lemma driven_call_runs parent t c (w : World (Driven F)) :
  let call := fx_Backend fixture c (fix_of w) in
  d_closed (w_env w) = false -> stays_open parent w ->
  fx_now (fix_of w) < t -> fx_now call.2 < t ->
  driven_call fixture fx_now broken (WithDeadline parent t) c w = (call.1, moved call.2 w).
Proof.
  intros call Hopen Hp H1 H2. unfold driven_call, with_driven. rewrite Hopen. cbn [driven_ctx].
  assert (Hp0 : driven_ctx fx_now (w_env w) parent = None).
  { rewrite <- (Hp (fix_of w)). by destruct w as [[] hs n m]. }
  rewrite Hp0. destruct (Z.leb_spec t (fx_now (fix_of w))); [lia|].
  fold call. destruct call as [r f']. cbn [fst snd] in *. rewrite Hp.
  cbn [set_fixture d_fixture]. by destruct (Z.leb_spec t (fx_now f')); [lia|].
Qed.

(** A successful call of the suite, as a reply. *)
Lemma method_reply c f out f' :
  method fixture c f = (Ok out, f') -> exists r, fx_Backend fixture c f = (r, f') /\ out = outcome r.
Proof. unfold method. destruct (fx_Backend fixture c f) as [r f1]. intros [= <- <-]. by exists r. Qed.

Lemma outcome_record r : (outcome r).2 = None -> record_ok (outcome r).1 -> r = Replied (outcome r).1.
Proof. destruct r; simpl; [done| |done]. intros _ (Hk & _). done. Qed.

(** [TryAcquire] up to the reply of the backend. *)
Lemma TryAcquire_runs p (w : World (Driven F)) :
  let t := fx_now (fix_of w) in
  let call := fx_Backend fixture (CallTryAcquire key (d_owner (w_env w)) (ttl p)) (fix_of w) in
  d_closed (w_env w) = false -> 0 < len (d_owner (w_env w)) <= 128 ->
  0 < operationTimeout p -> fx_now call.2 < t + operationTimeout p ->
  Client.TryAcquire (Some Background) key p w =
  match reply_res call.1 with
  | Ok rec => grant key (d_owner (w_env w)) p rec t t (moved call.2 w)
  | Err err => (Err err, moved call.2 w)
  end.
Proof.
  intros t call Hopen Ho Hop Hlat. unfold Client.TryAcquire.
  assert (Hctx : acquisitionContextError (Some Background) w = (None, w)) by (by destruct w).
  rewrite (bind_step _ _ _ _ _ Hctx). cbv iota beta.
  assert (Hown : owners_NewOwner w = (Ok (d_owner (w_env w)), w)) by (by destruct w).
  rewrite (bind_step _ _ _ _ _ Hown). unfold usableOwner.
  assert (String.eqb (d_owner (w_env w)) "" = false) as -> by (apply String.eqb_neq, len_pos; lia).
  destruct (Z.ltb_spec 128 (len (d_owner (w_env w)))); [lia|]. cbn [orb].
  rewrite (bind_step _ _ _ _ _ (driven_timeout _ _ w)), (bind_step _ _ _ _ _ (driven_clock w)),
    (bind_step _ _ _ _ _ (driven_time w)).
  assert (Hcall : backend_TryAcquire (WithDeadline Background (Add t (operationTimeout p))) key
    (d_owner (w_env w)) (ttl p) w = (reply_res call.1, moved call.2 w)).
  { cbn [backend_TryAcquire driven_env]. rewrite M_bind_eq.
    rewrite driven_call_runs; unfold Add, t; [done|done|done|lia|done]. }
  rewrite (bind_step _ _ _ _ _ Hcall). by destruct (reply_res call.1).
Qed.

Lemma grant_valid p rec st wst (w : World (Driven F)) owner :
  validAcquisition key owner rec = true ->
  grant key owner p rec st wst w =
  (Ok (length (w_handles w)), set_handles (w_handles w ++ [newHandleAt p rec st wst])%list w).
Proof. intros H. unfold grant. by rewrite H. Qed.

(** [Release] of an active handle, with the reply of the backend. *)
Lemma HandleRelease_runs id h (w : World (Driven F)) :
  let call := fx_Backend fixture (CallRelease (record h)) (fix_of w) in
  w_handles w !! id = Some h -> state h = StateActive -> busy h = false -> d_closed (w_env w) = false ->
  0 < operationTimeout (policy h) -> fx_now call.2 < fx_now (fix_of w) + operationTimeout (policy h) ->
  let fin := finishRelease (reply_err call.1) (set_busy true h) in
  HandleRelease id (WithoutCancel Background) w =
  (fin.1, set_handles (<[id := fin.2]> (w_handles w)) (moved call.2 w)).
Proof.
  intros call Hh Hst Hbusy Hopen Hop Hlat fin. unfold HandleRelease.
  set (w1 := set_handles (<[id := set_busy true h]> (w_handles w)) w).
  assert (Hbegin : onHandle id beginRelease (inl (Some no_handle)) w = (inr (record h), w1)).
  { unfold onHandle. rewrite Hh. unfold beginRelease. by rewrite Hst, Hbusy. }
  rewrite (bind_step _ _ _ _ _ Hbegin). cbv iota beta.
  assert (Hlook : w_handles w1 !! id = Some (set_busy true h)).
  { simpl. apply list_lookup_insert_eq. by eapply lookup_lt_Some. }
  assert (Hpol : policyOf id w1 = (policy h, w1)).
  { unfold policyOf, onHandle. rewrite Hlook. simpl. f_equal. unfold set_handles. simpl. unfold w1, set_handles.
    f_equal. apply list_insert_insert_eq. }
  rewrite (bind_step _ _ _ _ _ Hpol), (bind_step _ _ _ _ _ (driven_timeout _ _ w1)).
  assert (Hcall : backend_Release (WithDeadline (WithoutCancel Background) (Add (fx_now (fix_of w1)) (operationTimeout (policy h))))
    (record h) w1 = (reply_err call.1, moved call.2 w1)).
  { cbn [backend_Release driven_env]. rewrite M_bind_eq.
    rewrite driven_call_runs; unfold Add; [done|done|done|simpl; lia|done]. }
  rewrite (bind_step _ _ _ _ _ Hcall). unfold onHandle. simpl w_handles.
  change (w_handles w1) with (<[id := set_busy true h]> (w_handles w)) in Hlook. rewrite Hlook. fold fin.
  destruct fin as [e h'] eqn:Efin. unfold set_handles. simpl. by rewrite list_insert_insert_eq.
Qed.
End Healthy.
