(* ===== verification/Keeping.v ===== *)
(** * Managed renewal keeps a lease

    The renewer of managed.go over any healthy backend of [Conformance] (the memory,
    Valkey and PostgreSQL stores of [Fixtures] among them): requests are answered
    within a latency, the sleeper oversleeps by at most a slack, and the policy leaves
    room for both. Then renewal never falls behind the deadline. *)

From S2P Require Import Prelude GoBase GoStrings Errors LeaseKey LeasePolicy Backend Serving Conformance Handle.
From S2P Require Import Valkey Postgres PostgresServing Fixtures Runtime Client Schedule Managed Driven.

(** ** Sections of an active handle *)

(** A reply of the same acquisition before the deadline is taken over, with the budget
    counted from the start of the call. *)
Lemma finishRenew_accepts now wall started wst h next :
  state h = StateActive -> now < deadline h -> wall < wallDeadline h ->
  0 < started + budget (policy h) -> sameAcquisition (record h) next = true ->
  finishRenew now wall (record h) started wst (Ok next) (set_busy true h) =
    (None, set_deadlines (started + budget (policy h)) (wst + budget (policy h))
             (set_record next (set_busy false h))).
Proof.
  intros Hs H1 H2 H3 H4. unfold finishRenew, checkReply. rewrite H4.
  unfold finishActiveOperation. simpl.
  rewrite expireLocked_id by done. simpl. rewrite Hs. simpl. unfold IsZero, Add.
  by destruct (Z.eqb_spec (started + budget (policy h)) 0); [lia|].
Qed.

Section Keeping.
Context {S F : Type} `{!LeaseBackend S} `{!ServingBackend S}.
Context (fixture : BackendFixture F) (latency : Duration) `{!HealthyFixture fixture latency}.
Context (broken : call -> error) (key : Key) (p : Policy) (slack : Duration).

#[local] Hint Extern 0 (Env (Driven F)) => exact (driven_env fixture fx_now broken) : typeclass_instances.
#[local] Abbreviation view f := (key_view (fx_state f) (KeyString key)).
#[local] Abbreviation fix_of w := (d_fixture (w_env w)).
#[local] Abbreviation now_of w := (fx_now (d_fixture (w_env w))).

(** The handle [id] admits work under [p], and its record is the one the backend holds,
    at least until the local deadline; [n] more operations can be made. *)
Record manages (n id : nat) (h : Handle) (w : World (Driven F)) : Prop := {
  mg_handle : w_handles w !! id = Some h;
  mg_policy : policy h = p;
  mg_active : state h = StateActive;
  mg_idle : busy h = false;
  mg_wall : wallDeadline h = deadline h;
  mg_holder : holder (view (fix_of w)) = Some (record h);
  mg_record : record_ok (record h);
  mg_key : r_Key (record h) = key;
  mg_acquired : r_AcquiredAt (record h) <= now_of w;
  mg_lease : r_AcquiredAt (record h) < r_ExpiresAt (record h);
  mg_deadline : deadline h <= r_ExpiresAt (record h);
  mg_usable : usable fixture latency key n (fix_of w);
  mg_driver : d_closed (w_env w) = false;
  mg_time : 0 <= now_of w
}.

(** What the policy and the environment have to offer. *)
Record sustainable : Prop := {
  su_policy : policy_valid p;
  su_renews : 0 < renewEvery p;
  su_ttl : Millisecond <= ttl p <= Minute;
  su_margin : granularity <= safetyMargin p;
  su_latency : 0 <= latency < operationTimeout p;
  su_slack : 0 <= slack;
  su_prompt d f : fx_now (fx_Expire fixture d f).2 <= fx_now f + d + slack;
  su_room : renewEvery p + slack + 2 * latency < budget p;
  su_key : KeyString key <> ""
}.
Context (Hsu : sustainable).

Lemma driven_locked {A} id (section : Time -> Time -> Handle -> A * Handle) absent (w : World (Driven F)) h :
  w_handles w !! id = Some h ->
  let o := section (now_of w) (now_of w) h in
  locked id section absent w = (o.1, set_handles (<[id := o.2]> (w_handles w)) w).
Proof.
  intros H. unfold locked. rewrite (bind_step _ _ _ _ _ (driven_clock fixture latency broken w)),
    (bind_step _ _ _ _ _ (driven_time fixture latency broken w)). unfold onHandle. rewrite H.
  by destruct (section _ _ h).
Qed.

(** ** One round *)

(** The renewal of a handle whose deadline is further away than a reply. *)
Lemma renew_call n id h w :
  manages (Datatypes.S n) id h w -> now_of w + latency < deadline h ->
  exists rec f', fx_Backend fixture (CallRenew (record h) (ttl p)) (fix_of w) = (Replied rec, f') /\
    now_of w <= fx_now f' <= now_of w + latency /\ usable fixture latency key n f' /\
    holder (view f') = Some rec /\ record_ok rec /\ r_Key rec = key /\
    sameAcquisition (record h) rec = true /\ now_of w + budget p <= r_ExpiresAt rec.
Proof.
  intros [] Hdue. destruct Hsu as [Hp _ Httl Hmargin [Hlat0 _] _ _ _ Hkey].
  assert (Hcall : passes (fun f => f = fix_of w) (method fixture (CallRenew (record h) (ttl p))) (fun out f' =>
    exists rec, out = outcome (Replied rec) /\
    now_of w <= fx_now f' <= now_of w + latency /\ usable fixture latency key n f' /\
    holder (view f') = Some rec /\ record_ok rec /\ r_Key rec = key /\
    sameAcquisition (record h) rec = true /\ now_of w + budget p <= r_ExpiresAt rec)).
  { eapply (call_passes fixture latency key Hkey); [simpl; congruence|split; [done|lia]|simpl; lia|by intros f ->|].
    intros f r f' now -> (Hwf & Hroom & _) Hu Hnow Hlat Hs.
    pose proof (renew_granted now (fx_now f') (record h) (ttl p) (fx_state (fix_of w)) r (fx_state f') n) as H.
    cbv zeta in H. rewrite mg_key0 in H.
    destruct H as (rec & -> & [Ho Ht] & _ & Hh' & (r0 & Hr0 & Hk0 & Ha0) & Hae & Hx); try done; [split; [done|lia]| |].
    { exists (record h). split_and!; (done || lia). }
    rewrite mg_holder0 in Hr0. simplify_eq. rewrite mg_key0 in Hk0.
    destruct mg_record0 as (H1 & H2 & H3). rewrite (budget_exact _ Hp).
    exists rec. unfold record_ok. rewrite Hk0, Ho, Ht. split_and!; try done; try lia.
    unfold sameAcquisition, Equal, After. rewrite mg_key0, Hk0, Ho, Ht, Ha0, !String.eqb_refl, !Z.eqb_refl. simpl.
    by apply Z.ltb_lt; rewrite <- Ha0. }
  destruct (Hcall _ eq_refl) as (out & f' & Hm & rec & -> & H). apply method_reply in Hm as (r & E & Ho).
  exists rec, f'. split; [|done]. rewrite E. f_equal.
  destruct H as (_ & _ & _ & Hok & _). symmetry. destruct r as [r| |]; simpl in Ho; simplify_eq; [done|].
  by destruct Hok as (Hk0 & _).
Qed.

(** The world after it, and the handle with the new record and deadlines. *)
Definition renewed (rec : LeaseRecord) (started : Time) (h : Handle) : Handle :=
  set_deadlines (started + budget p) (started + budget p) (set_record rec h).

Lemma HandleRenew_runs n id h ctx w :
  manages (Datatypes.S n) id h w -> now_of w + latency < deadline h -> stays_open fixture latency ctx w ->
  exists rec f', let h' := renewed rec (now_of w) h in
    let w' := set_handles (<[id := h']> (w_handles w)) (moved f' w) in
    HandleRenew id ctx w = (None, w') /\ manages n id h' w' /\
    now_of w <= fx_now f' <= now_of w + latency /\ same_identity (record h) rec.
Proof.
  intros Hm Hdue Hopen. destruct (renew_call n id h w Hm Hdue)
    as (rec & f' & Ecall & Hnow & Hu & Hhold & Hok & Hk & Hsame & Hx).
  destruct Hsu as [Hp Hr Httl Hmargin [Hlat0 Hop] _ _ _ _]. pose proof (budget_bounds _ Hp) as Hb.
  destruct Hm as [Hh Hpol Ha Hi Hwall _ _ Hk0 Hacq _ _ _ Hdrv H0]. exists rec, f'. cbv zeta.
  pose proof (sameAcquisition_true _ _ Hsame) as [Hid Hlt]. split_and!; [|split; simpl|apply Hnow|apply Hnow|done]; try done.
  - unfold HandleRenew, awaitRenew. set (w1 := set_handles (<[id := set_busy true h]> (w_handles w)) w).
    assert (Hlook : w_handles w1 !! id = Some (set_busy true h)) by (apply list_lookup_insert_eq; by eapply lookup_lt_Some).
    assert (Hbegin : locked id beginActiveOperation (Err no_handle) w = (Ok (record h), w1)).
    { rewrite (driven_locked _ _ _ _ h) by done. by rewrite begin_active by (done || lia). }
    rewrite (bind_step _ _ _ _ _ Hbegin). cbv iota beta.
    rewrite (bind_step _ _ _ _ _ (driven_clock fixture latency broken w1)), (bind_step _ _ _ _ _ (driven_time fixture latency broken w1)).
    rewrite (bind_step _ _ _ _ _ (policyOf_eq _ _ _ Hlook)), (bind_step _ _ _ _ _ (driven_timeout fixture latency broken _ _ w1)).
    change (policy (set_busy true h)) with (policy h). rewrite Hpol. change (now_of w1) with (now_of w).
    assert (Hcall : backend_Renew (WithDeadline ctx (Add (now_of w) (operationTimeout p))) (record h) (ttl p) w1 =
      (Ok rec, moved f' w1)).
    { cbn [backend_Renew driven_env]. rewrite M_bind_eq.
      pose proof (driven_call_runs fixture latency broken ctx (Add (now_of w) (operationTimeout p)) (CallRenew (record h) (ttl p)) w1) as Hrun.
      cbv zeta in Hrun. change (fix_of w1) with (fix_of w) in Hrun. rewrite Ecall in Hrun.
      rewrite Hrun; unfold Add; [done|done|done|lia|simpl; lia]. }
    rewrite (bind_step _ _ _ _ _ Hcall). rewrite (driven_locked _ _ _ _ (set_busy true h)) by done.
    change (now_of (moved f' w1)) with (fx_now f').
    rewrite finishRenew_accepts by (rewrite ?Hpol, ?Hwall; done || lia). rewrite Hpol. simpl.
    unfold set_handles, moved, renewed. simpl. rewrite list_insert_insert_eq. do 3 f_equal. by destruct h; simpl in *; subst.
  - apply list_lookup_insert_eq. by eapply lookup_lt_Some.
  - destruct Hid as (_ & _ & _ & <-). lia.
  - lia.
Qed.

(** A sleep: only time passes. *)
Lemma sleep_runs n id h ctx w :
  manages (Datatypes.S n) id h w -> stays_open fixture latency ctx w ->
  exists f', sleeper_Sleep ctx (renewEvery p) w = (None, moved f' w) /\ manages n id h (moved f' w) /\
    now_of w + renewEvery p <= fx_now f' <= now_of w + renewEvery p + slack.
Proof.
  intros [] Hopen. destruct Hsu as [Hp Hr Httl Hmargin _ _ Hprompt _ _].
  pose proof (pv_renew _ Hp) as Hre. pose proof (pv_margin _ Hp) as Hma.
  destruct mg_usable0 as (Hwf & Hroom & Hready).
  pose proof (fx_waits (renewEvery p) (KeyString key) (fix_of w) n Hready ltac:(lia)) as Hw.
  pose proof (Hprompt (renewEvery p) (fix_of w)) as Hpr. cbn [sleeper_Sleep driven_env]. unfold with_driven.
  destruct (fx_Expire fixture (renewEvery p) (fix_of w)) as [[] f']. destruct Hw as (Hr' & Hle & Hst). simpl in Hpr.
  exists f'. cbn [snd]. rewrite Hopen. split; [done|]. split; [|lia].
  split; try done; simpl; [by rewrite Hst|lia| |lia].
  split_and!; [by rewrite Hst|rewrite Hst; by apply room_less|done].
Qed.

(** A renewer between two rounds: its budget has been counted from the start of the
    last call, at most a latency ago. *)
Definition kept (n id : nat) (h : Handle) (w : World (Driven F)) : Prop :=
  manages n id h w /\ deadline h - budget p <= now_of w <= deadline h - budget p + latency.

Lemma round_keeps n id h ctx w :
  kept (Datatypes.S (Datatypes.S n)) id h w -> stays_open fixture latency ctx w ->
  exists h' w', renewalRound id ctx w = (None, w') /\ kept n id h' w' /\ stays_open fixture latency ctx w' /\
    same_identity (record h) (record h') /\ managed h' = managed h /\ w_managed w' = w_managed w /\
    now_of w + renewEvery p <= now_of w'.
Proof.
  intros [Hm Ht] Hopen. destruct (sleep_runs _ _ _ _ _ Hm Hopen) as (f1 & Hsleep & Hm1 & H1).
  pose proof (su_room Hsu) as Hroom.
  destruct (HandleRenew_runs n id h ctx (moved f1 w) Hm1) as (rec & f' & Hrenew & Hm' & Hnow & Hid); [simpl; lia|done|].
  eexists _, _. split; [|split; [split; [exact Hm'|]|]].
  - unfold renewalRound. rewrite (bind_step _ _ _ _ _ (policyOf_eq _ _ _ (mg_handle _ _ _ _ Hm))), (mg_policy _ _ _ _ Hm).
    rewrite (bind_step _ _ _ _ _ Hsleep). cbv iota beta. by rewrite (bind_step _ _ _ _ _ Hrenew).
  - simpl in *. lia.
  - simpl in *. split_and!; (done || lia).
Qed.

Lemma loop_keeps k : forall n id h ctx w,
  kept (2 * k + n) id h w -> stays_open fixture latency ctx w ->
  exists h' w', renewalLoop k id ctx w = (None, w') /\ kept n id h' w' /\
    same_identity (record h) (record h') /\ managed h' = managed h /\ w_managed w' = w_managed w /\
    now_of w + Z.of_nat k * renewEvery p <= now_of w'.
Proof.
  induction k as [|k IH]; intros n id h ctx w Hk Hopen.
  { exists h, w. split_and!; try done. lia. }
  replace (2 * Datatypes.S k + n)%nat with (Datatypes.S (Datatypes.S (2 * k + n))) in Hk by lia.
  destruct (round_keeps _ id h ctx w Hk Hopen) as (h1 & w1 & Hround & Hk1 & Ho1 & Hi1 & Hg1 & Hm1 & Ht1).
  destruct (IH n id h1 ctx w1 Hk1 Ho1) as (h2 & w2 & Hloop & Hk2 & Hi2 & Hg2 & Hm2 & Ht2).
  exists h2, w2. simpl renewalLoop. rewrite (bind_step _ _ _ _ _ Hround). split_and!; try done; try congruence; [|lia].
  unfold same_identity in *. naive_solver congruence.
Qed.

(** ** The start *)

(** The acquisition of a free key. *)
Lemma TryAcquire_keeps n (w : World (Driven F)) :
  d_closed (w_env w) = false -> owner_ok (d_owner (w_env w)) -> 0 <= now_of w ->
  usable fixture latency key (Datatypes.S n) (fix_of w) -> ~ lingers granularity (now_of w) (view (fix_of w)) ->
  let id := length (w_handles w) in
  exists rec f', let h := newHandleAt p rec (now_of w) (now_of w) in
    let w' := set_handles (w_handles w ++ [h])%list (moved f' w) in
    Client.TryAcquire (Some Background) key p w = (Ok id, w') /\ kept n id h w' /\ now_of w <= fx_now f'.
Proof.
  intros Hopen Ho H0 Hu Hfree id. destruct Hsu as [Hp Hr Httl Hmargin [Hlat0 Hop] _ _ _ Hkey].
  pose proof (budget_bounds _ Hp) as Hb.
  assert (Hok : call_ok (CallTryAcquire key (d_owner (w_env w)) (ttl p))) by (split_and!; done || lia).
  destruct Hu as (Hwf & Hroom & Hready).
  pose proof (fx_serves (CallTryAcquire key (d_owner (w_env w)) (ttl p)) (fix_of w) n Hready Hok (proj2 Httl)) as Hs.
  pose proof (TryAcquire_runs fixture latency broken key p w Hopen (proj1 Ho)) as Hrun. cbv zeta in Hrun.
  destruct (fx_Backend fixture _ (fix_of w)) as [r f'] eqn:Ecall. destruct Hs as (Hready' & Hlat & now & Hnow & Hs).
  pose proof (serves_time _ _ _ _ _ _ Hs) as Hfin.
  destruct (acquire_granted now (fx_now f') key (d_owner (w_env w)) (ttl p) (fx_state (fix_of w)) r (fx_state f') n)
    as (rec & -> & Hk & Hown & Hfen & Hrec & Ha & Hae & Hx & Hv); [done|done|done|done| |].
  { contradict Hfree. destruct Hfree as (r0 & Hr0 & Hl). exists r0. split; [done|lia]. }
  exists rec, f'. cbv zeta. cbn [fst snd reply_res] in Hrun. split_and!; [| |lia].
  - rewrite Hrun by lia. rewrite grant_valid; [done|]. unfold validAcquisition, After. rewrite Hk, Hown, !String.eqb_refl.
    destruct Hrec as (_ & _ & Ht). apply Z.ltb_lt in Hae as ->. by destruct (Z.eqb_spec (r_Token rec) 0); [lia|].
  - pose proof (budget_exact _ Hp). split; [split|]; simpl; unfold Add; try done; try lia.
    + by apply list_lookup_middle.
    + by rewrite Hv.
    + split_and!; [by eapply backend_wf_call, serves_call|exact (serves_room _ _ _ _ _ _ n Hwf Hok Hroom Hs)|done].
Qed.

(** Its management, within the capacity. *)
Lemma StartManaged_runs n capacity id h (w : World (Driven F)) :
  kept n id h w -> managed h = false -> w_managed w < capacity ->
  let c := d_fresh (w_env w) in c ∉ d_done (w_env w) ->
  exists w', HandleStartManaged capacity id Background w = (Ok (WithCancel Background c, c), w') /\
    kept n id (set_managed true h) w' /\ stays_open fixture latency (WithCancel Background c) w' /\
    w_managed w' = w_managed w + 1 /\ now_of w' = now_of w.
Proof.
  intros [Hm Ht] Hg Hcap c Hc. pose proof (su_renews Hsu) as Hr. pose proof (su_room Hsu) as Hroom.
  assert (Hb : now_of w < deadline h) by (pose proof (su_slack Hsu); pose proof (su_latency Hsu); lia).
  assert (Hsect : StartManaged (now_of w) (now_of w) (w_managed w <? capacity) h = (None, set_managed true h)).
  { destruct Hm as [_ Hpol Ha Hi Hwall _ _ _ _ _ _ _ _ _]. unfold StartManaged, requireActiveLocked.
    rewrite expireLocked_id by (done || lia). rewrite Ha. simpl. rewrite Hpol, Hg, Hi.
    destruct (Z.leb_spec (renewEvery p) 0); [lia|]. simpl. by apply Z.ltb_lt in Hcap as ->. }
  set (w1 := set_slots (w_managed w + 1) (set_handles (<[id := set_managed true h]> (w_handles w)) w)).
  assert (Hstart : startSection capacity id (now_of w) (now_of w) w = (None, w1)).
  { unfold startSection. by rewrite (mg_handle _ _ _ _ Hm), Hsect. }
  eexists. split.
  { unfold HandleStartManaged.
    rewrite (bind_step _ _ _ _ _ (driven_clock fixture latency broken w)), (bind_step _ _ _ _ _ (driven_time fixture latency broken w)).
    rewrite (bind_step _ _ _ _ _ Hstart). cbv iota beta. unfold withCancel. rewrite !M_bind_eq. reflexivity. }
  split_and!; try done.
  - destruct Hm. split; [split|]; try done. simpl. apply list_lookup_insert_eq. by eapply lookup_lt_Some.
  - intros f. simpl. by rewrite bool_decide_eq_false_2.
Qed.

(** Until the next reply is due the handle admits work. *)
Lemma kept_admits n id h w t :
  kept n id h w -> t <= now_of w + renewEvery p + slack + latency -> (StateOf t t h).1 = StateActive.
Proof.
  intros [[] Ht] Hle. pose proof (su_room Hsu). apply State_admits. rewrite mg_wall0. split_and!; [done|lia..].
Qed.

(** Until the deadline the backend grants the key to nobody. *)
Lemma kept_excludes n id h w t owner d rec s' :
  kept n id h w -> t < deadline h ->
  ~ backend_call t (CallTryAcquire key owner d) (fx_state (fix_of w)) (Replied rec) s'.
Proof.
  intros [[] _] Hlt Hcall. destruct mg_usable0 as (Hwf & _).
  pose proof (backend_refines _ _ _ _ _ Hwf Hcall) as Hspec.
  inversion Hspec as [?????? (Hn & _)| | | | | | | | | | |]; subst. apply Hn.
  exists (record h). split; [done|lia].
Qed.
End Keeping.

(** ** Property *)

(** C19: managed renewal keeps a lease. Over any backend that answers every request
    within [latency], below the operation timeout, with a sleeper that oversleeps by at
    most [slack], and a policy of [NewPolicy] with a lifetime between a millisecond and
    a minute, a margin of at least the backend's clock granularity, and room for a
    period, the slack and two latencies within the budget: a client that acquires a
    free key and starts managed renewal, and whose driver, owner source and slots
    permit it, has after any number [n] of rounds a renewer that still runs and has
    reported no [Loss]. The handle is the same acquisition; it reports active at every
    instant until the next reply can be due; the backend holds its record, which
    outlasts its deadline, so that before the deadline no acquisition of the key by
    anybody can succeed. Failed, lost or late replies, operations that overlap a round
    and the end of the context are outside this claim. *)
Theorem managed_keeps_lease {S F} `{!LeaseBackend S} `{!ServingBackend S} (fixture : BackendFixture F) latency
    `{!HealthyFixture fixture latency} broken key p slack capacity n (w : World (Driven F)) :
  let _ : Env (Driven F) := driven_env fixture fx_now broken in
  let now w := fx_now (d_fixture (w_env w)) in
  let state w := fx_state (d_fixture (w_env w)) in
  sustainable fixture latency key p slack ->
  d_closed (w_env w) = false -> owner_ok (d_owner (w_env w)) -> d_fresh (w_env w) ∉ d_done (w_env w) ->
  0 <= now w -> w_managed w < capacity -> usable fixture latency key (1 + 2 * n) (d_fixture (w_env w)) ->
  ~ lingers granularity (now w) (key_view (state w) (KeyString key)) ->
  let id := length (w_handles w) in
  let acquired := Client.TryAcquire (Some Background) key p w in
  let started := HandleStartManaged capacity id Background acquired.2 in
  exists h runContext cancel h' w',
    acquired.1 = Ok id /\ w_handles acquired.2 !! id = Some h /\ started.1 = Ok (runContext, cancel) /\
    run n id runContext started.2 = (None, w') /\
    manages fixture latency key p 0 id h' w' /\ same_identity (record h) (record h') /\
    managed h' = true /\ w_managed w' = w_managed w + 1 /\
    now w + Z.of_nat n * renewEvery p <= now w' /\
    (forall t, t <= now w' + renewEvery p + slack + latency -> (StateOf t t h').1 = StateActive) /\
    (forall t owner d rec s', t < deadline h' ->
       ~ backend_call t (CallTryAcquire key owner d) (state w') (Replied rec) s').
Proof.
  intros env now state Hsu Hopen Ho Hfresh H0 Hcap Hu Hfree id acquired started.
  destruct (TryAcquire_keeps fixture latency broken key p slack Hsu (2 * n) w Hopen Ho H0 Hu Hfree)
    as (rec & f' & Hacq & Hk & Hnow). set (h := newHandleAt p rec _ _) in *. set (w1 := set_handles _ (moved f' w)) in *.
  destruct (StartManaged_runs fixture latency broken key p slack Hsu (2 * n) capacity id h w1 Hk eq_refl Hcap Hfresh)
    as (w2 & Hstart & Hk2 & Hctx & Hm2 & Ht2).
  rewrite <- (Nat.add_0_r (2 * n)) in Hk2.
  destruct (loop_keeps fixture latency broken key p slack Hsu n 0 id _ _ w2 Hk2 Hctx)
    as (h' & w' & Hloop & Hk' & Hid & Hg & Hm' & Ht').
  exists h, (WithCancel Background (d_fresh (w_env w1))), (d_fresh (w_env w1)), h', w'.
  unfold started. subst env. unfold acquired. rewrite Hacq. cbn [fst snd]. rewrite Hstart. cbn [fst snd].
  split_and!; try done.
  - by apply list_lookup_middle.
  - unfold run. by rewrite (bind_step _ _ _ _ _ Hloop).
  - apply Hk'.
  - rewrite Hm', Hm2. done.
  - unfold now in *. rewrite Ht2 in Ht'. simpl in Ht'. lia.
  - intros t Ht. by eapply (kept_admits fixture latency key p slack Hsu).
  - intros t owner d rec' s' Ht. by eapply (kept_excludes fixture latency key p).
Qed.

(** A lease of thirty seconds renewed every ten, over PostgreSQL on new tables with
    answers after a millisecond: after an hour of renewals it is still held. *)
Definition keep_policy : Policy :=
  MkPolicy (30 * Second) 0 0 0 (10 * Second) Second 1 (5 * Second) FailureFailClosed.
Definition keep_keys : gset string := {["jobs/nightly"]}.
Definition keep_world : World (Driven (Time * tables)) :=
  MkWorld (MkDriven (now0, MkTables ∅ ∅) "owner" 0 [] false) [] 0 0.

Lemma keep_policy_valid : policy_valid keep_policy.
Proof. split; simpl; unfold_policy_constants; unfold Second, Minute, Hour in *; lia. Qed.

Lemma managed_keeps_lease_witness :
  let _ : Env (Driven (Time * tables)) := driven_env (postgres_fixture Millisecond) fst (fun _ => WrapS ErrBackendUnavailable "postgres") in
  let acquired := Client.TryAcquire (Some Background) (MkKey "jobs/nightly") keep_policy keep_world in
  let started := HandleStartManaged 4 0 Background acquired.2 in
  exists c w', started.1 = Ok c /\ run 360 0 c.1 started.2 = (None, w') /\
    now0 + Hour <= (d_fixture (w_env w')).1.
Proof.
  intros env acquired started.
  pose (Hd := singleton_distinct Postgres.digest "jobs/nightly").
  destruct (@managed_keeps_lease tables _ (postgres_backend keep_keys Hd) (postgres_serving keep_keys Hd)
    (postgres_fixture Millisecond) Millisecond
    (postgres_healthy keep_keys Hd Millisecond ltac:(vm_compute; discriminate))
    (fun _ => WrapS ErrBackendUnavailable "postgres") (MkKey "jobs/nightly") keep_policy 0 4 360 keep_world)
    as (h & c & cancel & h' & w' & _ & _ & H1 & H2 & _ & _ & _ & _ & H3 & _).
  - split; [exact keep_policy_valid|..]; [reflexivity|vm_compute; split; discriminate|vm_compute; discriminate
      |vm_compute; split; [discriminate|reflexivity]|reflexivity||discriminate| |vm_compute; reflexivity|discriminate].
    intros d [t db]. unfold postgres_fixture, Add. simpl. lia.
  - reflexivity.
  - split; [vm_compute; split; [reflexivity|discriminate]|reflexivity].
  - intros H. inversion H.
  - vm_compute. discriminate.
  - reflexivity.
  - split; [exact db0_wf|]. split; [vm_compute; discriminate|]. apply elem_of_singleton. reflexivity.
  - intros (r & Hr & _). vm_compute in Hr. discriminate Hr.
  - exists (c, cancel), w'. split; [exact H1|]. split; [exact H2|].
    eapply Z.le_trans; [|exact H3]. vm_compute. discriminate.
Defined.
