(* ===== verification/Examples.v ===== *)
(** * examples/postgres and examples/valkey: a client over a server

    The two example programs, composed of the client, the handle and a store: connect,
    acquire, announce, and the deferred calls, release before close. They run in the
    world of [Driven], so in particular over the PostgreSQL and Valkey stores of
    [Fixtures]; over every healthy fixture they end with the key free again. A closed
    driver answers no request: the order of the deferred calls matters. *)

From S2P Require Import Prelude GoBase GoStrings Strconv Errors LeaseKey LeasePolicy Backend Serving.
From S2P Require Import Native ValkeyServer Valkey Inspect Postgres PostgresServing Conformance Fixtures Handle.
From S2P Require Import Runtime Client Schedule Managed Driven.

(** ** The programs *)

(** What a program shows: lines of the log, and its end by [log.Fatal] or by a panic. *)
Inductive event := Logged (line : string) | Fatal (line : string) | Panicked.

Section Programs.
Context {E : Type} `{!Env E}.
(** [Close] of the pool or the client of the driver. *)
Variable Close : M (World E) ().

(** A deferred call, with what it logs, and the deferred calls of a function when it
    returns: the last one first. [log.Fatal] exits the process and runs none. *)
Abbreviation deferred := (M (World E) (list event)) (only parsing).

Fixpoint run_defers (defers : list deferred) : deferred :=
  match defers with
  | [] => mret []
  | call :: earlier =>
      logged ← call;
      more ← run_defers earlier;
      mret (logged ++ more)%list
  end.

Definition deferClose : deferred := _ ← Close; mret [].
Definition deferRelease (id : nat) : deferred :=
  released ← HandleRelease id (WithoutCancel Background);
  mret (match released with
        | Some err => [Logged ("release outcome: " ++ ErrorText err)]
        | None => []
        end).

(** [PolicyOptions] of both programs. *)
Definition program_options : PolicyOptions :=
  MkOptions (30 * Second) 0 (100 * Millisecond) 0 0 0 1 0 0.

(** From the acquisition to the end, with the calls deferred so far; [announce] is the
    line printed about the handle. *)
Definition session (defers : list deferred) (key : Key) (p : Policy) (announce : Handle -> string) :
    M (World E) (list event) :=
  handle ← Client.TryAcquire (Some Background) key p;
  match handle with
  | Err err => mret [Fatal (ErrorText err)]
  | Ok id =>
      let defers := deferRelease id :: defers in
      line ← onHandle id (fun h => (announce h, h)) "";
      ended ← run_defers defers;
      mret (Logged line :: ended)
  end.

(** The common body: [connected] is the error of the driver's constructor, [opened] that
    of the store's. *)
Definition example_main (connected opened : err_opt) (name : string) (announce : Handle -> string) :
    M (World E) (list event) :=
  match connected with
  | Some err => mret [Fatal (ErrorText err)]
  | None =>
      let defers := [deferClose] in
      match opened with
      | Some err => mret [Fatal (ErrorText err)]
      | None =>
          let leases := NewClient true (MkClientOptions 0 0) in
          let key := default (MkKey "") (ok_value (NewKey "examples" name)) in
          let policy := default zero_policy (ok_value (NewPolicy program_options)) in
          if negb (is_ok leases)
          then ended ← run_defers defers; mret (ended ++ [Panicked])%list
          else session defers key policy announce
      end
  end.

Definition error_of {A} (r : res A) : err_opt := match r with Ok _ => None | Err e => Some e end.

(** [main] of examples/postgres and of examples/valkey. *)
Definition postgres_main (connected : err_opt) : M (World E) (list event) :=
  example_main connected (error_of (Postgres.New true)) "postgres" (fun _ => "acquired fenced lease").
Definition valkey_main (connected : err_opt) : M (World E) (list event) :=
  example_main connected (error_of (NewStore true "example-leases")) "valkey"
    (fun h => "acquired fence " ++ FormatUint (Token h)).
End Programs.

(** The error of a request on a closed or unreachable server. *)
Definition unreachable (_ : call) : error := WrapS ErrBackendUnavailable "driver".

Example examples_run :
  let pg := MkWorld (MkDriven (now0, MkTables ∅ ∅) "owner" 0 [] false) [] 0 0 in
  let vk := MkWorld (MkDriven (now0, ∅ : db) "owner" 0 [] false) [] 0 0 in
  let pg_env := driven_env (postgres_fixture Millisecond) fst unreachable in
  let vk_env := driven_env (valkey_fixture "example-leases" Millisecond) fst unreachable in
  (postgres_main (Env0 := pg_env) driven_Close None pg).1 = [Logged "acquired fenced lease"] /\
  (valkey_main (Env0 := vk_env) driven_Close None vk).1 = [Logged "acquired fence 1"] /\
  (** Closed before the release, the driver would leave the lease behind. *)
  (run_defers [deferClose driven_Close; deferRelease (Env0 := pg_env) 0]
     (Client.TryAcquire (Env0 := pg_env) (Some Background) (MkKey "examples/postgres")
        (default zero_policy (ok_value (NewPolicy program_options))) pg).2).1 =
    [Logged "release outcome: lease driver: lease: backend unavailable"].
Proof. by vm_compute. Qed.

(** ** The programs over a healthy fixture *)

Section Healthy.
Context {S F : Type} `{!LeaseBackend S} `{!ServingBackend S}.
Context (fixture : BackendFixture F) (latency : Duration) `{!HealthyFixture fixture latency}.
Hypothesis latency_small : 0 <= latency <= 40 * Millisecond.
Hypothesis granularity_small : granularity <= 5 * Millisecond.
Variable key : Key.
Hypothesis key_valid : KeyString key <> "".

Context (broken : call -> error).

#[local] Hint Extern 0 (Env (Driven F)) => exact (driven_env fixture fx_now broken) : typeclass_instances.
#[local] Abbreviation view f := (key_view (fx_state f) (KeyString key)).
#[local] Abbreviation fix_of w := (d_fixture (w_env w)).

(** A request is answered within the latency. *)
Lemma call_latency c n f :
  usable fixture latency key (Datatypes.S n) f -> call_key c = KeyString key -> call_ok c ->
  (match c with CallTryAcquire _ _ ttl | CallRenew _ ttl => ttl <= Minute | _ => True end) ->
  fx_now (fx_Backend fixture c f).2 <= fx_now f + latency.
Proof.
  intros (_ & _ & Hr) Hk Hok Httl. rewrite <- Hk in Hr. pose proof (fx_serves c f n Hr Hok Httl) as H.
  destruct (fx_Backend fixture c f) as [r f']. apply H.
Qed.

(** The release of the holder leaves the key free. *)
Lemma release_frees rec m n :
  record_ok rec -> r_Key rec = key ->
  passes (holding fixture latency key rec (Datatypes.S m) (Datatypes.S n)) (method fixture (CallRelease rec))
    (fun out f => out.2 = None /\ holder (view f) = None /\ r_Token rec <= fence (view f)).
Proof.
  intros Hok Hk.
  eapply (call_passes fixture latency key key_valid); [by rewrite <- Hk|done|done|by intros f [H _]|].
  intros f r f' now Hh (Hwf & Hroom & _) Hu Hnow Hlat Hs.
  pose proof (release_granted now (fx_now f') rec (fx_state f) r (fx_state f') n) as H.
  cbv zeta in H. rewrite Hk in H. destruct H as [-> Hv]; try done.
  { eapply (holding_presents fixture latency latency_small key); [done|done|lia|lia]. }
  rewrite Hv. simpl. split_and!; [done|done|]. by destruct Hh as (_ & _ & ? & _).
Qed.

(** The policy of the programs. *)
Definition example_policy : Policy := default zero_policy (ok_value (NewPolicy program_options)).

Lemma example_policy_durations : ttl example_policy = 30 * Second /\ operationTimeout example_policy = 30 * Second.
Proof. by vm_compute. Qed.

(** A free key: acquired, announced, released. *)
Lemma session_acquires p announce (w : World (Driven F)) :
  Second <= ttl p <= Minute -> Second <= operationTimeout p ->
  d_closed (w_env w) = false -> owner_ok (d_owner (w_env w)) ->
  usable fixture latency key 2 (fix_of w) -> ~ lingers granularity (fx_now (fix_of w)) (view (fix_of w)) ->
  let out := session [deferClose driven_Close] key p announce w in
  exists rec, let h := newHandleAt p rec (fx_now (fix_of w)) (fx_now (fix_of w)) in
    out.1 = [Logged (announce h)] /\ d_closed (w_env out.2) = true /\
    w_handles out.2 = (w_handles w ++ [set_state StateReleased h])%list /\
    fence (view (fix_of w)) < r_Token rec <= fence (view (fix_of out.2)) /\
    holder (view (fix_of out.2)) = None.
Proof.
  intros Httl Hop Hopen Ho Hu Hn out.
  assert (Hacqlat : fx_now (fx_Backend fixture (CallTryAcquire key (d_owner (w_env w)) (ttl p)) (fix_of w)).2 <= fx_now (fix_of w) + latency)
    by (eapply call_latency; [done|done|split_and!; done || durations|apply Httl]).
  destruct (acquire_passes fixture latency key key_valid (d_owner (w_env w)) (ttl p) (fence (view (fix_of w))) 1 1
    Ho ltac:(durations) ltac:(durations) (fix_of w))
    as (res & f' & Eout & Hnil & Hh & Hok & Hk & Hown & Htok); [done|].
  apply method_reply in Eout as (r & Ecall & ->). apply outcome_record in Hnil; [|done].
  destruct r as [rec| |]; [|done..]. clear Hnil. cbn [outcome fst] in *.
  assert (Hv : validAcquisition key (d_owner (w_env w)) rec = true).
  { unfold validAcquisition, After. rewrite Hk, Hown, !String.eqb_refl. destruct Hok as (_ & _ & Ht).
    destruct Hh as (_ & _ & _ & _ & Hae & _). apply Z.ltb_lt in Hae as ->.
    by destruct (Z.eqb_spec (r_Token rec) 0); [lia|]. }
  exists rec. set (h := newHandleAt p rec (fx_now (fix_of w)) (fx_now (fix_of w))). simpl.
  set (id := length (w_handles w)).
  set (w1 := set_handles (w_handles w ++ [h])%list (moved f' w)).
  assert (Hacq : Client.TryAcquire (Some Background) key p w = (Ok id, w1)).
  { rewrite (TryAcquire_runs fixture latency broken key p w Hopen (proj1 Ho)) by durations. rewrite Ecall.
    cbn [reply_res fst snd]. by rewrite grant_valid. }
  destruct (release_frees rec 0 0 Hok Hk f' Hh) as (res & f2 & Erel & Hnil & Hfree & Hfen).
  apply method_reply in Erel as (r2 & Ecall2 & ->).
  assert (Hlook : w_handles w1 !! id = Some h) by (by apply list_lookup_middle).
  assert (Hrellat : fx_now (fx_Backend fixture (CallRelease rec) f').2 <= fx_now f' + latency)
    by (eapply call_latency; [apply Hh|simpl; congruence|done|done]).
  pose proof (HandleRelease_runs fixture latency broken id h w1 Hlook eq_refl eq_refl Hopen) as Hrel. cbv zeta in Hrel.
  change (record h) with rec in Hrel. change (fix_of w1) with f' in Hrel. rewrite Ecall2 in Hrel.
  rewrite Ecall2 in Hrellat. cbn [fst snd] in Hrel, Hrellat. change (policy h) with p in Hrel.
  specialize (Hrel ltac:(durations) ltac:(durations)).
  assert (Hno : reply_err r2 = None) by (by destruct r2). rewrite Hno in Hrel.
  assert (Hon : onHandle id (fun h => (announce h, h)) "" w1 = (announce h, w1)).
  { unfold onHandle. rewrite Hlook. f_equal. unfold set_handles, w1. simpl. f_equal.
    by rewrite list_insert_id. }
  assert (Eout : out = ([Logged (announce h)],
    (driven_Close (set_handles (<[id := set_state StateReleased h]> (w_handles w1)) (moved f2 w1))).2)).
  { unfold out, session, deferRelease. rewrite (bind_step _ _ _ _ _ Hacq). cbv iota beta.
    rewrite (bind_step _ _ _ _ _ Hon). simpl run_defers. rewrite !M_bind_eq, Hrel. done. }
  rewrite Eout. simpl. split_and!; try done.
  - unfold id. by rewrite insert_app_r_alt, Nat.sub_diag by lia.
Qed.

(** A key that somebody else holds for longer than the call takes: the program ends at
    once, and leaves the holder alone. *)
Lemma session_contended p announce (w : World (Driven F)) r0 :
  Second <= ttl p <= Minute -> Second <= operationTimeout p ->
  d_closed (w_env w) = false -> owner_ok (d_owner (w_env w)) ->
  usable fixture latency key 2 (fix_of w) ->
  holder (view (fix_of w)) = Some r0 -> fx_now (fix_of w) + latency < r_ExpiresAt r0 ->
  let out := session [deferClose driven_Close] key p announce w in
  exists e, out.1 = [Fatal (ErrorText e)] /\ Is e ErrContended = true /\
    d_closed (w_env out.2) = false /\ holder (view (fix_of out.2)) = Some r0.
Proof.
  intros Httl Hop Hopen Ho (Hwf & Hroom & Hready) Hr0 Hx out.
  assert (Hok : call_ok (CallTryAcquire key (d_owner (w_env w)) (ttl p))) by (split_and!; done || durations).
  pose proof (fx_serves (CallTryAcquire key (d_owner (w_env w)) (ttl p)) (fix_of w) 1 Hready Hok (proj2 Httl)) as Hs.
  pose proof (TryAcquire_runs fixture latency broken key p w Hopen (proj1 Ho) ltac:(durations)) as Hrun. cbv zeta in Hrun.
  destruct (fx_Backend fixture _ (fix_of w)) as [r f'] eqn:Ecall. destruct Hs as (_ & Hlat & now & Hnow & Hs).
  destruct (acquire_contended now (fx_now f') key (d_owner (w_env w)) (ttl p) (fx_state (fix_of w)) r (fx_state f') 1)
    as ((e & -> & He) & Hh & _); [done|done|done|done| |].
  { exists r0. split; [done|]. pose proof (serves_time _ _ _ _ _ _ Hs). lia. }
  cbn [reply_res fst snd] in Hrun. specialize (Hrun ltac:(durations)).
  exists e. unfold out, session. rewrite (bind_step _ _ _ _ _ Hrun).
  simpl. by rewrite Hh.
Qed.
End Healthy.

(** ** Property *)

(** C40: the example programs work. Over any serving backend reached within forty
    milliseconds, no error is dropped by the discarded results of [NewClient], [NewKey]
    and [NewPolicy]. When the key is free the program takes a new, higher fence, prints
    its line (the Valkey program the fence, the PostgreSQL program a fixed text) and
    nothing about the release, because the deferred release runs before the deferred
    close of the driver: the key is free again with the fence retained, and the driver
    closed. When somebody else holds the key the program ends with the contention
    error, leaving the holder in place and the driver open, as [log.Fatal] runs no
    deferred call; and when the driver cannot connect it ends with that error, before
    any backend call. *)
Theorem driver_examples_run {S F} `{!LeaseBackend S} `{!ServingBackend S} (fixture : BackendFixture F) latency
    `{!HealthyFixture fixture latency} broken (program : err_opt -> M (World (Driven F)) (list event))
    key announce (w : World (Driven F)) :
  let _ := driven_env fixture fx_now broken in
  let f := d_fixture (w_env w) in
  let view f := key_view (fx_state f) (KeyString key) in
  0 <= latency <= 40 * Millisecond -> granularity <= 5 * Millisecond ->
  (program = postgres_main driven_Close /\ key = MkKey "examples/postgres" /\
   announce = (fun _ => "acquired fenced lease")) \/
  (program = valkey_main driven_Close /\ key = MkKey "examples/valkey" /\
   announce = (fun h => "acquired fence " ++ FormatUint (Token h))) ->
  d_closed (w_env w) = false -> owner_ok (d_owner (w_env w)) -> usable fixture latency key 2 f ->
  let out := program None w in
  (~ lingers granularity (fx_now f) (view f) ->
     exists rec, out.1 = [Logged (announce (newHandleAt example_policy rec (fx_now f) (fx_now f)))] /\
       fence (view f) < r_Token rec <= fence (view (d_fixture (w_env out.2))) /\
       holder (view (d_fixture (w_env out.2))) = None /\ d_closed (w_env out.2) = true) /\
  (forall r0, holder (view f) = Some r0 -> fx_now f + latency < r_ExpiresAt r0 ->
     exists e, out.1 = [Fatal (ErrorText e)] /\ Is e ErrContended = true /\
       holder (view (d_fixture (w_env out.2))) = Some r0 /\ d_closed (w_env out.2) = false) /\
  (forall e, program (Some e) w = ([Fatal (ErrorText e)], w)).
Proof.
  intros E f view Hlat Hgran Hprog Hopen Ho Hu out.
  assert (Hp : Second <= ttl example_policy <= Minute /\ Second <= operationTimeout example_policy).
  { destruct example_policy_durations as [-> ->]. durations. }
  assert (Hsess : out = session [deferClose driven_Close] key example_policy announce w /\ KeyString key <> "" /\
    forall e, program (Some e) w = ([Fatal (ErrorText e)], w)).
  { unfold out. by destruct Hprog as [(-> & -> & ->)|(-> & -> & ->)]. }
  destruct Hsess as (Hout & Hkey & Hfatal). rewrite Hout. split_and!; [| |done].
  - intros Hn. destruct (session_acquires fixture latency Hlat Hgran key Hkey broken example_policy announce w)
      as (rec & H1 & H2 & _ & H3 & H4); try apply Hp; try done. by exists rec.
  - intros r0 Hr0 Hx. destruct (session_contended fixture latency Hlat key Hkey broken example_policy announce w r0)
      as (e & H1 & H2 & H3 & H4); try apply Hp; try done. by exists e.
Qed.

(** examples/postgres on new tables, with answers after a millisecond. *)
Definition example_keys : gset string := {["examples/postgres"]}.
Definition example_world : World (Driven (Time * tables)) :=
  MkWorld (MkDriven (now0, MkTables ∅ ∅) "owner" 0 [] false) [] 0 0.

Lemma driver_examples_run_witness :
  let _ := driven_env (postgres_fixture Millisecond) fst unreachable in
  let out := postgres_main driven_Close None example_world in
  out.1 = [Logged "acquired fenced lease"] /\ d_closed (w_env out.2) = true /\
  holder (postgres_view example_keys (d_fixture (w_env out.2)).2 "examples/postgres") = None.
Proof.
  intros E out.
  pose (Hd := singleton_distinct Postgres.digest "examples/postgres").
  destruct (@driver_examples_run tables _ (postgres_backend example_keys Hd) (postgres_serving example_keys Hd)
    (postgres_fixture Millisecond) Millisecond
    (postgres_healthy example_keys Hd Millisecond ltac:(vm_compute; discriminate)) unreachable
    (postgres_main driven_Close) (MkKey "examples/postgres") (fun _ => "acquired fenced lease") example_world) as [Hfree _].
  - vm_compute. split; discriminate.
  - vm_compute. discriminate.
  - left. split; [reflexivity|]. split; reflexivity.
  - reflexivity.
  - split; [vm_compute; split; [reflexivity|discriminate]|reflexivity].
  - split; [exact db0_wf|]. split; [vm_compute; discriminate|]. apply elem_of_singleton. reflexivity.
  - destruct Hfree as (rec & H1 & _ & H2 & H3); [|exact (conj H1 (conj H3 H2))].
    intros (r & Hr & _). vm_compute in Hr. discriminate Hr.
Defined.
