(* ===== verification/Guard.v ===== *)
(** * internal/guard, adapters/queue and adapters/scheduler: work under a lease

    [guard.Run] acquires a key, runs a callback with the fence while a renewer and a
    watcher run beside it, then joins them and releases. The callback is a task of
    arbitrary slices on the world; between two slices the schedule says how many
    rounds the renewer completes and whether the watcher gets to act. The queue
    worker and the scheduler coordinator call it with their tasks. *)

From S2P Require Import Prelude GoBase GoStrings Errors LeaseKey LeasePolicy Backend Memory Handle Runtime Simulation Client Managed.

(** A callback in progress: it has returned, or it changes the world and goes on. *)
Inductive Task (E : Type) :=
| Return (err : err_opt)
| Slice (act : World E -> World E) (next : World E -> Task E).
Arguments Return {_} _.
Arguments Slice {_} _ _.

(** What the other goroutines do before a slice: rounds of the renewer, and whether
    the watcher of the loss channel runs. *)
Record turn := MkTurn { rounds : nat; watch : bool }.
Definition no_turn : turn := MkTurn 0 false.

(** [managed] and [losses] of [Run]: the renewer's context and cancel function, its
    exit once its goroutine has ended, and whether the watcher has seen it. *)
Record renewer := MkRenewer {
  rn_ctx : Context;
  rn_cancel : nat;
  rn_exit : option (option Loss);
  rn_seen : bool
}.
Definition set_exit (x : option (option Loss)) (r : renewer) : renewer :=
  MkRenewer (rn_ctx r) (rn_cancel r) x (rn_seen r).

(** The value the watcher sends for a loss. *)
Definition lossError (l : Loss) : err_opt := Join [Some (Sentinel ErrLost); Some (l_Err l)].

Section Guard.
Context {E : Type} `{!Env E}.

(** The renewer of handle [id], for some rounds unless it has ended. *)
Definition renewOn (n : nat) (id : nat) (r : renewer) : M (World E) renewer :=
  match rn_exit r with
  | Some _ => mret r
  | None =>
      x ← run n id (rn_ctx r);
      mret (set_exit x r)
  end.

(** The watcher goroutine: a received loss cancels the child context, once. *)
Definition watchLoss (cancel : nat) (r : renewer) : M (World E) renewer :=
  match rn_exit r with
  | Some (Some _) =>
      if rn_seen r then mret r
      else
        _ ← ctx_Cancel cancel;
        mret (MkRenewer (rn_ctx r) (rn_cancel r) (rn_exit r) true)
  | _ => mret r
  end.

Definition takeTurn (t : turn) (cancel id : nat) (r : option renewer) : M (World E) (option renewer) :=
  match r with
  | None => mret None
  | Some r =>
      r1 ← renewOn (rounds t) id r;
      r2 ← (if watch t then watchLoss cancel r1 else mret r1);
      mret (Some r2)
  end.

(** The callback, with the other goroutines taking their turns. *)
Fixpoint runTask (t : Task E) (schedule : list turn) (cancel id : nat) (r : option renewer) :
    M (World E) (err_opt * option renewer) :=
  match t with
  | Return err => mret (err, r)
  | Slice act next =>
      r' ← takeTurn (hd no_turn schedule) cancel id r;
      (fun w => runTask (next w) (tl schedule) cancel id r' (act w)) :
        M (World E) (err_opt * option renewer)
  end.

(** [release]: the context is detached from the caller's cancellation. *)
Definition release (ctx : Context) (id : nat) (p : Policy) : M (World E) err_opt :=
  releaseContext ← withTimeout (WithoutCancel ctx) (ttl p);
  HandleRelease id releaseContext.

(** The renewer that [Run] starts when the policy enables renewal. *)
Definition startRenewer (client : Client) (p : Policy) (runContext : Context) (id : nat) :
    M (World E) (res (option renewer)) :=
  if 0 <? renewEvery p
  then
    started ← HandleStartManaged (managedSlots client) id runContext;
    mret (match started with
          | Err e => Err e
          | Ok (ctx, cancel) => Ok (Some (MkRenewer ctx cancel None false))
          end)
  else mret (Ok None).

(** Joining the renewer and its watcher after the callback: [Managed.Stop] under a
    context that is never done, then the receive from [losses]. [None] when the
    renewer has not ended after [fuel] more rounds, and [Run] waits on. *)
Definition joinRenewer (fuel cancel id : nat) (r : option renewer) (callbackErr : err_opt) :
    M (World E) (option err_opt) :=
  match r with
  | None => mret (Some callbackErr)
  | Some r =>
      _ ← ctx_Cancel (rn_cancel r);
      r1 ← renewOn fuel id r;
      match rn_exit r1 with
      | None => mret None
      | Some x =>
          _ ← watchLoss cancel r1;
          let stopped := Join [callbackErr; None] in
          mret (Some (match x with
                      | Some l => Join [stopped; lossError l]
                      | None => stopped
                      end))
      end
  end.

(** [guard.Run] once the handle is acquired: the handle's token is read when the
    callback is called, and the child context is canceled again by the deferred call. *)
Definition runAcquired (fuel : nat) (schedule : list turn) (ctx : Context) (client : Client)
    (p : Policy) (callback : Context -> Z -> Task E) (id : nat) : M (World E) (option err_opt) :=
  child ← withCancel ctx;
  let '(runContext, cancel) := child in
  started ← startRenewer client p runContext id;
  match started with
  | Err err =>
      releaseErr ← release ctx id p;
      _ ← ctx_Cancel cancel;
      mret (Some (Join [Some err; releaseErr]))
  | Ok r =>
      token ← onHandle id (fun h => (Token h, h)) 0;
      ended ← runTask (callback runContext token) schedule cancel id r;
      let '(callbackErr, r') := ended in
      _ ← ctx_Cancel cancel;
      joined ← joinRenewer fuel cancel id r' callbackErr;
      match joined with
      | None => mret None
      | Some err =>
          releaseErr ← release ctx id p;
          _ ← ctx_Cancel cancel;
          mret (Some (Join [err; releaseErr]))
      end
  end.

(** [guard.Run]. *)
Definition Run (fuel : nat) (schedule : list turn) (ctx : Context) (client : Client) (p : Policy)
    (key : Key) (callback : Context -> Z -> Task E) : M (World E) (option err_opt) :=
  acquired ← Acquire fuel client (Some ctx) key p;
  match acquired with
  | None => mret None
  | Some (Err err) => mret (Some (Some err))
  | Some (Ok id) => runAcquired fuel schedule ctx client p callback id
  end.
End Guard.

(** ** The adapters *)

Section Adapters.
Context {E : Type} `{!Env E}.

(** [leasequeue.Worker]; the inner worker and the key function are the caller's. *)
Record Worker (T : Type) := MkWorker {
  wk_inner : Context -> T -> Task E;
  wk_client : Client;
  wk_policy : Policy;
  wk_key : T -> res Key
}.
Arguments MkWorker {_} _ _ _ _.
Arguments wk_inner {_} _.
Arguments wk_client {_} _.
Arguments wk_policy {_} _.
Arguments wk_key {_} _.

(** [NewWorker]; nil arguments are [None]. *)
Definition NewWorker {T} (inner : option (Context -> T -> Task E)) (client : option Client)
    (p : Policy) (key : option (T -> res Key)) : res (Worker T) :=
  match inner, client, key with
  | Some i, Some c, Some k => Ok (MkWorker i c p k)
  | _, _, _ => Err (WrapS ErrInvalidState "queue worker")
  end.

(** [Worker.Run]. *)
Definition WorkerRun {T} (fuel : nat) (schedule : list turn) (worker : Worker T) (ctx : Context)
    (task : T) : M (World E) (option err_opt) :=
  match wk_key worker task with
  | Err err => mret (Some (Some (Errorf "queue lease key: " err "")))
  | Ok key =>
      Run fuel schedule ctx (wk_client worker) (wk_policy worker) key
        (fun callbackContext token => wk_inner worker (WithToken callbackContext token) task)
  end.

(** [TokenFromContext]; [outer] gives the values that the caller's own contexts carry. *)
Fixpoint TokenFromContext (outer : nat -> option Z) (ctx : Context) : option Z :=
  match ctx with
  | Background => None
  | CallerContext id => outer id
  | WithToken _ token => Some token
  | WithDeadline parent _ | WithCancel parent _ | WithoutCancel parent =>
      TokenFromContext outer parent
  end.

(** [leasescheduler.Coordinator]. *)
Record Coordinator := MkCoordinator { co_client : Client; co_policy : Policy }.

(** [leasescheduler.New]. *)
Definition NewCoordinator (client : option Client) (p : Policy) : res Coordinator :=
  match client with
  | None => Err (WrapS ErrInvalidState "scheduler coordinator")
  | Some c => Ok (MkCoordinator c p)
  end.

(** [OnOneServer], and [WithoutOverlapping], its alias. *)
Definition OnOneServer (fuel : nat) (schedule : list turn) (coordinator : Coordinator)
    (ctx : Context) (key : Key) (task : option (Context -> Z -> Task E)) :
    M (World E) (option err_opt) :=
  match task with
  | None => mret (Some (Some (WrapS ErrInvalidState "scheduler task")))
  | Some t => Run fuel schedule ctx (co_client coordinator) (co_policy coordinator) key t
  end.
Definition WithoutOverlapping := OnOneServer.
End Adapters.
Arguments MkWorker {_ _} _ _ _ _.
Arguments wk_inner {_ _} _.
Arguments wk_client {_ _} _.
Arguments wk_policy {_ _} _.
Arguments wk_key {_ _} _.

(** ** What Run does to the handle it acquired *)

(** The slices of a callback do not touch the client: it is given a context and a
    token, not the handle. *)
Fixpoint quiet {E} (t : Task E) : Prop :=
  match t with
  | Return _ => True
  | Slice act next => forall w, same_client w (act w) /\ quiet (next w)
  end.

(** An error with which the callback can return, in some course of events. *)
Fixpoint may_return {E} (t : Task E) (e : err_opt) : Prop :=
  match t with
  | Return err => err = e
  | Slice _ next => exists w, may_return (next w) e
  end.

Section Closing.
Context {E : Type} `{!Env E} `{!KeepsClient (E:=E)}.

(** Idle, and managed at most while the renewer has not ended. *)
Definition under (r : option renewer) (h : Handle) : Prop :=
  busy h = false /\
  match r with Some (MkRenewer _ _ None _) => True | _ => managed h = false end.

(** Idle and left by its renewer. *)
Definition left_alone (h : Handle) : Prop := busy h = false /\ managed h = false.

Lemma run_leaves n id ctx :
  triple (has (E:=E) id (fun h => busy h = false)) (run n id ctx)
    (fun o => has id (fun h => busy h = false /\ (o <> None -> managed h = false))).
Proof.
  unfold run. eapply triple_bind; [apply renewalLoop_reports|]. intros [exit|]; simpl.
  2:{ apply triple_ret. intros w. apply has_weaken. intros h [Hb _]. done. }
  intros w (h & Hh & Hb & _). rewrite M_bind_eq, (runExit_eq _ _ _ Hh). simpl.
  exists (set_managed false h). split; [|done]. simpl.
  apply list_lookup_insert_eq. by eapply lookup_lt_Some.
Qed.

Lemma renewOn_under n id r :
  triple (has (E:=E) id (under (Some r))) (renewOn n id r) (fun r' => has id (under (Some r'))).
Proof.
  unfold renewOn. destruct r as [c k [x|] s]; simpl; [by apply triple_ret|].
  eapply triple_bind.
  { eapply triple_conseq; [apply run_leaves| |done]. intros w. apply has_weaken. by intros h [Hb _]. }
  intros x. apply triple_ret. intros w. apply has_weaken. intros h [Hb Hm].
  split; [done|]. simpl. destruct x; [by apply Hm|done].
Qed.

Lemma watchLoss_has cancel id Φ r :
  triple (has (E:=E) id Φ) (watchLoss cancel r) (fun _ => has id Φ).
Proof.
  unfold watchLoss. destruct r as [c k [[l|]|] []]; simpl; try by apply triple_ret.
  eapply triple_bind; [apply env_has, kc_canceled|]. intros u. by apply triple_ret.
Qed.

Lemma watchLoss_under cancel id r :
  triple (has (E:=E) id (under (Some r))) (watchLoss cancel r) (fun r' => has id (under (Some r'))).
Proof.
  unfold watchLoss. destruct r as [c k [[l|]|] []]; simpl; try by apply triple_ret.
  eapply triple_bind; [apply env_has, kc_canceled|]. intros u. by apply triple_ret.
Qed.

Lemma takeTurn_under t cancel id r :
  triple (has (E:=E) id (under r)) (takeTurn t cancel id r) (fun r' => has id (under r')).
Proof.
  unfold takeTurn. destruct r as [r|]; [|by apply triple_ret].
  eapply triple_bind; [apply renewOn_under|]. intros r1. simpl.
  apply (triple_bind _ (fun r2 => has id (under (Some r2)))); [|intros r2; by apply triple_ret].
  destruct (watch t); [apply watchLoss_under|by apply triple_ret].
Qed.

Lemma runTask_under t : forall schedule cancel id r, quiet t ->
  triple (has (E:=E) id (under r)) (runTask t schedule cancel id r)
    (fun o w => has id (under o.2) w /\ may_return t o.1).
Proof.
  induction t as [err|act next IH]; intros schedule cancel id r Hq; simpl runTask.
  { by apply triple_ret. }
  eapply triple_bind; [apply takeTurn_under|]. intros r' w Hw. simpl.
  destruct (Hq w) as [Hk Hn].
  destruct (IH w (tl schedule) cancel id r' Hn (act w)) as [H1 H2].
  - destruct Hw as (h & Hh & HΦ). destruct Hk as [Hk _]. exists h. by rewrite Hk.
  - split; [done|by exists w].
Qed.
(** Closed for good, and released when there is no error. *)
Definition closed (o : err_opt) (h : Handle) : Prop :=
  left_alone h /\ state h <> StateActive /\ (o = None -> state h = StateReleased).

Lemma beginRelease_closes h :
  left_alone h ->
  match (beginRelease h).1 with
  | inl e => closed e (beginRelease h).2
  | inr _ => managed (beginRelease h).2 = false
  end.
Proof.
  intros [Hb Hm]. unfold beginRelease, closed, left_alone. rewrite Hb.
  destruct (state h) eqn:Hs; simpl; rewrite ?Hs; done.
Qed.

Lemma finishRelease_closes err h :
  managed h = false -> closed (finishRelease err h).1 (finishRelease err h).2.
Proof.
  intros Hm. unfold finishRelease, closed, left_alone. destruct err as [e|]; simpl; [|done].
  destruct (failLocked_frame e (set_busy false h)) as (_ & -> & ->).
  split_and!; try done. apply failLocked_not_active.
Qed.

Lemma HandleRelease_closes id ctx :
  triple (has (E:=E) id left_alone) (HandleRelease id ctx) (fun o => has id (closed o)).
Proof.
  unfold HandleRelease. eapply triple_bind.
  { apply (onHandle_has id beginRelease _ _
      (fun o h => match o with inl e => closed e h | inr _ => managed h = false end)).
    apply beginRelease_closes. }
  intros [e|rec]; [by apply triple_ret|]. simpl.
  eapply triple_bind; [apply policyOf_has|]. intros p. simpl.
  eapply triple_bind; [apply withTimeout_has|]. intros opCtx. simpl.
  eapply triple_bind; [apply env_has, kc_release|]. intros err. simpl.
  apply onHandle_has. intros h [Hm _]. by apply finishRelease_closes.
Qed.

(** The release of [Run] and its deferred cancellation, joined to an earlier error. *)
Lemma release_closes ctx id p cancel (err : err_opt) :
  triple (has (E:=E) id left_alone)
    (releaseErr ← release ctx id p; _ ← ctx_Cancel cancel; mret (Some (Join [err; releaseErr])))
    (fun o w => exists result, o = Some result /\ has id (closed result) w /\
       (result = None -> err = None)).
Proof.
  unfold release. eapply triple_bind.
  { eapply triple_bind; [apply withTimeout_has|]. intros rctx. apply HandleRelease_closes. }
  intros releaseErr. simpl. eapply triple_bind; [apply env_has, kc_canceled|]. intros u.
  apply triple_ret. intros w Hw. eexists. split; [done|].
  assert (Hj : Join [err; releaseErr] = None -> err = None /\ releaseErr = None).
  { intros H. apply Join_None in H. by inversion H as [|? ? ? H2]; inversion H2. }
  split; [|tauto]. revert Hw. apply has_weaken. intros h (Hl & Hs & Hr).
  split_and!; try done. intros Hn. apply Hr. tauto.
Qed.

(** Starting the renewer keeps record and idleness; a refusal leaves no renewer. *)
Lemma StartManaged_keeps now wall slot h :
  let o := StartManaged now wall slot h in
  busy o.2 = busy h /\ record o.2 = record h /\ (o.1 <> None -> managed o.2 = managed h).
Proof.
  destruct (StartManaged_frame now wall slot h) as ((_ & Hr & _) & Hb & _).
  split_and!; try done. unfold StartManaged.
  destruct (requireActiveLocked now wall h) as [[e|] h1] eqn:H;
    apply requireActive_frame in H as (-> & _);
    destruct (expireLocked_frame now wall h) as (_ & _ & Hm); [done|].
  repeat step_case; simpl; done.
Qed.

Lemma startRenewer_under client p rctx id rec :
  triple (has (E:=E) id (fun h => left_alone h /\ record h = rec)) (startRenewer client p rctx id)
    (fun o => has id (fun h => record h = rec /\
       match o with Ok r => under r h | Err _ => left_alone h end)).
Proof.
  unfold startRenewer. destruct (0 <? renewEvery p).
  2:{ apply triple_ret. intros w. apply has_weaken. intros h [[Hb Hm] Hr]. done. }
  unfold HandleStartManaged.
  apply (triple_bind _ (fun s => has id (fun h => record h = rec /\
    match s with Ok _ => busy h = false | Err _ => left_alone h end))).
  2:{ intros [[c k]|e]; apply triple_ret; intros w; apply has_weaken; intros h [Hr Hb]; done. }
  eapply triple_bind; [apply env_has, kc_clock|]. intros now. simpl.
  eapply triple_bind; [apply env_has, kc_time|]. intros wall. simpl.
  apply (triple_bind _ (fun e => has id (fun h => record h = rec /\
    match e with None => busy h = false | Some _ => left_alone h end))).
  - intros w (h & Hh & [Hb Hm] & Hr). unfold startSection. rewrite Hh.
    destruct (StartManaged_keeps now wall (w_managed w <? managedSlots client) h) as (H1 & H2 & H3).
    destruct (StartManaged now wall (w_managed w <? managedSlots client) h) as [e h'].
    simpl in *. exists h'. split.
    { destruct e; simpl; apply list_lookup_insert_eq; by eapply lookup_lt_Some. }
    unfold left_alone. destruct e; split; try congruence. rewrite H3 by done. naive_solver congruence.
  - intros [e|]; [by apply triple_ret|]. unfold withCancel.
    apply (triple_bind _ (fun _ => has id (fun h => record h = rec /\ busy h = false)));
      [|intros rn; by apply triple_ret].
    eapply triple_bind; [apply env_has, kc_cancel|]. intros k. by apply triple_ret.
Qed.

(** After the join the renewer has ended, and no error means that the callback
    returned none and no loss was reported. *)
Lemma joinRenewer_under fuel cancel id r e :
  triple (has (E:=E) id (under r)) (joinRenewer fuel cancel id r e)
    (fun o w => forall err, o = Some err -> has id left_alone w /\ (err = None -> e = None)).
Proof.
  unfold joinRenewer. destruct r as [r|].
  2:{ apply triple_ret. intros w Hw err [= <-]. done. }
  eapply triple_bind; [apply env_has, kc_canceled|]. intros u. simpl.
  eapply triple_bind; [apply renewOn_under|]. intros [c k [x|] s]; simpl; [|by apply triple_ret].
  eapply triple_bind; [apply watchLoss_has|]. intros r2. apply triple_ret.
  intros w Hw err Herr. split; [revert Hw; by apply has_weaken|]. simplify_eq.
  assert (Hj : Join [e; None] = None -> e = None) by (by destruct e).
  destruct x as [l|]; [|done]. by destruct e.
Qed.
(** What [Run] leaves of the handle, and what its success says of the callback. *)
Definition guarded (callback : Context -> Z -> Task E) (ctx : Context) (id : nat) (token : Z)
    (o : option err_opt) (w : World E) : Prop :=
  forall result, o = Some result -> has id (closed result) w /\
    (result = None -> exists cancel, may_return (callback (WithCancel ctx cancel) token) None).

Lemma runAcquired_guarded fuel schedule ctx client p callback id rec :
  (forall c token, quiet (callback c token)) ->
  triple (has (E:=E) id (fun h => left_alone h /\ record h = rec))
    (runAcquired fuel schedule ctx client p callback id)
    (guarded callback ctx id (r_Token rec)).
Proof.
  intros Hq. unfold runAcquired, withCancel.
  apply (triple_bind _ (fun child w => has id (fun h => left_alone h /\ record h = rec) w /\
    exists cancel, child = (WithCancel ctx cancel, cancel))).
  { eapply triple_bind; [apply env_has, kc_cancel|]. intros k. apply triple_ret. eauto. }
  intros [runContext cancel] w0 [Hw0 (? & [= -> <-])]. revert w0 Hw0.
  eapply triple_bind; [apply startRenewer_under|]. intros [r|err]; simpl.
  2:{ eapply triple_conseq; [apply release_closes| |].
      - intros w. apply has_weaken. tauto.
      - intros o w (result & -> & Hc & Hn) result' [= <-]. split; [done|].
        intros H. by apply Hn in H. }
  apply (triple_bind _ (fun token w => has id (under r) w /\ token = r_Token rec)).
  { intros w (h & Hh & Hr & Hu). unfold onHandle. rewrite Hh. simpl. split; [|by rewrite <- Hr].
    exists h. split; [|done]. simpl. apply list_lookup_insert_eq. by eapply lookup_lt_Some. }
  intros token w0 [Hw0 ->]. revert w0 Hw0.
  eapply triple_bind; [by apply runTask_under|]. intros [e r'] w0 [Hw0 Hmay]. simpl in *.
  revert w0 Hw0. eapply triple_bind; [apply env_has, kc_canceled|]. intros u. simpl.
  eapply triple_bind; [apply joinRenewer_under|]. intros [err|]; [|by apply triple_ret].
  intros w Hw. destruct (Hw err eq_refl) as [Hl He].
  destruct (release_closes ctx id p cancel err w Hl) as (result & Heq & Hc & Hn).
  intros result' Hres. simpl in Hres. rewrite Heq in Hres. simplify_eq. split; [done|].
  intros H. exists cancel. rewrite <- (He (Hn H)). done.
Qed.
(** The two ways in which [Run] returns. *)
Lemma Run_cases fuel schedule ctx client p key callback (w w' : World E) result :
  (forall c token, quiet (callback c token)) ->
  Run fuel schedule ctx client p key callback w = (Some result, w') ->
  let acquired := Acquire fuel client (Some ctx) key p w in
  (exists err, acquired.1 = Some (Err err) /\ result = Some err /\ w' = acquired.2) \/
  (exists id h0 h, acquired.1 = Some (Ok id) /\ w_handles acquired.2 !! id = Some h0 /\
     w_handles w' !! id = Some h /\ busy h = false /\ managed h = false /\
     state h <> StateActive /\
     (result = None -> state h = StateReleased /\
        exists cancel, may_return (callback (WithCancel ctx cancel) (Token h0)) None)).
Proof.
  intros Hq Hrun acquired. unfold Run in Hrun. rewrite M_bind_eq in Hrun. fold acquired in Hrun.
  pose proof (Acquire_granted client p (Some ctx) key fuel w) as Hg. fold acquired in Hg.
  clearbody acquired. destruct acquired as [[[id|err]|] w1]; simpl in *;
    [|rewrite M_ret_eq in Hrun; left; simplify_eq; by eauto|done].
  right. destruct (Hg id eq_refl) as (ow & rec & st & wst & _ & _ & _ & _ & _ & _ & _ & _ & _ & _ & Hh).
  destruct (runAcquired_guarded fuel schedule ctx client p callback id rec Hq w1 ltac:(by eexists)
    result) as [(h & Hl & (Hb & Hm) & Hs & Hr) Hn]; [by rewrite Hrun|].
  rewrite Hrun in Hl. exists id, (newHandleAt p rec st wst), h. naive_solver.
Qed.
End Closing.

(** A callback of two slices. *)
Definition two_slices (c : Context) (token : Z) : Task Sim :=
  Slice (fun w => w) (fun _ => Slice (fun w => w) (fun _ => Return None)).

(** ** Properties *)

(** C23: work under a lease ends with the lease closed. When [Run] returns, either the
    acquisition failed and its error is the result, or the acquired handle is idle,
    left by its renewer and closed to further work, whatever the callback, the
    renewer, the clocks and the backend did; and a nil result means that the backend
    acknowledged the release and that the callback itself, called with the fence of
    that handle, returned nil. *)
Theorem guard_closes_admission {E} `{!Env E} `{!KeepsClient (E:=E)} fuel schedule ctx client p key
    callback (w w' : World E) result :
  (forall c token, quiet (callback c token)) ->
  Run fuel schedule ctx client p key callback w = (Some result, w') ->
  let acquired := Acquire fuel client (Some ctx) key p w in
  (exists err, acquired.1 = Some (Err err) /\ result = Some err /\ w' = acquired.2) \/
  (exists id h0 h, acquired.1 = Some (Ok id) /\ w_handles acquired.2 !! id = Some h0 /\
     w_handles w' !! id = Some h /\ busy h = false /\ managed h = false /\
     state h <> StateActive /\
     (result = None -> state h = StateReleased /\
        exists cancel, may_return (callback (WithCancel ctx cancel) (Token h0)) None)).
Proof. apply Run_cases. Qed.

(** One turn of the renewer before each slice; the lease of 100 is renewed twice. *)
Lemma guard_closes_admission_witness :
  let o := Run 5 [MkTurn 1 true; MkTurn 1 true] Background client0 renew_policy k1 two_slices
             empty_world in
  o.1 = Some None /\ exists h, w_handles o.2 !! 0%nat = Some h /\ state h = StateReleased.
Proof.
  set (o := Run 5 [MkTurn 1 true; MkTurn 1 true] Background client0 renew_policy k1 two_slices
             empty_world).
  assert (Ho : o.1 = Some None) by (vm_compute; reflexivity).
  split; [exact Ho|].
  destruct (guard_closes_admission 5 [MkTurn 1 true; MkTurn 1 true] Background client0 renew_policy
    k1 two_slices empty_world o.2 None) as [(err & _ & H & _)|(id & h0 & h & H1 & _ & H2 & _ & _ & _ & H3)].
  - intros c token. repeat split.
  - vm_compute. reflexivity.
  - discriminate H.
  - assert (Hid : id = 0%nat) by (vm_compute in H1; congruence). subst id.
    exists h. split; [exact H2|exact (proj1 (H3 eq_refl))].
Defined.

(** C24: the adapters hand the fence to the work they guard. A key function that fails
    keeps the task from running; a nil task is refused; and when the queue worker
    reports success, the inner worker returned nil under a context from which
    [TokenFromContext] reads the fence of the handle that was acquired for the task's
    key, and that handle is released. *)
Theorem adapters_deliver_fence {E} `{!Env E} `{!KeepsClient (E:=E)} {T} fuel schedule
    (worker : Worker (E:=E) T) coordinator ctx task key outer (w : World E) :
  (forall c t, quiet (wk_inner worker c t)) ->
  (forall err, wk_key worker task = Err err ->
     WorkerRun fuel schedule worker ctx task w =
       (Some (Some (Errorf "queue lease key: " err "")), w)) /\
  OnOneServer fuel schedule coordinator ctx key None w =
    (Some (Some (WrapS ErrInvalidState "scheduler task")), w) /\
  (forall w', wk_key worker task = Ok key ->
     WorkerRun fuel schedule worker ctx task w = (Some None, w') ->
     exists id h0 h inner_ctx, w_handles w' !! id = Some h /\ state h = StateReleased /\
       w_handles (Acquire fuel (wk_client worker) (Some ctx) key (wk_policy worker) w).2 !! id = Some h0 /\
       KeyString (r_Key (record h0)) = KeyString key /\
       TokenFromContext outer inner_ctx = Some (Token h0) /\
       may_return (wk_inner worker inner_ctx task) None).
Proof.
  intros Hq. split; [|split]; [|done|].
  { intros err Hk. unfold WorkerRun. by rewrite Hk. }
  intros w' Hk Hrun. unfold WorkerRun in Hrun. rewrite Hk in Hrun.
  apply Run_cases in Hrun as [(err & _ & ? & _)|(id & h0 & h & Ha & Hh0 & Hh & _ & _ & _ & Hn)];
    [done| |intros; apply Hq].
  destruct (Hn eq_refl) as [Hs (cancel & Hm)].
  exists id, h0, h, (WithToken (WithCancel ctx cancel) (Token h0)). split_and!; try done.
  pose proof (Acquire_granted (wk_client worker) (wk_policy worker) (Some ctx) key fuel w) as Hg.
  destruct (Hg id Ha) as (ow & rec & st & wst & _ & _ & _ & _ & _ & _ & _ & _ & _ & Hv & Hl).
  rewrite Hh0 in Hl. simplify_eq. by apply validAcquisition_true in Hv as [? _].
Qed.

(** A worker whose tasks are named after their keys. *)
Definition worker0 : Worker (E:=Sim) string :=
  MkWorker (fun c _ => Slice (fun w => w) (fun _ => Return None)) client0 renew_policy
    (fun task => ParseKey task).

Lemma adapters_deliver_fence_witness :
  let o := WorkerRun 5 [MkTurn 1 true] worker0 Background "jobs/nightly" empty_world in
  o.1 = Some None /\
  exists id h0 inner_ctx, w_handles (Acquire 5 client0 (Some Background) k1 renew_policy empty_world).2
    !! id = Some h0 /\ TokenFromContext (fun _ => None) inner_ctx = Some (Token h0).
Proof.
  set (o := WorkerRun 5 [MkTurn 1 true] worker0 Background "jobs/nightly" empty_world).
  split; [vm_compute; reflexivity|].
  destruct (adapters_deliver_fence 5 [MkTurn 1 true] worker0 (MkCoordinator client0 renew_policy)
    Background "jobs/nightly" k1 (fun _ => None) empty_world) as (_ & _ & H).
  - intros c t. repeat split.
  - destruct (H o.2) as (id & h0 & h & ictx & _ & _ & H1 & _ & H2 & _).
    + vm_compute. reflexivity.
    + vm_compute. reflexivity.
    + exists id, h0, ictx. split; [exact H1|exact H2].
Defined.
