(* ===== verification/System.v ===== *)
(** * The whole system: processes, handles and one backend

    Any number of clients acquire, renew, validate and release leases of one
    backend. A remote operation is three separate steps, with other steps in
    between: the call starts (the process clock is read, by [Renew] once more before
    the request leaves), the backend performs it
    atomically at some later instant, and the reply reaches the handle. Replies may
    be lost and calls may fail without reaching the backend; a call whose caller has
    given up stays in flight and may still be performed, arbitrarily late. Injected
    clocks are arbitrary; the process clocks and the backend clock are one real time
    line, the backend's displaced by a constant [skew].

    Everything is proved from the contract [LeaseBackend] and from the critical
    sections of [Handle], for all reachable states. *)

From S2P Require Import Prelude GoBase GoStrings Errors LeaseKey LeasePolicy Backend Handle Runtime Memory Simulation Client.

(** An acquisition call: what the client keeps on its stack, and the reply once the
    backend performed it (or a fault replaced it). *)
Record attempt := MkAttempt {
  a_key : Key;
  a_owner : string;
  a_policy : Policy;
  a_started : Time;
  a_wallStarted : Time;
  a_reply : option reply
}.

(** A handle with its outstanding operation and the reply to it, if any. *)
Record node := MkNode {
  n_handle : Handle;
  n_op : option pending;
  n_reply : option reply
}.

Section System.
Context {S : Type} `{!LeaseBackend S}.
Variable skew : Z.

(** [flying] holds the calls whose callers gave up. *)
Record sys := MkSys {
  real : Time;
  backend : S;
  pendingAcquires : gmap nat attempt;
  nodes : gmap nat node;
  flying : list call
}.

Definition op_call (h : Handle) (op : pending) : call :=
  match op with
  | PRenew rec _ _ => CallRenew rec (ttl (policy h))
  | PValidate rec => CallValidate rec
  | PRelease rec => CallRelease rec
  end.

(** The critical section that ends an operation. *)
Definition finish_op (now wall : Time) (op : pending) (r : reply) (h : Handle) : Handle :=
  match op with
  | PRenew rec st wst => (finishRenew now wall rec st wst (reply_res r) h).2
  | PValidate rec => (finishValidate now wall rec (reply_res r) h).2
  | PRelease rec => (finishRelease (reply_err r) h).2
  end.

(** The sections of a handle that neither begin nor end an operation. *)
Inductive local_step (wall : Time) : Handle -> Handle -> Prop :=
| local_state now h : local_step wall h (StateOf now wall h).2
| local_refused now h e h' :
    beginActiveOperation now wall h = (Err e, h') -> local_step wall h h'
| local_release h e h' : beginRelease h = (inl e, h') -> local_step wall h h'
| local_start now slot h : local_step wall h (StartManaged now wall slot h).2
| local_exit h : local_step wall h (set_managed false h).

(** The start of an operation. *)
Inductive begin_op (wall : Time) : Handle -> pending -> Handle -> Prop :=
| begin_renew now started h rec h' :
    beginActiveOperation now wall h = (Ok rec, h') ->
    begin_op wall h (PRenew rec started wall) h'
| begin_validate now h rec h' :
    beginActiveOperation now wall h = (Ok rec, h') -> begin_op wall h (PValidate rec) h'
| begin_release h rec h' :
    beginRelease h = (inr rec, h') -> begin_op wall h (PRelease rec) h'.

(** The policies clients use: validated, with a margin that covers the
    granularity of the backend. *)
Definition policy_ok (p : Policy) : Prop := policy_valid p /\ granularity <= safetyMargin p.

Inductive sstep : sys -> sys -> Prop :=
| s_tick t b pa ns fl t' :
    t <= t' -> sstep (MkSys t b pa ns fl) (MkSys t' b pa ns fl)
| s_acquire_begin t b pa ns fl id key owner p started :
    policy_ok p -> pa !! id = None ->
    sstep (MkSys t b pa ns fl)
      (MkSys t b (<[id := MkAttempt key owner p started t None]> pa) ns fl)
| s_acquire_perform t b b' pa ns fl id key owner p st wst r :
    pa !! id = Some (MkAttempt key owner p st wst None) ->
    backend_call (t + skew) (CallTryAcquire key owner (ttl p)) b r b' ->
    sstep (MkSys t b pa ns fl)
      (MkSys t b' (<[id := MkAttempt key owner p st wst (Some r)]> pa) ns fl)
| s_acquire_granted t b pa ns fl id hid key owner p st wst rec :
    pa !! id = Some (MkAttempt key owner p st wst (Some (Replied rec))) ->
    validAcquisition key owner rec = true -> ns !! hid = None ->
    sstep (MkSys t b pa ns fl)
      (MkSys t b (delete id pa) (<[hid := MkNode (newHandleAt p rec st wst) None None]> ns) fl)
| s_acquire_dropped t b pa ns fl id a :
    pa !! id = Some a ->
    sstep (MkSys t b pa ns fl) (MkSys t b (delete id pa) ns fl)
| s_acquire_abandoned t b pa ns fl id key owner p st wst :
    pa !! id = Some (MkAttempt key owner p st wst None) ->
    sstep (MkSys t b pa ns fl)
      (MkSys t b (delete id pa) ns (CallTryAcquire key owner (ttl p) :: fl))
| s_local t b pa ns fl hid h op r h' :
    ns !! hid = Some (MkNode h op r) -> local_step t h h' ->
    sstep (MkSys t b pa ns fl) (MkSys t b pa (<[hid := MkNode h' op r]> ns) fl)
| s_begin t b pa ns fl hid h op0 r0 op h' :
    ns !! hid = Some (MkNode h op0 r0) -> begin_op t h op h' ->
    sstep (MkSys t b pa ns fl) (MkSys t b pa (<[hid := MkNode h' (Some op) None]> ns) fl)
| s_started t b pa ns fl hid h rec st wst now :
    ns !! hid = Some (MkNode h (Some (PRenew rec st wst)) None) ->
    sstep (MkSys t b pa ns fl)
      (MkSys t b pa (<[hid := MkNode h (Some (PRenew rec now t)) None]> ns) fl)
| s_perform t b b' pa ns fl hid h op r :
    ns !! hid = Some (MkNode h (Some op) None) ->
    backend_call (t + skew) (op_call h op) b r b' ->
    sstep (MkSys t b pa ns fl) (MkSys t b' pa (<[hid := MkNode h (Some op) (Some r)]> ns) fl)
| s_finish t b pa ns fl hid h op r now :
    ns !! hid = Some (MkNode h (Some op) (Some r)) ->
    sstep (MkSys t b pa ns fl)
      (MkSys t b pa (<[hid := MkNode (finish_op now t op r h) None None]> ns) fl)
| s_fault t b pa ns fl hid h op r0 now e :
    ns !! hid = Some (MkNode h (Some op) r0) ->
    sstep (MkSys t b pa ns fl)
      (MkSys t b pa (<[hid := MkNode (finish_op now t op (Failed e) h) None None]> ns)
        (match r0 with None => op_call h op :: fl | Some _ => fl end))
| s_late t b b' pa ns fl c r fl' :
    c ∈ fl -> fl' ⊆ fl -> backend_call (t + skew) c b r b' ->
    sstep (MkSys t b pa ns fl) (MkSys t b' pa ns fl').

(** A start: any well-formed backend, nobody holding or asking for anything. *)
Definition sinit (t : Time) (b : S) : sys := MkSys t b ∅ ∅ [].

(** ** Claims *)

Definition rkey (r : LeaseRecord) : string := KeyString (r_Key r).

(** Who stands for an acquisition: an attempt whose reply arrived, or a handle. *)
Abbreviation source := (nat + nat)%type.

Inductive owns (pa : gmap nat attempt) (ns : gmap nat node) : source -> string -> Z -> Prop :=
| owns_attempt id key owner p st wst rec :
    pa !! id = Some (MkAttempt key owner p st wst (Some (Replied rec))) ->
    owns pa ns (inl id) (rkey rec) (r_Token rec)
| owns_handle hid h op r :
    ns !! hid = Some (MkNode h op r) ->
    owns pa ns (inr hid) (rkey (record h)) (r_Token (record h)).

Definition releasing (op : option pending) : Prop :=
  match op with Some (PRelease _) => True | _ => False end.

(** [claims src rec d]: admission under [rec] is, or may still become, open until
    the instant [d] of the process clock. *)
Inductive claims (pa : gmap nat attempt) (ns : gmap nat node) : source -> LeaseRecord -> Time -> Prop :=
| claims_attempt id key owner p st wst rec :
    pa !! id = Some (MkAttempt key owner p st wst (Some (Replied rec))) ->
    claims pa ns (inl id) rec (wst + budget p)
| claims_handle hid h op r :
    ns !! hid = Some (MkNode h op r) -> state h = StateActive -> ~ releasing op ->
    claims pa ns (inr hid) (record h) (wallDeadline h)
| claims_renewed hid h rec st wst next :
    ns !! hid = Some (MkNode h (Some (PRenew rec st wst)) (Some (Replied next))) ->
    state h = StateActive ->
    claims pa ns (inr hid) (record h) (wst + budget (policy h)).

(** A claim that is still open is backed: the backend's holder is that owner and
    token, for at least as long. *)
Definition backed (t : Time) (b : S) (rec : LeaseRecord) (d : Time) : Prop :=
  t < d -> exists r, holder (key_view b (rkey rec)) = Some r /\ matches rec r /\
    d + skew <= r_ExpiresAt r.

(** A call by somebody else than the owner of [rec]. *)
Definition foreign (c : call) (rec : LeaseRecord) : Prop :=
  match c with
  | CallTryAcquire _ _ _ | CallValidate _ => True
  | CallRenew owned _ | CallRelease owned =>
      rkey owned = rkey rec -> r_Token owned <> r_Token rec
  end.

(** ** One call and the claims *)

Lemma backed_tick t t' b rec d : t <= t' -> backed t b rec d -> backed t' b rec d.
Proof. intros Hle H Hd. apply H. lia. Qed.

(** An abstract step of somebody else leaves a live holder as it is. *)
Lemma spec_step_foreign gran now c r k k' rec r0 :
  spec_step gran now c r k k' -> foreign c rec -> call_key c = rkey rec ->
  holder k = Some r0 -> matches rec r0 -> now < r_ExpiresAt r0 -> holder k' = Some r0.
Proof.
  intros H Hf Hk Hh [_ Hm] Hl.
  destruct H as [?????? [Hn _]|?????? [_ Hu] _|??????? _ [Hn _]
    |????? (r1 & Hr1 & [_ Hm1] & _)| |?????? _ (r1 & Hr1 & [_ Hm1] & _)| | |
    ??? [(r1 & Hr1 & [_ Hm1]) _]| | |???? _ [(r1 & Hr1 & [_ Hm1]) _]]; simpl in *;
    try congruence; try (exfalso; apply Hn; by exists r0);
    exfalso; apply (Hf Hk); congruence.
Qed.

Lemma backed_foreign t b b' c r rec d :
  backend_wf b -> backend_call (t + skew) c b r b' -> foreign c rec ->
  backed t b rec d -> backed t b' rec d.
Proof.
  intros Hwf Hc Hf H Hd. destruct (H Hd) as (r0 & Hh & Hm & Hx). exists r0.
  split; [|done]. destruct (decide (rkey rec = call_key c)) as [He|Hne].
  - apply backend_refines in Hc; [|done]. rewrite He in *.
    eapply spec_step_foreign; eauto; lia.
  - rewrite (backend_frame _ _ _ _ _ _ Hwf Hc Hne). done.
Qed.

(** A renewal by the owner, whatever its reply, does not cut a claim short. *)
Lemma backed_renew t b b' p owned r rec d :
  backend_wf b -> policy_ok p -> backend_call (t + skew) (CallRenew owned (ttl p)) b r b' ->
  rkey owned = rkey rec -> d <= t + budget p ->
  backed t b rec d -> backed t b' rec d.
Proof.
  intros Hwf [Hp Hg] Hc Hk Hd H Hlt. destruct (H Hlt) as (r0 & Hh & Hm & Hx).
  apply backend_refines in Hc; [|done]. simpl in Hc. fold (rkey owned) in Hc.
  rewrite Hk in Hc. rewrite budget_exact in Hd by done.
  inversion Hc as [| | |????? He|?????|?????? _ He| | | | | |]; subst;
    [|exists r0; split_and!; [congruence|done|done]|];
    destruct He as (held & Hr1 & [Ho Ht] & _ & _ & Ho' & Ht' & _ & He & Hk');
    rewrite Hk'; simpl; simplify_eq; eexists; (split; [done|]);
    (split; [destruct Hm; split; congruence|lia]).
Qed.

(** The claim a successful renewal creates. *)
Lemma backed_renewed t b b' p owned next rec wst :
  backend_wf b -> policy_ok p ->
  backend_call (t + skew) (CallRenew owned (ttl p)) b (Replied next) b' ->
  rkey owned = rkey rec -> matches rec owned -> wst <= t ->
  backed t b' rec (wst + budget p).
Proof.
  intros Hwf [Hp Hg] Hc Hk Hm Hw _. apply backend_refines in Hc; [|done]. simpl in Hc.
  fold (rkey owned) in Hc. rewrite Hk in Hc.
  inversion Hc as [| | |????? (r1 & Hr1 & [Ho Ht] & _ & _ & Ho' & Ht' & _ & He & Hk')| | | | | | | |];
    subst. rewrite Hk'. exists next. destruct Hm. rewrite budget_exact by done.
  split_and!; [done|split; congruence|lia].
Qed.

(** The claim a successful acquisition creates, and the fence it comes with. *)
Lemma backed_acquired t b b' p key owner rec wst :
  backend_wf b -> policy_ok p ->
  backend_call (t + skew) (CallTryAcquire key owner (ttl p)) b (Replied rec) b' ->
  wst <= t ->
  backed t b' rec (wst + budget p) /\ rkey rec = KeyString key /\
  fence (key_view b (rkey rec)) < r_Token rec /\
  fence (key_view b' (rkey rec)) = r_Token rec.
Proof.
  intros Hwf [Hp Hg] Hc Hw. apply backend_refines in Hc; [|done]. simpl in Hc.
  inversion Hc as [?????? (_ & Hf & Hk & _ & _ & He & Hk')| | | | | | | | | | |]; subst.
  unfold rkey. rewrite Hk'. split_and!; try done. intros _. exists rec.
  unfold rkey. rewrite Hk', budget_exact by done. split_and!; [done|done|lia].
Qed.

(** ** The invariant *)

Record node_ok (t : Time) (n : node) : Prop := {
  nk_policy : policy_ok (policy (n_handle n));
  nk_deadline : wallDeadline (n_handle n) <= t + budget (policy (n_handle n));
  nk_op : match n_op n with
          | None => busy (n_handle n) = false
          | Some op => busy (n_handle n) = true /\ pending_record op = record (n_handle n) /\
              (state (n_handle n) = StateActive \/ state (n_handle n) = StateExpired)
          end;
  nk_started rec st wst : n_op n = Some (PRenew rec st wst) -> wst <= t
}.

Definition attempt_ok (t : Time) (a : attempt) : Prop :=
  policy_ok (a_policy a) /\ a_wallStarted a <= t.

(** A call that presents [owned] for a change. *)
Definition presents (c : call) (owned : LeaseRecord) : Prop :=
  (exists d, c = CallRenew owned d) \/ c = CallRelease owned.

(** A handle of that acquisition exists and admits nothing any more. *)
Definition dead (ns : gmap nat node) (owned : LeaseRecord) : Prop :=
  exists hid n, ns !! hid = Some n /\ rkey (record (n_handle n)) = rkey owned /\
    r_Token (record (n_handle n)) = r_Token owned /\ state (n_handle n) <> StateActive.

Record inv (s : sys) : Prop := {
  iv_wf : backend_wf (backend s);
  iv_nodes : map_Forall (fun _ n => node_ok (real s) n) (nodes s);
  iv_attempts : map_Forall (fun _ a => attempt_ok (real s) a) (pendingAcquires s);
  iv_claims src rec d :
    claims (pendingAcquires s) (nodes s) src rec d -> backed (real s) (backend s) rec d;
  iv_unique src1 src2 k tok :
    owns (pendingAcquires s) (nodes s) src1 k tok ->
    owns (pendingAcquires s) (nodes s) src2 k tok -> src1 = src2;
  iv_fence src k tok :
    owns (pendingAcquires s) (nodes s) src k tok -> tok <= fence (key_view (backend s) k);
  iv_flying c owned : c ∈ flying s -> presents c owned -> dead (nodes s) owned
}.

Lemma sinit_inv t b : backend_wf b -> inv (sinit t b).
Proof.
  intros Hwf. split; simpl; try done.
  - intros src rec d H. inversion H; subst; by rewrite lookup_empty in *.
  - intros src1 src2 k tok H. inversion H; subst; by rewrite lookup_empty in *.
  - intros src k tok H. inversion H; subst; by rewrite lookup_empty in *.
  - intros c owned Hin. by apply elem_of_nil in Hin.
Qed.

Lemma claims_owns pa ns src rec d : claims pa ns src rec d -> owns pa ns src (rkey rec) (r_Token rec).
Proof. destruct 1; by econstructor. Qed.

Lemma node_ok_tick t t' n : t <= t' -> node_ok t n -> node_ok t' n.
Proof. intros Hle [H1 H2 H3 H4]. split; try done; [lia|]. intros r st wst Hr. specialize (H4 r st wst Hr). lia. Qed.

Lemma inv_tick t t' b pa ns fl :
  t <= t' -> inv (MkSys t b pa ns fl) -> inv (MkSys t' b pa ns fl).
Proof.
  intros Hle [H1 H2 H3 H4 H5 H6 H7]. simpl in *. split; simpl; try done.
  - eapply map_Forall_impl; [done|]. intros ? n Hn. by eapply node_ok_tick.
  - eapply map_Forall_impl; [done|]. intros ? a [? ?]. split; [done|lia].
  - intros src rec d Hc. eapply backed_tick; eauto.
Qed.

(** A backend call keeps the invariant when every claim is a stranger to it or
    stays backed. *)
Lemma inv_backend t b b' pa ns fl c r :
  inv (MkSys t b pa ns fl) -> backend_call (t + skew) c b r b' ->
  (forall src rec d, claims pa ns src rec d -> foreign c rec \/ backed t b' rec d) ->
  inv (MkSys t b' pa ns fl).
Proof.
  intros [H1 H2 H3 H4 H5 H6 H7] Hc Hcl. simpl in *. split; simpl; try done.
  - by eapply backend_wf_call.
  - intros src rec d Hd. destruct (Hcl _ _ _ Hd) as [Hf|?]; [|done].
    eapply backed_foreign; eauto.
  - intros src k tok Ho. specialize (H6 _ _ _ Ho).
    pose proof (backend_fence_mono _ _ _ _ _ k H1 Hc). lia.
Qed.

(** How a handle may change: same acquisition, same policy, no way back to active. *)
Definition evolves (h h' : Handle) : Prop :=
  rkey (record h') = rkey (record h) /\ r_Owner (record h') = r_Owner (record h) /\
  r_Token (record h') = r_Token (record h) /\ policy h' = policy h /\
  (state h' = StateActive -> state h = StateActive).

Lemma owns_update pa ns hid n n' src k tok :
  ns !! hid = Some n -> evolves (n_handle n) (n_handle n') ->
  owns pa (<[hid := n']> ns) src k tok -> owns pa ns src k tok.
Proof.
  intros Hn (Hk & _ & Ht & _) Ho. destruct Ho as [|hid' h op r Hl]; [by econstructor|].
  apply lookup_insert_Some in Hl as [[-> ->]|[Hne Hl]]; [|by econstructor].
  simpl in *. rewrite Hk, Ht. destruct n as [h0 op0 r0]. by eapply owns_handle.
Qed.

Lemma claims_update_ne pa ns hid n' src rec d :
  src <> inr hid -> claims pa (<[hid := n']> ns) src rec d -> claims pa ns src rec d.
Proof.
  intros Hne Hc. destruct Hc as [|hid' h op r Hl|hid' h rec st wst next Hl];
    [by eapply claims_attempt|rewrite lookup_insert_ne in Hl by congruence..];
    [by eapply claims_handle|by eapply claims_renewed].
Qed.

Lemma dead_update ns hid n n' owned :
  ns !! hid = Some n -> evolves (n_handle n) (n_handle n') ->
  dead ns owned -> dead (<[hid := n']> ns) owned.
Proof.
  intros Hn (Hk & _ & Ht & _ & Hs) (hid' & m & Hm & Hmk & Hmt & Hms).
  destruct (decide (hid = hid')) as [->|Hne].
  - exists hid', n'. rewrite lookup_insert_eq. simplify_eq.
    split_and!; [done|congruence|congruence|auto].
  - exists hid', m. by rewrite lookup_insert_ne.
Qed.

(** Replacing a node keeps the invariant when the handle evolves and its own claims
    are backed. *)
Lemma inv_node t b pa ns fl fl' hid n n' :
  inv (MkSys t b pa ns fl) -> ns !! hid = Some n -> evolves (n_handle n) (n_handle n') ->
  node_ok t n' ->
  (forall rec d, claims pa (<[hid := n']> ns) (inr hid) rec d -> backed t b rec d) ->
  (forall c owned, c ∈ fl' -> presents c owned -> c ∈ fl \/ dead (<[hid := n']> ns) owned) ->
  inv (MkSys t b pa (<[hid := n']> ns) fl').
Proof.
  intros [H1 H2 H3 H4 H5 H6 H7] Hn He Hok Hcl Hfl. simpl in *. split; simpl; try done.
  - by apply map_Forall_insert_2.
  - intros src rec d Hc. destruct (decide (src = inr hid)) as [->|Hne]; [by apply Hcl|].
    apply claims_update_ne in Hc; eauto.
  - intros src1 src2 k tok Ho1 Ho2. eapply H5; eapply owns_update; eauto.
  - intros src k tok Ho. eapply H6, owns_update; eauto.
  - intros c owned Hin Hp. destruct (Hfl c owned Hin Hp) as [Hin'|?]; [|done].
    eapply dead_update; eauto.
Qed.

(** Backing depends on key, owner and token only. *)
Lemma backed_same t b rec rec' d :
  rkey rec' = rkey rec -> r_Owner rec' = r_Owner rec -> r_Token rec' = r_Token rec ->
  backed t b rec d -> backed t b rec' d.
Proof.
  intros Hk Ho Ht H Hd. destruct (H Hd) as (r & Hr & [Hm1 Hm2] & Hx). exists r.
  rewrite Hk. split_and!; try done. split; congruence.
Qed.

(** ** Steps of a handle *)

Lemma frame_evolves h h' :
  same_frame h h' -> (state h' = StateActive -> state h = StateActive) -> evolves h h'.
Proof. intros (Hp & Hr & _) Hs. unfold evolves. rewrite Hr. done. Qed.

Lemma local_frame wall h h' :
  local_step wall h h' ->
  same_frame h h' /\ busy h' = busy h /\ (state h' = state h \/ state h' = StateExpired).
Proof.
  destruct 1 as [now h|now h e h' H|h e h' H|now slot h|h].
  - pose proof (expireLocked_frame now wall h) as (? & ? & _). unfold StateOf. simpl.
    split_and!; [done|done|apply expire_stays].
  - apply begin_Err in H as ->. pose proof (expireLocked_frame now wall h) as (? & ? & _).
    split_and!; [done|done|apply expire_stays].
  - apply beginRelease_return in H as ->. split_and!; [done|done|by left].
  - pose proof (StartManaged_frame now wall slot h) as (? & ? & Hs).
    split_and!; [done|done|]. rewrite Hs. apply expire_stays.
  - split_and!; [done|done|by left].
Qed.

Lemma begin_frame wall h op h' :
  begin_op wall h op h' ->
  h' = set_busy true h /\ busy h = false /\ pending_record op = record h /\
  (state h = StateActive \/ state h = StateExpired) /\
  (forall rec st wst, op = PRenew rec st wst -> wst = wall).
Proof.
  destruct 1 as [now st h rec h' H|now h rec h' H|h rec h' H].
  - apply begin_Ok in H as (? & _ & _ & ? & -> & ->). split_and!; auto. naive_solver.
  - apply begin_Ok in H as (? & _ & _ & ? & -> & ->). split_and!; auto. naive_solver.
  - apply beginRelease_call in H as (? & ? & -> & ->). split_and!; auto. naive_solver.
Qed.

(** The end of [Renew] and [Validate]: same acquisition, idle again, active only
    after a reply with a record, and a new deadline only then. *)
Lemma finish_active_frame mismatch now wall rec r dl wdl h e h' :
  rec = record h ->
  finishActiveOperation now wall (checkReply mismatch rec r).1 (checkReply mismatch rec r).2
    dl wdl h = (e, h') ->
  evolves h h' /\ busy h' = false /\ (state h' = StateActive -> is_ok r = true) /\
  (wallDeadline h' = wallDeadline h \/
   (dl <> 0 /\ is_ok r = true /\ state h = StateActive /\ wallDeadline h' = wdl)).
Proof.
  intros -> E. pose proof (finish_may _ _ _ _ _ _ _ _ _ E) as (_ & Hb & Hp & Ha & _).
  pose proof (finish_identity _ _ _ _ _ _ _ _ _ _ E) as Hid.
  pose proof (expireLocked_frame now wall (set_busy false h)) as ((_ & _ & _ & Hw) & _).
  assert (Hev : evolves h h').
  { unfold evolves, rkey. destruct Hid as [->|(next & _ & -> & _ & Hs)]; [done|].
    apply sameAcquisition_true in Hs as [(? & ? & ? & _) _]. done. }
  split; [done|]. split; [done|].
  apply finish_cases in E as [(e0 & _ & _ & ->)|[(_ & _ & -> & Hn)|(Hc & _ & Hs & _ & _ & ->)]].
  - split; [intros Hs; by apply failLocked_not_active in Hs|]. left.
    destruct (failLocked_frame e0 (expireLocked now wall (set_busy false h)))
      as ((_ & _ & _ & ->) & _). done.
  - split; [done|by left].
  - destruct r as [next|e0]; [|done]. split; [done|].
    unfold IsZero. destruct (Z.eqb_spec dl 0); simpl; [by left|by right].
Qed.

(** The end of any operation: only a renewal answered with a record moves the
    deadline, and no release and no failure leaves the handle active. *)
Lemma finish_frame now wall op r h :
  pending_record op = record h -> let h' := finish_op now wall op r h in
  evolves h h' /\ busy h' = false /\
  (wallDeadline h' = wallDeadline h \/
   exists rec st wst next, op = PRenew rec st wst /\ r = Replied next /\
     state h = StateActive /\ wallDeadline h' = wst + budget (policy h)) /\
  (state h' = StateActive -> ~ releasing (Some op) /\ forall e, r <> Failed e).
Proof.
  intros Hr. simpl. destruct op as [rec st wst|rec|rec]; simpl in *.
  - destruct (finishRenew _ _ _ _ _ _ _) as [e h'] eqn:E. simpl. rewrite finishRenew_eq in E.
    apply finish_active_frame in E as (Hev & Hb & Ha & Hw); [|done].
    split_and!; [done|done| |intros Hs; specialize (Ha Hs); destruct r; naive_solver].
    destruct Hw as [?|(_ & Ho & Hs & Hw)]; [by left|right].
    destruct r as [next| |]; try done. by eexists _, _, _, next.
  - destruct (finishValidate _ _ _ _ _) as [e h'] eqn:E. simpl. rewrite finishValidate_eq in E.
    apply finish_active_frame in E as (Hev & Hb & Ha & Hw); [|done].
    split_and!; [done|done| |intros Hs; specialize (Ha Hs); destruct r; naive_solver].
    destruct Hw as [?|(? & _)]; [by left|done].
  - unfold finishRelease. destruct (reply_err r) as [e|]; simpl.
    + pose proof (failLocked_frame e (set_busy false h)) as (Hf & Hb & _).
      pose proof (failLocked_not_active e (set_busy false h)) as Hn.
      split_and!; [by apply frame_evolves|done|left; apply Hf|done].
    + split_and!; [by apply frame_evolves|done|by left|done].
Qed.
(** ** The steps keep the invariant *)

(** The claims of one node, read off it. *)
Definition own_claim (n : node) (rec : LeaseRecord) (d : Time) : Prop :=
  rec = record (n_handle n) /\ state (n_handle n) = StateActive /\
  ((d = wallDeadline (n_handle n) /\ ~ releasing (n_op n)) \/
   exists rec0 st wst next, n_op n = Some (PRenew rec0 st wst) /\
     n_reply n = Some (Replied next) /\ d = wst + budget (policy (n_handle n))).

Lemma claims_own pa ns hid n rec d :
  ns !! hid = Some n -> claims pa ns (inr hid) rec d <-> own_claim n rec d.
Proof.
  intros Hn. split.
  - intros Hc. inversion Hc; simplify_eq; unfold own_claim; simpl; split_and!; try done;
      [by left|right; by eexists _, _, _, _].
  - destruct n as [h op r]. intros (-> & Hs & [[-> Hr]|(? & ? & ? & ? & Ho & Hr & ->)]); simpl in *;
      [by eapply claims_handle|simplify_eq; by eapply claims_renewed].
Qed.

Lemma own_claim_insert pa ns hid n rec d :
  claims pa (<[hid := n]> ns) (inr hid) rec d -> own_claim n rec d.
Proof. apply claims_own, lookup_insert_eq. Qed.

Lemma inv_local t b pa ns fl hid h op r h' :
  inv (MkSys t b pa ns fl) -> ns !! hid = Some (MkNode h op r) -> local_step t h h' ->
  inv (MkSys t b pa (<[hid := MkNode h' op r]> ns) fl).
Proof.
  intros Hi Hn Hl. apply local_frame in Hl as (Hf & Hb & Hs).
  assert (Ha : state h' = StateActive -> state h = StateActive).
  { destruct Hs as [->| ->]; done. }
  pose proof (iv_nodes _ Hi _ _ Hn) as [Hok1 Hok2 Hok3 Hok4]. simpl in *.
  pose proof Hf as (Hp & Hr & _ & Hw).
  eapply inv_node; [done|done|by apply frame_evolves| | |auto].
  - split; simpl; rewrite ?Hp, ?Hw, ?Hr, ?Hb; try done. destruct op as [op|]; [|done].
    destruct Hok3 as (? & ? & Hst). split_and!; try done. destruct Hs as [->| ->]; auto.
  - intros rec d Hc. apply own_claim_insert in Hc as (-> & Hst & Hd). simpl in *.
    rewrite Hr, Hw, Hp in *. apply (iv_claims _ Hi (inr hid)). simpl.
    apply (claims_own _ _ _ _ _ _ Hn). split_and!; auto.
Qed.

Lemma inv_begin t b pa ns fl hid h op0 r0 op h' :
  inv (MkSys t b pa ns fl) -> ns !! hid = Some (MkNode h op0 r0) -> begin_op t h op h' ->
  inv (MkSys t b pa (<[hid := MkNode h' (Some op) None]> ns) fl).
Proof.
  intros Hi Hn Hbg. apply begin_frame in Hbg as (-> & Hb & Hr & Hs & Hw).
  pose proof (iv_nodes _ Hi _ _ Hn) as [Hok1 Hok2 Hok3 Hok4]. simpl in *.
  destruct op0 as [op0|]; [destruct Hok3; congruence|].
  eapply inv_node; [done|done|done| | |auto].
  - split; simpl; try done. intros rec st wst [= ->]. rewrite (Hw _ _ _ eq_refl). lia.
  - intros rec d Hc. apply own_claim_insert in Hc as (-> & Hst & [[-> _]|(? & ? & ? & ? & ? & ? & ?)]);
      [|done]. simpl in *.
    apply (iv_claims _ Hi (inr hid)), (claims_own _ _ _ _ _ _ Hn). split_and!; try done. left. simpl. tauto.
Qed.

(** [Renew] reads the clocks again after its reservation, before the call. *)
Lemma inv_started t b pa ns fl hid h rec st wst now :
  inv (MkSys t b pa ns fl) -> ns !! hid = Some (MkNode h (Some (PRenew rec st wst)) None) ->
  inv (MkSys t b pa (<[hid := MkNode h (Some (PRenew rec now t)) None]> ns) fl).
Proof.
  intros Hi Hn. pose proof (iv_nodes _ Hi _ _ Hn) as [Hok1 Hok2 Hok3 Hok4]. simpl in *.
  eapply inv_node; [done|done|done| | |auto].
  - split; simpl; try done. intros rec0 st0 wst0 [= _ _ <-]. lia.
  - intros rec0 d Hc. apply own_claim_insert in Hc as (-> & Hst & [[-> _]|(? & ? & ? & ? & ? & ? & ?)]);
      [|done]. simpl in *.
    apply (iv_claims _ Hi (inr hid)), (claims_own _ _ _ _ _ _ Hn). split_and!; try done. left. simpl. tauto.
Qed.

(** A claim by another source is a stranger to a call that presents this handle's
    record. *)
Lemma claim_stranger t b pa ns fl hid h op r src rec d owned :
  inv (MkSys t b pa ns fl) -> ns !! hid = Some (MkNode h op r) ->
  rkey owned = rkey (record h) -> r_Token owned = r_Token (record h) ->
  claims pa ns src rec d -> src <> inr hid ->
  rkey owned = rkey rec -> r_Token owned <> r_Token rec.
Proof.
  intros Hi Hn Hok Hot Hc Hne Hk Ht. apply Hne. apply claims_owns in Hc.
  eapply (iv_unique _ Hi); simpl; [done|]. rewrite <- Hk, <- Ht, Hok, Hot.
  by eapply owns_handle.
Qed.

Lemma inv_perform t b b' pa ns fl hid h op r :
  inv (MkSys t b pa ns fl) -> ns !! hid = Some (MkNode h (Some op) None) ->
  backend_call (t + skew) (op_call h op) b r b' ->
  inv (MkSys t b' pa (<[hid := MkNode h (Some op) (Some r)]> ns) fl).
Proof.
  intros Hi Hn Hc. pose proof (iv_nodes _ Hi _ _ Hn) as [Hok1 Hok2 Hok3 Hok4].
  pose proof (iv_wf _ Hi) as Hwf. simpl in *. destruct Hok3 as (Hb & Hr & Hs).
  assert (Hi' : inv (MkSys t b' pa ns fl)).
  { eapply inv_backend; [done|done|]. intros src rec d Hcl.
    destruct (decide (src = inr hid)) as [->|Hne].
    - pose proof (iv_claims _ Hi _ _ _ Hcl) as Hbk.
      apply (claims_own _ _ _ _ _ _ Hn) in Hcl as (-> & Hst & [[-> Hrel]|(? & ? & ? & ? & ? & ? & ?)]);
        [|done]. simpl in *.
      destruct op as [rec0 st wst|rec0|rec0]; simpl in *; [|by left|tauto].
      right. subst rec0. by eapply backed_renew.
    - left. destruct op as [rec0 st wst|rec0|rec0]; simpl in *; [|done|]; subst rec0;
        by eapply claim_stranger. }
  eapply inv_node; [done|done|done|by split|  |auto].
  intros rec d Hcl. apply own_claim_insert in Hcl as (-> & Hst & [[-> Hrel]|(rec0 & st & wst & next & [= ->] & [= ->] & ->)]);
    simpl in *.
  - apply (iv_claims _ Hi' (inr hid)), (claims_own _ _ _ _ _ _ Hn). split_and!; auto.
  - subst rec0. eapply backed_renewed; eauto. done.
Qed.

(** The node an operation leaves. *)
Lemma finish_node_ok t now hid h op r0 r ns b pa fl :
  inv (MkSys t b pa ns fl) -> ns !! hid = Some (MkNode h (Some op) r0) ->
  node_ok t (MkNode (finish_op now t op r h) None None) /\ pending_record op = record h.
Proof.
  intros Hi Hn. pose proof (iv_nodes _ Hi _ _ Hn) as [Hok1 Hok2 (_ & Hr & _) Hok4]. simpl in *.
  split; [|done]. pose proof (finish_frame now t op r h Hr) as (Hev & Hb & Hw & _).
  destruct Hev as (_ & _ & _ & Hp & _). split; simpl; rewrite ?Hp; try done.
  destruct Hw as [->|(? & ? & wst & ? & -> & _ & _ & ->)]; [done|].
  specialize (Hok4 _ _ _ eq_refl). lia.
Qed.

Lemma inv_finish t b pa ns fl hid h op r now :
  inv (MkSys t b pa ns fl) -> ns !! hid = Some (MkNode h (Some op) (Some r)) ->
  inv (MkSys t b pa (<[hid := MkNode (finish_op now t op r h) None None]> ns) fl).
Proof.
  intros Hi Hn. destruct (finish_node_ok t now hid h op (Some r) r ns b pa fl Hi Hn) as [Hok Hr].
  pose proof (finish_frame now t op r h Hr) as (Hev & Hb & Hw & Ha).
  eapply inv_node; [done|done|done|done| |auto].
  intros rec d Hcl. apply own_claim_insert in Hcl as (-> & Hst & [[-> _]|(? & ? & ? & ? & ? & ? & ?)]);
    [|done]. simpl in *. destruct (Ha Hst) as [Hrel _].
  pose proof Hev as (Hk & Ho & Ht & _ & Hact). apply (backed_same _ _ (record h)); try done.
  apply (iv_claims _ Hi (inr hid)), (claims_own _ _ _ _ _ _ Hn). unfold own_claim. simpl.
  split_and!; auto. destruct Hw as [->|(? & ? & ? & ? & -> & -> & _ & ->)]; [by left|right].
  by eexists _, _, _, _.
Qed.

Lemma op_call_presents h op owned : presents (op_call h op) owned -> pending_record op = owned.
Proof. destruct op; simpl; intros [[? H]|H]; by inversion H. Qed.

Lemma inv_fault t b pa ns fl hid h op r0 now e :
  inv (MkSys t b pa ns fl) -> ns !! hid = Some (MkNode h (Some op) r0) ->
  inv (MkSys t b pa (<[hid := MkNode (finish_op now t op (Failed e) h) None None]> ns)
        (match r0 with None => op_call h op :: fl | Some _ => fl end)).
Proof.
  intros Hi Hn. destruct (finish_node_ok t now hid h op r0 (Failed e) ns b pa fl Hi Hn) as [Hok Hr].
  pose proof (finish_frame now t op (Failed e) h Hr) as (Hev & Hb & Hw & Ha).
  assert (Hna : state (finish_op now t op (Failed e) h) <> StateActive).
  { intros Hst. destruct (Ha Hst) as [_ Hf]. by apply (Hf e). }
  eapply inv_node; [done|done|done|done| |].
  - intros rec d Hcl. by apply own_claim_insert in Hcl as (_ & Hst & _).
  - intros c owned Hin Hp. destruct r0; [by left|]. apply elem_of_cons in Hin as [->|Hin]; [|by left].
    right. apply op_call_presents in Hp as <-. rewrite Hr. destruct Hev as (Hk & _ & Ht & _).
    eexists hid, _. split; [apply lookup_insert_eq|]. done.
Qed.

Lemma inv_late t b b' pa ns fl c r fl' :
  inv (MkSys t b pa ns fl) -> c ∈ fl -> fl' ⊆ fl -> backend_call (t + skew) c b r b' ->
  inv (MkSys t b' pa ns fl').
Proof.
  intros Hi Hin Hsub Hc.
  assert (Hd : forall owned, presents c owned -> forall src rec d, claims pa ns src rec d ->
    rkey owned = rkey rec -> r_Token owned <> r_Token rec).
  { intros owned Hp src rec d Hcl Hk Ht.
    destruct (iv_flying _ Hi _ _ Hin Hp) as (hid & [h op r0] & Hn & Hk' & Ht' & Hs). simpl in *.
    assert (src <> inr hid).
    { intros ->. by apply (claims_own _ _ _ _ _ _ Hn) in Hcl as (_ & ? & _). }
    eapply (claim_stranger _ _ _ _ _ _ _ _ _ _ _ _ owned Hi Hn); eauto. }
  assert (Hi' : inv (MkSys t b' pa ns fl)).
  { eapply inv_backend; [done|done|]. intros src rec d Hcl. left.
    destruct c; simpl; try done; (eapply Hd; [|done]); [left; by eexists|by right]. }
  destruct Hi' as [H1 H2 H3 H4 H5 H6 H7]. split; simpl in *; eauto.
Qed.
(** Changing only the attempts, without a new claim. *)
Lemma inv_attempts t b pa pa' ns fl fl' :
  inv (MkSys t b pa ns fl) -> map_Forall (fun _ a => attempt_ok t a) pa' ->
  (forall id key owner p st wst rec,
    pa' !! id = Some (MkAttempt key owner p st wst (Some (Replied rec))) ->
    pa !! id = Some (MkAttempt key owner p st wst (Some (Replied rec)))) ->
  (forall c owned, c ∈ fl' -> presents c owned -> c ∈ fl) ->
  inv (MkSys t b pa' ns fl').
Proof.
  intros [H1 H2 H3 H4 H5 H6 H7] Hok Hpa Hfl. simpl in *.
  assert (Ho : forall src k tok, owns pa' ns src k tok -> owns pa ns src k tok).
  { intros src k tok Ho. destruct Ho; econstructor; eauto. }
  split; simpl; eauto.
  intros src rec d Hc. destruct Hc; eapply H4;
    [eapply claims_attempt; eauto|by eapply claims_handle|by eapply claims_renewed].
Qed.

Lemma inv_acquire_perform t b b' pa ns fl id key owner p st wst r :
  inv (MkSys t b pa ns fl) -> pa !! id = Some (MkAttempt key owner p st wst None) ->
  backend_call (t + skew) (CallTryAcquire key owner (ttl p)) b r b' ->
  inv (MkSys t b' (<[id := MkAttempt key owner p st wst (Some r)]> pa) ns fl).
Proof.
  intros Hi Hid Hc. pose proof (iv_attempts _ Hi _ _ Hid) as [Hp Hw].
  pose proof (iv_wf _ Hi) as Hwf. pose proof (iv_fence _ Hi) as Hfen. simpl in *.
  assert (Hi' : inv (MkSys t b' pa ns fl)).
  { eapply inv_backend; [done|done|]. intros. by left. }
  assert (Hok : map_Forall (fun _ a => attempt_ok t a)
    (<[id := MkAttempt key owner p st wst (Some r)]> pa)).
  { apply map_Forall_insert_2; [done|apply (iv_attempts _ Hi)]. }
  assert (Hr : (forall rec, r <> Replied rec) \/ exists rec, r = Replied rec).
  { destruct r; [right; by eexists|by left..]. }
  destruct Hr as [Hnr|[rec ->]].
  { eapply inv_attempts; [done|done| |eauto]. intros id' key' owner' p' st' wst' rec Hl.
    apply lookup_insert_Some in Hl as [[-> [= -> -> -> -> -> ->]]|[_ ?]]; [|done].
    by destruct (Hnr rec). }
  destruct (backed_acquired t b b' p key owner rec wst) as (Hbk & Hk & Hf & Hf'); try done.
  destruct Hi' as [H1 H2 H3 H4 H5 H6 H7]. simpl in *.
  set (pa' := <[id := MkAttempt key owner p st wst (Some (Replied rec))]> pa) in *.
  assert (Ho : forall src k tok, owns pa' ns src k tok ->
    (src = inl id /\ k = rkey rec /\ tok = r_Token rec) \/ owns pa ns src k tok).
  { intros src k tok Ho. destruct Ho as [id' ? ? ? ? ? ? Hl|]; [|right; by econstructor].
    apply lookup_insert_Some in Hl as [[-> [= -> -> -> -> -> ->]]|[_ ?]]; [by left|].
    right. by econstructor. }
  split; simpl; try done.
  - intros src rec' d Hcl. destruct Hcl as [id' ? ? ? ? ? ? Hl| |];
      [|eapply H4; by eapply claims_handle|eapply H4; by eapply claims_renewed].
    apply lookup_insert_Some in Hl as [[-> [= -> -> -> -> -> ->]]|[_ ?]]; [done|].
    eapply H4. by eapply claims_attempt.
  - intros src1 src2 k tok Ho1 Ho2.
    destruct (Ho _ _ _ Ho1) as [(-> & -> & ->)|Ho1'], (Ho _ _ _ Ho2) as [(-> & Hk2 & Ht2)|Ho2'];
      [done|specialize (Hfen _ _ _ Ho2'); lia|subst; specialize (Hfen _ _ _ Ho1'); lia|eauto].
  - intros src k tok Hown. destruct (Ho _ _ _ Hown) as [(-> & -> & ->)|?]; [lia|eauto].
Qed.

Lemma inv_acquire_granted t b pa ns fl id hid key owner p st wst rec :
  inv (MkSys t b pa ns fl) ->
  pa !! id = Some (MkAttempt key owner p st wst (Some (Replied rec))) -> ns !! hid = None ->
  inv (MkSys t b (delete id pa) (<[hid := MkNode (newHandleAt p rec st wst) None None]> ns) fl).
Proof.
  intros Hi Hid Hn. pose proof (iv_attempts _ Hi _ _ Hid) as [Hp Hw].
  destruct Hi as [H1 H2 H3 H4 H5 H6 H7]. simpl in *.
  set (pa' := delete id pa). set (ns' := <[hid := _]> ns).
  set (f (src : source) := if decide (src = inr hid) then inl id else src).
  assert (Ho : forall src k tok, owns pa' ns' src k tok ->
    owns pa ns (f src) k tok /\ src <> inl id).
  { intros src k tok Ho. unfold f. destruct Ho as [id' ? ? ? ? ? ? Hl|hid' h op r Hl].
    - apply lookup_delete_Some in Hl as [? ?]. rewrite decide_False by done.
      split; [by econstructor|congruence].
    - apply lookup_insert_Some in Hl as [[-> [= <- <- <-]]|[? Hl]].
      + rewrite decide_True by done. split; [by econstructor|done].
      + rewrite decide_False by congruence. split; [by econstructor|done]. }
  split; simpl; try done.
  - apply map_Forall_insert_2; [|done]. split; simpl; try done. unfold Add. lia.
  - by apply map_Forall_delete.
  - intros src rec' d Hcl. destruct (decide (src = inr hid)) as [->|Hne].
    + apply own_claim_insert in Hcl as (-> & _ & [[-> _]|(? & ? & ? & ? & ? & _)]); [|done].
      eapply H4. by eapply claims_attempt.
    + apply claims_update_ne in Hcl; [|done].
      destruct Hcl as [id' ? ? ? ? ? ? Hl| |]; eapply H4;
        [apply lookup_delete_Some in Hl as [? ?]; by eapply claims_attempt
        |by eapply claims_handle|by eapply claims_renewed].
  - intros src1 src2 k tok Ho1 Ho2. apply Ho in Ho1 as [Ho1 ?], Ho2 as [Ho2 ?].
    specialize (H5 _ _ _ _ Ho1 Ho2). unfold f in H5. repeat case_decide; congruence.
  - intros src k tok Hown. apply Ho in Hown as [Hown _]. eauto.
  - intros c owned Hin Hpr. destruct (H7 _ _ Hin Hpr) as (hid' & m & Hm & ?).
    exists hid', m. split; [|done]. unfold ns'. rewrite lookup_insert_ne by congruence. done.
Qed.

Lemma sstep_inv s s' : inv s -> sstep s s' -> inv s'.
Proof.
  intros Hi H. destruct H as [t b pa ns fl t' Hle|t b pa ns fl id key owner p st Hp Hid
    |t b b' pa ns fl id key owner p st wst r Hid Hc|t b pa ns fl id hid key owner p st wst rec Hid Hv Hn
    |t b pa ns fl id a Hid|t b pa ns fl id key owner p st wst Hid
    |t b pa ns fl hid h op r h' Hn Hl|t b pa ns fl hid h op0 r0 op h' Hn Hb
    |t b pa ns fl hid h rec st wst now Hn
    |t b b' pa ns fl hid h op r Hn Hc|t b pa ns fl hid h op r now Hn
    |t b pa ns fl hid h op r0 now e Hn|t b b' pa ns fl c r fl' Hin Hsub Hc].
  - by eapply inv_tick.
  - eapply inv_attempts; [done| | |eauto].
    + apply map_Forall_insert_2; [|apply (iv_attempts _ Hi)]. split; [done|]. simpl. lia.
    + intros * Hl. apply lookup_insert_Some in Hl as [[-> ?]|[_ ?]]; [congruence|done].
  - by eapply inv_acquire_perform.
  - by eapply inv_acquire_granted.
  - eapply inv_attempts; [done|apply map_Forall_delete, (iv_attempts _ Hi)| |eauto].
    intros * Hl. by apply lookup_delete_Some in Hl as [_ ?].
  - eapply inv_attempts; [done|apply map_Forall_delete, (iv_attempts _ Hi)| |].
    + intros * Hl. by apply lookup_delete_Some in Hl as [_ ?].
    + intros c owned Hin Hpr. apply elem_of_cons in Hin as [->|?]; [|done].
      by destruct Hpr as [[? ?]|?].
  - by eapply inv_local.
  - by eapply inv_begin.
  - by eapply inv_started.
  - by eapply inv_perform.
  - by eapply inv_finish.
  - by eapply inv_fault.
  - by eapply inv_late.
Qed.

(** Reachable from a start with a well-formed backend. *)
Definition reachable (s : sys) : Prop :=
  exists t b, backend_wf b /\ rtc sstep (sinit t b) s.

Lemma reachable_inv s : reachable s -> inv s.
Proof.
  intros (t & b & Hwf & H). assert (Hi : inv (sinit t b)) by by apply sinit_inv.
  revert Hi. induction H; eauto using sstep_inv.
Qed.
(** ** What the invariant gives *)

(** A handle that answers [StateActive] at the present instant, whatever its
    injected clock reads, with no release of its own outstanding. *)
Definition admits (s : sys) (hid : nat) (h : Handle) : Prop :=
  exists op r now, nodes s !! hid = Some (MkNode h op r) /\ ~ releasing op /\
    (StateOf now (real s) h).1 = StateActive.

Lemma admits_backed s hid h :
  reachable s -> admits s hid h ->
  owns (pendingAcquires s) (nodes s) (inr hid) (rkey (record h)) (r_Token (record h)) /\
  real s < wallDeadline h /\
  exists r, holder (key_view (backend s) (rkey (record h))) = Some r /\
    matches (record h) r /\ wallDeadline h + skew <= r_ExpiresAt r.
Proof.
  intros Hr (op & r & now & Hn & Hrel & Hs). apply reachable_inv in Hr.
  apply expireLocked_active in Hs as (Hs & _ & Hw & _).
  split_and!; [by eapply owns_handle|done|].
  eapply (iv_claims _ Hr); [|done]. by eapply claims_handle.
Qed.

(** Two handles that admit work are handles of different keys. *)
Lemma admits_exclusive s hid1 hid2 h1 h2 :
  reachable s -> admits s hid1 h1 -> admits s hid2 h2 -> hid1 <> hid2 ->
  rkey (record h1) <> rkey (record h2).
Proof.
  intros Hr H1 H2 Hne Hk. apply Hne.
  destruct (admits_backed _ _ _ Hr H1) as (Ho1 & _ & r1 & Hh1 & [_ Ht1] & _).
  destruct (admits_backed _ _ _ Hr H2) as (Ho2 & _ & r2 & Hh2 & [_ Ht2] & _).
  rewrite Hk in *. simplify_eq. rewrite <- Ht1 in Ho1. rewrite <- Ht2 in Ho2.
  apply reachable_inv in Hr. by pose proof (iv_unique _ Hr _ _ _ _ Ho1 Ho2) as [= ->].
Qed.

(** An acquisition that runs undisturbed: begun, performed and turned into a
    handle. *)
Lemma acquire_steps t b b' ns fl hid key owner p rec :
  policy_ok p -> ns !! hid = None -> validAcquisition key owner rec = true ->
  backend_call (t + skew) (CallTryAcquire key owner (ttl p)) b (Replied rec) b' ->
  rtc sstep (MkSys t b ∅ ns fl)
    (MkSys t b' ∅ (<[hid := MkNode (newHandleAt p rec t t) None None]> ns) fl).
Proof.
  intros Hp Hn Hv Hc.
  eapply rtc_l; [by eapply (s_acquire_begin _ _ _ _ _ 0%nat key owner p t)|].
  eapply rtc_l; [eapply (s_acquire_perform _ _ _ _ _ _ 0%nat); [apply lookup_insert_eq|done]|].
  rewrite insert_insert_eq.
  eapply rtc_l; [eapply (s_acquire_granted _ _ _ _ _ 0%nat hid);
    [apply lookup_insert_eq|done|done]|].
  rewrite delete_insert_eq, delete_empty. apply rtc_refl.
Qed.

(** ** Properties *)

(** C1: mutual exclusion. In every reachable state of the system, whatever the
    interleaving, the lost replies, the timeouts and the calls that arrive late,
    two distinct handles that both admit work (report [StateActive], no release of
    their own in flight) are handles of different keys: at most one process acts on
    a key at a time. *)
Theorem mutual_exclusion s hid1 hid2 h1 h2 :
  reachable s -> admits s hid1 h1 -> admits s hid2 h2 -> hid1 <> hid2 ->
  KeyString (r_Key (record h1)) <> KeyString (r_Key (record h2)).
Proof. apply admits_exclusive. Qed.

(** C2: admission is conservative. A handle that admits work is, at that instant,
    the owner the backend stores for its key, with its fence, and the stored lease
    runs at least until the local deadline of the handle: no successor can have been
    admitted, and none can be before that deadline. *)
Theorem admitted_is_current s hid h :
  reachable s -> admits s hid h ->
  current (real s + skew) (record h) (key_view (backend s) (KeyString (r_Key (record h)))) /\
  (forall t, real s <= t < wallDeadline h -> forall key owner d rec b',
     backend_call (t + skew) (CallTryAcquire key owner d) (backend s) (Replied rec) b' ->
     KeyString key <> KeyString (r_Key (record h))).
Proof.
  intros Hr Ha. destruct (admits_backed _ _ _ Hr Ha) as (_ & Hw & r & Hh & Hm & Hx).
  split.
  - exists r. split_and!; [done|done|lia].
  - intros t Ht key owner d rec b' Hc Hk. apply reachable_inv in Hr.
    apply backend_refines in Hc; [|apply (iv_wf _ Hr)]. simpl in Hc. rewrite Hk in Hc.
    inversion Hc as [?????? [Hn _]| | | | | | | | | | |]; subst. apply Hn. exists r.
    split; [done|lia].
Qed.

(** C10: a fence identifies one acquisition. In every reachable state two distinct
    handles of one key carry different fencing tokens, whether or not they are still
    active, so a resource that compares fences can tell every holder from every
    other. *)
Theorem fence_identifies_handle s hid1 hid2 n1 n2 :
  reachable s -> nodes s !! hid1 = Some n1 -> nodes s !! hid2 = Some n2 -> hid1 <> hid2 ->
  KeyString (r_Key (record (n_handle n1))) = KeyString (r_Key (record (n_handle n2))) ->
  Token (n_handle n1) <> Token (n_handle n2).
Proof.
  intros Hr H1 H2 Hne Hk Ht. apply reachable_inv in Hr. apply Hne.
  destruct n1 as [h1 op1 r1], n2 as [h2 op2 r2]. simpl in *.
  apply (owns_handle (pendingAcquires s)) in H1. apply (owns_handle (pendingAcquires s)) in H2.
  unfold rkey, Token in *. rewrite Hk, Ht in H1.
  by pose proof (iv_unique _ Hr _ _ _ _ H1 H2) as [= ->].
Qed.
End System.
Arguments sys S : clear implicits.
Arguments MkSys {S} _ _ _ _ _.

(** ** Examples on the memory store *)

Definition k2 : Key := MkKey "jobs/hourly".
Definition rec1 : LeaseRecord := MkRecord k1 "a" 1 100 110.
Definition rec2 : LeaseRecord := MkRecord k2 "b" 1 100 110.
Definition store1 : Store := (perform None 100 (CallTryAcquire k1 "a" 10) store0).2.
Definition store2 : Store := (perform None 100 (CallTryAcquire k2 "b" 10) store1).2.
Definition idle (rec : LeaseRecord) : node := MkNode (newHandleAt pol0 rec 100 100) None None.

Lemma pol0_ok : policy_ok pol0.
Proof. split; [split; vm_compute; intuition (congruence || auto)|done]. Qed.

Lemma one_holder : rtc (sstep 0) (sinit 100 store0) (MkSys 100 store1 ∅ {[0%nat := idle rec1]} []).
Proof.
  apply (acquire_steps 0 100 store0 store1 ∅ [] 0%nat k1 "a" pol0 rec1); try done;
    [exact pol0_ok|by exists None].
Qed.

(** Two processes hold two keys at once. *)
Definition two_holders : sys Store :=
  MkSys 100 store2 ∅ (<[1%nat := idle rec2]> {[0%nat := idle rec1]}) [].

Lemma two_holders_reachable : reachable 0 two_holders.
Proof.
  exists 100, store0. split; [exact store0_wf|].
  etransitivity; [exact one_holder|].
  apply (acquire_steps 0 100 store1 store2 _ [] 1%nat k2 "b" pol0 rec2); try done;
    [exact pol0_ok|by exists None].
Qed.

Lemma two_holders_admit :
  admits two_holders 0 (newHandleAt pol0 rec1 100 100) /\
  admits two_holders 1 (newHandleAt pol0 rec2 100 100).
Proof. split; exists None, None, 100; split_and!; (done || tauto). Qed.

Lemma mutual_exclusion_witness :
  reachable 0 two_holders /\ admits two_holders 0 (newHandleAt pol0 rec1 100 100) /\
  admits two_holders 1 (newHandleAt pol0 rec2 100 100) /\ KeyString k1 <> KeyString k2.
Proof.
  split; [exact two_holders_reachable|]. destruct two_holders_admit as [H1 H2].
  split_and!; [done|done|].
  exact (mutual_exclusion 0 two_holders 0 1 _ _ two_holders_reachable H1 H2 ltac:(done)).
Defined.

Lemma admitted_is_current_witness :
  admits two_holders 0 (newHandleAt pol0 rec1 100 100) /\
  current 100 rec1 (view store2 (KeyString k1)).
Proof.
  destruct two_holders_admit as [H1 _]. split; [done|].
  apply (admitted_is_current 0 two_holders 0 _ two_holders_reachable H1).
Defined.

(** A release was performed but its reply is still on the way; meanwhile the key
    went to a successor. *)
Definition rec3 : LeaseRecord := MkRecord k1 "b" 2 100 110.
Definition store3 : Store := (perform None 100 (CallRelease rec1) store1).2.
Definition store4 : Store := (perform None 100 (CallTryAcquire k1 "b" 10) store3).2.
Definition releasing_node : node :=
  MkNode (set_busy true (newHandleAt pol0 rec1 100 100)) (Some (PRelease rec1)) (Some Acknowledged).
Definition handover : sys Store :=
  MkSys 100 store4 ∅ (<[1%nat := idle rec3]> {[0%nat := releasing_node]}) [].

Lemma handover_steps : rtc (sstep 0) (sinit 100 store0) handover.
Proof.
  etransitivity; [exact one_holder|].
  eapply rtc_l; [eapply (s_begin 0 _ _ _ _ _ 0%nat); [apply lookup_insert_eq|by eapply begin_release]|].
  eapply rtc_l; [eapply (s_perform 0 _ _ store3 _ _ _ 0%nat); [apply lookup_insert_eq|by exists None]|].
  rewrite !insert_insert_eq.
  apply (acquire_steps 0 100 store3 store4 _ [] 1%nat k1 "b" pol0 rec3); try done;
    [exact pol0_ok|by exists None].
Qed.

Lemma handover_reachable : reachable 0 handover.
Proof. exists 100, store0. split; [exact store0_wf|exact handover_steps]. Qed.

Lemma fence_identifies_handle_witness :
  reachable 0 handover /\ Token (n_handle releasing_node) <> Token (n_handle (idle rec3)).
Proof.
  split; [exact handover_reachable|].
  exact (fence_identifies_handle 0 handover 0 1 releasing_node (idle rec3) handover_reachable
    eq_refl eq_refl ltac:(done) eq_refl).
Defined.

(** C35: why a handle that is being released must not be used for admission. A
    state is reachable, without any fault, in which two handles of one key both
    report [StateActive]: the first has a release in flight that the backend already
    performed, and the second is the successor's. [Release] closes admission only
    when its reply arrives; the fences still tell the two apart. *)
Theorem release_window :
  exists s hid1 hid2 n1 n2, reachable (S := Store) 0 s /\ hid1 <> hid2 /\
    nodes s !! hid1 = Some n1 /\ nodes s !! hid2 = Some n2 /\ releasing (n_op n1) /\
    KeyString (r_Key (record (n_handle n1))) = KeyString (r_Key (record (n_handle n2))) /\
    (StateOf (real s) (real s) (n_handle n1)).1 = StateActive /\
    (StateOf (real s) (real s) (n_handle n2)).1 = StateActive /\
    Token (n_handle n1) < Token (n_handle n2).
Proof.
  exists handover, 0%nat, 1%nat, releasing_node, (idle rec3).
  split; [exact handover_reachable|]. by split_and!.
Qed.
