(* ===== verification/Service.v ===== *)
(** * adapters/service/manager.go: handle accounting and shared shutdown

    The manager's fields change only under its mutex: each critical section is a
    function, and the interleavings of any number of [Acquire] and [Shutdown] calls
    with the one cleanup goroutine are the steps of [mstep]. What the lease client
    and the handles do between the sections is arbitrary. Channels are identities
    with a set of closed ones; closing a closed channel panics, so the sections that
    close one may have no result. *)

From S2P Require Import Prelude GoBase GoStrings Errors.
#[local] Open Scope list_scope.

(** [owned]: the handle, and whether it has a renewer. *)
Record owned := MkOwned { o_handle : nat; o_managed : bool }.

(** [Manager], with the channels. *)
Record Manager := MkManager {
  max : Z;
  active : Z;
  acquiring : Z;
  closed : bool;
  entries : list owned;
  acquisitionsDone : nat;
  shutdownStarted : bool;
  shutdownDone : option nat;
  shutdownErr : err_opt;
  next_chan : nat;
  closed_chans : gset nat
}.

(** [New]. *)
Definition New (client : bool) (maxHandles : Z) : res Manager :=
  if negb client || (maxHandles =? 0) then Err (WrapS ErrInvalidState "service manager")
  else Ok (MkManager maxHandles 0 0 false [] 0 false None None 1 {[0%nat]}).

Definition close_chan (ch : nat) (m : Manager) : option Manager :=
  if decide (ch ∈ closed_chans m) then None
  else Some (MkManager (max m) (active m) (acquiring m) (closed m) (entries m) (acquisitionsDone m)
               (shutdownStarted m) (shutdownDone m) (shutdownErr m) (next_chan m)
               ({[ch]} ∪ closed_chans m)).

Definition set_counts (a q : Z) (m : Manager) : Manager :=
  MkManager (max m) a q (closed m) (entries m) (acquisitionsDone m) (shutdownStarted m)
    (shutdownDone m) (shutdownErr m) (next_chan m) (closed_chans m).
Definition add_entry (o : owned) (m : Manager) : Manager :=
  MkManager (max m) (active m) (acquiring m) (closed m) (entries m ++ [o])%list (acquisitionsDone m)
    (shutdownStarted m) (shutdownDone m) (shutdownErr m) (next_chan m) (closed_chans m).

(** [operationContextError]; the context is nil, or reports its error. *)
Definition operationContextError (ctx : option err_opt) (operation : string) : err_opt :=
  match ctx with
  | None => Some (WrapS ErrInvalidState (operation ++ " context")%string)
  | Some (Some e) => Join [Some (WrapS ErrCanceled operation); Some e]
  | Some None => None
  end.

(** [Acquire], first section: the reservation. *)
Definition reserve (m : Manager) : err_opt * Manager :=
  if closed m then (Some (WrapS ErrInvalidState "service shutdown"), m)
  else if max m <=? active m then (Some (WrapS ErrBackendUnavailable "service capacity"), m)
  else
    let fresh := acquiring m =? 0 in
    (None, MkManager (max m) (wrapu32 (active m + 1)) (wrapu32 (acquiring m + 1)) (closed m) (entries m)
             (if fresh then next_chan m else acquisitionsDone m)
             (shutdownStarted m) (shutdownDone m) (shutdownErr m)
             (if fresh then S (next_chan m) else next_chan m) (closed_chans m)).

(** [finishAcquisitionLocked]. *)
Definition finishAcquisitionLocked (m : Manager) : option Manager :=
  let m' := set_counts (active m) (wrapu32 (acquiring m - 1)) m in
  if acquiring m' =? 0 then close_chan (acquisitionsDone m') m' else Some m'.

(** [releaseReservation]. *)
Definition releaseReservation (m : Manager) : option Manager :=
  finishAcquisitionLocked (set_counts (wrapu32 (active m - 1)) (acquiring m) m).

(** [Acquire], last section: the entry is recorded whether or not shutdown won;
    the channel to wait on when it did. *)
Definition record_acquisition (o : owned) (m : Manager) : option (option nat * Manager) :=
  match finishAcquisitionLocked (add_entry o m) with
  | None => None
  | Some m' => Some (if closed m then shutdownDone m' else None, m')
  end.

(** [Shutdown], first section: starts the cleanup once; the channel to wait on. *)
Definition beginShutdown (m : Manager) : bool * option nat * Manager :=
  if shutdownStarted m then (false, shutdownDone m, m)
  else
    (true, Some (next_chan m),
     MkManager (max m) (active m) (acquiring m) true (entries m) (acquisitionsDone m) true
       (Some (next_chan m)) (shutdownErr m) (S (next_chan m)) (closed_chans m)).

(** [cleanup]: the channel it waits for, the copy of the entries, one round of the
    loop, and the last section. *)
Definition cleanup_wait (m : Manager) : nat := acquisitionsDone m.
Definition cleanup_snapshot (m : Manager) : list owned := entries m.
Definition cleanup_round (result : err_opt) (o : owned) (stopErr releaseErr : err_opt) : err_opt :=
  let result := if o_managed o then Join [result; stopErr] else result in
  Join [result; releaseErr].
Definition cleanup_finish (snapshot : list owned) (result : err_opt) (m : Manager) : option Manager :=
  match shutdownDone m with
  | None => None
  | Some ch =>
      close_chan ch
        (MkManager (max m) (wrapu32 (active m - wrapu32 (Z.of_nat (length snapshot)))) (acquiring m)
           (closed m) [] (acquisitionsDone m) (shutdownStarted m) (shutdownDone m) result
           (next_chan m) (closed_chans m))
  end.

(** [Active]. *)
Definition Active (m : Manager) : Z := active m.

(** ** Interleavings *)

(** Where a call of [Acquire] is: inside [client.Acquire]; with a handle that has
    to be recorded; rolling back; or waiting for the shared cleanup. *)
Inductive worker :=
| Calling
| Acquired (h : nat)
| RollingBack (h : nat)
| WaitingFor (ch : nat).

(** Where the cleanup goroutine is. *)
Inductive cleaner :=
| NotStarted
| WaitingAcquisitions (ch : nat)
| Joined
| Releasing (snapshot todo : list owned) (result : err_opt)
| Finished.

(** What the manager asked of a handle. *)
Inductive action := Stopped (h : nat) | ReleaseCalled (h : nat).

(** The manager, the calls in progress, the cleanup; the handles the client handed
    out so far, the actions on them in order, and whether one of the cleanup's
    actions returned an error. *)
Record msys := MkMsys {
  manager : Manager;
  workers : gmap nat worker;
  cleaning : cleaner;
  handed : list nat;
  actions : list action;
  failed : bool
}.

Definition is_err (e : err_opt) : bool := if e is Some _ then true else false.

Inductive mstep : msys -> msys -> Prop :=
| m_reserve id m m' ws c hs al f :
    ws !! id = None -> reserve m = (None, m') ->
    mstep (MkMsys m ws c hs al f) (MkMsys m' (<[id := Calling]> ws) c hs al f)
| m_refused m e m' ws c hs al f :
    reserve m = (Some e, m') -> mstep (MkMsys m ws c hs al f) (MkMsys m' ws c hs al f)
| m_acquire_failed id m m' ws c hs al f :
    ws !! id = Some Calling -> releaseReservation m = Some m' ->
    mstep (MkMsys m ws c hs al f) (MkMsys m' (delete id ws) c hs al f)
| m_acquired id h m ws c hs al f :
    ws !! id = Some Calling -> h ∉ hs ->
    mstep (MkMsys m ws c hs al f) (MkMsys m (<[id := Acquired h]> ws) c (h :: hs) al f)
| m_start_failed id h m ws c hs al f :
    ws !! id = Some (Acquired h) ->
    mstep (MkMsys m ws c hs al f) (MkMsys m (<[id := RollingBack h]> ws) c hs al f)
| m_rolled_back id h m m' ws c hs al f :
    ws !! id = Some (RollingBack h) -> releaseReservation m = Some m' ->
    mstep (MkMsys m ws c hs al f) (MkMsys m' (delete id ws) c hs (al ++ [ReleaseCalled h])%list f)
| m_recorded id h managed m m' ws c hs al f :
    ws !! id = Some (Acquired h) -> record_acquisition (MkOwned h managed) m = Some (None, m') ->
    mstep (MkMsys m ws c hs al f) (MkMsys m' (delete id ws) c hs al f)
| m_recorded_late id h managed ch m m' ws c hs al f :
    ws !! id = Some (Acquired h) -> record_acquisition (MkOwned h managed) m = Some (Some ch, m') ->
    mstep (MkMsys m ws c hs al f) (MkMsys m' (<[id := WaitingFor ch]> ws) c hs al f)
| m_returned id ch m ws c hs al f :
    ws !! id = Some (WaitingFor ch) ->
    mstep (MkMsys m ws c hs al f) (MkMsys m (delete id ws) c hs al f)
| m_shutdown_first ch m m' ws hs al f :
    beginShutdown m = (true, ch, m') ->
    mstep (MkMsys m ws NotStarted hs al f) (MkMsys m' ws (WaitingAcquisitions (cleanup_wait m')) hs al f)
| m_shutdown_again ch m m' ws c hs al f :
    beginShutdown m = (false, ch, m') -> mstep (MkMsys m ws c hs al f) (MkMsys m' ws c hs al f)
| m_joined ch m ws hs al f :
    ch ∈ closed_chans m ->
    mstep (MkMsys m ws (WaitingAcquisitions ch) hs al f) (MkMsys m ws Joined hs al f)
| m_snapshot m ws hs al f :
    mstep (MkMsys m ws Joined hs al f)
      (MkMsys m ws (Releasing (cleanup_snapshot m) (cleanup_snapshot m) None) hs al f)
| m_round o todo snapshot result stopErr releaseErr m ws hs al f :
    mstep (MkMsys m ws (Releasing snapshot (o :: todo) result) hs al f)
      (MkMsys m ws (Releasing snapshot todo (cleanup_round result o stopErr releaseErr)) hs
        (al ++ (if o_managed o then [Stopped (o_handle o)] else []) ++ [ReleaseCalled (o_handle o)])%list
        (f || (o_managed o && is_err stopErr) || is_err releaseErr))
| m_finished snapshot result m m' ws hs al f :
    cleanup_finish snapshot result m = Some m' ->
    mstep (MkMsys m ws (Releasing snapshot [] result) hs al f) (MkMsys m' ws Finished hs al f).

Definition minit (m : Manager) : msys := MkMsys m ∅ NotStarted [] [] false.

(** ** Counting over the calls in progress *)

Definition flat {A} (f : worker -> list A) (ws : gmap nat worker) : list A :=
  map_to_list ws ≫= fun p => f p.2.

Lemma flat_delete {A} (f : worker -> list A) ws id w :
  ws !! id = Some w -> flat f ws ≡ₚ f w ++ flat f (delete id ws).
Proof. intros H. unfold flat. by rewrite <- (map_to_list_delete ws id w H). Qed.

Lemma flat_insert {A} (f : worker -> list A) ws id w :
  flat f (<[id := w]> ws) ≡ₚ f w ++ flat f (delete id ws).
Proof.
  rewrite <- insert_delete_eq. unfold flat. rewrite map_to_list_insert by apply lookup_delete_eq. done.
Qed.

Lemma flat_insert_new {A} (f : worker -> list A) ws id w :
  ws !! id = None -> flat f (<[id := w]> ws) ≡ₚ f w ++ flat f ws.
Proof. intros H. unfold flat. by rewrite map_to_list_insert. Qed.

(** A call holds a reservation until it fails, rolls back or records its handle. *)
Definition holding (w : worker) : list () := match w with WaitingFor _ => [] | _ => [()] end.
Definition in_flight (ws : gmap nat worker) : Z := Z.of_nat (length (flat holding ws)).

(** The handles that calls in progress answer for. *)
Definition carried (w : worker) : list nat :=
  match w with Acquired h | RollingBack h => [h] | _ => [] end.

(** The entries the cleanup has still to release. *)
Definition unreleased (m : Manager) (c : cleaner) : list owned :=
  match c with
  | Releasing _ todo _ => todo
  | Finished => []
  | _ => entries m
  end.

Definition releases (al : list action) : list nat :=
  omap (fun a => match a with ReleaseCalled h => Some h | Stopped _ => None end) al.

Lemma releases_app al al' : releases (al ++ al') = (releases al ++ releases al')%list.
Proof. apply omap_app. Qed.

Lemma in_flight_nonneg ws : 0 <= in_flight ws.
Proof. unfold in_flight. lia. Qed.

(** ** The invariant *)

Definition cleaner_ok (s : msys) : Prop :=
  match cleaning s with
  | NotStarted => shutdownStarted (manager s) = false /\ failed s = false
  | WaitingAcquisitions ch =>
      shutdownStarted (manager s) = true /\ ch = acquisitionsDone (manager s) /\ failed s = false
  | Joined => shutdownStarted (manager s) = true /\ acquiring (manager s) = 0 /\ failed s = false
  | Releasing snapshot todo result =>
      shutdownStarted (manager s) = true /\ acquiring (manager s) = 0 /\ snapshot = entries (manager s) /\
      is_err result = failed s
  | Finished =>
      shutdownStarted (manager s) = true /\ acquiring (manager s) = 0 /\ entries (manager s) = [] /\
      is_err (shutdownErr (manager s)) = failed s
  end.

Record minv (s : msys) : Prop := {
  mi_acquiring : acquiring (manager s) = in_flight (workers s);
  mi_active : active (manager s) = acquiring (manager s) + Z.of_nat (length (entries (manager s)));
  mi_max : active (manager s) <= max (manager s) <= uint32_max;
  mi_done : acquisitionsDone (manager s) ∈ closed_chans (manager s) <-> acquiring (manager s) = 0;
  mi_chans : forall ch, ch ∈ closed_chans (manager s) -> (ch < next_chan (manager s))%nat;
  mi_done_lt : (acquisitionsDone (manager s) < next_chan (manager s))%nat;
  mi_closed : closed (manager s) = shutdownStarted (manager s);
  mi_shutdown : if shutdownStarted (manager s)
    then exists d, shutdownDone (manager s) = Some d /\ (d < next_chan (manager s))%nat /\
      d <> acquisitionsDone (manager s) /\ (d ∈ closed_chans (manager s) <-> cleaning s = Finished)
    else shutdownDone (manager s) = None;
  mi_cleaner : cleaner_ok s;
  mi_nodup : NoDup (handed s);
  mi_handles : handed s ≡ₚ releases (actions s) ++ flat carried (workers s) ++
    (o_handle <$> unreleased (manager s) (cleaning s))
}.

Lemma New_inv max m : is_uint32 max -> New true max = Ok m -> minv (minit m).
Proof.
  unfold New, is_uint32. simpl. intros Hm H. destruct (Z.eqb_spec max 0); [done|]. simplify_eq.
  split; simpl; try done; try lia; try set_solver.
  constructor.
Qed.

(** Counters stay within uint32. *)
Lemma minv_range s : minv s -> 0 <= acquiring (manager s) <= active (manager s) /\ active (manager s) <= uint32_max.
Proof. intros [H1 H2 H3]. pose proof (in_flight_nonneg (workers s)). lia. Qed.

(** The manager after a call gave up its reservation, adding [es] to the entries. *)
Definition left_manager (es : list owned) (m : Manager) : Manager :=
  MkManager (max m) (active m - 1 + Z.of_nat (length es)) (acquiring m - 1) (closed m)
    (entries m ++ es)%list (acquisitionsDone m) (shutdownStarted m) (shutdownDone m) (shutdownErr m)
    (next_chan m)
    (if decide (acquiring m = 1) then {[acquisitionsDone m]} ∪ closed_chans m else closed_chans m).

Lemma finishAcquisition_eq m :
  1 <= acquiring m <= uint32_max -> acquisitionsDone m ∉ closed_chans m ->
  finishAcquisitionLocked m =
  Some (MkManager (max m) (active m) (acquiring m - 1) (closed m) (entries m) (acquisitionsDone m)
    (shutdownStarted m) (shutdownDone m) (shutdownErr m) (next_chan m)
    (if decide (acquiring m = 1) then {[acquisitionsDone m]} ∪ closed_chans m else closed_chans m)).
Proof.
  intros Hq Hd. unfold finishAcquisitionLocked. simpl.
  rewrite wrapu32_id by (unfold is_uint32; lia).
  destruct (Z.eqb_spec (acquiring m - 1) 0).
  - unfold close_chan. simpl. rewrite decide_False by done. rewrite decide_True by lia. done.
  - rewrite decide_False by lia. done.
Qed.

(** The reservation of a call in progress: the counters are positive and the channel
    is open. *)
Lemma holder_counts s id w :
  minv s -> workers s !! id = Some w -> holding w = [()] ->
  1 <= acquiring (manager s) <= uint32_max /\ acquisitionsDone (manager s) ∉ closed_chans (manager s) /\
  1 <= active (manager s) <= uint32_max /\ acquiring (manager s) = 1 + in_flight (delete id (workers s)).
Proof.
  intros Hi Hw Hh. pose proof (minv_range s Hi) as Hr.
  assert (Hf : in_flight (workers s) = 1 + in_flight (delete id (workers s))).
  { unfold in_flight. rewrite (flat_delete holding _ _ _ Hw), length_app, Hh. simpl. lia. }
  pose proof (in_flight_nonneg (delete id (workers s))).
  rewrite (mi_acquiring s Hi) in *. split_and!; try lia.
  rewrite (mi_done s Hi), (mi_acquiring s Hi). lia.
Qed.

Lemma releaseReservation_eq m :
  1 <= acquiring m <= uint32_max -> acquisitionsDone m ∉ closed_chans m -> 1 <= active m <= uint32_max ->
  releaseReservation m = Some (left_manager [] m).
Proof.
  intros Hq Hd Ha. unfold releaseReservation. rewrite finishAcquisition_eq by done. simpl.
  rewrite wrapu32_id by (unfold is_uint32; lia). unfold left_manager. simpl.
  by rewrite app_nil_r, Z.add_0_r.
Qed.

Lemma record_acquisition_eq m o :
  1 <= acquiring m <= uint32_max -> acquisitionsDone m ∉ closed_chans m ->
  record_acquisition o m = Some (if closed m then shutdownDone m else None, left_manager [o] m).
Proof.
  intros Hq Hd. unfold record_acquisition. rewrite finishAcquisition_eq by done. simpl.
  unfold left_manager. simpl. do 3 f_equal. lia.
Qed.

(** A call that gives up its reservation keeps the invariant. *)
Lemma minv_leave m ws c hs al f id w es al' ws' :
  minv (MkMsys m ws c hs al f) -> ws !! id = Some w -> holding w = [()] -> (length es <= 1)%nat ->
  flat holding ws' ≡ₚ flat holding (delete id ws) -> flat carried ws' ≡ₚ flat carried (delete id ws) ->
  releases al' ++ (o_handle <$> es) ≡ₚ releases al ++ carried w ->
  minv (MkMsys (left_manager es m) ws' c hs al' f).
Proof.
  intros Hi Hw Hh Hes Hfl Hcar Hrel.
  pose proof (holder_counts _ _ _ Hi Hw Hh) as (Hq & Hd & Ha & Hqe). simpl in *.
  destruct Hi as [H1 H2 H3 H4 H5 H6 H7 H8 H9 H10 H11]. unfold cleaner_ok in H9. simpl in *.
  assert (Hc : c = NotStarted \/ exists ch, c = WaitingAcquisitions ch).
  { destruct c; [by left|eauto|lia..]. }
  split; simpl; try done.
  - unfold in_flight in *. rewrite Hfl. lia.
  - rewrite length_app. lia.
  - lia.
  - case_decide; [split; [lia|set_solver]|]. rewrite H4. lia.
  - intros ch. case_decide; [|apply H5]. rewrite elem_of_union, elem_of_singleton. naive_solver.
  - destruct (shutdownStarted m); [|done]. destruct H8 as (d & -> & Hlt & Hne & Hdc).
    exists d. split_and!; try done. case_decide; [|done]. set_solver.
  - unfold cleaner_ok. simpl. destruct Hc as [->|[ch ->]]; done.
  - rewrite H11, Hcar, (flat_delete carried _ _ _ Hw).
    assert (Hu : unreleased m c = entries m /\ unreleased (left_manager es m) c = entries m ++ es).
    { destruct Hc as [->|[ch ->]]; done. }
    destruct Hu as [-> ->]. rewrite fmap_app.
    rewrite (Permutation_app_comm (o_handle <$> entries m) (o_handle <$> es)).
    rewrite !app_assoc. rewrite <- Hrel.
    rewrite <- !app_assoc. f_equiv. rewrite !app_assoc. f_equiv. apply Permutation_app_comm.
Qed.

(** A step that moves a call between positions that hold a reservation. *)
Lemma minv_move m ws c hs al f id w w' hs' :
  minv (MkMsys m ws c hs al f) -> ws !! id = Some w -> holding w = holding w' ->
  NoDup hs' -> hs' ++ carried w ≡ₚ hs ++ carried w' ->
  minv (MkMsys m (<[id := w']> ws) c hs' al f).
Proof.
  intros [H1 H2 H3 H4 H5 H6 H7 H8 H9 H10 H11] Hw Hh Hnd Hhs. simpl in *. split; simpl; try done.
  - rewrite H1. unfold in_flight.
    by rewrite (flat_insert holding), (flat_delete holding _ _ _ Hw), Hh.
  - apply (Permutation_app_inv_r (carried w)). rewrite Hhs, H11.
    rewrite (flat_insert carried), (flat_delete carried _ _ _ Hw).
    rewrite <- !app_assoc. f_equiv.
    rewrite (Permutation_app_comm (carried w) (flat carried (delete id ws) ++ _)).
    rewrite <- !app_assoc.
    rewrite (Permutation_app_comm (carried w') (flat carried (delete id ws) ++ _)).
    rewrite <- !app_assoc. do 2 f_equiv. apply Permutation_app_comm.
Qed.

Lemma minv_reserve m m' ws c hs al f id :
  minv (MkMsys m ws c hs al f) -> ws !! id = None -> reserve m = (None, m') ->
  minv (MkMsys m' (<[id := Calling]> ws) c hs al f).
Proof.
  intros Hi Hid H. pose proof (minv_range _ Hi) as Hr.
  destruct Hi as [H1 H2 H3 H4 H5 H6 H7 H8 H9 H10 H11]. simpl in *.
  unfold reserve in H. destruct (closed m) eqn:Ecl; [done|].
  destruct (Z.leb_spec (max m) (active m)); [done|]. injection H as <-.
  unfold cleaner_ok in H9. simpl in H9. rewrite <- H7 in *.
  assert (Hc : c = NotStarted) by (destruct c; naive_solver). subst c. destruct H9 as [_ ->].
  split; simpl; rewrite ?wrapu32_id by (unfold is_uint32; lia); try done; try lia.
  - rewrite H1. unfold in_flight. rewrite (flat_insert_new holding) by done. simpl. lia.
  - destruct (Z.eqb_spec (acquiring m) 0); [|rewrite H4; lia].
    split; [|lia]. intros Hin. apply H5 in Hin. lia.
  - intros ch Hch. apply H5 in Hch. destruct (acquiring m =? 0); lia.
  - destruct (acquiring m =? 0); lia.
  - rewrite (flat_insert_new carried) by done. done.
Qed.

Lemma minv_shutdown m m' ws hs al f ch :
  minv (MkMsys m ws NotStarted hs al f) -> beginShutdown m = (true, ch, m') ->
  minv (MkMsys m' ws (WaitingAcquisitions (cleanup_wait m')) hs al f).
Proof.
  intros [H1 H2 H3 H4 H5 H6 H7 H8 H9 H10 H11] H. unfold cleaner_ok in H9. simpl in *.
  destruct H9 as [Hs ->]. unfold beginShutdown in H. rewrite Hs in H. injection H as <- <-.
  split; simpl; try done.
  - intros ch Hch. apply H5 in Hch. lia.
  - lia.
  - exists (next_chan m). split_and!; try done; try lia.
    split; [|done]. intros Hin. apply H5 in Hin. lia.
Qed.

(** The cleanup's own steps change neither the counters nor the calls. *)
Lemma minv_cleaner m ws c c' hs al al' f f' :
  minv (MkMsys m ws c hs al f) -> c <> Finished -> c' <> Finished ->
  cleaner_ok (MkMsys m ws c' hs al' f') ->
  releases al' ++ (o_handle <$> unreleased m c') ≡ₚ releases al ++ (o_handle <$> unreleased m c) ->
  minv (MkMsys m ws c' hs al' f').
Proof.
  intros [H1 H2 H3 H4 H5 H6 H7 H8 H9 H10 H11] Hc Hc' Hok Hrel. simpl in *. split; simpl; try done.
  - destruct (shutdownStarted m); [|done]. destruct H8 as (d & ? & ? & ? & Hd). exists d.
    split_and!; try done. rewrite Hd. naive_solver.
  - rewrite H11. rewrite (Permutation_app_comm (flat carried ws)), !app_assoc.
    rewrite <- Hrel. rewrite <- !app_assoc. f_equiv. apply Permutation_app_comm.
Qed.

Lemma cleanup_finish_eq m ws snapshot result hs al f :
  minv (MkMsys m ws (Releasing snapshot [] result) hs al f) ->
  exists m', cleanup_finish snapshot result m = Some m' /\ minv (MkMsys m' ws Finished hs al f).
Proof.
  intros Hi. pose proof (minv_range _ Hi) as Hr.
  destruct Hi as [H1 H2 H3 H4 H5 H6 H7 H8 H9 H10 H11]. unfold cleaner_ok in H9. simpl in *.
  destruct H9 as (Hs & Hq & -> & Hres). rewrite Hs in H8. destruct H8 as (d & Hd & Hlt & Hne & Hdc).
  assert (Hnd : d ∉ closed_chans m) by (rewrite Hdc; done).
  unfold cleanup_finish, close_chan. rewrite Hd. simpl. rewrite decide_False by done.
  eexists. split; [done|].
  rewrite (wrapu32_id (Z.of_nat (length (entries m)))) by (unfold is_uint32; lia).
  rewrite wrapu32_id by (unfold is_uint32; lia).
  split; simpl; try done; try lia.
  - rewrite <- H4. set_solver.
  - intros ch. rewrite elem_of_union, elem_of_singleton. naive_solver.
  - rewrite Hs. exists d. split_and!; try done. set_solver.
Qed.

Lemma mstep_inv s s' : minv s -> mstep s s' -> minv s'.
Proof.
  intros Hi H. destruct H as [id m m' ws c hs al f Hid H|m e m' ws c hs al f H
    |id m m' ws c hs al f Hw H|id h m ws c hs al f Hw Hh|id h m ws c hs al f Hw
    |id h m m' ws c hs al f Hw H|id h mg m m' ws c hs al f Hw H|id h mg ch m m' ws c hs al f Hw H
    |id ch m ws c hs al f Hw|ch m m' ws hs al f H|ch m m' ws c hs al f H|ch m ws hs al f Hin
    |m ws hs al f|o todo snap res e1 e2 m ws hs al f|snap res m m' ws hs al f H].
  - by eapply minv_reserve.
  - unfold reserve in H. repeat (step_case_in H; simplify_eq); done.
  - pose proof (holder_counts _ _ _ Hi Hw eq_refl) as (Hq & Hd & Ha & _). simpl in *.
    rewrite releaseReservation_eq in H by done. injection H as <-.
    eapply (minv_leave m ws c hs al f id Calling []); try done. simpl. lia.
  - eapply minv_move; [done|done|done| |].
    + constructor; [done|apply (mi_nodup _ Hi)].
    + simpl. rewrite app_nil_r. apply Permutation_cons_append.
  - eapply minv_move; [done|done|done|apply (mi_nodup _ Hi)|done].
  - pose proof (holder_counts _ _ _ Hi Hw eq_refl) as (Hq & Hd & Ha & _). simpl in *.
    rewrite releaseReservation_eq in H by done. injection H as <-.
    eapply (minv_leave m ws c hs al f id (RollingBack h) []); try done; [simpl; lia|].
    rewrite releases_app. simpl. by rewrite app_nil_r.
  - pose proof (holder_counts _ _ _ Hi Hw eq_refl) as (Hq & Hd & Ha & _). simpl in *.
    rewrite record_acquisition_eq in H by done. injection H as _ <-.
    by eapply (minv_leave m ws c hs al f id (Acquired h) [MkOwned h mg]).
  - pose proof (holder_counts _ _ _ Hi Hw eq_refl) as (Hq & Hd & Ha & _). simpl in *.
    rewrite record_acquisition_eq in H by done. injection H as _ <-.
    eapply (minv_leave m ws c hs al f id (Acquired h) [MkOwned h mg]); try done;
      by rewrite (flat_insert _ ws id (WaitingFor ch)).
  - destruct Hi as [H1 H2 H3 H4 H5 H6 H7 H8 H9 H10 H11]. simpl in *. split; simpl; try done.
    + rewrite H1. unfold in_flight. by rewrite (flat_delete holding _ _ _ Hw).
    + rewrite H11. by rewrite (flat_delete carried _ _ _ Hw).
  - by eapply minv_shutdown.
  - unfold beginShutdown in H. step_case_in H; by simplify_eq.
  - pose proof (mi_cleaner _ Hi) as (Hs & Hch & Hf). pose proof (mi_done _ Hi) as Hd. simpl in *.
    rewrite <- Hch in Hd.
    eapply minv_cleaner; try done. unfold cleaner_ok. simpl. split_and!; [done|by apply Hd|done].
  - pose proof (mi_cleaner _ Hi) as (Hs & Hq & Hf). simpl in *.
    eapply minv_cleaner; done.
  - pose proof (mi_cleaner _ Hi) as (Hs & Hq & Hsn & Hf). simpl in *.
    eapply minv_cleaner; try done.
    + unfold cleaner_ok. simpl. split_and!; try done. rewrite <- Hf. unfold cleanup_round.
      destruct (o_managed o), res, e1, e2; done.
    + rewrite !releases_app. simpl. destruct (o_managed o); simpl; rewrite <- !app_assoc; done.
  - destruct (cleanup_finish_eq _ _ _ _ _ _ _ Hi) as (m2 & H2 & Hi2). by simplify_eq.
Qed.

Lemma msteps_inv s s' : minv s -> rtc mstep s s' -> minv s'.
Proof. intros Hi H. revert Hi. induction H; eauto using mstep_inv. Qed.

(** ** The cleanup runs to its end *)

Lemma releasing_finishes m ws snapshot todo : forall result hs al f,
  minv (MkMsys m ws (Releasing snapshot todo result) hs al f) ->
  exists s', rtc mstep (MkMsys m ws (Releasing snapshot todo result) hs al f) s' /\
    cleaning s' = Finished /\ workers s' = ws.
Proof.
  induction todo as [|o todo IH]; intros result hs al f Hi.
  - destruct (cleanup_finish_eq _ _ _ _ _ _ _ Hi) as (m' & Hc & _).
    eexists. split; [apply rtc_once; by apply m_finished|done].
  - pose proof (m_round o todo snapshot result None None m ws hs al f) as Hst.
    destruct (IH _ _ _ _ (mstep_inv _ _ Hi Hst)) as (s' & Hs & ? & ?).
    exists s'. split; [by eapply rtc_l|done].
Qed.

(** ** Properties *)

(** C26: accounting. In every interleaving of acquisitions and shutdowns, [Active] is
    the number of calls that hold a reservation plus the number of recorded handles,
    never more than the configured maximum, and the critical section every call or
    cleanup is about to enter runs without closing a channel twice. *)
Theorem manager_accounting max m s :
  is_uint32 max -> New true max = Ok m -> rtc mstep (minit m) s ->
  Active (manager s) = in_flight (workers s) + Z.of_nat (length (entries (manager s))) /\
  Active (manager s) <= max /\
  (forall id, workers s !! id = Some Calling -> is_Some (releaseReservation (manager s))) /\
  (forall id h, workers s !! id = Some (RollingBack h) -> is_Some (releaseReservation (manager s))) /\
  (forall id h b, workers s !! id = Some (Acquired h) ->
     is_Some (record_acquisition (MkOwned h b) (manager s))) /\
  (forall snapshot result, cleaning s = Releasing snapshot [] result ->
     is_Some (cleanup_finish snapshot result (manager s))).
Proof.
  intros Hmax HN Hr. pose proof (msteps_inv _ _ (New_inv _ _ Hmax HN) Hr) as Hi.
  assert (Hm : Service.max (manager s) = max).
  { assert (H0 : Service.max (manager (minit m)) = max)
      by (unfold New in HN; simpl in HN; destruct (max =? 0); by simplify_eq).
    rewrite <- H0. clear -Hr. induction Hr as [|s1 s2 s3 H12 _ IH]; [done|]. rewrite IH.
    destruct H12; simpl; unfold reserve, releaseReservation, record_acquisition, finishAcquisitionLocked,
      beginShutdown, cleanup_finish, close_chan in *; repeat (case_match; simplify_eq/=); done. }
  pose proof (holder_counts s) as Hh. unfold Active.
  rewrite (mi_active _ Hi), (mi_acquiring _ Hi). split_and!; [done| | | | |].
  - pose proof (mi_max _ Hi). pose proof (mi_active _ Hi). pose proof (mi_acquiring _ Hi). lia.
  - intros id Hw. destruct (Hh _ _ Hi Hw eq_refl) as (? & ? & ? & _). by rewrite releaseReservation_eq.
  - intros id h Hw. destruct (Hh _ _ Hi Hw eq_refl) as (? & ? & ? & _). by rewrite releaseReservation_eq.
  - intros id h b Hw. destruct (Hh _ _ Hi Hw eq_refl) as (? & ? & _). by rewrite record_acquisition_eq.
  - intros snap res Hc. destruct s as [m' ws c hs al f]. simpl in *. subst c.
    destruct (cleanup_finish_eq _ _ _ _ _ _ _ Hi) as (m2 & -> & _). done.
Qed.

(** C27: a finished shutdown leaves nothing behind. Once the shared cleanup is done no
    call holds a reservation, no entry is left and [Active] is zero; every handle the
    client ever handed to the manager had [Release] called exactly once, by its
    rollback or by the cleanup; the cached result is nil exactly when none of the
    cleanup's stops and releases failed; and every later acquisition is refused. *)
Theorem manager_shutdown_complete max m s :
  is_uint32 max -> New true max = Ok m -> rtc mstep (minit m) s -> cleaning s = Finished ->
  in_flight (workers s) = 0 /\ entries (manager s) = [] /\ Active (manager s) = 0 /\
  releases (actions s) ≡ₚ handed s /\ NoDup (handed s) /\
  (shutdownErr (manager s) = None <-> failed s = false) /\
  reserve (manager s) = (Some (WrapS ErrInvalidState "service shutdown"), manager s).
Proof.
  intros Hmax HN Hr Hc. pose proof (msteps_inv _ _ (New_inv _ _ Hmax HN) Hr) as Hi.
  pose proof (mi_cleaner _ Hi) as Hok. unfold cleaner_ok in Hok. rewrite Hc in Hok.
  destruct Hok as (Hs & Hq & He & Hf).
  pose proof (mi_acquiring _ Hi) as H1. pose proof (mi_active _ Hi) as H2.
  rewrite Hq in H1, H2. rewrite He in H2. split_and!; try done.
  - assert (Hn : flat carried (workers s) = []).
    { assert (Hfl : forall ws, in_flight ws = 0 -> flat carried ws = []).
      { intros ws Hz. unfold in_flight, flat in *.
        induction (map_to_list ws) as [|[i w] l IH]; [done|]. csimpl in *.
        rewrite length_app in Hz. rewrite IH by lia. destruct w; simpl in *; done || lia. }
      by apply Hfl. }
    pose proof (mi_handles _ Hi) as Hh. rewrite Hn, Hc in Hh. simpl in Hh. by rewrite app_nil_r in Hh.
  - apply (mi_nodup _ Hi).
  - rewrite <- Hf. destruct (shutdownErr (manager s)); simpl; naive_solver.
  - unfold reserve. by rewrite (mi_closed _ Hi), Hs.
Qed.

(** C28: shutdown can always finish. From every reachable state in which a shutdown
    has begun and no acquisition is still in progress, the cleanup's own steps lead
    to the end; nothing else has to happen. *)
Theorem manager_shutdown_finishes max m s :
  is_uint32 max -> New true max = Ok m -> rtc mstep (minit m) s ->
  cleaning s <> NotStarted -> in_flight (workers s) = 0 ->
  exists s', rtc mstep s s' /\ cleaning s' = Finished /\ workers s' = workers s.
Proof.
  intros Hmax HN Hr Hst Hq. pose proof (msteps_inv _ _ (New_inv _ _ Hmax HN) Hr) as Hi.
  destruct s as [m' ws c hs al f]. simpl in *.
  assert (Hjoined : forall al f, minv (MkMsys m' ws Joined hs al f) ->
    exists s', rtc mstep (MkMsys m' ws Joined hs al f) s' /\ cleaning s' = Finished /\ workers s' = ws).
  { intros al' f' Hj. pose proof (m_snapshot m' ws hs al' f') as Hsnap.
    destruct (releasing_finishes _ _ _ _ _ _ _ _ (mstep_inv _ _ Hj Hsnap)) as (s' & ? & ? & ?).
    exists s'. split; [by eapply rtc_l|done]. }
  destruct c as [|ch| |snap todo res|]; [done| |by apply Hjoined|by eapply releasing_finishes|by eexists].
  pose proof (mi_cleaner _ Hi) as (_ & Hch & _). pose proof (mi_done _ Hi) as Hd.
  pose proof (mi_acquiring _ Hi) as Ha. simpl in *.
  assert (Hst' : mstep (MkMsys m' ws (WaitingAcquisitions ch) hs al f) (MkMsys m' ws Joined hs al f)).
  { apply m_joined. rewrite Hch. apply Hd. lia. }
  destruct (Hjoined _ _ (mstep_inv _ _ Hi Hst')) as (s' & ? & ?). exists s'. split; [by eapply rtc_l|done].
Qed.

(** ** A run: one handle recorded, one acquisition overtaken by a shutdown *)

Definition m0 : Manager := MkManager 2 0 0 false [] 0 false None None 1 {[0%nat]}.
Definition m1 : Manager := (reserve m0).2.
Definition m2 : Manager := left_manager [MkOwned 7 true] m1.
Definition m3 : Manager := (reserve m2).2.
Definition m4 : Manager := (beginShutdown m3).2.
Definition m5 : Manager := left_manager [MkOwned 8 false] m4.
Definition m6 : Manager := default m0 (cleanup_finish (entries m5) None m5).
Definition overtaken : gmap nat worker := {[1%nat := WaitingFor 3]}.
Definition joined : msys := MkMsys m5 overtaken Joined [8; 7]%nat [] false.
Definition finished : msys :=
  MkMsys m6 overtaken Finished [8; 7]%nat [Stopped 7; ReleaseCalled 7; ReleaseCalled 8] false.

Ltac demo_step c := eapply rtc_l; [eapply c; try reflexivity | cbn [delete]].

Lemma joined_reachable : rtc mstep (minit m0) joined.
Proof.
  demo_step (m_reserve 0%nat m0 m1). demo_step (m_acquired 0%nat 7%nat m1); [set_solver|].
  demo_step (m_recorded 0%nat 7%nat true m1 m2).
  rewrite insert_insert_eq, delete_insert_id by done.
  demo_step (m_reserve 1%nat m2 m3). demo_step (m_acquired 1%nat 8%nat m3); [set_solver|].
  demo_step (m_shutdown_first (Some 3%nat) m3 m4).
  demo_step (m_recorded_late 1%nat 8%nat false 3%nat m4 m5).
  rewrite !insert_insert_eq.
  eapply rtc_l; [apply m_joined; by vm_compute|]. apply rtc_refl.
Qed.

Lemma finished_reachable : rtc mstep (minit m0) finished.
Proof.
  etransitivity; [exact joined_reachable|].
  eapply rtc_l; [apply m_snapshot|].
  eapply rtc_l; [apply (m_round (MkOwned 7 true) _ _ _ None None)|].
  eapply rtc_l; [apply (m_round (MkOwned 8 false) _ _ _ None None)|].
  eapply rtc_l; [by apply (m_finished _ _ m5 m6)|]. apply rtc_refl.
Qed.

Lemma two_uint32 : is_uint32 2.
Proof. unfold is_uint32, uint32_max. lia. Defined.

Lemma manager_accounting_witness :
  rtc mstep (minit m0) joined /\ Active (manager joined) = 2 /\ Active (manager joined) <= 2.
Proof.
  split; [exact joined_reachable|]. split; [reflexivity|].
  apply (manager_accounting 2 m0 joined two_uint32 eq_refl joined_reachable).
Defined.

Lemma manager_shutdown_complete_witness :
  rtc mstep (minit m0) finished /\ releases (actions finished) ≡ₚ [8; 7]%nat.
Proof.
  split; [exact finished_reachable|].
  apply (manager_shutdown_complete 2 m0 finished two_uint32 eq_refl finished_reachable eq_refl).
Defined.

Lemma manager_shutdown_finishes_witness :
  rtc mstep (minit m0) joined /\ exists s', rtc mstep joined s' /\ cleaning s' = Finished.
Proof.
  split; [exact joined_reachable|].
  destruct (manager_shutdown_finishes 2 m0 joined two_uint32 eq_refl joined_reachable
    ltac:(discriminate) eq_refl) as (s' & H1 & H2 & _). exists s'. split; [exact H1|exact H2].
Defined.
