(* ===== verification/Protected.v ===== *)
(** * examples/protectedwrite: a resource that checks fences

    The resource side of fencing: the fence is compared and stored with the effect
    under one mutex, so one write is one function. *)

From S2P Require Import Prelude GoBase GoStrings Errors.

(** [resource]. *)
Record resource := MkResource { fence : Z; value : string }.

(** The zero value [&resource{}]. *)
Definition zero_resource : resource := MkResource 0 "".

(** [resource.write]. *)
Definition write (f : Z) (v : string) (r : resource) : err_opt * resource :=
  if f <=? fence r then (Some (Sentinel ErrStaleOwner), r) else (None, MkResource f v).

(** [main]: what it prints; a panic is the absence of a result. *)
Definition main : option string :=
  let protected := zero_resource in
  let '(err, protected) := write 2 "successor" protected in
  match err with
  | Some _ => None
  | None =>
      let '(err, protected) := write 1 "stale predecessor" protected in
      if negb (IsOpt err ErrStaleOwner) then None else Some (value protected)
  end.

Example main_prints : main = Some "successor".
Proof. reflexivity. Qed.

(** ** Accepted writes *)

(** [increasing from l]: every fence of [l] is above [from] and the one before it. *)
Fixpoint increasing (from : Z) (l : list (Z * string)) : Prop :=
  match l with
  | [] => True
  | (f, _) :: l' => from < f /\ increasing f l'
  end.

(** The write that the resource holds: the last accepted one. *)
Definition holds (r : resource) (accepted : list (Z * string)) : Prop :=
  (fence r, value r) = List.last accepted (0, "").

Lemma write_cases f v r :
  (f <= fence r /\ write f v r = (Some (Sentinel ErrStaleOwner), r)) \/
  (fence r < f /\ write f v r = (None, MkResource f v)).
Proof. unfold write. destruct (Z.leb_spec f (fence r)); [left|right]; done. Qed.

Lemma last_default {A} (l : list A) : forall p d d', List.last (p :: l) d = List.last (p :: l) d'.
Proof. induction l as [|q l IH]; intros p d d'; [done|]. apply (IH q). Qed.

Lemma increasing_snoc l : forall from f v u,
  increasing from l -> (List.last l (from, u)).1 < f -> increasing from (l ++ [(f, v)]).
Proof.
  induction l as [|[g w] l IH]; intros from f v u Hl Hf; [done|].
  destruct Hl as [Hg Hl]. split; [done|]. apply (IH g f v w); [done|].
  destruct l as [|p l]; [done|]. by rewrite (last_default l p _ (from, u)).
Qed.

(** An accepted write extends the order and is what the resource then holds. *)
Lemma accepted_extends f v r l :
  increasing 0 l -> holds r l -> fence r < f ->
  increasing 0 (l ++ [(f, v)]) /\ holds (MkResource f v) (l ++ [(f, v)]).
Proof.
  intros Hi Hh Hf. split.
  - apply (increasing_snoc _ _ _ _ ""); [done|]. by rewrite <- Hh.
  - unfold holds. by rewrite List.last_last.
Qed.
