(* ===== verification/Fenced.v ===== *)
(** * A fenced resource in the whole system

    The resource of [Protected] beside the clients, handles and backend of [System].
    Every process writes with the token of a handle it once got, whenever it likes and
    without asking the handle: it may have been paused for any time, its lease may have
    expired or been released, its successor may be at work. The resource compares
    fences, and nothing else stands between a predecessor and the data. *)

From S2P Require Import Prelude GoBase GoStrings Errors LeaseKey LeasePolicy Backend Handle Runtime Memory.
From S2P Require Import Simulation Client System Protected.

Section Fenced.
Context {S : Type} `{!LeaseBackend S}.
Variable skew : Z.

(** The key that protects the resource. *)
Variable key : string.

(** The system, the resource, and the accepted writes in their order with the handles
    they were made with. *)
Record fenced := MkFenced {
  whole : sys S;
  protected : resource;
  accepted : list (nat * (Z * string))
}.

(** A handle of the key, in any state. *)
Definition handle_of (s : sys S) (hid : nat) (h : Handle) : Prop :=
  exists op r, nodes s !! hid = Some (MkNode h op r) /\ rkey (record h) = key.

(** One step: of the system, or one call of [write]. *)
Inductive fstep : fenced -> fenced -> Prop :=
| f_system s s' r l : sstep skew s s' -> fstep (MkFenced s r l) (MkFenced s' r l)
| f_write s r l hid h v e r' :
    handle_of s hid h -> write (Token h) v r = (e, r') ->
    fstep (MkFenced s r l)
      (MkFenced s r' (match e with None => l ++ [(hid, (Token h, v))] | Some _ => l end)).

(** A start: a well-formed backend, whose fences are unsigned numbers, and the zero
    resource. *)
Definition fstart (t : Time) (b : S) : fenced := MkFenced (sinit t b) zero_resource [].

Definition freachable (f : fenced) : Prop :=
  exists t b, backend_wf b /\ 0 <= Backend.fence (key_view b key) /\ rtc fstep (fstart t b) f.

(** ** Tokens and the current holder *)

Abbreviation owned s src tok := (owns (pendingAcquires s) (nodes s) src key tok).

(** Tokens are positive, and none is above that of the backend's current holder. *)
Record ranked (s : sys S) : Prop := {
  rk_fence : 0 <= Backend.fence (key_view (backend s) key);
  rk_pos src tok : owned s src tok -> 0 < tok;
  rk_top src tok r : owned s src tok -> holder (key_view (backend s) key) = Some r -> tok <= r_Token r
}.

(** Where the tokens of the next state come from: the present one, or the reply to an
    acquisition that the backend just performed. *)
Definition origin (s s' : sys S) (c : call) (r : reply) : Prop :=
  forall src tok, owned s' src tok ->
    (exists src', owned s src' tok) \/
    exists k owner d rec, c = CallTryAcquire k owner d /\ r = Replied rec /\ rkey rec = key /\ tok = r_Token rec.

Lemma ranked_stay (s s' : sys S) :
  ranked s -> backend s' = backend s ->
  (forall src tok, owned s' src tok -> exists src', owned s src' tok) -> ranked s'.
Proof.
  intros [H1 H2 H3] Hb Ho. split; rewrite ?Hb; [done|..].
  - intros src tok H. destruct (Ho _ _ H) as [? ?]. eauto.
  - intros src tok r H. destruct (Ho _ _ H) as [? ?]. eauto.
Qed.

(** One atomic call keeps the ranking: a new holder has a fresh fence. *)
Lemma ranked_call (s s' : sys S) c r :
  inv skew s -> ranked s -> backend_call (real s + skew) c (backend s) r (backend s') ->
  origin s s' c r -> ranked s'.
Proof.
  intros Hi [H1 H2 H3] Hc Ho. pose proof (iv_wf _ _ Hi) as Hwf. pose proof (iv_fence _ _ Hi) as Hf.
  pose proof (backend_fence_mono _ _ _ _ _ key Hwf Hc) as Hmono.
  destruct (decide (key = call_key c)) as [Hk|Hne].
  - pose proof (backend_refines _ _ _ _ _ Hwf Hc) as Hs. rewrite <- Hk in Hs.
    split; [lia|..].
    + intros src tok Hown. destruct (Ho _ _ Hown) as [[src' ?]|(k & owner & d & rec & -> & -> & _ & ->)];
        [eauto|]. apply spec_step_acquired in Hs. lia.
    + intros src tok r' Hown Hr'.
      destruct (Ho _ _ Hown) as [[src' Hsrc]|(k & owner & d & rec & -> & -> & _ & ->)].
      * destruct (spec_step_fresh _ _ _ _ _ _ _ Hs Hr') as [(r0 & Hr0 & ->)|Hlt]; [eauto|].
        specialize (Hf _ _ _ Hsrc). lia.
      * inversion Hs as [?????? (_ & _ & _ & _ & _ & _ & Hk')| | | | | | | | | | |]; subst.
        rewrite Hk' in Hr'. by injection Hr' as <-.
  - rewrite (backend_frame _ _ _ _ _ _ Hwf Hc Hne) in Hmono.
    assert (Hold : forall src tok, owned s' src tok -> exists src', owned s src' tok).
    { intros src tok Hown. destruct (Ho _ _ Hown) as [?|(k & owner & d & rec & -> & -> & Hrk & _)]; [done|].
      apply (backend_refines _ _ _ _ _ Hwf) in Hc.
      inversion Hc as [?????? (_ & _ & Hk' & _)| | | | | | | | | | |]; subst. done. }
    split; rewrite ?(backend_frame _ _ _ _ _ _ Hwf Hc Hne); [done|..].
    + intros src tok Hown. destruct (Hold _ _ Hown) as [? ?]. eauto.
    + intros src tok r' Hown. destruct (Hold _ _ Hown) as [? ?]. eauto.
Qed.

(** ** A handle keeps its key and token *)

Lemma local_evolves wall h h' : local_step wall h h' -> evolves h h'.
Proof.
  intros (Hf & _ & Hs)%local_frame. apply frame_evolves; [done|]. destruct Hs as [->| ->]; done.
Qed.

Lemma begin_evolves wall h op h' : begin_op wall h op h' -> evolves h h'.
Proof. by intros (-> & _)%begin_frame. Qed.

Lemma finish_evolves t now hid h op r0 r ns b pa fl :
  inv skew (MkSys t b pa ns fl) -> ns !! hid = Some (MkNode h (Some op) r0) ->
  evolves h (finish_op now t op r h).
Proof.
  intros Hi Hn. destruct (finish_node_ok skew t now hid h op r0 r ns b pa fl Hi Hn) as [_ Hrec].
  by apply finish_frame.
Qed.

Lemma nodes_insert (ns : gmap nat node) hid n n' i m :
  ns !! hid = Some n -> evolves (n_handle n) (n_handle n') -> ns !! i = Some m ->
  exists m', <[hid := n']> ns !! i = Some m' /\ evolves (n_handle m) (n_handle m').
Proof.
  intros Hn He Hm. destruct (decide (i = hid)) as [->|Hne].
  - exists n'. rewrite lookup_insert_eq. by simplify_eq.
  - exists m. by rewrite lookup_insert_ne.
Qed.

Lemma sstep_nodes s s' i m :
  inv skew s -> sstep skew s s' -> nodes s !! i = Some m ->
  exists m', nodes s' !! i = Some m' /\ evolves (n_handle m) (n_handle m').
Proof.
  intros Hi H Hm. destruct H; simpl in *; try (by exists m);
    try (eapply nodes_insert; [done| |done]; simpl;
      eauto using local_evolves, begin_evolves, finish_evolves; done).
  exists m. by rewrite lookup_insert_ne by congruence.
Qed.

(** The tokens of a node survive whatever the node does. *)
Lemma owned_node pa ns hid n n' :
  ns !! hid = Some n -> evolves (n_handle n) (n_handle n') ->
  forall src tok, owns pa (<[hid := n']> ns) src key tok -> exists src', owns pa ns src' key tok.
Proof. intros Hn He src tok Ho. exists src. by eapply owns_update. Qed.

Lemma owned_attempts (pa pa' : gmap nat attempt) ns :
  (forall id a, pa' !! id = Some a -> pa !! id = Some a \/ a_reply a = None) ->
  forall src tok, owns pa' ns src key tok -> exists src', owns pa ns src' key tok.
Proof.
  intros Hpa src tok Ho. exists src. destruct Ho as [id ? ? ? ? ? ? Hl|]; [|by econstructor].
  destruct (Hpa _ _ Hl) as [?|?]; [by econstructor|done].
Qed.

(** A granted attempt hands its token to the new handle. *)
Lemma owned_granted (pa : gmap nat attempt) ns id hid k owner p st wst rec :
  pa !! id = Some (MkAttempt k owner p st wst (Some (Replied rec))) ->
  forall src tok, owns (delete id pa) (<[hid := MkNode (newHandleAt p rec st wst) None None]> ns) src key tok ->
    exists src', owns pa ns src' key tok.
Proof.
  intros Hid src tok Ho. remember key as k0 eqn:Hk0.
  destruct Ho as [id' ? ? ? ? ? ? Hl|hid' h op r Hl].
  - apply lookup_delete_Some in Hl as [_ Hl]. eexists. by econstructor.
  - apply lookup_insert_Some in Hl as [[-> [= <- <- <-]]|[_ Hl]]; eexists; [by eapply owns_attempt|by econstructor].
Qed.

Lemma sstep_ranked s s' : inv skew s -> ranked s -> sstep skew s s' -> ranked s'.
Proof.
  intros Hi Hr H. destruct H as [t b pa ns fl t' Hle|t b pa ns fl id k owner p st Hp Hid
    |t b b' pa ns fl id k owner p st wst r Hid Hc|t b pa ns fl id hid k owner p st wst rec Hid Hv Hn
    |t b pa ns fl id a Hid|t b pa ns fl id k owner p st wst Hid
    |t b pa ns fl hid h op r h' Hn Hl|t b pa ns fl hid h op0 r0 op h' Hn Hb
    |t b pa ns fl hid h rec st wst now Hn
    |t b b' pa ns fl hid h op r Hn Hc|t b pa ns fl hid h op r now Hn
    |t b pa ns fl hid h op r0 now e Hn|t b b' pa ns fl c r fl' Hin Hsub Hc];
    try (eapply ranked_stay; [exact Hr|done|]; simpl).
  - eauto.
  - apply owned_attempts. intros i a Hl. apply lookup_insert_Some in Hl as [[_ <-]|[_ ?]]; auto.
  - eapply ranked_call; [done|done|done|]. intros src tok Ho. cbn in Ho.
    remember key as k0 eqn:Hk0. destruct Ho as [i ? ? ? ? ? rec Hl|]; [|left; eexists; by econstructor].
    apply lookup_insert_Some in Hl as [[-> [= -> -> -> -> -> ->]]|[_ ?]]; [|left; eexists; by econstructor].
    right. by eexists _, _, _, rec.
  - by eapply owned_granted.
  - apply owned_attempts. intros i a' Hl. apply lookup_delete_Some in Hl as [_ ?]. by left.
  - apply owned_attempts. intros i a' Hl. apply lookup_delete_Some in Hl as [_ ?]. by left.
  - eapply owned_node; [done|by eapply local_evolves].
  - eapply owned_node; [done|by eapply begin_evolves].
  - by eapply owned_node.
  - eapply ranked_call; [done|done|done|]. intros src tok Ho. left. cbn in Ho |- *. eapply (owned_node pa ns); [exact Hn| |exact Ho]. done.
  - eapply owned_node; [done|by eapply finish_evolves].
  - eapply owned_node; [done|by eapply finish_evolves].
  - eapply ranked_call; [done|done|done|]. intros src tok Ho. left. eauto.
Qed.

(** ** The resource *)

(** Every accepted write was made with a handle of the key that still exists. *)
Record finv (f : fenced) : Prop := {
  fi_inv : inv skew (whole f);
  fi_ranked : ranked (whole f);
  fi_writers : Forall (fun w => exists h, handle_of (whole f) w.1 h /\ Token h = w.2.1) (accepted f);
  fi_order : increasing 0 (snd <$> accepted f);
  fi_holds : holds (protected f) (snd <$> accepted f)
}.

Lemma fstart_finv t b : backend_wf b -> 0 <= Backend.fence (key_view b key) -> finv (fstart t b).
Proof.
  intros Hwf Hf. split; simpl; [by apply sinit_inv| |by constructor|done|done]. split; simpl; [done|..].
  - intros src tok Ho. inversion Ho; by rewrite lookup_empty in *.
  - intros src tok r Ho. inversion Ho; by rewrite lookup_empty in *.
Qed.

Lemma fstep_finv f f' : finv f -> fstep f f' -> finv f'.
Proof.
  intros [H1 H2 H3 H4 H5] H. destruct H as [s s' r l Hs|s r l hid h v e r' Hh Hw]; simpl in *.
  - split; simpl; eauto using sstep_inv, sstep_ranked.
    eapply Forall_impl; [|exact H3]. intros w (h & (op & r0 & Hn & Hk) & Ht).
    destruct (sstep_nodes _ _ _ _ H1 Hs Hn) as ([h' op' r1] & Hn' & Hk' & _ & Ht' & _). simpl in *.
    exists h'. split; [exists op', r1; split; congruence|]. unfold Token in *. congruence.
  - destruct (write_cases (Token h) v r) as [[Hle Heq]|[Hlt Heq]]; rewrite Heq in Hw; injection Hw as <- <-;
      [by split|]. destruct (accepted_extends _ v _ _ H4 H5 Hlt) as [Ho Hl].
    split; simpl; rewrite ?fmap_app; try done. apply Forall_app. split; [done|].
    apply Forall_singleton. by exists h.
Qed.

Lemma freachable_finv f : freachable f -> finv f.
Proof.
  intros (t & b & Hwf & Hf & H). pose proof (fstart_finv t b Hwf Hf) as Hi.
  revert Hi. induction H; eauto using fstep_finv.
Qed.

(** The last writer, read off the accepted writes. *)
Lemma last_writer f w l :
  finv f -> accepted f = (l ++ [w])%list -> fence (protected f) = w.2.1 /\ value (protected f) = w.2.2.
Proof.
  intros Hi Hl. pose proof (fi_holds _ Hi) as H. rewrite Hl, fmap_app in H. unfold holds in H.
  simpl in H. rewrite List.last_last in H. by destruct w as [? [? ?]]; injection H as -> ->.
Qed.

Lemma freachable_reachable f : freachable f -> reachable skew (whole f).
Proof.
  intros (t & b & Hwf & _ & H). exists t, b. split; [done|].
  change (sinit t b) with (whole (fstart t b)). induction H as [|f f' f'' Hs _ IH]; [apply rtc_refl|].
  destruct Hs; [by eapply rtc_l|done].
Qed.

Lemma lift_steps s s' r l : rtc (sstep skew) s s' -> rtc fstep (MkFenced s r l) (MkFenced s' r l).
Proof. induction 1; [apply rtc_refl|]. eapply rtc_l; [by apply f_system|done]. Qed.

(** The handle the last accepted write was made with. *)
Definition wrote_last (f : fenced) (hid : nat) : Prop :=
  exists l w, accepted f = (l ++ [(hid, w)])%list.

Lemma handle_owned s hid h : handle_of s hid h -> owned s (inr hid) (Token h).
Proof. intros (op & r & Hn & <-). by eapply owns_handle. Qed.

(** A handle that admits work has the highest token of the key. *)
Lemma admits_highest f hid h src tok :
  freachable f -> admits (whole f) hid h -> rkey (record h) = key -> owned (whole f) src tok ->
  tok <= Token h /\ (tok = Token h -> src = inr hid).
Proof.
  intros Hr Ha Hk Ho. pose proof (freachable_finv _ Hr) as [Hi Hrk _ _ _].
  destruct (admits_backed _ _ _ _ (freachable_reachable _ Hr) Ha) as (Hown & _ & r & Hh & [_ Ht] & _).
  rewrite Hk in *. split.
  - unfold Token. rewrite <- Ht. by eapply (rk_top _ Hrk).
  - intros ->. by eapply (iv_unique _ _ Hi).
Qed.

(** The holder finds the resource below its fence, unless it wrote last itself. *)
Lemma holder_not_locked_out f hid h :
  freachable f -> admits (whole f) hid h -> rkey (record h) = key ->
  fence (protected f) < Token h \/ wrote_last f hid.
Proof.
  intros Hr Ha Hk. pose proof (freachable_finv _ Hr) as Hf.
  destruct (accepted f) as [|w l _] eqn:Hl using rev_ind.
  - left. pose proof (fi_holds _ Hf) as H. rewrite Hl in H. injection H as -> _.
    eapply (rk_pos _ (fi_ranked _ Hf)), handle_owned. destruct Ha as (op & r & _ & Hn & _). by exists op, r.
  - destruct (last_writer f w l Hf Hl) as [-> _]. pose proof (fi_writers _ Hf) as Hw.
    rewrite Hl in Hw. apply Forall_app in Hw as [_ (h' & Hh' & <-)%Forall_singleton].
    destruct (admits_highest f hid h _ _ Hr Ha Hk (handle_owned _ _ _ Hh')) as [Hle Heq].
    destruct (decide (Token h' = Token h)) as [He|Hne]; [right|left; lia].
    injection (Heq He) as <-. exists l, w.2. by destruct w.
Qed.

(** Once the holder wrote, the resource carries the highest token of the key. *)
Lemma holder_not_overwritten f hid h hid' h' :
  freachable f -> admits (whole f) hid h -> rkey (record h) = key -> wrote_last f hid ->
  handle_of (whole f) hid' h' -> Token h' <= fence (protected f).
Proof.
  intros Hr Ha Hk (l & w & Hl) Hh'. pose proof (freachable_finv _ Hr) as Hf.
  destruct (last_writer f _ l Hf Hl) as [-> _]. pose proof (fi_writers _ Hf) as Hw.
  rewrite Hl in Hw. apply Forall_app in Hw as [_ (h1 & (op & r & Hn & _) & <-)%Forall_singleton].
  pose proof Ha as (op1 & r1 & now & Hn1 & _). simpl in *. simplify_eq.
  eapply admits_highest; [done|exact Ha|done|by eapply handle_owned].
Qed.

(** C4: fencing end to end. In every reachable state of clients, handles, backend and
    resource, with every process writing whenever it likes with a token it was once
    granted: the fences of the accepted writes strictly increase, and the resource
    holds the last of them; a handle that admits work is never locked out by another
    one, its next write is accepted unless the last accepted write is its own; and once
    it wrote, every write with any handle of the key is refused as stale and leaves
    the resource as it is, so only a later acquisition can change it. *)
Theorem fenced_resource_safe f :
  freachable f ->
  increasing 0 (snd <$> accepted f) /\ holds (protected f) (snd <$> accepted f) /\
  forall hid h, admits (whole f) hid h -> rkey (record h) = key ->
    (wrote_last f hid \/
     forall v, write (Token h) v (protected f) = (None, MkResource (Token h) v)) /\
    (wrote_last f hid -> forall hid' h' v, handle_of (whole f) hid' h' ->
       write (Token h') v (protected f) = (Some (Sentinel ErrStaleOwner), protected f)).
Proof.
  intros Hr. pose proof (freachable_finv _ Hr) as Hf.
  split; [apply (fi_order _ Hf)|]. split; [apply (fi_holds _ Hf)|]. intros hid h Ha Hk. split.
  - destruct (holder_not_locked_out f hid h Hr Ha Hk) as [Hlt|?]; [right|by left]. intros v.
    destruct (write_cases (Token h) v (protected f)) as [[? _]|[_ ?]]; [lia|done].
  - intros Hw hid' h' v Hh'. pose proof (holder_not_overwritten f hid h hid' h' Hr Ha Hk Hw Hh').
    destruct (write_cases (Token h') v (protected f)) as [[_ ?]|[? _]]; [done|lia].
Qed.
End Fenced.

(** A predecessor whose release was performed but not yet answered, and its successor,
    which wrote: the predecessor is refused. *)
Definition written : fenced (S := Store) :=
  MkFenced handover (MkResource 2 "successor") [(1%nat, (2, "successor"))].

Lemma written_reachable : freachable 0 (KeyString k1) written.
Proof.
  exists 100, store0. split_and!; [exact store0_wf|vm_compute; discriminate|].
  eapply rtc_r; [apply lift_steps, handover_steps|].
  eapply (f_write 0 (KeyString k1) handover zero_resource [] 1%nat (newHandleAt pol0 rec3 100 100)
    "successor" None); [by exists None, None|reflexivity].
Qed.

Lemma fenced_resource_safe_witness :
  freachable 0 (KeyString k1) written /\
  write (Token (n_handle releasing_node)) "predecessor" (protected written) =
    (Some (Sentinel ErrStaleOwner), MkResource 2 "successor").
Proof.
  split; [exact written_reachable|].
  destruct (fenced_resource_safe 0 (KeyString k1) written written_reachable) as (_ & _ & H).
  destruct (H 1%nat (newHandleAt pol0 rec3 100 100)) as [_ Hs].
  - exists None, None, 100. split_and!; [reflexivity|intros []|reflexivity].
  - reflexivity.
  - apply (Hs ltac:(by exists [], (2, "successor")) 0%nat). by exists (Some (PRelease rec1)), (Some Acknowledged).
Defined.
