(* ===== verification/Runs.v ===== *)
(** * Runs of a client are runs of the system

    [Client] and [Managed] have the methods of a process as computations over its
    world; [System] has the steps of all processes together. Here the two meet: in a
    world whose environment is a system of other processes on the same backend, every
    sequence of method calls is a run of the whole system. So the safety results of
    [System], proved from single critical sections, hold for the states that whole
    methods produce. A request of the process is performed before its method returns,
    or never; the requests of the others may also arrive late. *)

From S2P Require Import Prelude GoBase GoStrings Errors LeaseKey LeasePolicy Backend Handle Runtime Memory.
From S2P Require Import Simulation Client Managed Stopping System.

(** ** Two families of identities

    The processes of the environment have the odd identities of the whole system, the
    process at hand has the even ones. *)
Definition theirs (i : nat) : nat := (2 * i + 1)%nat.
Definition mine (i : nat) : nat := (2 * i)%nat.

Definition interleaved {A} (m others : gmap nat A) (own : nat -> option A) : Prop :=
  (forall i, m !! theirs i = others !! i) /\ (forall i, m !! mine i = own i).

Lemma theirs_mine i j : theirs i <> mine j.
Proof. unfold theirs, mine. lia. Qed.
Lemma theirs_inj i j : theirs i = theirs j <-> i = j.
Proof. unfold theirs. lia. Qed.
Lemma mine_inj i j : mine i = mine j <-> i = j.
Proof. unfold mine. lia. Qed.

Lemma interleaved_theirs {A} (m others : gmap nat A) own i x :
  interleaved m others own -> interleaved (<[theirs i := x]> m) (<[i := x]> others) own.
Proof.
  intros [H1 H2]. split; intros j.
  - rewrite !lookup_insert, H1. do 2 case_decide; rewrite ?theirs_inj in *; done.
  - rewrite lookup_insert_ne by apply theirs_mine. apply H2.
Qed.

Lemma interleaved_delete_theirs {A} (m others : gmap nat A) own i :
  interleaved m others own -> interleaved (delete (theirs i) m) (delete i others) own.
Proof.
  intros [H1 H2]. split; intros j.
  - rewrite !lookup_delete, H1. do 2 case_decide; rewrite ?theirs_inj in *; done.
  - rewrite lookup_delete_ne by apply theirs_mine. apply H2.
Qed.

Lemma interleaved_mine {A} (m others : gmap nat A) own own' i x :
  interleaved m others own -> own' i = Some x -> (forall j, j <> i -> own' j = own j) ->
  interleaved (<[mine i := x]> m) others own'.
Proof.
  intros [H1 H2] Hi Hj. split; intros j.
  - rewrite lookup_insert_ne; [apply H1|]. intros He. by apply (theirs_mine j i).
  - destruct (decide (j = i)) as [->|Hne]; [by rewrite lookup_insert_eq|].
    rewrite lookup_insert_ne by (rewrite mine_inj; congruence). by rewrite H2, Hj.
Qed.

Lemma interleaved_delete_mine {A} (m others : gmap nat A) own own' i :
  interleaved m others own -> own' i = None -> (forall j, j <> i -> own' j = own j) ->
  interleaved (delete (mine i) m) others own'.
Proof.
  intros [H1 H2] Hi Hj. split; intros j.
  - rewrite lookup_delete_ne; [apply H1|]. intros He. by apply (theirs_mine j i).
  - destruct (decide (j = i)) as [->|Hne]; [by rewrite lookup_delete_eq|].
    rewrite lookup_delete_ne by (rewrite mine_inj; congruence). by rewrite H2, Hj.
Qed.

Section Whole.
Context {S : Type} `{!LeaseBackend S}.
Variable skew : Z.

(** The whole system [s]: the environment's system [es] with the nodes and attempts of
    one more process. *)
Record agree (es s : sys S) (on : nat -> option node) (oa : nat -> option attempt) : Prop := {
  ag_real : real s = real es;
  ag_backend : backend s = backend es;
  ag_nodes : interleaved (nodes s) (nodes es) on;
  ag_attempts : interleaved (pendingAcquires s) (pendingAcquires es) oa;
  ag_flying : flying es ⊆ flying s
}.

(** A step of the others is a step of the whole. *)
Lemma agree_step es es' s on oa :
  sstep skew es es' -> agree es s on oa -> exists s', sstep skew s s' /\ agree es' s' on oa.
Proof.
  intros H [Hr Hb Hn Ha Hf]. destruct s as [t0 b0 pa0 ns0 fl0].
  destruct H as [t b pa ns fl t' Hle|t b pa ns fl id k owner p st Hp Hid
    |t b b' pa ns fl id k owner p st wst r Hid Hc|t b pa ns fl id hid k owner p st wst rec Hid Hv Hnn
    |t b pa ns fl id a Hid|t b pa ns fl id k owner p st wst Hid
    |t b pa ns fl hid h op r h' Hnn Hl|t b pa ns fl hid h op0 r0 op h' Hnn Hbg
    |t b pa ns fl hid h rec st wst now Hnn
    |t b b' pa ns fl hid h op r Hnn Hc|t b pa ns fl hid h op r now Hnn
    |t b pa ns fl hid h op r0 now e Hnn|t b b' pa ns fl c r fl' Hin Hsub Hc]; simpl in *; subst t0 b0;
    try (rewrite <- (proj1 Ha) in Hid); try (rewrite <- (proj1 Hn) in Hnn).
  - exists (MkSys t' b pa0 ns0 fl0). split; [by constructor|by split].
  - exists (MkSys t b (<[theirs id := MkAttempt k owner p st t None]> pa0) ns0 fl0).
    split; [by constructor|split; simpl; auto using interleaved_theirs].
  - exists (MkSys t b' (<[theirs id := MkAttempt k owner p st wst (Some r)]> pa0) ns0 fl0).
    split; [by econstructor|split; simpl; auto using interleaved_theirs].
  - exists (MkSys t b (delete (theirs id) pa0)
      (<[theirs hid := MkNode (newHandleAt p rec st wst) None None]> ns0) fl0).
    split; [by econstructor|split; simpl; auto using interleaved_theirs, interleaved_delete_theirs].
  - exists (MkSys t b (delete (theirs id) pa0) ns0 fl0).
    split; [by econstructor|split; simpl; auto using interleaved_delete_theirs].
  - exists (MkSys t b (delete (theirs id) pa0) ns0 (CallTryAcquire k owner (ttl p) :: fl0)).
    split; [by econstructor|split; simpl; auto using interleaved_delete_theirs]. set_solver.
  - exists (MkSys t b pa0 (<[theirs hid := MkNode h' op r]> ns0) fl0).
    split; [by econstructor|split; simpl; auto using interleaved_theirs].
  - exists (MkSys t b pa0 (<[theirs hid := MkNode h' (Some op) None]> ns0) fl0).
    split; [by econstructor|split; simpl; auto using interleaved_theirs].
  - exists (MkSys t b pa0 (<[theirs hid := MkNode h (Some (PRenew rec now t)) None]> ns0) fl0).
    split; [by econstructor|split; simpl; auto using interleaved_theirs].
  - exists (MkSys t b' pa0 (<[theirs hid := MkNode h (Some op) (Some r)]> ns0) fl0).
    split; [by econstructor|split; simpl; auto using interleaved_theirs].
  - exists (MkSys t b pa0 (<[theirs hid := MkNode (finish_op now t op r h) None None]> ns0) fl0).
    split; [by econstructor|split; simpl; auto using interleaved_theirs].
  - eexists. split; [by eapply (s_fault skew t b pa0 ns0 fl0 (theirs hid) h op r0 now e)|].
    split; simpl; auto using interleaved_theirs. destruct r0; set_solver.
  - exists (MkSys t b' pa0 ns0 fl0). split; [|split; simpl; auto; set_solver].
    eapply s_late; [by apply Hf|done|done].
Qed.

Lemma agree_steps es es' s on oa :
  rtc (sstep skew) es es' -> agree es s on oa -> exists s', rtc (sstep skew) s s' /\ agree es' s' on oa.
Proof.
  intros H. revert s. induction H as [es|es es1 es' Hs _ IH]; intros s Ha; [by exists s|].
  destruct (agree_step _ _ _ _ _ Hs Ha) as (s1 & H1 & Ha1).
  destruct (IH _ Ha1) as (s' & H' & Ha'). exists s'. split; [by eapply rtc_l|done].
Qed.
End Whole.

(** ** Environments made of other processes *)

Section Lawful.
Context {S : Type} `{!LeaseBackend S} {E : Type}.
Variable skew : Z.
Variable env_sys : E -> sys S.

(** Nothing of the process changes while the others go on. *)
Definition quiet (w w' : World E) : Prop :=
  w_handles w' = w_handles w /\ rtc (sstep skew) (env_sys (w_env w)) (env_sys (w_env w')).

Definition set_backend (b : S) (s : sys S) : sys S :=
  MkSys (real s) b (pendingAcquires s) (nodes s) (flying s).

(** A backend call [c]: between steps of the others the backend performs it, or it is
    lost. [answered] says that the caller sees the reply, [failed] that it sees an
    error. *)
Definition called (c : call) (w w' : World E) (answered : reply -> Prop) (failed : Prop) : Prop :=
  w_handles w' = w_handles w /\
  exists es1 es2, rtc (sstep skew) (env_sys (w_env w)) es1 /\ rtc (sstep skew) es2 (env_sys (w_env w')) /\
    ((es2 = es1 /\ failed) \/
     exists r b, backend_call (real es1 + skew) c (backend es1) r b /\ es2 = set_backend b es1 /\
       (answered r \/ failed)).

Definition is_Err {A} (r : res A) : Prop := exists e, r = Err e.
End Lawful.

(** An environment that is a system of other processes on one backend: everything the
    process asks of it takes steps of that system, [time.Now] reads its time, and the
    methods of the backend are calls of its backend. The injected clock and the other
    sources answer what they like. *)
Class SystemEnv (E S : Type) `{!LeaseBackend S} `{!Env E} (skew : Z) := {
  env_sys : E -> sys S;
  se_clock (w : World E) : quiet skew env_sys w (clock_Now w).2;
  se_time (w : World E) :
    quiet skew env_sys w (time_Now w).2 /\ (time_Now w).1 = real (env_sys (w_env (time_Now w).2));
  se_ctx ctx (w : World E) : quiet skew env_sys w (ctx_Err ctx w).2;
  se_new_cancel (w : World E) : quiet skew env_sys w (ctx_NewCancel w).2;
  se_cancel id (w : World E) : quiet skew env_sys w (ctx_Cancel id w).2;
  se_owner (w : World E) : quiet skew env_sys w (owners_NewOwner w).2;
  se_jitter d (w : World E) : quiet skew env_sys w (retry_Jitter d w).2;
  se_sleep ctx d (w : World E) : 0 <= d -> quiet skew env_sys w (sleeper_Sleep ctx d w).2;
  se_acquire ctx key owner d (w : World E) :
    let o := backend_TryAcquire ctx key owner d w in
    called skew env_sys (CallTryAcquire key owner d) w o.2 (fun r => o.1 = reply_res r) (is_Err o.1);
  se_renew ctx owned d (w : World E) :
    let o := backend_Renew ctx owned d w in
    called skew env_sys (CallRenew owned d) w o.2 (fun r => o.1 = reply_res r) (is_Err o.1);
  se_validate ctx owned (w : World E) :
    let o := backend_Validate ctx owned w in
    called skew env_sys (CallValidate owned) w o.2 (fun r => o.1 = reply_res r) (is_Err o.1);
  se_release ctx owned (w : World E) :
    let o := backend_Release ctx owned w in
    called skew env_sys (CallRelease owned) w o.2 (fun r => o.1 = reply_err r) (is_Some o.1)
}.

(** ** The process in the whole system *)

(** What the process has in flight at most: an operation of one of its handles, with
    the reply once it is there. *)
Abbreviation flight := (option (nat * pending * option reply)).

Definition own_node (f : flight) (i : nat) (h : Handle) : node :=
  match f with
  | Some (id, op, r) => if decide (i = id) then MkNode h (Some op) r else MkNode h None None
  | None => MkNode h None None
  end.
Definition own_nodes (hs : list Handle) (f : flight) (i : nat) : option node := own_node f i <$> hs !! i.

(** Or an acquisition. *)
Definition own_attempts (a : option attempt) (i : nat) : option attempt :=
  match i with O => a | Datatypes.S _ => None end.

Section Process.
Context {E S : Type} `{!LeaseBackend S} `{!Env E} {skew : Z} `{!SystemEnv E S skew}.

Abbreviation steps := (rtc (sstep skew)).

Definition linked (w : World E) (s : sys S) (f : flight) (a : option attempt) : Prop :=
  agree (env_sys (w_env w)) s (own_nodes (w_handles w) f) (own_attempts a).

(** [refines m]: from a state of the whole system in which the process has nothing in
    flight, [m] is a run of it to such a state again. *)
Definition refines {A} (m : M (World E) A) : Prop :=
  forall w s, inv skew s -> linked w s None None -> exists s', steps s s' /\ linked (m w).2 s' None None.

Lemma steps_inv s s' : inv skew s -> steps s s' -> inv skew s'.
Proof. intros Hi H. revert Hi. induction H; eauto using sstep_inv. Qed.

Lemma refines_ret {A} (a : A) : refines (mret a).
Proof. intros w s _ H. by exists s. Qed.

(** The value of the first computation may be known to satisfy [Q]. *)
Lemma refines_bind_post {A B} (Q : A -> Prop) (m : M (World E) A) (k : A -> M (World E) B) :
  refines m -> mpost (fun a _ => Q a) m -> (forall a, Q a -> refines (k a)) -> refines (m ≫= k).
Proof.
  intros Hm Hq Hk w s Hi H. rewrite M_bind_eq. destruct (Hm w s Hi H) as (s1 & H1 & L1).
  destruct (Hk (m w).1 (Hq w) _ _ (steps_inv _ _ Hi H1) L1) as (s2 & H2 & L2).
  exists s2. split; [by etransitivity|done].
Qed.

Lemma refines_bind {A B} (m : M (World E) A) (k : A -> M (World E) B) :
  refines m -> (forall a, refines (k a)) -> refines (m ≫= k).
Proof. intros Hm Hk. by apply (refines_bind_post (fun _ => True)). Qed.

Lemma linked_quiet w w' s f a :
  quiet skew env_sys w w' -> linked w s f a -> exists s', steps s s' /\ linked w' s' f a.
Proof. intros [Hh Hs] H. unfold linked. rewrite Hh. by eapply agree_steps. Qed.

Lemma refines_quiet {A} (m : M (World E) A) :
  (forall w, quiet skew env_sys w (m w).2) -> refines m.
Proof. intros Hq w s _ H. by eapply linked_quiet. Qed.

(** ** The steps of the process *)

(** What is in flight concerns one handle. *)
Definition flies (f : flight) (hid : nat) : Prop :=
  match f with Some (id, _, _) => id = hid | None => True end.

Lemma own_node_other f i j h : flies f i -> j <> i -> own_node f j h = MkNode h None None.
Proof. destruct f as [[[id op] r]|]; simpl; [|done]. intros -> Hne. by rewrite decide_False. Qed.

Lemma own_node_self id op r h : own_node (Some (id, op, r)) id h = MkNode h (Some op) r.
Proof. simpl. by rewrite decide_True. Qed.

(** The new link after a step that replaces one node of the process. *)
Lemma linked_node w s f f' a hid h h' fl :
  linked w s f a -> w_handles w !! hid = Some h -> flies f hid -> flies f' hid -> flying s ⊆ fl ->
  linked (set_handles (<[hid := h']> (w_handles w)) w)
    (MkSys (real s) (backend s) (pendingAcquires s) (<[mine hid := own_node f' hid h']> (nodes s)) fl) f' a.
Proof.
  intros [Hr Hb Hn Ha Hf] Hh Hf1 Hf2 Hfl. split; simpl; try done; [|set_solver].
  eapply interleaved_mine; [done|..]; unfold own_nodes.
  - by rewrite list_lookup_insert_eq by (by eapply lookup_lt_Some).
  - intros j Hj. rewrite list_lookup_insert_ne by done. destruct (w_handles w !! j) as [hj|]; [|done].
    simpl. by rewrite !(own_node_other _ hid).
Qed.

(** The node of a handle. *)
Lemma linked_lookup w s f a hid h :
  linked w s f a -> w_handles w !! hid = Some h -> nodes s !! mine hid = Some (own_node f hid h).
Proof. intros [_ _ Hn _ _] Hh. rewrite (proj2 Hn). unfold own_nodes. by rewrite Hh. Qed.

Lemma set_handles_id (w : World E) hid h :
  w_handles w !! hid = Some h -> set_handles (<[hid := h]> (w_handles w)) w = w.
Proof. intros H. rewrite list_insert_id by done. by destruct w. Qed.

(** A section of an idle handle. *)
Lemma linked_local w s hid h h' :
  linked w s None None -> w_handles w !! hid = Some h -> local_step (real s) h h' ->
  exists s', steps s s' /\ linked (set_handles (<[hid := h']> (w_handles w)) w) s' None None.
Proof.
  intros L Hh Hl. pose proof (linked_lookup _ _ _ _ _ _ L Hh) as Hn.
  eexists. split; [|by eapply (linked_node w s None None None hid h h' (flying s))].
  apply rtc_once. destruct s. simpl in *. by eapply s_local.
Qed.

(** The section that begins an operation. *)
Lemma linked_begin w s hid h op h' :
  linked w s None None -> w_handles w !! hid = Some h -> begin_op (real s) h op h' ->
  exists s', steps s s' /\
    linked (set_handles (<[hid := h']> (w_handles w)) w) s' (Some (hid, op, None)) None.
Proof.
  intros L Hh Hb. pose proof (linked_lookup _ _ _ _ _ _ L Hh) as Hn.
  eexists. split; [|by eapply (linked_node w s None (Some (hid, op, None)) None hid h h' (flying s))].
  apply rtc_once. rewrite own_node_self. destruct s. simpl in *. by eapply s_begin.
Qed.

(** [Renew] reads its clocks once more before the request leaves. *)
Lemma linked_started w s hid h rec st wst now :
  linked w s (Some (hid, PRenew rec st wst, None)) None -> w_handles w !! hid = Some h ->
  exists s', steps s s' /\ linked w s' (Some (hid, PRenew rec now (real s), None)) None.
Proof.
  intros L Hh. pose proof (linked_lookup _ _ _ _ _ _ L Hh) as Hn. rewrite own_node_self in Hn.
  rewrite <- (set_handles_id w hid h Hh).
  eexists. split; [|by eapply (linked_node w s _ (Some (hid, PRenew rec now (real s), None)) None hid h h (flying s))].
  apply rtc_once. rewrite own_node_self. destruct s. simpl in *. by eapply s_started.
Qed.

(** The section that ends an operation, with the reply or with an error in its place. *)
Lemma linked_finish w s hid h op r now :
  linked w s (Some (hid, op, Some r)) None -> w_handles w !! hid = Some h ->
  exists s', steps s s' /\
    linked (set_handles (<[hid := finish_op now (real s) op r h]> (w_handles w)) w) s' None None.
Proof.
  intros L Hh. pose proof (linked_lookup _ _ _ _ _ _ L Hh) as Hn. rewrite own_node_self in Hn.
  eexists. split; [|by eapply (linked_node w s (Some (hid, op, Some r)) None None hid h _ (flying s))].
  apply rtc_once. destruct s. simpl in *. by eapply s_finish.
Qed.

Lemma linked_fault w s hid h op r e now :
  linked w s (Some (hid, op, r)) None -> w_handles w !! hid = Some h ->
  exists s', steps s s' /\
    linked (set_handles (<[hid := finish_op now (real s) op (Failed e) h]> (w_handles w)) w) s' None None.
Proof.
  intros L Hh. pose proof (linked_lookup _ _ _ _ _ _ L Hh) as Hn. rewrite own_node_self in Hn.
  eexists. split; [|eapply (linked_node w s (Some (hid, op, r)) None None hid h _
    (match r with None => op_call h op :: flying s | Some _ => flying s end)); try done; destruct r; set_solver].
  apply rtc_once. destruct s. simpl in *. by eapply s_fault.
Qed.

(** A change of the attempts of the process. *)
Lemma agree_attempt (es s : sys S) on a a' :
  agree es s on (own_attempts a) ->
  agree es (MkSys (real s) (backend s)
    (match a' with Some x => <[mine 0 := x]> (pendingAcquires s) | None => delete (mine 0) (pendingAcquires s) end)
    (nodes s) (flying s)) on (own_attempts a').
Proof.
  intros [Hr Hb Hn Ha Hf]. split; simpl; try done. destruct a' as [x|].
  - eapply interleaved_mine; [done|done|by intros [|j]].
  - eapply interleaved_delete_mine; [done|done|by intros [|j]].
Qed.

(** A backend call of the process: [perform] is the step that the whole system makes
    when the backend performs it, after which the link is [L r]. *)
Lemma linked_called w w' s c answered failed (L0 : sys S -> sys S -> Prop) (L : reply -> sys S -> sys S -> Prop) :
  called skew env_sys c w w' answered failed ->
  (forall es es' s, steps es es' -> L0 es s -> exists s', steps s s' /\ L0 es' s') ->
  (forall r es es' s, steps es es' -> L r es s -> exists s', steps s s' /\ L r es' s') ->
  (forall es s r b, L0 es s -> backend_call (real es + skew) c (backend es) r b ->
     exists s', sstep skew s s' /\ L r (set_backend b es) s') ->
  L0 (env_sys (w_env w)) s ->
  exists s', steps s s' /\
    ((L0 (env_sys (w_env w')) s' /\ failed) \/
     exists r, L r (env_sys (w_env w')) s' /\ (answered r \/ failed)).
Proof.
  intros (_ & es1 & es2 & H1 & H2 & Hcase) Q0 Q1 Hp HL.
  destruct (Q0 _ _ _ H1 HL) as (s1 & S1 & L1). destruct Hcase as [[-> Hfail]|(r & b & Hc & -> & Hans)].
  - destruct (Q0 _ _ _ H2 L1) as (s2 & S2 & L2). exists s2. split; [by etransitivity|by left].
  - destruct (Hp _ _ _ _ L1 Hc) as (s2 & S2 & L2). destruct (Q1 _ _ _ _ H2 L2) as (s3 & S3 & L3).
    exists s3. split; [|right; by exists r]. etransitivity; [done|]. by eapply rtc_l.
Qed.

(** A call of an operation of a handle. *)
Lemma linked_perform w w' s hid h op answered failed :
  called skew env_sys (op_call h op) w w' answered failed -> w_handles w !! hid = Some h ->
  linked w s (Some (hid, op, None)) None ->
  exists s' r, steps s s' /\ linked w' s' (Some (hid, op, r)) None /\
    ((exists x, r = Some x /\ answered x) \/ failed).
Proof.
  intros Hc Hh L. pose proof Hc as [Hsame _].
  pose (on r := own_nodes (w_handles w) (Some (hid, op, r))).
  destruct (linked_called w w' s _ _ _ (fun es s => agree es s (on None) (own_attempts None))
    (fun r es s => agree es s (on (Some r)) (own_attempts None)) Hc) as (s' & Hs & Hcase).
  - intros. by eapply agree_steps.
  - intros. by eapply agree_steps.
  - intros es s1 r b [Hr Hb Hn Ha Hf] Hcall. destruct s1 as [t b1 pa ns fl]. simpl in *. subst t b1.
    eexists. split; [eapply (s_perform skew _ _ b pa ns fl (mine hid) h op r); [|done]|].
    + rewrite (proj2 Hn). unfold on, own_nodes. rewrite Hh. by rewrite <- own_node_self with (id := hid).
    + split; simpl; try done. eapply interleaved_mine; [done|..]; unfold on, own_nodes.
      * rewrite Hh. simpl. by rewrite decide_True.
      * intros j Hj. destruct (w_handles w !! j) as [hj|]; [|done]. simpl. by rewrite !decide_False.
  - done.
  - unfold linked. rewrite Hsame.
    destruct Hcase as [[HL Hfail]|(r & HL & [Hans|Hfail])];
      [exists s', None|exists s', (Some r)..]; split_and!; try done; [by right|left; by exists r|by right].
Qed.

(** The call of an acquisition. *)
Lemma linked_attempt w w' s key owner p st wst answered failed :
  called skew env_sys (CallTryAcquire key owner (ttl p)) w w' answered failed ->
  linked w s None (Some (MkAttempt key owner p st wst None)) ->
  exists s' r, steps s s' /\ linked w' s' None (Some (MkAttempt key owner p st wst r)) /\
    ((exists x, r = Some x /\ answered x) \/ failed).
Proof.
  intros Hc L. pose proof Hc as [Hsame _].
  pose (oa r := own_attempts (Some (MkAttempt key owner p st wst r))).
  pose (on := own_nodes (w_handles w) None).
  destruct (linked_called w w' s _ _ _ (fun es s => agree es s on (oa None))
    (fun r es s => agree es s on (oa (Some r))) Hc) as (s' & Hs & Hcase).
  - intros. by eapply agree_steps.
  - intros. by eapply agree_steps.
  - intros es s1 r b L1 Hcall. pose proof L1 as [Hr Hb Hn Ha Hf].
    eexists. split; [|apply (agree_attempt (set_backend b es) (set_backend b s1) on (Some (MkAttempt key owner p st wst None))
      (Some (MkAttempt key owner p st wst (Some r))));
      destruct L1; by split].
    pose proof (proj2 Ha O) as Hm. destruct s1 as [t b1 pa ns fl]. simpl in *. subst t b1.
    by eapply s_acquire_perform.
  - done.
  - unfold linked. rewrite Hsame.
    destruct Hcase as [[HL Hfail]|(r & HL & [Hans|Hfail])];
      [exists s', None|exists s', (Some r)..]; split_and!; try done; [by right|left; by exists r|by right].
Qed.

Lemma linked_acquire w s key owner p st :
  policy_ok p -> linked w s None None ->
  exists s', steps s s' /\ linked w s' None (Some (MkAttempt key owner p st (real s) None)).
Proof.
  intros Hp L. eexists. split; [|by eapply agree_attempt].
  pose proof (proj2 (ag_attempts _ _ _ _ L) O) as Hm. apply rtc_once.
  destruct s as [t b pa ns fl]. simpl in *. by constructor.
Qed.

(** An attempt that ends without a handle. *)
Lemma linked_dropped w s a :
  linked w s None (Some a) -> exists s', steps s s' /\ linked w s' None None.
Proof.
  intros L. eexists. split; [|by apply (agree_attempt _ _ _ _ None) in L].
  pose proof (proj2 (ag_attempts _ _ _ _ L) O) as Hm. apply rtc_once.
  destruct s as [t b pa ns fl]. simpl in *. by eapply s_acquire_dropped.
Qed.

(** An attempt that becomes a handle. *)
Lemma linked_granted w s key owner p st wst rec :
  linked w s None (Some (MkAttempt key owner p st wst (Some (Replied rec)))) ->
  validAcquisition key owner rec = true ->
  exists s', steps s s' /\
    linked (set_handles (w_handles w ++ [newHandleAt p rec st wst])%list w) s' None None.
Proof.
  intros L Hv. pose proof (proj2 (ag_attempts _ _ _ _ L) O) as Hm. pose proof (ag_nodes _ _ _ _ L) as Hn.
  assert (Hfresh : nodes s !! mine (length (w_handles w)) = None).
  { rewrite (proj2 Hn). unfold own_nodes. by rewrite lookup_ge_None_2. }
  apply (agree_attempt _ _ _ _ None) in L. destruct L as [Lr Lb Ln La Lf].
  exists (MkSys (real s) (backend s) (delete (mine 0) (pendingAcquires s))
    (<[mine (length (w_handles w)) := MkNode (newHandleAt p rec st wst) None None]> (nodes s)) (flying s)).
  split; [apply rtc_once; destruct s; simpl in *; by eapply s_acquire_granted|].
  split; simpl in *; try done. eapply interleaved_mine; [done|..]; unfold own_nodes.
  - by rewrite lookup_app_r, Nat.sub_diag by done.
  - intros j Hj. destruct (decide (j < length (w_handles w))%nat).
    + by rewrite lookup_app_l.
    + rewrite !lookup_ge_None_2; [done|lia|]. rewrite length_app. simpl. lia.
Qed.

(** ** The methods *)

Lemma linked_time w s f a :
  linked w s f a ->
  exists now w' s', time_Now w = (now, w') /\ steps s s' /\ linked w' s' f a /\
    w_handles w' = w_handles w /\ now = real s'.
Proof.
  intros L. destruct (se_time w) as [Hq Hnow]. pose proof Hq as [Hh _].
  destruct (linked_quiet _ _ _ _ _ Hq L) as (s' & Hs & L'). exists (time_Now w).1, (time_Now w).2, s'.
  split_and!; [by destruct (time_Now w)|done|done|done|]. by rewrite (ag_real _ _ _ _ L').
Qed.

Lemma linked_clock w s f a :
  linked w s f a ->
  exists now w' s', clock_Now w = (now, w') /\ steps s s' /\ linked w' s' f a /\ w_handles w' = w_handles w.
Proof.
  intros L. pose proof (se_clock w) as Hq. pose proof Hq as [Hh _].
  destruct (linked_quiet _ _ _ _ _ Hq L) as (s' & Hs & L'). exists (clock_Now w).1, (clock_Now w).2, s'.
  split_and!; try done. by destruct (clock_Now w).
Qed.

(** The clock readings before a section. *)
Lemma linked_locked {A} w s f a hid (section : Time -> Time -> Handle -> A * Handle) absent :
  linked w s f a ->
  exists now w' s', steps s s' /\ linked w' s' f a /\ w_handles w' = w_handles w /\
    locked hid section absent w = onHandle hid (section now (real s')) absent w'.
Proof.
  intros L. destruct (linked_clock _ _ _ _ L) as (now & w1 & s1 & E1 & S1 & L1 & H1).
  destruct (linked_time _ _ _ _ L1) as (wall & w2 & s2 & E2 & S2 & L2 & H2 & ->).
  exists now, w2, s2. split_and!; [by etransitivity|done|congruence|].
  unfold locked. rewrite M_bind_eq, E1. cbn [fst snd]. by rewrite M_bind_eq, E2.
Qed.

Lemma onHandle_some {A} (w : World E) hid h (section : Handle -> A * Handle) absent :
  w_handles w !! hid = Some h ->
  onHandle hid section absent w = ((section h).1, set_handles (<[hid := (section h).2]> (w_handles w)) w).
Proof. intros H. unfold onHandle. rewrite H. by destruct (section h). Qed.

Lemma onHandle_none {A} (w : World E) hid (section : Handle -> A * Handle) absent :
  w_handles w !! hid = None -> onHandle hid section absent w = (absent, w).
Proof. intros H. unfold onHandle. by rewrite H. Qed.

(** The middle of a method: the policy, the operation's context and the request. *)
Lemma linked_request {R B} w s hid h op ctx (request : Context -> Policy -> M (World E) R)
    (k : R -> M (World E) B) answered failed :
  linked w s (Some (hid, op, None)) None -> w_handles w !! hid = Some h ->
  (forall c w, let o := request c (policy h) w in
     called skew env_sys (op_call h op) w o.2 (answered o.1) (failed o.1)) ->
  exists o w' s' r,
    (p ← policyOf hid; c ← withTimeout ctx (operationTimeout p); o ← request c p; k o) w = k o w' /\
    steps s s' /\ linked w' s' (Some (hid, op, r)) None /\ w_handles w' = w_handles w /\
    ((exists x, r = Some x /\ answered o x) \/ failed o).
Proof.
  intros L Hh Hreq. unfold policyOf. rewrite M_bind_eq, (onHandle_some _ _ _ _ _ Hh).
  cbn [fst snd]. rewrite (set_handles_id _ _ _ Hh).
  destruct (linked_time _ _ _ _ L) as (now & w1 & s1 & E1 & S1 & L1 & H1 & _).
  rewrite M_bind_eq. unfold withTimeout at 1 2. rewrite !(M_bind_eq time_Now), E1. cbn [fst snd mret M_ret].
  rewrite M_bind_eq.
  set (c := WithDeadline ctx _). specialize (Hreq c w1). rewrite <- H1 in Hh.
  destruct (linked_perform _ _ _ _ _ _ _ _ Hreq Hh L1) as (s2 & r & S2 & L2 & Hans).
  eexists _, _, s2, r. split_and!; [done|by etransitivity|done| |done].
  destruct Hreq as [Hsame _]. congruence.
Qed.

Lemma HandleState_refines hid : refines (HandleState hid).
Proof.
  intros w s _ L. unfold HandleState.
  destruct (linked_locked _ _ _ _ hid StateOf StateExpired L) as (now & w1 & s1 & S1 & L1 & H1 & ->).
  destruct (w_handles w1 !! hid) as [h|] eqn:Hh; [|rewrite onHandle_none by done; by exists s1].
  rewrite (onHandle_some _ _ _ _ _ Hh).
  destruct (linked_local _ _ _ _ _ L1 Hh (local_state (real s1) now h)) as (s2 & S2 & L2).
  exists s2. split; [by etransitivity|done].
Qed.

(** The end of [Renew] and [Validate]. *)
Lemma linked_end (finish : Time -> Time -> res LeaseRecord -> Handle -> err_opt * Handle) w s hid h op o r :
  (forall now wall x h, (finish now wall (reply_res x) h).2 = finish_op now wall op x h) ->
  linked w s (Some (hid, op, r)) None -> w_handles w !! hid = Some h ->
  (exists x, r = Some x /\ o = reply_res x) \/ is_Err o ->
  exists s', steps s s' /\
    linked (locked hid (fun now wall => finish now wall o) (Some no_handle) w).2 s' None None.
Proof.
  intros Hfin L Hh Ho.
  destruct (linked_locked _ _ _ _ hid (fun now wall => finish now wall o) (Some no_handle) L)
    as (now & w1 & s1 & S1 & L1 & H1 & ->).
  rewrite <- H1 in Hh. rewrite (onHandle_some _ _ _ _ _ Hh). cbn [snd].
  assert (Hend : exists s2, steps s1 s2 /\
    linked (set_handles (<[hid := (finish now (real s1) o h).2]> (w_handles w1)) w1) s2 None None).
  { destruct Ho as [(x & -> & ->)|[e ->]].
    - rewrite Hfin. by apply linked_finish.
    - change (Err e) with (reply_res (Failed e)). rewrite Hfin. by eapply linked_fault. }
  destruct Hend as (s2 & S2 & L2). exists s2. split; [by etransitivity|done].
Qed.

Lemma steps_then s1 s2 (P : sys S -> Prop) :
  steps s1 s2 -> (exists s3, steps s2 s3 /\ P s3) -> exists s3, steps s1 s3 /\ P s3.
Proof. intros H (s3 & H3 & HP). exists s3. split; [by etransitivity|done]. Qed.

(** The reservation of [Renew] and [Validate]: refused, or the operation has begun. *)
Lemma linked_reserve w s hid (op : LeaseRecord -> Time -> pending) :
  (forall wall now h rec h', beginActiveOperation now wall h = (Ok rec, h') -> begin_op wall h (op rec wall) h') ->
  linked w s None None ->
  exists o w' s', locked hid beginActiveOperation (Err no_handle) w = (o, w') /\ steps s s' /\
    match o with
    | Err _ => linked w' s' None None
    | Ok rec => exists h wall, w_handles w' !! hid = Some h /\ linked w' s' (Some (hid, op rec wall, None)) None
    end.
Proof.
  intros Hop L.
  destruct (linked_locked _ _ _ _ hid beginActiveOperation (Err no_handle) L)
    as (now & w1 & s1 & S1 & L1 & H1 & ->).
  destruct (w_handles w1 !! hid) as [h|] eqn:Hh;
    [|rewrite onHandle_none by done; by exists (Err no_handle), w1, s1].
  rewrite (onHandle_some _ _ _ _ _ Hh).
  destruct (beginActiveOperation now (real s1) h) as [[rec|e] h'] eqn:Hb; cbn [fst snd].
  - destruct (linked_begin _ _ _ _ _ _ L1 Hh (Hop _ _ _ _ _ Hb)) as (s2 & S2 & L2).
    eexists _, _, s2. split; [done|]. split; [by etransitivity|]. exists h', (real s1). split; [|done].
    simpl. by rewrite list_lookup_insert_eq by (by eapply lookup_lt_Some).
  - destruct (linked_local _ _ _ _ _ L1 Hh (local_refused _ _ _ _ _ Hb)) as (s2 & S2 & L2).
    eexists _, _, s2. split; [done|]. split; [by etransitivity|done].
Qed.

Lemma HandleValidate_refines hid ctx : refines (HandleValidate hid ctx).
Proof.
  intros w s _ L. unfold HandleValidate. rewrite M_bind_eq.
  destruct (linked_reserve w s hid (fun rec _ => PValidate rec)) as (o & w1 & s1 & -> & S1 & L1);
    [intros; by eapply begin_validate|done|]. cbn [fst snd]. apply (steps_then _ _ _ S1).
  destruct o as [rec|e]; [|by exists s1]. destruct L1 as (h & wall & Hh & L1).
  destruct (linked_request _ _ _ _ _ ctx (fun c _ => backend_Validate c rec)
    (fun o => locked hid (fun now wall => finishValidate now wall rec o) (Some no_handle))
    (fun o r => o = reply_res r) is_Err L1 Hh) as (o & w2 & s2 & r & -> & S2 & L2 & H2 & Ho).
  { intros c w'. apply se_validate. }
  apply (steps_then _ _ _ S2). rewrite <- H2 in Hh.
  eapply (linked_end (fun now wall => finishValidate now wall rec)); [|exact L2|exact Hh|exact Ho]. done.
Qed.

Lemma HandleRenew_refines hid ctx : refines (HandleRenew hid ctx).
Proof.
  intros w s _ L. unfold HandleRenew, awaitRenew. rewrite M_bind_eq.
  destruct (linked_reserve w s hid (fun rec wall => PRenew rec 0 wall)) as (o & w1 & s1 & -> & S1 & L1);
    [intros; by eapply begin_renew|done|]. cbn [fst snd]. apply (steps_then _ _ _ S1).
  destruct o as [rec|e]; [|by exists s1]. destruct L1 as (h & wall & Hh & L1).
  destruct (linked_clock _ _ _ _ L1) as (started & w2 & s2 & E2 & S2 & L2 & H2).
  rewrite M_bind_eq, E2. cbn [fst snd]. apply (steps_then _ _ _ S2).
  destruct (linked_time _ _ _ _ L2) as (wst & w3 & s3 & E3 & S3 & L3 & H3 & ->).
  rewrite M_bind_eq, E3. cbn [fst snd]. apply (steps_then _ _ _ S3).
  rewrite <- H2, <- H3 in Hh.
  destruct (linked_started _ _ _ _ _ _ _ started L3 Hh) as (s4 & S4 & L4). apply (steps_then _ _ _ S4).
  destruct (linked_request _ _ _ _ _ ctx (fun c p => backend_Renew c rec (ttl p))
    (fun o => locked hid (fun now wall => finishRenew now wall rec started (real s3) o) (Some no_handle))
    (fun o r => o = reply_res r) is_Err L4 Hh) as (o & w5 & s5 & r & -> & S5 & L5 & H5 & Ho).
  { intros c w'. apply se_renew. }
  apply (steps_then _ _ _ S5). rewrite <- H5 in Hh.
  eapply (linked_end (fun now wall => finishRenew now wall rec started (real s3))); [|exact L5|exact Hh|exact Ho]. done.
Qed.

Lemma HandleRelease_refines hid ctx : refines (HandleRelease hid ctx).
Proof.
  intros w s _ L. unfold HandleRelease. rewrite M_bind_eq.
  destruct (w_handles w !! hid) as [h|] eqn:Hh; [|rewrite onHandle_none by done; by exists s].
  rewrite (onHandle_some _ _ _ _ _ Hh). cbn [fst snd].
  destruct (beginRelease h) as [[e|rec] h'] eqn:Hb; cbn [fst snd].
  { apply (linked_local _ _ _ _ _ L Hh). by eapply local_release. }
  destruct (linked_begin _ _ _ _ _ _ L Hh (begin_release (real s) _ _ _ Hb)) as (s1 & S1 & L1).
  apply (steps_then _ _ _ S1). set (w1 := set_handles _ w) in *.
  assert (Hh1 : w_handles w1 !! hid = Some h').
  { simpl. by rewrite list_lookup_insert_eq by (by eapply lookup_lt_Some). }
  destruct (linked_request _ _ _ _ _ ctx (fun c _ => backend_Release c rec)
    (fun o => onHandle hid (finishRelease o) (Some no_handle))
    (fun o r => o = reply_err r) is_Some L1 Hh1) as (o & w2 & s2 & r & -> & S2 & L2 & H2 & Ho).
  { intros c w'. apply se_release. }
  apply (steps_then _ _ _ S2). rewrite <- H2 in Hh1. rewrite (onHandle_some _ _ _ _ _ Hh1). cbn [snd].
  destruct Ho as [(x & -> & ->)|[e ->]].
  - by apply (linked_finish _ _ _ _ (PRelease rec) x 0).
  - by apply (linked_fault _ _ _ _ (PRelease rec) r e 0).
Qed.

(** ** Acquisition *)

Lemma withTimeout_refines ctx d : refines (withTimeout ctx d).
Proof. apply refines_bind; [apply refines_quiet; intros; apply se_time|intros; apply refines_ret]. Qed.

(** One attempt: the readings, the call, and the handle or the error. *)
Lemma attempt_refines {B} ctx key owner p (failure : error -> M (World E) B) (success : res nat -> M (World E) B) :
  policy_ok p -> (forall e, refines (failure e)) -> (forall r, refines (success r)) ->
  refines (started ← clock_Now; wallStarted ← time_Now;
    r ← backend_TryAcquire ctx key owner (ttl p);
    match r with
    | Err e => failure e
    | Ok rec => admitted ← grant key owner p rec started wallStarted; success admitted
    end).
Proof.
  intros Hp Hfail Hsucc w s Hi L.
  destruct (linked_clock _ _ _ _ L) as (started & w1 & s1 & E1 & S1 & L1 & _).
  rewrite M_bind_eq, E1. cbn [fst snd]. apply (steps_then _ _ _ S1). apply (steps_inv _ _ Hi) in S1 as Hi1.
  destruct (linked_time _ _ _ _ L1) as (wst & w2 & s2 & E2 & S2 & L2 & _ & ->).
  rewrite M_bind_eq, E2. cbn [fst snd]. apply (steps_then _ _ _ S2). apply (steps_inv _ _ Hi1) in S2 as Hi2.
  destruct (linked_acquire _ _ key owner _ started Hp L2) as (s3 & S3 & L3).
  apply (steps_then _ _ _ S3). apply (steps_inv _ _ Hi2) in S3 as Hi3. rewrite M_bind_eq.
  destruct (linked_attempt _ _ _ _ _ _ _ _ _ _ (se_acquire ctx key owner (ttl p) w2) L3)
    as (s4 & r & S4 & L4 & Ho).
  apply (steps_then _ _ _ S4). apply (steps_inv _ _ Hi3) in S4 as Hi4.
  destruct (backend_TryAcquire ctx key owner (ttl p) w2) as [o w3]. cbn [fst snd] in *.
  assert (Hdrop : forall m : M (World E) B, refines m -> exists s', steps s4 s' /\ linked (m w3).2 s' None None).
  { intros m Hm. destruct (linked_dropped _ _ _ L4) as (s5 & S5 & L5). apply (steps_then _ _ _ S5).
    apply Hm; [by eapply steps_inv|done]. }
  destruct o as [rec|e]; [|by apply Hdrop].
  destruct Ho as [(x & -> & Hx)|[e He]]; [|done]. destruct x as [rec'| |]; try done. injection Hx as <-.
  unfold grant. destruct (validAcquisition key owner rec) eqn:Hv; simpl; rewrite M_bind_eq.
  - destruct (linked_granted _ _ _ _ _ _ _ _ L4 Hv) as (s5 & S5 & L5). apply (steps_then _ _ _ S5).
    apply Hsucc; [by eapply steps_inv|done].
  - apply Hdrop. auto.
Qed.

Lemma refines_ext {A} (m m' : M (World E) A) : (forall w, m w = m' w) -> refines m -> refines m'.
Proof. intros He Hm w s Hi L. rewrite <- He. by apply Hm. Qed.

(** Only the counters of the client change. *)
Lemma refines_counter {A} (m : M (World E) A) :
  (forall w, w_env (m w).2 = w_env w /\ w_handles (m w).2 = w_handles w) -> refines m.
Proof. intros He w s _ L. exists s. split; [done|]. unfold linked. by destruct (He w) as [-> ->]. Qed.

(** Walk through a computation to its calls. *)
Ltac refines_leaf :=
  first [ apply withTimeout_refines
        | apply refines_quiet; intros;
          first [ apply se_time | apply se_clock | apply se_ctx | apply se_owner | apply se_jitter
                | apply se_new_cancel | apply se_cancel ] ].
Ltac refines_walk tac :=
  repeat first [ apply refines_ret | solve [refines_leaf] | solve [tac]
               | apply refines_bind; [|intros ?] | step_case ].

Lemma acquisitionContextError_refines ctx : refines (acquisitionContextError ctx).
Proof. unfold acquisitionContextError. refines_walk idtac. Qed.

Lemma waitDeadlineReached_refines parent ctx : refines (waitDeadlineReached parent ctx).
Proof. unfold waitDeadlineReached. refines_walk idtac. Qed.

Lemma TryAcquire_refines ctx key p : policy_ok p -> refines (Client.TryAcquire ctx key p).
Proof.
  intros Hp. unfold Client.TryAcquire. apply refines_bind; [apply acquisitionContextError_refines|].
  intros [e|]; [apply refines_ret|]. destruct ctx as [c|]; [|apply refines_ret].
  apply refines_bind; [refines_leaf|]. intros o. destruct (usableOwner o) as [owner|]; [|apply refines_ret].
  apply refines_bind; [apply withTimeout_refines|]. intros operationContext.
  eapply refines_ext; [|apply (attempt_refines operationContext key owner p (fun e => mret (Err e)) mret Hp);
    intros; apply refines_ret].
  intros w. do 3 (apply M_bind_ext; intros ? ?). step_case; [|done]. by rewrite M_bind_eq; destruct (grant _ _ _ _ _ _ _).
Qed.

Lemma boundedJitter_range d : 0 <= d -> mpost (fun j (_ : World E) => 0 <= j <= d) (boundedJitter d).
Proof. intros Hd. unfold boundedJitter. mpost_walk. lia. Qed.

Lemma sleep_refines ctx d : 0 <= d -> refines (sleeper_Sleep ctx d).
Proof. intros Hd. apply refines_quiet. intros. by apply se_sleep. Qed.

Lemma acquireLoop_refines p ctx waitContext key owner dl fuel : forall attempt,
  policy_ok p -> refines (acquireLoop fuel attempt ctx waitContext key owner p dl).
Proof.
  induction fuel as [|fuel IH]; intros attempt Hp; [apply refines_ret|]. simpl acquireLoop.
  apply refines_bind; [apply withTimeout_refines|]. intros operationContext.
  apply attempt_refines; [done| |intros; apply refines_ret]. intros e.
  apply refines_bind; [apply waitDeadlineReached_refines|]. intros reached.
  step_case; [apply refines_ret|]. step_case; [apply refines_ret|].
  pose proof Hp as [Hv _]. pose proof (pv_jitter _ Hv).
  apply (refines_bind_post (fun j => 0 <= j <= jitter p));
    [unfold boundedJitter; refines_walk idtac|apply boundedJitter_range; lia|].
  intros j Hj. rewrite (delay_exact p j Hv Hj).
  step_case; [apply refines_ret|]. apply refines_bind; [refines_leaf|]. intros now.
  step_case; [apply refines_ret|]. apply refines_bind; [apply sleep_refines; lia|].
  intros [se|]; [|by apply IH].
  apply refines_bind; [apply waitDeadlineReached_refines|intros; apply refines_ret].
Qed.

Lemma reserveWaiter_refines capacity : refines (reserveWaiter capacity).
Proof. apply refines_counter. intros w. unfold reserveWaiter. by destruct (w_waiters w <? capacity). Qed.

Lemma Acquire_refines fuel client ctx key p : policy_ok p -> refines (Acquire fuel client ctx key p).
Proof.
  intros Hp. unfold Acquire, acquireReserved.
  refines_walk ltac:(first [ apply acquisitionContextError_refines | by apply acquireLoop_refines
    | apply reserveWaiter_refines
    | by apply refines_counter ]).
Qed.

(** ** Managed renewal *)

(** The section of [StartManaged] at the instant of its readings. *)
Lemma linked_start w s capacity hid now :
  linked w s None None ->
  exists s', steps s s' /\ linked (startSection capacity hid now (real s) w).2 s' None None.
Proof.
  intros L. unfold startSection. destruct (w_handles w !! hid) as [h|] eqn:Hh; [|by exists s].
  destruct (StartManaged now (real s) (w_managed w <? capacity) h) as [e h'] eqn:Hst.
  pose proof (local_start (real s) now (w_managed w <? capacity) h) as Hl. rewrite Hst in Hl.
  destruct (linked_local _ _ _ _ _ L Hh Hl) as (s1 & S1 & L1). exists s1. split; [done|].
  by destruct e.
Qed.

Lemma HandleStartManaged_refines capacity hid ctx : refines (HandleStartManaged capacity hid ctx).
Proof.
  intros w s Hi L. unfold HandleStartManaged.
  destruct (linked_clock _ _ _ _ L) as (now & w1 & s1 & E1 & S1 & L1 & _).
  rewrite M_bind_eq, E1. cbn [fst snd]. apply (steps_then _ _ _ S1). apply (steps_inv _ _ Hi) in S1 as Hi1.
  destruct (linked_time _ _ _ _ L1) as (wall & w2 & s2 & E2 & S2 & L2 & _ & ->).
  rewrite M_bind_eq, E2. cbn [fst snd]. apply (steps_then _ _ _ S2). apply (steps_inv _ _ Hi1) in S2 as Hi2.
  rewrite M_bind_eq. destruct (linked_start _ _ capacity hid now L2) as (s3 & S3 & L3).
  apply (steps_then _ _ _ S3). apply (steps_inv _ _ Hi2) in S3 as Hi3. revert Hi3 L3.
  generalize (startSection capacity hid now (real s2) w2). intros [[e|] w3] Hi3 L3; cbn [fst snd] in *;
    [by exists s3|]. revert w3 s3 S3 Hi3 L3. intros w3 s3 _. revert w3 s3.
  change (refines (run ← withCancel ctx; mret (Ok run : res (Context * nat)))).
  unfold withCancel. refines_walk idtac.
Qed.

(** A round of the renewer sleeps for the period of a validated policy. *)
Lemma renewalRound_refines hid ctx : refines (renewalRound hid ctx).
Proof.
  intros w s Hi L. unfold renewalRound. rewrite M_bind_eq.
  assert (Hp : (policyOf hid w).2 = w /\ 0 <= renewEvery (policyOf hid w).1).
  { unfold policyOf. destruct (w_handles w !! hid) as [h|] eqn:Hh; [|by rewrite onHandle_none].
    rewrite (onHandle_some _ _ _ _ _ Hh). cbn [fst snd]. rewrite (set_handles_id _ _ _ Hh). split; [done|].
    pose proof (nk_policy _ _ (iv_nodes _ _ Hi _ _ (linked_lookup _ _ _ _ _ _ L Hh))) as [Hv _].
    simpl in Hv. destruct (pv_renew _ Hv); lia. }
  destruct Hp as [-> Hp]. revert w s Hi L Hp. intros w s Hi L. generalize (policyOf hid w).1. intros p Hp.
  revert w s Hi L. change (refines (sleepErr ← sleeper_Sleep ctx (renewEvery p);
    match sleepErr with
    | Some _ => mret (Some None)
    | None => renewErr ← HandleRenew hid ctx; afterRenew hid renewErr
    end)). unfold afterRenew.
  refines_walk ltac:(first [by apply sleep_refines | apply HandleRenew_refines | apply HandleState_refines]).
Qed.

Lemma runExit_refines hid : refines (runExit hid).
Proof.
  apply refines_bind; [|intros; by apply refines_counter]. intros w s _ L.
  destruct (w_handles w !! hid) as [h|] eqn:Hh; [|rewrite onHandle_none by done; by exists s].
  rewrite (onHandle_some _ _ _ _ _ Hh). by eapply linked_local; [| |apply local_exit].
Qed.

Lemma run_refines n hid ctx : refines (run n hid ctx).
Proof.
  assert (Hloop : refines (renewalLoop n hid ctx)).
  { induction n as [|n IH]; simpl; [apply refines_ret|].
    refines_walk ltac:(first [apply renewalRound_refines | apply IH]). }
  unfold run. refines_walk ltac:(first [apply Hloop | apply runExit_refines]).
Qed.

(** [Stop] between the calls of a program: the renewer has ended, or is at its sleep. *)
Lemma Stop_refines n (ended pick : bool) hid runContext cancel ctx :
  refines (Stop n (if ended then None else Some Sleeping) pick hid runContext cancel ctx).
Proof.
  assert (Hresume : refines (resume n Sleeping hid runContext)).
  { intros w s. rewrite <- run_resume. apply run_refines. }
  unfold Stop. refines_walk ltac:(exact Hresume).
Qed.

(** ** Programs *)

(** A call of a method of [Client], [Handle] or [Managed]. A program, whatever it
    decides on, makes a sequence of them. *)
Inductive command :=
| DoTryAcquire (ctx : option Context) (key : Key) (p : Policy)
| DoAcquire (fuel : nat) (client : Client) (ctx : option Context) (key : Key) (p : Policy)
| DoState (id : nat)
| DoRenew (id : nat) (ctx : Context)
| DoValidate (id : nat) (ctx : Context)
| DoRelease (id : nat) (ctx : Context)
| DoStartManaged (capacity : Z) (id : nat) (ctx : Context)
| DoRun (n id : nat) (ctx : Context)
| DoStop (n : nat) (ended pick : bool) (id : nat) (runContext : Context) (cancel : nat) (ctx : Context).

Definition exec (c : command) : M (World E) () :=
  match c with
  | DoTryAcquire ctx key p => _ ← Client.TryAcquire ctx key p; mret ()
  | DoAcquire fuel client ctx key p => _ ← Acquire fuel client ctx key p; mret ()
  | DoState id => _ ← HandleState id; mret ()
  | DoRenew id ctx => _ ← HandleRenew id ctx; mret ()
  | DoValidate id ctx => _ ← HandleValidate id ctx; mret ()
  | DoRelease id ctx => _ ← HandleRelease id ctx; mret ()
  | DoStartManaged capacity id ctx => _ ← HandleStartManaged capacity id ctx; mret ()
  | DoRun n id ctx => _ ← run n id ctx; mret ()
  | DoStop n ended pick id runContext cancel ctx =>
      _ ← Stop n (if ended then None else Some Sleeping) pick id runContext cancel ctx; mret ()
  end.

Fixpoint exec_all (cs : list command) : M (World E) () :=
  match cs with
  | [] => mret ()
  | c :: cs' => _ ← exec c; exec_all cs'
  end.

(** Acquisitions come with a validated policy, whose margin covers the granularity. *)
Definition command_ok (c : command) : Prop :=
  match c with DoTryAcquire _ _ p | DoAcquire _ _ _ _ p => policy_ok p | _ => True end.

Lemma exec_refines c : command_ok c -> refines (exec c).
Proof.
  intros Hc. destruct c; simpl in *; (apply refines_bind; [|intros; apply refines_ret]);
    auto using TryAcquire_refines, Acquire_refines, HandleState_refines, HandleRenew_refines,
      HandleValidate_refines, HandleRelease_refines, HandleStartManaged_refines, run_refines, Stop_refines.
Qed.

Lemma exec_all_refines cs : Forall command_ok cs -> refines (exec_all cs).
Proof.
  induction 1; simpl; [apply refines_ret|]. apply refines_bind; [by apply exec_refines|done].
Qed.

(** A process without handles joins the others. *)
Lemma linked_fresh w :
  w_handles w = [] -> reachable skew (env_sys (w_env w)) ->
  exists s, reachable skew s /\ linked w s None None.
Proof.
  intros Hw (t & b & Hwf & Hs). unfold linked. rewrite Hw.
  destruct (agree_steps skew _ _ (sinit t b) (own_nodes [] None) (own_attempts None) Hs) as (s & H & Ha).
  - split; simpl; try done; split; intros i; rewrite !lookup_empty; by destruct i.
  - exists s. split; [by exists t, b|done].
Qed.

Lemma exec_all_linked cs w :
  Forall command_ok cs -> w_handles w = [] -> reachable skew (env_sys (w_env w)) ->
  exists s, reachable skew s /\ linked (exec_all cs w).2 s None None.
Proof.
  intros Hok Hw Hr. destruct (linked_fresh w Hw Hr) as (s & Hs & L).
  destruct (exec_all_refines cs Hok w s (reachable_inv _ _ Hs) L) as (s' & S' & L').
  exists s'. split; [|done]. destruct Hs as (t & b & Hwf & H). exists t, b. split; [done|by etransitivity].
Qed.

(** The handles of the process and of the others, seen in the whole system. *)
Lemma linked_admits w s hid h now :
  linked w s None None -> w_handles w !! hid = Some h ->
  (StateOf now (real (env_sys (w_env w))) h).1 = StateActive -> admits s (mine hid) h.
Proof.
  intros L Hh Hst. exists None, None, now. split_and!; [by apply (linked_lookup _ _ _ _ _ _ L Hh)|tauto|].
  by rewrite (ag_real _ _ _ _ L).
Qed.

Lemma linked_admits_other w s hid h :
  linked w s None None -> admits (env_sys (w_env w)) hid h -> admits s (theirs hid) h.
Proof.
  intros L (op & r & now & Hn & Hrel & Hst). exists op, r, now.
  by rewrite (proj1 (ag_nodes _ _ _ _ L)), (ag_real _ _ _ _ L).
Qed.

(** C3: runs of whole methods are safe. A process without handles, in an environment
    that is any reachable system of other processes on the same backend, makes any
    sequence of calls of the methods of client, handle and managed renewal: the outcome
    is a reachable state of the whole system. In it two handles of the process that
    report [StateActive] are handles of different keys; so are a handle of the process
    that reports [StateActive] and one of another process that admits work, that is,
    reports [StateActive] with no release of its own in flight; and a handle of the
    process and one of another process on the same key, whatever they report, carry
    different fences. *)
Theorem client_runs_safe cs w0 :
  Forall command_ok cs -> w_handles w0 = [] -> reachable skew (env_sys (w_env w0)) ->
  let w := (exec_all cs w0).2 in
  let active h := exists now, (StateOf now (real (env_sys (w_env w))) h).1 = StateActive in
  (exists s, reachable skew s /\ linked w s None None) /\
  (forall i j hi hj, w_handles w !! i = Some hi -> w_handles w !! j = Some hj -> active hi -> active hj ->
     i <> j -> rkey (record hi) <> rkey (record hj)) /\
  (forall i j hi hj, w_handles w !! i = Some hi -> active hi -> admits (env_sys (w_env w)) j hj ->
     rkey (record hi) <> rkey (record hj)) /\
  (forall i j hi nj, w_handles w !! i = Some hi -> nodes (env_sys (w_env w)) !! j = Some nj ->
     rkey (record hi) = rkey (record (n_handle nj)) -> Token hi <> Token (n_handle nj)).
Proof.
  intros Hok Hw Hr. cbv zeta. destruct (exec_all_linked cs w0 Hok Hw Hr) as (s & Hs & L).
  split; [by exists s|]. split; [|split].
  - intros i j hi hj Hi Hj [n1 A1] [n2 A2] Hne.
    apply (admits_exclusive skew s (mine i) (mine j)); [done|by eapply linked_admits..|].
    by rewrite mine_inj.
  - intros i j hi hj Hi [n1 A1] A2.
    apply (admits_exclusive skew s (mine i) (theirs j));
      [done|by eapply linked_admits|by eapply linked_admits_other|].
    intros He. by apply (theirs_mine j i).
  - intros i j hi [hj op r] Hi Hj Hk Ht. simpl in *. apply reachable_inv in Hs.
    pose proof (linked_lookup _ _ _ _ _ _ L Hi) as H1. rewrite <- (proj1 (ag_nodes _ _ _ _ L)) in Hj.
    apply (owns_handle (pendingAcquires s)) in H1, Hj. unfold Token in Ht. rewrite Hk, Ht in H1.
    pose proof (iv_unique _ _ Hs _ _ _ _ H1 Hj) as [= He]. by apply (theirs_mine j i).
Qed.
End Process.

(** ** The executable world beside idle processes *)

Section Sim.
Variable others : gmap nat node.

Definition sim_sys (s : Sim) : sys Store := MkSys (s_now s) (s_store s) ∅ others [].

Lemma sim_quiet {A} (f : Sim -> A * Sim) w :
  s_now (w_env w) <= s_now (f (w_env w)).2 -> s_store (f (w_env w)).2 = s_store (w_env w) ->
  quiet 0 sim_sys w (set_sim f w).2.
Proof.
  unfold quiet, set_sim. destruct (f (w_env w)) as [a s]. simpl. intros Ht Hs. split; [done|].
  apply rtc_once. unfold sim_sys. rewrite Hs. by constructor.
Qed.

(** A method of the memory store is one call of its backend. *)
Lemma sim_called c (w w' : World Sim) ctxErr r (answered : reply -> Prop) failed :
  w_handles w' = w_handles w -> s_now (w_env w') = s_now (w_env w) ->
  perform ctxErr (s_now (w_env w)) c (s_store (w_env w)) = (r, s_store (w_env w')) -> answered r ->
  called 0 sim_sys c w w' answered failed.
Proof.
  intros Hh Ht Hp Ha. split; [done|]. exists (sim_sys (w_env w)), (sim_sys (w_env w')).
  split_and!; [done|done|]. right. exists r, (s_store (w_env w')). split_and!; [|unfold sim_sys, set_backend; simpl; congruence|by left].
  simpl. rewrite Z.add_0_r. by exists ctxErr.
Qed.

#[local] Program Instance sim_system : SystemEnv Sim Store 0 := {| env_sys := sim_sys |}.
Solve Obligations with (intros; apply sim_quiet; simpl; (lia || done)).
Next Obligation. intros w. split; [apply sim_quiet; simpl; (lia || done)|done]. Qed.
Next Obligation.
  intros ctx key owner d w. cbn zeta. unfold backend_TryAcquire, sim_env, set_sim.
  destruct (Memory.TryAcquire (sim_err (w_env w) ctx) (s_now (w_env w)) key owner d (s_store (w_env w)))
    as [r st] eqn:Hr.
  eapply (sim_called _ _ _ (sim_err (w_env w) ctx) (reply_of r)); simpl; [done|done|by rewrite Hr|by destruct r].
Qed.
Next Obligation.
  intros ctx owned d w. cbn zeta. unfold backend_Renew, sim_env, set_sim.
  destruct (Memory.Renew (sim_err (w_env w) ctx) (s_now (w_env w)) owned d (s_store (w_env w))) as [r st] eqn:Hr.
  eapply (sim_called _ _ _ (sim_err (w_env w) ctx) (reply_of r)); simpl; [done|done|by rewrite Hr|by destruct r].
Qed.
Next Obligation.
  intros ctx owned w. cbn zeta. unfold backend_Validate, sim_env, set_sim.
  destruct (Memory.Validate (sim_err (w_env w) ctx) (s_now (w_env w)) owned (s_store (w_env w))) as [r st] eqn:Hr.
  eapply (sim_called _ _ _ (sim_err (w_env w) ctx) (reply_of r)); simpl; [done|done|by rewrite Hr|by destruct r].
Qed.
Next Obligation.
  intros ctx owned w. cbn zeta. unfold backend_Release, sim_env, set_sim.
  destruct (Memory.Release (sim_err (w_env w) ctx) owned (s_store (w_env w))) as [r st] eqn:Hr.
  eapply (sim_called _ _ _ (sim_err (w_env w) ctx) (ack_of r)); simpl; [done|done|by rewrite Hr|by destruct r].
Qed.
End Sim.

(** A process that acquires, renews and validates one key while another process holds
    another one. *)
Definition beside : World Sim :=
  MkWorld (MkSim 100 "me" (perform None 100 (CallTryAcquire k2 "b" 10) store0).2 0 false 0 [] (fun _ => 0)) [] 0 0.
Definition neighbour : gmap nat node := {[0%nat := idle rec2]}.
Definition orders : list command :=
  [DoTryAcquire (Some Background) k1 pol0; DoRenew 0 Background; DoValidate 0 Background].

Lemma neighbour_reachable : reachable 0 (sim_sys neighbour (w_env beside)).
Proof.
  exists 100, store0. split; [exact store0_wf|].
  apply (acquire_steps 0 100 store0 _ ∅ [] 0%nat k2 "b" pol0 rec2); try done;
    [exact pol0_ok|by exists None].
Qed.

Lemma client_runs_safe_witness :
  let w := (exec_all (E := Sim) orders beside).2 in
  reachable 0 (sim_sys neighbour (w_env beside)) /\
  exists h, w_handles w = [h] /\ (StateOf 100 100 h).1 = StateActive /\ rkey (record h) <> rkey (record (newHandleAt pol0 rec2 100 100)).
Proof.
  split; [exact neighbour_reachable|].
  assert (Hok : Forall command_ok orders).
  { constructor; [exact pol0_ok|repeat constructor]. }
  destruct (client_runs_safe (SystemEnv0 := sim_system neighbour) orders beside Hok eq_refl neighbour_reachable)
    as (_ & _ & H & _).
  eexists. split; [vm_compute; reflexivity|]. split; [reflexivity|].
  eapply (H 0%nat 0%nat); [vm_compute; reflexivity|exists 100; reflexivity|].
  exists None, None, 100. split_and!; [reflexivity|tauto|reflexivity].
Defined.
